(* ===== verification/_CoqProject ===== *)
-Q . S2P
Prelude.v
CLib.v
World.v
Strtod.v
Types.v
Validate.v
Headers.v
Query.v
Request.v
Net.v
Segments.v
Time.v
Response.v
SendFile.v
Encoder.v
Accepts.v
Static.v
Routing.v
Json.v
Multipart.v
Server.v
Lifecycle.v
WsCrypto.v
WsSession.v
WsProtocol.v
WsWire.v
WsThreads.v
WsDispatch.v
Tpl.v
TplCss.v
StateErr.v
Ctmpl.v
CtmplParse.v
CtmplGen.v
CtmplProg.v
CtmplSem.v
CtmplOut.v
CtmplRuns.v
CtmplMain.v
CtmplDoc.v
CtmplRound.v
CtmplUnit.v
ExampleArgs.v
ExampleEcho.v
ExampleChat.v
ExampleHome.v
ExampleTempl.v
ExampleApp.v
