(* ===== verification/Prelude.v ===== *)
(** * A verified model of the c-http server library

    The library is a C11 HTTP/1.1 server: [src/src/c_http.c] (parsing, routing,
    responses, the connection loop and the threads), [src/src/c_http_static.c]
    (static files), [src/src/c_http_encoder.c] (content coding),
    [src/src/c_http_ws.c] (websockets) and [src/src/c_http_tpl.c] (the runtime of
    compiled templates), with its interface in [src/include]; [src/tools/ctmpl.c] is the
    compiler that turns templates into C.
    This development translates these files function by function - a definition
    keeps the name of the C function it models - and proves what makes them
    correct.

    ** How the program works, and which file models what

    A program configures an [HttpServer] (routes, routers, middleware, encoders,
    static mounts, an error handler) and calls [http_listen].  Each accepted
    connection is run by [handle_client], in a worker thread or in the accept
    loop: it reads a request head, parses it, reads the body, asks the websocket
    layer whether the request is an upgrade, runs middleware and the handler the
    routes select, encodes the body and sends the response, and starts over on a
    connection that is kept alive.

    - [Prelude] (this file): bytes, lengths, automation.  [CLib]: the functions of
      the C library the sources call.  [Strtod]: [strtod] on decimal and
      hexadecimal text.  [World]: system calls, allocation and the state monad.
    - [Types]: [HttpRequest], [HttpResponse], limits ([c_http.h]).
    - [Validate], [Headers], [Query], [Request]: header lists, query strings,
      request line and header block ([parse_request_line], [parse_headers]).
    - [Net]: [read_request], [read_body], [send_all].
    - [Segments], [Routing]: patterns, [segments_match_at], registration, routers
      and mounts, middleware, [execute_handler].  A router is an object on a heap
      and a mount points to it, so routes added after mounting are seen.
    - [Time], [Response], [SendFile], [Encoder], [Accepts]: dates, the response helpers,
      [send_res], the portable [send_fd], [http_encode_body], [http_req_accepts].
    - [Static]: mounts, path decoding and confinement, entity tags, ranges.
    - [Json], [Multipart]: access to JSON and multipart bodies.
    - [Server]: [handle_client].  It reaches the websocket layer through the class
      [WsLayer], whose law says that a request which is no upgrade has no effect.
    - [Lifecycle]: [http_create_server], [http_close_server], and the accept loop
      with its workers as a step relation [pool_step] of critical sections.
    - [WsCrypto], [WsSession]: SHA-1 and Base64, the frame parser and the session
      operations.  [WsProtocol]: what a session delivers of a byte stream.
      [WsWire]: what it puts on the wire, a stream of messages, a closed session.
      [WsThreads]: several threads on one session, a step at a time.
    - [WsDispatch]: websocket routes, [http_ws_dispatch] with the checks of the
      handshake, and the instance [ws_layer] of [WsLayer]; the theorem about whole
      connections ([connection_wire]) is here, where loop and layer meet.
    - [Tpl]: the output of a template ([TplOut]), its arena, escaping, URLs,
      fragments, once blocks, [http_res_html].  [TplCss]: the CSS sanitizer.
    - [Ctmpl], [CtmplGen]: the template compiler, from source to nodes ([parse_body]) and
      from nodes to C ([ctmpl_compile]); [StateErr] is the monad of both.  [CtmplParse]:
      positions, tag stack and nodes while parsing.  [CtmplProg]: compiling ends with an
      answer.  [CtmplSem]: the programs that are printed and what they do.  [CtmplOut]:
      string literals, and what is written when.  [CtmplMain]: the command line
      ([ctmpl_main.c]) and the files it reads, writes and removes.
    - [CtmplRuns], [CtmplDoc], [CtmplRound], [CtmplUnit]: templates as documents ([Doc],
      [Decl]) with a printer and a meaning of their own.  [CtmplRuns] has the rules for
      runs of the parser on text it accepts, [CtmplDoc] the documents, attributes and
      tags, [CtmplRound] text, statements and calls, [CtmplUnit] whole files, up to the
      meaning of the compiled program.
    - [ExampleArgs], [ExampleHome], [ExampleTempl], [ExampleEcho], [ExampleChat],
      [ExampleApp]: the example server
      ([src/examples]), a client of the library.  [ExampleArgs] is its command line over the
      class [Cargs] (the option parser is a library); [ExampleHome] its generated page over [Tpl],
      which [ExampleTempl] generates again from the template; [ExampleApp] has the handlers, the
      middlewares and [main], which configures a server through [Routing], [Static] and
      [WsDispatch] and creates it through [Lifecycle]; [ExampleEcho] and [ExampleChat] are
      its websocket handlers over [WsSession], the chat as a step relation over the threads
      of all connections and their shared list.

    ** Conventions

    - A [char] buffer is a list of [Z]; a C string is the list of its bytes before
      the NUL, and [option] where the pointer may be NULL.  Struct pointers are
      not NULL.  An array with a count is the list of its used slots, except the
      parameter slots of a request, which the matcher writes beyond the count.
      Integers are in [Z], with wrap-around written out where a computation can
      leave its type ([to_off_t], [to_size_t], the 32-bit words of SHA-1).
    - Effects go through [M], a state monad over [World]: a list of outcomes for
      the next allocations, queues of what [recv] and [send] will do, the values
      [listening] will show, the clock, the file system, and what was sent.  Every
      theorem that does not fix these quantifies over them: failing allocations,
      short reads and writes, timeouts and resets are all covered.
    - The template compiler runs in [SE], state and failure over [M].  Its fuel is the text
      left or the size of the nodes; [ctmpl_compile_answers] shows it is never used up.
    - Callbacks of the user (handlers, middleware, error handler), encoders (zlib)
      and the file system are parameters.  [callbacks_quiet] says that a callback
      does not use the client's socket, which no interface hands to it.
    - A loop is a [Fixpoint] on the text it consumes, or has fuel.  The fuel is the
      length of the input plus a constant for parsers, the size of the receive
      queue for loops over [recv] ([recv_size] bounds the answers left), and the
      theorems [handle_client_fuel] and [parse_loop_fuel] show that more changes
      nothing; [parse_headers_loop_print], [media_ranges_fuel] and the other
      specifications are stated for every sufficient fuel.
    - The uninitialised stack buffers of [parse_multipart] are an argument.

    ** What is shown

    - Connections: all that is sent is a sequence of responses, then possibly an
      error response of the handshake or the 101 head and frames; the loop
      terminates, reading finds the blank line however the input is cut, a body is
      exactly its [Content-Length] bytes.
    - Parsing: request lines, header blocks, queries, JSON members and multipart
      bodies are read back as they were printed, and what is accepted fits its
      buffers and is clean.
    - Routing: the configuration interface keeps an invariant, matching is
      segment by segment, and [execute_handler] picks the first match, binds
      exactly its parameters, and otherwise answers 204, 405, 404 or 501.
    - Responses: the bytes on the wire are safe lines, a blank line and the body
      or a slice of a file, the same on both platforms; the helpers keep the response well formed.
    - Negotiation and coding: the winner is the first of the best acceptable
      offers, a coding is used only when accepted and smaller.
    - Static files: what is served lies below the root; ranges lie in the file.
    - Threads: no more workers than the limit, tear-down only when every
      connection was handled once and closed; a server that is stopped comes to it after
      a bounded number of steps.
    - WebSockets: the layer takes exactly the upgrades that match a route, the first
      failing check decides the answer, the accept key is the FIPS 180 hash in
      Base64, a session delivers the messages of the stream, stays within its
      buffers, sends only frames a client can read, and is over once closed.  Threads that
      send on one session act one after the other, and their frames stay whole.
    - Templates: what is escaped is read back, a selected fragment is rendered
      exactly, URLs and CSS that pass are harmless, a once block fires once, and a
      rendered page becomes the body of the response; running out of memory is
      always noted and never shows more than a prefix.
    - The template compiler: it answers every source, with a place in the source when it
      refuses it; the parser keeps cursor and tag stack well formed; a source that is
      refused leaves no output; the C it prints is a program that renders the template,
      with child blocks lifted to functions that are defined before they are used; literals
      are read back.  A file written from documents is parsed to what they describe, and
      the program compiled from it renders the documents.  A run of the tool
      changes its two outputs only, and leaves none behind when it fails.
    - The example server: the command line is read to its end or its first bad option and
      the program answers each; while memory lasts [main] configures the server its source
      describes, in which no handler is reached below [/api] and [/admin] without the
      credentials; the home page is served whole or not at all, with its values escaped, and
      the generated files the repository keeps are what the compiler prints; the echo handler ends and returns every message; the chat's list holds
      live sessions only, each once.
    - Examples and lemmas record where the code departs from its intention
      ([double_slash_no_middleware], [send_res_range_gone],
      [hdr_line_unterminated], [json_decode_overflow], [multipart_leaks_stack],
      [encode_body_unlabelled], [http_create_server_leaks], [ws_nul_overrun],
      [pipelined_request_dropped], [long_subprotocol_silent],
      [once_registry_misaligned], [css_blank_before_colon], [trigraph_changes_text],
      [script_behind_blank], [oom_double_free], [full_disk_succeeds], [data_after_close],
      [chat_crashes], [admin_bypassed] and others).

    ** What is not modelled

    Not modelled: the results of [fprintf], which the compiler ignores, and the depth of its
    recursion; assertions and debug output, which a release build drops; logging; socket
    options and the installation of signal handlers; two spellings of one path (for [ctmpl], a path is its
    spelling); what the example's handlers print; in the chat a call of
    [http_ws_recv] is one step, so a line that arrives while a thread waits for input is sent in
    front of the wait; in [ExampleApp] the chat handler is a parameter, because there one
    connection is seen at a time; the tests; the reads of [close_sent] and [close_received] that the code makes without
    the lock of a session; the opaque context of a template and its child callbacks, which the runtime never touches;
    zlib; [vsnprintf] (its result is an argument of [tpl_fmt]).  Texts of templates
    are shorter than 2 GiB, so that the [int] precisions of [css_rebuild] hold them. *)

From Stdlib Require Export Lia.
From Stdlib Require Strings.String Strings.Byte.
From stdpp Require Export base numbers option tactics list.
Export Stdlib.Strings.String.StringSyntax.

#[local] Open Scope Z_scope.

(** ** Bytes and character literals

    A C [char] or [unsigned char] is an integer in [0, 256); a byte buffer is a
    list of them.  ["/"%ch] is the integer code of the character, so that
    [lia] sees a numeral. *)

Abbreviation bytes := (list Z).

Declare Scope char_lit_scope.
Delimit Scope char_lit_scope with ch.

Definition char_parse (l : list Byte.byte) : option Z :=
  match l with [b] => Some (Z.of_N (Byte.to_N b)) | _ => None end.

Definition char_print (z : Z) : option (list Byte.byte) :=
  match Byte.of_N (Z.to_N z) with Some b => Some [b] | None => None end.

String Notation Z char_parse char_print : char_lit_scope.

Abbreviation NUL := 0 (only parsing).
Abbreviation HT := 9 (only parsing).
Abbreviation LF := 10 (only parsing).
Abbreviation CR := 13 (only parsing).
Abbreviation SP := 32 (only parsing).
Abbreviation DQUOTE := 34 (only parsing).
Abbreviation BACKSLASH := 92 (only parsing).

(** A C string literal, as the list of its character codes (no NUL). *)
Definition str (s : String.string) : bytes :=
  map (λ b, Z.of_N (Byte.to_N b)) (String.list_byte_of_string s).
Arguments str _%_string_scope.

Definition is_byte (c : Z) : Prop := 0 <= c < 256.

(** [s] may be stored as a C string: its bytes are not NUL. *)
Definition nul_free (s : bytes) : Prop := Forall (λ c, c ≠ NUL) s.

(** ** Automation *)

Create HintDb chttp.

(** Turns every boolean hypothesis into the proposition it decides. *)
Ltac breflect :=
  repeat match goal with
  | H : _ && _ = true |- _ => apply andb_true_iff in H; destruct H
  | H : _ && _ = false |- _ => apply andb_false_iff in H
  | H : _ || _ = true |- _ => apply orb_true_iff in H
  | H : _ || _ = false |- _ => apply orb_false_iff in H; destruct H
  | H : negb _ = true |- _ => apply negb_true_iff in H
  | H : negb _ = false |- _ => apply negb_false_iff in H
  | H : (_ <=? _) = true |- _ => apply Z.leb_le in H
  | H : (_ <=? _) = false |- _ => apply Z.leb_gt in H
  | H : (_ <? _) = true |- _ => apply Z.ltb_lt in H
  | H : (_ <? _) = false |- _ => apply Z.ltb_ge in H
  | H : (_ =? _) = true |- _ => apply Z.eqb_eq in H
  | H : (_ =? _) = false |- _ => apply Z.eqb_neq in H
  | H : bool_decide _ = true |- _ => apply bool_decide_eq_true in H
  | H : bool_decide _ = false |- _ => apply bool_decide_eq_false in H
  end.

(** Splits on the condition of the first [if] or the first matched term found
    in the goal, keeping the equation. *)
Ltac case_if :=
  match goal with
  | |- context [if ?b then _ else _] => destruct b eqn:?
  end.

Ltac case_if_in H :=
  match type of H with
  | context [if ?b then _ else _] => destruct b eqn:?
  end.

(** Proves a closed decidable proposition by evaluating its decision procedure. *)
Ltac decided :=
  lazymatch goal with |- ?P => apply (bool_decide_unpack P); vm_compute; exact I end.

(** ** Lengths *)

Definition zlen {A} (s : list A) : Z := Z.of_nat (length s).

Lemma zlen_nonneg {A} (s : list A) : 0 <= zlen s.
Proof. unfold zlen. lia. Qed.

Lemma zlen_nil {A} : zlen (@nil A) = 0.
Proof. done. Qed.

Lemma zlen_cons {A} (x : A) s : zlen (x :: s) = 1 + zlen s.
Proof. unfold zlen. rewrite length_cons. lia. Qed.

Lemma zlen_app {A} (s t : list A) : zlen (s ++ t) = zlen s + zlen t.
Proof. unfold zlen. rewrite length_app. lia. Qed.

Lemma zlen_map {A B} (f : A → B) s : zlen (map f s) = zlen s.
Proof. unfold zlen. by rewrite length_map. Qed.

Lemma zlen_nil_inv {A} (s : list A) : zlen s = 0 → s = [].
Proof. destruct s; [done|]. rewrite zlen_cons. pose proof (zlen_nonneg s). lia. Qed.

(** [take]/[drop] with a [Z] count, as in pointer arithmetic. *)
Definition ztake {A} (n : Z) (s : list A) : list A := take (Z.to_nat n) s.
Definition zdrop {A} (n : Z) (s : list A) : list A := drop (Z.to_nat n) s.

Lemma zlen_ztake {A} n (s : list A) : 0 <= n → zlen (ztake n s) = Z.min n (zlen s).
Proof. intros. unfold zlen, ztake. rewrite length_take. lia. Qed.

Lemma zlen_zdrop {A} n (s : list A) : 0 <= n → zlen (zdrop n s) = Z.max 0 (zlen s - n).
Proof. intros. unfold zlen, zdrop. rewrite length_drop. lia. Qed.

Lemma ztake_zdrop {A} n (s : list A) : ztake n s ++ zdrop n s = s.
Proof. apply take_drop. Qed.

Lemma ztake_all {A} n (s : list A) : zlen s <= n → ztake n s = s.
Proof. intros. unfold ztake, zlen in *. apply take_ge. lia. Qed.

Lemma zdrop_all {A} n (s : list A) : zlen s <= n → zdrop n s = [].
Proof. intros. unfold zdrop, zlen in *. apply drop_ge. lia. Qed.

Lemma ztake_app_length {A} (s t : list A) : ztake (zlen s) (s ++ t) = s.
Proof. unfold ztake, zlen. rewrite Nat2Z.id. apply take_app_length. Qed.

Lemma zdrop_app_length {A} (s t : list A) : zdrop (zlen s) (s ++ t) = t.
Proof. unfold zdrop, zlen. rewrite Nat2Z.id. apply drop_app_length. Qed.

Lemma ztake_split {A} k n (s : list A) :
  0 <= k <= n → ztake n s = ztake k s ++ ztake (n - k) (zdrop k s).
Proof.
  intros H. unfold ztake, zdrop. replace (Z.to_nat n) with (Z.to_nat k + Z.to_nat (n - k))%nat by lia.
  by rewrite take_take_drop.
Qed.

(** Any prefix is the prefix of its own length. *)
Lemma ztake_zlen {A} n (s : list A) : ztake (zlen (ztake n s)) s = ztake n s.
Proof.
  unfold ztake, zlen. rewrite Nat2Z.id, length_take.
  destruct (Nat.le_ge_cases (Z.to_nat n) (length s)).
  - by rewrite Nat.min_l.
  - rewrite Nat.min_r by done. by rewrite !take_ge by lia.
Qed.

Create Rewrite HintDb zlen.
#[export] Hint Rewrite @zlen_nil @zlen_cons @zlen_app @zlen_map : zlen.
#[export] Hint Resolve zlen_nonneg : chttp.

(** Arithmetic on lengths: normalises [zlen] and calls [lia]. *)
Ltac zlen_lia :=
  autorewrite with zlen in *;
  repeat match goal with
  | |- context [zlen ?s] =>
      lazymatch goal with
      | H : 0 <= zlen s |- _ => fail
      | _ => pose proof (zlen_nonneg s)
      end
  | _ : context [zlen ?s] |- _ =>
      lazymatch goal with
      | H : 0 <= zlen s |- _ => fail
      | _ => pose proof (zlen_nonneg s)
      end
  end; lia.

(** Joining bit fields that do not overlap. *)
Lemma lor_add n x y : 0 <= n → x mod 2 ^ n = 0 → 0 <= y < 2 ^ n → Z.lor x y = x + y.
Proof.
  intros Hn Hx Hy. assert (Z.land x y = 0) as H.
  { apply Z.bits_inj'. intros i Hi. rewrite Z.land_spec, Z.bits_0.
    destruct (decide (i < n)).
    - rewrite <- (Z.mod_pow2_bits_low x n i) by lia. by rewrite Hx, Z.bits_0.
    - rewrite <- (Z.mod_small y (2 ^ n)) by lia. rewrite Z.mod_pow2_bits_high by lia.
      apply andb_false_r. }
  rewrite Z.add_nocarry_lxor by done. by rewrite Z.lxor_lor.
Qed.
