(* ===== verification/CLib.v ===== *)
(** * The C library functions the code uses

    [string.h], [strings.h], [stdlib.h] and the [printf] conversions, over byte
    lists.  A C string is the list of its bytes before the terminating NUL; a
    [const char *p] walking over a string is the suffix that starts at [p], and
    [*p] is [deref p], which is NUL at the end of the string. *)

From S2P Require Import Prelude.
#[local] Open Scope Z_scope.

(** ** Pointers into strings *)

Definition deref (p : bytes) : Z := match p with [] => NUL | c :: _ => c end.

(** The C string stored in a buffer: the bytes before the first NUL. *)
Fixpoint cstr (buf : bytes) : bytes :=
  match buf with
  | [] => []
  | c :: r => if c =? NUL then [] else c :: cstr r
  end.

(** [while (P( *p )) p++]: the bytes walked over and the pointer reached. *)
Fixpoint span (P : Z → bool) (s : bytes) : bytes * bytes :=
  match s with
  | [] => ([], [])
  | c :: r => if P c then let '(a, b) := span P r in (c :: a, b) else ([], s)
  end.

Definition take_while P s := fst (span P s).
Definition skip_while P s := snd (span P s).

(** [while (len > 0 && P(s[len - 1])) len--]. *)
Fixpoint rtrim (P : Z → bool) (s : bytes) : bytes :=
  match s with
  | [] => []
  | c :: r =>
      match rtrim P r with
      | [] => if P c then [] else [c]
      | t => c :: t
      end
  end.

(** [strchr]: the text before and after the first [c]. *)
Fixpoint split_chr (c : Z) (s : bytes) : option (bytes * bytes) :=
  match s with
  | [] => None
  | x :: r =>
      if x =? c then Some ([], r)
      else match split_chr c r with
           | Some (a, b) => Some (x :: a, b)
           | None => None
           end
  end.

Definition has_chr (c : Z) (s : bytes) : bool := existsb (Z.eqb c) s.

(** [strchr(s, c) != NULL]: the terminator is part of the searched string. *)
Definition strchr_found (s : bytes) (c : Z) : bool := (c =? NUL) || has_chr c s.

(** [strncmp(s, pre, strlen(pre)) == 0]. *)
Fixpoint starts_with (pre s : bytes) : bool :=
  match pre, s with
  | [], _ => true
  | x :: pre', y :: s' => (x =? y) && starts_with pre' s'
  | _ :: _, [] => false
  end.

(** [strstr] and [mem_find]-like searches: the text before the first
    occurrence of [needle] and the text from it on. *)
Fixpoint strstr (needle s : bytes) : option (bytes * bytes) :=
  if starts_with needle s then Some ([], s)
  else match s with
       | [] => None
       | c :: r => match strstr needle r with
                   | Some (a, b) => Some (c :: a, b)
                   | None => None
                   end
       end.

(** [strcmp(a, b) == 0]. *)
Definition streq (a b : bytes) : bool := bool_decide (a = b).

(** ** Case-insensitive comparison (the C locale) *)

Definition tolower (c : Z) : Z := if ("A"%ch <=? c) && (c <=? "Z"%ch) then c + 32 else c.

(** [strcasecmp(a, b) == 0]. *)
Definition strcaseeq (a b : bytes) : bool := streq (map tolower a) (map tolower b).

(** [strncasecmp(s, pre, strlen(pre)) == 0]. *)
Definition starts_with_ci (pre s : bytes) : bool :=
  starts_with (map tolower pre) (map tolower s).

(** ** Character classes *)

Definition is_digit (c : Z) : bool := ("0"%ch <=? c) && (c <=? "9"%ch).
Definition is_lower (c : Z) : bool := ("a"%ch <=? c) && (c <=? "z"%ch).
Definition is_upper (c : Z) : bool := ("A"%ch <=? c) && (c <=? "Z"%ch).
(** [isspace] in the C locale. *)
Definition isspace (c : Z) : bool := (c =? SP) || ((HT <=? c) && (c <=? CR)).
(** Optional whitespace of RFC 9110: SP or HT. *)
Definition is_ows (c : Z) : bool := (c =? SP) || (c =? HT).

(** ** [strtoll(nptr, &end, 10)] *)

Definition LLONG_MAX : Z := 2 ^ 63 - 1.
Definition LLONG_MIN : Z := - 2 ^ 63.
Definition SIZE_MAX : Z := 2 ^ 64 - 1.

Definition digits_val (ds : bytes) : Z := fold_left (λ a c, 10 * a + (c - "0"%ch)) ds 0.

Record StrtollResult := {
  ll_val : Z;        (** the (clamped) value *)
  ll_end : bytes;    (** [*end] and what follows it *)
  ll_conv : bool;    (** [end != nptr]: a conversion took place *)
  ll_erange : bool;  (** [errno == ERANGE] *)
}.

Definition strtoll (nptr : bytes) : StrtollResult :=
  let s := skip_while isspace nptr in
  let '(neg, s) :=
    match s with
    | "-"%ch :: r => (true, r)
    | "+"%ch :: r => (false, r)
    | _ => (false, s)
    end in
  let '(ds, rest) := span is_digit s in
  match ds with
  | [] => {| ll_val := 0; ll_end := nptr; ll_conv := false; ll_erange := false |}
  | _ =>
      let m := digits_val ds in
      let v := if (neg : bool) then - m else m in
      if LLONG_MAX <? v then
        {| ll_val := LLONG_MAX; ll_end := rest; ll_conv := true; ll_erange := true |}
      else if v <? LLONG_MIN then
        {| ll_val := LLONG_MIN; ll_end := rest; ll_conv := true; ll_erange := true |}
      else {| ll_val := v; ll_end := rest; ll_conv := true; ll_erange := false |}
  end.

(** ** [printf] conversions *)

(** The digits of [n >= 0] in base [b], most significant first; the fuel is the
    bit length of [n], at least its number of digits. *)
Fixpoint digits_fuel (fuel : nat) (b : Z) (n : Z) : list Z :=
  match fuel with
  | O => []
  | S f => if n <? b then [n] else digits_fuel f b (n / b) ++ [n mod b]
  end.

Definition digits (b n : Z) : list Z := digits_fuel (S (Z.to_nat (Z.log2 n))) b n.

(** [%zu], [%u], [%llu]. *)
Definition fmt_u (n : Z) : bytes := map (λ d, "0"%ch + d) (digits 10 n).
(** [%d], [%lld]. *)
Definition fmt_d (n : Z) : bytes := if n <? 0 then "-"%ch :: fmt_u (- n) else fmt_u n.
(** [%llx]. *)
Definition fmt_x (n : Z) : bytes :=
  map (λ d, if d <? 10 then "0"%ch + d else "a"%ch + (d - 10)) (digits 16 n).
(** [%0wd] for [n >= 0]. *)
Definition fmt_0d (w : Z) (n : Z) : bytes :=
  replicate (Z.to_nat (w - zlen (fmt_d n))) "0"%ch ++ fmt_d n.

(** [snprintf(buf, size, "%s", s)] stores [snprintf_s size s] and returns
    [zlen s]. *)
Definition snprintf_s (size : Z) (s : bytes) : bytes := ztake (size - 1) s.

(** ** Lemmas: [span], [cstr], [rtrim] *)

Lemma span_app P s a b : span P s = (a, b) → s = a ++ b.
Proof.
  revert a b. induction s as [|c s IH]; intros a b; simpl.
  - by intros [= <- <-].
  - destruct (P c); [|by intros [= <- <-]].
    destruct (span P s) as [a' b'] eqn:E. intros [= <- <-]. simpl. f_equal. by apply IH.
Qed.

Lemma span_forall P s a b : span P s = (a, b) → Forall (λ c, P c = true) a.
Proof.
  revert a b. induction s as [|c s IH]; intros a b; simpl.
  - by intros [= <- <-].
  - destruct (P c) eqn:Hc; [|by intros [= <- <-]].
    destruct (span P s) as [a' b'] eqn:E. intros [= <- <-]. constructor; eauto.
Qed.

(** The walk stops at the end or at a character outside the class. *)
Lemma span_stop P s a b : span P s = (a, b) → b = [] ∨ ∃ c r, b = c :: r ∧ P c = false.
Proof.
  revert a b. induction s as [|c s IH]; intros a b; simpl.
  - intros [= <- <-]. by left.
  - destruct (P c) eqn:Hc; [|intros [= <- <-]; right; eauto].
    destruct (span P s) as [a' b'] eqn:E. intros [= <- <-]. eauto.
Qed.

(** Walking over [a ++ b] when [a] is in the class and [b] starts outside it. *)
Lemma span_app_stop P a b :
  Forall (λ c, P c = true) a → (b = [] ∨ ∃ c r, b = c :: r ∧ P c = false) →
  span P (a ++ b) = (a, b).
Proof.
  intros Ha Hb. induction Ha as [|c a Hc Ha IH]; simpl.
  - destruct Hb as [->|(c & r & -> & Hc)]; [done|]. simpl. by rewrite Hc.
  - by rewrite Hc, IH.
Qed.

Lemma span_all P a : Forall (λ c, P c = true) a → span P a = (a, []).
Proof. intros Ha. rewrite <- (app_nil_r a) at 1. apply span_app_stop; auto. Qed.

Lemma skip_while_length P s : (length (skip_while P s) ≤ length s)%nat.
Proof.
  unfold skip_while. destruct (span P s) as [a b] eqn:E. apply span_app in E. subst.
  rewrite length_app. simpl. lia.
Qed.

Lemma skip_while_id P c s : P c = false → skip_while P (c :: s) = c :: s.
Proof. intros H. unfold skip_while. simpl. by rewrite H. Qed.

Lemma skip_while_suffix P s : ∃ a, s = a ++ skip_while P s.
Proof.
  unfold skip_while. destruct (span P s) as [a b] eqn:E. exists a. by apply span_app in E.
Qed.

Lemma cstr_nul_free buf : nul_free (cstr buf).
Proof.
  induction buf as [|c r IH]; simpl; [constructor|].
  destruct (c =? 0) eqn:E; [constructor|]. constructor; [by breflect|done].
Qed.

Lemma cstr_id s : nul_free s → cstr s = s.
Proof.
  induction 1 as [|c s Hc Hs IH]; [done|]. simpl.
  by rewrite (proj2 (Z.eqb_neq c 0) Hc), IH.
Qed.

Lemma cstr_app s buf : nul_free s → cstr (s ++ buf) = s ++ cstr buf.
Proof.
  induction 1 as [|c s Hc Hs IH]; [done|]. simpl.
  by rewrite (proj2 (Z.eqb_neq c 0) Hc), IH.
Qed.

Lemma cstr_prefix buf : ∃ t, buf = cstr buf ++ t.
Proof.
  induction buf as [|c r [t IH]]; simpl; [by exists []|].
  destruct (c =? 0); [by exists (c :: r)|]. exists t. by rewrite IH at 1.
Qed.

Lemma cstr_length buf : zlen (cstr buf) <= zlen buf.
Proof. destruct (cstr_prefix buf) as [t Ht]. rewrite Ht at 2. zlen_lia. Qed.

Lemma rtrim_prefix P s : ∃ t, s = rtrim P s ++ t ∧ Forall (λ c, P c = true) t.
Proof.
  induction s as [|c s (t & Hs & Ht)]; simpl.
  - exists []. done.
  - destruct (rtrim P s) as [|d u] eqn:E.
    + destruct (P c) eqn:Hc.
      * exists (c :: s). split; [done|]. rewrite Hs. by constructor.
      * exists s. rewrite Hs. done.
    + exists t. rewrite Hs at 1. done.
Qed.

Lemma rtrim_last P s c u : rtrim P s = u ++ [c] → P c = false.
Proof.
  revert u. induction s as [|d s IH]; intros u; simpl.
  - intros H. by destruct u.
  - destruct (rtrim P s) as [|e v] eqn:E.
    + destruct (P d) eqn:Hd; intros H; [by destruct u|].
      destruct u as [|? u]; [by injection H as <-|]. destruct u; discriminate.
    + destruct u as [|? u]; [by intros [=]|]. intros [= -> H]. by apply (IH u).
Qed.

Lemma rtrim_app_trim P s t :
  Forall (λ c, P c = true) t → rtrim P (s ++ t) = rtrim P s.
Proof.
  intros Ht. induction s as [|c s IH]; simpl.
  - induction Ht as [|d t Hd Ht IH]; [done|]. simpl. by rewrite IH, Hd.
  - by rewrite IH.
Qed.

Lemma rtrim_id P s c : P c = false → rtrim P (s ++ [c]) = s ++ [c].
Proof.
  intros Hc. induction s as [|d s IH]; simpl; [by rewrite Hc|].
  rewrite IH. by destruct s.
Qed.

(** ** Lemmas: searching *)

Lemma split_chr_Some c s a b :
  split_chr c s = Some (a, b) ↔ s = a ++ c :: b ∧ c ∉ a.
Proof.
  revert a. induction s as [|x s IH]; intros a; simpl.
  - split; [done|]. intros [H _]. by destruct a.
  - destruct (x =? c) eqn:E; breflect.
    + subst. split.
      * intros [= <- <-]. split; [done|]. apply not_elem_of_nil.
      * intros [H Ha]. destruct a as [|y a]; [by simplify_eq/=|]. simplify_eq/=.
        exfalso. apply Ha. left.
    + destruct (split_chr c s) as [[a' b']|] eqn:E2.
      * split.
        -- intros [= <- <-]. destruct (IH a') as [[-> Hn] _]; [done|].
           split; [done|]. rewrite not_elem_of_cons. auto.
        -- intros [H Ha]. destruct a as [|y a]; simplify_eq/=.
           rewrite not_elem_of_cons in Ha. destruct Ha as [Hne Ha].
           destruct (IH a) as [_ H2]. specialize (H2 (conj eq_refl Ha)). congruence.
      * split; [done|]. intros [H Ha]. destruct a as [|y a]; simplify_eq/=.
        rewrite not_elem_of_cons in Ha. destruct Ha as [Hne Ha].
        destruct (IH a) as [_ H2]. specialize (H2 (conj eq_refl Ha)). congruence.
Qed.

Lemma split_chr_None c s : split_chr c s = None ↔ c ∉ s.
Proof.
  split.
  - induction s as [|x s IH]; simpl; [intros _; apply not_elem_of_nil|].
    destruct (x =? c) eqn:E; [done|]. breflect.
    destruct (split_chr c s) as [[??]|]; [done|]. intros _.
    rewrite not_elem_of_cons. auto.
  - intros Hn. destruct (split_chr c s) as [[a b]|] eqn:E; [|done].
    apply split_chr_Some in E as [-> _]. exfalso. apply Hn.
    apply elem_of_app. right. left.
Qed.

Lemma has_chr_true c s : has_chr c s = true ↔ c ∈ s.
Proof.
  unfold has_chr. rewrite existsb_exists. split.
  - intros (x & Hx & E). breflect. subst. by apply list_elem_of_In.
  - intros H. exists c. split; [by apply list_elem_of_In|]. apply Z.eqb_refl.
Qed.

Lemma has_chr_false c s : has_chr c s = false ↔ c ∉ s.
Proof. rewrite <- not_true_iff_false, has_chr_true. done. Qed.

Lemma starts_with_true pre s : starts_with pre s = true ↔ ∃ t, s = pre ++ t.
Proof.
  revert s. induction pre as [|x pre IH]; intros s; simpl.
  - split; [by exists s|done].
  - destruct s as [|y s]; [split; [done|intros [t [=]]]|].
    rewrite andb_true_iff, Z.eqb_eq, IH. split.
    + intros [-> [t ->]]. by exists t.
    + intros [t [= -> ->]]. eauto.
Qed.

Lemma starts_with_app pre t : starts_with pre (pre ++ t) = true.
Proof. apply starts_with_true. eauto. Qed.

Lemma strstr_Some needle s a b :
  strstr needle s = Some (a, b) → s = a ++ b ∧ starts_with needle b = true.
Proof.
  revert a. induction s as [|c s IH]; intros a; simpl.
  - destruct (starts_with needle []) eqn:E; [|done]. by intros [= <- <-].
  - destruct (starts_with needle (c :: s)) eqn:E; [by intros [= <- <-]|].
    destruct (strstr needle s) as [[a' b']|]; [|done]. intros [= <- <-].
    destruct (IH a' eq_refl) as [-> ?]. done.
Qed.

(** No occurrence of [needle] starts inside the text before the match. *)
Lemma strstr_first needle s a b i :
  strstr needle s = Some (a, b) → (i < length a)%nat →
  starts_with needle (drop i s) = false.
Proof.
  revert a i. induction s as [|c s IH]; intros a i; simpl.
  - destruct (starts_with needle []); [|done]. intros [= <- <-]. simpl. lia.
  - destruct (starts_with needle (c :: s)) eqn:E; [intros [= <- <-]; simpl; lia|].
    destruct (strstr needle s) as [[a' b']|] eqn:E2; [|done]. intros [= <- <-].
    destruct i as [|i]; [done|]. simpl. intros. apply (IH a'); [done|lia].
Qed.

Lemma strstr_None needle s :
  strstr needle s = None ↔ ∀ a b, s = a ++ b → starts_with needle b = false.
Proof.
  split.
  - induction s as [|c s IH]; simpl.
    + destruct (starts_with needle []) eqn:E; [done|]. intros _ a b H.
      symmetry in H. apply app_nil in H as [-> ->]. done.
    + destruct (starts_with needle (c :: s)) eqn:E; [done|].
      destruct (strstr needle s) as [[??]|]; [done|]. intros _ a b H.
      destruct a as [|x a]; simpl in H; [by subst|]. simplify_eq. by apply (IH eq_refl a).
  - intros H. destruct (strstr needle s) as [[a b]|] eqn:E; [|done].
    apply strstr_Some in E as [-> E]. by rewrite (H a b) in E.
Qed.

Lemma streq_true a b : streq a b = true ↔ a = b.
Proof. unfold streq. apply bool_decide_eq_true. Qed.

Lemma streq_false a b : streq a b = false ↔ a ≠ b.
Proof. unfold streq. apply bool_decide_eq_false. Qed.

Lemma streq_refl a : streq a a = true.
Proof. by apply streq_true. Qed.

Lemma tolower_idemp c : tolower (tolower c) = tolower c.
Proof. unfold tolower. repeat case_if; breflect; lia. Qed.

Lemma strcaseeq_refl a : strcaseeq a a = true.
Proof. apply streq_refl. Qed.

Lemma strcaseeq_sym a b : strcaseeq a b = strcaseeq b a.
Proof. unfold strcaseeq, streq. apply bool_decide_ext. done. Qed.

Lemma strcaseeq_trans a b c : strcaseeq a b = true → strcaseeq b c = true → strcaseeq a c = true.
Proof. unfold strcaseeq. rewrite !streq_true. congruence. Qed.

(** ASCII case folding makes two strings equal: the comparison used for header
    names is an equivalence, so lookups may be rewritten along it. *)
Definition ci_equiv (a b : bytes) : Prop := strcaseeq a b = true.

#[export] Instance ci_equiv_equivalence : Equivalence ci_equiv.
Proof.
  split.
  - intros a. apply strcaseeq_refl.
  - intros a b. unfold ci_equiv. by rewrite strcaseeq_sym.
  - intros a b c. apply strcaseeq_trans.
Qed.

#[export] Instance strcaseeq_proper : Proper (ci_equiv ==> ci_equiv ==> eq) strcaseeq.
Proof.
  intros a a' Ha b b' Hb. unfold ci_equiv, strcaseeq in *.
  rewrite !streq_true in *. by rewrite Ha, Hb.
Qed.

(** ** Lemmas: decimal and hexadecimal conversions *)

(** The value of a list of base-[b] digits, most significant first. *)
Definition val_of (b : Z) (ds : list Z) : Z := fold_left (λ a d, b * a + d) ds 0.

Lemma val_of_snoc b ds d : val_of b (ds ++ [d]) = b * val_of b ds + d.
Proof. unfold val_of. by rewrite fold_left_app. Qed.

Lemma digits_fuel_val f b n :
  2 <= b → 0 <= n < 2 ^ Z.of_nat f → val_of b (digits_fuel f b n) = n.
Proof.
  intros Hb. revert n. induction f as [|f IH]; intros n Hn.
  - assert (n = 0) by lia. by subst.
  - simpl. destruct (n <? b) eqn:E; breflect; [unfold val_of; simpl; lia|].
    rewrite val_of_snoc, IH; [pose proof (Z.div_mod n b); lia|].
    rewrite Nat2Z.inj_succ, Z.pow_succ_r in Hn by lia.
    split; [apply Z.div_pos; lia|]. apply Z.div_lt_upper_bound; nia.
Qed.

Lemma digits_fuel_range f b n :
  2 <= b → 0 <= n → Forall (λ d, 0 <= d < b) (digits_fuel f b n).
Proof.
  intros Hb. revert n. induction f as [|f IH]; intros n Hn; simpl; [constructor|].
  destruct (n <? b) eqn:E; breflect; [by constructor|].
  apply Forall_app. split.
  - apply IH. apply Z.div_pos; lia.
  - constructor; [|constructor]. apply Z.mod_pos_bound. lia.
Qed.

Lemma log2_fuel n : 0 <= n → 0 <= n < 2 ^ Z.of_nat (S (Z.to_nat (Z.log2 n))).
Proof.
  intros Hn. rewrite Nat2Z.inj_succ, Z2Nat.id by apply Z.log2_nonneg.
  destruct (decide (n = 0)) as [->|]; [done|]. pose proof (Z.log2_spec n). lia.
Qed.

Lemma digits_val_of b n : 2 <= b → 0 <= n → val_of b (digits b n) = n.
Proof. intros. apply digits_fuel_val; [done|by apply log2_fuel]. Qed.

Lemma digits_range b n : 2 <= b → 0 <= n → Forall (λ d, 0 <= d < b) (digits b n).
Proof. apply digits_fuel_range. Qed.

Lemma digits_not_nil b n : digits b n ≠ [].
Proof.
  unfold digits. simpl. case_if; [done|].
  intros H. apply app_nil in H as [_ H]. discriminate.
Qed.

Lemma digits_val_fmt_u n : 0 <= n → digits_val (fmt_u n) = n.
Proof.
  intros Hn. rewrite <- (digits_val_of 10 n) at 2 by lia.
  unfold digits_val, fmt_u, val_of. generalize 0. generalize (digits 10 n).
  intros l. induction l as [|d l IH]; intros a; simpl; [done|].
  rewrite IH. f_equal. lia.
Qed.

Lemma fmt_u_digits n : 0 <= n → Forall (λ c, is_digit c = true) (fmt_u n).
Proof.
  intros Hn. unfold fmt_u. apply Forall_map.
  eapply Forall_impl; [apply digits_range; lia|].
  intros d Hd. simpl in *. unfold is_digit. lia.
Qed.

Lemma fmt_u_not_nil n : fmt_u n ≠ [].
Proof. unfold fmt_u. intros H. apply fmap_nil_inv in H. by apply digits_not_nil in H. Qed.

(** [fmt_u] is injective: two sizes printed alike are equal. *)
Lemma fmt_u_inj n m : 0 <= n → 0 <= m → fmt_u n = fmt_u m → n = m.
Proof. intros Hn Hm H. rewrite <- (digits_val_fmt_u n), <- (digits_val_fmt_u m), H; done. Qed.

Lemma digits_fuel_length f b n k :
  2 <= b → 0 <= n < b ^ Z.of_nat k → (1 ≤ k)%nat → (length (digits_fuel f b n) ≤ k)%nat.
Proof.
  intros Hb. revert n k. induction f as [|f IH]; intros n k Hn Hk; simpl; [lia|].
  destruct (n <? b) eqn:E; breflect; [simpl; lia|].
  rewrite length_app. simpl. destruct k as [|[|k]]; [lia|change (Z.of_nat 1) with 1 in Hn; lia|].
  enough (length (digits_fuel f b (n / b)) ≤ S k)%nat by lia.
  apply IH; [|lia]. rewrite Nat2Z.inj_succ, Z.pow_succ_r in Hn by lia.
  split; [apply Z.div_pos; lia|]. apply Z.div_lt_upper_bound; nia.
Qed.

(** A number below [10^k] prints in at most [k] characters. *)
Lemma fmt_u_length n k : 0 <= n < 10 ^ k → 1 <= k → zlen (fmt_u n) <= k.
Proof.
  intros Hn Hk. unfold fmt_u. rewrite zlen_map. unfold zlen, digits.
  pose proof (digits_fuel_length (S (Z.to_nat (Z.log2 n))) 10 n (Z.to_nat k)) as H.
  rewrite Z2Nat.id in H by lia. lia.
Qed.

Lemma fmt_u_nul_free n : 0 <= n → nul_free (fmt_u n).
Proof.
  intros Hn. eapply Forall_impl; [by apply fmt_u_digits|].
  intros c Hc. simpl in *. unfold is_digit in Hc. breflect. lia.
Qed.

(** [strtoll] reads back what [%llu] printed, up to the next non-digit. *)
Lemma strtoll_fmt_u n t :
  0 <= n <= LLONG_MAX → (t = [] ∨ ∃ c r, t = c :: r ∧ is_digit c = false) →
  strtoll (fmt_u n ++ t)
  = {| ll_val := n; ll_end := t; ll_conv := true; ll_erange := false |}.
Proof.
  intros Hn Ht. pose proof (fmt_u_digits n ltac:(lia)) as Hd.
  pose proof (fmt_u_not_nil n) as Hne. pose proof (digits_val_fmt_u n ltac:(lia)) as Hv.
  unfold strtoll. destruct (fmt_u n) as [|c s] eqn:E; [done|].
  pose proof (Forall_inv Hd) as Hc. simpl in Hc.
  rewrite <- app_comm_cons, skip_while_id, app_comm_cons.
  2: { unfold is_digit in Hc. breflect. unfold isspace. lia. }
  rewrite <- app_comm_cons.
  assert (c ≠ "-"%ch ∧ c ≠ "+"%ch) as [Hm Hp] by (unfold is_digit in Hc; breflect; lia).
  assert (match c :: s ++ t with
          | "-"%ch :: r => (true, r) | "+"%ch :: r => (false, r) | _ => (false, c :: s ++ t)
          end = (false, c :: s ++ t)) as ->.
  { destruct c as [|p|p]; try done.
    repeat (destruct p as [p|p|]; try done). }
  rewrite app_comm_cons, span_app_stop by done. rewrite Hv.
  rewrite (proj2 (Z.ltb_ge _ _)) by lia.
  rewrite (proj2 (Z.ltb_ge _ _)) by (unfold LLONG_MIN; lia). done.
Qed.

(** The first match of a needle behind text that lacks its first character. *)
Lemma strstr_app_first c needle a t :
  c ∉ a → starts_with (c :: needle) t = true → strstr (c :: needle) (a ++ t) = Some (a, t).
Proof.
  intros Ha Ht. induction a as [|x a IH]; simpl app.
  - destruct t as [|y t]; [done|]. unfold strstr. by rewrite Ht.
  - rewrite not_elem_of_cons in Ha. destruct Ha as [Hx Ha].
    change (strstr (c :: needle) (x :: a ++ t)) with
      (if starts_with (c :: needle) (x :: a ++ t) then Some ([], x :: a ++ t)
       else match strstr (c :: needle) (a ++ t) with
            | Some (p, q) => Some (x :: p, q) | None => None end).
    rewrite (IH Ha). simpl. by rewrite (proj2 (Z.eqb_neq c x) Hx).
Qed.

(** ** Occurrences *)

Definition occurs (needle s : bytes) : Prop := ∃ a b, s = a ++ needle ++ b.

Lemma strstr_occurs needle s : occurs needle s ↔ strstr needle s ≠ None.
Proof.
  split.
  - intros (a & b & ->) H. rewrite strstr_None in H.
    specialize (H a (needle ++ b) eq_refl). by rewrite starts_with_app in H.
  - intros H. destruct (strstr needle s) as [[a b]|] eqn:E; [|done].
    apply strstr_Some in E as [-> E]. apply starts_with_true in E as [t ->]. by exists a, t.
Qed.

Lemma strstr_not_occurs needle s : ¬ occurs needle s ↔ strstr needle s = None.
Proof. rewrite strstr_occurs. destruct (strstr needle s); split; intros H; try done; [by exfalso; apply H|by intros []]. Qed.

Lemma occurs_app_l needle s t : occurs needle s → occurs needle (s ++ t).
Proof. intros (a & b & ->). exists a, (b ++ t). by rewrite <- !app_assoc. Qed.

Lemma occurs_app_r needle s t : occurs needle t → occurs needle (s ++ t).
Proof. intros (a & b & ->). exists (s ++ a), b. by rewrite <- !app_assoc. Qed.

Lemma occurs_zdrop needle n s : occurs needle (zdrop n s) → occurs needle s.
Proof. intros H. rewrite <- (ztake_zdrop n s). by apply occurs_app_r. Qed.

(** A match in [s ++ t] lies in [s] or starts within the last
    [length needle - 1] bytes of [s]: scanning from there on is enough. *)
Lemma occurs_overlap needle s t k :
  occurs needle (s ++ t) → zlen needle + k <= zlen s + 1 → 0 <= k →
  occurs needle s ∨ occurs needle (zdrop k (s ++ t)).
Proof.
  intros (a & b & H) Hk Hk0. destruct (decide (k <= zlen a)) as [Ha|Ha].
  - right. exists (zdrop k a), b. unfold zdrop, zlen in *.
    rewrite H, drop_app_le by lia. done.
  - left. exists a. unfold zlen in *.
    exists (take (length s - length a - length needle) b).
    assert (take (length s) (s ++ t) = take (length s) (a ++ needle ++ b)) as E by (by rewrite H).
    rewrite take_app_length, !take_app, (take_ge a), (take_ge needle) in E by lia. exact E.
Qed.
