(* ===== verification/World.v ===== *)
(** * The world the server runs in

    System calls and allocation are the code's only effects besides its own
    data.  A [World] holds what the environment will answer - the outcome of the
    next allocations, what [recv] and [send] will report on the connection, the
    value the next reads of [server->listening] see, the clock - and what the
    server has sent.  Code with effects is a computation in the state monad
    [M] over it. *)

From S2P Require Import Prelude CLib.
#[local] Open Scope Z_scope.

(** What the next [recv] on the client socket reports. *)
Inductive RecvEvent :=
  | RData (bs : bytes)   (** bytes available; a short read takes a prefix *)
  | REof                 (** the peer closed: [recv] returns 0 *)
  | RIntr                (** -1 with [errno = EINTR] *)
  | RTimeout             (** -1 with [errno = EAGAIN]: the receive timeout expired *)
  | RError.              (** -1 with another [errno] *)

(** What the next [send] on the client socket does. *)
Inductive SendEvent :=
  | SAccept (n : Z)      (** the kernel accepts at most [n] bytes *)
  | SIntr                (** -1 with [errno = EINTR] *)
  | SError.              (** -1 with another [errno] *)

(** What [stat] reports of a path. *)
Inductive FileKind := FRegular | FDirectory | FSpecial.

Record FileStat := {
  st_kind : FileKind;   (** [st_mode] *)
  st_size : Z;
  st_mtime : Z;
}.

(** A descriptor: what [fstat] reports when the file is opened, and the bytes
    that reading it will find, which are fewer when the file shrinks afterwards. *)
Record OpenFile := { of_stat : FileStat; of_data : bytes }.

(** The answers of the file system; [None] is failure. *)
Record FileSystem := {
  fs_stat : bytes → option FileStat;
  fs_realpath : bytes → option bytes;
  fs_open : bytes → option OpenFile;
}.

Record World := {
  w_alloc : list bool;          (** outcome of the next allocations; none left: success *)
  w_recv : list RecvEvent;      (** none left: the peer has closed *)
  w_send : list SendEvent;      (** none left: everything is accepted *)
  w_sent : bytes;               (** the bytes sent to the client so far *)
  w_listening : list bool;      (** the next values of [server->listening]; none left: true *)
  w_now : Z;                    (** [time(NULL)] *)
  w_fs : FileSystem;            (** [stat], [realpath], [open] *)
}.

Definition M (A : Type) : Type := World → A * World.

#[export] Instance M_ret : MRet M := λ A x w, (x, w).
#[export] Instance M_bind : MBind M := λ A B f m w, let r := m w in f r.1 r.2.
#[export] Instance M_fmap : FMap M := λ A B f m w, (f (m w).1, (m w).2).

Arguments M_ret {_} _ _ /.
Arguments M_bind {_ _} _ _ _ /.
Arguments M_fmap {_ _} _ _ _ /.

(** The result of a computation and the world it leaves. *)
Definition result {A} (m : M A) (w : World) : A := (m w).1.
Definition world {A} (m : M A) (w : World) : World := (m w).2.

Lemma bind_run {A B} (m : M A) (f : A → M B) w : (m ≫= f) w = f (result m w) (world m w).
Proof. done. Qed.

Lemma ret_run {A} (x : A) w : (mret x : M A) w = (x, w).
Proof. done. Qed.

(** Runs the computations of the goal: unfolds binds and returns applied to a
    world and projects the pairs. *)
Ltac mrun :=
  repeat first
    [ progress unfold result, world
    | rewrite bind_run
    | rewrite ret_run
    | progress cbn [fst snd negb orb andb] ].

(** ** Hoare triples for [M] *)

Definition hoare {A} (P : World → Prop) (m : M A) (Q : A → World → Prop) : Prop :=
  ∀ w, P w → Q (result m w) (world m w).

Lemma hoare_ret {A} (x : A) (P : World → Prop) (Q : A → World → Prop) :
  (∀ w, P w → Q x w) → hoare P (mret x) Q.
Proof. intros H w Hw. apply H, Hw. Qed.

Lemma hoare_bind {A B} P (m : M A) R (f : A → M B) Q :
  hoare P m R → (∀ x, hoare (R x) (f x) Q) → hoare P (m ≫= f) Q.
Proof. intros Hm Hf w Hw. apply Hf, Hm, Hw. Qed.

Lemma hoare_conseq {A} (P P' : World → Prop) (m : M A) (Q Q' : A → World → Prop) :
  hoare P' m Q' → (∀ w, P w → P' w) → (∀ x w, Q' x w → Q x w) → hoare P m Q.
Proof. intros Hm HP HQ w Hw. apply HQ, Hm, HP, Hw. Qed.

(** [P] holds of the result in every world. *)
Definition returns {A} (m : M A) (P : A → Prop) : Prop := ∀ w, P (result m w).

Lemma returns_ret {A} (x : A) (P : A → Prop) : P x → returns (mret x) P.
Proof. by intros H w. Qed.

Lemma returns_bind {A B} (m : M A) (f : A → M B) P Q :
  returns m P → (∀ x, P x → returns (f x) Q) → returns (m ≫= f) Q.
Proof. intros Hm Hf w. unfold result. rewrite bind_run. by apply Hf. Qed.

Lemma returns_ret_bind {A B} (x : A) (f : A → M B) Q : returns (f x) Q → returns (mret x ≫= f) Q.
Proof. done. Qed.

(** ** Updating the world *)

Definition with_alloc (a : list bool) (w : World) : World :=
  {| w_alloc := a; w_recv := w_recv w; w_send := w_send w; w_sent := w_sent w;
     w_listening := w_listening w; w_now := w_now w; w_fs := w_fs w |}.
Definition with_recv (r : list RecvEvent) (w : World) : World :=
  {| w_alloc := w_alloc w; w_recv := r; w_send := w_send w; w_sent := w_sent w;
     w_listening := w_listening w; w_now := w_now w; w_fs := w_fs w |}.
Definition with_send (s : list SendEvent) (out : bytes) (w : World) : World :=
  {| w_alloc := w_alloc w; w_recv := w_recv w; w_send := s; w_sent := out;
     w_listening := w_listening w; w_now := w_now w; w_fs := w_fs w |}.
Definition with_listening (l : list bool) (w : World) : World :=
  {| w_alloc := w_alloc w; w_recv := w_recv w; w_send := w_send w; w_sent := w_sent w;
     w_listening := l; w_now := w_now w; w_fs := w_fs w |}.

Definition no_files : FileSystem :=
  {| fs_stat := λ _, None; fs_realpath := λ _, None; fs_open := λ _, None |}.

(** A world with nothing to read, nothing failing and nothing sent. *)
Definition quiet_world : World :=
  {| w_alloc := []; w_recv := []; w_send := []; w_sent := []; w_listening := []; w_now := 0;
     w_fs := no_files |}.

(** ** Primitive effects *)

(** [malloc], [calloc], [realloc], [strdup]: whether the next one succeeds. *)
Definition malloc : M bool := λ w,
  match w_alloc w with
  | [] => (true, w)
  | b :: r => (b, with_alloc r w)
  end.

Definition read_listening : M bool := λ w,
  match w_listening w with
  | [] => (true, w)
  | b :: r => (b, with_listening r w)
  end.

Definition time_now : M Z := λ w, (w_now w, w).

Definition stat (path : bytes) : M (option FileStat) := λ w, (fs_stat (w_fs w) path, w).
Definition realpath (path : bytes) : M (option bytes) := λ w, (fs_realpath (w_fs w) path, w).
Definition open (path : bytes) : M (option OpenFile) := λ w, (fs_open (w_fs w) path, w).

Definition recv_queue : M (list RecvEvent) := λ w, (w_recv w, w).
Definition set_recv_queue (r : list RecvEvent) : M unit := λ w, (tt, with_recv r w).

(** The outcome of one [recv(fd, buf, n, 0)]. *)
Inductive RecvResult :=
  | Got (bs : bytes)     (** [r > 0]: these bytes *)
  | GotEof               (** [r == 0] *)
  | GotIntr
  | GotTimeout
  | GotError.

(** One [recv] of at most [n] bytes; a datum larger than [n] stays queued. *)
Definition recv_step (n : Z) (q : list RecvEvent) : RecvResult * list RecvEvent :=
  match q with
  | [] => (GotEof, [])
  | RData [] :: r => (GotEof, r)
  | RData bs :: r =>
      if zlen bs <=? n then (Got bs, r)
      else (Got (ztake n bs), RData (zdrop n bs) :: r)
  | REof :: r => (GotEof, r)
  | RIntr :: r => (GotIntr, r)
  | RTimeout :: r => (GotTimeout, r)
  | RError :: r => (GotError, r)
  end.

Definition recv (n : Z) : M RecvResult := λ w,
  let '(r, q) := recv_step n (w_recv w) in (r, with_recv q w).

(** ** Allocation never fails in a world with an empty [w_alloc] *)

Lemma malloc_ok w : w_alloc w = [] → malloc w = (true, w).
Proof. unfold malloc. by intros ->. Qed.

(** [mrun] in a world [H : w_alloc w = []] where every allocation succeeds. *)
Ltac mrun_ok H := repeat first [ progress mrun | rewrite (malloc_ok _ H) ].

(** The network side of a world, untouched by pure computation and allocation. *)
Definition same_net (w w' : World) : Prop :=
  w_recv w' = w_recv w ∧ w_send w' = w_send w ∧ w_sent w' = w_sent w ∧
  w_listening w' = w_listening w ∧ w_now w' = w_now w ∧ w_fs w' = w_fs w.

#[export] Instance same_net_preorder : PreOrder same_net.
Proof. split; [by intros ?|]. unfold same_net. intros ???; intuition congruence. Qed.

(** A computation that only allocates. *)
Definition only_allocates {A} (m : M A) : Prop :=
  ∀ w, same_net w (world m w) ∧ (w_alloc w = [] → world m w = w).

Lemma only_allocates_ret {A} (x : A) : only_allocates (mret x).
Proof. intros w. done. Qed.

Lemma only_allocates_bind {A B} (m : M A) (f : A → M B) :
  only_allocates m → (∀ x, only_allocates (f x)) → only_allocates (m ≫= f).
Proof.
  intros Hm Hf w. unfold world. rewrite bind_run.
  destruct (Hm w) as [Hn Ha]. destruct (Hf (result m w) (world m w)) as [Hn' Ha'].
  split; [by etrans|]. intros Hw.
  change (world (f (result m w)) (world m w) = w). rewrite Ha'; [auto|]. by rewrite Ha.
Qed.

Lemma only_allocates_malloc : only_allocates malloc.
Proof. intros w. unfold world, malloc. destruct (w_alloc w) eqn:E; by simpl. Qed.

Lemma only_allocates_if {A} (b : bool) (m m' : M A) :
  only_allocates m → only_allocates m' → only_allocates (if b then m else m').
Proof. by destruct b. Qed.

Lemma only_allocates_read {A} (f : World → A) : only_allocates (λ w, (f w, w)).
Proof. intros w. done. Qed.

Lemma only_allocates_stat path : only_allocates (stat path).
Proof. apply only_allocates_read. Qed.
Lemma only_allocates_realpath path : only_allocates (realpath path).
Proof. apply only_allocates_read. Qed.
Lemma only_allocates_open path : only_allocates (open path).
Proof. apply only_allocates_read. Qed.
Lemma only_allocates_time_now : only_allocates time_now.
Proof. apply only_allocates_read. Qed.

#[export] Hint Resolve only_allocates_ret only_allocates_malloc only_allocates_stat
  only_allocates_realpath only_allocates_open only_allocates_time_now : chttp.

(** Proves [only_allocates] of a monadic program by walking through it. *)
Ltac only_alloc :=
  repeat first
    [ solve [eauto 3 with chttp nocore]
    | apply only_allocates_ret
    | apply only_allocates_malloc
    | apply only_allocates_bind; [|intros ?]
    | apply only_allocates_if
    | match goal with |- only_allocates (match ?x with _ => _ end) => destruct x end
    | match goal with |- only_allocates (let '(_, _) := ?x in _) => destruct x end ].

(** ** Computations that ask the world for memory only

    While memory lasts they answer in every world what they answer in the quiet
    one, and change nothing: their answers can be computed. *)

Definition calm {A} (m : M A) : Prop := ∀ w, w_alloc w = [] → m w = (result m quiet_world, w).

Lemma calm_ret {A} (x : A) : calm (mret x).
Proof. intros w _. done. Qed.

Lemma calm_malloc : calm malloc.
Proof. intros w Hw. by rewrite malloc_ok. Qed.

Lemma calm_bind {A B} (m : M A) (f : A → M B) :
  calm m → (∀ x, calm (f x)) → calm (m ≫= f).
Proof.
  intros Hm Hf w Hw. unfold result at 1. rewrite !bind_run.
  unfold result, world. rewrite (Hm w Hw), (Hm quiet_world eq_refl). cbn [fst snd].
  rewrite (Hf _ w Hw). by rewrite (Hf _ quiet_world eq_refl).
Qed.

Lemma calm_if {A} (b : bool) (m m' : M A) : calm m → calm m' → calm (if b then m else m').
Proof. by destruct b. Qed.

(** Running a calm computation in front of another. *)
Lemma calm_then {A B} (m : M A) (f : A → M B) w :
  calm m → w_alloc w = [] → (m ≫= f) w = f (result m quiet_world) w.
Proof. intros Hm Hw. rewrite bind_run. unfold result at 1, world. by rewrite (Hm w Hw). Qed.

#[export] Hint Resolve calm_ret calm_malloc : chttp.

(** Proves [calm] of a monadic program by walking through it. *)
Ltac calmly :=
  repeat first
    [ solve [eauto 3 with chttp nocore]
    | apply calm_ret
    | apply calm_malloc
    | apply calm_bind; [|intros ?]
    | apply calm_if
    | match goal with |- calm (match ?x with _ => _ end) => destruct x end
    | match goal with |- calm (let '(_, _) := ?x in _) => destruct x end ].

(** ** Receiving uses the queue up *)

(** What the rest of the receive queue can still deliver. *)
Fixpoint recv_size (q : list RecvEvent) : nat :=
  match q with
  | [] => 0
  | RData bs :: q => S (length bs) + recv_size q
  | _ :: q => S (recv_size q)
  end.

Lemma recv_step_size n q :
  0 < n → (recv_size (recv_step n q).2 ≤ recv_size q)%nat ∧
  (∀ bs, (recv_step n q).1 = Got bs → (recv_size (recv_step n q).2 < recv_size q)%nat).
Proof.
  intros Hn. destruct q as [|[bs| | | |] q]; simpl; try (split; [lia|done]).
  destruct bs as [|b bs]; [simpl; split; [lia|done]|].
  case_if; simpl; [split; [lia|intros; lia]|].
  assert (length (zdrop n (b :: bs)) < length (b :: bs))%nat.
  { unfold zdrop. rewrite length_drop. simpl. lia. }
  simpl in *. split; [lia|intros; lia].
Qed.

Lemma recv_run n w :
  recv n w = ((recv_step n (w_recv w)).1, with_recv (recv_step n (w_recv w)).2 w).
Proof. unfold recv. by destruct (recv_step n (w_recv w)). Qed.

Lemma recv_consumes n w :
  0 < n → (recv_size (w_recv (recv n w).2) ≤ recv_size (w_recv w))%nat ∧
  (∀ bs, (recv n w).1 = Got bs → (recv_size (w_recv (recv n w).2) < recv_size (w_recv w))%nat).
Proof. intros Hn. rewrite recv_run. by apply recv_step_size. Qed.
