(* ===== verification/Strtod.v ===== *)
(** * [strtod]

    The conversion the q-value parsers use, as IEEE double precision: a finite
    double is its value in units of [2^-1074], rounded to nearest even. *)

From S2P Require Import Prelude CLib.
#[local] Open Scope Z_scope.

Inductive double :=
  | DFin (units : Z)
  | DInf (neg : bool)
  | DNan.

(** 1.0 *)
Definition DONE : Z := 2 ^ 1074.

(** The double nearest to [num / den >= 0], as units. *)
Definition round_units (num den : Z) : Z :=
  let x := num * 2 ^ 1074 in
  let k := Z.max 0 (Z.log2 (x / den) - 52) in
  let u := den * 2 ^ k in
  let q := x / u in
  let r := x mod u in
  (if 2 * r <? u then q else if u <? 2 * r then q + 1 else if Z.even q then q else q + 1) * 2 ^ k.

Definition to_double (neg : bool) (num den : Z) : double :=
  let units := round_units num den in
  if 2 ^ (1024 + 1074) <=? units then DInf neg else DFin (if neg then - units else units).

(** [m * base ^ e] as a fraction. *)
Definition scaled (neg : bool) (m base e : Z) : double :=
  if 0 <=? e then to_double neg (m * base ^ e) 1 else to_double neg m (base ^ (- e)).

(** ** Scanning *)

Definition scan_sign (s : bytes) : bool * bytes :=
  match s with
  | c :: r => if c =? "-"%ch then (true, r) else if c =? "+"%ch then (false, r) else (false, s)
  | [] => (false, s)
  end.

Definition is_xdigit (c : Z) : bool :=
  is_digit c || (("a"%ch <=? tolower c) && (tolower c <=? "f"%ch)).
Definition xdigit_val (c : Z) : Z := if is_digit c then c - "0"%ch else tolower c - "a"%ch + 10.

(** Digits, and after a point the fraction digits; then the rest. *)
Definition scan_mantissa (P : Z → bool) (s : bytes) : bytes * bytes * bytes :=
  let '(ip, r) := span P s in
  match r with
  | c :: r' => if c =? "."%ch then let '(fp, r) := span P r' in (ip, fp, r) else (ip, [], r)
  | [] => (ip, [], r)
  end.

(** The exponent behind [mark]; without digits there is none. *)
Definition scan_exponent (mark : Z) (s : bytes) : Z :=
  match s with
  | c :: r =>
      if tolower c =? mark then
        let '(neg, r) := scan_sign r in
        let '(ds, _) := span is_digit r in
        if neg then - digits_val ds else digits_val ds
      else 0
  | [] => 0
  end.

Definition strtod_dec (neg : bool) (s : bytes) : option double :=
  let '(ip, fp, r) := scan_mantissa is_digit s in
  if bool_decide (ip ++ fp = []) then None
  else Some (scaled neg (digits_val (ip ++ fp)) 10 (scan_exponent "e"%ch r - zlen fp)).

Definition strtod_hex (neg : bool) (s : bytes) : option double :=
  let '(ip, fp, r) := scan_mantissa is_xdigit s in
  if bool_decide (ip ++ fp = []) then None
  else Some (scaled neg (val_of 16 (map xdigit_val (ip ++ fp))) 2 (scan_exponent "p"%ch r - 4 * zlen fp)).

(** [None]: no conversion ([end == nptr]). *)
Definition strtod (nptr : bytes) : option double :=
  let '(neg, s) := scan_sign (skip_while isspace nptr) in
  if starts_with_ci (str "inf") s then Some (DInf neg)
  else if starts_with_ci (str "nan") s then Some DNan
  else
    match s with
    | c :: x :: r =>
        if (c =? "0"%ch) && (tolower x =? "x"%ch) then
          match strtod_hex neg r with Some d => Some d | None => strtod_dec neg s end
        else strtod_dec neg s
    | _ => strtod_dec neg s
    end.

(** [v >= 0.0], [v <= 1.0] *)
Definition d_ge_0 (d : double) : bool :=
  match d with DFin u => 0 <=? u | DInf neg => negb neg | DNan => false end.
Definition d_le_1 (d : double) : bool :=
  match d with DFin u => u <=? DONE | DInf neg => neg | DNan => false end.

(** ** A conversion stops at a comma *)

Lemma span_app_sep P a c b :
  P c = false →
  span P (a ++ c :: b) = ((span P a).1, (span P a).2 ++ c :: b).
Proof.
  intros Hc. induction a as [|x a IH]; simpl; [by rewrite Hc|].
  destruct (P x); [|done]. rewrite IH. by destruct (span P a).
Qed.

Lemma skip_while_app_sep P a c b :
  P c = false → skip_while P (a ++ c :: b) = skip_while P a ++ c :: b.
Proof. intros Hc. unfold skip_while. by rewrite span_app_sep. Qed.

Lemma scan_sign_app a b :
  scan_sign (a ++ ","%ch :: b) = ((scan_sign a).1, (scan_sign a).2 ++ ","%ch :: b).
Proof.
  destruct a as [|x a]; [done|]. simpl. by repeat case_if.
Qed.

Lemma scan_mantissa_app P a b :
  P ","%ch = false →
  scan_mantissa P (a ++ ","%ch :: b)
  = ((scan_mantissa P a).1, (scan_mantissa P a).2 ++ ","%ch :: b).
Proof.
  intros Hc. unfold scan_mantissa. rewrite span_app_sep by done.
  destruct (span P a) as [ip r]. simpl. destruct r as [|x r]; [done|]. simpl.
  case_if; [|done]. rewrite span_app_sep by done. by destruct (span P r).
Qed.

Lemma scan_exponent_app mark a b :
  mark ≠ ","%ch → scan_exponent mark (a ++ ","%ch :: b) = scan_exponent mark a.
Proof.
  intros Hm. destruct a as [|x a]; cbn [app scan_exponent].
  { change (tolower ","%ch) with ","%ch. by rewrite (proj2 (Z.eqb_neq _ _)) by congruence. }
  case_if; [|done]. rewrite scan_sign_app. destruct (scan_sign a) as [neg r]. simpl.
  rewrite span_app_sep by done. by destruct (span is_digit r).
Qed.

Lemma starts_with_ci_app pre a b :
  ¬ (","%ch ∈ map tolower pre) →
  starts_with_ci pre (a ++ ","%ch :: b) = starts_with_ci pre a.
Proof.
  unfold starts_with_ci. generalize (map tolower pre). clear pre. intros pre. rewrite map_app. simpl.
  change (tolower ","%ch) with ","%ch. generalize (map tolower a) (map tolower b). clear a b.
  induction pre as [|p pre IH]; intros a b Hn; [done|].
  apply not_elem_of_cons in Hn as [Hp Hn]. destruct a as [|x a]; simpl.
  - by rewrite (proj2 (Z.eqb_neq p ","%ch)) by congruence.
  - by rewrite IH.
Qed.

Lemma strtod_dec_app neg a b : strtod_dec neg (a ++ ","%ch :: b) = strtod_dec neg a.
Proof.
  unfold strtod_dec. rewrite scan_mantissa_app by done.
  destruct (scan_mantissa is_digit a) as [[ip fp] r]. simpl. by rewrite scan_exponent_app.
Qed.

Lemma strtod_hex_app neg a b : strtod_hex neg (a ++ ","%ch :: b) = strtod_hex neg a.
Proof.
  unfold strtod_hex. rewrite scan_mantissa_app by done.
  destruct (scan_mantissa is_xdigit a) as [[ip fp] r]. simpl. by rewrite scan_exponent_app.
Qed.

Lemma strtod_app a b : strtod (a ++ ","%ch :: b) = strtod a.
Proof.
  unfold strtod. rewrite skip_while_app_sep by done. rewrite scan_sign_app.
  destruct (scan_sign (skip_while isspace a)) as [neg s]. cbn [fst snd].
  rewrite !starts_with_ci_app by (by apply has_chr_false).
  case_if; [done|]. case_if; [done|].
  destruct s as [|z s]; [destruct b as [|y b]; apply (strtod_dec_app neg [])|].
  destruct s as [|x r].
  - change ([z] ++ ","%ch :: b) with (z :: ","%ch :: b). cbn iota.
    change (tolower ","%ch =? "x"%ch) with false. rewrite andb_false_r.
    apply (strtod_dec_app neg [z] b).
  - rewrite <- (strtod_dec_app neg (z :: x :: r) b), <- (strtod_hex_app neg r b). done.
Qed.

(** q-values as clients write them, and the rounding of the decimal 0.1. *)
Example strtod_q : strtod (str "0.5") = Some (DFin (2 ^ 1073)).
Proof. by vm_compute. Qed.
Example strtod_tenth : strtod (str "0.1") = Some (DFin (0x1999999999999a * 2 ^ (1074 - 56))).
Proof. by vm_compute. Qed.
Example strtod_hex_half : strtod (str "0x1p-1") = strtod (str " +5e-1").
Proof. by vm_compute. Qed.
