(* ===== verification/Types.v ===== *)
(** * The data of the server

    The enumerations, limits and structures of [include/c_http.h].  A fixed
    array with a count is the list of its used slots, except [HttpParams], whose
    unused slots the matcher writes.  A [char] array that holds a C string is the
    list of its bytes before the NUL. *)

From S2P Require Import Prelude CLib World.
#[local] Open Scope Z_scope.

(** ** Limits *)

Definition HTTP_METHOD_MAX : Z := 8.
Definition HTTP_PATH_MAX : Z := 512.
Definition HTTP_VERSION_MAX : Z := 16.
Definition HTTP_MAX_HEADERS : Z := 64.
Definition HTTP_MAX_BODY : Z := 50 * 1024 * 1024.
Definition HTTP_MAX_PARAMS : Z := 16.
Definition HTTP_PARAM_KEY_MAX : Z := 32.
Definition HTTP_PARAM_VALUE_MAX : Z := 64.
Definition HTTP_SEGMENT_TEXT_MAX : Z := 64.
Definition HTTP_MAX_QUERY : Z := 16.
Definition HTTP_QUERY_KEY_MAX : Z := 32.
Definition HTTP_QUERY_VALUE_MAX : Z := 64.
Definition HTTP_MAX_LOCALS : Z := 16.
Definition HTTP_LOCAL_KEY_MAX : Z := 32.
Definition HTTP_LOCAL_VALUE_MAX : Z := 64.
Definition HTTP_ERROR_MESSAGE_MAX : Z := 256.
Definition HTTP_MAX_MULTIPART_PARTS : Z := 16.
Definition HTTP_MULTIPART_NAME_MAX : Z := 32.
Definition HTTP_MULTIPART_FILE_MAX : Z := 64.
Definition HTTP_BODY_BUFFER : Z := 4096.

Create HintDb limits.
#[export] Hint Unfold HTTP_METHOD_MAX HTTP_PATH_MAX HTTP_VERSION_MAX HTTP_MAX_HEADERS
  HTTP_MAX_BODY HTTP_MAX_PARAMS HTTP_PARAM_KEY_MAX HTTP_PARAM_VALUE_MAX HTTP_SEGMENT_TEXT_MAX
  HTTP_MAX_QUERY HTTP_QUERY_KEY_MAX HTTP_QUERY_VALUE_MAX HTTP_MAX_LOCALS HTTP_LOCAL_KEY_MAX
  HTTP_LOCAL_VALUE_MAX HTTP_ERROR_MESSAGE_MAX HTTP_MAX_MULTIPART_PARTS HTTP_MULTIPART_NAME_MAX
  HTTP_MULTIPART_FILE_MAX HTTP_BODY_BUFFER : limits.

(** Arithmetic with the limits unfolded. *)
Ltac limit_lia := autounfold with limits in *; zlen_lia.

(** ** Enumerations *)

Inductive HttpMethod :=
  | HTTP_METHOD_GET
  | HTTP_METHOD_POST
  | HTTP_METHOD_PUT
  | HTTP_METHOD_PATCH
  | HTTP_METHOD_DELETE
  | HTTP_METHOD_HEAD
  | HTTP_METHOD_OPTIONS
  | HTTP_METHOD_CONNECT
  | HTTP_METHOD_TRACE.

#[export] Instance HttpMethod_eq_dec : EqDecision HttpMethod.
Proof. solve_decision. Defined.

Inductive HttpRouteAddResult :=
  HTTP_ROUTE_ADD_OK | HTTP_ROUTE_ADD_CONFLICT | HTTP_ROUTE_ADD_ERROR.
Inductive HttpUseResult := HTTP_USE_OK | HTTP_USE_ERROR.
Inductive HttpBodyType :=
  HTTP_BODY_NONE | HTTP_BODY_URLENCODED | HTTP_BODY_JSON | HTTP_BODY_MULTIPART | HTTP_BODY_OTHER.
Inductive HttpMiddlewareResult := HTTP_MIDDLEWARE_CONTINUE | HTTP_MIDDLEWARE_STOP.
Inductive HttpMiddlewareAddResult := HTTP_MIDDLEWARE_ADD_OK | HTTP_MIDDLEWARE_ADD_ERROR.
Inductive HttpSetHeaderResult := HTTP_SET_HEADER_OK | HTTP_SET_HEADER_ERROR.
Inductive HttpSetLocalResult := HTTP_SET_LOCAL_OK | HTTP_SET_LOCAL_ERROR.
Inductive HttpEncoderAddResult := HTTP_ENCODER_ADD_OK | HTTP_ENCODER_ADD_ERROR.

#[export] Instance HttpRouteAddResult_eq_dec : EqDecision HttpRouteAddResult.
Proof. solve_decision. Defined.
#[export] Instance HttpBodyType_eq_dec : EqDecision HttpBodyType.
Proof. solve_decision. Defined.
#[export] Instance HttpSetHeaderResult_eq_dec : EqDecision HttpSetHeaderResult.
Proof. solve_decision. Defined.
#[export] Instance HttpMiddlewareResult_eq_dec : EqDecision HttpMiddlewareResult.
Proof. solve_decision. Defined.

(** ** Status codes *)

Definition HTTP_STATUS_OK : Z := 200.
Definition HTTP_STATUS_NO_CONTENT : Z := 204.
Definition HTTP_STATUS_RESET_CONTENT : Z := 205.
Definition HTTP_STATUS_PARTIAL_CONTENT : Z := 206.
Definition HTTP_STATUS_NOT_MODIFIED : Z := 304.
Definition HTTP_STATUS_BAD_REQUEST : Z := 400.
Definition HTTP_STATUS_NOT_FOUND : Z := 404.
Definition HTTP_STATUS_METHOD_NOT_ALLOWED : Z := 405.
Definition HTTP_STATUS_REQUEST_TIMEOUT : Z := 408.
Definition HTTP_STATUS_CONTENT_TOO_LARGE : Z := 413.
Definition HTTP_STATUS_URI_TOO_LONG : Z := 414.
Definition HTTP_STATUS_RANGE_NOT_SATISFIABLE : Z := 416.
Definition HTTP_STATUS_REQUEST_HEADER_FIELDS_TOO_LARGE : Z := 431.
Definition HTTP_STATUS_INTERNAL_SERVER_ERROR : Z := 500.
Definition HTTP_STATUS_NOT_IMPLEMENTED : Z := 501.
Definition HTTP_STATUS_HTTP_VERSION_NOT_SUPPORTED : Z := 505.

#[export] Hint Unfold HTTP_STATUS_OK HTTP_STATUS_NO_CONTENT HTTP_STATUS_RESET_CONTENT
  HTTP_STATUS_PARTIAL_CONTENT HTTP_STATUS_NOT_MODIFIED HTTP_STATUS_BAD_REQUEST
  HTTP_STATUS_NOT_FOUND HTTP_STATUS_METHOD_NOT_ALLOWED HTTP_STATUS_REQUEST_TIMEOUT
  HTTP_STATUS_CONTENT_TOO_LARGE HTTP_STATUS_URI_TOO_LONG HTTP_STATUS_RANGE_NOT_SATISFIABLE
  HTTP_STATUS_REQUEST_HEADER_FIELDS_TOO_LARGE HTTP_STATUS_INTERNAL_SERVER_ERROR
  HTTP_STATUS_NOT_IMPLEMENTED HTTP_STATUS_HTTP_VERSION_NOT_SUPPORTED : limits.

(** ** Structures *)

Record HttpHeader := { h_key : bytes; h_value : bytes }.

(** [count] is the length of [hs_items]; [hs_capacity] drives reallocation. *)
Record HttpHeaders := { hs_items : list HttpHeader; hs_capacity : Z }.

Record HttpParam := { p_key : bytes; p_value : bytes }.

(** All the slots of the array, and how many are committed. *)
Record HttpParams := { ps_params : list HttpParam; ps_count : Z }.

Record HttpRouteSegment := { seg_text : bytes; seg_is_param : bool }.

Record HttpRouteSegments := { segs : list HttpRouteSegment; segs_capacity : Z }.

Record HttpQueryParam := { q_key : bytes; q_value : bytes }.

Record HttpLocal := { l_key : bytes; l_value : bytes }.

(** [data] points into the request body: its offset there and its length. *)
Record HttpMultipartPart := {
  mp_name : bytes;
  mp_filename : bytes;
  mp_content_type : bytes;
  mp_data : Z;
  mp_data_len : Z;
}.

#[export] Instance HttpHeader_eq_dec : EqDecision HttpHeader.
Proof. solve_decision. Defined.
#[export] Instance HttpParam_eq_dec : EqDecision HttpParam.
Proof. solve_decision. Defined.
#[export] Instance HttpRouteSegment_eq_dec : EqDecision HttpRouteSegment.
Proof. solve_decision. Defined.
#[export] Instance HttpQueryParam_eq_dec : EqDecision HttpQueryParam.
Proof. solve_decision. Defined.

(** [= {0}] initialisers. *)
Definition no_headers : HttpHeaders := {| hs_items := []; hs_capacity := 0 |}.
Definition no_param : HttpParam := {| p_key := []; p_value := [] |}.
Definition no_params : HttpParams :=
  {| ps_params := replicate (Z.to_nat HTTP_MAX_PARAMS) no_param; ps_count := 0 |}.

Record HttpRequest := {
  req_method : bytes;  (** [char method[8]] *)
  req_path : bytes;  (** [char path[512]], without the query string *)
  req_version : bytes;  (** [char version[16]] *)
  req_ip : bytes;
  req_client_port : Z;
  req_headers : HttpHeaders;
  req_body : option bytes;  (** the heap body; [None] is NULL, and [body_len] is its length *)
  req_params : HttpParams;  (** route parameters bound by the matched route *)
  req_query : list HttpQueryParam;  (** the first [count] pairs of the query *)
  req_form : list HttpQueryParam;  (** the pairs of an urlencoded body *)
  req_multiparts : list HttpMultipartPart;  (** the parts of a multipart body *)
}.

Record HttpResponse := {
  res_status : Z;  (** 0 until a handler sets it *)
  res_body : bytes;  (** the contents of [char body[4096]] *)
  res_body_len : Z;
  res_headers : HttpHeaders;
  res_dyn_body : option bytes;  (** heap body; its block is exactly [dyn_body_len] bytes *)
  res_locals : list HttpLocal;  (** the first [count] slots *)
  res_encoded_body : option bytes;  (** heap body of an encoder; its block is [encoded_body_len] bytes *)
  res_file_path : option bytes;  (** file to stream instead of a body *)
  res_ranged : bool;
  res_range_start : Z;
  res_range_len : Z;
  res_error : bool;
  res_error_message : bytes;  (** the empty string when unset *)
}.

Definition empty_request : HttpRequest :=
  {| req_method := []; req_path := []; req_version := []; req_ip := []; req_client_port := 0;
     req_headers := no_headers; req_body := None; req_params := no_params; req_query := [];
     req_form := []; req_multiparts := [] |}.

Definition empty_response : HttpResponse :=
  {| res_status := 0; res_body := replicate (Z.to_nat HTTP_BODY_BUFFER) NUL; res_body_len := 0;
     res_headers := no_headers; res_dyn_body := None; res_locals := [];
     res_encoded_body := None; res_file_path := None; res_ranged := false; res_range_start := 0;
     res_range_len := 0; res_error := false; res_error_message := [] |}.

(** [req->body_len] and [res->dyn_body_len]: 0 while the pointer is NULL. *)
Definition req_body_len (r : HttpRequest) : Z :=
  match req_body r with None => 0 | Some b => zlen b end.

(** ** Field updates *)

Definition set_req_method (x : bytes) (r : HttpRequest) : HttpRequest :=
  {| req_method := x; req_path := req_path r; req_version := req_version r;
     req_ip := req_ip r; req_client_port := req_client_port r; req_headers := req_headers r;
     req_body := req_body r; req_params := req_params r; req_query := req_query r;
     req_form := req_form r; req_multiparts := req_multiparts r |}.
Definition set_req_path (x : bytes) (r : HttpRequest) : HttpRequest :=
  {| req_method := req_method r; req_path := x; req_version := req_version r;
     req_ip := req_ip r; req_client_port := req_client_port r; req_headers := req_headers r;
     req_body := req_body r; req_params := req_params r; req_query := req_query r;
     req_form := req_form r; req_multiparts := req_multiparts r |}.
Definition set_req_version (x : bytes) (r : HttpRequest) : HttpRequest :=
  {| req_method := req_method r; req_path := req_path r; req_version := x; req_ip := req_ip r;
     req_client_port := req_client_port r; req_headers := req_headers r; req_body := req_body r;
     req_params := req_params r; req_query := req_query r; req_form := req_form r;
     req_multiparts := req_multiparts r |}.
Definition set_req_ip (x : bytes) (r : HttpRequest) : HttpRequest :=
  {| req_method := req_method r; req_path := req_path r; req_version := req_version r;
     req_ip := x; req_client_port := req_client_port r; req_headers := req_headers r;
     req_body := req_body r; req_params := req_params r; req_query := req_query r;
     req_form := req_form r; req_multiparts := req_multiparts r |}.
Definition set_req_client_port (x : Z) (r : HttpRequest) : HttpRequest :=
  {| req_method := req_method r; req_path := req_path r; req_version := req_version r;
     req_ip := req_ip r; req_client_port := x; req_headers := req_headers r;
     req_body := req_body r; req_params := req_params r; req_query := req_query r;
     req_form := req_form r; req_multiparts := req_multiparts r |}.
Definition set_req_headers (x : HttpHeaders) (r : HttpRequest) : HttpRequest :=
  {| req_method := req_method r; req_path := req_path r; req_version := req_version r;
     req_ip := req_ip r; req_client_port := req_client_port r; req_headers := x;
     req_body := req_body r; req_params := req_params r; req_query := req_query r;
     req_form := req_form r; req_multiparts := req_multiparts r |}.
Definition set_req_body (x : option bytes) (r : HttpRequest) : HttpRequest :=
  {| req_method := req_method r; req_path := req_path r; req_version := req_version r;
     req_ip := req_ip r; req_client_port := req_client_port r; req_headers := req_headers r;
     req_body := x; req_params := req_params r; req_query := req_query r; req_form := req_form r;
     req_multiparts := req_multiparts r |}.
Definition set_req_params (x : HttpParams) (r : HttpRequest) : HttpRequest :=
  {| req_method := req_method r; req_path := req_path r; req_version := req_version r;
     req_ip := req_ip r; req_client_port := req_client_port r; req_headers := req_headers r;
     req_body := req_body r; req_params := x; req_query := req_query r; req_form := req_form r;
     req_multiparts := req_multiparts r |}.
Definition set_req_query (x : list HttpQueryParam) (r : HttpRequest) : HttpRequest :=
  {| req_method := req_method r; req_path := req_path r; req_version := req_version r;
     req_ip := req_ip r; req_client_port := req_client_port r; req_headers := req_headers r;
     req_body := req_body r; req_params := req_params r; req_query := x; req_form := req_form r;
     req_multiparts := req_multiparts r |}.
Definition set_req_form (x : list HttpQueryParam) (r : HttpRequest) : HttpRequest :=
  {| req_method := req_method r; req_path := req_path r; req_version := req_version r;
     req_ip := req_ip r; req_client_port := req_client_port r; req_headers := req_headers r;
     req_body := req_body r; req_params := req_params r; req_query := req_query r; req_form := x;
     req_multiparts := req_multiparts r |}.
Definition set_req_multiparts (x : list HttpMultipartPart) (r : HttpRequest) : HttpRequest :=
  {| req_method := req_method r; req_path := req_path r; req_version := req_version r;
     req_ip := req_ip r; req_client_port := req_client_port r; req_headers := req_headers r;
     req_body := req_body r; req_params := req_params r; req_query := req_query r;
     req_form := req_form r; req_multiparts := x |}.

Definition set_res_status (x : Z) (r : HttpResponse) : HttpResponse :=
  {| res_status := x; res_body := res_body r; res_body_len := res_body_len r;
     res_headers := res_headers r; res_dyn_body := res_dyn_body r; res_locals := res_locals r;
     res_encoded_body := res_encoded_body r; res_file_path := res_file_path r;
     res_ranged := res_ranged r; res_range_start := res_range_start r;
     res_range_len := res_range_len r; res_error := res_error r;
     res_error_message := res_error_message r |}.
Definition set_res_body (x : bytes) (r : HttpResponse) : HttpResponse :=
  {| res_status := res_status r; res_body := x; res_body_len := res_body_len r;
     res_headers := res_headers r; res_dyn_body := res_dyn_body r; res_locals := res_locals r;
     res_encoded_body := res_encoded_body r; res_file_path := res_file_path r;
     res_ranged := res_ranged r; res_range_start := res_range_start r;
     res_range_len := res_range_len r; res_error := res_error r;
     res_error_message := res_error_message r |}.
Definition set_res_body_len (x : Z) (r : HttpResponse) : HttpResponse :=
  {| res_status := res_status r; res_body := res_body r; res_body_len := x;
     res_headers := res_headers r; res_dyn_body := res_dyn_body r; res_locals := res_locals r;
     res_encoded_body := res_encoded_body r; res_file_path := res_file_path r;
     res_ranged := res_ranged r; res_range_start := res_range_start r;
     res_range_len := res_range_len r; res_error := res_error r;
     res_error_message := res_error_message r |}.
Definition set_res_headers (x : HttpHeaders) (r : HttpResponse) : HttpResponse :=
  {| res_status := res_status r; res_body := res_body r; res_body_len := res_body_len r;
     res_headers := x; res_dyn_body := res_dyn_body r; res_locals := res_locals r;
     res_encoded_body := res_encoded_body r; res_file_path := res_file_path r;
     res_ranged := res_ranged r; res_range_start := res_range_start r;
     res_range_len := res_range_len r; res_error := res_error r;
     res_error_message := res_error_message r |}.
Definition set_res_dyn_body (x : option bytes) (r : HttpResponse) : HttpResponse :=
  {| res_status := res_status r; res_body := res_body r; res_body_len := res_body_len r;
     res_headers := res_headers r; res_dyn_body := x; res_locals := res_locals r;
     res_encoded_body := res_encoded_body r; res_file_path := res_file_path r;
     res_ranged := res_ranged r; res_range_start := res_range_start r;
     res_range_len := res_range_len r; res_error := res_error r;
     res_error_message := res_error_message r |}.
Definition set_res_locals (x : list HttpLocal) (r : HttpResponse) : HttpResponse :=
  {| res_status := res_status r; res_body := res_body r; res_body_len := res_body_len r;
     res_headers := res_headers r; res_dyn_body := res_dyn_body r; res_locals := x;
     res_encoded_body := res_encoded_body r; res_file_path := res_file_path r;
     res_ranged := res_ranged r; res_range_start := res_range_start r;
     res_range_len := res_range_len r; res_error := res_error r;
     res_error_message := res_error_message r |}.
Definition set_res_encoded_body (x : option bytes) (r : HttpResponse) : HttpResponse :=
  {| res_status := res_status r; res_body := res_body r; res_body_len := res_body_len r;
     res_headers := res_headers r; res_dyn_body := res_dyn_body r; res_locals := res_locals r;
     res_encoded_body := x; res_file_path := res_file_path r; res_ranged := res_ranged r;
     res_range_start := res_range_start r; res_range_len := res_range_len r;
     res_error := res_error r; res_error_message := res_error_message r |}.
Definition set_res_file_path (x : option bytes) (r : HttpResponse) : HttpResponse :=
  {| res_status := res_status r; res_body := res_body r; res_body_len := res_body_len r;
     res_headers := res_headers r; res_dyn_body := res_dyn_body r; res_locals := res_locals r;
     res_encoded_body := res_encoded_body r; res_file_path := x; res_ranged := res_ranged r;
     res_range_start := res_range_start r; res_range_len := res_range_len r;
     res_error := res_error r; res_error_message := res_error_message r |}.
Definition set_res_ranged (x : bool) (r : HttpResponse) : HttpResponse :=
  {| res_status := res_status r; res_body := res_body r; res_body_len := res_body_len r;
     res_headers := res_headers r; res_dyn_body := res_dyn_body r; res_locals := res_locals r;
     res_encoded_body := res_encoded_body r; res_file_path := res_file_path r; res_ranged := x;
     res_range_start := res_range_start r; res_range_len := res_range_len r;
     res_error := res_error r; res_error_message := res_error_message r |}.
Definition set_res_range_start (x : Z) (r : HttpResponse) : HttpResponse :=
  {| res_status := res_status r; res_body := res_body r; res_body_len := res_body_len r;
     res_headers := res_headers r; res_dyn_body := res_dyn_body r; res_locals := res_locals r;
     res_encoded_body := res_encoded_body r; res_file_path := res_file_path r;
     res_ranged := res_ranged r; res_range_start := x; res_range_len := res_range_len r;
     res_error := res_error r; res_error_message := res_error_message r |}.
Definition set_res_range_len (x : Z) (r : HttpResponse) : HttpResponse :=
  {| res_status := res_status r; res_body := res_body r; res_body_len := res_body_len r;
     res_headers := res_headers r; res_dyn_body := res_dyn_body r; res_locals := res_locals r;
     res_encoded_body := res_encoded_body r; res_file_path := res_file_path r;
     res_ranged := res_ranged r; res_range_start := res_range_start r; res_range_len := x;
     res_error := res_error r; res_error_message := res_error_message r |}.
Definition set_res_error (x : bool) (r : HttpResponse) : HttpResponse :=
  {| res_status := res_status r; res_body := res_body r; res_body_len := res_body_len r;
     res_headers := res_headers r; res_dyn_body := res_dyn_body r; res_locals := res_locals r;
     res_encoded_body := res_encoded_body r; res_file_path := res_file_path r;
     res_ranged := res_ranged r; res_range_start := res_range_start r;
     res_range_len := res_range_len r; res_error := x; res_error_message := res_error_message r
     |}.
Definition set_res_error_message (x : bytes) (r : HttpResponse) : HttpResponse :=
  {| res_status := res_status r; res_body := res_body r; res_body_len := res_body_len r;
     res_headers := res_headers r; res_dyn_body := res_dyn_body r; res_locals := res_locals r;
     res_encoded_body := res_encoded_body r; res_file_path := res_file_path r;
     res_ranged := res_ranged r; res_range_start := res_range_start r;
     res_range_len := res_range_len r; res_error := res_error r; res_error_message := x |}.

(** [memcpy(buf, src, len); buf[len] = NUL]: the rest of the buffer is kept. *)
Definition write_cstr (src buf : bytes) : bytes := src ++ [NUL] ++ zdrop (zlen src + 1) buf.

Lemma ztake_write_cstr src buf : ztake (zlen src) (write_cstr src buf) = src.
Proof. unfold write_cstr. apply ztake_app_length. Qed.

Lemma zlen_write_cstr src buf :
  zlen src < zlen buf → zlen (write_cstr src buf) = zlen buf.
Proof. intros H. unfold write_cstr. rewrite !zlen_app, zlen_zdrop by zlen_lia. zlen_lia. Qed.

(** ** Callbacks

    User code is a parameter of the model: a handler reads the request and
    turns the response into another, with effects. *)

Definition HttpHandler : Type := HttpRequest → HttpResponse → M HttpResponse.
Definition HttpMiddlewareHandler : Type :=
  HttpRequest → HttpResponse → M (HttpMiddlewareResult * HttpResponse).
Definition HttpErrorHandler : Type := HttpRequest → HttpResponse → Z → bytes → M HttpResponse.

(** An encoder returns the encoded block, or [None] on failure. *)
Record HttpEncoder := { enc_name : bytes; enc_encode : bytes → M (option bytes) }.

Record HttpRoute := {
  r_path : bytes;
  r_handler : HttpHandler;
  r_method : HttpMethod;
  r_segments : HttpRouteSegments;
}.

Record HttpRoutes := { rs_routes : list HttpRoute; rs_capacity : Z }.

Record HttpMiddleware := { m_path : option bytes; m_handler : HttpMiddlewareHandler }.
Record HttpMiddlewares := { ms_middlewares : list HttpMiddleware; ms_capacity : Z }.
Record HttpEncoders := { es_encoders : list HttpEncoder; es_capacity : Z }.
