(* ===== verification/Validate.v ===== *)
(** * Validation and names

    The guards of the RFC 9110/9112 section of [src/c_http.c]: field names and
    values, versions, status codes, and the two name tables. *)

From S2P Require Import Prelude CLib World Types.
#[local] Open Scope Z_scope.

(** [s[i]], NUL at and past the end. *)
Definition idx (s : bytes) (i : Z) : Z := deref (zdrop i s).

Definition is_tchar (c : Z) : bool :=
  if ("0"%ch <=? c) && (c <=? "9"%ch) then true
  else if ("a"%ch <=? c) && (c <=? "z"%ch) then true
  else if ("A"%ch <=? c) && (c <=? "Z"%ch) then true
  else strchr_found (str "!#$%&'*+-.^_`|~") c.

Definition is_valid_header_name (name : bytes) : bool :=
  match name with
  | [] => false
  | _ =>
      forallb (λ c,
        if (c <=? 32) || (c =? 127) || (126 <? c) then false
        else is_tchar c) name
  end.

Definition header_value_has_injection (value : bytes) : bool :=
  existsb (λ c, (c =? CR) || (c =? LF)) value.

Definition is_valid_http_version (version : bytes) : bool :=
  starts_with (str "HTTP/") version &&
  ("0"%ch <=? idx version 5) && (idx version 5 <=? "9"%ch) &&
  (idx version 6 =? "."%ch) &&
  ("0"%ch <=? idx version 7) && (idx version 7 <=? "9"%ch) &&
  (idx version 8 =? NUL).

Definition is_valid_status_code (status : Z) : bool := (100 <=? status) && (status <=? 599).

(** Compiled in debug builds only. *)
Definition is_valid_request_target (path method : bytes) : bool :=
  match path with
  | [] => false
  | _ => if streq path (str "*") then streq method (str "OPTIONS")
         else deref path =? "/"%ch
  end.

Definition status_text (status : Z) : bytes :=
  if negb (is_valid_status_code status) then str "Unknown"
  else
    match status with
    | 100 => str "Continue"
    | 101 => str "Switching Protocols"
    | 102 => str "Processing"
    | 103 => str "Early Hints"
    | 200 => str "OK"
    | 201 => str "Created"
    | 202 => str "Accepted"
    | 203 => str "Non-Authoritative Information"
    | 204 => str "No Content"
    | 205 => str "Reset Content"
    | 206 => str "Partial Content"
    | 207 => str "Multi-Status"
    | 208 => str "Already Reported"
    | 226 => str "IM Used"
    | 300 => str "Multiple Choices"
    | 301 => str "Moved Permanently"
    | 302 => str "Found"
    | 303 => str "See Other"
    | 304 => str "Not Modified"
    | 305 => str "Use Proxy"
    | 307 => str "Temporary Redirect"
    | 308 => str "Permanent Redirect"
    | 400 => str "Bad Request"
    | 401 => str "Unauthorized"
    | 402 => str "Payment Required"
    | 403 => str "Forbidden"
    | 404 => str "Not Found"
    | 405 => str "Method Not Allowed"
    | 406 => str "Not Acceptable"
    | 407 => str "Proxy Authentication Required"
    | 408 => str "Request Timeout"
    | 409 => str "Conflict"
    | 410 => str "Gone"
    | 411 => str "Length Required"
    | 412 => str "Precondition Failed"
    | 413 => str "Content Too Large"
    | 414 => str "URI Too Long"
    | 415 => str "Unsupported Media Type"
    | 416 => str "Range Not Satisfiable"
    | 417 => str "Expectation Failed"
    | 418 => str "I'm a Teapot"
    | 421 => str "Misdirected Request"
    | 422 => str "Unprocessable Content"
    | 423 => str "Locked"
    | 424 => str "Failed Dependency"
    | 425 => str "Too Early"
    | 426 => str "Upgrade Required"
    | 428 => str "Precondition Required"
    | 429 => str "Too Many Requests"
    | 431 => str "Request Header Fields Too Large"
    | 451 => str "Unavailable for Legal Reasons"
    | 500 => str "Internal Server Error"
    | 501 => str "Not Implemented"
    | 502 => str "Bad Gateway"
    | 503 => str "Service Unavailable"
    | 504 => str "Gateway Timeout"
    | 505 => str "HTTP Version Not Supported"
    | 506 => str "Variant Also Negotiates"
    | 507 => str "Insufficient Storage"
    | 508 => str "Loop Detected"
    | 510 => str "Not Extended"
    | 511 => str "Network Authentication Required"
    | _ => str "Unknown"
    end.

Definition method_name (m : HttpMethod) : bytes :=
  match m with
  | HTTP_METHOD_GET => str "GET"
  | HTTP_METHOD_POST => str "POST"
  | HTTP_METHOD_PUT => str "PUT"
  | HTTP_METHOD_PATCH => str "PATCH"
  | HTTP_METHOD_DELETE => str "DELETE"
  | HTTP_METHOD_HEAD => str "HEAD"
  | HTTP_METHOD_OPTIONS => str "OPTIONS"
  | HTTP_METHOD_CONNECT => str "CONNECT"
  | HTTP_METHOD_TRACE => str "TRACE"
  end.

(** [None] is the error return -1. *)
Definition string_to_http_method (method : bytes) : option HttpMethod :=
  if streq method (str "GET") then Some HTTP_METHOD_GET
  else if streq method (str "POST") then Some HTTP_METHOD_POST
  else if streq method (str "PUT") then Some HTTP_METHOD_PUT
  else if streq method (str "PATCH") then Some HTTP_METHOD_PATCH
  else if streq method (str "DELETE") then Some HTTP_METHOD_DELETE
  else if streq method (str "HEAD") then Some HTTP_METHOD_HEAD
  else if streq method (str "OPTIONS") then Some HTTP_METHOD_OPTIONS
  else if streq method (str "CONNECT") then Some HTTP_METHOD_CONNECT
  else if streq method (str "TRACE") then Some HTTP_METHOD_TRACE
  else None.

(** ** Correctness *)

(** The characters of an RFC 9110 token. *)
Definition tchar (c : Z) : Prop :=
  "0"%ch <= c <= "9"%ch ∨ "a"%ch <= c <= "z"%ch ∨ "A"%ch <= c <= "Z"%ch ∨
  c ∈ str "!#$%&'*+-.^_`|~".

Lemma is_tchar_true c : c ≠ NUL → (is_tchar c = true ↔ tchar c).
Proof.
  intros Hc. unfold is_tchar, tchar, strchr_found.
  rewrite (proj2 (Z.eqb_neq c NUL) Hc). simpl orb.
  rewrite <- has_chr_true.
  repeat case_if; breflect; split; intros; try done; try (by intuition lia); intuition lia.
Qed.

Lemma tchar_bound c : tchar c → 33 <= c <= 126.
Proof.
  intros [?|[?|[?|H]]]; try lia.
  apply has_chr_true in H. unfold has_chr in H. simpl in H.
  repeat (apply orb_true_iff in H as [H|H]; [breflect; lia|]). done.
Qed.

(** A field name is accepted exactly when it is a non-empty token. *)
Lemma is_valid_header_name_true name :
  is_valid_header_name name = true ↔ name ≠ [] ∧ Forall tchar name.
Proof.
  unfold is_valid_header_name. destruct name as [|c s]; [by split; intros; destruct_and?|].
  rewrite forallb_forall. split.
  - intros H. split; [done|]. apply Forall_forall. intros x Hx.
    specialize (H x (proj1 (list_elem_of_In _ _) Hx)). simpl in H.
    case_if_in H; [done|]. breflect. apply is_tchar_true; [lia|done].
  - intros [_ H] x Hx. rewrite Forall_forall in H.
    specialize (H x (proj2 (list_elem_of_In _ _) Hx)).
    pose proof (tchar_bound _ H). case_if; [breflect; lia|].
    apply is_tchar_true; [lia|done].
Qed.

Lemma header_value_has_injection_false value :
  header_value_has_injection value = false ↔ ¬ (CR ∈ value) ∧ ¬ (LF ∈ value).
Proof.
  unfold header_value_has_injection. induction value as [|c s IH]; simpl.
  - split; [|done]. intros _. split; apply not_elem_of_nil.
  - rewrite !orb_false_iff, !Z.eqb_neq, IH, !not_elem_of_cons. intuition.
Qed.

Lemma string_to_http_method_name m : string_to_http_method (method_name m) = Some m.
Proof. by destruct m. Qed.

Lemma string_to_http_method_Some s m : string_to_http_method s = Some m ↔ s = method_name m.
Proof.
  split; [|intros ->; apply string_to_http_method_name].
  unfold string_to_http_method.
  repeat (case_if; [intros [= <-]; by apply streq_true|]). done.
Qed.

(** A decidable fact about every valid status code, by evaluation. *)
Lemma status_cases (P : Z → bool) :
  forallb P (seqZ 100 500) = true → ∀ s, is_valid_status_code s = true → P s = true.
Proof.
  intros H s Hs. rewrite forallb_forall in H. apply H.
  apply list_elem_of_In, elem_of_seqZ. unfold is_valid_status_code in Hs. breflect. lia.
Qed.
