(* ===== verification/Headers.v ===== *)
(** * Header lists

    [apply_header] and the functions over [HttpHeaders] of [src/c_http.c] and
    [src/c_http_encoder.c]: appending, replacing and looking up header fields,
    comma-separated lists, and keep-alive negotiation. *)

From S2P Require Import Prelude CLib World Types Validate.
#[local] Open Scope Z_scope.

(** ** Appending and looking up *)

(** Grows the array when it is full; [None]: [realloc] failed. *)
Definition grow_headers (headers : HttpHeaders) : M (option HttpHeaders) :=
  if zlen (hs_items headers) =? hs_capacity headers then
    let new_cap := if hs_capacity headers =? 0 then 8 else hs_capacity headers * 2 in
    ok ← malloc;
    mret (if (ok : bool)
          then Some {| hs_items := hs_items headers; hs_capacity := new_cap |} else None)
  else mret (Some headers).

Definition apply_header (headers : HttpHeaders) (key value : bytes) : M (Z * HttpHeaders) :=
  if negb (is_valid_header_name key) then mret (-1, headers)
  else if header_value_has_injection value then mret (-1, headers)
  else
    grown ← grow_headers headers;
    match grown with
    | None => mret (-1, headers)
    | Some headers =>
        key_copy ← malloc;
        value_copy ← malloc;
        if negb key_copy || negb value_copy then mret (-1, headers)
        else mret (0, {| hs_items := hs_items headers ++ [{| h_key := key; h_value := value |}];
                         hs_capacity := hs_capacity headers |})
    end.

(** NULL arguments are [None]. *)
Definition http_set_header (headers : HttpHeaders) (key value : option bytes)
  : M (HttpSetHeaderResult * HttpHeaders) :=
  match key, value with
  | Some key, Some value =>
      '(rc, headers) ← apply_header headers key value;
      mret (if rc <? 0 then HTTP_SET_HEADER_ERROR else HTTP_SET_HEADER_OK, headers)
  | _, _ => mret (HTTP_SET_HEADER_ERROR, headers)
  end.

(** The first header of that name, in any case. *)
Fixpoint find_header (items : list HttpHeader) (key : bytes) : option bytes :=
  match items with
  | [] => None
  | h :: r => if strcaseeq (h_key h) key then Some (h_value h) else find_header r key
  end.

Definition http_req_header (req : HttpRequest) (key : option bytes) : option bytes :=
  match key with
  | None => None
  | Some key => find_header (hs_items (req_headers req)) key
  end.

(** Overwrites the value of the first header of that name. *)
Fixpoint replace_first (items : list HttpHeader) (key value : bytes) : option (list HttpHeader) :=
  match items with
  | [] => None
  | h :: r =>
      if strcaseeq (h_key h) key then Some ({| h_key := h_key h; h_value := value |} :: r)
      else match replace_first r key value with
           | Some r' => Some (h :: r')
           | None => None
           end
  end.

Definition replace_header (headers : HttpHeaders) (key value : bytes) : M (Z * HttpHeaders) :=
  match replace_first (hs_items headers) key value with
  | Some items =>
      copy ← malloc;
      if negb copy then mret (-1, headers)
      else mret (0, {| hs_items := items; hs_capacity := hs_capacity headers |})
  | None => apply_header headers key value
  end.

Definition http_headers_free (headers : HttpHeaders) : HttpHeaders :=
  {| hs_items := []; hs_capacity := 0 |}.

(** ** Comma-separated lists *)

Definition is_ows_or_comma (c : Z) : bool := (c =? SP) || (c =? HT) || (c =? ","%ch).
Definition not_comma (c : Z) : bool := negb (c =? ","%ch).

(** The loop consumes a character per round; the fuel is the string's length. *)
Fixpoint contains_token_loop (fuel : nat) (p token : bytes) : bool :=
  match fuel, p with
  | O, _ | _, [] => false
  | S fuel, _ =>
      let p := skip_while is_ows_or_comma p in
      let '(start, p) := span not_comma p in
      let start := rtrim is_ows start in
      if (zlen start =? zlen token) && starts_with_ci token start then true
      else contains_token_loop fuel p token
  end.

Definition header_contains_token (value token : bytes) : bool :=
  contains_token_loop (length value) value token.

Definition request_wants_keep_alive (req : HttpRequest) : bool :=
  let by_version := streq (req_version req) (str "HTTP/1.1") in
  match http_req_header req (Some (str "Connection")) with
  | Some conn =>
      if header_contains_token conn (str "close") then false
      else if header_contains_token conn (str "keep-alive") then true
      else by_version
  | None => by_version
  end.

(** ** What the list of a response may hold *)

Definition header_ok (h : HttpHeader) : Prop :=
  is_valid_header_name (h_key h) = true ∧ header_value_has_injection (h_value h) = false.

(** The invariant of every header list the library builds: only token names,
    no CR or LF in a value, and no more items than the array has slots. *)
Definition headers_ok (hs : HttpHeaders) : Prop :=
  Forall header_ok (hs_items hs) ∧ zlen (hs_items hs) <= hs_capacity hs.

Lemma headers_ok_no_headers : headers_ok no_headers.
Proof. split; [constructor|done]. Qed.
#[export] Hint Resolve headers_ok_no_headers : chttp.

Lemma grow_headers_spec hs w :
  zlen (hs_items hs) <= hs_capacity hs →
  match result (grow_headers hs) w with
  | None => True
  | Some hs' => hs_items hs' = hs_items hs ∧ zlen (hs_items hs') < hs_capacity hs'
  end.
Proof.
  intros Hc. unfold grow_headers. case_if; breflect.
  - unfold result. simpl. destruct (malloc w).1; [|done]. simpl. split; [done|].
    case_if; breflect; zlen_lia.
  - unfold result. simpl. split; [done|lia].
Qed.

(** What [apply_header] does, whatever the allocator answers: 0 appends one
    valid field, -1 leaves the items alone. *)
Lemma apply_header_spec hs key value w :
  zlen (hs_items hs) <= hs_capacity hs →
  let '(rc, hs') := result (apply_header hs key value) w in
  zlen (hs_items hs') <= hs_capacity hs' ∧
  ((rc = 0 ∧ is_valid_header_name key = true ∧ header_value_has_injection value = false ∧
    hs_items hs' = hs_items hs ++ [{| h_key := key; h_value := value |}])
   ∨ (rc = -1 ∧ hs_items hs' = hs_items hs)).
Proof.
  intros Hc. unfold apply_header.
  case_if; [by simpl; auto|]. case_if; [by simpl; auto|]. breflect.
  unfold result. rewrite bind_run.
  pose proof (grow_headers_spec hs w Hc) as Hg.
  destruct (result (grow_headers hs) w) as [hs'|]; [|by simpl; auto].
  destruct Hg as [Hi Hlt]. rewrite !bind_run.
  case_if; simpl.
  - split; [lia|]. by right.
  - split; [rewrite zlen_app, zlen_cons, zlen_nil; lia|]. left. rewrite Hi. done.
Qed.

Lemma apply_header_ok hs key value w :
  headers_ok hs → headers_ok (result (apply_header hs key value) w).2.
Proof.
  intros [Hf Hc]. pose proof (apply_header_spec hs key value w Hc) as H.
  destruct (result (apply_header hs key value) w) as [rc hs']. simpl.
  destruct H as [Hl [(-> & Hk & Hv & Hi)|[-> Hi]]]; split; try done; rewrite Hi; [|done].
  apply Forall_app. split; [done|]. constructor; [done|constructor].
Qed.
#[export] Hint Resolve apply_header_ok : chttp.

(** With memory available, a valid field is always appended. *)
Lemma apply_header_append hs key value w :
  w_alloc w = [] → is_valid_header_name key = true → header_value_has_injection value = false →
  (result (apply_header hs key value) w).1 = 0 ∧
  hs_items (result (apply_header hs key value) w).2
  = hs_items hs ++ [{| h_key := key; h_value := value |}].
Proof.
  intros Hw Hk Hv. unfold apply_header, grow_headers, result.
  rewrite Hk, Hv. cbn [negb]. mrun. case_if; by mrun_ok Hw.
Qed.

Lemma only_allocates_grow_headers hs : only_allocates (grow_headers hs).
Proof. unfold grow_headers. only_alloc. Qed.
#[export] Hint Resolve only_allocates_grow_headers : chttp.

Lemma only_allocates_apply_header hs key value : only_allocates (apply_header hs key value).
Proof. unfold apply_header. only_alloc. Qed.
#[export] Hint Resolve only_allocates_apply_header : chttp.

Lemma only_allocates_set_header hs key value : only_allocates (http_set_header hs key value).
Proof. unfold http_set_header. only_alloc. Qed.
#[export] Hint Resolve only_allocates_set_header : chttp.

Lemma http_set_header_ok hs key value w :
  headers_ok hs → headers_ok (result (http_set_header hs key value) w).2.
Proof.
  intros H. unfold http_set_header. destruct key as [k|], value as [v|]; try done.
  unfold result. rewrite bind_run.
  pose proof (apply_header_ok hs k v w H).
  by destruct (result (apply_header hs k v) w) as [rc hs'].
Qed.
#[export] Hint Resolve http_set_header_ok : chttp.

(** ** Comma-separated lists: the loop against the list syntax of RFC 9110 *)

Fixpoint split_on (c : Z) (s : bytes) : list bytes :=
  match s with
  | [] => [[]]
  | x :: r =>
      if x =? c then [] :: split_on c r
      else match split_on c r with
           | h :: t => (x :: h) :: t
           | [] => [[x]]
           end
  end.

Definition trim_ows (s : bytes) : bytes := rtrim is_ows (skip_while is_ows s).

(** The elements of a [#element] list: the text between commas, trimmed. *)
Definition list_elements (s : bytes) : list bytes := map trim_ows (split_on ","%ch s).

Lemma trim_ows_nil : trim_ows [] = [].
Proof. done. Qed.

Lemma split_on_not_nil c s : split_on c s ≠ [].
Proof. destruct s as [|x s]; [done|]. simpl. case_if; [done|]. by destruct (split_on c s). Qed.

(** The elements that are not blank: the ones a scanning loop looks at. *)
Definition list_tokens (s : bytes) : list bytes :=
  List.filter (λ e, negb (bool_decide (e = []))) (list_elements s).

Lemma existsb_tokens f s : f [] = false → existsb f (list_tokens s) = existsb f (list_elements s).
Proof.
  intros Hf. unfold list_tokens. induction (list_elements s) as [|e l IH]; [done|]. simpl.
  case_bool_decide as He; simpl; rewrite IH; [by rewrite He, Hf|done].
Qed.

Lemma list_tokens_skip c s : is_ows_or_comma c = true → list_tokens (c :: s) = list_tokens s.
Proof.
  intros Hc. unfold list_tokens, list_elements. simpl. case_if; [done|].
  destruct (split_on ","%ch s) as [|h t] eqn:E; [by apply split_on_not_nil in E|].
  simpl. assert (trim_ows (c :: h) = trim_ows h) as ->; [|done].
  unfold trim_ows, skip_while. simpl.
  unfold is_ows_or_comma in Hc. rewrite Heqb, orb_false_r in Hc.
  unfold is_ows at 2. rewrite Hc. by destruct (span is_ows h).
Qed.

Lemma list_tokens_skip_while s : list_tokens (skip_while is_ows_or_comma s) = list_tokens s.
Proof.
  induction s as [|c s IH]; [done|]. unfold skip_while in *. simpl.
  destruct (is_ows_or_comma c) eqn:E; [|done].
  rewrite list_tokens_skip by done. rewrite <- IH. by destruct (span is_ows_or_comma s).
Qed.

Lemma list_elements_skip_while f s :
  f [] = false →
  existsb f (list_elements (skip_while is_ows_or_comma s)) = existsb f (list_elements s).
Proof. intros Hf. by rewrite <- !existsb_tokens, list_tokens_skip_while. Qed.

Lemma split_on_span s a b :
  span not_comma s = (a, b) →
  split_on ","%ch s = match b with [] => [a] | _ :: b' => a :: split_on ","%ch b' end.
Proof.
  revert a b. induction s as [|c s IH]; intros a b; simpl; [by intros [= <- <-]|].
  unfold not_comma at 1. destruct (c =? ","%ch) eqn:E; [by intros [= <- <-]|]. simpl.
  destruct (span not_comma s) as [a' b'] eqn:Es. intros [= <- <-].
  rewrite (IH _ _ eq_refl). by destruct b'.
Qed.

Lemma starts_with_ci_eq s t :
  zlen s = zlen t → starts_with_ci t s = strcaseeq s t.
Proof.
  intros Hl. unfold starts_with_ci, strcaseeq. rewrite <- (zlen_map tolower s), <- (zlen_map tolower t) in Hl.
  revert Hl. generalize (map tolower s) (map tolower t). clear.
  intros s t Hl. destruct (starts_with t s) eqn:E.
  - apply starts_with_true in E as [u ->]. rewrite zlen_app in Hl.
    assert (u = []) as -> by (apply zlen_nil_inv; zlen_lia).
    rewrite app_nil_r. by rewrite streq_refl.
  - symmetry. apply streq_false. intros ->. rewrite <- (app_nil_r t) in E at 2.
    by rewrite starts_with_app in E.
Qed.

Lemma token_test s t :
  (zlen s =? zlen t) && starts_with_ci t s = strcaseeq s t.
Proof.
  destruct (zlen s =? zlen t) eqn:E; simpl.
  - breflect. by apply starts_with_ci_eq.
  - breflect. symmetry. apply streq_false. intros H. apply E.
    rewrite <- (zlen_map tolower s), <- (zlen_map tolower t). by rewrite H.
Qed.

(** One element of the list, seen by the loop and by the list syntax. *)
Lemma list_tokens_step q a b :
  span not_comma q = (a, b) →
  (q = [] ∨ ∃ c r, q = c :: r ∧ is_ows_or_comma c = false) →
  list_tokens q = match rtrim is_ows a with [] => list_tokens b | e => e :: list_tokens b end.
Proof.
  intros Hs Hq. unfold list_tokens, list_elements. rewrite (split_on_span _ _ _ Hs).
  assert (trim_ows a = rtrim is_ows a) as Ha.
  { unfold trim_ows. f_equal. destruct Hq as [->|(c & r & -> & Hc)]; simpl in Hs.
    - by injection Hs as <- <-.
    - unfold is_ows_or_comma in Hc. apply orb_false_iff in Hc as [Hc1 Hc2].
      unfold not_comma at 1 in Hs. rewrite Hc2 in Hs. simpl in Hs.
      destruct (span not_comma r). injection Hs as <- <-. by rewrite skip_while_id. }
  destruct (span_stop _ _ _ _ Hs) as [->|(c & r & -> & Hc)]; simpl; rewrite Ha.
  - by destruct (rtrim is_ows a).
  - unfold not_comma in Hc. apply negb_false_iff in Hc. rewrite Hc. simpl.
    by destruct (rtrim is_ows a).
Qed.

Lemma list_elements_step f q a b :
  f [] = false → span not_comma q = (a, b) →
  (q = [] ∨ ∃ c r, q = c :: r ∧ is_ows_or_comma c = false) →
  existsb f (list_elements q) = f (rtrim is_ows a) || existsb f (list_elements b).
Proof.
  intros Hf Hs Hq. rewrite <- !existsb_tokens, (list_tokens_step q a b) by done.
  destruct (rtrim is_ows a); [by rewrite Hf|done].
Qed.

Lemma skip_while_stop P s :
  skip_while P s = [] ∨ ∃ c r, skip_while P s = c :: r ∧ P c = false.
Proof. unfold skip_while. destruct (span P s) as [a b] eqn:E. by eapply span_stop. Qed.

(** A round of a scan over a list consumes something. *)
Lemma skip_span_shorter p a b :
  span not_comma (skip_while is_ows_or_comma p) = (a, b) → p ≠ [] → (length b < length p)%nat.
Proof.
  intros Es Hp. pose proof (skip_while_length is_ows_or_comma p) as Hql.
  destruct (skip_while_stop is_ows_or_comma p) as [Hq|(c & r & Hq & Hc)]; rewrite Hq in *; simpl in Es.
  - injection Es as <- <-. destruct p; [done|]. simpl. lia.
  - unfold is_ows_or_comma in Hc. apply orb_false_iff in Hc as [_ Hc].
    unfold not_comma at 1 in Es. rewrite Hc in Es. simpl in Es.
    destruct (span not_comma r) as [a' b'] eqn:Es'. injection Es as <- <-.
    apply span_app in Es'. subst r. simpl in Hql. rewrite length_app in Hql. lia.
Qed.

Lemma contains_token_loop_spec fuel p token :
  token ≠ [] → (length p ≤ fuel)%nat →
  contains_token_loop fuel p token = existsb (λ e, strcaseeq e token) (list_elements p).
Proof.
  intros Ht. assert (strcaseeq [] token = false) as Hf.
  { apply streq_false. by destruct token. }
  revert p. induction fuel as [|fuel IH]; intros p Hl.
  - destruct p; [|simpl in Hl; lia]. simpl. by rewrite trim_ows_nil, Hf.
  - destruct p as [|c0 p0] eqn:Ep; [simpl; by rewrite trim_ows_nil, Hf|]. rewrite <- Ep in *.
    rewrite <- (list_elements_skip_while (λ e, strcaseeq e token) p Hf).
    change (contains_token_loop (S fuel) p token) with
      (match p with
       | [] => false
       | _ => let '(start, p') := span not_comma (skip_while is_ows_or_comma p) in
              if (zlen (rtrim is_ows start) =? zlen token) && starts_with_ci token (rtrim is_ows start)
              then true else contains_token_loop fuel p' token
       end).
    rewrite Ep at 1. pose proof (skip_while_stop is_ows_or_comma p) as Hq.
    destruct (span not_comma (skip_while is_ows_or_comma p)) as [a b] eqn:Es.
    rewrite (list_elements_step _ _ _ _ Hf Es Hq), token_test.
    destruct (strcaseeq (rtrim is_ows a) token); [done|]. apply IH.
    assert (p ≠ []) as Hp by by rewrite Ep. pose proof (skip_span_shorter p a b Es Hp). lia.
Qed.

(** The comma-list scan finds a token exactly when it is, up to case, one of
    the trimmed elements of the list. *)
Lemma header_contains_token_spec value token :
  token ≠ [] →
  header_contains_token value token = existsb (λ e, strcaseeq e token) (list_elements value).
Proof. intros Ht. apply contains_token_loop_spec; [done|]. lia. Qed.
