(* ===== verification/Query.v ===== *)
(** * Query strings and urlencoded forms

    [query_decode], [parse_query] and the two accessors of [src/c_http.c]. *)

From S2P Require Import Prelude CLib World Types Headers.
#[local] Open Scope Z_scope.

(** ** The code *)

(** -1 when [c] is no hexadecimal digit. *)
Definition hex_val (c : Z) : Z :=
  if ("0"%ch <=? c) && (c <=? "9"%ch) then c - "0"%ch
  else if ("a"%ch <=? c) && (c <=? "f"%ch) then c - "a"%ch + 10
  else if ("A"%ch <=? c) && (c <=? "F"%ch) then c - "A"%ch + 10
  else -1.

(** Decodes the rest [s] of the input when [o] bytes are already written;
    [None] is the error return -1. *)
Fixpoint query_decode_loop (s : bytes) (o out_size : Z) : option bytes :=
  match s with
  | [] => Some []
  | c :: r =>
      if out_size <=? o + 1 then None
      else if c =? "%"%ch then
        match r with
        | c1 :: c2 :: r =>
            let hi := hex_val c1 in
            let lo := hex_val c2 in
            if (hi <? 0) || (lo <? 0) then None
            else
              let decoded := hi * 16 + lo in
              if (decoded <? 32) || (decoded =? 127) then None
              else cons decoded <$> query_decode_loop r (o + 1) out_size
        | _ => None
        end
      else if c =? "+"%ch then cons SP <$> query_decode_loop r (o + 1) out_size
      else if (c <? 32) || (c =? 127) then None
      else cons c <$> query_decode_loop r (o + 1) out_size
  end.

Definition query_decode (input : bytes) (out_size : Z) : option bytes :=
  if out_size =? 0 then None else query_decode_loop input 0 out_size.

Definition not_amp (c : Z) : bool := negb (c =? "&"%ch).
Definition not_amp_eq (c : Z) : bool := negb (c =? "&"%ch) && negb (c =? "="%ch).

(** A decoded pair; oversized or malformed pairs are skipped whole. *)
Definition query_pair (key value : bytes) : option HttpQueryParam :=
  match key with
  | [] => None
  | _ =>
      match query_decode key HTTP_QUERY_KEY_MAX, query_decode value HTTP_QUERY_VALUE_MAX with
      | Some k, Some v => Some {| q_key := k; q_value := v |}
      | _, _ => None
      end
  end.

(** What one round of the loop reads: the key, the value after ['='] if any, and
    where it stops. *)
Definition read_segment (p : bytes) : bytes * bytes * bytes :=
  let '(key, p) := span not_amp_eq p in
  let '(value, p) := match p with "="%ch :: p => span not_amp p | _ => ([], p) end in
  (key, value, p).

(** One round per pair; every round consumes a character, so the length of the
    string is enough fuel. *)
Fixpoint parse_query_loop (fuel : nat) (p : bytes) (out : list HttpQueryParam)
  : list HttpQueryParam :=
  match fuel, p with
  | O, _ | _, [] => out
  | S fuel, _ =>
      if HTTP_MAX_QUERY <=? zlen out then out
      else
        let '(key, value, p) := read_segment p in
        let out := match query_pair key value with Some pr => out ++ [pr] | None => out end in
        let p := match p with "&"%ch :: p => p | _ => p end in
        parse_query_loop fuel p out
  end.

Definition parse_query (query : bytes) : list HttpQueryParam :=
  parse_query_loop (length query) query [].

Fixpoint find_query (params : list HttpQueryParam) (key : bytes) : option bytes :=
  match params with
  | [] => None
  | q :: r => if streq key (q_key q) then Some (q_value q) else find_query r key
  end.

Definition http_req_query (req : HttpRequest) (key : option bytes) : option bytes :=
  key ← key; find_query (req_query req) key.

Definition http_req_form (req : HttpRequest) (key : option bytes) : option bytes :=
  key ← key; find_query (req_form req) key.

(** ** Decoding *)

Lemma hex_val_range c : -1 <= hex_val c < 16.
Proof. unfold hex_val. repeat case_if; breflect; lia. Qed.

(** A decoded character: no NUL, control character or DEL. *)
Definition clean_char (c : Z) : Prop := 32 <= c ∧ c ≠ 127.


Lemma query_decode_loop_spec s : ∀ o sz out,
  query_decode_loop s o sz = Some out →
  Forall clean_char out ∧ (out = [] ∨ o + zlen out < sz).
Proof.
  induction s as [s IH] using (induction_ltof1 _ length). unfold ltof in IH.
  intros o sz out. destruct s as [|c r]; simpl; [intros [= <-]; by auto|].
  case_if; [done|]. breflect.
  assert (∀ d r', (length r' < S (length r))%nat → clean_char d →
    cons d <$> query_decode_loop r' (o + 1) sz = Some out →
    Forall clean_char out ∧ (out = [] ∨ o + zlen out < sz)) as Hstep.
  { intros d r' Hl Hd H. apply fmap_Some in H as (t & Ht & ->).
    apply IH in Ht as [Hc Hz]; [|done]. split; [by constructor|].
    right. rewrite zlen_cons. destruct Hz as [->|?]; [rewrite zlen_nil|]; lia. }
  case_if.
  { destruct r as [|c1 [|c2 r']]; [done..|].
    pose proof (hex_val_range c1). pose proof (hex_val_range c2).
    case_if; [done|]. case_if; [done|]. breflect.
    apply Hstep; [simpl; lia|]. split; lia. }
  case_if; [apply Hstep; [lia|by split; lia]|].
  case_if; [done|]. breflect. apply Hstep; [lia|by split].
Qed.

(** A reference form encoder: letters and digits stand for themselves, a space
    is ['+'], anything else is a percent escape. *)
Definition hex_digit (d : Z) : Z := if d <? 10 then "0"%ch + d else "A"%ch + (d - 10).
Definition is_alnum (c : Z) : bool := is_digit c || is_lower c || is_upper c.
Definition form_encode_char (c : Z) : bytes :=
  if is_alnum c then [c]
  else if c =? SP then ["+"%ch]
  else ["%"%ch; hex_digit (c / 16); hex_digit (c mod 16)].
Definition form_encode (s : bytes) : bytes := flat_map form_encode_char s.

Lemma hex_val_digit d : 0 <= d < 16 → hex_val (hex_digit d) = d.
Proof.
  intros. unfold hex_digit. destruct (d <? 10) eqn:E; breflect; unfold hex_val.
  - repeat case_if; breflect; lia.
  - replace (("0"%ch <=? _) && _) with false by (symmetry; lia).
    repeat case_if; breflect; lia.
Qed.

Lemma is_alnum_range c :
  is_alnum c = true → 48 <= c <= 57 ∨ 65 <= c <= 90 ∨ 97 <= c <= 122.
Proof.
  unfold is_alnum, is_digit, is_lower, is_upper. intros H.
  apply orb_true_iff in H as [H|H]; [apply orb_true_iff in H as [H|H]|]; breflect; lia.
Qed.

Lemma query_decode_loop_encode s : ∀ o sz,
  Forall clean_char s → Forall is_byte s → o + zlen s < sz →
  query_decode_loop (form_encode s) o sz = Some s.
Proof.
  induction s as [|c s IH]; intros o sz Hc Hb Hz; [done|].
  inversion_clear Hc as [|?? [Hc1 Hc2] Hcs]. inversion_clear Hb as [|?? Hcb Hbs].
  unfold is_byte in Hcb. rewrite zlen_cons in Hz. pose proof (zlen_nonneg s).
  specialize (IH (o + 1) sz Hcs Hbs ltac:(lia)).
  change (form_encode (c :: s)) with (form_encode_char c ++ form_encode s).
  unfold form_encode_char. destruct (is_alnum c) eqn:Ha; [|case_if]; breflect.
  - apply is_alnum_range in Ha. simpl. repeat (case_if; breflect; [lia|]).
    by rewrite IH.
  - subst c. simpl. case_if; [breflect; lia|]. by rewrite IH.
  - cbn -[Z.mul Z.div Z.modulo hex_digit].
    pose proof (Z.div_mod c 16 ltac:(lia)) as Hdm. pose proof (Z.mod_pos_bound c 16 ltac:(lia)).
    assert (0 <= c / 16 < 16) by (split; [apply Z.div_pos|apply Z.div_lt_upper_bound]; lia).
    rewrite !hex_val_digit by lia.
    replace (c / 16 * 16 + c mod 16) with c by lia.
    repeat (case_if; [breflect; lia|]). rewrite IH. done.
Qed.

(** [query_decode] inverts form encoding on every clean string that fits. *)
Lemma query_decode_encode s sz :
  Forall clean_char s → Forall is_byte s → zlen s < sz →
  query_decode (form_encode s) sz = Some s.
Proof.
  intros. pose proof (zlen_nonneg s). unfold query_decode. case_if; [breflect; lia|].
  apply query_decode_loop_encode; [done|done|lia].
Qed.

Lemma query_decode_spec s sz out :
  query_decode s sz = Some out → Forall clean_char out ∧ (out = [] ∨ zlen out < sz).
Proof.
  unfold query_decode. case_if; [done|]. intros H.
  apply query_decode_loop_spec in H as [? [?|?]]; split; auto.
Qed.

(** ** The pairs of a query *)

(** A segment between ['&']s, split at its first ['=']. *)
Definition split_pair (seg : bytes) : bytes * bytes :=
  match split_chr "="%ch seg with
  | Some (k, v) => (k, v)
  | None => (seg, [])
  end.

Definition segment_pair (seg : bytes) : option HttpQueryParam :=
  let '(k, v) := split_pair seg in query_pair k v.

Definition query_pairs (query : bytes) : list HttpQueryParam :=
  omap segment_pair (split_on "&"%ch query).

Lemma split_on_app c a s :
  c ∉ a → split_on c (a ++ s) =
  match split_on c s with h :: t => (a ++ h) :: t | [] => [a] end.
Proof.
  induction a as [|x a IH]; intros Ha; simpl.
  - destruct (split_on c s) eqn:E; [by apply split_on_not_nil in E|done].
  - rewrite not_elem_of_cons in Ha. destruct Ha as [Hx Ha]. case_if; breflect; [congruence|].
    rewrite (IH Ha). by destruct (split_on c s).
Qed.

Lemma split_chr_notin c a s :
  c ∉ a → split_chr c (a ++ s) = match split_chr c s with
                                  | Some (x, y) => Some (a ++ x, y) | None => None end.
Proof.
  induction a as [|x a IH]; intros Ha; simpl; [by destruct (split_chr c s) as [[]|]|].
  rewrite not_elem_of_cons in Ha. destruct Ha as [Hx Ha]. case_if; breflect; [congruence|].
  rewrite (IH Ha). by destruct (split_chr c s) as [[]|].
Qed.

Lemma forall_notin (P : Z → bool) (c : Z) (a : bytes) : Forall (λ x, P x = true) a → P c = false → c ∉ a.
Proof. intros Ha Hc Hin. rewrite Forall_forall in Ha. rewrite (Ha c Hin) in Hc. done. Qed.

Lemma read_segment_spec p key value rest :
  read_segment p = (key, value, rest) →
  ∃ seg, p = seg ++ rest ∧ ("&"%ch ∉ seg) ∧ split_pair seg = (key, value) ∧
         (rest = [] ∨ ∃ r, rest = "&"%ch :: r).
Proof.
  unfold read_segment. destruct (span not_amp_eq p) as [k p1] eqn:Ek.
  pose proof (span_app _ _ _ _ Ek) as ->. pose proof (span_forall _ _ _ _ Ek) as Hk.
  assert ("&"%ch ∉ k) as Hk1 by (by apply (forall_notin not_amp_eq)).
  assert ("="%ch ∉ k) as Hk2 by (by apply (forall_notin not_amp_eq)).
  assert (split_pair k = (k, [])) as Hsp.
  { unfold split_pair. by rewrite (proj2 (split_chr_None _ _) Hk2). }
  destruct (span_stop _ _ _ _ Ek) as [->|(c & r & -> & Hc)].
  { intros [= <- <- <-]. exists k. auto. }
  assert (c = "&"%ch ∨ c = "="%ch) as [->| ->].
  { unfold not_amp_eq in Hc. apply andb_false_iff in Hc as [Hc|Hc]; breflect; auto. }
  { intros [= <- <- <-]. exists k. rewrite Hsp. eauto 8. }
  destruct (span not_amp r) as [v r'] eqn:Ev. intros [= <- <- <-].
  pose proof (span_app _ _ _ _ Ev) as ->.
  assert ("&"%ch ∉ v) as Hv by (apply (forall_notin not_amp); [by eapply span_forall|done]).
  exists (k ++ "="%ch :: v). split; [by rewrite <- app_assoc|]. split.
  { rewrite not_elem_of_app, not_elem_of_cons. done. }
  split.
  { unfold split_pair. rewrite (proj2 (split_chr_Some _ _ k v)); done. }
  destruct (span_stop _ _ _ _ Ev) as [->|(c & s & -> & Hc')]; [by left|].
  unfold not_amp in Hc'. apply negb_false_iff in Hc'. breflect. subst. eauto.
Qed.

Lemma query_pairs_app seg r :
  "&"%ch ∉ seg →
  query_pairs (seg ++ "&"%ch :: r) = option_list (segment_pair seg) ++ query_pairs r.
Proof.
  intros H. unfold query_pairs. rewrite split_on_app by done. simpl.
  rewrite app_nil_r. by destruct (segment_pair seg).
Qed.

Lemma query_pairs_last seg : "&"%ch ∉ seg → query_pairs seg = option_list (segment_pair seg).
Proof.
  intros H. rewrite <- (app_nil_r seg) at 1. unfold query_pairs. rewrite split_on_app by done.
  simpl. rewrite app_nil_r. by destruct (segment_pair seg).
Qed.

Lemma parse_query_loop_spec fuel p out :
  (length p ≤ fuel)%nat → zlen out <= HTTP_MAX_QUERY →
  parse_query_loop fuel p out = ztake HTTP_MAX_QUERY (out ++ query_pairs p).
Proof.
  revert p out. induction fuel as [|fuel IH]; intros p out Hl Ho.
  { destruct p; [|simpl in Hl; lia]. simpl. rewrite app_nil_r. by rewrite ztake_all. }
  destruct p as [|c p0] eqn:Ep.
  { simpl. rewrite app_nil_r. by rewrite ztake_all. }
  rewrite <- Ep in *.
  assert (parse_query_loop (S fuel) p out =
    if HTTP_MAX_QUERY <=? zlen out then out
    else let '(key, value, p) := read_segment p in
         parse_query_loop fuel (match p with "&"%ch :: p => p | _ => p end)
           (match query_pair key value with Some pr => out ++ [pr] | None => out end)) as ->
    by (by subst p).
  case_if; breflect.
  { unfold ztake. assert (Z.to_nat HTTP_MAX_QUERY = length out) as ->
    by (unfold zlen in *; limit_lia).
    by rewrite take_app_length. }
  destruct (read_segment p) as [[key value] rest] eqn:Er.
  apply read_segment_spec in Er as (seg & Hp & Hseg & Hsp & Hrest).
  assert (segment_pair seg = query_pair key value) as Hpair
    by (unfold segment_pair; by rewrite Hsp).
  replace (match query_pair key value with Some pr => out ++ [pr] | None => out end)
    with (out ++ option_list (query_pair key value))
    by (destruct (query_pair key value); simpl; by rewrite ?app_nil_r).
  assert (zlen (out ++ option_list (query_pair key value)) <= HTTP_MAX_QUERY) as Ho'.
  { rewrite zlen_app. destruct (query_pair key value); simpl; zlen_lia. }
  assert (length p = S (length p0)) as Hlp by (by subst p).
  pose proof (f_equal length Hp) as Hlen. rewrite length_app in Hlen.
  rewrite IH; [|destruct Hrest as [->|[r ->]]; simpl in *; lia|done].
  f_equal. rewrite <- app_assoc. f_equal. rewrite Hp.
  destruct Hrest as [->|[r ->]].
  - rewrite (app_nil_r seg), (query_pairs_last seg), Hpair by done. apply app_nil_r.
  - rewrite query_pairs_app, Hpair by done. done.
Qed.

(** The parser keeps the first sixteen well-formed pairs of the query. *)
Lemma parse_query_spec query :
  parse_query query = ztake HTTP_MAX_QUERY (query_pairs query).
Proof. apply parse_query_loop_spec; [lia|by vm_compute]. Qed.

(** What a stored pair looks like: it fits the fixed buffers and is clean. *)
Definition query_param_ok (q : HttpQueryParam) : Prop :=
  zlen (q_key q) < HTTP_QUERY_KEY_MAX ∧ zlen (q_value q) < HTTP_QUERY_VALUE_MAX ∧
  Forall clean_char (q_key q) ∧ Forall clean_char (q_value q).

Lemma query_pair_ok k v q : query_pair k v = Some q → query_param_ok q.
Proof.
  unfold query_pair. destruct k as [|c k]; [done|].
  destruct (query_decode (c :: k) _) as [k'|] eqn:Ek; [|done].
  destruct (query_decode v _) as [v'|] eqn:Ev; [|done]. intros [= <-].
  apply query_decode_spec in Ek as [Hk Hk']. apply query_decode_spec in Ev as [Hv Hv'].
  split_and!; simpl; try done.
  - destruct Hk' as [->|?]; [by vm_compute|done].
  - destruct Hv' as [->|?]; [by vm_compute|done].
Qed.

Lemma query_pairs_ok query : Forall query_param_ok (query_pairs query).
Proof.
  unfold query_pairs. apply Forall_forall. intros q Hq.
  apply list_elem_of_omap in Hq as (seg & _ & Hs). unfold segment_pair in Hs.
  destruct (split_pair seg). by eapply query_pair_ok.
Qed.

Lemma parse_query_ok query :
  zlen (parse_query query) <= HTTP_MAX_QUERY ∧ Forall query_param_ok (parse_query query).
Proof.
  rewrite parse_query_spec. split.
  - rewrite zlen_ztake by limit_lia. lia.
  - apply Forall_take, query_pairs_ok.
Qed.

(** ** Reading back an encoded query *)

Definition print_pair (q : HttpQueryParam) : bytes :=
  form_encode (q_key q) ++ "="%ch :: form_encode (q_value q).

Fixpoint print_query (qs : list HttpQueryParam) : bytes :=
  match qs with
  | [] => []
  | [q] => print_pair q
  | q :: qs => print_pair q ++ "&"%ch :: print_query qs
  end.

(** A pair a client can send: it fits, it is clean text, and its name is not empty. *)
Definition sendable (q : HttpQueryParam) : Prop :=
  query_param_ok q ∧ q_key q ≠ [] ∧ Forall is_byte (q_key q) ∧ Forall is_byte (q_value q).

Lemma form_encode_char_plain c x :
  is_byte c → x ∈ form_encode_char c → x ≠ "&"%ch ∧ x ≠ "="%ch.
Proof.
  intros Hc. unfold form_encode_char, is_byte in *. destruct (is_alnum c) eqn:Ha; [|case_if].
  - rewrite list_elem_of_singleton. intros ->. apply is_alnum_range in Ha. lia.
  - rewrite list_elem_of_singleton. intros ->. lia.
  - assert (0 <= c / 16 < 16) by (split; [apply Z.div_pos|apply Z.div_lt_upper_bound]; lia).
    pose proof (Z.mod_pos_bound c 16 ltac:(lia)). unfold hex_digit.
    rewrite !elem_of_cons, elem_of_nil. intros [->|[->|[->|[]]]]; [lia| |]; case_if; breflect; lia.
Qed.

Lemma form_encode_plain s : Forall is_byte s → ("&"%ch ∉ form_encode s) ∧ ("="%ch ∉ form_encode s).
Proof.
  induction 1 as [|c s Hc Hs [IH1 IH2]]; [by split; apply not_elem_of_nil|].
  change (form_encode (c :: s)) with (form_encode_char c ++ form_encode s).
  rewrite !not_elem_of_app.
  split; (split; [|done]); intros Hin; by apply form_encode_char_plain in Hin as [].
Qed.

Lemma form_encode_not_nil s : s ≠ [] → form_encode s ≠ [].
Proof.
  destruct s as [|c s]; [done|]. intros _.
  change (form_encode (c :: s)) with (form_encode_char c ++ form_encode s).
  unfold form_encode_char. by repeat case_if.
Qed.

Lemma print_pair_read q : sendable q → segment_pair (print_pair q) = Some q.
Proof.
  intros ((Hk & Hv & Hck & Hcv) & Hne & Hbk & Hbv). unfold segment_pair, split_pair, print_pair.
  destruct (form_encode_plain (q_key q) Hbk) as [_ Heq].
  rewrite (proj2 (split_chr_Some _ _ (form_encode (q_key q)) (form_encode (q_value q)))) by done.
  apply form_encode_not_nil in Hne. unfold query_pair.
  destruct (form_encode (q_key q)) as [|c k] eqn:E; [done|]. rewrite <- E.
  rewrite !query_decode_encode by done. by destruct q.
Qed.

Lemma print_pair_no_amp q : sendable q → "&"%ch ∉ print_pair q.
Proof.
  intros (_ & _ & Hk & Hv). unfold print_pair. rewrite not_elem_of_app, not_elem_of_cons.
  by destruct (form_encode_plain _ Hk), (form_encode_plain _ Hv).
Qed.

Lemma query_pairs_print qs : Forall sendable qs → query_pairs (print_query qs) = qs.
Proof.
  induction 1 as [|q qs Hq Hqs IH]; [done|].
  pose proof (print_pair_no_amp q Hq). destruct qs as [|q' qs].
  - cbn [print_query]. rewrite query_pairs_last, print_pair_read by done. done.
  - change (print_query (q :: q' :: qs)) with (print_pair q ++ "&"%ch :: print_query (q' :: qs)).
    by rewrite query_pairs_app, print_pair_read, IH.
Qed.

(** Form-encoding up to 16 pairs that fit their arrays and parsing the query
    gives the pairs back, in order. *)
Lemma parse_query_print qs :
  Forall sendable qs → zlen qs <= HTTP_MAX_QUERY → parse_query (print_query qs) = qs.
Proof. intros H Hl. by rewrite parse_query_spec, query_pairs_print, ztake_all. Qed.

