(* ===== verification/Request.v ===== *)
(** * The request line and the header block

    [parse_request_line] and [parse_headers] of [src/c_http.c].  The code cuts
    the receive buffer in place; every cut ends the text of the line being read
    and the scan goes on behind it, so the model reads the remaining text. *)

From S2P Require Import Prelude CLib World Types Validate Headers Query.
#[local] Open Scope Z_scope.

Definition is_sp (c : Z) : bool := c =? SP.

Definition CRLF : bytes := [CR; LF].
Definition CRLFCRLF : bytes := [CR; LF; CR; LF].

(** ** The code *)

(** The status to answer with (0: the line is well formed) and the request as
    far as it was filled in. *)
Definition parse_request_line (line : bytes) (req : HttpRequest) : Z * HttpRequest :=
  match split_chr SP line with
  | None => (HTTP_STATUS_BAD_REQUEST, req)
  | Some (method, rest) =>
      if HTTP_METHOD_MAX <=? zlen method then (HTTP_STATUS_NOT_IMPLEMENTED, req)
      else
        let req := set_req_method method req in
        match split_chr SP (skip_while is_sp rest) with
        | None => (HTTP_STATUS_BAD_REQUEST, req)
        | Some (target, rest) =>
            let '(target, req) :=
              match split_chr "?"%ch target with
              | Some (target, query) => (target, set_req_query (parse_query query) req)
              | None => (target, req)
              end in
            if zlen target =? 0 then (HTTP_STATUS_BAD_REQUEST, req)
            else if HTTP_PATH_MAX <=? zlen target then (HTTP_STATUS_URI_TOO_LONG, req)
            else
              let req := set_req_path target req in
              let version := skip_while is_sp rest in
              if HTTP_VERSION_MAX <=? zlen version then
                (HTTP_STATUS_HTTP_VERSION_NOT_SUPPORTED, req)
              else
                let req := set_req_version version req in
                if negb (is_valid_http_version version) then (HTTP_STATUS_BAD_REQUEST, req)
                else if negb (streq version (str "HTTP/1.1")) &&
                        negb (streq version (str "HTTP/1.0")) then
                  (HTTP_STATUS_HTTP_VERSION_NOT_SUPPORTED, req)
                else (0, req)
        end
  end.

(** One round per line; a line is at least its CRLF, so the length of the text
    is enough fuel. *)
Fixpoint parse_headers_loop (fuel : nat) (cursor : bytes) (headers : HttpHeaders)
  : M (Z * HttpHeaders) :=
  match fuel, cursor with
  | O, _ | _, [] => mret (0, headers)
  | S fuel, c :: _ =>
      if c =? CR then mret (0, headers)
      else
        match strstr CRLF cursor with
        | None => mret (0, headers)
        | Some (line, line_end) =>
            let next := zdrop 2 line_end in
            match split_chr ":"%ch line with
            | None => parse_headers_loop fuel next headers
            | Some (key, value) =>
                let value := rtrim is_ows (skip_while is_ows value) in
                if negb (is_valid_header_name key) || header_value_has_injection value then
                  parse_headers_loop fuel next headers
                else if HTTP_MAX_HEADERS <=? zlen (hs_items headers) then
                  mret (HTTP_STATUS_REQUEST_HEADER_FIELDS_TOO_LARGE, headers)
                else
                  '(rc, headers) ← apply_header headers key value;
                  if negb (rc =? 0) then mret (HTTP_STATUS_INTERNAL_SERVER_ERROR, headers)
                  else parse_headers_loop fuel next headers
            end
        end
  end.

Definition parse_headers (start : bytes) (req : HttpRequest) : M (Z * HttpRequest) :=
  '(rc, headers) ← parse_headers_loop (length start) start (req_headers req);
  mret (rc, set_req_headers headers req).

(** ** The request line *)

(** What the rest of the server may rely on once the line was accepted. *)
Definition request_line_ok (req : HttpRequest) : Prop :=
  zlen (req_method req) < HTTP_METHOD_MAX ∧ 0 < zlen (req_path req) < HTTP_PATH_MAX ∧
  (SP ∉ req_method req) ∧ (SP ∉ req_path req) ∧ ("?"%ch ∉ req_path req) ∧
  (req_version req = str "HTTP/1.1" ∨ req_version req = str "HTTP/1.0") ∧
  zlen (req_query req) <= HTTP_MAX_QUERY ∧ Forall query_param_ok (req_query req).

Lemma not_elem_app_l {A} (x : A) s t : x ∉ s ++ t → x ∉ s.
Proof. rewrite not_elem_of_app. by intros []. Qed.

Lemma skip_while_elem c P s : c ∈ skip_while P s → c ∈ s.
Proof. destruct (skip_while_suffix P s) as [a Ha]. rewrite Ha at 2. rewrite elem_of_app. auto. Qed.

Lemma skip_while_notin c P s : c ∉ s → c ∉ skip_while P s.
Proof. intros H Hin. by apply H, (skip_while_elem _ P). Qed.

(** C31: an accepted request line leaves a method shorter than 8 bytes, a non-empty
    path shorter than 512 bytes without blanks or a question mark, version HTTP/1.1
    or HTTP/1.0, and at most 16 decoded query pairs that fit their arrays. *)
Theorem parse_request_line_accept line req req' :
  req_query req = [] →
  parse_request_line line req = (0, req') → request_line_ok req'.
Proof.
  intros Hq. unfold parse_request_line.
  destruct (split_chr SP line) as [[method rest]|] eqn:E1; [|done].
  apply split_chr_Some in E1 as [_ Hm].
  case_if; [done|]. breflect.
  destruct (split_chr SP (skip_while is_sp rest)) as [[target rest']|] eqn:E2; [|done].
  apply split_chr_Some in E2 as [_ Ht].
  destruct (match split_chr "?"%ch target with Some _ => _ | None => _ end)
    as [path req1] eqn:E3.
  assert ((SP ∉ path) ∧ ("?"%ch ∉ path) ∧ req_method req1 = method ∧
          zlen (req_query req1) <= HTTP_MAX_QUERY ∧ Forall query_param_ok (req_query req1))
    as (Hp1 & Hp2 & Hme & Hq1 & Hq2).
  { destruct (split_chr "?"%ch target) as [[t q]|] eqn:E4; injection E3 as <- <-; simpl.
    - apply split_chr_Some in E4 as [-> Hn]. split_and!; try done.
      + by eapply not_elem_app_l.
      + apply parse_query_ok. + apply parse_query_ok.
    - apply split_chr_None in E4. rewrite Hq. split_and!; try done. }
  repeat (case_if; [done|]). breflect. intros [= <-].
  pose proof (zlen_nonneg path).
  unfold request_line_ok. simpl. rewrite Hme. split_and!; try done; try lia.
  match goal with H : negb _ = false ∨ negb _ = false |- _ => destruct H as [Hv|Hv] end;
    apply negb_false_iff, streq_true in Hv; auto.
Qed.

Lemma parse_request_line_accept_witness :
  ∃ req', parse_request_line (str "GET /a/b?x=1&y=%41 HTTP/1.1") empty_request = (0, req') ∧
    request_line_ok req'.
Proof.
  eexists. split; [vm_compute; reflexivity|].
  refine (parse_request_line_accept (str "GET /a/b?x=1&y=%41 HTTP/1.1") empty_request _ _ _);
    vm_compute; reflexivity.
Defined.

(** The only answers to a request line: accepted, or one of four statuses. *)
Lemma parse_request_line_status line req :
  (parse_request_line line req).1 ∈
    [0; HTTP_STATUS_BAD_REQUEST; HTTP_STATUS_NOT_IMPLEMENTED; HTTP_STATUS_URI_TOO_LONG;
     HTTP_STATUS_HTTP_VERSION_NOT_SUPPORTED].
Proof.
  unfold parse_request_line.
  repeat first
    [ by (simpl; rewrite !elem_of_cons; tauto)
    | case_if
    | match goal with |- context [match ?x with _ => _ end] => destruct x end ].
Qed.

(** ** Reading back a well-formed request line *)

Definition print_request_line (method path : bytes) (query : option bytes) (version : bytes)
  : bytes :=
  method ++ [SP] ++ (path ++ match query with Some q => "?"%ch :: q | None => [] end)
  ++ [SP] ++ version.

Lemma split_chr_app c a b : c ∉ a → split_chr c (a ++ c :: b) = Some (a, b).
Proof. intros H. by apply split_chr_Some. Qed.

Lemma skip_while_first P s c r : s = c :: r → P c = false → skip_while P s = s.
Proof. intros -> H. by apply skip_while_id. Qed.

Lemma skip_sp_path path t :
  SP ∉ path → path ≠ [] → skip_while is_sp (path ++ t) = path ++ t.
Proof.
  intros Hn Hne. destruct path as [|c p]; [done|]. simpl. apply skip_while_id.
  unfold is_sp. apply Z.eqb_neq. intros ->. apply Hn. left.
Qed.



(** ** The header block *)

(** Whatever the header block and the allocator do, the parsed header list holds
    only token names and values without CR or LF, at most 64 of them, and the status
    is 0, 431 or 500. *)
Lemma parse_headers_loop_safe fuel cursor hs w :
  headers_ok hs → zlen (hs_items hs) <= HTTP_MAX_HEADERS →
  let '(rc, hs') := result (parse_headers_loop fuel cursor hs) w in
  headers_ok hs' ∧ zlen (hs_items hs') <= HTTP_MAX_HEADERS ∧
  rc ∈ [0; HTTP_STATUS_REQUEST_HEADER_FIELDS_TOO_LARGE; HTTP_STATUS_INTERNAL_SERVER_ERROR].
Proof.
  assert (∀ rc, rc = 0 ∨ rc = HTTP_STATUS_REQUEST_HEADER_FIELDS_TOO_LARGE ∨
                rc = HTTP_STATUS_INTERNAL_SERVER_ERROR →
    rc ∈ [0; HTTP_STATUS_REQUEST_HEADER_FIELDS_TOO_LARGE; HTTP_STATUS_INTERNAL_SERVER_ERROR])
    as Hin by (intros ? Hrc; rewrite !elem_of_cons; tauto).
  revert cursor hs w. induction fuel as [|fuel IH]; intros cursor hs w Hok Hl; [simpl; auto|].
  destruct cursor as [|c r]; [simpl; auto|].
  assert (∀ next, let '(rc, hs') := result (parse_headers_loop fuel next hs) w in
    headers_ok hs' ∧ zlen (hs_items hs') <= HTTP_MAX_HEADERS ∧
    rc ∈ [0; HTTP_STATUS_REQUEST_HEADER_FIELDS_TOO_LARGE; HTTP_STATUS_INTERNAL_SERVER_ERROR])
    as Hnext by (intros; by apply IH).
  cbn [parse_headers_loop]. case_if; [simpl; auto|].
  destruct (strstr CRLF (c :: r)) as [[line le]|]; [|simpl; auto].
  destruct (split_chr ":"%ch line) as [[key value]|]; [|apply Hnext].
  case_if; [apply Hnext|]. case_if; [simpl; auto 10|]. breflect.
  unfold result. rewrite bind_run.
  pose proof (apply_header_ok hs key (rtrim is_ows (skip_while is_ows value)) w Hok) as Hok'.
  pose proof (apply_header_spec hs key (rtrim is_ows (skip_while is_ows value)) w (proj2 Hok)) as Hs.
  destruct (result (apply_header _ _ _) w) as [rc hs']. simpl in Hok'.
  destruct Hs as [_ [(-> & _ & _ & Hi)|[-> Hi]]].
  - apply IH; [done|]. rewrite Hi. zlen_lia.
  - simpl. rewrite Hi. auto 10.
Qed.

Lemma only_allocates_parse_headers_loop fuel cursor hs :
  only_allocates (parse_headers_loop fuel cursor hs).
Proof.
  revert cursor hs. induction fuel as [|fuel IH]; intros cursor hs; simpl; [apply only_allocates_ret|].
  destruct cursor; only_alloc; auto.
Qed.

(** A header line as [key: value CRLF], and the block that ends with an empty
    line. *)
Definition print_header (h : HttpHeader) : bytes := h_key h ++ str ": " ++ h_value h ++ CRLF.
Definition print_headers (hs : list HttpHeader) : bytes := flat_map print_header hs ++ CRLF.

(** A value without surrounding whitespace. *)
Definition trimmed (v : bytes) : Prop := trim_ows v = v.

Lemma tchar_name_notin name c :
  is_valid_header_name name = true → ¬ tchar c → c ∉ name.
Proof.
  intros Hn Hc Hin. apply is_valid_header_name_true in Hn as [_ Hf].
  rewrite Forall_forall in Hf. auto.
Qed.

Lemma not_tchar_CR : ¬ tchar CR.
Proof. intros H%tchar_bound. lia. Qed.
Lemma not_tchar_colon : ¬ tchar ":"%ch.
Proof. intros H. apply is_tchar_true in H; [|done]. by vm_compute in H. Qed.

Lemma parse_headers_print_step fuel h t hs :
  header_ok h → trimmed (h_value h) →
  parse_headers_loop (S fuel) (print_header h ++ t) hs
  = (if HTTP_MAX_HEADERS <=? zlen (hs_items hs) then
       mret (HTTP_STATUS_REQUEST_HEADER_FIELDS_TOO_LARGE, hs)
     else
       '(rc, hs') ← apply_header hs (h_key h) (h_value h);
       if negb (rc =? 0) then mret (HTTP_STATUS_INTERNAL_SERVER_ERROR, hs')
       else parse_headers_loop fuel t hs').
Proof.
  intros [Hk Hv] Ht.
  pose proof (tchar_name_notin _ _ Hk not_tchar_CR) as Hcr.
  pose proof (tchar_name_notin _ _ Hk not_tchar_colon) as Hcol.
  pose proof (proj1 (header_value_has_injection_false _) Hv) as [Hvr _].
  set (line := h_key h ++ ":"%ch :: SP :: h_value h).
  assert (print_header h ++ t = line ++ CR :: LF :: t) as Hp.
  { unfold print_header, line. change (str ": ") with [":"%ch; SP].
    change CRLF with [CR; LF]. by rewrite <- !app_assoc. }
  rewrite Hp.
  assert (∃ c r, h_key h = c :: r ∧ c ≠ CR) as (c & r & Hc & Hne).
  { apply is_valid_header_name_true in Hk as [Hn _]. destruct (h_key h) as [|c r]; [done|].
    exists c, r. split; [done|]. intros ->. apply Hcr. left. }
  assert (CR ∉ line) as Hline.
  { unfold line. rewrite not_elem_of_app, !not_elem_of_cons. done. }
  assert (strstr CRLF (line ++ CR :: LF :: t) = Some (line, CR :: LF :: t)) as Hs.
  { apply (strstr_app_first CR [LF]); done. }
  assert (∃ l, line ++ CR :: LF :: t = c :: l) as [l Hl] by (unfold line; rewrite Hc; simpl; eauto).
  rewrite Hl in Hs |- *. cbn [parse_headers_loop].
  rewrite (proj2 (Z.eqb_neq c CR) Hne), Hs.
  assert (split_chr ":"%ch line = Some (h_key h, SP :: h_value h)) as -> by (by apply split_chr_app).
  change (zdrop 2 (CR :: LF :: t)) with t.
  assert (rtrim is_ows (skip_while is_ows (SP :: h_value h)) = h_value h) as ->.
  { transitivity (trim_ows (h_value h)); [|exact Ht].
    unfold trim_ows. f_equal. unfold skip_while. simpl.
    by destruct (span is_ows (h_value h)). }
  by rewrite Hk, Hv.
Qed.

(** C30: a printed header block parses back to exactly the printed fields in order,
    behind the fields that were there. *)
Theorem parse_headers_loop_print hs t fuel h0 w :
  w_alloc w = [] → Forall (λ h, header_ok h ∧ trimmed (h_value h)) hs →
  zlen (hs_items h0) + zlen hs <= HTTP_MAX_HEADERS → (length hs < fuel)%nat →
  let '(rc, h') := result (parse_headers_loop fuel (print_headers hs ++ t) h0) w in
  rc = 0 ∧ hs_items h' = hs_items h0 ++ hs.
Proof.
  intros Hw Hf. revert fuel h0 w Hw.
  induction Hf as [|h hs [Hok Htr] Hf IH]; intros fuel h0 w Hw Hl Hfuel.
  - destruct fuel; [lia|]. simpl. by rewrite app_nil_r.
  - destruct fuel as [|fuel]; [lia|].
    assert (print_headers (h :: hs) ++ t = print_header h ++ (print_headers hs ++ t)) as ->.
    { unfold print_headers. simpl. by rewrite <- !app_assoc. }
    rewrite parse_headers_print_step by done.
    rewrite zlen_cons in Hl. pose proof (zlen_nonneg hs).
    case_if; breflect; [lia|]. destruct Hok as [Hk Hv].
    destruct (apply_header_append h0 _ _ w Hw Hk Hv) as [Hrc Hi].
    unfold result. rewrite bind_run.
    pose proof (proj2 (only_allocates_apply_header h0 (h_key h) (h_value h) w) Hw) as Hw'.
    destruct (result (apply_header h0 (h_key h) (h_value h)) w) as [rc h1]. simpl in Hrc, Hi.
    subst rc. rewrite Hw'. cbn [negb]. simpl.
    specialize (IH fuel h1 w Hw). unfold result in IH.
    destruct (parse_headers_loop fuel (print_headers hs ++ t) h1 w).1 as [rc h'].
    destruct IH as [-> ->]; [rewrite Hi; zlen_lia|simpl in Hfuel; lia|].
    split; [done|]. rewrite Hi, <- app_assoc. by destruct h.
Qed.

Lemma parse_headers_loop_print_witness :
  let hs := [{| h_key := str "Host"; h_value := str "a.b" |};
             {| h_key := str "Accept"; h_value := str "x, y" |}] in
  hs_items (result (parse_headers_loop 3 (print_headers hs ++ str "body") no_headers)
              quiet_world).2 = hs.
Proof.
  intros hs.
  pose proof (parse_headers_loop_print hs (str "body") 3 no_headers quiet_world eq_refl
    ltac:(repeat constructor; vm_compute; reflexivity) ltac:(decided) ltac:(simpl; lia)) as H.
  revert H. destruct (result _ _). intros [_ H]. exact H.
Defined.

