(* ===== verification/Net.v ===== *)
(** * Reading requests from the socket and sending bytes

    [read_request], [read_body] and [send_all] of [src/c_http.c]. *)

From S2P Require Import Prelude CLib World Types Validate Headers Query Request.
#[local] Open Scope Z_scope.

(** ** Sending *)

(** The rounds of [send_all], one per answer of the kernel; it returns the
    status, the answers left and the bytes that went out. *)
Fixpoint send_all_loop (events : list SendEvent) (data : bytes)
  : Z * list SendEvent * bytes :=
  match data with
  | [] => (0, events, [])
  | _ =>
      match events with
      | [] => (0, [], data)
      | SIntr :: events => send_all_loop events data
      | SError :: events => (-1, events, [])
      | SAccept n :: events =>
          let '(rc, events, out) := send_all_loop events (zdrop n data) in
          (rc, events, ztake n data ++ out)
      end
  end.

Definition send_all (data : bytes) : M Z := λ w,
  let '(rc, events, out) := send_all_loop (w_send w) data in
  (rc, with_send events (w_sent w ++ out) w).

(** ** Reading the header block *)

(** [None]: -1, a receive error or timeout; otherwise the bytes read and whether
    the header block is complete.  Every round takes an event off the receive
    queue or fills the buffer, which ends the loop. *)
Fixpoint read_request_loop (fuel : nat) (size : Z) (buf : bytes) : M (option (bytes * bool)) :=
  match fuel with
  | O => mret (Some (buf, false))
  | S fuel =>
      if zlen buf <? size - 1 then
        r ← recv (size - 1 - zlen buf);
        match r with
        | GotIntr => read_request_loop fuel size buf
        | GotTimeout | GotError => mret None
        | GotEof => mret (Some (buf, false))
        | Got bs =>
            let chunk_start := zlen buf in
            let buf := buf ++ bs in
            let scan_from := if 3 <? chunk_start then chunk_start - 3 else 0 in
            match strstr CRLFCRLF (cstr (zdrop scan_from buf)) with
            | Some _ => mret (Some (buf, true))
            | None => read_request_loop fuel size buf
            end
        end
      else mret (Some (buf, false))
  end.

Definition read_request (size : Z) : M (option (bytes * bool)) :=
  q ← recv_queue; read_request_loop (length q + 2) size [].

(** ** Reading the body *)

(** The scan of [Content-Length] and [Transfer-Encoding]: a status to return, or
    whether a transfer coding was seen and the length (-1: none). *)
Fixpoint body_framing (items : list HttpHeader) (has_te : bool) (content_length : Z)
  : Z + (bool * Z) :=
  match items with
  | [] => inr (has_te, content_length)
  | h :: items =>
      if strcaseeq (h_key h) (str "Transfer-Encoding") then
        body_framing items true content_length
      else if strcaseeq (h_key h) (str "Content-Length") then
        let parsed := strtoll (h_value h) in
        if negb (ll_conv parsed) || negb (zlen (ll_end parsed) =? 0) || ll_erange parsed
           || (ll_val parsed <? 0) then inl HTTP_STATUS_BAD_REQUEST
        else if (0 <=? content_length) && negb (content_length =? ll_val parsed) then
          inl HTTP_STATUS_BAD_REQUEST
        else body_framing items has_te (ll_val parsed)
      else body_framing items has_te content_length
  end.

(** Receives until [content_length] bytes are there. *)
Fixpoint read_body_loop (fuel : nat) (content_length : Z) (body : bytes) : M (Z + bytes) :=
  match fuel with
  | O => mret (inl HTTP_STATUS_BAD_REQUEST)
  | S fuel =>
      if zlen body <? content_length then
        r ← recv (content_length - zlen body);
        match r with
        | GotIntr => read_body_loop fuel content_length body
        | GotTimeout | GotError => mret (inl HTTP_STATUS_REQUEST_TIMEOUT)
        | GotEof => mret (inl HTTP_STATUS_BAD_REQUEST)
        | Got bs => read_body_loop fuel content_length (body ++ bs)
        end
      else mret (inr body)
  end.

(** [leftover] are the bytes already received behind the header block. *)
Definition read_body (leftover : bytes) (req : HttpRequest) : M (Z * HttpRequest) :=
  match body_framing (hs_items (req_headers req)) false (-1) with
  | inl status => mret (status, req)
  | inr (true, _) => mret (HTTP_STATUS_NOT_IMPLEMENTED, req)
  | inr (false, content_length) =>
      if content_length <? 0 then mret (0, req)
      else if HTTP_MAX_BODY <? content_length then mret (HTTP_STATUS_CONTENT_TOO_LARGE, req)
      else
        ok ← malloc;
        if negb ok then mret (HTTP_STATUS_INTERNAL_SERVER_ERROR, req)
        else if content_length <? zlen leftover then mret (HTTP_STATUS_BAD_REQUEST, req)
        else
          q ← recv_queue;
          r ← read_body_loop (length q + 2) content_length leftover;
          match r with
          | inl status => mret (status, req)
          | inr body => mret (0, set_req_body (Some body) req)
          end
  end.

(** ** [send_all] *)

(** 0 means every byte went out; otherwise a prefix did and the socket failed. *)
Lemma send_all_loop_spec events data :
  let '(rc, _, out) := send_all_loop events data in
  (rc = 0 ∧ out = data) ∨ (rc = -1 ∧ ∃ rest, data = out ++ rest).
Proof.
  revert data. induction events as [|e events IH]; intros data; destruct data as [|c data]; simpl; auto.
  destruct e as [n| |]; [|apply IH|eauto].
  specialize (IH (zdrop n (c :: data))).
  destruct (send_all_loop events (zdrop n (c :: data))) as [[rc ev] out].
  pose proof (ztake_zdrop n (c :: data)) as Hcut.
  destruct IH as [[-> ->]|[-> [rest Hr]]].
  - left. by rewrite Hcut.
  - right. split; [done|]. exists rest. by rewrite <- app_assoc, <- Hr, Hcut.
Qed.

Lemma send_all_spec data w :
  let '(rc, w') := send_all data w in
  w_recv w' = w_recv w ∧ w_alloc w' = w_alloc w ∧
  ((rc = 0 ∧ w_sent w' = w_sent w ++ data) ∨
   (rc = -1 ∧ ∃ out rest, data = out ++ rest ∧ w_sent w' = w_sent w ++ out)).
Proof.
  unfold send_all. pose proof (send_all_loop_spec (w_send w) data) as H.
  destruct (send_all_loop (w_send w) data) as [[rc ev] out]. simpl.
  destruct H as [[-> ->]|[-> [rest ->]]]; eauto 10.
Qed.

Lemma send_all_quiet data w :
  w_send w = [] → send_all data w = (0, with_send [] (w_sent w ++ data) w).
Proof. intros Hw. unfold send_all. rewrite Hw. destruct data; [|done]. simpl. done. Qed.

(** ** [read_request]: the answer does not depend on how the bytes arrive *)

(** The bytes a receive queue delivers before it ends, and whether it ends with
    the peer closing (true) or with an error or timeout (false). *)
Fixpoint stream (q : list RecvEvent) : bytes :=
  match q with
  | RData (c :: bs) :: q => (c :: bs) ++ stream q
  | RIntr :: q => stream q
  | _ => []
  end.

Fixpoint stream_eof (q : list RecvEvent) : bool :=
  match q with
  | [] | REof :: _ | RData [] :: _ => true
  | RData _ :: q | RIntr :: q => stream_eof q
  | RTimeout :: _ | RError :: _ => false
  end.

Lemma recv_step_spec n q :
  0 < n →
  let '(r, q') := recv_step n q in
  match r with
  | Got bs => bs ≠ [] ∧ zlen bs <= n ∧ stream q = bs ++ stream q' ∧
              stream_eof q' = stream_eof q ∧ (length q' < length q ∨ zlen bs = n ∧ length q' = length q)%nat
  | GotEof => stream q = [] ∧ stream_eof q = true
  | GotIntr => stream q' = stream q ∧ stream_eof q' = stream_eof q ∧ (length q' < length q)%nat
  | GotTimeout | GotError => stream q = [] ∧ stream_eof q = false
  end.
Proof.
  intros Hn. destruct q as [|[[|c bs]| | | |] q]; simpl; auto.
  destruct (zlen (c :: bs) <=? n) eqn:E; breflect; [by split_and!; auto|].
  assert (zlen (ztake n (c :: bs)) = n) as Hl by (rewrite zlen_ztake; lia).
  assert (zlen (zdrop n (c :: bs)) > 0) as Hd by (rewrite zlen_zdrop; lia).
  split_and!.
  - intros H. rewrite H, zlen_nil in Hl. lia.
  - lia.
  - pose proof (ztake_zdrop n (c :: bs)) as Hc. rewrite app_comm_cons, <- Hc, <- app_assoc at 1.
    f_equal. destruct (zdrop n (c :: bs)); [rewrite zlen_nil in Hd; lia|done].
  - destruct (zdrop n (c :: bs)); [rewrite zlen_nil in Hd; lia|done].
  - right. done.
Qed.

(** What [read_request] must answer for a byte stream [d] that ends in [eof]. *)
Definition request_read (size : Z) (d : bytes) (eof : bool) (r : option (bytes * bool)) : Prop :=
  if decide (strstr CRLFCRLF (ztake (size - 1) d) = None) then
    if size - 1 <=? zlen d then r = Some (ztake (size - 1) d, false)
    else r = if eof then Some (d, false) else None
  else ∃ buf, r = Some (buf, true) ∧ occurs CRLFCRLF buf ∧ zlen buf < size ∧ ∃ t, d = buf ++ t.

Lemma read_request_loop_done fuel size buf d eof w :
  ¬ occurs CRLFCRLF buf → zlen buf = size - 1 → (∃ t, d = buf ++ t) → (1 ≤ fuel)%nat →
  request_read size d eof (result (read_request_loop fuel size buf) w).
Proof.
  intros Hno Hl [t ->] Hf. destruct fuel; [lia|]. simpl. case_if; breflect; [lia|].
  unfold request_read. rewrite <- Hl, ztake_app_length.
  rewrite decide_True by (by apply strstr_not_occurs).
  rewrite zlen_app, (proj2 (Z.leb_le _ _)) by zlen_lia. done.
Qed.

Lemma ztake_prefix {A} n (s t : list A) : zlen s <= n → ∃ u, ztake n (s ++ t) = s ++ u.
Proof.
  intros H. unfold ztake, zlen in *. rewrite take_app, (take_ge s) by lia. eauto.
Qed.

Lemma read_request_loop_spec fuel size buf w :
  1 < size → ¬ occurs CRLFCRLF buf → zlen buf <= size - 1 →
  nul_free (buf ++ stream (w_recv w)) → (length (w_recv w) + 2 ≤ fuel)%nat →
  request_read size (buf ++ stream (w_recv w)) (stream_eof (w_recv w))
    (result (read_request_loop fuel size buf) w).
Proof.
  intros Hs. revert buf w. induction fuel as [|fuel IH]; intros buf w Hno Hl Hnul Hf; [lia|].
  destruct (decide (zlen buf = size - 1)) as [He|He].
  { apply read_request_loop_done; [done..|eauto|lia]. }
  cbn [read_request_loop]. rewrite (proj2 (Z.ltb_lt _ _)) by lia.
  unfold result. rewrite bind_run. unfold result, world, recv.
  pose proof (recv_step_spec (size - 1 - zlen buf) (w_recv w) ltac:(lia)) as Hr.
  destruct (recv_step _ (w_recv w)) as [r q'] eqn:Er. cbn [fst snd].
  assert (∀ e, stream (w_recv w) = [] → stream_eof (w_recv w) = e →
    request_read size (buf ++ stream (w_recv w)) e (if e then Some (buf, false) else None)) as Hend.
  { intros e Hst _. rewrite Hst, app_nil_r. unfold request_read. rewrite ztake_all by lia.
    rewrite decide_True by (by apply strstr_not_occurs).
    by rewrite (proj2 (Z.leb_gt _ _)) by lia. }
  destruct r as [bs| | | |].
  - destruct Hr as (Hbs & Hbl & Hst & Heof & Hq).
    assert (nul_free (buf ++ bs)) as Hnb.
    { rewrite Hst, app_assoc in Hnul. apply Forall_app in Hnul. apply Hnul. }
    rewrite cstr_id.
    2: { unfold nul_free in *. rewrite <- (ztake_zdrop (if 3 <? zlen buf then zlen buf - 3 else 0) (buf ++ bs)) in Hnb.
         apply Forall_app in Hnb. apply Hnb. }
    rewrite Hst, app_assoc.
    destruct (strstr CRLFCRLF (zdrop _ (buf ++ bs))) eqn:E.
    + assert (occurs CRLFCRLF (buf ++ bs)) as Ho.
      { eapply occurs_zdrop, strstr_occurs. by rewrite E. }
      unfold request_read. rewrite decide_False.
      * exists (buf ++ bs). split_and!; [done|done|zlen_lia|eauto].
      * apply strstr_occurs.
        destruct (ztake_prefix (size - 1) (buf ++ bs) (stream q')) as [u ->]; [zlen_lia|].
        by apply occurs_app_l.
    + assert (¬ occurs CRLFCRLF (buf ++ bs)) as Hno'.
      { intros Ho.
        destruct (occurs_overlap CRLFCRLF buf bs (if 3 <? zlen buf then zlen buf - 3 else 0) Ho)
          as [?|Hz]; try done.
        - change (zlen CRLFCRLF) with 4. case_if; breflect; [lia|].
          exfalso. clear -E Ho Heqb. change (zdrop 0 (buf ++ bs)) with (buf ++ bs) in E.
          by apply strstr_not_occurs in E.
        - case_if; breflect; lia.
        - apply strstr_occurs in Hz. by rewrite E in Hz. }
      destruct Hq as [Hq|[Hq1 Hq2]].
      * apply (IH (buf ++ bs) (with_recv q' w)) in Hno'; simpl in *; try lia.
        -- by rewrite Heof in Hno'.
        -- zlen_lia.
        -- by rewrite Hst, app_assoc in Hnul.
      * apply read_request_loop_done; [done|zlen_lia|eauto|lia].
  - destruct Hr as [Hst He']. rewrite He'. by apply (Hend true).
  - destruct Hr as (Hst & Heof & Hq). rewrite <- Hst, <- Heof.
    apply (IH buf (with_recv q' w)); simpl; try done; [by rewrite Hst|lia].
  - destruct Hr as [Hst He']. rewrite He'. by apply (Hend false).
  - destruct Hr as [Hst He']. rewrite He'. by apply (Hend false).
Qed.



(** ** [read_body]: exactly [Content-Length] bytes, or an error status *)

Definition body_read (n : Z) (d : bytes) (eof : bool) (r : Z + bytes) : Prop :=
  if n <=? zlen d then r = inr (ztake n d)
  else r = inl (if eof then HTTP_STATUS_BAD_REQUEST else HTTP_STATUS_REQUEST_TIMEOUT).

Lemma read_body_loop_spec fuel n body w :
  zlen body <= n → (length (w_recv w) + 2 ≤ fuel ∨ zlen body = n ∧ 1 ≤ fuel)%nat →
  body_read n (body ++ stream (w_recv w)) (stream_eof (w_recv w))
    (result (read_body_loop fuel n body) w).
Proof.
  revert body w. induction fuel as [|fuel IH]; intros body w Hl Hf; [lia|].
  cbn [read_body_loop]. case_if; breflect.
  2: { assert (zlen body = n) as <- by lia. unfold body_read, result.
       rewrite zlen_app, (proj2 (Z.leb_le _ _)) by zlen_lia. by rewrite ztake_app_length. }
  destruct Hf as [Hf|[? _]]; [|lia].
  unfold result. rewrite bind_run. unfold result, world, recv.
  pose proof (recv_step_spec (n - zlen body) (w_recv w) ltac:(lia)) as Hr.
  destruct (recv_step _ (w_recv w)) as [r q'] eqn:Er. cbn [fst snd].
  assert (∀ e, stream (w_recv w) = [] →
    body_read n (body ++ stream (w_recv w)) e
      (inl (if e then HTTP_STATUS_BAD_REQUEST else HTTP_STATUS_REQUEST_TIMEOUT))) as Hend.
  { intros e Hst. rewrite Hst, app_nil_r. unfold body_read.
    by rewrite (proj2 (Z.leb_gt _ _)) by lia. }
  destruct r as [bs| | | |].
  - destruct Hr as (Hbs & Hbl & Hst & Heof & Hq). rewrite Hst, app_assoc, <- Heof.
    apply (IH (body ++ bs) (with_recv q' w)); simpl; [zlen_lia|].
    destruct Hq as [?|[? ?]]; [left; lia|right; split; [zlen_lia|lia]].
  - destruct Hr as [Hst ->]. by apply (Hend true).
  - destruct Hr as (Hst & Heof & Hq). rewrite <- Hst, <- Heof.
    apply (IH body (with_recv q' w)); simpl; [done|left; lia].
  - destruct Hr as [Hst ->]. by apply (Hend false).
  - destruct Hr as [Hst ->]. by apply (Hend false).
Qed.

(** With a [Content-Length] framing of [n] bytes, at most 50 MB, reading the
    body gives exactly the first [n] bytes that follow the head, whatever the
    chunks; 400 when the first read already holds more than [n] bytes or the peer
    closes early, 408 when the receive timeout expires. *)
Lemma read_body_length leftover req n w :
  body_framing (hs_items (req_headers req)) false (-1) = inr (false, n) →
  0 <= n <= HTTP_MAX_BODY → w_alloc w = [] →
  let d := leftover ++ stream (w_recv w) in
  result (read_body leftover req) w =
  if n <? zlen leftover then (HTTP_STATUS_BAD_REQUEST, req)
  else if n <=? zlen d then (0, set_req_body (Some (ztake n d)) req)
  else (if stream_eof (w_recv w) then HTTP_STATUS_BAD_REQUEST else HTTP_STATUS_REQUEST_TIMEOUT,
        req).
Proof.
  intros Hfr Hn Hw d. unfold read_body. rewrite Hfr.
  rewrite (proj2 (Z.ltb_ge n 0)), (proj2 (Z.ltb_ge HTTP_MAX_BODY n)) by lia.
  mrun_ok Hw. case_if; [done|]. breflect. mrun. cbn [recv_queue fst snd].
  pose proof (read_body_loop_spec (length (w_recv w) + 2) n leftover w ltac:(lia) ltac:(lia)) as H.
  unfold body_read, result in H. fold d in H.
  case_if; rewrite H; done.
Qed.

(** Every status [read_body] reports. *)
Lemma body_framing_status items te cl s :
  body_framing items te cl = inl s → s = HTTP_STATUS_BAD_REQUEST.
Proof.
  revert te cl. induction items as [|h items IH]; intros te cl; simpl; [done|].
  repeat (case_if; eauto; try congruence).
Qed.

(** A sign or a blank in front of the length passes, although RFC 9112 has digits only. *)
Example content_length_sign :
  body_framing [{| h_key := str "Content-Length"; h_value := str "+5" |}] false (-1) = inr (false, 5) ∧
  body_framing [{| h_key := str "Content-Length"; h_value := str "-0" |}] false (-1) = inr (false, 0).
Proof. split; reflexivity. Qed.
