(* ===== verification/Segments.v ===== *)
(** * Route patterns

    [http_parse_route_segments], [segments_match_at], [prefix_segments_match],
    [path_matches] and [http_req_param] of [src/c_http.c]: how a registered
    pattern and a request path are cut into segments and compared. *)

From S2P Require Import Prelude CLib World Types Validate.
#[local] Open Scope Z_scope.

(** ** The code *)

Definition not_slash (c : Z) : bool := negb (c =? "/"%ch).

(** One [/...] piece: [None] for a piece no pattern may have (a bare [:] or an
    oversized text), [Some None] for an empty piece, which is skipped. *)
Definition parse_piece (p : bytes) : option (option HttpRouteSegment) :=
  let '(is_param, p) := match p with ":"%ch :: p => (true, p) | _ => (false, p) end in
  let '(text, _) := span not_slash p in
  if (zlen text =? 0) && negb is_param then Some None
  else if zlen text =? 0 then None
  else if HTTP_SEGMENT_TEXT_MAX <=? zlen text then None
  else Some (Some {| seg_text := text; seg_is_param := is_param |}).

(** One round per ['/'] found; [None]: allocation failed or the pattern is
    rejected. *)
Fixpoint parse_segments_loop (fuel : nat) (p : bytes) (out : HttpRouteSegments)
  : M (option HttpRouteSegments) :=
  match fuel, split_chr "/"%ch p with
  | O, _ | _, None => mret (Some out)
  | S fuel, Some (_, p) =>
      match parse_piece p with
      | None => mret None
      | Some None => parse_segments_loop fuel p out
      | Some (Some segment) =>
          let out := {| segs := segs out ++ [segment]; segs_capacity := segs_capacity out |} in
          if zlen (segs out) =? segs_capacity out then
            ok ← malloc;
            if (ok : bool)
            then parse_segments_loop fuel p
                   {| segs := segs out; segs_capacity := segs_capacity out * 2 |}
            else mret None
          else parse_segments_loop fuel p out
      end
  end.

Definition http_parse_route_segments (pattern : bytes) : M (option HttpRouteSegments) :=
  ok ← malloc;
  if negb ok then mret None
  else parse_segments_loop (length pattern) pattern {| segs := []; segs_capacity := 8 |}.

(** Writes the key, then - unless it was cut - the value of slot [i]. *)
Definition set_param_key (i : nat) (key : bytes) (ps : list HttpParam) : list HttpParam :=
  alter (λ p, {| p_key := snprintf_s HTTP_PARAM_KEY_MAX key; p_value := p_value p |}) i ps.
Definition set_param_value (i : nat) (value : bytes) (ps : list HttpParam) : list HttpParam :=
  alter (λ p, {| p_key := p_key p; p_value := snprintf_s HTTP_PARAM_VALUE_MAX value |}) i ps.

(** The loop of [segments_match_at] over the remaining pattern and request
    segments.  With parameters wanted it also returns their slots, which a
    failed match leaves written; [None] is the committed count of a failure. *)
Fixpoint match_loop (pattern request : list HttpRouteSegment) (params : option (list HttpParam))
    (param_count : Z) : option Z * option (list HttpParam) :=
  match pattern, request with
  | pat :: pattern, cur :: request =>
      if seg_is_param pat then
        match params with
        | None => match_loop pattern request params param_count
        | Some slots =>
            if HTTP_MAX_PARAMS <=? param_count then (None, params)
            else
              let i := Z.to_nat param_count in
              let slots := set_param_key i (seg_text pat) slots in
              if HTTP_PARAM_KEY_MAX <=? zlen (seg_text pat) then (None, Some slots)
              else
                let slots := set_param_value i (seg_text cur) slots in
                if HTTP_PARAM_VALUE_MAX <=? zlen (seg_text cur) then (None, Some slots)
                else match_loop pattern request (Some slots) (param_count + 1)
        end
      else if negb (streq (seg_text pat) (seg_text cur)) then (None, params)
      else match_loop pattern request params param_count
  | _, _ => (Some param_count, params)
  end.

(** [params = None]: a pure match test. *)
Definition segments_match_at (pattern request : HttpRouteSegments) (offset : Z)
    (params : option HttpParams) : bool * option HttpParams :=
  if zlen (segs request) <? offset then (false, params)
  else if negb (zlen (segs pattern) =? zlen (segs request) - offset) then (false, params)
  else
    match match_loop (segs pattern) (zdrop offset (segs request)) (ps_params <$> params) 0,
          params with
    | (Some count, Some slots), Some _ =>
        (true, Some {| ps_params := slots; ps_count := count |})
    | (None, Some slots), Some ps =>
        (false, Some {| ps_params := slots; ps_count := ps_count ps |})
    | (r, _), _ => (bool_decide (r ≠ None), params)
    end.

Definition http_segments_match (pattern request : HttpRouteSegments) (params : option HttpParams)
  : bool * option HttpParams := segments_match_at pattern request 0 params.

Definition prefix_segments_match (prefix req_segments : HttpRouteSegments) : bool :=
  if zlen (segs req_segments) <? zlen (segs prefix) then false
  else forallb (λ '(p, r), streq (seg_text p) (seg_text r))
         (zip (segs prefix) (segs req_segments)).

(** Middleware paths are compared as text. *)
Definition path_matches (reg_path real_path : bytes) : bool :=
  let reg_len := zlen reg_path in
  let reg_len :=
    if (1 <? reg_len) && (idx reg_path (reg_len - 1) =? "/"%ch) then reg_len - 1 else reg_len in
  if reg_len =? 0 then true
  else if zlen real_path =? 0 then false
  else if negb (starts_with (ztake reg_len reg_path) real_path) then false
  else if zlen real_path =? reg_len then true
  else if idx reg_path (reg_len - 1) =? "/"%ch then true
  else idx real_path reg_len =? "/"%ch.

Fixpoint find_param (ps : list HttpParam) (key : bytes) : option bytes :=
  match ps with
  | [] => None
  | p :: ps => if streq key (p_key p) then Some (p_value p) else find_param ps key
  end.

Definition http_req_param (req : HttpRequest) (key : option bytes) : option bytes :=
  key ← key;
  find_param (ztake (ps_count (req_params req)) (ps_params (req_params req))) key.

(** ** Parsing *)

(** The segments of a path, as a pure function: the pieces behind each ['/'],
    empty ones skipped. *)
Fixpoint pieces (fuel : nat) (p : bytes) : option (list HttpRouteSegment) :=
  match fuel, split_chr "/"%ch p with
  | O, _ | _, None => Some []
  | S fuel, Some (_, p) =>
      match parse_piece p with
      | None => None
      | Some None => pieces fuel p
      | Some (Some segment) => cons segment <$> pieces fuel p
      end
  end.

Definition route_segments (path : bytes) : option (list HttpRouteSegment) :=
  pieces (length path) path.

(** A segment the parser produces: a non-empty text without ['/'] that fits its
    buffer. *)
Definition segment_ok (s : HttpRouteSegment) : Prop :=
  0 < zlen (seg_text s) < HTTP_SEGMENT_TEXT_MAX ∧ "/"%ch ∉ seg_text s.

Lemma parse_piece_ok p s : parse_piece p = Some (Some s) → segment_ok s.
Proof.
  unfold parse_piece.
  destruct (match p with ":"%ch :: p => (true, p) | _ => (false, p) end) as [ip q].
  destruct (span not_slash q) as [text r] eqn:E.
  repeat (case_if; [done|]). intros [= <-]. breflect. unfold segment_ok. simpl.
  pose proof (zlen_nonneg text). split; [lia|]. intros Hin.
  apply span_forall in E. rewrite Forall_forall in E. by apply E in Hin.
Qed.

Lemma pieces_ok fuel p l : pieces fuel p = Some l → Forall segment_ok l.
Proof.
  revert p l. induction fuel as [|fuel IH]; intros p l; simpl; [by intros [= <-]|].
  destruct (split_chr "/"%ch p) as [[a q]|]; [|by intros [= <-]].
  destruct (parse_piece q) as [[s|]|] eqn:Ep; [|by eauto|done].
  intros H. apply fmap_Some in H as (l' & Hl & ->).
  constructor; [by eapply parse_piece_ok|by eapply IH].
Qed.

Definition segments_ok (s : HttpRouteSegments) : Prop := Forall segment_ok (segs s).

(** The parser refines [route_segments]: it returns its segments, or nothing when
    the path is rejected or memory ran out. *)
Lemma parse_segments_loop_spec fuel p out w :
  match result (parse_segments_loop fuel p out) w with
  | Some r => segs r = segs out ++ default [] (pieces fuel p) ∧ is_Some (pieces fuel p)
  | None => pieces fuel p = None ∨ w_alloc w ≠ []
  end.
Proof.
  revert p out w. induction fuel as [|fuel IH]; intros p out w.
  { cbn. rewrite app_nil_r. by split. }
  cbn [parse_segments_loop pieces].
  destruct (split_chr "/"%ch p) as [[a q]|]; [|cbn; rewrite app_nil_r; by split].
  destruct (parse_piece q) as [[s|]|]; [|apply IH|by left].
  assert (∀ (cap : Z) w', (w_alloc w = [] → w_alloc w' = []) →
    match result (parse_segments_loop fuel q {| segs := segs out ++ [s]; segs_capacity := cap |}) w' with
    | Some r => segs r = segs out ++ default [] (cons s <$> pieces fuel q) ∧ is_Some (cons s <$> pieces fuel q)
    | None => (cons s <$> pieces fuel q) = None ∨ w_alloc w ≠ []
    end) as Hstep.
  { intros cap w' Hw. specialize (IH q {| segs := segs out ++ [s]; segs_capacity := cap |} w').
    destruct (result (parse_segments_loop _ _ _) w') as [r|].
    - simpl in IH. destruct (pieces fuel q) as [l|]; simpl in *; [|by destruct IH as [_ []]].
      destruct IH as [-> _]. rewrite <- app_assoc. by split.
    - destruct IH as [->|Hne]; [by left|right; auto]. }
  case_if; [|by apply Hstep].
  unfold result. rewrite bind_run. unfold result, world, malloc.
  destruct (w_alloc w) as [|[] al] eqn:Ea; cbn [fst snd].
  - apply Hstep. auto.
  - apply Hstep. done.
  - cbn. right. done.
Qed.

Lemma http_parse_route_segments_spec pattern w :
  match result (http_parse_route_segments pattern) w with
  | Some r => route_segments pattern = Some (segs r)
  | None => route_segments pattern = None ∨ w_alloc w ≠ []
  end.
Proof.
  unfold http_parse_route_segments, result. rewrite bind_run. unfold result, world, malloc.
  assert (∀ w', (w_alloc w = [] → w_alloc w' = []) →
    match (parse_segments_loop (length pattern) pattern {| segs := []; segs_capacity := 8 |} w').1 with
    | Some r => route_segments pattern = Some (segs r)
    | None => route_segments pattern = None ∨ w_alloc w ≠ []
    end) as H.
  { intros w' Hw.
    pose proof (parse_segments_loop_spec (length pattern) pattern {| segs := []; segs_capacity := 8 |} w') as H.
    unfold result in H. unfold route_segments.
    destruct (parse_segments_loop _ _ _ w').1 as [r|].
    - destruct H as [H [l Hl]]. rewrite Hl in *. simpl in H. by rewrite H.
    - destruct H as [->|Hne]; [by left|right; auto]. }
  destruct (w_alloc w) as [|[] al] eqn:Ea; cbn [fst snd negb].
  - by apply H.
  - by apply H.
  - cbn. by right.
Qed.

(** ** Matching *)

(** A pattern segment against a request segment: a parameter takes anything. *)
Definition seg_matches (p r : HttpRouteSegment) : Prop :=
  seg_is_param p = true ∨ seg_text p = seg_text r.

#[export] Instance seg_matches_dec p r : Decision (seg_matches p r).
Proof. unfold seg_matches. apply _. Defined.

(** What a request binds: the parameters of the pattern in order. *)
Fixpoint bindings (pattern request : list HttpRouteSegment) : list HttpParam :=
  match pattern, request with
  | p :: pattern, r :: request =>
      if seg_is_param p then {| p_key := seg_text p; p_value := seg_text r |} :: bindings pattern request
      else bindings pattern request
  | _, _ => []
  end.

Definition params_of (pattern : list HttpRouteSegment) : list bytes :=
  map seg_text (filter (λ s, seg_is_param s = true) pattern).

(** What registration guarantees of a pattern. *)
Definition pattern_ok (pattern : list HttpRouteSegment) : Prop :=
  Forall segment_ok pattern ∧ zlen (params_of pattern) <= HTTP_MAX_PARAMS ∧
  Forall (λ k, zlen k < HTTP_PARAM_KEY_MAX) (params_of pattern) ∧ NoDup (params_of pattern).

Lemma params_of_cons s pattern :
  params_of (s :: pattern) = if seg_is_param s then seg_text s :: params_of pattern else params_of pattern.
Proof. unfold params_of. rewrite filter_cons. by destruct (seg_is_param s). Qed.

Lemma bindings_keys pattern request :
  length pattern = length request → map p_key (bindings pattern request) = params_of pattern.
Proof.
  revert request. induction pattern as [|p pattern IH]; intros [|r request] Hl; try done.
  rewrite params_of_cons. simpl in *. destruct (seg_is_param p); simpl; rewrite IH by lia; done.
Qed.

(** The pure test succeeds exactly when every segment matches. *)
Lemma match_loop_test pattern request n :
  length pattern = length request →
  match_loop pattern request None n
  = (if bool_decide (Forall2 seg_matches pattern request) then Some n else None, None).
Proof.
  revert request. induction pattern as [|p pattern IH]; intros [|r request] Hl; try done.
  simpl in *. specialize (IH request ltac:(lia)).
  destruct (seg_is_param p) eqn:Ep; [|case_if]; rewrite ?IH.
  - erewrite bool_decide_ext; [done|]. rewrite Forall2_cons. unfold seg_matches at 2.
    rewrite Ep. tauto.
  - breflect. apply streq_false in Heqb. rewrite bool_decide_false; [done|].
    rewrite Forall2_cons. unfold seg_matches at 1. rewrite Ep. intros [[?|?] _]; done.
  - breflect. apply streq_true in Heqb. erewrite bool_decide_ext; [done|].
    rewrite Forall2_cons. unfold seg_matches at 2. tauto.
Qed.

Lemma segments_match_test pattern request offset :
  0 <= offset →
  segments_match_at pattern request offset None
  = (bool_decide (offset <= zlen (segs request) ∧
       Forall2 seg_matches (segs pattern) (zdrop offset (segs request))), None).
Proof.
  intros Ho. unfold segments_match_at. case_if; breflect.
  { rewrite bool_decide_false; [done|]. lia. }
  case_if; breflect.
  { rewrite bool_decide_false; [done|]. intros [_ H%Forall2_length].
    apply Heqb0. unfold zlen, zdrop in *. rewrite length_drop in H. lia. }
  simpl. rewrite match_loop_test.
  2: { unfold zlen, zdrop in *. rewrite length_drop. lia. }
  destruct (decide (Forall2 seg_matches (segs pattern) (zdrop offset (segs request)))) as [H|H].
  - by rewrite !bool_decide_true by done.
  - by rewrite !bool_decide_false by tauto.
Qed.

(** A failed test stays a failure when parameters are bound. *)
Lemma match_loop_bind_fail pattern request slots n :
  length pattern = length request → ¬ Forall2 seg_matches pattern request →
  (match_loop pattern request (Some slots) n).1 = None.
Proof.
  revert request slots n. induction pattern as [|p pattern IH]; intros [|r request] slots n Hl Hn; try done.
  - destruct Hn. constructor.
  - simpl in *. rewrite Forall2_cons in Hn. unfold seg_matches at 1 in Hn.
    destruct (seg_is_param p) eqn:Ep.
    + repeat (case_if; [done|]). apply IH; [lia|tauto].
    + case_if; [done|]. breflect. apply streq_true in Heqb. apply IH; [lia|tauto].
Qed.

Lemma set_param_slots i k v slots :
  (i < length slots)%nat → zlen k < HTTP_PARAM_KEY_MAX → zlen v < HTTP_PARAM_VALUE_MAX →
  set_param_value i v (set_param_key i k slots) = <[i := {| p_key := k; p_value := v |}]> slots.
Proof.
  intros Hi Hk Hv. apply list_eq. intros j. unfold set_param_value, set_param_key.
  rewrite !list_lookup_alter. destruct (decide (i = j)) as [<-|Hne].
  - rewrite decide_True by done.
    rewrite list_lookup_insert_eq by done. destruct (lookup_lt_is_Some_2 slots i Hi) as [p ->].
    simpl. unfold snprintf_s. rewrite !ztake_all by lia. done.
  - by rewrite list_lookup_insert_ne by done.
Qed.

(** With room for every parameter, a match binds them all, in order, behind the
    slots already committed. *)
Lemma match_loop_bind pattern request slots n :
  Forall2 seg_matches pattern request → Forall segment_ok request →
  Forall (λ k, zlen k < HTTP_PARAM_KEY_MAX) (params_of pattern) →
  0 <= n → n + zlen (params_of pattern) <= HTTP_MAX_PARAMS → zlen slots = HTTP_MAX_PARAMS →
  ∃ slots', match_loop pattern request (Some slots) n
              = (Some (n + zlen (params_of pattern)), Some slots') ∧
            zlen slots' = zlen slots ∧
            ztake (n + zlen (params_of pattern)) slots' = ztake n slots ++ bindings pattern request.
Proof.
  intros Hm. revert slots n. induction Hm as [|p r pattern request Hpr Hm IH]; intros slots n Hr Hk Hn0 Hn Hs.
  { exists slots. simpl. change (zlen (params_of [])) with 0.
    rewrite Z.add_0_r, app_nil_r. done. }
  apply Forall_cons in Hr as [[Hr1 _] Hr]. rewrite params_of_cons in *. simpl.
  destruct (seg_is_param p) eqn:Ep.
  - apply Forall_cons in Hk as [Hk1 Hk]. rewrite zlen_cons in *. pose proof (zlen_nonneg (params_of pattern)).
    repeat (case_if; breflect; [limit_lia|]).
    rewrite set_param_slots by (unfold zlen in *; limit_lia).
    destruct (IH (<[Z.to_nat n := {| p_key := seg_text p; p_value := seg_text r |}]> slots) (n + 1))
      as (slots' & Hml & Hl & Ht); try done; try lia.
    { unfold zlen in *. by rewrite length_insert. }
    exists slots'. rewrite Hml. replace (n + (1 + zlen (params_of pattern)))
      with (n + 1 + zlen (params_of pattern)) by lia. split; [done|]. split.
    { rewrite Hl. unfold zlen. by rewrite length_insert. }
    rewrite Ht. unfold ztake. replace (Z.to_nat (n + 1)) with (S (Z.to_nat n)) by lia.
    erewrite take_S_r; [|apply list_lookup_insert_eq; unfold zlen in *; limit_lia].
    rewrite take_insert_ge by lia. by rewrite <- app_assoc.
  - destruct Hpr as [?|Ht]; [congruence|]. rewrite (proj2 (streq_true _ _) Ht). simpl.
    by apply IH.
Qed.

(** Whatever matches also binds, and what is bound is exactly the parameters. *)
Lemma segments_match_bind pattern request offset ps :
  pattern_ok (segs pattern) → segments_ok request → 0 <= offset →
  zlen (ps_params ps) = HTTP_MAX_PARAMS →
  (segments_match_at pattern request offset (Some ps)).1
    = (segments_match_at pattern request offset None).1 ∧
  ((segments_match_at pattern request offset None).1 = true →
   ∃ ps', segments_match_at pattern request offset (Some ps) = (true, Some ps') ∧
     zlen (ps_params ps') = HTTP_MAX_PARAMS ∧
     ztake (ps_count ps') (ps_params ps') = bindings (segs pattern) (zdrop offset (segs request))).
Proof.
  intros (_ & Hpn & Hpk & _) Hreq Ho Hs. rewrite segments_match_test by done. cbn [fst].
  assert (Forall segment_ok (zdrop offset (segs request))) as Hr by (by apply Forall_drop).
  unfold segments_match_at. case_if; breflect.
  { rewrite bool_decide_false by lia. done. }
  case_if; breflect.
  { assert (bool_decide (offset <= zlen (segs request) ∧
       Forall2 seg_matches (segs pattern) (zdrop offset (segs request))) = false) as ->; [|done].
    apply bool_decide_false. intros [_ H%Forall2_length].
    apply Heqb0. unfold zlen, zdrop in *. rewrite length_drop in H. lia. }
  case_bool_decide as Hm.
  - destruct Hm as [_ Hm].
    destruct (match_loop_bind _ _ (ps_params ps) 0 Hm Hr Hpk ltac:(lia) ltac:(lia) Hs)
      as (slots' & Hml & Hl & Ht).
    simpl fmap. rewrite Hml. split; [done|]. intros _. eexists. split; [done|]. simpl.
    split; [lia|]. rewrite Ht. done.
  - split; [|done]. simpl fmap.
    assert ((match_loop (segs pattern) (zdrop offset (segs request)) (Some (ps_params ps)) 0).1 = None) as H.
    { apply match_loop_bind_fail; [unfold zlen, zdrop in *; rewrite length_drop; lia|].
      intros HF. apply Hm. split; [lia|done]. }
    destruct (match_loop _ _ _ _) as [c [sl|]]; simpl in H; by rewrite H.
Qed.

(** C32: testing a registered pattern and binding its parameters agree on every
    request path the parser accepts: both succeed exactly when the segments match
    one by one, and what is bound is the parameter segments of the pattern with the
    texts of the request. *)
Theorem segments_match_spec pattern request offset ps :
  pattern_ok (segs pattern) → segments_ok request → 0 <= offset →
  zlen (ps_params ps) = HTTP_MAX_PARAMS →
  let hit := offset <= zlen (segs request) ∧
             Forall2 seg_matches (segs pattern) (zdrop offset (segs request)) in
  (segments_match_at pattern request offset None).1 = bool_decide hit ∧
  (segments_match_at pattern request offset (Some ps)).1 = bool_decide hit ∧
  (hit → ∃ ps', segments_match_at pattern request offset (Some ps) = (true, Some ps') ∧
     ztake (ps_count ps') (ps_params ps') = bindings (segs pattern) (zdrop offset (segs request))).
Proof.
  intros Hp Hr Ho Hl hit. destruct (segments_match_bind pattern request offset ps Hp Hr Ho Hl) as [He Hb].
  rewrite He, segments_match_test in * by done. split; [done|]. split; [done|].
  intros Hh. destruct Hb as (ps' & H1 & _ & H2); [by apply bool_decide_true|eauto].
Qed.

Lemma segments_match_spec_witness :
  let pat := {| segs := [{| seg_text := str "user"; seg_is_param := false |};
                         {| seg_text := str "id"; seg_is_param := true |}]; segs_capacity := 8 |} in
  let path := {| segs := [{| seg_text := str "user"; seg_is_param := false |};
                          {| seg_text := str "42"; seg_is_param := false |}]; segs_capacity := 8 |} in
  ∃ ps', segments_match_at pat path 0 (Some no_params) = (true, Some ps') ∧
    ztake (ps_count ps') (ps_params ps') = [{| p_key := str "id"; p_value := str "42" |}].
Proof.
  intros pat path.
  destruct (segments_match_spec pat path 0 no_params) as (_ & _ & H);
    [ unfold pattern_ok, segment_ok; decided | unfold segments_ok, segment_ok; decided
    | lia | reflexivity | ].
  destruct H as (ps' & H1 & H2).
  { split; [decided|]. constructor; [right; reflexivity|].
    constructor; [left; reflexivity | constructor]. }
  exists ps'. split; [exact H1|]. rewrite H2. vm_compute. reflexivity.
Defined.


(** ** Middleware paths *)

Lemma idx_last s u c : s = u ++ [c] → idx s (zlen s - 1) = c.
Proof.
  intros ->. unfold idx. rewrite zlen_app, zlen_cons, zlen_nil.
  replace (zlen u + (1 + 0) - 1) with (zlen u) by lia. by rewrite zdrop_app_length.
Qed.

Lemma path_matches_base u c real :
  c ≠ "/"%ch →
  let base := u ++ [c] in
  (if zlen real =? 0 then false
   else if negb (starts_with base real) then false
   else if zlen real =? zlen base then true
   else if idx base (zlen base - 1) =? "/"%ch then true
   else idx real (zlen base) =? "/"%ch) = true
  ↔ real = base ∨ ∃ t, real = base ++ "/"%ch :: t.
Proof.
  intros Hc base. rewrite (idx_last base u c) by done.
  rewrite (proj2 (Z.eqb_neq c "/"%ch) Hc).
  assert (zlen base > 0) as Hb by (unfold base; zlen_lia).
  case_if; breflect.
  { split; [done|]. intros [-> | [t ->]]; zlen_lia. }
  destruct (starts_with base real) eqn:Es; simpl.
  - apply starts_with_true in Es as [t ->]. unfold idx. rewrite zdrop_app_length.
    case_if; breflect.
    + match goal with H : zlen (base ++ t) = _ |- _ => rewrite zlen_app in H end.
      assert (t = []) as -> by (apply zlen_nil_inv; lia).
      rewrite app_nil_r. split; auto.
    + rewrite Z.eqb_eq. split.
      * intros Ht. right. destruct t as [|d t]; [done|]. simpl in Ht. subst. eauto.
      * intros [H|[t' H]]; [by apply (f_equal zlen) in H|].
        apply app_inv_head in H. by subst.
  - split; [done|]. intros [-> | [t ->]].
    + rewrite <- (app_nil_r base) in Es at 2. by rewrite starts_with_app in Es.
    + by rewrite starts_with_app in Es.
Qed.

Definition mw_len (reg : bytes) : Z :=
  if (1 <? zlen reg) && (idx reg (zlen reg - 1) =? "/"%ch) then zlen reg - 1 else zlen reg.

Lemma path_matches_len reg real l :
  mw_len reg = l → 0 < l →
  path_matches reg real =
  (if zlen real =? 0 then false
   else if negb (starts_with (ztake l reg) real) then false
   else if zlen real =? l then true
   else if idx reg (l - 1) =? "/"%ch then true
   else idx real l =? "/"%ch).
Proof.
  intros Hl Hpos. unfold path_matches. fold (mw_len reg). rewrite Hl.
  by rewrite (proj2 (Z.eqb_neq l 0)) by lia.
Qed.

(** A middleware prefix, written with or without its trailing slash, covers a
    path exactly when the path is the prefix or continues it after a slash. *)
Lemma path_matches_spec u c (slash : bool) real :
  c ≠ "/"%ch → u ≠ [] →
  let base := u ++ [c] in
  path_matches (base ++ if slash then ["/"%ch] else []) real = true
  ↔ real = base ∨ ∃ t, real = base ++ "/"%ch :: t.
Proof.
  intros Hc Hu base. pose proof (path_matches_base u c real Hc) as Hbase.
  cbv zeta in Hbase. fold base in Hbase. rewrite <- Hbase.
  assert (zlen base > 1) as Hb.
  { unfold base. destruct u; [done|]. zlen_lia. }
  destruct slash.
  - rewrite (path_matches_len _ _ (zlen base)); [|unfold mw_len|lia].
    + rewrite ztake_app_length.
      assert (idx (base ++ ["/"%ch]) (zlen base - 1) = idx base (zlen base - 1)) as ->; [|done].
      unfold idx, base. rewrite zlen_app, zlen_cons, zlen_nil.
      replace (zlen u + (1 + 0) - 1) with (zlen u) by lia.
      by rewrite <- app_assoc, !zdrop_app_length.
    + rewrite (idx_last _ base "/"%ch) by done. rewrite (proj2 (Z.ltb_lt _ _)) by zlen_lia.
      simpl. zlen_lia.
  - rewrite app_nil_r. rewrite (path_matches_len _ _ (zlen base)); [|unfold mw_len|lia].
    + by rewrite ztake_all by lia.
    + by rewrite (idx_last base u c), (proj2 (Z.eqb_neq c "/"%ch) Hc), andb_false_r by done.
Qed.

(** Routing drops empty segments, the middleware comparison does not: doubling
    the leading slash of any path selects the same segments - hence the same
    routes - but no longer matches a middleware registered for that very path. *)
Lemma double_slash_same_segments path :
  deref path = "/"%ch → route_segments ("/"%ch :: path) = route_segments path.
Proof.
  intros Hp. unfold route_segments. simpl length. cbn [pieces split_chr].
  change ("/"%ch =? "/"%ch) with true. cbn iota.
  assert (parse_piece path = Some None) as ->; [|done].
  destruct path as [|c path]; [done|]. simpl in Hp. subst c. done.
Qed.

Lemma double_slash_no_middleware c rest :
  c ≠ "/"%ch →
  path_matches ("/"%ch :: c :: rest) ("/"%ch :: "/"%ch :: c :: rest) = false.
Proof.
  intros Hc. set (path := "/"%ch :: c :: rest).
  assert (2 <= mw_len path) as Hl.
  { unfold mw_len. case_if; breflect; [|unfold path; zlen_lia].
    destruct rest as [|d rest]; [|unfold path; zlen_lia].
    exfalso. change (idx path (zlen path - 1)) with c in *. done. }
  rewrite (path_matches_len _ _ _ eq_refl) by lia.
  rewrite (proj2 (Z.eqb_neq (zlen _) 0)) by zlen_lia.
  assert (starts_with (ztake (mw_len path) path) ("/"%ch :: path) = false) as ->; [|done].
  unfold ztake. replace (Z.to_nat (mw_len path)) with (S (S (Z.to_nat (mw_len path - 2)))) by lia.
  unfold path at 2 3. simpl. by rewrite (proj2 (Z.eqb_neq c "/"%ch) Hc).
Qed.
