(* ===== verification/Time.v ===== *)
(** * Dates

    [format_http_date] of [src/c_http.c] and [format_http_time] of
    [src/c_http_static.c], over the calendar of [gmtime_r]. *)

From S2P Require Import Prelude CLib World Types.
#[local] Open Scope Z_scope.

(** ** [gmtime_r] *)

Record tm := {
  tm_sec : Z; tm_min : Z; tm_hour : Z;
  tm_mday : Z;   (** 1..31 *)
  tm_mon : Z;    (** 0..11 *)
  tm_year : Z;   (** years since 1900 *)
  tm_wday : Z;   (** 0..6, Sunday first *)
}.

Definition is_leap (y : Z) : bool :=
  (y mod 4 =? 0) && (negb (y mod 100 =? 0) || (y mod 400 =? 0)).

Definition month_days (y m : Z) : Z :=
  if m =? 1 then (if is_leap y then 29 else 28)
  else if existsb (Z.eqb m) [3; 5; 8; 10] then 30 else 31.

(** The proleptic Gregorian date of a day number (day 0 is 1970-01-01): the
    400-year era, the year of the era counted from March, the month. *)
Definition civil_from_days (d : Z) : Z * Z * Z :=
  let z := d + 719468 in
  let era := z / 146097 in
  let doe := z mod 146097 in
  let yoe := (doe - doe / 1460 + doe / 36524 - doe / 146096) / 365 in
  let doy := doe - (365 * yoe + yoe / 4 - yoe / 100) in
  let mp := (5 * doy + 2) / 153 in
  let mday := doy - (153 * mp + 2) / 5 + 1 in
  let mon := if mp <? 10 then mp + 2 else mp - 10 in
  (yoe + era * 400 + (if mon <=? 1 then 1 else 0), mon, mday).

Definition gmtime_r (t : Z) : tm :=
  let days := t / 86400 in
  let rem := t mod 86400 in
  let '(y, m, d) := civil_from_days days in
  {| tm_sec := rem mod 60; tm_min := rem / 60 mod 60; tm_hour := rem / 3600;
     tm_mday := d; tm_mon := m; tm_year := y - 1900; tm_wday := (days + 4) mod 7 |}.

(** ** The code *)

Definition days : list bytes :=
  [str "Sun"; str "Mon"; str "Tue"; str "Wed"; str "Thu"; str "Fri"; str "Sat"].
Definition months : list bytes :=
  [str "Jan"; str "Feb"; str "Mar"; str "Apr"; str "May"; str "Jun";
   str "Jul"; str "Aug"; str "Sep"; str "Oct"; str "Nov"; str "Dec"].

Definition format_tm (gt : tm) : bytes :=
  let wday := if (0 <=? tm_wday gt) && (tm_wday gt <=? 6) then tm_wday gt else 0 in
  let mon := if (0 <=? tm_mon gt) && (tm_mon gt <=? 11) then tm_mon gt else 0 in
  default [] (days !! Z.to_nat wday) ++ str ", " ++ fmt_0d 2 (tm_mday gt) ++ str " " ++
  default [] (months !! Z.to_nat mon) ++ str " " ++ fmt_0d 4 (1900 + tm_year gt) ++ str " " ++
  fmt_0d 2 (tm_hour gt) ++ str ":" ++ fmt_0d 2 (tm_min gt) ++ str ":" ++ fmt_0d 2 (tm_sec gt) ++
  str " GMT".

Definition format_http_date (size : Z) : M bytes :=
  now ← time_now; mret (snprintf_s size (format_tm (gmtime_r now))).

Definition format_http_time (t : Z) (size : Z) : bytes :=
  let t := if t <? 0 then 0 else t in
  snprintf_s size (format_tm (gmtime_r t)).
