(* ===== verification/Response.v ===== *)
(** * Responses

    The response helpers of [src/c_http.c] ([http_res_json], [http_res_body],
    [http_res_redirect], [http_res_cookie], [http_error], locals), the default
    headers, and [send_res], which writes a response to the socket. *)

From stdpp Require Import relations.
From S2P Require Import Prelude CLib World Types Validate Headers Request Net Time.
#[local] Open Scope Z_scope.

(** ** Locals *)

Fixpoint find_local (locals : list HttpLocal) (key : bytes) : option bytes :=
  match locals with
  | [] => None
  | l :: locals => if streq key (l_key l) then Some (l_value l) else find_local locals key
  end.

(** Overwrites the value of the first slot with that key. *)
Fixpoint overwrite_local (locals : list HttpLocal) (key value : bytes) : option (list HttpLocal) :=
  match locals with
  | [] => None
  | l :: locals =>
      if streq (l_key l) key then
        Some ({| l_key := l_key l; l_value := snprintf_s HTTP_LOCAL_VALUE_MAX value |} :: locals)
      else cons l <$> overwrite_local locals key value
  end.

Definition http_set_local (res : HttpResponse) (key value : option bytes)
  : HttpSetLocalResult * HttpResponse :=
  match key, value with
  | Some key, Some value =>
      if deref key =? NUL then (HTTP_SET_LOCAL_ERROR, res)
      else if (HTTP_LOCAL_KEY_MAX <=? zlen key) || (HTTP_LOCAL_VALUE_MAX <=? zlen value) then
        (HTTP_SET_LOCAL_ERROR, res)
      else
        match overwrite_local (res_locals res) key value with
        | Some locals => (HTTP_SET_LOCAL_OK, set_res_locals locals res)
        | None =>
            if HTTP_MAX_LOCALS <=? zlen (res_locals res) then (HTTP_SET_LOCAL_ERROR, res)
            else
              let local := {| l_key := snprintf_s HTTP_LOCAL_KEY_MAX key;
                              l_value := snprintf_s HTTP_LOCAL_VALUE_MAX value |} in
              (HTTP_SET_LOCAL_OK, set_res_locals (res_locals res ++ [local]) res)
        end
  | _, _ => (HTTP_SET_LOCAL_ERROR, res)
  end.

Definition http_res_local (res : HttpResponse) (key : option bytes) : option bytes :=
  key ← key; find_local (res_locals res) key.

(** ** Setting a response *)

Definition http_set_res_header (res : HttpResponse) (key value : bytes)
  : M (HttpSetHeaderResult * HttpResponse) :=
  '(rc, headers) ← http_set_header (res_headers res) (Some key) (Some value);
  mret (rc, set_res_headers headers res).

Definition http_res_json (res : HttpResponse) (status : Z) (body : option bytes)
  : M (Z * HttpResponse) :=
  match body with
  | None => mret (-1, res)
  | Some body =>
      if negb (is_valid_status_code status) then mret (-1, res)
      else if HTTP_BODY_BUFFER <=? zlen body then mret (-1, res)
      else
        '(rc, res) ← http_set_res_header res (str "Content-Type") (str "application/json");
        match rc with
        | HTTP_SET_HEADER_ERROR => mret (-1, res)
        | HTTP_SET_HEADER_OK =>
            let res := set_res_body (write_cstr body (res_body res)) res in
            let res := set_res_body_len (zlen body) res in
            mret (0, set_res_status status res)
        end
  end.

(** [body = None] is NULL, and then [body_len] is the claimed length. *)
Definition http_res_body (res : HttpResponse) (status : Z) (content_type body : option bytes)
    (body_len : Z) : M (Z * HttpResponse) :=
  match content_type with
  | None => mret (-1, res)
  | Some content_type =>
      if (bool_decide (body = None) && (0 <? body_len)) || negb (is_valid_status_code status)
         || (deref content_type =? NUL) then mret (-1, res)
      else
        '(rc, res) ← http_set_res_header res (str "Content-Type") content_type;
        match rc with
        | HTTP_SET_HEADER_ERROR => mret (-1, res)
        | HTTP_SET_HEADER_OK =>
            let data := ztake body_len (default [] body) in
            if body_len <? HTTP_BODY_BUFFER then
              let res := set_res_body (write_cstr data (res_body res)) res in
              let res := set_res_body_len body_len res in
              let res := set_res_dyn_body None res in
              mret (0, set_res_status status res)
            else
              copy ← malloc;
              if negb copy then mret (-1, res)
              else
                let res := set_res_dyn_body (Some data) res in
                let res := set_res_body_len 0 res in
                mret (0, set_res_status status res)
        end
  end.

Definition http_res_redirect (res : HttpResponse) (status : Z) (location : option bytes)
  : M (Z * HttpResponse) :=
  match location with
  | None => mret (-1, res)
  | Some location =>
      if (status <? 300) || (399 <? status) then mret (-1, res)
      else
        '(rc, res) ← http_set_res_header res (str "Location") location;
        match rc with
        | HTTP_SET_HEADER_ERROR => mret (-1, res)
        | HTTP_SET_HEADER_OK => mret (0, set_res_body_len 0 (set_res_status status res))
        end
  end.

(** Appends to a buffer that must keep room for the NUL. *)
Definition append_bounded (size : Z) (buf text : bytes) : option bytes :=
  if size <=? zlen buf + zlen text then None else Some (buf ++ text).

(** The text of a [Set-Cookie] header; [None]: rejected. *)
Definition cookie_text (name value : bytes) (max_age : Z) (http_only : bool) : option bytes :=
  if (deref name =? NUL) || existsb (λ c, has_chr c (str ";= ") || (c =? HT)) name then None
  else if strchr_found value ";"%ch then None
  else
    cookie ← append_bounded 512 [] (name ++ str "=" ++ value ++ str "; Path=/");
    cookie ← (if 0 <? max_age then append_bounded 512 cookie (str "; Max-Age=" ++ fmt_u max_age)
              else Some cookie);
    (if http_only then append_bounded 512 cookie (str "; HttpOnly") else Some cookie).

Definition http_res_cookie (res : HttpResponse) (name value : option bytes) (max_age : Z)
    (http_only : bool) : M (Z * HttpResponse) :=
  match name, value with
  | Some name, Some value =>
      match cookie_text name value max_age http_only with
      | None => mret (-1, res)
      | Some cookie =>
          '(rc, res) ← http_set_res_header res (str "Set-Cookie") cookie;
          mret (match rc with HTTP_SET_HEADER_OK => 0 | HTTP_SET_HEADER_ERROR => -1 end, res)
      end
  | _, _ => mret (-1, res)
  end.

Definition http_error (res : HttpResponse) (status : Z) (message : option bytes) : HttpResponse :=
  let status := if negb (is_valid_status_code status) || (status <? 400)
                then HTTP_STATUS_INTERNAL_SERVER_ERROR else status in
  let res := set_res_error true (set_res_status status res) in
  let res := set_res_dyn_body None res in
  set_res_error_message
    (snprintf_s HTTP_ERROR_MESSAGE_MAX (default (status_text status) message)) res.

Definition set_protocol_error (res : HttpResponse) (status : Z) : HttpResponse :=
  set_res_error true (set_res_status status res).

(** ** Default headers *)

Definition C_HTTP_VERSION : bytes := str "0.9.0".

Fixpoint apply_headers (l : list (bytes * bytes)) (res : HttpResponse) : M HttpResponse :=
  match l with
  | [] => mret res
  | (key, value) :: l =>
      '(_, headers) ← apply_header (res_headers res) key value;
      apply_headers l (set_res_headers headers res)
  end.

Definition security_headers : list (bytes * bytes) :=
  [(str "Strict-Transport-Security", str "max-age=31536000; includeSubDomains");
   (str "X-Content-Type-Options", str "nosniff");
   (str "X-Frame-Options", str "SAMEORIGIN");
   (str "Content-Security-Policy", str "default-src 'self'");
   (str "Referer-Policy", str "strict-origin-when-cross-origin");
   (str "Permissions-Policy", str "geolocation=(), camera=(), microphone=()");
   (str "Vary", str "Accept-Encoding")].

Definition apply_default_headers (res : HttpResponse) (server_name : bytes) (keep_alive : bool)
  : M HttpResponse :=
  time_buf ← format_http_date 64;
  let name := server_name ++ str "/" ++ C_HTTP_VERSION in
  apply_headers
    ([(str "Date", time_buf);
      (str "Connection", if keep_alive then str "keep-alive" else str "close")]
     ++ (if zlen name <? 64 then [(str "Server", name)] else [])
     ++ security_headers) res.

(** ** Sending a file *)

(** The rounds of [send_fd] behind the descriptor's offset: [sendfile] moves at
    most [chunk] bytes of what the file still holds, 0 when there is none. *)
Fixpoint send_fd_loop (events : list SendEvent) (data : bytes) (size sent_total : Z)
  : Z * list SendEvent * bytes :=
  if size <=? sent_total then (0, events, [])
  else
    let chunk := Z.min (size - sent_total) 0x7ffff000 in
    match events with
    | [] => (if size - sent_total <=? zlen data then 0 else -1, [], ztake (size - sent_total) data)
    | SIntr :: events => send_fd_loop events data size sent_total
    | SError :: events => (-1, events, [])
    | SAccept n :: events =>
        let sent := ztake (Z.min n chunk) data in
        if zlen sent =? 0 then (-1, events, [])
        else
          let '(rc, events, out) :=
            send_fd_loop events (zdrop (zlen sent) data) size (sent_total + zlen sent) in
          (rc, events, sent ++ out)
    end.

(** [file_fd = None] is the descriptor -1: every call on it fails. *)
Definition send_fd (file_fd : option OpenFile) (start size : Z) : M Z := λ w,
  match file_fd with
  | None => (if (0 <? start) || (0 <? size) then -1 else 0, w)
  | Some f =>
      let data := if 0 <? start then zdrop start (of_data f) else of_data f in
      let '(rc, events, out) := send_fd_loop (w_send w) data size 0 in
      (rc, with_send events (w_sent w ++ out) w)
  end.

Definition open_regular_file (path : bytes) : M (option OpenFile) :=
  f ← open path;
  mret (match f with
        | Some f => match st_kind (of_stat f) with FRegular => Some f | _ => None end
        | None => None
        end).

(** ** [send_res] *)

(** The conversion of a [size_t] to [off_t], and back. *)
Definition to_off_t (n : Z) : Z := (n + 2 ^ 63) mod 2 ^ 64 - 2 ^ 63.
Definition to_size_t (n : Z) : Z := n mod 2 ^ 64.

Definition no_body (status : Z) : bool :=
  ((100 <=? status) && (status <? 200)) || (status =? HTTP_STATUS_NO_CONTENT)
  || (status =? HTTP_STATUS_RESET_CONTENT) || (status =? HTTP_STATUS_NOT_MODIFIED).

(** Opens [file_path]: the response, the descriptor and the file size. *)
Definition open_body_file (res : HttpResponse) (no_body_status : bool)
  : M (HttpResponse * option OpenFile * Z) :=
  match res_file_path res with
  | Some path =>
      if no_body_status then mret (res, None, 0)
      else
        f ← open_regular_file path;
        match f with
        | Some f =>
            if 0 <=? st_size (of_stat f) then mret (res, Some f, st_size (of_stat f))
            else mret (set_res_body_len 0 (set_res_status HTTP_STATUS_INTERNAL_SERVER_ERROR res), None, 0)
        | None =>
            mret (set_res_body_len 0 (set_res_status HTTP_STATUS_INTERNAL_SERVER_ERROR res), None, 0)
        end
  | None => mret (res, None, 0)
  end.

(** The range against the file: the response, the descriptor, offset and size
    to send.  [streaming] was decided before. *)
Definition clamp_range (res : HttpResponse) (file_fd : option OpenFile) (file_size : Z)
  : HttpResponse * option OpenFile * Z * Z :=
  if bool_decide (file_fd ≠ None) && res_ranged res then
    if file_size <=? to_off_t (res_range_start res) then
      (set_res_body_len 0 (set_res_status HTTP_STATUS_RANGE_NOT_SATISFIABLE res), None, 0, file_size)
    else
      let send_offset := to_off_t (res_range_start res) in
      let available := file_size - send_offset in
      (res, file_fd, send_offset, Z.min (to_off_t (res_range_len res)) available)
  else (res, file_fd, 0, file_size).

(** [body] and [body_len]. *)
Definition select_body (res : HttpResponse) : bytes :=
  match res_encoded_body res, res_dyn_body res with
  | Some b, _ => b
  | None, Some b => b
  | None, None => ztake (res_body_len res) (res_body res)
  end.

Definition has_header (items : list HttpHeader) (key : bytes) : bool :=
  existsb (λ h, strcaseeq (h_key h) key) items.

Definition hdr_line (h : HttpHeader) : bytes :=
  snprintf_s 512 (h_key h ++ str ": " ++ h_value h ++ [CR; LF]).

Definition status_line (status : Z) : bytes :=
  snprintf_s 64 (str "HTTP/1.1 " ++ fmt_d status ++ str " " ++ status_text status ++ [CR; LF]).

(** Everything before the body, one element per [send_all]. *)
Definition head_chunks (res : HttpResponse) (no_body_status streaming : bool) (send_size : Z)
    (body : bytes) : list bytes :=
  let items := hs_items (res_headers res) in
  let cl := if streaming then to_size_t send_size else zlen body in
  [status_line (res_status res)]
  ++ (if no_body_status then [] else [str "Content-Length: " ++ fmt_u cl ++ [CR; LF]])
  ++ (if has_header items (str "Content-Type") then []
      else if streaming then [str "Content-Type: application/octet-stream" ++ [CR; LF]]
      else if 0 <? zlen body then [str "Content-Type: text/html" ++ [CR; LF]]
      else [])
  ++ map hdr_line items
  ++ [[CR; LF]].

(** Sends each chunk; the first failure ends it. *)
Fixpoint send_chunks (chunks : list bytes) : M Z :=
  match chunks with
  | [] => mret 0
  | c :: chunks =>
      rc ← send_all c;
      if negb (rc =? 0) then mret (-1) else send_chunks chunks
  end.

Definition send_res (res : HttpResponse) (suppress_body : bool) : M HttpResponse :=
  let res := if is_valid_status_code (res_status res) then res
             else set_res_status HTTP_STATUS_INTERNAL_SERVER_ERROR res in
  let no_body_status := no_body (res_status res) in
  '(res, file_fd, file_size) ← open_body_file res no_body_status;
  let streaming := bool_decide (file_fd ≠ None) in
  let '(res, file_fd, send_offset, send_size) := clamp_range res file_fd file_size in
  let body := select_body res in
  rc ← send_chunks (head_chunks res no_body_status streaming send_size body);
  (if (rc =? 0) && negb no_body_status && negb suppress_body then
     if streaming then send_fd file_fd send_offset send_size
     else send_all body
   else mret 0);;
  mret (set_res_file_path None (set_res_dyn_body None (set_res_encoded_body None res))).

(** ** What goes over the wire *)

(** [m] appends a prefix of [data] to what was sent, and all of it when it
    answers 0. *)
Definition sends (data : bytes) (m : M Z) : Prop :=
  ∀ w, (result m w = 0 ∧ w_sent (world m w) = w_sent w ++ data) ∨
       (result m w = -1 ∧ ∃ out rest, data = out ++ rest ∧ w_sent (world m w) = w_sent w ++ out).

(** In a world whose socket takes everything, it takes everything. *)
Definition sends_quiet (data : bytes) (m : M Z) : Prop :=
  ∀ w, w_send w = [] → m w = (0, with_send [] (w_sent w ++ data) w).

Lemma sends_send_all data : sends data (send_all data).
Proof.
  intros w. unfold result, world. pose proof (send_all_spec data w) as H.
  destruct (send_all data w) as [rc w']. tauto.
Qed.

Lemma sends_send_chunks chunks : sends (concat chunks) (send_chunks chunks).
Proof.
  induction chunks as [|c chunks IH]; intros w.
  { left. split; [done|]. simpl. by rewrite app_nil_r. }
  cbn [send_chunks concat]. mrun.
  destruct (sends_send_all c w) as [[Hr Hs]|[Hr (out & rest & -> & Hs)]]; unfold result, world in *;
    rewrite Hr; cbn [Z.eqb negb].
  - change (negb (0 =? 0)) with false. cbn iota.
    destruct (IH (send_all c w).2) as [[Hr' Hs']|[Hr' (out & rest & Hd & Hs')]];
      unfold result, world in *; rewrite Hr', Hs', Hs, <- app_assoc.
    + by left.
    + right. split; [done|]. rewrite Hd. exists (c ++ out), rest. by rewrite <- app_assoc.
  - right. split; [done|]. exists out, (rest ++ concat chunks). rewrite <- app_assoc. done.
Qed.

Lemma sends_quiet_send_chunks chunks : sends_quiet (concat chunks) (send_chunks chunks).
Proof.
  induction chunks as [|c chunks IH]; intros w Hw.
  { cbn. rewrite app_nil_r. by destruct w; simpl in *; subst. }
  cbn [send_chunks concat]. rewrite bind_run. unfold result, world.
  rewrite (send_all_quiet _ _ Hw). cbn [fst snd].
  change (negb (0 =? 0)) with false. cbn iota. rewrite IH by done. simpl.
  unfold with_send. simpl. by rewrite <- app_assoc.
Qed.

(** A response with no file attached: its head, then its body unless the status
    or the method forbids one. *)
Definition response_image (res : HttpResponse) (suppress_body : bool) : bytes :=
  let res := if is_valid_status_code (res_status res) then res
             else set_res_status HTTP_STATUS_INTERNAL_SERVER_ERROR res in
  let no_body_status := no_body (res_status res) in
  concat (head_chunks res no_body_status false 0 (select_body res))
  ++ (if no_body_status || suppress_body then [] else select_body res).

Lemma head_chunks_not_streaming res nb n body :
  head_chunks res nb false n body = head_chunks res nb false 0 body.
Proof. done. Qed.

Lemma send_res_no_file res suppress_body w :
  res_file_path res = None →
  let w' := world (send_res res suppress_body) w in
  ∃ sent rest, response_image res suppress_body = sent ++ rest ∧ w_sent w' = w_sent w ++ sent ∧
    (w_send w = [] → rest = []).
Proof.
  intros Hf. unfold send_res, response_image. cbv zeta.
  set (res1 := if is_valid_status_code (res_status res) then res
               else set_res_status HTTP_STATUS_INTERNAL_SERVER_ERROR res).
  assert (res_file_path res1 = None) as Hf1 by (unfold res1; by case_if).
  unfold open_body_file. rewrite Hf1. unfold world. rewrite bind_run. unfold result, world.
  cbn [mret M_ret fst snd]. unfold clamp_range.
  rewrite bool_decide_false by (intros []; done). cbn [andb].
  set (body := select_body res1).
  set (chunks := head_chunks res1 (no_body (res_status res1)) false 0 body).
  rewrite bind_run. unfold result, world. rewrite bind_run. unfold result, world.
  destruct (sends_send_chunks chunks w) as [[Hr Hs]|[Hr (out & rest & Hc & Hs)]];
    unfold result, world in *; rewrite Hr; cbn [fst snd].
  - change (0 =? 0) with true. cbn [andb].
    destruct (no_body (res_status res1)), suppress_body; cbn [negb andb orb M_ret mret fst snd];
      try (exists (concat chunks), []; rewrite ?app_nil_r; done).
    destruct (sends_send_all body (send_chunks chunks w).2) as [[Hr' Hs']|[Hr' (out & rest & Hb & Hs')]];
      unfold result, world in *; rewrite Hs', Hs, <- app_assoc.
    + exists (concat chunks ++ body), []. by rewrite app_nil_r.
    + exists (concat chunks ++ out), rest. rewrite <- !app_assoc, <- Hb. split; [done|]. split; [done|].
      intros Hw. exfalso. rewrite (sends_quiet_send_chunks chunks w Hw) in Hr'. simpl in Hr'.
      rewrite send_all_quiet in Hr'; done.
  - change (-1 =? 0) with false. cbn [andb mret M_ret fst snd]. exists out, (rest ++ (if no_body (res_status res1) || suppress_body then [] else body)).
    split; [by rewrite Hc, <- app_assoc|]. split; [done|]. intros Hw.
    by rewrite (sends_quiet_send_chunks chunks w Hw) in Hr.
Qed.

(** ** The head is a list of lines *)

Definition line_safe (l : bytes) : Prop := ¬ (CR ∈ l) ∧ ¬ (LF ∈ l).

(** A header whose line fits the 512-byte buffer of [send_res]. *)
Definition line_fits (h : HttpHeader) : Prop := zlen (h_key h) + zlen (h_value h) + 4 < 512.

Definition header_text (h : HttpHeader) : bytes := h_key h ++ str ": " ++ h_value h.

(** The lines the head should consist of. *)
Definition response_lines (res : HttpResponse) (no_body_status streaming : bool) (send_size : Z)
    (body : bytes) : list bytes :=
  let items := hs_items (res_headers res) in
  [str "HTTP/1.1 " ++ fmt_d (res_status res) ++ str " " ++ status_text (res_status res)]
  ++ (if no_body_status then []
      else [str "Content-Length: " ++ fmt_u (if streaming then to_size_t send_size else zlen body)])
  ++ (if has_header items (str "Content-Type") then []
      else if streaming then [str "Content-Type: application/octet-stream"]
      else if 0 <? zlen body then [str "Content-Type: text/html"] else [])
  ++ map header_text items.

Definition crlf_lines (lines : list bytes) : bytes := concat (map (λ l, l ++ CRLF) lines).

Lemma crlf_lines_app a b : crlf_lines (a ++ b) = crlf_lines a ++ crlf_lines b.
Proof. unfold crlf_lines. by rewrite map_app, concat_app. Qed.

Lemma status_line_spec s :
  is_valid_status_code s = true →
  status_line s = (str "HTTP/1.1 " ++ fmt_d s ++ str " " ++ status_text s) ++ CRLF ∧
  line_safe (str "HTTP/1.1 " ++ fmt_d s ++ str " " ++ status_text s).
Proof.
  intros Hs.
  pose proof (status_cases (λ s,
    let t := str "HTTP/1.1 " ++ fmt_d s ++ str " " ++ status_text s in
    (zlen t + 2 <? 64) && negb (header_value_has_injection t)) ltac:(vm_compute; done) s Hs) as H.
  cbv beta zeta in H. breflect.
  match goal with H : header_value_has_injection _ = false |- _ =>
    apply header_value_has_injection_false in H as Hsafe end.
  set (t := str "HTTP/1.1 " ++ fmt_d s ++ str " " ++ status_text s) in *.
  split; [|done]. unfold status_line, snprintf_s.
  assert (str "HTTP/1.1 " ++ fmt_d s ++ str " " ++ status_text s ++ [CR; LF] = t ++ CRLF) as ->
    by (unfold t; by rewrite <- !app_assoc).
  apply ztake_all. rewrite zlen_app. change (zlen CRLF) with 2. lia.
Qed.

Lemma hdr_line_fits h : line_fits h → hdr_line h = header_text h ++ CRLF.
Proof.
  intros H. unfold hdr_line, header_text, snprintf_s, line_fits in *.
  rewrite ztake_all; [by rewrite <- !app_assoc|].
  change (zlen (h_key h ++ str ": " ++ h_value h ++ [CR; LF]) <= 511).
  rewrite !zlen_app. change (zlen (str ": ")) with 2. change (zlen [CR; LF]) with 2. lia.
Qed.

Lemma head_chunks_lines res nb streaming n body :
  is_valid_status_code (res_status res) = true → Forall line_fits (hs_items (res_headers res)) →
  concat (head_chunks res nb streaming n body)
  = crlf_lines (response_lines res nb streaming n body) ++ CRLF.
Proof.
  intros Hs Hf. unfold head_chunks, response_lines.
  rewrite !crlf_lines_app, !concat_app, <- !app_assoc. f_equal; [|f_equal; [|f_equal; [|f_equal]]].
  - unfold crlf_lines. cbn [concat map]. rewrite !app_nil_r. by apply status_line_spec.
  - destruct nb; [done|]. unfold crlf_lines. cbn [concat map]. by rewrite !app_nil_r, <- app_assoc.
  - repeat case_if; done.
  - unfold crlf_lines. rewrite map_map. f_equal. apply map_ext_Forall.
    eapply Forall_impl; [done|]. apply hdr_line_fits.
Qed.

Lemma line_safe_app a b : line_safe (a ++ b) ↔ line_safe a ∧ line_safe b.
Proof. unfold line_safe. rewrite !not_elem_of_app. tauto. Qed.

Lemma tchar_line_safe s : Forall tchar s → line_safe s.
Proof.
  intros H. unfold line_safe. rewrite Forall_forall in H.
  split; intros Hin; specialize (tchar_bound _ (H _ Hin)); lia.
Qed.

Lemma digits_line_safe s : Forall (λ c, is_digit c = true) s → line_safe s.
Proof.
  rewrite Forall_forall. intros H. split; intros Hin; by specialize (H _ Hin).
Qed.

Lemma header_text_safe h : header_ok h → line_safe (header_text h).
Proof.
  intros [Hk Hv]. apply is_valid_header_name_true in Hk as [_ Hk].
  apply header_value_has_injection_false in Hv. unfold header_text.
  rewrite !line_safe_app. split; [by apply tchar_line_safe|]. split; [|done].
  by apply header_value_has_injection_false.
Qed.

Ltac line_literal := by apply header_value_has_injection_false.

Lemma response_lines_safe res nb streaming n body :
  is_valid_status_code (res_status res) = true → headers_ok (res_headers res) →
  Forall line_safe (response_lines res nb streaming n body).
Proof.
  intros Hs [Hh _]. unfold response_lines.
  apply Forall_app. split; [by repeat constructor; apply status_line_spec|].
  apply Forall_app. split.
  { destruct nb; [done|]. constructor; [|done]. apply line_safe_app. split; [line_literal|].
    apply digits_line_safe, fmt_u_digits. case_if; [|apply zlen_nonneg].
    unfold to_size_t. by apply Z.mod_pos_bound. }
  apply Forall_app. split; [repeat case_if; repeat constructor; line_literal|].
  apply Forall_map. eapply Forall_impl; [done|]. apply header_text_safe.
Qed.

(** ** The invariant of a response under construction *)

Definition local_ok (l : HttpLocal) : Prop :=
  l_key l ≠ [] ∧ zlen (l_key l) < HTTP_LOCAL_KEY_MAX ∧ zlen (l_value l) < HTTP_LOCAL_VALUE_MAX.

Record response_ok (res : HttpResponse) : Prop := {
  rok_headers : headers_ok (res_headers res);
  rok_buffer : zlen (res_body res) = HTTP_BODY_BUFFER;
  rok_body_len : 0 <= res_body_len res < HTTP_BODY_BUFFER;
  rok_locals : zlen (res_locals res) <= HTTP_MAX_LOCALS;
  rok_local : Forall local_ok (res_locals res);
  rok_keys : NoDup (map l_key (res_locals res));
  rok_message : zlen (res_error_message res) < HTTP_ERROR_MESSAGE_MAX;
}.

Lemma response_ok_empty : response_ok empty_response.
Proof.
  split; try done; constructor.
Qed.

Lemma http_set_res_header_ok res key value w :
  response_ok res → response_ok (result (http_set_res_header res key value) w).2.
Proof.
  intros []. unfold http_set_res_header, result. rewrite bind_run. unfold result, world.
  pose proof (http_set_header_ok (res_headers res) (Some key) (Some value) w rok_headers0) as H.
  unfold result in H. destruct (http_set_header _ _ _ w) as [[rc hs] w']. by split.
Qed.

Lemma write_body_ok res body :
  response_ok res → zlen body < HTTP_BODY_BUFFER →
  response_ok (set_res_body_len (zlen body) (set_res_body (write_cstr body (res_body res)) res)).
Proof.
  intros [] H. split; try done; simpl.
  - rewrite zlen_write_cstr; lia.
  - zlen_lia.
Qed.

Lemma http_res_json_ok res status body w :
  response_ok res → response_ok (result (http_res_json res status body) w).2.
Proof.
  intros H. unfold http_res_json. destruct body as [body|]; [|done].
  repeat (case_if; [done|]). breflect. unfold result. rewrite bind_run.
  pose proof (http_set_res_header_ok res (str "Content-Type") (str "application/json") w H) as H'.
  destruct (result (http_set_res_header _ _ _) w) as [[] res1]; [|done]. simpl in *.
  destruct (write_body_ok res1 body H'); [lia|]. by split.
Qed.

Lemma http_res_body_ok res status content_type body body_len w :
  zlen (default [] body) = body_len → response_ok res →
  response_ok (result (http_res_body res status content_type body body_len) w).2.
Proof.
  intros Hl H. unfold http_res_body. destruct content_type as [ct|]; [|done].
  case_if; [done|]. unfold result. rewrite bind_run.
  pose proof (http_set_res_header_ok res (str "Content-Type") ct w H) as H'.
  destruct (result (http_set_res_header _ _ _) w) as [[] res1]; [|done]. simpl in H'.
  rewrite ztake_all by lia. subst body_len. case_if; breflect.
  - destruct (write_body_ok res1 (default [] body) H'); [lia|]. by split.
  - rewrite bind_run. case_if; [done|]. destruct H'. split; done || (simpl; limit_lia).
Qed.

Lemma http_res_redirect_ok res status location w :
  response_ok res → response_ok (result (http_res_redirect res status location) w).2.
Proof.
  intros H. unfold http_res_redirect. destruct location as [l|]; [|done].
  case_if; [done|]. unfold result. rewrite bind_run.
  pose proof (http_set_res_header_ok res (str "Location") l w H) as H'.
  destruct (result (http_set_res_header _ _ _) w) as [[] res1]; [|done]. destruct H'.
  split; done || (simpl; limit_lia).
Qed.

Lemma http_res_cookie_ok res name value max_age http_only w :
  response_ok res → response_ok (result (http_res_cookie res name value max_age http_only) w).2.
Proof.
  intros H. unfold http_res_cookie. destruct name as [n|], value as [v|]; try done.
  destruct (cookie_text n v max_age http_only) as [c|]; [|done]. unfold result. rewrite bind_run.
  pose proof (http_set_res_header_ok res (str "Set-Cookie") c w H) as H'.
  by destruct (result (http_set_res_header _ _ _) w) as [[] res1].
Qed.

Lemma http_error_ok res status message : response_ok res → response_ok (http_error res status message).
Proof.
  intros []. unfold http_error. split; try done. simpl. unfold snprintf_s.
  rewrite zlen_ztake by limit_lia. limit_lia.
Qed.

Lemma overwrite_local_spec locals key value :
  zlen value < HTTP_LOCAL_VALUE_MAX →
  match overwrite_local locals key value with
  | Some locals' =>
      map l_key locals' = map l_key locals ∧ key ∈ map l_key locals ∧
      find_local locals' key = Some value ∧
      (∀ k, k ≠ key → find_local locals' k = find_local locals k) ∧
      (Forall local_ok locals → Forall local_ok locals')
  | None => ¬ (key ∈ map l_key locals)
  end.
Proof.
  intros Hv. induction locals as [|l locals IH]; simpl.
  { apply not_elem_of_nil. }
  case_if.
  - apply streq_true in Heqb. subst key. simpl. split_and!; [done|by left| | |].
    + rewrite streq_refl. f_equal. unfold snprintf_s. apply ztake_all. lia.
    + intros k Hk. by rewrite (proj2 (streq_false k (l_key l))).
    + intros [[Hl1 [Hl2 Hl3]] Hls]%Forall_cons. constructor; [|done]. split; [done|]. split; [done|].
      simpl. unfold snprintf_s. rewrite zlen_ztake by limit_lia. limit_lia.
  - apply streq_false in Heqb. destruct (overwrite_local locals key value) as [locals'|]; simpl.
    + destruct IH as (Hm & Hin & Hf & Ho & Hok). split_and!.
      * by rewrite Hm.
      * by right.
      * by rewrite (proj2 (streq_false key (l_key l))).
      * intros k Hk. case_if; [done|by apply Ho].
      * intros [Hl Hls]%Forall_cons. constructor; auto.
    + apply not_elem_of_cons. split; [congruence|done].
Qed.

Lemma find_local_app_new locals l k :
  ¬ (l_key l ∈ map l_key locals) →
  find_local (locals ++ [l]) k
  = if streq k (l_key l) then Some (l_value l) else find_local locals k.
Proof.
  intros Hl. induction locals as [|l' locals IH]; simpl; [done|].
  simpl in Hl. apply not_elem_of_cons in Hl as [Hne Hl]. rewrite IH by done.
  destruct (streq k (l_key l')) eqn:E; [|done]. apply streq_true in E. subst k.
  by rewrite (proj2 (streq_false _ _)) by congruence.
Qed.

(** Setting a local overwrites the value of its key and no other, or, when it does
    not fit, leaves the response unchanged. *)
Lemma http_set_local_spec res key value :
  response_ok res →
  let '(rc, res') := http_set_local res (Some key) (Some value) in
  response_ok res' ∧
  match rc with
  | HTTP_SET_LOCAL_OK =>
      http_res_local res' (Some key) = Some value ∧
      ∀ k, k ≠ key → http_res_local res' (Some k) = http_res_local res (Some k)
  | HTTP_SET_LOCAL_ERROR => res' = res
  end.
Proof.
  intros Hok. unfold http_set_local. case_if; [done|]. case_if; [done|]. breflect.
  assert (key ≠ []) as Hne by (by intros ->). clear Heqb.
  pose proof (overwrite_local_spec (res_locals res) key value ltac:(lia)) as Hnew.
  destruct (overwrite_local (res_locals res) key value) as [locals|].
  - destruct Hnew as (Hm & Hin & Hf & Ho & Hl). destruct Hok. split; [|done].
    split; try done; simpl.
    + rewrite <- (zlen_map l_key), Hm, zlen_map. done.
    + by apply Hl.
    + by rewrite Hm.
  - case_if; [done|]. breflect. unfold snprintf_s. rewrite !ztake_all by lia. destruct Hok. split.
    + split; try done; simpl.
      * rewrite zlen_app, zlen_cons, zlen_nil. lia.
      * apply Forall_app. split; [done|]. by repeat constructor.
      * rewrite map_app. apply NoDup_app. split; [done|]. split.
        -- intros x Hx Hx'. simpl in Hx'. apply list_elem_of_singleton in Hx'. by subst.
        -- apply NoDup_singleton.
    + unfold http_res_local. simpl. split.
      * rewrite find_local_app_new by done. simpl. by rewrite streq_refl.
      * intros k Hk. rewrite find_local_app_new by done. simpl.
        by rewrite (proj2 (streq_false k key)).
Qed.

(** ** Streaming a file *)

(** [send_fd] promises [Content-Length]: it sends exactly [size] bytes of the
    file, or reports failure having sent a prefix of them. *)
Lemma send_fd_loop_spec events data size sent_total :
  sent_total <= size →
  let '(rc, _, out) := send_fd_loop events data size sent_total in
  let want := ztake (size - sent_total) data in
  (rc = 0 ∧ out = want ∧ zlen want = size - sent_total) ∨ (rc = -1 ∧ ∃ rest, want = out ++ rest).
Proof.
  revert data sent_total. induction events as [|e events IH]; intros data sent_total Hs; simpl.
  { case_if; breflect.
    - replace (size - sent_total) with 0 by lia. by left.
    - case_if; breflect; [left|right; split; [done|]; exists []; by rewrite app_nil_r].
      split; [done|]. split; [done|]. rewrite zlen_ztake by lia. zlen_lia. }
  case_if; breflect.
  { replace (size - sent_total) with 0 by lia. by left. }
  destruct e as [n| |]; [|by apply IH|right; split; [done|by eexists]].
  set (sent := ztake (Z.min n (Z.min (size - sent_total) 2147479552)) data).
  case_if; breflect; [right; split; [done|by eexists]|].
  assert (0 < zlen sent <= size - sent_total) as Hb.
  { pose proof (zlen_nonneg sent). split; [lia|]. unfold sent, ztake, zlen.
    rewrite length_take. lia. }
  assert (ztake (size - sent_total) data
          = sent ++ ztake (size - (sent_total + zlen sent)) (zdrop (zlen sent) data)) as Hcut.
  { rewrite (ztake_split (zlen sent) (size - sent_total)) by lia.
    assert (ztake (zlen sent) data = sent) as -> by apply ztake_zlen. do 2 f_equal. lia. }
  specialize (IH (zdrop (zlen sent) data) (sent_total + zlen sent) ltac:(lia)).
  destruct (send_fd_loop events _ size _) as [[rc ev] out]. simpl in IH.
  rewrite Hcut. destruct IH as [(-> & -> & Hl)|[-> [rest Hr]]].
  - left. split; [done|]. split; [done|]. rewrite zlen_app, Hl. lia.
  - right. split; [done|]. rewrite Hr. exists rest. by rewrite <- app_assoc.
Qed.

Lemma send_fd_spec f start size w :
  0 <= start → 0 <= size →
  let '(rc, w') := send_fd (Some f) start size w in
  let want := ztake size (zdrop start (of_data f)) in
  (rc = 0 ∧ w_sent w' = w_sent w ++ want ∧ zlen want = size) ∨
  (rc = -1 ∧ ∃ out rest, want = out ++ rest ∧ w_sent w' = w_sent w ++ out).
Proof.
  intros Hst Hs. unfold send_fd.
  assert ((if 0 <? start then zdrop start (of_data f) else of_data f) = zdrop start (of_data f)) as ->.
  { case_if; breflect; [done|]. by replace start with 0 by lia. }
  pose proof (send_fd_loop_spec (w_send w) (zdrop start (of_data f)) size 0 Hs) as H.
  destruct (send_fd_loop _ _ _ _) as [[rc ev] out]. rewrite Z.sub_0_r in H. simpl.
  destruct H as [(-> & -> & Hl)|[-> [rest Hr]]]; [by left|]. right. eauto.
Qed.

Lemma send_fd_quiet f start size w :
  w_send w = [] → 0 <= start → 0 <= size → size <= zlen (zdrop start (of_data f)) →
  send_fd (Some f) start size w
  = (0, with_send [] (w_sent w ++ ztake size (zdrop start (of_data f))) w).
Proof.
  intros Hw Hst Hs Hl. unfold send_fd.
  assert ((if 0 <? start then zdrop start (of_data f) else of_data f) = zdrop start (of_data f)) as ->.
  { case_if; breflect; [done|]. by replace start with 0 by lia. }
  rewrite Hw. cbn [send_fd_loop]. case_if; breflect.
  - replace size with 0 by lia. done.
  - rewrite Z.sub_0_r. case_if; [done|breflect; lia].
Qed.

(** The slice of the file a response asks for. *)
Definition file_slice (res : HttpResponse) (f : OpenFile) : bytes :=
  if res_ranged res then ztake (res_range_len res) (zdrop (res_range_start res) (of_data f))
  else of_data f.

Lemma to_off_t_id n : 0 <= n < 2 ^ 63 → to_off_t n = n.
Proof. intros H. unfold to_off_t. rewrite Z.mod_small; lia. Qed.

Lemma to_size_t_id n : 0 <= n < 2 ^ 64 → to_size_t n = n.
Proof. intros H. unfold to_size_t. by rewrite Z.mod_small. Qed.



(** A range that starts behind the end of the file it finds - the file shrank
    since the handler looked - is answered 416 with the descriptor closed, but
    the head still announces the whole file, of which nothing is sent. *)
Lemma send_res_range_gone res path f w :
  is_valid_status_code (res_status res) = true → no_body (res_status res) = false →
  res_file_path res = Some path → fs_open (w_fs w) path = Some f →
  st_kind (of_stat f) = FRegular → 0 <= st_size (of_stat f) <= res_range_start res →
  res_range_start res < 2 ^ 63 → res_ranged res = true → w_send w = [] →
  let res' := set_res_body_len 0 (set_res_status HTTP_STATUS_RANGE_NOT_SATISFIABLE res) in
  w_sent (world (send_res res false) w) = w_sent w
    ++ concat (head_chunks res' false true (st_size (of_stat f)) (select_body res')).
Proof.
  intros Hv Hnb Hp Hf Hk [Hsz Hst] Hmax Hr Hw res'. unfold send_res. cbv zeta. rewrite Hv, Hnb.
  unfold world. rewrite bind_run. unfold result, world, open_body_file. rewrite Hp. cbn iota.
  assert (open_regular_file path w = (Some f, w)) as Hopen.
  { unfold open_regular_file. rewrite bind_run. unfold result, world, open. cbn [fst snd].
    by rewrite Hf, Hk. }
  rewrite !bind_run. unfold result, world. rewrite Hopen. cbn [fst snd].
  rewrite (proj2 (Z.leb_le 0 _)) by done. cbn [fst snd mret M_ret].
  unfold clamp_range. rewrite bool_decide_true, Hr by done. cbn [andb].
  rewrite to_off_t_id by lia. rewrite (proj2 (Z.leb_le _ _)) by lia. fold res'.
  rewrite !bind_run. unfold result, world. rewrite sends_quiet_send_chunks by done.
  cbn [fst snd]. change (0 =? 0) with true. by cbn [negb andb].
Qed.

(** ** Header lines longer than the buffer *)

(** Such a line goes out without its CRLF: whatever follows becomes part of it. *)
Lemma hdr_line_unterminated h :
  header_ok h → 511 <= zlen (header_text h) →
  hdr_line h = ztake 511 (header_text h) ∧ line_safe (hdr_line h).
Proof.
  intros Hok Hl.
  assert (hdr_line h = ztake 511 (header_text h)) as He.
  { unfold hdr_line, header_text, snprintf_s in *. rewrite !app_assoc. rewrite !app_assoc in Hl.
    unfold ztake. rewrite take_app_le; [done|]. unfold zlen in Hl. lia. }
  split; [done|]. apply header_text_safe in Hok. rewrite He.
  rewrite <- (ztake_zdrop 511 (header_text h)) in Hok. by apply line_safe_app in Hok as [? _].
Qed.

(** ** [http_res_body] and its variants *)

Lemma http_set_res_header_spec res key value w :
  response_ok res →
  let '(rc, res') := result (http_set_res_header res key value) w in
  match rc with
  | HTTP_SET_HEADER_OK =>
      ∃ cap, res' = set_res_headers
        {| hs_items := hs_items (res_headers res) ++ [{| h_key := key; h_value := value |}];
           hs_capacity := cap |} res
  | HTTP_SET_HEADER_ERROR =>
      ∃ cap, res' = set_res_headers {| hs_items := hs_items (res_headers res); hs_capacity := cap |} res
  end.
Proof.
  intros [[_ Hc]]. unfold http_set_res_header, http_set_header, result.
  rewrite !bind_run. unfold result, world. rewrite bind_run.
  pose proof (apply_header_spec (res_headers res) key value w Hc) as H. unfold result, world in *.
  destruct (apply_header (res_headers res) key value w) as [[rc hs] w']. cbn [fst snd] in *.
  destruct hs as [items cap]. destruct H as [_ [(-> & _ & _ & Hi)|[-> Hi]]]; simpl in *; subst items;
    [change (0 <? 0) with false|change (-1 <? 0) with true]; simpl; by exists cap.
Qed.

Lemma select_body_written res body :
  res_encoded_body res = None → res_dyn_body res = None →
  select_body (set_res_body_len (zlen body) (set_res_body (write_cstr body (res_body res)) res)) = body.
Proof. intros He Hd. unfold select_body. simpl. rewrite He, Hd. apply ztake_write_cstr. Qed.

(** A body answer either sets the status, a body that is exactly the given bytes
    and one [Content-Type] field behind the present ones, or reports failure with
    status and body as they were. *)
Lemma http_res_body_spec res status content_type body w :
  response_ok res → res_encoded_body res = None →
  let '(rc, res') := result (http_res_body res status (Some content_type) (Some body) (zlen body)) w in
  (rc = 0 ∧ is_valid_status_code status = true ∧ res_status res' = status ∧ select_body res' = body ∧
   hs_items (res_headers res') = hs_items (res_headers res)
     ++ [{| h_key := str "Content-Type"; h_value := content_type |}])
  ∨ (rc = -1 ∧ res_status res' = res_status res ∧ select_body res' = select_body res).
Proof.
  intros Hok He. unfold http_res_body. case_if; [by right|]. breflect.
  unfold result. rewrite bind_run.
  pose proof (http_set_res_header_spec res (str "Content-Type") content_type w Hok) as Hset.
  destruct (result (http_set_res_header _ _ _) w) as [[] res1]; destruct Hset as [cap ->].
  - change (default [] (Some body)) with body. rewrite ztake_all by lia. case_if; breflect.
    + left. cbn [fst mret M_ret]. split_and!; try done.
      unfold select_body. simpl. rewrite He. apply ztake_write_cstr.
    + rewrite bind_run. destruct (result malloc _); simpl; [left|right; done].
      split_and!; try done. unfold select_body. simpl. by rewrite He.
  - by right.
Qed.

(** ** Cookies *)

Lemma append_bounded_Some size buf text out :
  append_bounded size buf text = Some out → out = buf ++ text ∧ zlen out < size.
Proof. unfold append_bounded. case_if; [done|]. intros [= <-]. breflect. split; [done|]. rewrite zlen_app. lia. Qed.

(** A cookie is only ever written as name=value followed by the library's
    attributes, with no separator smuggled in through the name or the value, and
    shorter than 512 bytes. *)
Lemma cookie_text_spec name value max_age http_only cookie :
  cookie_text name value max_age http_only = Some cookie →
  name ≠ [] ∧ ¬ (";"%ch ∈ name) ∧ ¬ ("="%ch ∈ name) ∧ ¬ (";"%ch ∈ value) ∧
  cookie = name ++ str "=" ++ value ++ str "; Path=/"
    ++ (if 0 <? max_age then str "; Max-Age=" ++ fmt_u max_age else [])
    ++ (if http_only then str "; HttpOnly" else []) ∧ zlen cookie < 512.
Proof.
  unfold cookie_text. case_if; [done|]. case_if; [done|]. breflect.
  assert (name ≠ []) as Hne by (intros ->; done).
  assert (∀ c, c ∈ str ";= " → ¬ (c ∈ name)) as Hn.
  { intros c Hc Hin.
    match goal with H : existsb _ name = false |- _ => rename H into He end.
    assert (existsb (λ c, has_chr c (str ";= ") || (c =? HT)) name = true); [|congruence].
    apply existsb_exists. exists c. split; [by apply list_elem_of_In|].
    apply orb_true_iff. left. by apply has_chr_true. }
  intros Hc. apply bind_Some in Hc as (c1 & H1 & Hc). apply bind_Some in Hc as (c2 & H2 & Hc).
  apply append_bounded_Some in H1 as [-> Hl1].
  split; [done|]. split; [by apply Hn, has_chr_true|]. split; [by apply Hn, has_chr_true|]. split; [|split].
  - unfold strchr_found in Heqb0. breflect. by apply has_chr_false.
  - assert (c2 = name ++ str "=" ++ value ++ str "; Path=/"
                 ++ (if 0 <? max_age then str "; Max-Age=" ++ fmt_u max_age else [])) as ->.
    { destruct (0 <? max_age).
      - apply append_bounded_Some in H2 as [-> _]. by rewrite <- !app_assoc.
      - injection H2 as <-. do 3 f_equal. }
    destruct http_only.
    + apply append_bounded_Some in Hc as [-> _]. by rewrite <- !app_assoc.
    + injection Hc as <-. do 4 f_equal. by rewrite app_nil_r.
  - destruct http_only; [by apply append_bounded_Some in Hc as [_ ?]|injection Hc as <-].
    destruct (0 <? max_age); [by apply append_bounded_Some in H2 as [_ ?]|by injection H2 as <-].
Qed.

(** The cookie buffer takes more than the line buffer of [send_res]: a cookie
    that [http_res_cookie] accepts can still be cut on the wire. *)
Lemma cookie_too_long_for_line :
  ∃ value cookie, cookie_text (str "sid") value 0 false = Some cookie ∧
    zlen (hdr_line {| h_key := str "Set-Cookie"; h_value := cookie |}) = 511 ∧
    ¬ (LF ∈ hdr_line {| h_key := str "Set-Cookie"; h_value := cookie |}).
Proof.
  exists (replicate 499 "v"%ch). eexists. split; [by vm_compute|]. split; [by vm_compute|].
  match goal with |- ¬ (LF ∈ ?l) => assert (header_value_has_injection l = false) as H end.
  { by vm_compute. }
  by apply header_value_has_injection_false in H as [_ H].
Qed.

(** ** The whole response, and the helpers together *)

(** What [send_res] makes of a status it does not know. *)
Definition known_status (res : HttpResponse) : HttpResponse :=
  if is_valid_status_code (res_status res) then res
  else set_res_status HTTP_STATUS_INTERNAL_SERVER_ERROR res.

Lemma known_status_valid res : is_valid_status_code (res_status (known_status res)) = true.
Proof. unfold known_status. by case_if. Qed.

Lemma known_status_headers res : res_headers (known_status res) = res_headers res.
Proof. unfold known_status. by case_if. Qed.



(** What a handler may do to its response through the library. *)
Inductive helper_step : HttpResponse → HttpResponse → Prop :=
  | help_header res key value w :
      helper_step res (result (http_set_res_header res key value) w).2
  | help_json res status body w : helper_step res (result (http_res_json res status body) w).2
  | help_body res status content_type body w :
      helper_step res (result (http_res_body res status content_type body (zlen (default [] body))) w).2
  | help_redirect res status location w :
      helper_step res (result (http_res_redirect res status location) w).2
  | help_cookie res name value max_age http_only w :
      helper_step res (result (http_res_cookie res name value max_age http_only) w).2
  | help_local res key value : helper_step res (http_set_local res (Some key) (Some value)).2
  | help_error res status message : helper_step res (http_error res status message)
  | help_defaults res server_name keep_alive w :
      helper_step res (result (apply_default_headers res server_name keep_alive) w).

Lemma apply_headers_ok l res w : response_ok res → response_ok (result (apply_headers l res) w).
Proof.
  revert res w. induction l as [|[k v] l IH]; intros res w H; [done|]. cbn [apply_headers].
  unfold result. rewrite bind_run. unfold world, result.
  pose proof (apply_header_ok (res_headers res) k v w (rok_headers _ H)) as H'. unfold result in H'.
  destruct (apply_header _ _ _ w) as [[rc hs] w']. cbn [fst snd] in *.
  apply IH. destruct H. by split.
Qed.

Lemma helper_step_ok res res' : helper_step res res' → response_ok res → response_ok res'.
Proof.
  intros [] H; auto using http_set_res_header_ok, http_res_json_ok, http_res_body_ok,
    http_res_redirect_ok, http_res_cookie_ok, http_error_ok.
  - pose proof (http_set_local_spec res0 key value H) as Hs.
    destruct (http_set_local _ _ _). apply Hs.
  - unfold apply_default_headers. unfold result. rewrite bind_run. by apply apply_headers_ok.
Qed.

(** C6: a response built from the empty one through the library's helpers, in any
    order and with any arguments, has only safe header fields and every buffer and
    count within its array. *)
Theorem helpers_response_ok res : rtc helper_step empty_response res → response_ok res.
Proof.
  intros H. apply (rtc_ind_r (R := helper_step) response_ok empty_response);
    [apply response_ok_empty| |done].
  eauto using helper_step_ok.
Qed.

Lemma helpers_response_ok_witness :
  response_ok (http_error
    (result (http_res_json empty_response 200 (Some (str "{}"))) quiet_world).2 404 None).
Proof.
  apply helpers_response_ok. eapply rtc_l; [|apply rtc_once].
  - apply help_json.
  - apply help_error.
Defined.

