(* ===== verification/SendFile.v ===== *)
(** * Sending a file without [sendfile]

    The portable [send_fd] of [src/c_http.c], compiled where [sendfile] is not
    available: a loop of [read] and [send_all].  It keeps the contract of the
    Linux version in [Response], and where nothing fails they send the same. *)

From S2P Require Import Prelude CLib World Net Response.
#[local] Open Scope Z_scope.

(** ** The code *)

(** What the next [read] on the file does: at most this many bytes (0 at the end
    of the file), or -1 with [EINTR] or another error.  None left: all that is
    asked for and there. *)
Inductive ReadEvent := DUpTo (n : Z) | DIntr | DError.

Definition SEND_BUFFER : Z := 64 * 1024.

(** What [read(fd, buf, want)] finds. *)
Definition read_bytes (events : list ReadEvent) (data : bytes) (want : Z) : bytes :=
  match events with
  | DUpTo n :: _ => ztake (Z.min n want) data
  | _ => ztake want data
  end.

(** The loop behind the descriptor's offset; a round uses up a read event or
    some of what remains. *)
Fixpoint send_fd_read_loop (fuel : nat) (events : list ReadEvent) (data : bytes) (remaining : Z) : M Z :=
  if remaining <=? 0 then mret 0
  else
    match fuel with
    | O => mret (-1)
    | S fuel =>
        match events with
        | DIntr :: events => send_fd_read_loop fuel events data remaining
        | DError :: _ => mret (-1)
        | _ =>
            let buf := read_bytes events data (Z.min remaining SEND_BUFFER) in
            if zlen buf =? 0 then mret (-1)
            else
              rc ← send_all buf;
              if negb (rc =? 0) then mret (-1)
              else send_fd_read_loop fuel (tail events) (zdrop (zlen buf) data) (remaining - zlen buf)
        end
    end.

Definition read_fuel (events : list ReadEvent) (size : Z) : nat := length events + Z.to_nat size.

Definition send_fd_portable (events : list ReadEvent) (file_fd : option OpenFile) (start size : Z) : M Z :=
  match file_fd with
  | None => mret (if (0 <? start) || (0 <? size) then -1 else 0)
  | Some f =>
      send_fd_read_loop (read_fuel events size) events
        (if 0 <? start then zdrop start (of_data f) else of_data f) size
  end.

(** ** The contract of [send_fd] *)

(** Exactly [size] bytes of [data], or a failure behind a prefix of them. *)
Definition streams (data : bytes) (size : Z) (m : M Z) : Prop := ∀ w,
  let '(rc, w') := m w in
  (rc = 0 ∧ size <= zlen data ∧ w_sent w' = w_sent w ++ ztake size data) ∨
  (rc = -1 ∧ ∃ out rest, ztake size data = out ++ rest ∧ w_sent w' = w_sent w ++ out).

Lemma streams_end data : streams data 0 (mret 0).
Proof. intros w. left. cbn. split; [done|]. split; [apply zlen_nonneg|]. by rewrite app_nil_r. Qed.

Lemma streams_fail data size : streams data size (mret (-1)).
Proof. intros w. right. split; [done|]. exists [], (ztake size data). by rewrite app_nil_r. Qed.

(** A chunk in front of a stream. *)
Lemma streams_chunk data size buf (m : M Z) :
  zlen buf <= size → ztake (zlen buf) data = buf →
  streams (zdrop (zlen buf) data) (size - zlen buf) m →
  streams data size (rc ← send_all buf; if negb (rc =? 0) then mret (-1) else m).
Proof.
  intros Hle Hbuf Hm w. rewrite bind_run. pose proof (send_all_spec buf w) as Hs. unfold result, world.
  pose proof (zlen_nonneg buf).
  assert (ztake size data = buf ++ ztake (size - zlen buf) (zdrop (zlen buf) data)) as Hcut
    by (by rewrite (ztake_split (zlen buf) size), Hbuf by lia).
  destruct (send_all buf w) as [rc w1]. cbn [fst snd].
  destruct Hs as (_ & _ & [(-> & Hsent)|(-> & out & rest & Hb & Hsent)]).
  - change (negb (0 =? 0)) with false. cbn iota. specialize (Hm w1).
    destruct (m w1) as [rc w2]. destruct Hm as [(-> & Hl & H2)|(-> & out & rest & Hr & H2)].
    + left. split; [done|]. split.
      * destruct (Z.le_gt_cases (zlen buf) (zlen data)); [rewrite zlen_zdrop in Hl by lia; lia|].
        exfalso. rewrite <- Hbuf in H0. pose proof (zlen_ztake (zlen buf) data ltac:(lia)). lia.
      * by rewrite H2, Hsent, Hcut, <- app_assoc.
    + right. split; [done|]. exists (buf ++ out), rest. split; [by rewrite Hcut, Hr, app_assoc|].
      by rewrite H2, Hsent, <- app_assoc.
  - right. split; [done|]. exists out, (rest ++ ztake (size - zlen buf) (zdrop (zlen buf) data)).
    split; [by rewrite Hcut, Hb, app_assoc|done].
Qed.

(** What a read finds is the front of the file, no longer than asked for. *)
Lemma read_bytes_front events data want :
  0 <= want → zlen (read_bytes events data want) <= want ∧
  ztake (zlen (read_bytes events data want)) data = read_bytes events data want.
Proof.
  intros Hw. unfold read_bytes. destruct events as [|[n| |] events]; rewrite ztake_zlen;
    (split; [|done]); try (rewrite zlen_ztake by lia; lia).
  destruct (Z.le_gt_cases 0 n); [rewrite zlen_ztake by lia; lia|].
  unfold ztake, zlen. rewrite length_take. lia.
Qed.

Lemma send_fd_read_loop_streams fuel events data remaining :
  0 <= remaining → streams data remaining (send_fd_read_loop fuel events data remaining).
Proof.
  revert events data remaining.
  induction fuel as [|fuel IH]; intros events data remaining Hr; cbn [send_fd_read_loop];
    (destruct (Z.leb_spec remaining 0); [replace remaining with 0 by lia; apply streams_end|]);
    [apply streams_fail|].
  set (want := Z.min remaining SEND_BUFFER).
  assert (0 <= want <= remaining) as Hw by (unfold want, SEND_BUFFER; lia).
  destruct (read_bytes_front events data want) as [Hle Hf]; [lia|].
  destruct events as [|[n| |] events]; [| |by apply IH|apply streams_fail];
    (case_if; [apply streams_fail|]); (apply streams_chunk; [lia|exact Hf|]); apply IH; lia.
Qed.

(** ** Where nothing fails *)

Definition reads_on (e : ReadEvent) : Prop :=
  match e with DUpTo n => 0 < n | DIntr => True | DError => False end.

Lemma send_fd_read_loop_quiet fuel events data remaining w :
  w_send w = [] → Forall reads_on events → 0 <= remaining <= zlen data →
  (length events + Z.to_nat remaining ≤ fuel)%nat →
  send_fd_read_loop fuel events data remaining w
  = (0, if remaining =? 0 then w else with_send [] (w_sent w ++ ztake remaining data) w).
Proof.
  revert events data remaining w.
  induction fuel as [|fuel IH]; intros events data remaining w Hs He Hr Hf; cbn [send_fd_read_loop].
  { assert (remaining = 0) as -> by lia. done. }
  destruct (Z.leb_spec remaining 0); [by replace remaining with 0 by lia|].
  set (want := Z.min remaining SEND_BUFFER).
  assert (0 < want <= remaining) as Hw by (unfold want, SEND_BUFFER; lia).
  destruct (read_bytes_front events data want) as [Hle Hfr]; [lia|].
  assert (∀ rest, Forall reads_on rest → (length rest ≤ length events)%nat →
    zlen (read_bytes events data want) ≠ 0 →
    (rc ← send_all (read_bytes events data want);
     if negb (rc =? 0) then mret (-1)
     else send_fd_read_loop fuel rest (zdrop (zlen (read_bytes events data want)) data)
            (remaining - zlen (read_bytes events data want))) w
    = (0, if remaining =? 0 then w else with_send [] (w_sent w ++ ztake remaining data) w)) as Hnext.
  { set (buf := read_bytes events data want) in *. intros rest Hrest Hlen Hne.
    pose proof (zlen_nonneg buf). rewrite bind_run. unfold result, world.
    rewrite send_all_quiet by done. cbn [fst snd]. change (negb (0 =? 0)) with false. cbn iota.
    rewrite IH; [|done|done|rewrite zlen_zdrop by lia; lia|lia].
    rewrite (proj2 (Z.eqb_neq remaining 0)) by lia.
    rewrite (ztake_split (zlen buf) remaining), Hfr by lia.
    destruct (Z.eqb_spec (remaining - zlen buf) 0) as [->|]; [by rewrite app_nil_r|].
    cbn [with_send w_sent]. by rewrite app_assoc. }
  destruct events as [|[n| |] events].
  - cbn [tail]. rewrite (proj2 (Z.eqb_neq _ 0)); [apply Hnext; [done|cbn; lia|]|];
      cbn [read_bytes]; rewrite zlen_ztake by lia; lia.
  - apply Forall_cons in He as [Hn He]. cbn [reads_on] in Hn. cbn [tail].
    rewrite (proj2 (Z.eqb_neq _ 0)); [apply Hnext; [done|cbn; lia|]|];
      cbn [read_bytes]; rewrite zlen_ztake by lia; lia.
  - apply Forall_cons in He as [_ He]. apply IH; [done|done|lia|cbn in Hf; lia].
  - apply Forall_cons in He as [[] _].
Qed.

(** C28: both versions of [send_fd] keep one contract - success sends exactly the bytes promised,
    a failure comes behind a prefix of them - whatever reads and sends do; and where nothing fails and the file
    holds the bytes, they do the same. *)
Theorem send_fd_platforms events f start size :
  0 <= start → 0 <= size →
  let data := zdrop start (of_data f) in
  streams data size (send_fd (Some f) start size) ∧
  streams data size (send_fd_portable events (Some f) start size) ∧
  ∀ w, w_send w = [] → Forall reads_on events → size <= zlen data →
    w_sent (world (send_fd_portable events (Some f) start size) w)
      = w_sent (world (send_fd (Some f) start size) w) ∧
    result (send_fd_portable events (Some f) start size) w = 0 ∧
    result (send_fd (Some f) start size) w = 0.
Proof.
  intros Hst Hs data. unfold data.
  assert ((if 0 <? start then zdrop start (of_data f) else of_data f) = zdrop start (of_data f)) as E.
  { case_if; breflect; [done|]. by replace start with 0 by lia. }
  split; [|split].
  - intros w. pose proof (send_fd_spec f start size w Hst Hs) as H.
    destruct (send_fd (Some f) start size w) as [rc w']. destruct H as [(-> & H & Hl)|H]; [left|by right].
    split; [done|]. split; [|done]. rewrite <- Hl. unfold zlen, ztake. rewrite length_take. lia.
  - unfold send_fd_portable. rewrite E. by apply send_fd_read_loop_streams.
  - intros w Hw He Hl. unfold result, world. rewrite send_fd_quiet by done.
    unfold send_fd_portable. rewrite E. rewrite send_fd_read_loop_quiet by (done || unfold read_fuel; lia).
    cbn [fst snd with_send w_sent]. split; [|done]. case_if; [|done]. breflect. subst size.
    by rewrite app_nil_r.
Qed.

Lemma send_fd_platforms_witness :
  let f := {| of_stat := {| st_kind := FRegular; st_size := 5; st_mtime := 0 |}; of_data := str "hello" |} in
  w_sent (world (send_fd_portable [DUpTo 2; DIntr; DUpTo 1] (Some f) 1 4) quiet_world)
  = w_sent (world (send_fd (Some f) 1 4) quiet_world).
Proof.
  intros f. destruct (send_fd_platforms [DUpTo 2; DIntr; DUpTo 1] f 1 4 ltac:(lia) ltac:(lia)) as (_ & _ & H).
  destruct (H quiet_world) as [E _]; [reflexivity| |vm_compute; congruence|exact E].
  repeat constructor.
Defined.
