(* ===== verification/Encoder.v ===== *)
(** * Response compression

    [src/c_http_encoder.c]: the q-value parser, [http_accepts_encoding], the
    encoder table and [http_encode_body].  [deflate] is zlib's, a parameter. *)

From S2P Require Import Prelude CLib World Strtod Types Validate Headers Request Response.
#[local] Open Scope Z_scope.

(** ** Encoders *)

Section Encoders.
(** What zlib answers for a buffer: [None] when [deflateInit2] fails or the
    stream does not end, otherwise the compressed bytes. *)
Context (zlib_init : bool) (deflate : bytes → option bytes).

Definition gzip_encode (input : bytes) : M (option bytes) :=
  if negb zlib_init then mret None
  else
    ok ← malloc;
    if negb ok then mret None
    else mret (deflate (ztake (zlen input mod 2 ^ 32) input)).

Definition http_gzip_encoder : HttpEncoder :=
  {| enc_name := str "gzip"; enc_encode := gzip_encode |}.
End Encoders.

Definition identity_encode (input : bytes) : M (option bytes) :=
  ok ← malloc; mret (if (ok : bool) then Some input else None).

Definition http_identity_encoder : HttpEncoder :=
  {| enc_name := str "identity"; enc_encode := identity_encode |}.

Definition http_register_encoder (encoders : HttpEncoders) (encoder : HttpEncoder)
  : M (HttpEncoderAddResult * HttpEncoders) :=
  let append es := (HTTP_ENCODER_ADD_OK,
    {| es_encoders := es_encoders es ++ [encoder]; es_capacity := es_capacity es |}) in
  if zlen (es_encoders encoders) =? es_capacity encoders then
    let new_cap := if es_capacity encoders =? 0 then 4 else es_capacity encoders * 2 in
    ok ← malloc;
    if negb ok then mret (HTTP_ENCODER_ADD_ERROR, encoders)
    else mret (append {| es_encoders := es_encoders encoders; es_capacity := new_cap |})
  else mret (append encoders).

(** ** Content negotiation *)

Definition not_comma_semi (c : Z) : bool := negb (c =? ","%ch) && negb (c =? ";"%ch).
Definition not_semi (c : Z) : bool := negb (c =? ";"%ch).

(** The value a [q=] parameter sets; [q] when the text is no number. *)
Definition q_param (p : bytes) (q : Z) : Z :=
  match p with
  | c :: e :: r =>
      if ((c =? "q"%ch) || (c =? "Q"%ch)) && (e =? "="%ch) then
        match strtod r with
        | Some v =>
            if d_ge_0 v then match v with DFin u => Z.min u DONE | _ => DONE end else Z.min q DONE
        | None => Z.min q DONE
        end
      else q
  | _ => q
  end.

(** One round per [';']; q-values are units of [2^-1074]. *)
Fixpoint parse_q_loop (fuel : nat) (p : bytes) (q : Z) : Z * bytes :=
  match fuel, p with
  | S fuel, c :: r =>
      if c =? ";"%ch then
        let r := skip_while is_ows r in
        parse_q_loop fuel (skip_while not_comma_semi r) (q_param r q)
      else (q, p)
  | _, _ => (q, p)
  end.

Definition parse_q (p : bytes) : Z * bytes := parse_q_loop (length p) p DONE.

Record AcceptState := {
  specific_found : bool; specific_ok : bool; wildcard_found : bool; wildcard_q : Z }.

Definition accept_init : AcceptState :=
  {| specific_found := false; specific_ok := false; wildcard_found := false; wildcard_q := 0 |}.

(** One element of the list: its coding name and q-value. *)
Definition accept_element (encoding name : bytes) (q : Z) (st : AcceptState) : AcceptState :=
  let wildcard := (zlen name =? 1) && (deref name =? "*"%ch) in
  let matches := wildcard || ((zlen name =? zlen encoding) && starts_with_ci name encoding) in
  if wildcard then
    {| specific_found := specific_found st; specific_ok := specific_ok st; wildcard_found := true;
       wildcard_q := if wildcard_q st <? q then q else wildcard_q st |}
  else if matches then
    {| specific_found := true; specific_ok := specific_ok st || (0 <? q);
       wildcard_found := wildcard_found st; wildcard_q := wildcard_q st |}
  else st.

(** The list in one header value, a round per element. *)
Fixpoint accept_loop (fuel : nat) (p encoding : bytes) (st : AcceptState) : AcceptState :=
  match fuel, p with
  | O, _ | _, [] => st
  | S fuel, _ =>
      match skip_while is_ows_or_comma p with
      | [] => st
      | p =>
          let '(name, p) := span not_comma_semi p in
          let name := rtrim is_ows name in
          let '(q, p) := if deref p =? ";"%ch then parse_q p else (DONE, p) in
          let st := accept_element encoding name q st in
          match skip_while not_comma p with
          | [] => st
          | _ :: p => accept_loop fuel p encoding st
          end
      end
  end.

Fixpoint accept_headers (items : list HttpHeader) (encoding : bytes) (st : AcceptState)
  : AcceptState :=
  match items with
  | [] => st
  | h :: items =>
      accept_headers items encoding
        (if strcaseeq (h_key h) (str "Accept-Encoding")
         then accept_loop (length (h_value h)) (h_value h) encoding st else st)
  end.

Definition http_accepts_encoding (req : HttpRequest) (encoding : bytes) : bool :=
  if deref encoding =? NUL then false
  else
    let st := accept_headers (hs_items (req_headers req)) encoding accept_init in
    if specific_found st then specific_ok st else wildcard_found st && (0 <? wildcard_q st).

(** ** Encoding a response *)

Fixpoint try_encoders (encoders : list HttpEncoder) (req : HttpRequest) (src : bytes)
    (res : HttpResponse) : M (bool * HttpResponse) :=
  match encoders with
  | [] => mret (false, res)
  | e :: encoders =>
      if negb (http_accepts_encoding req (enc_name e)) then try_encoders encoders req src res
      else
        encoded ← enc_encode e src;
        match encoded with
        | None => try_encoders encoders req src res
        | Some encoded =>
            if zlen src <=? zlen encoded then try_encoders encoders req src res
            else
              '(_, res) ← http_set_res_header (set_res_encoded_body (Some encoded) res)
                            (str "Content-Encoding") (enc_name e);
              mret (true, res)
        end
  end.

Definition http_encode_body (encoders : HttpEncoders) (req : HttpRequest) (res : HttpResponse)
  : M (bool * HttpResponse) :=
  let src := match res_dyn_body res with
             | Some b => b | None => ztake (res_body_len res) (res_body res) end in
  if (zlen src =? 0) || bool_decide (res_encoded_body res ≠ None) then mret (false, res)
  else if has_header (hs_items (res_headers res)) (str "Content-Encoding") then mret (false, res)
  else try_encoders (es_encoders encoders) req src res.

(** ** The list syntax behind the scanner *)

(** An element: the coding before the first [';'], and the q-value of the
    parameters behind it. *)
Definition ae_element (e : bytes) : bytes * Z :=
  let '(name, r) := span not_semi e in (rtrim is_ows name, (parse_q r).1).

Definition is_nonempty (e : bytes) : bool := negb (zlen e =? 0).

Definition ae_elements (value : bytes) : list (bytes * Z) :=
  map ae_element (List.filter is_nonempty (map (skip_while is_ows) (split_on ","%ch value))).

(** The end of the string, or the comma before the next element. *)
Definition sep (t : bytes) : Prop := t = [] ∨ ∃ b, t = ","%ch :: b.
Definition comma_free (a : bytes) : Prop := Forall (λ c, not_comma c = true) a.

Lemma strtod_sep a t : sep t → strtod (a ++ t) = strtod a.
Proof. intros [->|[b ->]]; [by rewrite app_nil_r|apply strtod_app]. Qed.

Lemma span_sep P a t :
  P ","%ch = false → sep t → span P (a ++ t) = ((span P a).1, (span P a).2 ++ t).
Proof.
  intros Hc [->|[b ->]]; [|by apply span_app_sep].
  rewrite !app_nil_r. by destruct (span P a).
Qed.

Lemma skip_while_sep P a t : P ","%ch = false → sep t → skip_while P (a ++ t) = skip_while P a ++ t.
Proof. intros Hc Ht. unfold skip_while. by rewrite span_sep. Qed.

Lemma comma_free_skip P a : comma_free a → comma_free (skip_while P a).
Proof.
  intros H. destruct (skip_while_suffix P a) as [x Hx]. unfold comma_free in *.
  rewrite Hx in H. by apply Forall_app in H as [_ ?].
Qed.

Lemma q_param_sep a t q : sep t → q_param (a ++ t) q = q_param a q.
Proof.
  intros Ht. destruct a as [|c [|e a]].
  - destruct Ht as [->|[b ->]]; [done|]. simpl. destruct b; done.
  - destruct Ht as [->|[b ->]]; [done|]. simpl. by rewrite andb_false_r.
  - simpl. by rewrite strtod_sep.
Qed.

Lemma parse_q_loop_sep fuel fuel' a t q :
  comma_free a → sep t → (length a ≤ fuel)%nat → (length a ≤ fuel')%nat →
  parse_q_loop fuel (a ++ t) q
    = ((parse_q_loop fuel' a q).1, (parse_q_loop fuel' a q).2 ++ t) ∧
  comma_free (parse_q_loop fuel' a q).2.
Proof.
  revert fuel' a q. induction fuel as [|fuel IH]; intros fuel' a q Ha Ht Hl Hl'.
  { destruct a; [|simpl in Hl; lia]. simpl. destruct fuel', t; done. }
  destruct a as [|c a].
  { destruct Ht as [->|[b ->]]; simpl; by destruct fuel'. }
  destruct fuel' as [|fuel']; [simpl in Hl'; lia|]. simpl.
  destruct (c =? ";"%ch); [|done].
  pose proof Ha as Ha'. apply Forall_cons in Ha' as [_ Ha'].
  rewrite skip_while_sep, q_param_sep, skip_while_sep by done.
  pose proof (skip_while_length not_comma_semi (skip_while is_ows a)).
  pose proof (skip_while_length is_ows a). simpl in Hl, Hl'.
  apply IH; [|done|lia..]. by apply comma_free_skip, comma_free_skip.
Qed.

Lemma parse_q_sep a t :
  comma_free a → sep t →
  parse_q (a ++ t) = ((parse_q a).1, (parse_q a).2 ++ t) ∧ comma_free (parse_q a).2.
Proof. intros Ha Ht. apply parse_q_loop_sep; [done..|rewrite length_app; lia|lia]. Qed.

Lemma span_not_semi_comma_free a :
  comma_free a → span not_comma_semi a = span not_semi a.
Proof.
  induction a as [|c a IH]; intros H; [done|]. apply Forall_cons in H as [Hc H]. simpl.
  rewrite (IH H). unfold not_comma_semi, not_comma in *. by rewrite Hc.
Qed.

Lemma ae_elements_skip c s : is_ows_or_comma c = true → ae_elements (c :: s) = ae_elements s.
Proof.
  intros Hc. unfold ae_elements. simpl. case_if; [done|].
  destruct (split_on ","%ch s) as [|h t] eqn:E; [by apply split_on_not_nil in E|].
  assert (skip_while is_ows (c :: h) = skip_while is_ows h) as Hsk.
  { unfold skip_while. simpl. unfold is_ows_or_comma in Hc. rewrite Heqb, orb_false_r in Hc.
    change (is_ows c = true) in Hc. rewrite Hc. by destruct (span is_ows h). }
  cbn [map]. by rewrite Hsk.
Qed.

Lemma ae_elements_skip_while s : ae_elements (skip_while is_ows_or_comma s) = ae_elements s.
Proof.
  induction s as [|c s IH]; [done|]. unfold skip_while in *. simpl.
  destruct (is_ows_or_comma c) eqn:E; [|done]. rewrite (ae_elements_skip c s E), <- IH.
  by destruct (span is_ows_or_comma s).
Qed.

(** An element that starts the text, up to its comma. *)
Lemma ae_elements_step a t c r :
  comma_free a → sep t → a = c :: r → is_ows c = false →
  ae_elements (a ++ t) = ae_element a :: ae_elements (tail t).
Proof.
  intros Ha Ht Hac Hc. unfold ae_elements.
  assert (span not_comma (a ++ t) = (a, t)) as Hs.
  { rewrite span_sep, span_all by done. done. }
  rewrite (split_on_span _ _ _ Hs).
  assert (skip_while is_ows a = a) as Hsk by (subst a; by apply skip_while_id).
  assert (is_nonempty a = true) as Hn.
  { subst a. unfold is_nonempty. apply negb_true_iff, Z.eqb_neq. zlen_lia. }
  destruct Ht as [->|[b ->]]; simpl; by rewrite Hsk, Hn.
Qed.

Lemma accept_loop_spec fuel p encoding st :
  (length p ≤ fuel)%nat →
  accept_loop fuel p encoding st
  = fold_left (λ st e, accept_element encoding e.1 e.2 st) (ae_elements p) st.
Proof.
  revert p st. induction fuel as [|fuel IH]; intros p st Hl.
  { destruct p; [done|simpl in Hl; lia]. }
  destruct p as [|c0 p0] eqn:Ep; [done|]. rewrite <- Ep in *.
  rewrite <- (ae_elements_skip_while p). 
  pose proof (skip_while_length is_ows_or_comma p) as Hlen.
  subst p. cbn [accept_loop]. set (p := c0 :: p0) in *.
  destruct (skip_while_stop is_ows_or_comma p) as [->|(c & r & Hcr & Hc)]; [done|].
  rewrite Hcr in *. destruct (span not_comma (c :: r)) as [a t] eqn:Es.
  pose proof (span_forall _ _ _ _ Es) as Ha. pose proof (span_app _ _ _ _ Es) as Hat.
  assert (sep t) as Ht.
  { destruct (span_stop _ _ _ _ Es) as [->|(x & y & -> & Hx)]; [by left|right].
    unfold not_comma in Hx. breflect. subst x. eauto. }
  assert (∃ r', a = c :: r') as [r' Hac].
  { assert (not_comma c = true) as Hnc.
    { unfold is_ows_or_comma in Hc. unfold not_comma. breflect. by apply negb_true_iff, Z.eqb_neq. }
    simpl in Es. rewrite Hnc in Es. destruct (span not_comma r). injection Es as <- <-. eauto. }
  assert (is_ows c = false) as Hcw.
  { unfold is_ows_or_comma in Hc. unfold is_ows. breflect. by apply orb_false_iff; rewrite !Z.eqb_neq. }
  rewrite Hat. rewrite (ae_elements_step a t c r') by done. cbn [fold_left].
  rewrite span_sep by done. rewrite span_not_semi_comma_free by done. unfold ae_element.
  destruct (span not_semi a) as [name r0] eqn:En. cbn [fst snd].
  pose proof (span_app _ _ _ _ En) as Ha0.
  assert (comma_free r0) as Hr0.
  { unfold comma_free in *. rewrite Ha0 in Ha. by apply Forall_app in Ha as [_ ?]. }
  assert (length (tail t) ≤ fuel)%nat as Hlt.
  { rewrite Hat, length_app in Hlen. subst a. simpl in Hlen, Hl.
    destruct t; simpl in *; lia. }
  assert (∀ x q, comma_free x →
    match skip_while not_comma (x ++ t) with
    | [] => accept_element encoding (rtrim is_ows name) q st
    | _ :: p => accept_loop fuel p encoding (accept_element encoding (rtrim is_ows name) q st)
    end = fold_left (λ st e, accept_element encoding e.1 e.2 st) (ae_elements (tail t))
            (accept_element encoding (rtrim is_ows name) q st)) as Hrest.
  { intros x q Hx. rewrite skip_while_sep by done.
    assert (skip_while not_comma x = []) as -> by (unfold skip_while; by rewrite span_all).
    destruct Ht as [->|[b ->]]; [done|]. by apply IH. }
  destruct (span_stop _ _ _ _ En) as [->|(x & y & Hxy & Hx)].
  - rewrite app_nil_l. assert ((deref t =? ";"%ch) = false) as ->.
    { by destruct Ht as [->|[b ->]]. }
    apply (Hrest [] DONE). constructor.
  - assert ((deref (r0 ++ t) =? ";"%ch) = true) as ->.
    { subst r0. simpl. unfold not_semi in Hx. breflect. by subst x. }
    destruct (parse_q_sep r0 t Hr0 Ht) as [-> Hc2].
    by apply Hrest.
Qed.

(** ** [http_accepts_encoding] *)

(** Every element of every [Accept-Encoding] header, in order. *)
Definition accept_list (items : list HttpHeader) : list (bytes * Z) :=
  concat (map (λ h, if strcaseeq (h_key h) (str "Accept-Encoding") then ae_elements (h_value h)
                    else []) items).

Definition is_wildcard (e : bytes * Z) : bool := streq e.1 (str "*").
Definition names (encoding : bytes) (e : bytes * Z) : bool :=
  negb (is_wildcard e) && strcaseeq e.1 encoding.
Definition allowed (e : bytes * Z) : bool := 0 <? e.2.

Lemma accept_headers_spec items encoding st :
  accept_headers items encoding st
  = fold_left (λ st e, accept_element encoding e.1 e.2 st) (accept_list items) st.
Proof.
  revert st. induction items as [|h items IH]; intros st; [done|].
  unfold accept_list in *. cbn [accept_headers map concat]. rewrite fold_left_app, IH.
  case_if; [|done]. by rewrite accept_loop_spec.
Qed.

Lemma wildcard_test name : (zlen name =? 1) && (deref name =? "*"%ch) = streq name (str "*").
Proof.
  destruct name as [|c [|d name]]; [done| |].
  - simpl. apply eq_true_iff_eq. rewrite streq_true, Z.eqb_eq. split; [by intros ->|by intros [= ->]].
  - assert ((zlen (c :: d :: name) =? 1) = false) as -> by (apply Z.eqb_neq; zlen_lia).
    symmetry. by apply streq_false.
Qed.

(** The four variables of the scan over a list of elements. *)
Definition accept_summary (encoding : bytes) (l : list (bytes * Z)) (st : AcceptState) : Prop :=
  specific_found st = existsb (names encoding) l ∧
  specific_ok st = existsb (λ e, names encoding e && allowed e) l ∧
  wildcard_found st = existsb is_wildcard l ∧
  0 <= wildcard_q st ∧
  (0 <? wildcard_q st) = existsb (λ e, is_wildcard e && allowed e) l.

Lemma accept_element_summary encoding l e st :
  accept_summary encoding l st →
  accept_summary encoding (l ++ [e]) (accept_element encoding e.1 e.2 st).
Proof.
  intros (H1 & H2 & H3 & H4 & H5). unfold accept_summary, accept_element.
  rewrite !existsb_app. simpl. rewrite !orb_false_r, wildcard_test.
  rewrite (Z.eqb_sym (zlen e.1)), token_test, (strcaseeq_sym encoding).
  unfold names, is_wildcard, allowed in *.
  destruct (streq e.1 (str "*")) eqn:Ew; cbn [orb negb andb].
  - cbn [specific_found specific_ok wildcard_found wildcard_q].
    rewrite !orb_false_r, orb_true_r, <- H5. split_and!; [done|done|done| |].
    + case_if; breflect; lia.
    + destruct (wildcard_q st <? e.2) eqn:E; breflect.
      * rewrite (proj2 (Z.ltb_lt 0 e.2)) by lia. by rewrite orb_true_r.
      * destruct (0 <? e.2) eqn:E0; breflect; [|by rewrite orb_false_r].
        rewrite (proj2 (Z.ltb_lt 0 _)) by lia. done.
  - destruct (strcaseeq e.1 encoding); cbn [specific_found specific_ok wildcard_found wildcard_q];
      rewrite ?orb_false_r, ?orb_true_r; split_and!; try done; by rewrite H2.
Qed.

Lemma accept_fold_summary encoding l l0 st :
  accept_summary encoding l0 st →
  accept_summary encoding (l0 ++ l) (fold_left (λ st e, accept_element encoding e.1 e.2 st) l st).
Proof.
  revert l0 st. induction l as [|e l IH]; intros l0 st H; simpl; [by rewrite app_nil_r|].
  replace (l0 ++ e :: l) with ((l0 ++ [e]) ++ l) by (by rewrite <- app_assoc).
  by apply IH, accept_element_summary.
Qed.

(** A content coding is acceptable when an [Accept-Encoding] element names it
    with a positive weight, or, when none names it, when a wildcard has a positive
    weight. *)
Lemma http_accepts_encoding_spec req encoding :
  encoding ≠ [] → deref encoding ≠ NUL →
  let l := accept_list (hs_items (req_headers req)) in
  http_accepts_encoding req encoding
  = if existsb (names encoding) l then existsb (λ e, names encoding e && allowed e) l
    else existsb (λ e, is_wildcard e && allowed e) l.
Proof.
  intros Hne Hd l. unfold http_accepts_encoding. rewrite (proj2 (Z.eqb_neq _ _) Hd).
  rewrite accept_headers_spec. fold l.
  assert (accept_summary encoding [] accept_init) as H0 by done.
  destruct (accept_fold_summary encoding l [] _ H0) as (H1 & H2 & H3 & _ & H5). simpl app in *.
  rewrite H1, H2, H3, H5. destruct (existsb (names encoding) l); [done|].
  destruct (existsb (λ e, is_wildcard e && allowed e) l) eqn:E; [|by rewrite andb_false_r].
  apply existsb_exists in E as (e & Hin & He). breflect.
  rewrite andb_true_r. apply existsb_exists. eauto.
Qed.

(** ** [http_encode_body] *)

Definition plain_body (res : HttpResponse) : bytes :=
  match res_dyn_body res with Some b => b | None => ztake (res_body_len res) (res_body res) end.

Lemma http_set_res_header_run res key value w :
  http_set_res_header res key value w
  = (let r := http_set_header (res_headers res) (Some key) (Some value) w in
     ((r.1.1, set_res_headers r.1.2 res), r.2)).
Proof.
  unfold http_set_res_header. rewrite bind_run. unfold result, world.
  by destruct (http_set_header _ _ _ w) as [[rc hs] w'].
Qed.

(** Encoding a body either changes nothing, or leaves the output of an encoder
    the client accepts that made the body smaller, with the status and the original
    body kept. *)
Lemma try_encoders_spec encoders req src res w :
  let '(b, res') := result (try_encoders encoders req src res) w in
  if b then
    ∃ e encoded w0, e ∈ encoders ∧ http_accepts_encoding req (enc_name e) = true ∧
      result (enc_encode e src) w0 = Some encoded ∧ zlen encoded < zlen src ∧
      res_encoded_body res' = Some encoded ∧ res_status res' = res_status res ∧
      res_body res' = res_body res ∧ res_dyn_body res' = res_dyn_body res ∧
      (headers_ok (res_headers res) → headers_ok (res_headers res'))
  else res' = res.
Proof.
  revert w. induction encoders as [|e encoders IH]; intros w; [done|].
  cbn [try_encoders].
  assert (∀ w, let '(b, res') := result (try_encoders encoders req src res) w in
    if b then
      ∃ e0 encoded w0, e0 ∈ e :: encoders ∧ http_accepts_encoding req (enc_name e0) = true ∧
        result (enc_encode e0 src) w0 = Some encoded ∧ zlen encoded < zlen src ∧
        res_encoded_body res' = Some encoded ∧ res_status res' = res_status res ∧
        res_body res' = res_body res ∧ res_dyn_body res' = res_dyn_body res ∧
        (headers_ok (res_headers res) → headers_ok (res_headers res'))
    else res' = res) as Hnext.
  { intros w'. specialize (IH w'). destruct (result _ w') as [[] res']; [|done].
    destruct IH as (e0 & enc & w0 & Hin & IH). exists e0, enc, w0. split; [by right|done]. }
  clear IH. case_if; [apply Hnext|]. breflect. unfold result. rewrite bind_run.
  destruct (result (enc_encode e src) w) as [encoded|] eqn:Ee; [|apply Hnext].
  case_if; [apply Hnext|]. breflect. clear Hnext.
  rewrite bind_run. unfold result, world. rewrite http_set_res_header_run. cbn [fst snd mret M_ret].
  exists e, encoded, w. split_and!; try done; [by left|].
  intros H. by apply (http_set_header_ok _ (Some _) (Some _)).
Qed.

(** When the allocator refuses the header, the body is compressed all the same
    and nothing says so. *)
Lemma encode_body_unlabelled encoder req res encoded w :
  http_accepts_encoding req (enc_name encoder) = true →
  plain_body res ≠ [] → res_encoded_body res = None →
  has_header (hs_items (res_headers res)) (str "Content-Encoding") = false →
  zlen (hs_items (res_headers res)) ≠ hs_capacity (res_headers res) →
  enc_encode encoder (plain_body res) w = (Some encoded, with_alloc [false] w) →
  zlen encoded < zlen (plain_body res) →
  let res' := (result (http_encode_body
    {| es_encoders := [encoder]; es_capacity := 4 |} req res) w).2 in
  select_body res' = encoded ∧ res_headers res' = res_headers res.
Proof.
  intros Ha Hp He Hh Hcap Henc Hl. unfold http_encode_body. fold (plain_body res).
  assert ((zlen (plain_body res) =? 0) = false) as ->.
  { apply Z.eqb_neq. intros H. by apply zlen_nil_inv in H. }
  rewrite He, Hh. rewrite bool_decide_false by (intros []; done). cbn [orb es_encoders try_encoders].
  rewrite Ha. cbn [negb]. unfold result. rewrite bind_run. unfold result, world. rewrite Henc.
  cbn [fst snd]. rewrite (proj2 (Z.leb_gt _ _)) by done.
  rewrite bind_run. unfold result, world, http_set_res_header. rewrite bind_run.
  unfold result, world, http_set_header. rewrite bind_run. unfold result, world, apply_header.
  destruct (is_valid_header_name (str "Content-Encoding")); [|done]. cbn [negb].
  destruct (header_value_has_injection (enc_name encoder)); [done|].
  unfold grow_headers. simpl. rewrite (proj2 (Z.eqb_neq _ _)) by done. done.
Qed.
