(* ===== verification/Accepts.v ===== *)
(** * Content negotiation on [Accept]

    [accepts_parse_q] and [http_req_accepts] of [src/c_http.c]: which of the
    offered media types the client likes best. *)

From S2P Require Import Prelude CLib Strtod Types Headers Encoder.
#[local] Open Scope Z_scope.

Definition not_semi_comma (c : Z) : bool := negb (c =? ";"%ch) && negb (c =? ","%ch).

(** The value a [q=] parameter sets: a number outside 0..1 is ignored. *)
Definition accepts_q_param (p : bytes) (q : Z) : Z :=
  match p with
  | c :: e :: r =>
      if ((c =? "q"%ch) || (c =? "Q"%ch)) && (e =? "="%ch) then
        match strtod r with
        | Some v => if d_ge_0 v && d_le_1 v then match v with DFin u => u | _ => q end else q
        | None => q
        end
      else q
  | _ => q
  end.

Fixpoint accepts_parse_q_loop (fuel : nat) (p : bytes) (q : Z) : Z * bytes :=
  match fuel, p with
  | S fuel, c :: r =>
      if c =? ";"%ch then
        let r := skip_while is_ows r in
        accepts_parse_q_loop fuel (skip_while not_semi_comma r) (accepts_q_param r q)
      else (q, p)
  | _, _ => (q, p)
  end.

(** q-values are units of [2^-1074]; a round eats a [';'], so the length of the
    text is fuel enough. *)
Definition accepts_parse_q (p : bytes) : Z * bytes := accepts_parse_q_loop (length p) p DONE.

Definition range_type_char (c : Z) : bool :=
  negb (c =? ","%ch) && negb (c =? "/"%ch) && negb (c =? ";"%ch).
Definition range_sub_char (c : Z) : bool := negb (c =? ","%ch) && negb (c =? ";"%ch).

Definition same_ci (a b : bytes) : bool := (zlen a =? zlen b) && starts_with_ci b a.
Definition is_star (a : bytes) : bool := (zlen a =? 1) && (deref a =? "*"%ch).

(** How well the range [rtype]/[rsub] fits the offer [type]/[sub]: 3 exact,
    2 subtype wildcard, 1 full wildcard, 0 not at all.  [rsub = None]: no slash. *)
Definition range_score (rtype : bytes) (rsub : option bytes) (type sub : bytes) : Z :=
  match rsub with
  | Some rsub =>
      let type_match := is_star rtype || same_ci rtype type in
      let sub_match := is_star rsub || same_ci rsub sub in
      if type_match && sub_match then
        if zlen rtype =? zlen type then (if zlen rsub =? zlen sub then 3 else 2) else 1
      else 0
  | None => if is_star rtype then 1 else 0
  end.

(** The score and the q of the best range so far. *)
Definition pick_range (rscore q_val : Z) (best : Z * Z) : Z * Z :=
  let '(score, q) := best in
  if (0 <? rscore) && (0 <? q_val) && ((score <? rscore) || ((rscore =? score) && (q <? q_val)))
  then (rscore, q_val) else best.

(** One header value; a round per element of the list. *)
Fixpoint accepts_loop (fuel : nat) (p type sub : bytes) (best : Z * Z) : Z * Z :=
  match fuel, p with
  | O, _ | _, [] => best
  | S fuel, _ =>
      match skip_while is_ows_or_comma p with
      | [] => best
      | p =>
          let '(rtype, p) := span range_type_char p in
          let '(rsub, p) := match p with
                            | c :: r => if c =? "/"%ch then let '(rsub, p) := span range_sub_char r in
                                                            (Some rsub, p)
                                        else (None, p)
                            | [] => (None, p)
                            end in
          let '(q_val, p) := accepts_parse_q p in
          let best := pick_range (range_score rtype rsub type sub) q_val best in
          match skip_while not_comma p with
          | [] => best
          | _ :: p => accepts_loop fuel p type sub best
          end
      end
  end.

Fixpoint accepts_headers (items : list HttpHeader) (type sub : bytes) (best : Z * Z) : Z * Z :=
  match items with
  | [] => best
  | h :: items =>
      accepts_headers items type sub
        (if strcaseeq (h_key h) (str "Accept")
         then accepts_loop (length (h_value h)) (h_value h) type sub best else best)
  end.

Definition has_accept (req : HttpRequest) : bool :=
  existsb (λ h, strcaseeq (h_key h) (str "Accept")) (hs_items (req_headers req)).

(** The winner so far: the type, its score and its q. *)
Fixpoint accepts_types (types : list bytes) (items : list HttpHeader)
    (best : option bytes * Z * Z) : option bytes * Z * Z :=
  match types with
  | [] => best
  | t :: types =>
      match split_chr "/"%ch t with
      | None => accepts_types types items best
      | Some (type, sub) =>
          let '(score, q) := accepts_headers items type sub (0, 0) in
          let '(best_type, best_score, best_q) := best in
          accepts_types types items
            (if (0 <? score) && (bool_decide (best_type = None) || (best_score <? score) ||
                                 ((score =? best_score) && (best_q <? q)))
             then (Some t, score, q) else best)
      end
  end.

(** [types] is the array up to its NULL. *)
Definition http_req_accepts (req : HttpRequest) (types : list bytes) : option bytes :=
  if negb (has_accept req) then List.find (λ t, has_chr "/"%ch t) types
  else (accepts_types types (hs_items (req_headers req)) (None, 0, 0)).1.1.

Definition accept_req (v : bytes) : HttpRequest :=
  set_req_headers {| hs_items := [{| h_key := str "Accept"; h_value := v |}]; hs_capacity := 16 |}
    empty_request.

Example accepts_examples :
  http_req_accepts (accept_req (str "text/html;q=0.5, application/json"))
    [str "text/html"; str "application/json"] = Some (str "application/json") ∧
  http_req_accepts (accept_req (str "text/*;q=0.5, */*;q=0.9"))
    [str "image/png"; str "text/html"] = Some (str "text/html") ∧
  http_req_accepts (accept_req (str "image/*")) [str "text/html"] = None ∧
  http_req_accepts empty_request [str "junk"; str "text/html"] = Some (str "text/html").
Proof. vm_compute. done. Qed.

(** A range with q=0 does not exclude its type when another range lets it in;
    a blank before the [';'] keeps an exact range from matching. *)
Example accepts_q0_not_excluded :
  http_req_accepts (accept_req (str "text/html;q=0, */*")) [str "text/html"] = Some (str "text/html").
Proof. vm_compute. done. Qed.

Example accepts_blank_before_semicolon :
  http_req_accepts (accept_req (str "text/html ;q=0.5")) [str "text/html"] = None.
Proof. vm_compute. done. Qed.

(** ** The media ranges of a request *)

Definition MediaRange : Type := bytes * option bytes * Z.

Fixpoint media_ranges_loop (fuel : nat) (p : bytes) : list MediaRange :=
  match fuel, p with
  | O, _ | _, [] => []
  | S fuel, _ =>
      match skip_while is_ows_or_comma p with
      | [] => []
      | p =>
          let '(rtype, p) := span range_type_char p in
          let '(rsub, p) := match p with
                            | c :: r => if c =? "/"%ch then let '(rsub, p) := span range_sub_char r in
                                                            (Some rsub, p)
                                        else (None, p)
                            | [] => (None, p)
                            end in
          let '(q_val, p) := accepts_parse_q p in
          (rtype, rsub, q_val) ::
          match skip_while not_comma p with
          | [] => []
          | _ :: p => media_ranges_loop fuel p
          end
      end
  end.

Definition media_ranges (req : HttpRequest) : list MediaRange :=
  concat (map (λ h, if strcaseeq (h_key h) (str "Accept")
                    then media_ranges_loop (length (h_value h)) (h_value h) else [])
              (hs_items (req_headers req))).

(** What a range gives an offer: a score and a q, both positive when it fits. *)
Definition fit (type sub : bytes) (r : MediaRange) : Z * Z :=
  (range_score r.1.1 r.1.2 type sub, r.2).
Definition fits (v : Z * Z) : Prop := 0 < v.1 ∧ 0 < v.2.

(** The order of the winner: score first, then q. *)
Definition better (v w : Z * Z) : Prop := w.1 < v.1 ∨ (v.1 = w.1 ∧ w.2 < v.2).

Lemma accepts_loop_fold fuel p type sub best :
  accepts_loop fuel p type sub best
  = fold_left (λ b r, pick_range (fit type sub r).1 (fit type sub r).2 b) (media_ranges_loop fuel p) best.
Proof.
  revert p best. induction fuel as [|fuel IH]; intros p best; [by destruct p|].
  destruct p as [|c p]; [done|]. cbn [accepts_loop media_ranges_loop].
  destruct (skip_while is_ows_or_comma (c :: p)) as [|d s]; [done|].
  destruct (span range_type_char (d :: s)) as [rtype p1].
  match goal with |- context [let '(rsub, p) := ?x in _] => destruct x as [rsub p2] end.
  destruct (accepts_parse_q p2) as [q p3]. destruct (skip_while not_comma p3) as [|e p4]; [done|].
  cbn [fold_left]. apply IH.
Qed.

Lemma accepts_headers_fold items type sub best :
  accepts_headers items type sub best
  = fold_left (λ b r, pick_range (fit type sub r).1 (fit type sub r).2 b)
      (concat (map (λ h, if strcaseeq (h_key h) (str "Accept")
                    then media_ranges_loop (length (h_value h)) (h_value h) else []) items)) best.
Proof.
  revert best. induction items as [|h items IH]; intros best; cbn [accepts_headers map concat]; [done|].
  rewrite fold_left_app, IH. case_if; [by rewrite accepts_loop_fold|done].
Qed.

(** [v] is the best of the candidates [l]: one of them, and beaten by none. *)
Definition best_of (l : list (Z * Z)) (v : Z * Z) : Prop :=
  ((v = (0, 0) ∧ Forall (λ w, ¬ fits w) l) ∨ (v ∈ l ∧ fits v)) ∧
  Forall (λ w, fits w → ¬ better w v) l.

Lemma pick_range_best l w v : best_of l v → best_of (l ++ [w]) (pick_range w.1 w.2 v).
Proof.
  intros [Hin Hmax]. destruct w as [rs qv], v as [s q]. unfold pick_range. cbn [fst snd].
  assert (fits (s, q) ∨ (s, q) = (0, 0)) as Hv by tauto. unfold fits in Hv. cbn [fst snd] in Hv.
  case_if; breflect.
  - assert (better (rs, qv) (s, q)) as Hb.
    { unfold better. cbn [fst snd]. lia. }
    split.
    + right. split; [apply elem_of_app; right; by apply list_elem_of_singleton|]. unfold fits. cbn. lia.
    + apply Forall_app. split.
      * eapply Forall_impl; [exact Hmax|]. intros u Hu Hf Hbu. apply Hu; [done|].
        unfold better in *. cbn [fst snd] in *. lia.
      * apply Forall_singleton. intros _ Hbt. unfold better in Hbt. cbn [fst snd] in Hbt. lia.
  - assert (fits (rs, qv) → ¬ better (rs, qv) (s, q)) as Hnb.
    { unfold fits, better. cbn [fst snd]. intros [H1 H2]. lia. }
    split.
    + destruct Hin as [[Hz Hall]|[Hi Hf]]; [left|right].
      * injection Hz as -> ->. split; [done|]. apply Forall_app. split; [done|]. apply Forall_singleton.
        intros Hf. apply (Hnb Hf). destruct Hf as [Hf1 Hf2]. left. exact Hf1.
      * split; [|done]. apply elem_of_app. by left.
    + apply Forall_app. split; [done|]. by apply Forall_singleton.
Qed.

Lemma fold_pick_best {A} (f : A → Z * Z) (l : list A) :
  best_of (map f l) (fold_left (λ b r, pick_range (f r).1 (f r).2 b) l (0, 0)).
Proof.
  induction l as [|r l IH] using rev_ind; [split; [by left|constructor]|].
  rewrite fold_left_app, map_app. by apply pick_range_best.
Qed.

(** The value of an offer: the best of what the ranges give it. *)
Lemma accepts_headers_best req type sub :
  best_of (map (fit type sub) (media_ranges req))
    (accepts_headers (hs_items (req_headers req)) type sub (0, 0)).
Proof. rewrite accepts_headers_fold. apply fold_pick_best. Qed.

(** [Some v] when the offer is a media type: the best fit, (0, 0) without one. *)
Definition offer_value (req : HttpRequest) (t : bytes) : option (Z * Z) :=
  match split_chr "/"%ch t with
  | Some (type, sub) => Some (accepts_headers (hs_items (req_headers req)) type sub (0, 0))
  | None => None
  end.

(** [t] wins among [types]: it is acceptable, nothing beats it, and what stands
    before it is worse. *)
Definition wins (req : HttpRequest) (types : list bytes) (t : bytes) (v : Z * Z) : Prop :=
  ∃ before after, types = before ++ t :: after ∧ offer_value req t = Some v ∧ fits v ∧
    (∀ u w, u ∈ before → offer_value req u = Some w → fits w → better v w) ∧
    (∀ u w, u ∈ after → offer_value req u = Some w → fits w → ¬ better w v).

Definition none_fits (req : HttpRequest) (types : list bytes) : Prop :=
  ∀ t v, t ∈ types → offer_value req t = Some v → ¬ fits v.

Lemma offer_value_fits req t v : offer_value req t = Some v → fits v ∨ v = (0, 0).
Proof.
  unfold offer_value. destruct (split_chr "/"%ch t) as [[type sub]|]; [|done]. intros [= <-].
  destruct (accepts_headers_best req type sub) as [[[-> _]|[_ H]] _]; tauto.
Qed.

Lemma accepts_types_spec req types seen best :
  match best with
  | (Some t, s, q) => wins req seen t (s, q)
  | (None, s, q) => none_fits req seen
  end →
  match accepts_types types (hs_items (req_headers req)) best with
  | (Some t, s, q) => wins req (seen ++ types) t (s, q)
  | (None, s, q) => none_fits req (seen ++ types)
  end.
Proof.
  revert seen best. induction types as [|t types IH]; intros seen best Hb; cbn [accepts_types];
    [by rewrite app_nil_r|].
  replace (seen ++ t :: types) with ((seen ++ [t]) ++ types) by by rewrite <- app_assoc.
  destruct (split_chr "/"%ch t) as [[type sub]|] eqn:Et.
  - assert (offer_value req t = Some (accepts_headers (hs_items (req_headers req)) type sub (0, 0))) as Hv
      by (unfold offer_value; by rewrite Et).
    destruct (accepts_headers _ type sub (0, 0)) as [s q]. destruct best as [[bt bs] bq].
    pose proof (offer_value_fits req t (s, q) Hv) as Hf. unfold fits in Hf. cbn [fst snd] in Hf.
    apply IH. case_if; breflect.
    + assert (fits (s, q)) as Hfit.
      { destruct Hf as [Hf|Hf]; [done|]. injection Hf as -> ->. lia. }
      exists seen, []. split; [done|]. split; [done|]. split; [done|].
      split; [|by intros u w Hu%elem_of_nil].
      intros u w Hu Hw Hwf. destruct bt as [bt|].
      * destruct Hb as (b & a & -> & Hbv & Hbf & H1 & H2).
        assert (¬ better w (bs, bq)) as Hnb.
        { apply elem_of_app in Hu as [Hu|Hu].
          - pose proof (H1 u w Hu Hw Hwf) as H3. unfold better in *. cbn [fst snd] in *. lia.
          - apply elem_of_cons in Hu as [->|Hu]; [|by eapply H2].
            rewrite Hbv in Hw. injection Hw as <-. unfold better. cbn [fst snd]. lia. }
        assert (bs < s ∨ s = bs ∧ bq < q) as Hlt.
        { rewrite bool_decide_false in H0 by done. cbn [orb] in H0. lia. }
        unfold better in *. cbn [fst snd] in *. lia.
      * by apply Hb in Hw.
    + destruct bt as [bt|].
      * destruct Hb as (b & a & -> & Hbv & Hbf & H1 & H2).
        exists b, (a ++ [t]). split; [by rewrite <- app_assoc|]. split; [done|]. split; [done|].
        split; [done|]. intros u w Hu Hw Hwf. apply elem_of_app in Hu as [Hu|Hu]; [by eapply H2|].
        apply list_elem_of_singleton in Hu as ->. rewrite Hv in Hw. injection Hw as <-.
        unfold fits, better in *. cbn [fst snd] in *. intros Hbt. lia.
      * intros u w Hu Hw. apply elem_of_app in Hu as [Hu|Hu]; [by eapply Hb|].
        apply list_elem_of_singleton in Hu as ->. rewrite Hv in Hw. injection Hw as <-.
        unfold fits. cbn [fst snd]. intros [Hp1 Hp2]. destruct Heqb as [Hx|Hx]; [lia|].
        rewrite bool_decide_true in Hx by done. done.
  - apply IH. destruct best as [[[bt|] bs] bq].
    + destruct Hb as (b & a & -> & Hbv & Hbf & H1 & H2). exists b, (a ++ [t]).
      split; [by rewrite <- app_assoc|]. split; [done|]. split; [done|]. split; [done|].
      intros u w Hu Hw. apply elem_of_app in Hu as [Hu|Hu]; [by eapply H2|].
      apply list_elem_of_singleton in Hu as ->. unfold offer_value in Hw. by rewrite Et in Hw.
    + intros u w Hu Hw. apply elem_of_app in Hu as [Hu|Hu]; [by eapply Hb|].
      apply list_elem_of_singleton in Hu as ->. unfold offer_value in Hw. by rewrite Et in Hw.
Qed.



(** *** The fuel is enough *)

Lemma accepts_parse_q_length fuel p q : (length (accepts_parse_q_loop fuel p q).2 ≤ length p)%nat.
Proof.
  revert p q. induction fuel as [|fuel IH]; intros [|c p] q; cbn [accepts_parse_q_loop]; [done..|].
  case_if; [|done].
  pose proof (skip_while_length is_ows p) as H1.
  pose proof (skip_while_length not_semi_comma (skip_while is_ows p)) as H2.
  etrans; [apply IH|]. simpl. lia.
Qed.

Lemma span_length P s : (length (span P s).2 ≤ length s)%nat.
Proof. apply skip_while_length. Qed.

(** Every round of the loop eats a comma, so any two fuels not below the length
    of the text give the same ranges. *)
Lemma media_ranges_fuel n m p :
  (length p ≤ n)%nat → (length p ≤ m)%nat → media_ranges_loop n p = media_ranges_loop m p.
Proof.
  revert m p. induction n as [|n IH]; intros m p Hn Hm.
  { destruct p; [by destruct m|simpl in Hn; lia]. }
  destruct m as [|m]; [destruct p; [done|simpl in Hm; lia]|].
  destruct p as [|c p]; [done|]. cbn [media_ranges_loop].
  pose proof (skip_while_length is_ows_or_comma (c :: p)) as H1.
  destruct (skip_while is_ows_or_comma (c :: p)) as [|d s]; [done|].
  pose proof (span_length range_type_char (d :: s)) as H2.
  destruct (span range_type_char (d :: s)) as [rtype p1]. cbn [snd] in H2.
  match goal with |- context [let '(rsub, p) := ?x in _] =>
    assert (length x.2 ≤ length p1)%nat as H3; [|destruct x as [rsub p2]; cbn [snd] in H3] end.
  { destruct p1 as [|e p1]; [done|]. case_if; [|done].
    pose proof (span_length range_sub_char p1) as H3. destruct (span range_sub_char p1). simpl in *. lia. }
  pose proof (accepts_parse_q_length (length p2) p2 DONE) as H4. fold (accepts_parse_q p2) in H4.
  destruct (accepts_parse_q p2) as [q p3]. cbn [snd] in H4. f_equal.
  pose proof (skip_while_length not_comma p3) as H5.
  destruct (skip_while not_comma p3) as [|e p4]; [done|]. simpl in *. apply IH; lia.
Qed.
