(* ===== verification/Static.v ===== *)
(** * Static files

    [src/c_http_static.c]: decoding a request path, finding the file below the
    root, conditional and range requests, and the list of mounts. *)

From S2P Require Import Prelude CLib World Types Validate Headers Request Net Time Response Encoder.
#[local] Open Scope Z_scope.

Inductive HttpServerResult := SERVER_OK | SERVER_ERROR.
Inductive HttpStaticDispatchResult :=
  HTTP_STATIC_NOT_MATCHED | HTTP_STATIC_SERVED | HTTP_STATIC_METHOD_NOT_ALLOWED.

(** A NULL string is [None]. *)
Record HttpStaticConfig := {
  sc_prefix : option bytes;
  sc_root : option bytes;
  sc_index_file : option bytes;
  sc_max_age : Z;
}.

Definition PATH_MAX : Z := 4096.

(** ** Helpers *)

Definition static_hex_val (c : Z) : Z :=
  if ("0"%ch <=? c) && (c <=? "9"%ch) then c - "0"%ch
  else if ("a"%ch <=? c) && (c <=? "f"%ch) then c - "a"%ch + 10
  else if ("A"%ch <=? c) && (c <=? "F"%ch) then c - "A"%ch + 10
  else -1.

(** [o] bytes are written already; [None] is -1.  An escape cut by the end of
    the string fails on its missing digit. *)
Fixpoint url_decode_loop (input : bytes) (o out_size : Z) : option bytes :=
  match input with
  | [] => Some []
  | c :: r =>
      if out_size <=? o + 1 then None
      else if c =? "%"%ch then
        match r with
        | h :: l :: r =>
            let hi := static_hex_val h in
            let lo := static_hex_val l in
            if (hi <? 0) || (lo <? 0) then None
            else if (hi =? 0) && (lo =? 0) then None
            else cons (hi * 16 + lo) <$> url_decode_loop r (o + 1) out_size
        | _ => None
        end
      else cons c <$> url_decode_loop r (o + 1) out_size
  end.

Definition url_decode (input : bytes) (out_size : Z) : option bytes :=
  if out_size =? 0 then None else url_decode_loop input 0 out_size.

Definition is_control (c : Z) : bool := (c <? 32) || (c =? 127).
Definition has_control_chars (s : bytes) : bool := existsb is_control s.

(** The path behind the mount prefix. *)
Definition extract_suffix (prefix path : bytes) : option bytes :=
  if streq prefix (str "/") then Some (tail path)
  else if negb (starts_with prefix path) then None
  else
    match zdrop (zlen prefix) path with
    | [] => Some []
    | c :: suffix => if c =? "/"%ch then Some suffix else None
    end.

Definition mime_table : list (bytes * bytes) :=
  [(str "html", str "text/html"); (str "htm", str "text/html");
   (str "css", str "text/css"); (str "js", str "text/javascript");
   (str "mjs", str "text/javascript"); (str "json", str "application/json");
   (str "txt", str "text/plain"); (str "md", str "text/plain");
   (str "csv", str "text/csv"); (str "xml", str "application/xml");
   (str "png", str "image/png"); (str "jpg", str "image/jpeg");
   (str "jpeg", str "image/jpeg"); (str "gif", str "image/gif");
   (str "svg", str "image/svg+xml"); (str "webp", str "image/webp");
   (str "ico", str "image/x-icon"); (str "avif", str "image/avif");
   (str "pdf", str "application/pdf"); (str "zip", str "application/zip");
   (str "gz", str "application/gzip"); (str "wasm", str "application/wasm");
   (str "woff", str "font/woff"); (str "woff2", str "font/woff2");
   (str "mp3", str "audio/mpeg"); (str "mp4", str "video/mp4");
   (str "webm", str "video/webm"); (str "bin", str "application/octet-stream")].

(** What follows the last [c]. *)
Fixpoint strrchr (c : Z) (s : bytes) : option bytes :=
  match s with
  | [] => None
  | x :: r => match strrchr c r with
              | Some t => Some t
              | None => if x =? c then Some r else None
              end
  end.

Fixpoint mime_lookup (table : list (bytes * bytes)) (ext : bytes) : bytes :=
  match table with
  | [] => str "application/octet-stream"
  | (e, t) :: table => if strcaseeq ext e then t else mime_lookup table ext
  end.

Definition mime_for (path : bytes) : bytes :=
  match strrchr "."%ch path with
  | None => str "application/octet-stream"
  | Some ext =>
      if (zlen ext =? 0) || has_chr "/"%ch ext then str "application/octet-stream"
      else mime_lookup mime_table ext
  end.

(** ** Entity tags *)

(** Without the weakness mark [W/]. *)
Definition strip_weak (p : bytes) : bytes := if starts_with (str "W/") p then zdrop 2 p else p.

(** The entries of one [If-None-Match] value, a round per entry. *)
Fixpoint etag_list_matches (fuel : nat) (p etag : bytes) : bool :=
  match fuel, p with
  | O, _ | _, [] => false
  | S fuel, _ =>
      match skip_while is_ows_or_comma p with
      | [] => false
      | p =>
          if deref p =? "*"%ch then true
          else
            let '(entry, rest) := span not_comma (strip_weak p) in
            if streq (rtrim is_ows entry) (strip_weak etag) then true
            else etag_list_matches fuel rest etag
      end
  end.

Definition etag_matches (req : HttpRequest) (etag : bytes) : bool :=
  existsb (λ h, strcaseeq (h_key h) (str "If-None-Match")
                && etag_list_matches (length (h_value h)) (h_value h) etag)
    (hs_items (req_headers req)).

Definition etag_of (st : FileStat) : bytes :=
  snprintf_s 64 (str "W/" ++ [DQUOTE] ++ fmt_x (st_mtime st mod 2 ^ 64) ++ str "-"
                 ++ fmt_x (st_size st mod 2 ^ 64) ++ [DQUOTE]).

(** ** Ranges *)

(** [ok], [satisfiable], [start], [len]. *)
Inductive RangeResult :=
  | RangeIgnored                     (** not [ok], satisfiable *)
  | RangeOk (start len : Z)
  | RangeUnsatisfiable.

Definition parse_range (range : bytes) (size : Z) : RangeResult :=
  if negb (starts_with_ci (str "bytes=") range) then RangeIgnored
  else
    let spec := zdrop 6 range in
    if has_chr ","%ch spec then RangeIgnored
    else if deref spec =? "-"%ch then
      let n := strtoll (zdrop 1 spec) in
      let suffix_len := ll_val n in
      if ll_conv n && (zlen (ll_end n) =? 0) && negb (ll_erange n) then
        if (suffix_len <=? 0) || (size =? 0) then RangeUnsatisfiable
        else if size <=? suffix_len then RangeOk 0 size
        else RangeOk (size - suffix_len) suffix_len
      else RangeIgnored
    else
      let f := strtoll spec in
      let first := ll_val f in
      if ll_conv f && negb (ll_erange f) && (0 <=? first) && (deref (ll_end f) =? "-"%ch) then
        let rest := zdrop 1 (ll_end f) in
        if zlen rest =? 0 then
          if size <=? first then RangeUnsatisfiable else RangeOk first (size - first)
        else
          let l := strtoll rest in
          let last := ll_val l in
          if (zlen (ll_end l) =? 0) && negb (ll_erange l) && (first <=? last) then
            if size <=? first then RangeUnsatisfiable
            else RangeOk first ((if size <=? last then size - 1 else last) - first + 1)
          else RangeIgnored
      else RangeIgnored.

(** ** The handler *)

(** Steps 4 and 5: the regular file a path names, by way of the index file when
    it is a directory. *)
Definition find_file (fs_path : bytes) (index_file : option bytes) : M (option (bytes * FileStat)) :=
  st ← stat fs_path;
  match st with
  | None => mret None
  | Some st =>
      match st_kind st with
      | FDirectory =>
          match index_file with
          | None => mret None
          | Some index_file =>
              let fs_path := fs_path ++ str "/" ++ index_file in
              if PATH_MAX <=? zlen fs_path then mret None
              else
                st ← stat fs_path;
                mret (match st with
                      | Some st => match st_kind st with
                                   | FRegular => Some (fs_path, st)
                                   | _ => None end
                      | None => None end)
          end
      | FRegular => mret (Some (fs_path, st))
      | FSpecial => mret None
      end
  end.

(** Step 6: the resolved path must stay below the resolved root. *)
Definition confine (root fs_path : bytes) : M bool :=
  root_real ← realpath root;
  file_real ← realpath fs_path;
  mret (match root_real, file_real with
        | Some root_real, Some file_real =>
            let next := deref (zdrop (zlen root_real) file_real) in
            starts_with root_real file_real && ((next =? NUL) || (next =? "/"%ch))
        | _, _ => false
        end).

(** Steps 1 to 6: the file and its [stat], or the status to answer. *)
Definition resolve_file (path : bytes) (prefix root : bytes) (index_file : option bytes)
  : M (Z + (bytes * FileStat)) :=
  match extract_suffix prefix path with
  | None => mret (inl HTTP_STATUS_NOT_FOUND)
  | Some suffix =>
      match url_decode suffix HTTP_PATH_MAX with
      | None => mret (inl HTTP_STATUS_BAD_REQUEST)
      | Some decoded =>
          if bool_decide (strstr (str "..") decoded ≠ None) then mret (inl HTTP_STATUS_NOT_FOUND)
          else if has_control_chars decoded then mret (inl HTTP_STATUS_BAD_REQUEST)
          else
            match (if zlen decoded =? 0 then index_file else Some decoded) with
            | None => mret (inl HTTP_STATUS_NOT_FOUND)
            | Some name =>
                let fs_path := root ++ str "/" ++ name in
                if PATH_MAX <=? zlen fs_path then mret (inl HTTP_STATUS_URI_TOO_LONG)
                else
                  found ← find_file fs_path index_file;
                  match found with
                  | None => mret (inl HTTP_STATUS_NOT_FOUND)
                  | Some (fs_path, st) =>
                      inside ← confine root fs_path;
                      mret (if (inside : bool) then inr (fs_path, st) else inl HTTP_STATUS_NOT_FOUND)
                  end
            end
      end
  end.

Definition set_header_res (res : HttpResponse) (key value : bytes) : M HttpResponse :=
  '(_, res) ← http_set_res_header res key value; mret res.

(** Steps 10 and 11: the headers, and the path to stream. *)
Definition static_file_response (res : HttpResponse) (fs_path : bytes) (st : FileStat)
    (etag : bytes) (max_age : Z) : M HttpResponse :=
  res ← set_header_res res (str "Content-Type") (mime_for fs_path);
  res ← set_header_res res (str "ETag") etag;
  res ← set_header_res res (str "Last-Modified") (format_http_time (st_mtime st) 64);
  res ← (if 0 <? max_age
         then set_header_res res (str "Cache-Control") (str "public, max-age=" ++ fmt_u max_age)
         else mret res);
  ok ← malloc;
  if negb ok then
    mret (set_res_status HTTP_STATUS_INTERNAL_SERVER_ERROR (set_res_file_path None res))
  else
    let res := set_res_file_path (Some fs_path) res in
    mret (if res_ranged res then res else set_res_status HTTP_STATUS_OK res).

Definition http_static_handler (req : HttpRequest) (res : HttpResponse) (cfg : HttpStaticConfig)
  : M HttpResponse :=
  match sc_prefix cfg, sc_root cfg with
  | Some prefix, Some root =>
      found ← resolve_file (req_path req) prefix root (sc_index_file cfg);
      match found with
      | inl status => mret (set_res_status status res)
      | inr (fs_path, st) =>
          res ← set_header_res res (str "Accept-Ranges") (str "bytes");
          let etag := etag_of st in
          if etag_matches req etag then
            set_header_res (set_res_status HTTP_STATUS_NOT_MODIFIED res) (str "ETag") etag
          else
            let size := st_size st in
            let r := match http_req_header req (Some (str "Range")) with
                     | Some range => parse_range range size
                     | None => RangeIgnored
                     end in
            match r with
            | RangeUnsatisfiable =>
                res ← set_header_res res (str "Content-Range") (str "bytes */" ++ fmt_u size);
                mret (set_res_status HTTP_STATUS_RANGE_NOT_SATISFIABLE res)
            | RangeOk start len =>
                res ← set_header_res res (str "Content-Range")
                        (str "bytes " ++ fmt_u start ++ str "-" ++ fmt_u (start + len - 1)
                         ++ str "/" ++ fmt_u size);
                let res := set_res_status HTTP_STATUS_PARTIAL_CONTENT res in
                let res := set_res_ranged true res in
                let res := set_res_range_start start res in
                let res := set_res_range_len len res in
                static_file_response res fs_path st etag (sc_max_age cfg)
            | RangeIgnored => static_file_response res fs_path st etag (sc_max_age cfg)
            end
      end
  | _, _ => mret (set_res_status HTTP_STATUS_INTERNAL_SERVER_ERROR res)
  end.

(** ** Mounts *)

(** ["/public/"] becomes ["/public"]; ["/"] stays. *)
Definition normalize_prefix (prefix : bytes) : bytes :=
  match prefix with
  | [] => []
  | c :: r => c :: rtrim (λ c, c =? "/"%ch) r
  end.

(** A mounted configuration: its strings are copies. *)
Record HttpStaticMount := {
  sm_prefix : bytes; sm_root : bytes; sm_index_file : option bytes; sm_max_age : Z }.

Definition mount_config (m : HttpStaticMount) : HttpStaticConfig :=
  {| sc_prefix := Some (sm_prefix m); sc_root := Some (sm_root m);
     sc_index_file := sm_index_file m; sc_max_age := sm_max_age m |}.

Definition http_static_mount (mounts : list HttpStaticMount) (cfg : HttpStaticConfig)
  : M (HttpServerResult * list HttpStaticMount) :=
  match sc_prefix cfg, sc_root cfg with
  | Some cfg_prefix, Some root =>
      if negb (deref cfg_prefix =? "/"%ch) || (HTTP_PATH_MAX <=? zlen cfg_prefix) then
        mret (SERVER_ERROR, mounts)
      else if has_control_chars cfg_prefix || strchr_found cfg_prefix "%"%ch
              || strchr_found cfg_prefix "?"%ch then mret (SERVER_ERROR, mounts)
      else
        st ← stat root;
        match st with
        | Some {| st_kind := FDirectory |} =>
            let prefix := normalize_prefix cfg_prefix in
            if existsb (λ m, streq (sm_prefix m) prefix) mounts then mret (SERVER_ERROR, mounts)
            else
              mount ← malloc;
              if negb mount then mret (SERVER_ERROR, mounts)
              else
                p ← malloc;
                r ← malloc;
                i ← (if bool_decide (sc_index_file cfg = None) then mret true else malloc);
                if negb p || negb r || negb i then mret (SERVER_ERROR, mounts)
                else mret (SERVER_OK,
                       {| sm_prefix := prefix; sm_root := root; sm_index_file := sc_index_file cfg;
                          sm_max_age := sc_max_age cfg |} :: mounts)
        | _ => mret (SERVER_ERROR, mounts)
        end
  | _, _ => mret (SERVER_ERROR, mounts)
  end.

Fixpoint http_static_dispatch (mounts : list HttpStaticMount) (req : HttpRequest)
    (res : HttpResponse) : M (HttpStaticDispatchResult * HttpResponse) :=
  match mounts with
  | [] => mret (HTTP_STATIC_NOT_MATCHED, res)
  | m :: mounts =>
      match extract_suffix (sm_prefix m) (req_path req) with
      | None => http_static_dispatch mounts req res
      | Some _ =>
          if negb (streq (req_method req) (str "GET")) && negb (streq (req_method req) (str "HEAD"))
          then
            res ← set_header_res res (str "Allow") (str "GET, HEAD");
            mret (HTTP_STATIC_METHOD_NOT_ALLOWED, res)
          else
            res ← http_static_handler req res (mount_config m);
            mret (HTTP_STATIC_SERVED, res)
      end
  end.

Definition http_static_mounts_free (mounts : list HttpStaticMount) : list HttpStaticMount := [].

(** ** Confinement *)

(** Inside the directory [root], as the kernel resolves both. *)
Definition below (root_real file_real : bytes) : Prop :=
  file_real = root_real ∨ ∃ t, file_real = root_real ++ "/"%ch :: t.

(** [realpath] answers C strings. *)
Definition fs_strings (fs : FileSystem) : Prop :=
  ∀ p r, fs_realpath fs p = Some r → nul_free r.

(** What may be served: a regular file whose resolved path is below the resolved
    root and whose name was decoded from the request without any [".."]. *)
Record servable (fs : FileSystem) (root fs_path : bytes) (st : FileStat) : Prop := {
  sv_stat : fs_stat fs fs_path = Some st;
  sv_regular : st_kind st = FRegular;
  sv_length : zlen fs_path < PATH_MAX;
  sv_below : ∃ root_real file_real, fs_realpath fs root = Some root_real ∧
    fs_realpath fs fs_path = Some file_real ∧ below root_real file_real;
}.

Lemma find_file_spec fs_path index_file w :
  zlen fs_path < PATH_MAX →
  world (find_file fs_path index_file) w = w ∧
  ∀ q st, result (find_file fs_path index_file) w = Some (q, st) →
    fs_stat (w_fs w) q = Some st ∧ st_kind st = FRegular ∧ zlen q < PATH_MAX.
Proof.
  intros Hl. unfold find_file, result, world. rewrite bind_run.
  unfold result, world, stat. cbn [fst snd].
  destruct (fs_stat (w_fs w) fs_path) as [st0|] eqn:Es; [|done].
  destruct (st_kind st0) eqn:Ek; [split; [done|]; by intros q st [= <- <-]| |done].
  destruct index_file as [idx|]; [|done]. set (p := fs_path ++ str "/" ++ idx).
  destruct (PATH_MAX <=? zlen p) eqn:Ep; [done|]. breflect.
  rewrite bind_run. unfold result, world. cbn [fst snd mret M_ret].
  destruct (fs_stat (w_fs w) p) as [st1|] eqn:Es1; [|done].
  destruct (st_kind st1) eqn:Ek1; [split; [done|]; by intros q st [= <- <-]|done..].
Qed.

Lemma confine_spec root fs_path w :
  fs_strings (w_fs w) →
  world (confine root fs_path) w = w ∧
  (result (confine root fs_path) w = true →
   ∃ root_real file_real, fs_realpath (w_fs w) root = Some root_real ∧
     fs_realpath (w_fs w) fs_path = Some file_real ∧ below root_real file_real).
Proof.
  intros Hfs. unfold confine, result, world. rewrite !bind_run.
  unfold result, world, realpath. cbn [fst snd mret M_ret].
  split; [done|]. destruct (fs_realpath (w_fs w) root) as [rr|]; [|done].
  destruct (fs_realpath (w_fs w) fs_path) as [fr|] eqn:Ef; [|done]. intros H. breflect.
  exists rr, fr. split; [done|]. split; [done|].
  match goal with H : starts_with _ _ = true |- _ => apply starts_with_true in H as [t ->] end.
  rewrite zdrop_app_length in *.
  apply Hfs in Ef. unfold nul_free in Ef. apply Forall_app in Ef as [_ Ht]. unfold below.
  destruct t as [|c t]; [left; by rewrite app_nil_r|right].
  apply Forall_cons in Ht as [Hc _]. simpl in *.
  match goal with H : _ ∨ _ |- _ => destruct H end; breflect; [done|subst c; eauto].
Qed.

(** The two outcomes of a lookup, as the code that finishes it sees them. *)
Lemma resolve_file_spec path prefix root index_file w :
  fs_strings (w_fs w) →
  world (resolve_file path prefix root index_file) w = w ∧
  match result (resolve_file path prefix root index_file) w with
  | inr (fs_path, st) =>
      servable (w_fs w) root fs_path st ∧
      ∃ suffix decoded, extract_suffix prefix path = Some suffix ∧
        url_decode suffix HTTP_PATH_MAX = Some decoded ∧ ¬ occurs (str "..") decoded ∧
        has_control_chars decoded = false
  | inl status => 400 <= status < 500
  end.
Proof.
  intros Hfs. unfold resolve_file.
  destruct (extract_suffix prefix path) as [suffix|]; [|done].
  destruct (url_decode suffix HTTP_PATH_MAX) as [decoded|] eqn:Ed; [|done].
  case_if; [done|]. case_if; [done|]. breflect.
  assert (¬ occurs (str "..") decoded) as Hdots.
  { rewrite strstr_not_occurs. destruct (strstr (str "..") decoded); [|done]. by destruct Heqb. }
  destruct (if zlen decoded =? 0 then index_file else Some decoded) as [name|]; [|done].
  case_if; [done|]. breflect. set (p := root ++ str "/" ++ name) in *.
  destruct (find_file_spec p index_file w ltac:(done)) as [Hw Hf].
  unfold result, world. rewrite bind_run, Hw.
  destruct (result (find_file p index_file) w) as [[q st]|]; [|done].
  destruct (Hf q st eq_refl) as (H1 & H2 & H3).
  destruct (confine_spec root q w Hfs) as [Hw' Hc]. rewrite bind_run, Hw'.
  destruct (result (confine root q) w); cbn [fst snd mret M_ret]; split; try done.
  split; [split; auto|eauto 10].
Qed.

Lemma only_allocates_set_header_res res key value : only_allocates (set_header_res res key value).
Proof. unfold set_header_res, http_set_res_header. only_alloc. Qed.
#[export] Hint Resolve only_allocates_set_header_res : chttp.

(** The fields a header does not touch. *)
Lemma set_header_res_file res key value w :
  let res' := result (set_header_res res key value) w in
  res_file_path res' = res_file_path res ∧ res_status res' = res_status res ∧
  res_ranged res' = res_ranged res ∧ res_range_start res' = res_range_start res ∧
  res_range_len res' = res_range_len res.
Proof.
  unfold set_header_res, result. rewrite bind_run. unfold result, world.
  by rewrite http_set_res_header_run.
Qed.

Lemma set_header_res_ok res key value w :
  response_ok res → response_ok (result (set_header_res res key value) w).
Proof.
  intros H. unfold set_header_res, result. rewrite bind_run.
  pose proof (http_set_res_header_ok res key value w H) as H'.
  by destruct (result (http_set_res_header res key value) w) as [rc res'].
Qed.
#[export] Hint Resolve set_header_res_ok : chttp.

Lemma static_file_response_file res fs_path st etag max_age :
  returns (static_file_response res fs_path st etag max_age) (λ res',
    res_file_path res' = None ∨
    res_file_path res' = Some fs_path ∧ res_ranged res' = res_ranged res ∧
    res_range_start res' = res_range_start res ∧ res_range_len res' = res_range_len res).
Proof.
  set (P := λ r : HttpResponse, res_ranged r = res_ranged res ∧
    res_range_start r = res_range_start res ∧ res_range_len r = res_range_len res).
  assert (∀ r k v, P r → returns (set_header_res r k v) P) as Hset.
  { intros r k v (H1 & H2 & H3) w.
    destruct (set_header_res_file r k v w) as (_ & _ & H4 & H5 & H6). unfold P.
    by rewrite H4, H5, H6. }
  unfold static_file_response.
  apply returns_bind with P; [by apply Hset|intros r1 H1].
  apply returns_bind with P; [by apply Hset|intros r2 H2].
  apply returns_bind with P; [by apply Hset|intros r3 H3].
  apply returns_bind with P; [case_if; [by apply Hset|by apply returns_ret]|intros r4 H4].
  apply returns_bind with (λ _, True); [done|intros ok _]. case_if; apply returns_ret; [by left|right].
  destruct H4 as (H5 & H6 & H7). simpl.
  by destruct (res_ranged r4) eqn:E; simpl; split_and!; congruence.
Qed.

(** A satisfiable range is a non-empty slice of the file. *)
Lemma parse_range_bounds range size start len :
  0 <= size → parse_range range size = RangeOk start len →
  0 <= start ∧ 0 < len ∧ start + len <= size.
Proof.
  intros Hs. unfold parse_range. repeat (case_if; try done); intros [= <- <-]; breflect; lia.
Qed.

(** C24: whatever file the static handler attaches to a response is a regular file
    that resolves to a place below the resolved root, and a range it asks for lies
    within that file. *)
Theorem http_static_handler_safe req res cfg root w :
  fs_strings (w_fs w) → (∀ p st, fs_stat (w_fs w) p = Some st → 0 <= st_size st) →
  sc_root cfg = Some root → res_file_path res = None →
  let res' := result (http_static_handler req res cfg) w in
  ∀ p, res_file_path res' = Some p →
  ∃ st, servable (w_fs w) root p st ∧
    (res_ranged res' = true → res_ranged res = true ∨
     0 <= res_range_start res' ∧ 0 < res_range_len res' ∧
     res_range_start res' + res_range_len res' <= st_size st).
Proof.
  intros Hfs Hsz Hroot Hnone res' p. subst res'. unfold http_static_handler. rewrite Hroot.
  destruct (sc_prefix cfg) as [prefix|]; [|simpl; congruence].
  destruct (resolve_file_spec (req_path req) prefix root (sc_index_file cfg) w Hfs) as [Hw Hr].
  unfold result. rewrite bind_run, Hw.
  destruct (result (resolve_file _ _ _ _) w) as [status|[q st]]; [simpl; congruence|].
  destruct Hr as [Hserv _]. rewrite bind_run.
  destruct (set_header_res_file res (str "Accept-Ranges") (str "bytes") w) as (Hp1 & _ & Hr1 & _).
  set (res1 := result (set_header_res res (str "Accept-Ranges") (str "bytes")) w) in *. clearbody res1.
  generalize (world (set_header_res res (str "Accept-Ranges") (str "bytes")) w). intros w1.
  case_if.
  { destruct (set_header_res_file (set_res_status HTTP_STATUS_NOT_MODIFIED res1) (str "ETag") (etag_of st) w1)
      as (Hp2 & _). unfold result in Hp2. rewrite Hp2. simpl. congruence. }
  assert (0 <= st_size st) as Hst by (eapply Hsz; apply Hserv).
  destruct (match http_req_header req (Some (str "Range")) with
            | Some range => parse_range range (st_size st) | None => RangeIgnored end)
    as [|start len|] eqn:Erange.
  - intros Hp. exists st.
    destruct (static_file_response_file res1 q st (etag_of st) (sc_max_age cfg) w1)
      as [H|(H1 & H2 & _)]; unfold result in *; [congruence|].
    rewrite Hp in H1. injection H1 as <-. split; [done|]. rewrite H2, Hr1. auto.
  - rewrite bind_run. unfold result.
    match goal with |- context [set_header_res res1 ?k ?v] =>
      generalize (set_header_res res1 k v w1).1, (world (set_header_res res1 k v) w1) end.
    intros res2 w2 Hp. exists st.
    match goal with |- context [static_file_response ?r ?q ?s ?e ?m ?w] =>
      destruct (static_file_response_file r q s e m w) as [H|(H1 & H2 & H3 & H4)] end;
      unfold result in *; [congruence|].
    rewrite Hp in H1. injection H1 as <-. split; [done|]. intros _. right. rewrite H3, H4. simpl.
    destruct (http_req_header req (Some (str "Range"))); [|done].
    by eapply parse_range_bounds.
  - rewrite bind_run. cbn [fst mret M_ret].
    match goal with |- context [set_header_res res1 ?k ?v] =>
      destruct (set_header_res_file res1 k v w1) as (Hp2 & _) end.
    simpl in *. congruence.
Qed.

Lemma http_static_handler_safe_witness :
  let st := {| st_kind := FRegular; st_size := 9; st_mtime := 0 |} in
  let w := {| w_alloc := []; w_recv := []; w_send := []; w_sent := []; w_listening := []; w_now := 0;
              w_fs := {| fs_stat := λ _, Some st;
                         fs_realpath := λ p, Some (if streq p (str "/srv") then p else str "/srv/a");
                         fs_open := λ _, None |} |} in
  let cfg := {| sc_prefix := Some (str "/"); sc_root := Some (str "/srv"); sc_index_file := None;
                sc_max_age := 0 |} in
  let req := set_req_path (str "/a") (set_req_method (str "GET") empty_request) in
  let res' := result (http_static_handler req empty_response cfg) w in
  res_file_path res' = Some (str "/srv/a") ∧ ∃ st', servable (w_fs w) (str "/srv") (str "/srv/a") st'.
Proof.
  intros st w cfg req res'.
  assert (res_file_path res' = Some (str "/srv/a")) as E by (vm_compute; reflexivity).
  split; [exact E|].
  destruct (http_static_handler_safe req empty_response cfg (str "/srv") w) with (str "/srv/a")
    as (st' & H & _); [| |reflexivity|reflexivity|exact E|exists st'; exact H].
  - intros p r [= <-]. destruct (streq p (str "/srv")) eqn:Ep.
    + apply streq_true in Ep. subst p. unfold nul_free. decided.
    + unfold nul_free. decided.
  - intros p s [= <-]. vm_compute. discriminate.
Defined.

(** The range [bytes=a-b] of a file is the bytes from [a] to [b], cut at the end
    of the file, and unsatisfiable exactly when [a] is behind the end. *)
Lemma parse_range_first_last a b size :
  0 <= a <= b → b <= LLONG_MAX →
  parse_range (str "bytes=" ++ fmt_u a ++ str "-" ++ fmt_u b) size
  = if size <=? a then RangeUnsatisfiable else RangeOk a (Z.min b (size - 1) - a + 1).
Proof.
  intros Hab Hb. unfold parse_range.
  assert (starts_with_ci (str "bytes=") (str "bytes=" ++ fmt_u a ++ str "-" ++ fmt_u b) = true) as ->
    by done.
  change (zdrop 6 (str "bytes=" ++ fmt_u a ++ str "-" ++ fmt_u b))
    with (fmt_u a ++ str "-" ++ fmt_u b). cbn [negb].
  pose proof (fmt_u_digits a ltac:(lia)) as Ha. pose proof (fmt_u_digits b ltac:(lia)) as Hdb.
  pose proof (fmt_u_not_nil a) as Hna.
  assert (has_chr ","%ch (fmt_u a ++ str "-" ++ fmt_u b) = false) as ->.
  { apply has_chr_false. rewrite !not_elem_of_app. rewrite Forall_forall in Ha, Hdb.
    split; [intros H; by specialize (Ha _ H)|]. split; [by apply has_chr_false|].
    intros H; by specialize (Hdb _ H). }
  assert ((deref (fmt_u a ++ str "-" ++ fmt_u b) =? "-"%ch) = false) as ->.
  { destruct (fmt_u a) as [|c r]; [done|]. apply Forall_cons in Ha as [Hc _]. simpl.
    apply Z.eqb_neq. intros ->. done. }
  rewrite (strtoll_fmt_u a) by (lia || right; by do 2 eexists).
  cbn [ll_val ll_end ll_conv ll_erange negb andb]. rewrite (proj2 (Z.leb_le 0 a)) by lia.
  change (deref (str "-" ++ fmt_u b) =? "-"%ch) with true.
  change (zdrop 1 (str "-" ++ fmt_u b)) with (fmt_u b). cbn [andb].
  assert ((zlen (fmt_u b) =? 0) = false) as ->.
  { apply Z.eqb_neq. intros H%zlen_nil_inv. by apply fmt_u_not_nil in H. }
  rewrite <- (app_nil_r (fmt_u b)), (strtoll_fmt_u b) by (lia || by left).
  cbn [ll_val ll_end ll_conv ll_erange negb andb]. change (zlen [] =? 0) with true.
  rewrite (proj2 (Z.leb_le a b)) by lia. cbn [andb]. case_if; [done|]. breflect. f_equal.
  case_if; breflect; lia.
Qed.

(** A suffix range of a negative number is refused, not ignored as malformed. *)
Example parse_range_double_minus : parse_range (str "bytes=--5") 100 = RangeUnsatisfiable.
Proof. reflexivity. Qed.

(** ** URL decoding *)

(** [decodes e s]: [e] is a percent-encoding of [s]; NUL cannot be encoded. *)
Inductive decodes : bytes → bytes → Prop :=
  | decodes_nil : decodes [] []
  | decodes_plain c e s : c ≠ "%"%ch → decodes e s → decodes (c :: e) (c :: s)
  | decodes_escape h l e s :
      0 <= static_hex_val h → 0 <= static_hex_val l → 0 < static_hex_val h * 16 + static_hex_val l →
      decodes e s → decodes ("%"%ch :: h :: l :: e) (static_hex_val h * 16 + static_hex_val l :: s).

Lemma url_decode_loop_Some n : ∀ e s o size,
  (length e ≤ n)%nat → url_decode_loop e o size = Some s →
  decodes e s ∧ (s ≠ [] → o + zlen s < size).
Proof.
  induction n as [|n IH]; intros [|c e] s o size Hn; simpl in *;
    try (by intros [= <-]; split; [constructor|]); [lia|].
  case_if; [done|]. breflect. case_if; breflect.
  - destruct e as [|h [|l e]]; try done. repeat (case_if; [done|]). breflect.
    intros Hm. apply fmap_Some in Hm as (s' & Hs & ->). simpl in Hn.
    destruct (IH e s' (o + 1) size ltac:(lia) Hs) as [Hd Hl]. split.
    + subst c. apply decodes_escape; [lia|lia| |done].
      match goal with H : _ ∨ _ |- _ => destruct H; breflect; lia end.
    + intros _. rewrite zlen_cons. destruct s'; [zlen_lia|]. specialize (Hl ltac:(done)). lia.
  - intros Hm. apply fmap_Some in Hm as (s' & Hs & ->).
    destruct (IH e s' (o + 1) size ltac:(lia) Hs) as [Hd Hl]. split; [by constructor|].
    intros _. rewrite zlen_cons. destruct s'; [zlen_lia|]. specialize (Hl ltac:(done)). lia.
Qed.

Lemma url_decode_loop_complete e s o size :
  decodes e s → o + zlen s < size → url_decode_loop e o size = Some s.
Proof.
  intros H. revert o. induction H as [|c e s Hc _ IH|h l e s Hh Hl Hpos _ IH]; intros o Ho; [done|..];
    rewrite zlen_cons in Ho; pose proof (zlen_nonneg s); cbn [url_decode_loop];
    rewrite (proj2 (Z.leb_gt _ _)) by lia.
  - rewrite (proj2 (Z.eqb_neq _ _)) by done. by rewrite IH by lia.
  - change ("%"%ch =? "%"%ch) with true. cbn iota.
    rewrite !(proj2 (Z.ltb_ge _ _)) by lia. cbn [orb].
    destruct ((static_hex_val h =? 0) && (static_hex_val l =? 0)) eqn:E; [breflect; lia|].
    by rewrite IH by lia.
Qed.

(** Decoding the request path yields [s] exactly when the text is a
    percent-encoding of [s], with no NUL smuggled in, and [s] fits the buffer with
    its terminator. *)
Lemma url_decode_decodes e s size :
  0 < size → url_decode e size = Some s ↔ decodes e s ∧ zlen s < size.
Proof.
  intros Hs. unfold url_decode. rewrite (proj2 (Z.eqb_neq _ _)) by lia. split.
  - intros H. destruct (url_decode_loop_Some (length e) e s 0 size (le_n _) H) as [Hd Hl].
    split; [done|]. destruct s; [by rewrite zlen_nil|]. by apply Hl.
  - intros [Hd Hl]. by apply url_decode_loop_complete.
Qed.

(** ** Entity tags *)

Lemma fmt_x_chars n : 0 <= n →
  Forall (λ c, is_digit c = true ∨ ("a"%ch <= c <= "f"%ch)) (fmt_x n).
Proof.
  intros Hn. unfold fmt_x. apply Forall_map. eapply Forall_impl; [apply digits_range; lia|].
  intros d Hd. cbv beta in *. case_if; breflect; [left|right; lia].
  unfold is_digit. apply andb_true_iff. rewrite !Z.leb_le. lia.
Qed.

(** The tag is never cut by its buffer, and holds no comma or white space. *)
Lemma etag_of_shape st :
  ∃ body, etag_of st = str "W/" ++ [DQUOTE] ++ body ++ [DQUOTE] ∧
    Forall (λ c, not_comma c = true ∧ is_ows c = false) body.
Proof.
  set (a := fmt_x (st_mtime st mod 2 ^ 64)). set (b := fmt_x (st_size st mod 2 ^ 64)).
  exists (a ++ str "-" ++ b). split.
  - unfold etag_of, snprintf_s. fold a b. rewrite ztake_all; [by rewrite <- !app_assoc|].
    assert (∀ n, 0 <= n < 2 ^ 64 → zlen (fmt_x n) <= 16) as Hx.
    { intros n Hn. unfold fmt_x. rewrite zlen_map. unfold digits.
      pose proof (digits_fuel_length (S (Z.to_nat (Z.log2 n))) 16 n 16 ltac:(lia)
        ltac:(change (16 ^ Z.of_nat 16) with (2 ^ 64); lia) ltac:(lia)). unfold zlen. lia. }
    assert (zlen a <= 16) by (apply Hx, Z.mod_pos_bound; lia).
    assert (zlen b <= 16) by (apply Hx, Z.mod_pos_bound; lia).
    rewrite !zlen_app. change (zlen (str "W/")) with 2. change (zlen [DQUOTE]) with 1.
    change (zlen (str "-")) with 1. lia.
  - assert (∀ n, 0 <= n → Forall (λ c, not_comma c = true ∧ is_ows c = false) (fmt_x n)) as Hx.
    { intros n Hn. eapply Forall_impl; [by apply fmt_x_chars|]. intros c Hc. cbv beta in *.
      unfold not_comma, is_ows, is_digit in *. rewrite negb_true_iff, orb_false_iff, !Z.eqb_neq.
      destruct Hc as [Hc|Hc]; breflect; lia. }
    apply Forall_app. split; [apply Hx, Z.mod_pos_bound; lia|].
    apply Forall_app. split; [by repeat constructor|apply Hx, Z.mod_pos_bound; lia].
Qed.

(** Sending the tag back matches it, alone or behind other entries that are not
    [*], strong or weak. *)
Lemma etag_self_matches st (weak : bool) fuel :
  let e := etag_of st in
  etag_list_matches (S fuel) (if weak then e else zdrop 2 e) e = true.
Proof.
  intros e. destruct (etag_of_shape st) as (body & He & Hb). unfold e. rewrite He.
  set (q := [DQUOTE] ++ body ++ [DQUOTE]).
  assert (strip_weak (str "W/" ++ q) = q) as Hs by done.
  assert (strip_weak q = q) as Hs' by done.
  assert (span not_comma q = (q, [])) as Hspan.
  { apply span_all. unfold q. repeat (apply Forall_app; split); try by repeat constructor.
    eapply Forall_impl; [done|]. by intros ? []. }
  assert (rtrim is_ows q = q) as Hr.
  { unfold q. rewrite app_assoc. by apply rtrim_id. }
  destruct weak.
  - change (etag_list_matches (S fuel) (str "W/" ++ q) (str "W/" ++ q))
      with (let '(entry, rest) := span not_comma (strip_weak (str "W/" ++ q)) in
            if streq (rtrim is_ows entry) (strip_weak (str "W/" ++ q)) then true
            else etag_list_matches fuel rest (str "W/" ++ q)).
    by rewrite Hs, Hspan, Hr, streq_refl.
  - change (zdrop 2 (str "W/" ++ q)) with q.
    change (etag_list_matches (S fuel) q (str "W/" ++ q))
      with (let '(entry, rest) := span not_comma (strip_weak q) in
            if streq (rtrim is_ows entry) (strip_weak (str "W/" ++ q)) then true
            else etag_list_matches fuel rest (str "W/" ++ q)).
    by rewrite Hs', Hs, Hspan, Hr, streq_refl.
Qed.

(** ** Mounts *)

Definition mount_ok (m : HttpStaticMount) : Prop :=
  deref (sm_prefix m) = "/"%ch ∧ zlen (sm_prefix m) < HTTP_PATH_MAX ∧
  (∀ u, sm_prefix m = u ++ ["/"%ch] → u = []) ∧ has_control_chars (sm_prefix m) = false.

(** The mounts have pairwise different, normalised prefixes. *)
Definition mounts_ok (mounts : list HttpStaticMount) : Prop :=
  Forall mount_ok mounts ∧ NoDup (map sm_prefix mounts).

Lemma normalize_prefix_spec prefix :
  deref prefix = "/"%ch →
  deref (normalize_prefix prefix) = "/"%ch ∧ zlen (normalize_prefix prefix) <= zlen prefix ∧
  (∀ u, normalize_prefix prefix = u ++ ["/"%ch] → u = []) ∧
  (has_control_chars prefix = false → has_control_chars (normalize_prefix prefix) = false).
Proof.
  intros Hp. destruct prefix as [|c r]; [done|]. simpl in Hp. subst c. simpl.
  destruct (rtrim_prefix (λ c, c =? "/"%ch) r) as (t & Hr & _). split_and!; [done| | |].
  - rewrite Hr at 2. zlen_lia.
  - intros u Hu. destruct u as [|x u]; [done|]. simpl in Hu. injection Hu as -> Hu.
    apply rtrim_last in Hu. cbv beta in Hu. breflect. done.
  - unfold has_control_chars. intros H. rewrite Hr in H. simpl in *.
    rewrite existsb_app in H. by breflect.
Qed.

Lemma http_static_mount_ok mounts cfg :
  mounts_ok mounts → returns (http_static_mount mounts cfg) (λ r,
    mounts_ok r.2 ∧ match r.1 with
                    | SERVER_OK => ∃ m, r.2 = m :: mounts
                    | SERVER_ERROR => r.2 = mounts
                    end).
Proof.
  intros Hok. unfold http_static_mount.
  destruct (sc_prefix cfg) as [prefix|]; [|by apply returns_ret].
  destruct (sc_root cfg) as [root|]; [|by apply returns_ret].
  case_if; [by apply returns_ret|]. case_if; [by apply returns_ret|]. breflect.
  apply returns_bind with (λ _, True); [done|]. intros st _.
  destruct st as [[[] ? ?]|]; try by apply returns_ret.
  case_if; [by apply returns_ret|].
  apply returns_bind with (λ _, True); [done|]. intros ok _.
  case_if; [by apply returns_ret|].
  apply returns_bind with (λ _, True); [done|]. intros p _.
  apply returns_bind with (λ _, True); [done|]. intros rr _.
  apply returns_bind with (λ _, True); [done|]. intros i _.
  case_if; [by apply returns_ret|]. apply returns_ret. simpl. split; [|eauto].
  destruct Hok as [Hf Hn].
  destruct (normalize_prefix_spec prefix) as (Hp1 & Hp2 & Hp3 & Hp4); [done|]. split.
  - constructor; [|done]. split; [done|]. split; [simpl; lia|]. split; [done|]. by apply Hp4.
  - simpl. apply NoDup_cons. split; [|done].
    intros Hin. apply list_elem_of_fmap in Hin as (m & Hm & Hin).
    match goal with H : existsb _ mounts = false |- _ => rename H into Hex end.
    assert (existsb (λ m, streq (sm_prefix m) (normalize_prefix prefix)) mounts = true); [|congruence].
    apply existsb_exists. exists m. split; [by apply list_elem_of_In|]. by apply streq_true.
Qed.

(** A root directory that resolves to [/] serves nothing: no resolved path but
    the root itself, or one with a doubled slash, passes the prefix test. *)
Lemma root_slash_serves_nothing root fs_path w r :
  fs_realpath (w_fs w) root = Some (str "/") → fs_realpath (w_fs w) fs_path = Some r →
  nul_free r → r ≠ str "/" → deref (zdrop 1 r) ≠ "/"%ch →
  result (confine root fs_path) w = false.
Proof.
  intros Hr Hf Hn Hne Hs. unfold confine, result. rewrite !bind_run.
  unfold result, world, realpath. cbn [fst snd mret M_ret]. rewrite Hr, Hf.
  destruct (starts_with (str "/") r) eqn:E; [|done].
  apply starts_with_true in E as [t ->]. change (zlen (str "/")) with 1 in *.
  change (zdrop 1 (str "/" ++ t)) with t in *.
  destruct t as [|c t]; [done|]. simpl in *.
  apply Forall_cons in Hn as [_ Hn]. apply Forall_cons in Hn as [Hc _].
  by rewrite !(proj2 (Z.eqb_neq _ _)).
Qed.
