(* ===== verification/Routing.v ===== *)
(** * Registration and routing

    [add_route_to], the registration functions, routers and groups,
    [apply_middleware], [execute_handler] and the [Allow] header of
    [src/c_http.c].  Routers are shared objects: a mount holds a pointer, so a
    route added after mounting is served. *)

From stdpp Require Import gmap relations.
From S2P Require Import Prelude CLib World Types Validate Headers Request Net Segments Response Encoder Static.
#[local] Open Scope Z_scope.

(** ** State *)

Record HttpRouter := { rt_routes : HttpRoutes; rt_mounted : bool }.

(** The routers on the heap, by pointer. *)
Abbreviation RouterHeap := (gmap nat HttpRouter).

Record HttpRouterMount := { rm_prefix_segments : HttpRouteSegments; rm_router : nat }.

(** The fields of [HttpServer] that do not belong to the socket, the workers or
    the websocket layer. *)
Record HttpServer := {
  sv_server_name : bytes;
  sv_keep_alive : bool;
  sv_routes : HttpRoutes;
  sv_middlewares : HttpMiddlewares;
  sv_encoders : HttpEncoders;
  sv_static_mounts : list HttpStaticMount;
  sv_error_handler : option HttpErrorHandler;
  sv_router_mounts : list HttpRouterMount;
}.

Definition set_sv_routes (x : HttpRoutes) (s : HttpServer) : HttpServer :=
  {| sv_server_name := sv_server_name s; sv_keep_alive := sv_keep_alive s; sv_routes := x;
     sv_middlewares := sv_middlewares s; sv_encoders := sv_encoders s;
     sv_static_mounts := sv_static_mounts s; sv_error_handler := sv_error_handler s;
     sv_router_mounts := sv_router_mounts s |}.
Definition set_sv_middlewares (x : HttpMiddlewares) (s : HttpServer) : HttpServer :=
  {| sv_server_name := sv_server_name s; sv_keep_alive := sv_keep_alive s; sv_routes := sv_routes s;
     sv_middlewares := x; sv_encoders := sv_encoders s; sv_static_mounts := sv_static_mounts s;
     sv_error_handler := sv_error_handler s; sv_router_mounts := sv_router_mounts s |}.
Definition set_sv_encoders (x : HttpEncoders) (s : HttpServer) : HttpServer :=
  {| sv_server_name := sv_server_name s; sv_keep_alive := sv_keep_alive s; sv_routes := sv_routes s;
     sv_middlewares := sv_middlewares s; sv_encoders := x;
     sv_static_mounts := sv_static_mounts s; sv_error_handler := sv_error_handler s;
     sv_router_mounts := sv_router_mounts s |}.
Definition set_sv_static_mounts (x : list HttpStaticMount) (s : HttpServer) : HttpServer :=
  {| sv_server_name := sv_server_name s; sv_keep_alive := sv_keep_alive s; sv_routes := sv_routes s;
     sv_middlewares := sv_middlewares s; sv_encoders := sv_encoders s;
     sv_static_mounts := x; sv_error_handler := sv_error_handler s;
     sv_router_mounts := sv_router_mounts s |}.
Definition set_sv_router_mounts (x : list HttpRouterMount) (s : HttpServer) : HttpServer :=
  {| sv_server_name := sv_server_name s; sv_keep_alive := sv_keep_alive s; sv_routes := sv_routes s;
     sv_middlewares := sv_middlewares s; sv_encoders := sv_encoders s;
     sv_static_mounts := sv_static_mounts s; sv_error_handler := sv_error_handler s;
     sv_router_mounts := x |}.
Definition set_sv_error_handler (x : option HttpErrorHandler) (s : HttpServer) : HttpServer :=
  {| sv_server_name := sv_server_name s; sv_keep_alive := sv_keep_alive s; sv_routes := sv_routes s;
     sv_middlewares := sv_middlewares s; sv_encoders := sv_encoders s;
     sv_static_mounts := sv_static_mounts s; sv_error_handler := x;
     sv_router_mounts := sv_router_mounts s |}.

Definition http_set_error_handler (server : HttpServer) (handler : option HttpErrorHandler)
  : HttpServer := set_sv_error_handler handler server.

(** ** Adding routes *)

(** The checks on the parameters of a pattern; [earlier] are the segments before. *)
Fixpoint validate_params (earlier rest : list HttpRouteSegment) (param_count : Z) : bool :=
  match rest with
  | [] => true
  | s :: rest =>
      if negb (seg_is_param s) then validate_params (earlier ++ [s]) rest param_count
      else
        let param_count := param_count + 1 in
        if (HTTP_MAX_PARAMS <? param_count) || (HTTP_PARAM_KEY_MAX <=? zlen (seg_text s)) then false
        else if existsb (λ o, seg_is_param o && streq (seg_text o) (seg_text s)) earlier then false
        else validate_params (earlier ++ [s]) rest param_count
  end.

Definition grow_routes (routes : HttpRoutes) : M (option HttpRoutes) :=
  if zlen (rs_routes routes) =? rs_capacity routes then
    let new_cap := if rs_capacity routes =? 0 then 8 else rs_capacity routes * 2 in
    ok ← malloc;
    mret (if (ok : bool) then Some {| rs_routes := rs_routes routes; rs_capacity := new_cap |}
          else None)
  else mret (Some routes).

Definition add_route_to (routes : HttpRoutes) (path : bytes) (handler : HttpHandler)
    (method : HttpMethod) : M (HttpRouteAddResult * HttpRoutes) :=
  if HTTP_PATH_MAX <=? zlen path then mret (HTTP_ROUTE_ADD_ERROR, routes)
  else if strchr_found path "?"%ch then mret (HTTP_ROUTE_ADD_ERROR, routes)
  else
    grown ← grow_routes routes;
    match grown with
    | None => mret (HTTP_ROUTE_ADD_ERROR, routes)
    | Some routes =>
        if existsb (λ r, bool_decide (r_method r = method) && streq (r_path r) path)
             (rs_routes routes) then mret (HTTP_ROUTE_ADD_CONFLICT, routes)
        else
          owned_path ← malloc;
          if negb owned_path then mret (HTTP_ROUTE_ADD_ERROR, routes)
          else
            segments ← http_parse_route_segments path;
            match segments with
            | None => mret (HTTP_ROUTE_ADD_ERROR, routes)
            | Some segments =>
                if negb (validate_params [] (segs segments) 0) then
                  mret (HTTP_ROUTE_ADD_ERROR, routes)
                else
                  let route := {| r_path := path; r_handler := handler; r_method := method;
                                  r_segments := segments |} in
                  mret (HTTP_ROUTE_ADD_OK,
                        {| rs_routes := rs_routes routes ++ [route];
                           rs_capacity := rs_capacity routes |})
            end
    end.

(** [http_get], [http_post], ... fix the method; NULL arguments are [None]. *)
Definition http_add_route (server : HttpServer) (path : option bytes) (handler : option HttpHandler)
    (method : HttpMethod) : M (HttpRouteAddResult * HttpServer) :=
  match path, handler with
  | Some path, Some handler =>
      if negb (deref path =? "/"%ch) then mret (HTTP_ROUTE_ADD_ERROR, server)
      else
        '(rc, routes) ← add_route_to (sv_routes server) path handler method;
        mret (rc, set_sv_routes routes server)
  | _, _ => mret (HTTP_ROUTE_ADD_ERROR, server)
  end.

Definition http_get server path handler := http_add_route server path handler HTTP_METHOD_GET.
Definition http_post server path handler := http_add_route server path handler HTTP_METHOD_POST.
Definition http_patch server path handler := http_add_route server path handler HTTP_METHOD_PATCH.
Definition http_put server path handler := http_add_route server path handler HTTP_METHOD_PUT.
Definition http_delete server path handler := http_add_route server path handler HTTP_METHOD_DELETE.
Definition http_head server path handler := http_add_route server path handler HTTP_METHOD_HEAD.
Definition http_connect server path handler := http_add_route server path handler HTTP_METHOD_CONNECT.
Definition http_trace server path handler := http_add_route server path handler HTTP_METHOD_TRACE.
Definition http_options server path handler := http_add_route server path handler HTTP_METHOD_OPTIONS.

(** ** Routers *)

Definition new_router : HttpRouter :=
  {| rt_routes := {| rs_routes := []; rs_capacity := 0 |}; rt_mounted := false |}.

(** The pointer of the new router, if the allocation succeeds. *)
Definition http_router_create (heap : RouterHeap) : M (option nat * RouterHeap) :=
  ok ← malloc;
  let p := fresh (dom heap) in
  mret (if (ok : bool) then (Some p, <[p := new_router]> heap) else (None, heap)).

(** A mounted router is the server's: it is not freed. *)
Definition http_router_free (heap : RouterHeap) (router : option nat) : RouterHeap :=
  match router with
  | None => heap
  | Some p =>
      match heap !! p with
      | Some r => if rt_mounted r then heap else delete p heap
      | None => heap
      end
  end.

(** [DEFINE_ROUTER_ROUTE]: [http_router_get] and the others fix the method. *)
Definition http_router_route (heap : RouterHeap) (router : nat) (path : option bytes)
    (handler : option HttpHandler) (method : HttpMethod) : M (HttpRouteAddResult * RouterHeap) :=
  match heap !! router, path, handler with
  | Some r, Some path, Some handler =>
      if negb (deref path =? "/"%ch) then mret (HTTP_ROUTE_ADD_ERROR, heap)
      else
        '(rc, routes) ← add_route_to (rt_routes r) path handler method;
        mret (rc, <[router := {| rt_routes := routes; rt_mounted := rt_mounted r |}]> heap)
  | _, _, _ => mret (HTTP_ROUTE_ADD_ERROR, heap)
  end.

Definition http_use (server : HttpServer) (heap : RouterHeap) (prefix : option bytes)
    (router : option nat) : M (HttpUseResult * HttpServer * RouterHeap) :=
  let fail := mret (HTTP_USE_ERROR, server, heap) in
  match prefix, router with
  | Some prefix, Some p =>
      match heap !! p with
      | None => fail
      | Some r =>
          if negb (deref prefix =? "/"%ch) || rt_mounted r then fail
          else if HTTP_PATH_MAX <=? zlen prefix then fail
          else if strchr_found prefix "?"%ch then fail
          else
            mount ← malloc;
            if negb mount then fail
            else
              segments ← http_parse_route_segments prefix;
              match segments with
              | None => fail
              | Some segments =>
                  if existsb seg_is_param (segs segments) then fail
                  else
                    let mount := {| rm_prefix_segments := segments; rm_router := p |} in
                    mret (HTTP_USE_OK,
                          set_sv_router_mounts (sv_router_mounts server ++ [mount]) server,
                          <[p := {| rt_routes := rt_routes r; rt_mounted := true |}]> heap)
              end
      end
  | _, _ => fail
  end.

(** ** Middleware and groups *)

Definition http_middleware (server : HttpServer) (path : option bytes)
    (handler : option HttpMiddlewareHandler) : M (HttpMiddlewareAddResult * HttpServer) :=
  match handler with
  | None => mret (HTTP_MIDDLEWARE_ADD_ERROR, server)
  | Some handler =>
      if match path with Some path => negb (deref path =? "/"%ch) | None => false end then
        mret (HTTP_MIDDLEWARE_ADD_ERROR, server)
      else
        let ms := sv_middlewares server in
        let full := zlen (ms_middlewares ms) =? ms_capacity ms in
        grown ← (if full then malloc else mret true);
        if negb grown then mret (HTTP_MIDDLEWARE_ADD_ERROR, server)
        else
          let new_cap := if full then (if ms_capacity ms =? 0 then 8 else ms_capacity ms * 2)
                         else ms_capacity ms in
          let server := set_sv_middlewares
            {| ms_middlewares := ms_middlewares ms; ms_capacity := new_cap |} server in
          owned ← (if bool_decide (path = None) then mret true else malloc);
          if negb owned then mret (HTTP_MIDDLEWARE_ADD_ERROR, server)
          else
            mret (HTTP_MIDDLEWARE_ADD_OK, set_sv_middlewares
              {| ms_middlewares := ms_middlewares ms ++ [{| m_path := path; m_handler := handler |}];
                 ms_capacity := new_cap |} server)
  end.

(** [None]: the result does not fit the buffer. *)
Definition join_path (size : Z) (prefix path : bytes) : option bytes :=
  let full := if streq path (str "/") then prefix else prefix ++ path in
  if zlen full <? size then Some full else None.

(** [DEFINE_GROUP_ROUTE]: the group is its prefix. *)
Definition http_group_route (server : HttpServer) (prefix : bytes) (path : option bytes)
    (handler : option HttpHandler) (method : HttpMethod) : M (HttpRouteAddResult * HttpServer) :=
  match path with
  | None => mret (HTTP_ROUTE_ADD_ERROR, server)
  | Some path =>
      if negb (deref path =? "/"%ch) then mret (HTTP_ROUTE_ADD_ERROR, server)
      else
        match join_path 1024 prefix path with
        | None => mret (HTTP_ROUTE_ADD_ERROR, server)
        | Some full => http_add_route server (Some full) handler method
        end
  end.

Definition http_group_middleware (server : HttpServer) (prefix : bytes) (path : option bytes)
    (handler : option HttpMiddlewareHandler) : M (HttpMiddlewareAddResult * HttpServer) :=
  match handler with
  | None => mret (HTTP_MIDDLEWARE_ADD_ERROR, server)
  | Some _ =>
      match path with
      | None => http_middleware server (Some prefix) handler
      | Some path =>
          if negb (deref path =? "/"%ch) then mret (HTTP_MIDDLEWARE_ADD_ERROR, server)
          else
            match join_path 1024 prefix path with
            | None => mret (HTTP_MIDDLEWARE_ADD_ERROR, server)
            | Some full => http_middleware server (Some full) handler
            end
      end
  end.

(** [false]: a middleware stopped the request. *)
Fixpoint apply_middleware (middlewares : list HttpMiddleware) (req : HttpRequest)
    (res : HttpResponse) : M (bool * HttpResponse) :=
  match middlewares with
  | [] => mret (true, res)
  | m :: middlewares =>
      if match m_path m with None => true | Some mid_path => path_matches mid_path (req_path req) end
      then
        '(rc, res) ← m_handler m req res;
        match rc with
        | HTTP_MIDDLEWARE_STOP => mret (false, res)
        | HTTP_MIDDLEWARE_CONTINUE => apply_middleware middlewares req res
        end
      else apply_middleware middlewares req res
  end.

(** ** Dispatch *)

Inductive HandlerResult :=
  HANDLER_OK | HANDLER_NOT_FOUND | HANDLER_METHOD_NOT_ALLOWED | HANDLER_NOT_IMPLEMENTED.

#[export] Instance HandlerResult_eq_dec : EqDecision HandlerResult.
Proof. solve_decision. Defined.

(** Appends a method name to the [Allow] text, when it fits. *)
Definition allow_append (size : Z) (allow name : bytes) : bytes :=
  if 0 <? zlen allow then
    if size <=? zlen allow + 2 + zlen name then allow else allow ++ str ", " ++ name
  else if size <=? zlen name then allow
  else name.

Definition route_matches (req_segments : HttpRouteSegments) (offset : Z) (r : HttpRoute) : bool :=
  (segments_match_at (r_segments r) req_segments offset None).1.

Fixpoint collect_routes (routes : list HttpRoute) (req_segments : HttpRouteSegments) (offset : Z)
    (size : Z) (allow : bytes) : bytes :=
  match routes with
  | [] => allow
  | r :: routes =>
      collect_routes routes req_segments offset size
        (if route_matches req_segments offset r
         then allow_append size allow (method_name (r_method r)) else allow)
  end.

(** The routes a mount leads to. *)
Definition mount_routes (heap : RouterHeap) (m : HttpRouterMount) : list HttpRoute :=
  match heap !! rm_router m with Some r => rs_routes (rt_routes r) | None => [] end.

Fixpoint collect_mounts (heap : RouterHeap) (mounts : list HttpRouterMount)
    (req_segments : HttpRouteSegments) (size : Z) (allow : bytes) : bytes :=
  match mounts with
  | [] => allow
  | m :: mounts =>
      collect_mounts heap mounts req_segments size
        (if prefix_segments_match (rm_prefix_segments m) req_segments
         then collect_routes (mount_routes heap m) req_segments
                (zlen (segs (rm_prefix_segments m))) size allow
         else allow)
  end.

Definition collect_allow (server : HttpServer) (heap : RouterHeap)
    (req_segments : HttpRouteSegments) (size : Z) : bytes :=
  collect_mounts heap (sv_router_mounts server) req_segments size
    (collect_routes (rs_routes (sv_routes server)) req_segments 0 size []).

(** The winner binds its parameters. *)
Definition bind_params (r : HttpRoute) (req_segments : HttpRouteSegments) (offset : Z)
    (params : HttpParams) : HttpParams :=
  default params (segments_match_at (r_segments r) req_segments offset (Some params)).2.

(** The first route that matches path and method; [path_exists] notes a route
    that matches the path. *)
Fixpoint scan_routes (routes : list HttpRoute) (req_segments : HttpRouteSegments) (offset : Z)
    (method : HttpMethod) (params : HttpParams) (path_exists : bool)
  : option HttpHandler * HttpParams * bool :=
  match routes with
  | [] => (None, params, path_exists)
  | r :: routes =>
      if negb (route_matches req_segments offset r) then
        scan_routes routes req_segments offset method params path_exists
      else if bool_decide (r_method r = method) then
        (Some (r_handler r), bind_params r req_segments offset params, true)
      else scan_routes routes req_segments offset method params true
  end.

(** The fallback of HEAD: the first GET route that matches. *)
Fixpoint scan_get (routes : list HttpRoute) (req_segments : HttpRouteSegments) (offset : Z)
    (params : HttpParams) : option HttpHandler * HttpParams :=
  match routes with
  | [] => (None, params)
  | r :: routes =>
      if negb (route_matches req_segments offset r)
         || negb (bool_decide (r_method r = HTTP_METHOD_GET)) then
        scan_get routes req_segments offset params
      else (Some (r_handler r), bind_params r req_segments offset params)
  end.

(** One table of routes: the server's, or a router's. *)
Definition scan_table (routes : list HttpRoute) (req_segments : HttpRouteSegments) (offset : Z)
    (method : HttpMethod) (params : HttpParams) (path_exists : bool)
  : option HttpHandler * HttpParams * bool :=
  match scan_routes routes req_segments offset method params path_exists with
  | (None, params, path_exists) =>
      if bool_decide (method = HTTP_METHOD_HEAD) then
        let '(handler, params) := scan_get routes req_segments offset params in
        (handler, params, path_exists)
      else (None, params, path_exists)
  | found => found
  end.

Fixpoint scan_mounts (heap : RouterHeap) (mounts : list HttpRouterMount)
    (req_segments : HttpRouteSegments) (method : HttpMethod) (params : HttpParams)
    (path_exists : bool) : option HttpHandler * HttpParams * bool :=
  match mounts with
  | [] => (None, params, path_exists)
  | m :: mounts =>
      if negb (prefix_segments_match (rm_prefix_segments m) req_segments) then
        scan_mounts heap mounts req_segments method params path_exists
      else
        match scan_table (mount_routes heap m) req_segments
                (zlen (segs (rm_prefix_segments m))) method params path_exists with
        | (None, params, path_exists) =>
            scan_mounts heap mounts req_segments method params path_exists
        | found => found
        end
  end.

Definition select_handler (server : HttpServer) (heap : RouterHeap)
    (req_segments : HttpRouteSegments) (method : HttpMethod) (params : HttpParams)
  : option HttpHandler * HttpParams * bool :=
  match scan_table (rs_routes (sv_routes server)) req_segments 0 method params false with
  | (None, params, path_exists) =>
      scan_mounts heap (sv_router_mounts server) req_segments method params path_exists
  | found => found
  end.

Definition execute_handler (server : HttpServer) (heap : RouterHeap) (req : HttpRequest)
    (res : HttpResponse) (req_segments : HttpRouteSegments)
  : M (HandlerResult * HttpRequest * HttpResponse) :=
  match string_to_http_method (req_method req) with
  | None => mret (HANDLER_NOT_IMPLEMENTED, req, res)
  | Some method =>
      let '(handler, params, path_exists) :=
        select_handler server heap req_segments method (req_params req) in
      let req := set_req_params params req in
      match handler with
      | Some handler =>
          res ← handler req res;
          mret (HANDLER_OK, req, res)
      | None =>
          let allow := if bool_decide (method = HTTP_METHOD_OPTIONS)
                       then collect_allow server heap req_segments 128 else [] in
          if 0 <? zlen allow then
            res ← set_header_res res (str "Allow") allow;
            mret (HANDLER_OK, req, set_res_status HTTP_STATUS_NO_CONTENT res)
          else
            '(served, res) ← http_static_dispatch (sv_static_mounts server) req res;
            mret (match served with
                  | HTTP_STATIC_SERVED => HANDLER_OK
                  | HTTP_STATIC_METHOD_NOT_ALLOWED => HANDLER_METHOD_NOT_ALLOWED
                  | HTTP_STATIC_NOT_MATCHED =>
                      if (path_exists : bool) then HANDLER_METHOD_NOT_ALLOWED else HANDLER_NOT_FOUND
                  end, req, res)
      end
  end.

(** RFC 9110 section 15.4.6. *)
Definition set_allow_header (server : HttpServer) (heap : RouterHeap)
    (req_segments : HttpRouteSegments) (res : HttpResponse) : M HttpResponse :=
  let allow := collect_allow server heap req_segments 128 in
  if 0 <? zlen allow then set_header_res res (str "Allow") allow else mret res.

(** ** The table a registration builds *)

Record route_ok (r : HttpRoute) : Prop := {
  ro_path : zlen (r_path r) < HTTP_PATH_MAX;
  ro_query : ¬ ("?"%ch ∈ r_path r);
  ro_segments : route_segments (r_path r) = Some (segs (r_segments r));
  ro_pattern : pattern_ok (segs (r_segments r));
}.

Definition route_key (r : HttpRoute) : HttpMethod * bytes := (r_method r, r_path r).

(** Every route is well formed, and no two have the same method and path. *)
Record routes_ok (rs : HttpRoutes) : Prop := {
  rso_routes : Forall route_ok (rs_routes rs);
  rso_keys : NoDup (map route_key (rs_routes rs));
  rso_capacity : zlen (rs_routes rs) <= rs_capacity rs;
}.

Lemma validate_params_spec earlier rest n :
  n = zlen (params_of earlier) → NoDup (params_of earlier) →
  validate_params earlier rest n = true ↔
  (zlen (params_of rest) = 0 ∨ zlen (params_of (earlier ++ rest)) <= HTTP_MAX_PARAMS) ∧
  Forall (λ k, zlen k < HTTP_PARAM_KEY_MAX) (params_of rest) ∧ NoDup (params_of (earlier ++ rest)).
Proof.
  assert (∀ a b, params_of (a ++ b) = params_of a ++ params_of b) as Happ.
  { intros a b. unfold params_of. by rewrite filter_app, map_app. }
  revert earlier n. induction rest as [|s rest IH]; intros earlier n Hn Hnd; simpl.
  { rewrite app_nil_r. change (params_of []) with (@nil bytes). split; [|done].
    intros _. split; [by left|]. split; [constructor|done]. }
  rewrite !params_of_cons, Happ, params_of_cons.
  assert (params_of [s] = if seg_is_param s then [seg_text s] else []) as Hs1.
  { by rewrite params_of_cons. }
  destruct (seg_is_param s) eqn:Es; cbn [negb].
  - assert (existsb (λ o, seg_is_param o && streq (seg_text o) (seg_text s)) earlier = true
            ↔ seg_text s ∈ params_of earlier) as Hex.
    { rewrite existsb_exists. unfold params_of. rewrite list_elem_of_fmap. split.
      - intros (o & Ho & H). breflect. exists o. rewrite list_elem_of_filter.
        split; [symmetry; by apply streq_true|]. split; [done|by apply list_elem_of_In].
      - intros (o & Ho & H). apply list_elem_of_filter in H as [Hp H]. exists o.
        split; [by apply list_elem_of_In|]. rewrite Hp. by apply streq_true. }
    pose proof (zlen_nonneg (params_of rest)) as Hnn.
    case_if.
    { split; [done|]. intros ([H|H] & Hk & _); [rewrite zlen_cons in H; lia|].
      apply Forall_cons in Hk as [Hk _]. rewrite zlen_app, zlen_cons in H.
      breflect. destruct Heqb as [Hb|Hb]; breflect; lia. }
    breflect. case_if.
    { split; [done|]. intros (_ & _ & Hd). apply NoDup_app in Hd as (_ & Hd & _).
      destruct (Hd (seg_text s)); [by apply Hex|by left]. }
    assert (¬ (seg_text s ∈ params_of earlier)) as Hnew by (rewrite <- Hex; congruence).
    rewrite IH.
    + rewrite <- app_assoc. cbn [app]. rewrite Happ, params_of_cons, Es, Forall_cons, zlen_app, !zlen_cons.
      split; [intros (Hc & Hk & Hd)|intros (Hc & [_ Hk] & Hd)]; split_and!; try done.
      * right. lia.
      * right. destruct Hc; lia.
    + rewrite Happ, Hs1, zlen_app, zlen_cons, zlen_nil. lia.
    + rewrite Happ, Hs1. apply NoDup_app. split; [done|]. split; [|apply NoDup_singleton].
      intros x Hx Hx'. apply list_elem_of_singleton in Hx'. by subst.
  - rewrite IH.
    + rewrite <- app_assoc. simpl. by rewrite !Happ, params_of_cons, Es.
    + by rewrite Happ, Hs1, app_nil_r.
    + by rewrite Happ, Hs1, app_nil_r.
Qed.

Lemma validate_params_pattern_ok path segments :
  route_segments path = Some segments → validate_params [] segments 0 = true → pattern_ok segments.
Proof.
  intros Hp Hv. apply (validate_params_spec [] segments 0) in Hv as (H1 & H2 & H3); [|done|constructor].
  simpl in *. split; [by eapply pieces_ok|]. split; [destruct H1; limit_lia|done].
Qed.

Lemma grow_routes_spec rs :
  zlen (rs_routes rs) <= rs_capacity rs →
  returns (grow_routes rs) (λ r, match r with
    | Some rs' => rs_routes rs' = rs_routes rs ∧ zlen (rs_routes rs') < rs_capacity rs'
    | None => True
    end).
Proof.
  intros Hc. unfold grow_routes. case_if; breflect.
  - apply returns_bind with (λ _, True); [done|]. intros [] _; apply returns_ret; [|done].
    split; [done|]. simpl. case_if; breflect; zlen_lia.
  - apply returns_ret. split; [done|lia].
Qed.

(** Registration: OK appends exactly the route asked for, CONFLICT means that
    method and path were registered before, and nothing but OK changes the
    routes. *)
Lemma add_route_to_spec rs path handler method :
  routes_ok rs →
  returns (add_route_to rs path handler method) (λ '(rc, rs'),
    routes_ok rs' ∧
    match rc with
    | HTTP_ROUTE_ADD_OK =>
        ∃ segments, rs_routes rs' = rs_routes rs ++ [{| r_path := path; r_handler := handler;
            r_method := method; r_segments := segments |}] ∧
          route_segments path = Some (segs segments)
    | HTTP_ROUTE_ADD_CONFLICT =>
        rs_routes rs' = rs_routes rs ∧ (method, path) ∈ map route_key (rs_routes rs)
    | HTTP_ROUTE_ADD_ERROR => rs_routes rs' = rs_routes rs
    end).
Proof.
  intros Hok. unfold add_route_to. case_if; [by apply returns_ret|].
  case_if; [by apply returns_ret|]. breflect.
  eapply returns_bind; [apply grow_routes_spec, Hok|]. intros [rs1|]; [|intros _; by apply returns_ret].
  intros [Hr Hc]. destruct Hok as [Hf Hn Hcap].
  assert (routes_ok rs1) as Hok1 by (split; [by rewrite Hr..|lia]).
  case_if.
  { apply returns_ret. split; [done|]. split; [done|]. apply existsb_exists in Heqb1 as (r & Hin & Hb).
    breflect. apply list_elem_of_fmap. exists r. rewrite <- Hr. split; [|by apply list_elem_of_In].
    unfold route_key. by f_equal; [|symmetry; apply streq_true]. }
  assert (¬ ((method, path) ∈ map route_key (rs_routes rs1))) as Hnew.
  { intros Hin. apply list_elem_of_fmap in Hin as (r & Hk & Hin).
    injection Hk as -> ->.
    assert (existsb (λ r0, bool_decide (r_method r0 = r_method r) && streq (r_path r0) (r_path r))
              (rs_routes rs1) = true); [|congruence].
    apply existsb_exists. exists r. split; [by apply list_elem_of_In|].
    rewrite bool_decide_true by done. by rewrite streq_refl. }
  apply returns_bind with (λ _, True); [done|]. intros owned _. case_if; [by apply returns_ret|].
  apply returns_bind with (λ o, match o with
    | Some s => route_segments path = Some (segs s) | None => True end).
  { intros w. pose proof (http_parse_route_segments_spec path w) as Hp.
    by destruct (result (http_parse_route_segments path) w). }
  intros [segments|] Hseg; [|by apply returns_ret].
  case_if; [by apply returns_ret|]. breflect. apply returns_ret. split; [|exists segments; by rewrite <- Hr].
  split; simpl.
  - apply Forall_app. split; [by rewrite Hr|]. constructor; [|constructor]. split; simpl; try done.
    + match goal with H : strchr_found _ _ = false |- _ => unfold strchr_found in H end.
      breflect. by apply has_chr_false.
    + by eapply validate_params_pattern_ok.
  - rewrite map_app. apply NoDup_app. split; [by rewrite Hr|]. split; [|apply NoDup_singleton].
    intros k Hk Hk'. apply list_elem_of_singleton in Hk'. by subst k.
  - rewrite zlen_app, zlen_cons, zlen_nil. lia.
Qed.

(** ** What dispatch selects *)

(** The tables in the order they are asked: the server's routes, then the router
    of every mount whose prefix the path starts with; each with the number of
    segments its prefix consumed. *)
Definition tables (server : HttpServer) (heap : RouterHeap) (req_segments : HttpRouteSegments)
  : list (Z * list HttpRoute) :=
  (0, rs_routes (sv_routes server))
  :: map (λ m, (zlen (segs (rm_prefix_segments m)), mount_routes heap m))
       (List.filter (λ m, prefix_segments_match (rm_prefix_segments m) req_segments)
          (sv_router_mounts server)).

(** First match wins within a table; HEAD falls back to GET within it. *)
Definition table_pick (req_segments : HttpRouteSegments) (method : HttpMethod)
    (table : Z * list HttpRoute) : option HttpRoute :=
  let matching m := List.find (λ r, route_matches req_segments table.1 r
                                    && bool_decide (r_method r = m)) table.2 in
  match matching method with
  | Some r => Some r
  | None => if bool_decide (method = HTTP_METHOD_HEAD) then matching HTTP_METHOD_GET else None
  end.

Fixpoint first_pick (req_segments : HttpRouteSegments) (method : HttpMethod)
    (tables : list (Z * list HttpRoute)) : option (Z * HttpRoute) :=
  match tables with
  | [] => None
  | t :: tables =>
      match table_pick req_segments method t with
      | Some r => Some (t.1, r)
      | None => first_pick req_segments method tables
      end
  end.

Definition table_has_path (req_segments : HttpRouteSegments) (table : Z * list HttpRoute) : bool :=
  existsb (route_matches req_segments table.1) table.2.

(** What the scan returns when it picked [found] in [tables]. *)
Definition scan_answer (req_segments : HttpRouteSegments) (params : HttpParams) (path_exists : bool)
    (found : option (Z * HttpRoute)) : option HttpHandler * HttpParams * bool :=
  match found with
  | Some (offset, r) => (Some (r_handler r), bind_params r req_segments offset params, true)
  | None => (None, params, path_exists)
  end.

Lemma scan_routes_spec routes segs_ offset method params pe :
  scan_routes routes segs_ offset method params pe
  = scan_answer segs_ params (pe || existsb (route_matches segs_ offset) routes)
      ((λ r, (offset, r)) <$> List.find (λ r, route_matches segs_ offset r
                                             && bool_decide (r_method r = method)) routes).
Proof.
  revert pe. induction routes as [|r routes IH]; intros pe; simpl; [by rewrite orb_false_r|].
  destruct (route_matches segs_ offset r) eqn:E; simpl; [|apply IH].
  case_if; [done|]. rewrite IH. by rewrite orb_true_r.
Qed.

Lemma scan_get_spec routes segs_ offset params :
  scan_get routes segs_ offset params
  = match List.find (λ r, route_matches segs_ offset r
                          && bool_decide (r_method r = HTTP_METHOD_GET)) routes with
    | Some r => (Some (r_handler r), bind_params r segs_ offset params)
    | None => (None, params)
    end.
Proof.
  induction routes as [|r routes IH]; simpl; [done|]. rewrite IH.
  by destruct (route_matches segs_ offset r), (bool_decide (r_method r = HTTP_METHOD_GET)).
Qed.

Lemma scan_table_spec routes segs_ offset method params pe :
  scan_table routes segs_ offset method params pe
  = scan_answer segs_ params (pe || table_has_path segs_ (offset, routes))
      ((λ r, (offset, r)) <$> table_pick segs_ method (offset, routes)).
Proof.
  unfold scan_table, table_pick, table_has_path. cbn [fst snd]. rewrite scan_routes_spec.
  destruct (List.find (λ r, route_matches segs_ offset r && bool_decide (r_method r = method)) routes)
    as [r|]; [done|]. cbn [fmap option_fmap option_map scan_answer].
  destruct (bool_decide (method = HTTP_METHOD_HEAD)); [|done]. rewrite scan_get_spec.
  destruct (List.find (λ r, route_matches segs_ offset r && _) routes) as [r|] eqn:E; [|done]. simpl.
  apply List.find_some in E as [Hin Hm]. breflect. f_equal. apply orb_true_iff. right.
  apply existsb_exists. eauto.
Qed.

Lemma scan_mounts_spec heap mounts segs_ method params pe :
  let ts := map (λ m, (zlen (segs (rm_prefix_segments m)), mount_routes heap m))
              (List.filter (λ m, prefix_segments_match (rm_prefix_segments m) segs_) mounts) in
  scan_mounts heap mounts segs_ method params pe
  = scan_answer segs_ params (pe || existsb (table_has_path segs_) ts) (first_pick segs_ method ts).
Proof.
  revert pe. induction mounts as [|m mounts IH]; intros pe; simpl; [by rewrite orb_false_r|].
  destruct (prefix_segments_match (rm_prefix_segments m) segs_); simpl; [|apply IH].
  rewrite scan_table_spec.
  destruct (table_pick segs_ method (zlen (segs (rm_prefix_segments m)), mount_routes heap m)); [done|].
  simpl. rewrite IH. by rewrite orb_assoc.
Qed.

(** Dispatch refines the specification: the first table with a pick decides, its
    route is run with its parameters bound, and otherwise [path_exists] tells
    whether any table knows the path. *)
Lemma select_handler_spec server heap segs_ method params :
  let ts := tables server heap segs_ in
  select_handler server heap segs_ method params
  = scan_answer segs_ params (existsb (table_has_path segs_) ts) (first_pick segs_ method ts).
Proof.
  unfold select_handler, tables. cbn [first_pick existsb]. rewrite scan_table_spec.
  destruct (table_pick segs_ method (0, rs_routes (sv_routes server))); [done|]. simpl.
  by rewrite scan_mounts_spec.
Qed.

(** ** The configuration a program builds *)

(** Every mount leads to a live router that is marked as mounted, no router is
    mounted twice, and every table is well formed. *)
Record config_ok (server : HttpServer) (heap : RouterHeap) : Prop := {
  co_routes : routes_ok (sv_routes server);
  co_heap : map_Forall (λ _ r, routes_ok (rt_routes r)) heap;
  co_mounted : Forall (λ m, ∃ r, heap !! rm_router m = Some r ∧ rt_mounted r = true)
                 (sv_router_mounts server);
  co_once : NoDup (map rm_router (sv_router_mounts server));
  co_prefix : Forall (λ m, segments_ok (rm_prefix_segments m) ∧
                           Forall (λ s, seg_is_param s = false) (segs (rm_prefix_segments m)))
                (sv_router_mounts server);
  co_static : mounts_ok (sv_static_mounts server);
}.

Lemma routes_ok_nil cap : 0 <= cap → routes_ok {| rs_routes := []; rs_capacity := cap |}.
Proof. intros H. split; [constructor|constructor|done]. Qed.

Lemma http_add_route_ok server heap path handler method :
  config_ok server heap →
  returns (http_add_route server path handler method) (λ r, config_ok r.2 heap).
Proof.
  intros Hok. unfold http_add_route.
  destruct path as [path|], handler as [handler|]; try by apply returns_ret.
  case_if; [by apply returns_ret|]. destruct Hok.
  eapply returns_bind; [by apply add_route_to_spec|]. intros [rc rs] [Hrs _].
  apply returns_ret. by split.
Qed.

Lemma http_router_create_ok server heap :
  config_ok server heap → returns (http_router_create heap) (λ r, config_ok server r.2).
Proof.
  intros Hok. unfold http_router_create.
  apply returns_bind with (λ _, True); [done|]. intros [] _; apply returns_ret; [|done].
  assert (heap !! fresh (dom heap) = None) as Hf by (apply not_elem_of_dom, is_fresh).
  destruct Hok. split; try done; simpl.
  - apply map_Forall_insert_2; [by apply routes_ok_nil|done].
  - eapply Forall_impl; [exact co_mounted0|]. intros m (r & Hr & Hm). exists r. split; [|done].
    rewrite lookup_insert_ne; [done|]. intros Heq. rewrite <- Heq, Hf in Hr. done.
Qed.

Lemma http_router_free_ok server heap router :
  config_ok server heap → config_ok server (http_router_free heap router).
Proof.
  intros Hok. unfold http_router_free. destruct router as [p|]; [|done].
  destruct (heap !! p) as [r|] eqn:Ep; [|done]. destruct (rt_mounted r) eqn:Em; [done|].
  destruct Hok. split; try done; simpl.
  - by apply map_Forall_delete.
  - eapply Forall_impl; [exact co_mounted0|]. intros m (r' & Hr & Hm). exists r'. split; [|done].
    rewrite lookup_delete_ne; [done|]. intros Heq. congruence.
Qed.

Lemma http_router_route_ok server heap router path handler method :
  config_ok server heap →
  returns (http_router_route heap router path handler method) (λ r, config_ok server r.2).
Proof.
  intros Hok. unfold http_router_route.
  destruct (heap !! router) as [r|] eqn:Er; [|by apply returns_ret].
  destruct path as [path|], handler as [handler|]; try by apply returns_ret.
  case_if; [by apply returns_ret|]. destruct Hok.
  eapply returns_bind; [apply add_route_to_spec; by eapply co_heap0|]. intros [rc rs] [Hrs _].
  apply returns_ret. split; try done; simpl.
  - by apply map_Forall_insert_2.
  - eapply Forall_impl; [exact co_mounted0|]. intros m (r' & Hr & Hm).
    destruct (decide (router = rm_router m)) as [->|Hne].
    + rewrite lookup_insert_eq. eexists. split; [done|]. simpl. congruence.
    + rewrite lookup_insert_ne by done. eauto.
Qed.

Lemma http_use_ok server heap prefix router :
  config_ok server heap →
  returns (http_use server heap prefix router) (λ '(rc, server', heap'),
    config_ok server' heap' ∧
    match rc with
    | HTTP_USE_OK => ∃ p r m, router = Some p ∧ heap !! p = Some r ∧ rt_mounted r = false ∧
        rm_router m = p ∧ sv_router_mounts server' = sv_router_mounts server ++ [m] ∧
        mount_routes heap' m = rs_routes (rt_routes r)
    | HTTP_USE_ERROR => server' = server ∧ heap' = heap
    end).
Proof.
  intros Hok. unfold http_use.
  destruct prefix as [prefix|], router as [p|]; try by apply returns_ret.
  destruct (heap !! p) as [r|] eqn:Ep; [|by apply returns_ret].
  case_if; [by apply returns_ret|]. case_if; [by apply returns_ret|]. case_if; [by apply returns_ret|].
  apply returns_bind with (λ _, True); [done|]. intros mo _. case_if; [by apply returns_ret|]. breflect.
  apply returns_bind with (λ o, match o with
    | Some s => route_segments prefix = Some (segs s) | None => True end).
  { intros w. pose proof (http_parse_route_segments_spec prefix w) as Hp.
    by destruct (result (http_parse_route_segments prefix) w). }
  intros [segments|] Hseg; [|by apply returns_ret]. case_if; [by apply returns_ret|].
  apply returns_ret. split.
  - destruct Hok. split; try done; simpl.
    + apply map_Forall_insert_2; [simpl; by eapply (co_heap0 p)|done].
    + apply Forall_app. split.
      * eapply Forall_impl; [exact co_mounted0|]. intros m (r' & Hr & Hm). exists r'. split; [|done].
        rewrite lookup_insert_ne; [done|]. intros Heq. congruence.
      * constructor; [|constructor]. simpl. rewrite lookup_insert_eq. by eexists.
    + rewrite map_app. apply NoDup_app. split; [done|]. split; [|apply NoDup_singleton].
      intros q Hq Hq'. apply list_elem_of_singleton in Hq'. simpl in Hq'. subst q.
      apply list_elem_of_fmap in Hq as (m & Hm & Hin). rewrite Forall_forall in co_mounted0.
      destruct (co_mounted0 m Hin) as (r' & Hr' & Hmt). congruence.
    + apply Forall_app. split; [done|]. constructor; [|constructor]. simpl. split.
      * by eapply pieces_ok.
      * rewrite Forall_forall. intros s Hs. destruct (seg_is_param s) eqn:E; [|done].
        assert (existsb seg_is_param (segs segments) = true); [|congruence].
        apply existsb_exists. exists s. split; [by apply list_elem_of_In|done].
  - exists p, r, {| rm_prefix_segments := segments; rm_router := p |}.
    split_and!; try done. unfold mount_routes. simpl. by rewrite lookup_insert_eq.
Qed.

Lemma http_middleware_ok server heap path handler :
  config_ok server heap →
  returns (http_middleware server path handler) (λ r, config_ok r.2 heap).
Proof.
  intros Hok. unfold http_middleware. destruct handler as [h|]; [|by apply returns_ret].
  case_if; [by apply returns_ret|].
  apply returns_bind with (λ _, True); [done|]. intros g _. case_if; [by apply returns_ret|].
  apply returns_bind with (λ _, True); [done|]. intros o _.
  case_if; apply returns_ret; destruct Hok; by split.
Qed.

(** One call of the configuration interface, in any world. *)
Inductive config_step : HttpServer * RouterHeap → HttpServer * RouterHeap → Prop :=
  | step_add_route s h path handler method w :
      config_step (s, h) ((result (http_add_route s path handler method) w).2, h)
  | step_group_route s h pre path handler method w :
      config_step (s, h) ((result (http_group_route s pre path handler method) w).2, h)
  | step_router_create s h w : config_step (s, h) (s, (result (http_router_create h) w).2)
  | step_router_route s h p path handler method w :
      config_step (s, h) (s, (result (http_router_route h p path handler method) w).2)
  | step_router_free s h p : config_step (s, h) (s, http_router_free h p)
  | step_use s h pre p w :
      config_step (s, h) ((result (http_use s h pre p) w).1.2, (result (http_use s h pre p) w).2)
  | step_middleware s h path handler w :
      config_step (s, h) ((result (http_middleware s path handler) w).2, h)
  | step_static s h cfg w :
      config_step (s, h)
        (set_sv_static_mounts (result (http_static_mount (sv_static_mounts s) cfg) w).2 s, h)
  | step_encoder s h encoder w :
      config_step (s, h)
        (set_sv_encoders (result (http_register_encoder (sv_encoders s) encoder) w).2 s, h)
  | step_error_handler s h handler : config_step (s, h) (http_set_error_handler s handler, h).

Lemma config_step_ok c c' : config_step c c' → config_ok c.1 c.2 → config_ok c'.1 c'.2.
Proof.
  intros Hs Hok. destruct Hs; simpl in *.
  - by apply http_add_route_ok.
  - unfold http_group_route. destruct path as [path|]; [|done]. case_if; [done|].
    destruct (join_path 1024 pre path); [|done]. by apply http_add_route_ok.
  - by apply http_router_create_ok.
  - by apply http_router_route_ok.
  - by apply http_router_free_ok.
  - pose proof (http_use_ok s h pre p Hok w) as H.
    destruct (result (http_use s h pre p) w) as [[rc s'] h']. apply H.
  - by apply http_middleware_ok.
  - pose proof (http_static_mount_ok _ cfg (co_static _ _ Hok) w) as [H _]. destruct Hok. by split.
  - destruct Hok. by split.
  - destruct Hok. by split.
Qed.

(** The server [http_create_server] hands out: nothing registered. *)
Definition unconfigured (server : HttpServer) : Prop :=
  rs_routes (sv_routes server) = [] ∧ 0 <= rs_capacity (sv_routes server) ∧
  sv_router_mounts server = [] ∧ sv_static_mounts server = [].

Lemma unconfigured_ok server : unconfigured server → config_ok server ∅.
Proof.
  intros (H1 & H2 & H3 & H4). split; rewrite ?H3, ?H4; try constructor; rewrite ?H1; try done;
    constructor.
Qed.

(** A server with one route, for the examples. *)
Definition bare_server : HttpServer :=
  {| sv_server_name := str "demo"; sv_keep_alive := true;
     sv_routes := {| rs_routes := []; rs_capacity := 8 |};
     sv_middlewares := {| ms_middlewares := []; ms_capacity := 0 |};
     sv_encoders := {| es_encoders := []; es_capacity := 0 |};
     sv_static_mounts := []; sv_error_handler := None; sv_router_mounts := [] |}.

Lemma bare_server_unconfigured : unconfigured bare_server.
Proof. done. Qed.

(** Answers with the text bound to [:id]. *)
Definition show_id : HttpHandler := λ req res,
  '(_, res) ← http_res_body res 200 (Some (str "text/plain")) (http_req_param req (Some (str "id")))
                (zlen (default [] (http_req_param req (Some (str "id")))));
  mret res.

Definition demo_server : HttpServer :=
  (result (http_add_route bare_server (Some (str "/user/:id")) (Some show_id) HTTP_METHOD_GET)
     quiet_world).2.

Lemma demo_server_ok : config_ok demo_server ∅.
Proof.
  apply (http_add_route_ok bare_server ∅ (Some (str "/user/:id")) (Some show_id) HTTP_METHOD_GET
           (unconfigured_ok _ bare_server_unconfigured) quiet_world).
Qed.

(** C4: whatever calls build a server's configuration, every registered route has a
    pattern that fits the parameter array with distinct names, no two routes of a
    table share method and path, no router is mounted twice or freed while mounted,
    and the static prefixes are distinct. *)
Theorem config_reachable_ok server server' heap' :
  unconfigured server → rtc config_step (server, ∅) (server', heap') → config_ok server' heap'.
Proof.
  intros Hu H. change (config_ok (server', heap').1 (server', heap').2). revert H.
  generalize (server', heap'). intros c H.
  apply (rtc_ind_r (R := config_step) (λ c, config_ok c.1 c.2) (server, ∅));
    [by apply unconfigured_ok| |exact H]. eauto using config_step_ok.
Qed.

Lemma config_reachable_ok_witness :
  config_ok (result (http_add_route bare_server (Some (str "/a")) None HTTP_METHOD_GET) quiet_world).2 ∅.
Proof.
  apply (config_reachable_ok bare_server).
  - repeat split; vm_compute; congruence.
  - apply rtc_once. apply step_add_route.
Defined.

(** ** The Allow text *)

(** The methods of the routes a path matches, in the order they are found. *)
Definition allowed_methods (req_segments : HttpRouteSegments) (tables : list (Z * list HttpRoute))
  : list HttpMethod :=
  concat (map (λ t, map r_method (List.filter (route_matches req_segments t.1) t.2)) tables).

(** [sep]arated by [", "]. *)
Fixpoint join (l : list bytes) : bytes :=
  match l with
  | [] => []
  | [x] => x
  | x :: l => x ++ str ", " ++ join l
  end.

Lemma join_snoc l x : l ≠ [] → join (l ++ [x]) = join l ++ str ", " ++ x.
Proof.
  induction l as [|y l IH]; intros H; [done|]. destruct l as [|z l]; [done|].
  change (join ((y :: z :: l) ++ [x])) with (y ++ str ", " ++ join ((z :: l) ++ [x])).
  rewrite IH by done. change (join (y :: z :: l)) with (y ++ str ", " ++ join (z :: l)).
  by rewrite <- !app_assoc.
Qed.

Lemma method_name_length m : 3 <= zlen (method_name m) <= 7.
Proof. by destruct m. Qed.

Lemma method_name_safe m : line_safe (method_name m).
Proof. apply header_value_has_injection_false. by destruct m. Qed.

Definition append_methods (size : Z) (l : list HttpMethod) (allow : bytes) : bytes :=
  fold_left (λ allow m, allow_append size allow (method_name m)) l allow.

Lemma collect_routes_fold routes segs_ offset size allow :
  collect_routes routes segs_ offset size allow
  = append_methods size (map r_method (List.filter (route_matches segs_ offset) routes)) allow.
Proof.
  revert allow. induction routes as [|r routes IH]; intros allow; simpl; [done|].
  rewrite IH. by destruct (route_matches segs_ offset r).
Qed.

Lemma append_methods_app size a b allow :
  append_methods size (a ++ b) allow = append_methods size b (append_methods size a allow).
Proof. apply fold_left_app. Qed.

Lemma collect_mounts_fold heap mounts segs_ size allow :
  collect_mounts heap mounts segs_ size allow
  = append_methods size (allowed_methods segs_
      (map (λ m, (zlen (segs (rm_prefix_segments m)), mount_routes heap m))
         (List.filter (λ m, prefix_segments_match (rm_prefix_segments m) segs_) mounts))) allow.
Proof.
  revert allow. induction mounts as [|m mounts IH]; intros allow; simpl; [done|].
  rewrite IH. destruct (prefix_segments_match (rm_prefix_segments m) segs_); [|done].
  rewrite collect_routes_fold. unfold allowed_methods. simpl. by rewrite append_methods_app.
Qed.

Lemma collect_allow_fold server heap segs_ size :
  collect_allow server heap segs_ size
  = append_methods size (allowed_methods segs_ (tables server heap segs_)) [].
Proof.
  unfold collect_allow. rewrite collect_mounts_fold, collect_routes_fold.
  unfold tables, allowed_methods. simpl. by rewrite append_methods_app.
Qed.

(** The buffer keeps room for its NUL, and what is in it is a header value. *)
Lemma append_methods_safe size l allow :
  zlen allow < size → line_safe allow →
  zlen (append_methods size l allow) < size ∧ line_safe (append_methods size l allow).
Proof.
  revert allow. induction l as [|m l IH]; intros allow Hl Hs; [done|]. simpl. 
  unfold allow_append. pose proof (method_name_safe m) as Hm. case_if; breflect.
  - case_if; breflect; apply IH; try done.
    + rewrite !zlen_app. change (zlen (str ", ")) with 2. lia.
    + rewrite !line_safe_app. split; [done|]. split; [|done]. by apply header_value_has_injection_false.
  - case_if; breflect; by apply IH.
Qed.

Lemma append_methods_fits size done_ l :
  zlen (join (map method_name (done_ ++ l))) < size →
  append_methods size l (join (map method_name done_)) = join (map method_name (done_ ++ l)).
Proof.
  revert done_. induction l as [|m l IH]; intros d Hl; [by rewrite app_nil_r|].
  replace (d ++ m :: l) with ((d ++ [m]) ++ l) in * by (by rewrite <- app_assoc).
  rewrite <- IH by done. simpl. f_equal.
  assert (∀ a b, a ≠ [] → zlen (join (map method_name a)) <= zlen (join (map method_name (a ++ b)))) as Hmono.
  { intros a b Ha. induction b as [|x b IHb] using rev_ind; [by rewrite app_nil_r|].
    rewrite app_assoc, (map_app _ (a ++ b)). change (map method_name [x]) with [method_name x].
    rewrite join_snoc by (by destruct a). rewrite zlen_app.
    pose proof (zlen_nonneg (str ", " ++ method_name x)). lia. }
  specialize (Hmono (d ++ [m]) l ltac:(by destruct d)).
  pose proof (method_name_length m). unfold allow_append.
  destruct d as [|x d].
  - simpl in *. by rewrite (proj2 (Z.leb_gt _ _)) by lia.
  - rewrite (map_app _ (x :: d)) in Hmono |- *. change (map method_name [m]) with [method_name m] in *.
    rewrite join_snoc in Hmono |- * by done.
    rewrite !zlen_app in Hmono. change (zlen (str ", ")) with 2 in Hmono.
    assert (0 < zlen (join (map method_name (x :: d)))) as Hpos.
    { pose proof (method_name_length x). destruct d as [|y d]; [simpl; lia|].
      change (join (map method_name (x :: y :: d)))
        with (method_name x ++ str ", " ++ join (map method_name (y :: d))).
      rewrite zlen_app. pose proof (zlen_nonneg (str ", " ++ join (map method_name (y :: d)))). lia. }
    rewrite (proj2 (Z.ltb_lt _ _)) by done. rewrite (proj2 (Z.leb_gt _ _)); [done|].
    simpl in *. lia.
Qed.

(** The [Allow] text is the names of the methods registered for the path, in
    order and separated by a comma and a blank, always shorter than its buffer
    and without CR or LF, and complete whenever it fits. *)
Lemma collect_allow_spec server heap segs_ :
  let names := map method_name (allowed_methods segs_ (tables server heap segs_)) in
  zlen (collect_allow server heap segs_ 128) < 128 ∧
  line_safe (collect_allow server heap segs_ 128) ∧
  (zlen (join names) < 128 → collect_allow server heap segs_ 128 = join names).
Proof.
  intros names. rewrite collect_allow_fold.
  destruct (append_methods_safe 128 (allowed_methods segs_ (tables server heap segs_)) []) as [H1 H2];
    [done|by split; apply not_elem_of_nil|].
  split; [done|]. split; [done|]. intros Hl. by apply (append_methods_fits 128 []).
Qed.

(** Some method is collected exactly when some table knows the path. *)
Lemma collect_allow_empty server heap segs_ :
  (0 <? zlen (collect_allow server heap segs_ 128))
  = existsb (table_has_path segs_) (tables server heap segs_).
Proof.
  rewrite collect_allow_fold. generalize (tables server heap segs_). intros ts.
  assert (existsb (table_has_path segs_) ts = negb (bool_decide (allowed_methods segs_ ts = []))) as ->.
  { induction ts as [|t ts IH]; [done|]. unfold allowed_methods in *. simpl. rewrite IH.
    unfold table_has_path. clear IH. induction t.2 as [|r rs IHr]; [done|]. simpl.
    by destruct (route_matches segs_ t.1 r). }
  assert (∀ l allow, 0 < zlen allow → 0 < zlen (append_methods 128 l allow)) as Hkeep.
  { induction l as [|m l IH]; intros allow Ha; [done|]. simpl. apply IH. unfold allow_append.
    rewrite (proj2 (Z.ltb_lt _ _)) by done. case_if; [done|]. rewrite zlen_app.
    pose proof (zlen_nonneg (str ", " ++ method_name m)). lia. }
  destruct (allowed_methods segs_ ts) as [|m l]; [done|].
  rewrite bool_decide_false by done. cbn [negb]. simpl. apply Z.ltb_lt, Hkeep. pose proof (method_name_length m).
  unfold allow_append. simpl. rewrite (proj2 (Z.leb_gt _ _)) by lia. lia.
Qed.

(** ** [execute_handler] *)

(** The parameters a handler finds in its request are those its pattern binds. *)
Lemma bind_params_spec r segs_ offset params :
  route_ok r → segments_ok segs_ → 0 <= offset → zlen (ps_params params) = HTTP_MAX_PARAMS →
  route_matches segs_ offset r = true →
  let params' := bind_params r segs_ offset params in
  ztake (ps_count params') (ps_params params')
  = bindings (segs (r_segments r)) (zdrop offset (segs segs_)).
Proof.
  intros [_ _ _ Hp] Hs Ho Hl Hm. unfold route_matches in Hm.
  destruct (segments_match_bind (r_segments r) segs_ offset params Hp Hs Ho Hl) as [_ H].
  destruct (H Hm) as (ps' & Hps & _ & Hb). unfold bind_params. by rewrite Hps.
Qed.

Lemma first_pick_In segs_ method ts offset r :
  first_pick segs_ method ts = Some (offset, r) →
  ∃ routes, (offset, routes) ∈ ts ∧ r ∈ routes ∧ route_matches segs_ offset r = true ∧
    (r_method r = method ∨ method = HTTP_METHOD_HEAD ∧ r_method r = HTTP_METHOD_GET).
Proof.
  induction ts as [|[o rs] ts IH]; [done|]. cbn [first_pick].
  destruct (table_pick segs_ method (o, rs)) as [r'|] eqn:E.
  - intros [= <- <-]. exists rs. unfold table_pick in E. cbn [fst snd] in *. split; [by left|].
    destruct (List.find _ rs) as [r1|] eqn:Ef.
    + injection E as <-. apply List.find_some in Ef as [Hin Hb]. breflect.
      rewrite list_elem_of_In. auto.
    + case_if_in E; [|done]. apply List.find_some in E as [Hin Hb]. breflect.
      rewrite list_elem_of_In. auto.
  - intros H. destruct (IH H) as (routes & Hin & Hrest). exists routes. split; [by right|done].
Qed.

(** The tables hold registered routes only. *)
Lemma tables_ok server heap segs_ offset routes :
  config_ok server heap → (offset, routes) ∈ tables server heap segs_ →
  0 <= offset ∧ Forall route_ok routes.
Proof.
  intros Hok [Hin|Hin]%elem_of_cons.
  { injection Hin as -> ->. split; [done|]. apply (rso_routes _ (co_routes _ _ Hok)). }
  apply list_elem_of_fmap in Hin as (m & Hm & _). injection Hm as -> ->.
  split; [apply zlen_nonneg|]. unfold mount_routes.
  destruct (heap !! rm_router m) as [rt|] eqn:Er; [|constructor].
  apply (rso_routes _ (co_heap _ _ Hok _ _ Er)).
Qed.

(** C3: a request gets 501 for an unknown method; else the handler of the first
    route of the first table whose pattern and method match, with exactly the
    pattern's parameters bound; else the automatic answer to OPTIONS; else a static
    mount; else 405 when another method is registered for the path, and 404 when
    none is. *)
Theorem execute_handler_spec server heap req res segs_ w :
  config_ok server heap → segments_ok segs_ → zlen (ps_params (req_params req)) = HTTP_MAX_PARAMS →
  let ts := tables server heap segs_ in
  let '(rc, req', res') := result (execute_handler server heap req res segs_) w in
  match string_to_http_method (req_method req) with
  | None => rc = HANDLER_NOT_IMPLEMENTED ∧ req' = req ∧ res' = res
  | Some method =>
      match first_pick segs_ method ts with
      | Some (offset, r) =>
          rc = HANDLER_OK ∧ req' = set_req_params (req_params req') req ∧
          ztake (ps_count (req_params req')) (ps_params (req_params req'))
            = bindings (segs (r_segments r)) (zdrop offset (segs segs_)) ∧
          res' = result (r_handler r req' res) w
      | None =>
          if bool_decide (method = HTTP_METHOD_OPTIONS) && existsb (table_has_path segs_) ts then
            rc = HANDLER_OK ∧ res_status res' = HTTP_STATUS_NO_CONTENT
          else
            let d := result (http_static_dispatch (sv_static_mounts server) req res) w in
            res' = d.2 ∧
            rc = match d.1 with
                 | HTTP_STATIC_SERVED => HANDLER_OK
                 | HTTP_STATIC_METHOD_NOT_ALLOWED => HANDLER_METHOD_NOT_ALLOWED
                 | HTTP_STATIC_NOT_MATCHED =>
                     if existsb (table_has_path segs_) ts then HANDLER_METHOD_NOT_ALLOWED
                     else HANDLER_NOT_FOUND
                 end
      end
  end.
Proof.
  intros Hok Hs Hl ts. unfold execute_handler.
  destruct (string_to_http_method (req_method req)) as [method|]; [|done].
  rewrite select_handler_spec. fold ts.
  destruct (first_pick segs_ method ts) as [[offset r]|] eqn:Ef; cbn [scan_answer].
  { unfold result. rewrite bind_run. cbn. split; [done|]. split; [done|]. split; [|done].
    apply first_pick_In in Ef as (routes & Hin & Hr & Hm & _).
    apply tables_ok in Hin as [Ho Hf]; [|done]. rewrite Forall_forall in Hf.
    by apply bind_params_spec; auto. }
  assert (set_req_params (req_params req) req = req) as -> by (by destruct req).
  assert ((0 <? zlen (if bool_decide (method = HTTP_METHOD_OPTIONS)
            then collect_allow server heap segs_ 128 else []))
          = bool_decide (method = HTTP_METHOD_OPTIONS) && existsb (table_has_path segs_) ts) as ->.
  { unfold ts. rewrite <- collect_allow_empty. by case_if. }
  case_if; unfold result; rewrite bind_run; [done|].
  unfold result, world. by destruct (http_static_dispatch (sv_static_mounts server) req res w) as [[d res'] w'].
Qed.

Lemma execute_handler_spec_witness :
  let req := set_req_method (str "GET") (set_req_path (str "/user/42") empty_request) in
  let seg t := {| seg_text := t; seg_is_param := false |} in
  let path := {| segs := [seg (str "user"); seg (str "42")]; segs_capacity := 8 |} in
  let '(rc, req', res') :=
    result (execute_handler demo_server ∅ req empty_response path) quiet_world in
  rc = HANDLER_OK ∧ http_req_param req' (Some (str "id")) = Some (str "42") ∧
  select_body res' = str "42".
Proof.
  intros req seg path.
  pose proof (execute_handler_spec demo_server ∅ req empty_response path quiet_world demo_server_ok
    ltac:(unfold segments_ok, segment_ok; decided) eq_refl) as H.
  cbv zeta in H. destruct (result (execute_handler _ _ _ _ _) _) as [[rc req'] res'] eqn:E.
  change (string_to_http_method (req_method req)) with (Some HTTP_METHOD_GET) in H. cbn iota in H.
  split; [|split].
  - destruct (first_pick _ _ _) as [[o r]|] eqn:Ef; [apply H|]. vm_compute in Ef. discriminate.
  - change req' with (rc, req', res').1.2. rewrite <- E. vm_compute. reflexivity.
  - change res' with (rc, req', res').2. rewrite <- E. vm_compute. reflexivity.
Defined.

