(* ===== verification/Json.v ===== *)
(** * Request bodies: type and JSON strings

    [http_req_body_type] and the JSON scanner behind [http_req_json_string] of
    [src/c_http.c].  The scanner reads the body as a C string. *)

From S2P Require Import Prelude CLib World Types Headers Query.
#[local] Open Scope Z_scope.

Definition http_req_body_type (req : HttpRequest) : HttpBodyType :=
  if req_body_len req =? 0 then HTTP_BODY_NONE
  else
    match http_req_header req (Some (str "Content-Type")) with
    | None => HTTP_BODY_OTHER
    | Some ct =>
        if starts_with_ci (str "application/x-www-form-urlencoded") ct then HTTP_BODY_URLENCODED
        else if starts_with_ci (str "application/json") ct then HTTP_BODY_JSON
        else if starts_with_ci (str "multipart/form-data") ct then HTTP_BODY_MULTIPART
        else HTTP_BODY_OTHER
    end.

(** ** The scanner *)

Definition is_json_ws (c : Z) : bool := (c =? SP) || (c =? HT) || (c =? LF) || (c =? CR).
Definition json_skip_ws (p : bytes) : bytes := skip_while is_json_ws p.

(** [None] is -1. *)
Definition json_hex4 (p : bytes) : option Z :=
  match p with
  | a :: b :: c :: d :: _ =>
      if existsb (λ x, hex_val x <? 0) [a; b; c; d] then None
      else Some (((hex_val a * 16 + hex_val b) * 16 + hex_val c) * 16 + hex_val d)
  | _ => None
  end.

Definition json_utf8_encode (cp out_size : Z) : option bytes :=
  if (0xD800 <=? cp) && (cp <=? 0xDFFF) then None
  else if cp =? 0 then None
  else if cp <? 0x80 then if out_size <? 1 then None else Some [cp]
  else if cp <? 0x800 then
    if out_size <? 2 then None
    else Some [Z.lor 0xC0 (Z.shiftr cp 6); Z.lor 0x80 (Z.land cp 0x3F)]
  else if out_size <? 3 then None
  else Some [Z.lor 0xE0 (Z.shiftr cp 12); Z.lor 0x80 (Z.land (Z.shiftr cp 6) 0x3F);
             Z.lor 0x80 (Z.land cp 0x3F)].

Definition json_simple_escape (c : Z) : option Z :=
  if c =? DQUOTE then Some DQUOTE
  else if c =? BACKSLASH then Some BACKSLASH
  else if c =? "/"%ch then Some "/"%ch
  else if c =? "b"%ch then Some 8
  else if c =? "f"%ch then Some 12
  else if c =? "n"%ch then Some LF
  else if c =? "r"%ch then Some CR
  else if c =? "t"%ch then Some HT
  else None.

(** Behind the opening quote, with [o] bytes written: the bytes written from here
    on and the text behind the closing quote.  A round per character or escape. *)
Fixpoint json_decode_loop (fuel : nat) (p : bytes) (o out_size : Z) : option (bytes * bytes) :=
  match fuel, p with
  | O, _ | _, [] => None
  | S fuel, c :: r =>
      if c =? DQUOTE then Some ([], r)
      else if c <? 32 then None
      else if negb (c =? BACKSLASH) then
        if out_size <=? o + 1 then None
        else '(out, rest) ← json_decode_loop fuel r (o + 1) out_size; Some (c :: out, rest)
      else
        match r with
        | [] => None
        | e :: r =>
            if e =? "u"%ch then
              cp ← json_hex4 r;
              bs ← json_utf8_encode cp (out_size - o);
              '(out, rest) ← json_decode_loop fuel (zdrop 4 r) (o + zlen bs) out_size;
              Some (bs ++ out, rest)
            else
              simple ← json_simple_escape e;
              if out_size <=? o + 1 then None
              else '(out, rest) ← json_decode_loop fuel r (o + 1) out_size;
                   Some (simple :: out, rest)
        end
  end.

(** [p] is at the opening quote.  The decoded text; its NUL is written behind it. *)
Definition json_decode_string (p : bytes) (out_size : Z) : option (bytes * bytes) :=
  if out_size =? 0 then None else json_decode_loop (length p) (tail p) 0 out_size.

(** Behind the opening quote of a string that is skipped. *)
Fixpoint json_skip_string (p : bytes) : option bytes :=
  match p with
  | [] => None
  | c :: r =>
      if c =? DQUOTE then Some r
      else if (c =? LF) || (c =? CR) then None
      else if c =? BACKSLASH then match r with [] => None | _ :: r => json_skip_string r end
      else json_skip_string r
  end.

Definition is_number_char (c : Z) : bool :=
  is_digit c || (c =? "."%ch) || (c =? "e"%ch) || (c =? "E"%ch) || (c =? "+"%ch) || (c =? "-"%ch).

Definition json_skip_scalar (p : bytes) : option bytes :=
  if starts_with (str "true") p then Some (zdrop 4 p)
  else if starts_with (str "false") p then Some (zdrop 5 p)
  else if starts_with (str "null") p then Some (zdrop 4 p)
  else
    let p := if deref p =? "-"%ch then tail p else p in
    if negb (is_digit (deref p)) then None else Some (skip_while is_number_char p).

(** The text behind one value.  The object and array loops take the fuel too: a
    round of theirs, or a value, is one unit. *)
Fixpoint json_skip_value (fuel : nat) (p : bytes) (depth : Z) : option bytes :=
  match fuel with
  | O => None
  | S fuel =>
      if depth <? 0 then None
      else if deref p =? DQUOTE then json_skip_string (tail p)
      else if deref p =? "{"%ch then
        let p := json_skip_ws (tail p) in
        if deref p =? "}"%ch then Some (tail p) else json_skip_members fuel p depth
      else if deref p =? "["%ch then
        let p := json_skip_ws (tail p) in
        if deref p =? "]"%ch then Some (tail p) else json_skip_items fuel p depth
      else json_skip_scalar p
  end
with json_skip_members (fuel : nat) (p : bytes) (depth : Z) : option bytes :=
  match fuel with
  | O => None
  | S fuel =>
      if negb (deref p =? DQUOTE) then None
      else
        p ← json_skip_value fuel p (depth - 1);
        let p := json_skip_ws p in
        if negb (deref p =? ":"%ch) then None
        else
          p ← json_skip_value fuel (json_skip_ws (tail p)) (depth - 1);
          let p := json_skip_ws p in
          if deref p =? ","%ch then json_skip_members fuel (json_skip_ws (tail p)) depth
          else if deref p =? "}"%ch then Some (tail p)
          else None
  end
with json_skip_items (fuel : nat) (p : bytes) (depth : Z) : option bytes :=
  match fuel with
  | O => None
  | S fuel =>
      p ← json_skip_value fuel p (depth - 1);
      let p := json_skip_ws p in
      if deref p =? ","%ch then json_skip_items fuel (json_skip_ws (tail p)) depth
      else if deref p =? "]"%ch then Some (tail p)
      else None
  end.

Definition value_fuel (p : bytes) : nat := 2 * length p + 1.

Definition not_key_end (c : Z) : bool := negb (c =? DQUOTE) && negb (c =? BACKSLASH).

(** The members of the top-level object, one per round. *)
Fixpoint json_find_loop (fuel : nat) (p key : bytes) (out_size : Z) : option bytes :=
  match fuel with
  | O => None
  | S fuel =>
      if negb (deref p =? DQUOTE) then None
      else
        let '(name, kend) := span not_key_end (tail p) in
        if negb (deref kend =? DQUOTE) then None
        else
          let p := json_skip_ws (tail kend) in
          if negb (deref p =? ":"%ch) then None
          else
            let p := json_skip_ws (tail p) in
            if streq name key then
              if negb (deref p =? DQUOTE) then None
              else fst <$> json_decode_string p out_size
            else
              p ← json_skip_value (value_fuel p) p 32;
              let p := json_skip_ws p in
              if deref p =? ","%ch then json_find_loop fuel (json_skip_ws (tail p)) key out_size
              else None
  end.

(** [None] is -1; otherwise the text stored in [out]. *)
Definition http_req_json_string (req : HttpRequest) (key : option bytes) (out_size : Z)
  : option bytes :=
  match key, req_body req with
  | Some key, Some body =>
      if (out_size =? 0) || (zlen body =? 0) then None
      else
        let p := json_skip_ws (cstr body) in
        if negb (deref p =? "{"%ch) then None
        else
          let p := json_skip_ws (tail p) in
          if deref p =? "}"%ch then None else json_find_loop (length p) p key out_size
  | _, _ => None
  end.

(** ** Decoding inverts escaping *)

Definition json_escape_char (c : Z) : bytes :=
  if c =? DQUOTE then [BACKSLASH; DQUOTE]
  else if c =? BACKSLASH then [BACKSLASH; BACKSLASH]
  else if c =? 8 then [BACKSLASH; "b"%ch]
  else if c =? 12 then [BACKSLASH; "f"%ch]
  else if c =? LF then [BACKSLASH; "n"%ch]
  else if c =? CR then [BACKSLASH; "r"%ch]
  else if c =? HT then [BACKSLASH; "t"%ch]
  else if c <? 32 then BACKSLASH :: str "u00" ++ [hex_digit (c / 16); hex_digit (c mod 16)]
  else [c].

Definition json_print_string (s : bytes) : bytes :=
  DQUOTE :: flat_map json_escape_char s ++ [DQUOTE].

Lemma json_hex4_control c t :
  0 <= c < 32 → json_hex4 ("0"%ch :: "0"%ch :: hex_digit (c / 16) :: hex_digit (c mod 16) :: t) = Some c.
Proof.
  intros Hc. unfold json_hex4. cbn [existsb].
  assert (0 <= c / 16 < 16) by (split; [apply Z.div_pos; lia|apply Z.div_lt_upper_bound; lia]).
  pose proof (Z.mod_pos_bound c 16 ltac:(lia)). rewrite !hex_val_digit by lia.
  change (hex_val "0"%ch) with 0. rewrite !(proj2 (Z.ltb_ge _ _)) by lia. cbn [orb].
  f_equal. pose proof (Z.div_mod c 16 ltac:(lia)). lia.
Qed.

Lemma json_decode_loop_print fuel s o size rest :
  Forall is_byte s → nul_free s → o + zlen s < size →
  (length (flat_map json_escape_char s) < fuel)%nat →
  json_decode_loop fuel (flat_map json_escape_char s ++ DQUOTE :: rest) o size = Some (s, rest).
Proof.
  revert fuel o. induction s as [|c s IH]; intros fuel o Hb Hn Ho Hf.
  { destruct fuel; [simpl in Hf; lia|]. done. }
  apply Forall_cons in Hb as [Hc Hb]. apply Forall_cons in Hn as [Hc0 Hn]. unfold is_byte in Hc.
  rewrite zlen_cons in Ho. pose proof (zlen_nonneg s).
  change (flat_map json_escape_char (c :: s)) with (json_escape_char c ++ flat_map json_escape_char s) in *.
  rewrite length_app in Hf. destruct fuel as [|fuel]; [lia|].
  assert (length (flat_map json_escape_char s) < fuel)%nat as Hf'.
  { assert (1 ≤ length (json_escape_char c))%nat; [|lia].
    unfold json_escape_char. repeat case_if; simpl; lia. }
  clear Hf.
  assert (∀ e, json_escape_char c = [BACKSLASH; e] → json_simple_escape e = Some c → e ≠ "u"%ch →
    json_decode_loop (S fuel) ((json_escape_char c ++ flat_map json_escape_char s) ++ DQUOTE :: rest) o size
    = Some (c :: s, rest)) as Hsimple.
  { intros e He Hs Hu. rewrite He in *. cbn [app json_decode_loop].
    change (BACKSLASH =? DQUOTE) with false. change (BACKSLASH <? 32) with false.
    change (BACKSLASH =? BACKSLASH) with true. cbn [negb]. rewrite (proj2 (Z.eqb_neq e _)) by done.
    rewrite Hs. cbn [mbind option_bind]. rewrite (proj2 (Z.leb_gt _ _)) by lia.
    rewrite IH by (done || lia). done. }
  unfold json_escape_char in *.
  repeat (case_if; [breflect; subst; by eapply Hsimple|]). clear Hsimple.
  case_if; breflect.
  - cbn [app json_decode_loop].
    change (BACKSLASH =? DQUOTE) with false. change (BACKSLASH <? 32) with false.
    change (BACKSLASH =? BACKSLASH) with true. cbn [negb].
    change (str "u00" ++ ?x) with ("u"%ch :: "0"%ch :: "0"%ch :: x). cbn [app].
    change ("u"%ch =? "u"%ch) with true. cbn iota. rewrite json_hex4_control by lia.
    cbn [mbind option_bind]. unfold json_utf8_encode. rewrite (proj2 (Z.eqb_neq c 0)) by done.
    rewrite (proj2 (Z.ltb_lt c 0x80)), (proj2 (Z.leb_gt 0xD800 c)), (proj2 (Z.ltb_ge _ 1)) by lia.
    cbn [andb mbind option_bind]. change (zdrop 4 (_ :: _ :: _ :: _ :: ?t)) with t.
    rewrite IH; [done..|rewrite zlen_cons, zlen_nil; lia|lia].
  - cbn [app json_decode_loop]. repeat (rewrite (proj2 (Z.eqb_neq c _)) by done).
    rewrite (proj2 (Z.ltb_ge c 32)) by done. cbn [negb]. rewrite (proj2 (Z.leb_gt _ _)) by lia.
    rewrite IH by (done || lia). done.
Qed.

Lemma json_decode_print s size rest :
  Forall is_byte s → nul_free s → zlen s < size →
  json_decode_string (json_print_string s ++ rest) size = Some (s, rest).
Proof.
  intros Hb Hn Hs. pose proof (zlen_nonneg s). unfold json_decode_string, json_print_string.
  rewrite (proj2 (Z.eqb_neq size 0)) by lia. cbn [app tail]. rewrite <- app_assoc. cbn [app].
  apply json_decode_loop_print; try done. rewrite length_cons, length_app. simpl. lia.
Qed.

(** The text never outgrows the buffer, but it can fill it. *)
Lemma json_decode_loop_bound fuel p o size out rest :
  json_decode_loop fuel p o size = Some (out, rest) → o <= size → o + zlen out <= size.
Proof.
  revert p o out rest. induction fuel as [|fuel IH]; intros p o out rest; [done|].
  cbn [json_decode_loop]. destruct p as [|c p]; [done|].
  case_if; [intros [= <- <-]; zlen_lia|]. case_if; [done|]. case_if.
  - case_if; [done|]. breflect. intros H Ho.
    apply bind_Some in H as ([out' rest'] & H & [= <- <-]). apply IH in H; [|lia]. zlen_lia.
  - destruct p as [|e p]; [done|]. case_if.
    + intros H Ho. apply bind_Some in H as (cp & _ & H). apply bind_Some in H as (bs & Hbs & H).
      apply bind_Some in H as ([out' rest'] & H & [= <- <-]).
      assert (zlen bs <= size - o).
      { unfold json_utf8_encode in Hbs. repeat (case_if_in Hbs; [done|]).
        repeat case_if_in Hbs; try done; injection Hbs as <-; breflect;
          rewrite ?zlen_cons, ?zlen_nil; lia. }
      apply IH in H; [|lia]. rewrite zlen_app. lia.
    + intros H Ho. apply bind_Some in H as (s & _ & H). case_if_in H; [done|]. breflect.
      apply bind_Some in H as ([out' rest'] & H & [= <- <-]). apply IH in H; [|lia]. zlen_lia.
Qed.

(** ** Skipping well-formed values *)

Definition json_ws (w : bytes) : Prop := Forall (λ c, is_json_ws c = true) w.

Inductive string_body : bytes → Prop :=
  | sb_nil : string_body []
  | sb_char c s : c ≠ DQUOTE → c ≠ BACKSLASH → c ≠ LF → c ≠ CR → string_body s → string_body (c :: s)
  | sb_escape c s : string_body s → string_body (BACKSLASH :: c :: s).

(** JSON texts, with the nesting depth they need. *)
Inductive jvalue : nat → bytes → Prop :=
  | jv_string d s : string_body s → jvalue d (DQUOTE :: s ++ [DQUOTE])
  | jv_true d : jvalue d (str "true")
  | jv_false d : jvalue d (str "false")
  | jv_null d : jvalue d (str "null")
  | jv_number d c s : is_digit c = true → Forall (λ c, is_number_char c = true) s → jvalue d (c :: s)
  | jv_negative d c s :
      is_digit c = true → Forall (λ c, is_number_char c = true) s → jvalue d ("-"%ch :: c :: s)
  | jv_object_empty d w : json_ws w → jvalue d ("{"%ch :: w ++ ["}"%ch])
  | jv_object d w m : json_ws w → jmembers d m → jvalue (S d) ("{"%ch :: w ++ m ++ ["}"%ch])
  | jv_array_empty d w : json_ws w → jvalue d ("["%ch :: w ++ ["]"%ch])
  | jv_array d w l : json_ws w → jitems d l → jvalue (S d) ("["%ch :: w ++ l ++ ["]"%ch])
with jmembers : nat → bytes → Prop :=
  | jm_last d k w1 w2 v w3 : string_body k → json_ws w1 → json_ws w2 → jvalue d v → json_ws w3 →
      jmembers d (DQUOTE :: k ++ DQUOTE :: w1 ++ ":"%ch :: w2 ++ v ++ w3)
  | jm_cons d k w1 w2 v w3 w4 m : string_body k → json_ws w1 → json_ws w2 → jvalue d v → json_ws w3 →
      json_ws w4 → jmembers d m →
      jmembers d (DQUOTE :: k ++ DQUOTE :: w1 ++ ":"%ch :: w2 ++ v ++ w3 ++ ","%ch :: w4 ++ m)
with jitems : nat → bytes → Prop :=
  | ji_last d v w : jvalue d v → json_ws w → jitems d (v ++ w)
  | ji_cons d v w1 w2 l : jvalue d v → json_ws w1 → json_ws w2 → jitems d l →
      jitems d (v ++ w1 ++ ","%ch :: w2 ++ l).

Scheme jvalue_mut := Minimality for jvalue Sort Prop
  with jmembers_mut := Minimality for jmembers Sort Prop
  with jitems_mut := Minimality for jitems Sort Prop.
Combined Scheme json_mut from jvalue_mut, jmembers_mut, jitems_mut.

(** The text behind a value does not continue a number. *)
Definition stops (rest : bytes) : Prop := is_number_char (deref rest) = false.

(** A text that starts a value, member or item. *)
Definition starts (t : bytes) : Prop :=
  ∃ c r, t = c :: r ∧ is_json_ws c = false ∧ c ≠ "}"%ch ∧ c ≠ "]"%ch.

Lemma json_skip_ws_app w t : json_ws w → starts t ∨ is_json_ws (deref t) = false →
  json_skip_ws (w ++ t) = t.
Proof.
  intros Hw Ht. unfold json_skip_ws, skip_while. destruct t as [|c t].
  - rewrite app_nil_r. by rewrite span_all.
  - assert (is_json_ws c = false) as Hc.
    { by destruct Ht as [(c' & r & [= <- <-] & H & _)|H]. }
    rewrite span_app_stop; [done|done|eauto].
Qed.

Lemma starts_app t u : starts t → starts (t ++ u).
Proof. intros (c & r & -> & H). by exists c, (r ++ u). Qed.

Lemma digit_not c x : is_digit c = true → is_digit x = false → c ≠ x.
Proof. by intros H Hx ->; congruence. Qed.

Lemma digit_starts c s : is_digit c = true → starts (c :: s).
Proof.
  intros H. exists c, s. split; [done|]. unfold is_digit, is_json_ws in *. breflect.
  split; [rewrite !orb_false_iff, !Z.eqb_neq; lia|lia].
Qed.

Lemma jvalue_starts d t : jvalue d t → starts t.
Proof.
  destruct 1; try (by apply digit_starts);
    match goal with |- starts ?t => let t := eval hnf in t in
      match t with ?c :: ?r => exists c, r end end;
    (split; [done|]); (split; [by vm_compute|]); vm_compute; lia.
Qed.

Lemma json_skip_string_body s rest :
  string_body s → json_skip_string (s ++ DQUOTE :: rest) = Some rest.
Proof.
  induction 1 as [|c s H1 H2 H3 H4 _ IH|c s _ IH]; [done| |done].
  cbn [app json_skip_string]. by rewrite !(proj2 (Z.eqb_neq c _)) by done.
Qed.

Lemma stops_ws w t : json_ws w → stops t → stops (w ++ t).
Proof.
  intros Hw Ht. destruct w as [|c w]; [done|]. apply Forall_cons in Hw as [Hc _]. unfold stops. simpl.
  unfold is_json_ws, is_number_char, is_digit in *.
  rewrite !orb_false_iff, !Z.eqb_neq, andb_false_iff, !Z.leb_gt. breflect.
  repeat match goal with H : _ ∨ _ |- _ => destruct H; breflect end; subst; lia.
Qed.

Lemma skip_number s rest :
  Forall (λ c, is_number_char c = true) s → stops rest → skip_while is_number_char (s ++ rest) = rest.
Proof.
  intros Hs Hr. unfold skip_while. destruct rest as [|c r].
  - rewrite app_nil_r. by rewrite span_all.
  - rewrite span_app_stop; [done|done|eauto].
Qed.

(** One value, by its first character. *)
Lemma skip_value_cases fuel p depth :
  0 <= depth →
  json_skip_value (S fuel) p depth =
  (if deref p =? DQUOTE then json_skip_string (tail p)
   else if deref p =? "{"%ch then
     if deref (json_skip_ws (tail p)) =? "}"%ch then Some (tail (json_skip_ws (tail p)))
     else json_skip_members fuel (json_skip_ws (tail p)) depth
   else if deref p =? "["%ch then
     if deref (json_skip_ws (tail p)) =? "]"%ch then Some (tail (json_skip_ws (tail p)))
     else json_skip_items fuel (json_skip_ws (tail p)) depth
   else json_skip_scalar p).
Proof. intros H. cbn [json_skip_value]. by rewrite (proj2 (Z.ltb_ge _ _)) by lia. Qed.

Lemma skip_scalar_digit c s rest :
  is_digit c = true → Forall (λ c, is_number_char c = true) s → stops rest →
  json_skip_scalar (c :: s ++ rest) = Some rest ∧
  json_skip_scalar ("-"%ch :: c :: s ++ rest) = Some rest.
Proof.
  intros Hc Hs Hr.
  assert (skip_while is_number_char (c :: s ++ rest) = rest) as Hskip.
  { apply (skip_number (c :: s)); [|done]. constructor; [|done]. unfold is_number_char. by rewrite Hc. }
  split; unfold json_skip_scalar.
  - assert (∀ x t, is_digit x = false → starts_with (x :: t) (c :: s ++ rest) = false) as Hsw.
    { intros x t Hx. simpl. rewrite (proj2 (Z.eqb_neq x c)); [done|]. intros ->. congruence. }
    unfold str. simpl map. rewrite !Hsw by done. cbn [deref].
    rewrite (proj2 (Z.eqb_neq c _)) by (by apply digit_not). cbn [deref]. rewrite Hc. cbn [negb].
    by rewrite Hskip.
  - cbn [starts_with str]. change (deref ("-"%ch :: c :: s ++ rest) =? "-"%ch) with true.
    cbn [tail deref]. simpl starts_with. cbn iota. rewrite Hc. cbn [negb]. by rewrite Hskip.
Qed.

(** What the scanner does on a value, on the members of an object up to its
    brace, and on the items of an array up to its bracket. *)
Definition skips_value (d : nat) (t : bytes) : Prop :=
  ∀ rest fuel depth, stops rest → Z.of_nat d <= depth → (value_fuel (t ++ rest) ≤ fuel)%nat →
    json_skip_value fuel (t ++ rest) depth = Some rest.
Definition skips_members (d : nat) (m : bytes) : Prop :=
  ∀ rest fuel depth, Z.of_nat d < depth → (S (value_fuel (m ++ "}"%ch :: rest)) ≤ fuel)%nat →
    json_skip_members fuel (m ++ "}"%ch :: rest) depth = Some rest.
Definition skips_items (d : nat) (l : bytes) : Prop :=
  ∀ rest fuel depth, Z.of_nat d < depth → (S (value_fuel (l ++ "]"%ch :: rest)) ≤ fuel)%nat →
    json_skip_items fuel (l ++ "]"%ch :: rest) depth = Some rest.

(** Length side conditions. *)
Ltac fuel_lia :=
  unfold value_fuel in *;
  repeat rewrite ?length_app, ?length_cons in *; simpl length in *; lia.

Lemma skip_string_value fuel s rest depth :
  string_body s → 0 <= depth → (0 < fuel)%nat →
  json_skip_value fuel (DQUOTE :: s ++ DQUOTE :: rest) depth = Some rest.
Proof.
  intros Hs Hd Hf. destruct fuel as [|fuel]; [lia|]. rewrite skip_value_cases by done.
  change (deref (DQUOTE :: s ++ DQUOTE :: rest) =? DQUOTE) with true. cbn [tail].
  by apply json_skip_string_body.
Qed.

(** The key, the colon and the value of a member; then white space. *)
Lemma skip_member_head fuel k w1 w2 v d w3 c rest depth :
  string_body k → json_ws w1 → json_ws w2 → jvalue d v → skips_value d v → json_ws w3 →
  is_json_ws c = false → is_number_char c = false → Z.of_nat d < depth →
  (value_fuel (DQUOTE :: k ++ DQUOTE :: w1 ++ ":"%ch :: w2 ++ v ++ w3 ++ c :: rest) ≤ fuel)%nat →
  json_skip_members (S fuel) (DQUOTE :: k ++ DQUOTE :: w1 ++ ":"%ch :: w2 ++ v ++ w3 ++ c :: rest) depth
  = (if c =? ","%ch then json_skip_members fuel (json_skip_ws rest) depth
     else if c =? "}"%ch then Some rest else None).
Proof.
  intros Hk Hw1 Hw2 Hv Hsv Hw3 Hc Hcn Hd Hf. cbn [json_skip_members].
  change (deref (DQUOTE :: _) =? DQUOTE) with true. cbn [negb].
  rewrite skip_string_value by (done || lia || fuel_lia). cbn [mbind option_bind].
  rewrite json_skip_ws_app by (done || by right). cbn [deref].
  change (":"%ch =? ":"%ch) with true. cbn [negb tail].
  rewrite json_skip_ws_app by (done || left; by eapply starts_app, jvalue_starts).
  rewrite Hsv.
  - cbn [mbind option_bind]. rewrite json_skip_ws_app by (done || by right). done.
  - apply stops_ws; [done|]. by unfold stops.
  - lia.
  - fuel_lia.
Qed.

Lemma skip_item_head fuel v d w c rest depth :
  skips_value d v → json_ws w → is_json_ws c = false → is_number_char c = false →
  Z.of_nat d < depth → (value_fuel (v ++ w ++ c :: rest) ≤ fuel)%nat →
  json_skip_items (S fuel) (v ++ w ++ c :: rest) depth
  = (if c =? ","%ch then json_skip_items fuel (json_skip_ws rest) depth
     else if c =? "]"%ch then Some rest else None).
Proof.
  intros Hsv Hw Hc Hcn Hd Hf. cbn [json_skip_items]. rewrite Hsv.
  - cbn [mbind option_bind]. by rewrite json_skip_ws_app by (done || by right).
  - apply stops_ws; [done|]. by unfold stops.
  - lia.
  - done.
Qed.

Lemma jmembers_starts d m : jmembers d m → starts m.
Proof. destruct 1; eexists _, _; split; try done; split; try done; lia. Qed.

Lemma jitems_starts d l : jitems d l → starts l.
Proof. destruct 1; by eapply starts_app, jvalue_starts. Qed.

(** The scanner skips every well-formed value whose nesting its depth allows, and
    the recursion always has fuel enough. *)
Lemma json_skip_complete :
  (∀ d t, jvalue d t → skips_value d t) ∧
  (∀ d m, jmembers d m → skips_members d m) ∧
  (∀ d l, jitems d l → skips_items d l).
Proof.
  apply (json_mut skips_value skips_members skips_items).
  - intros d s Hs rest fuel depth Hr Hd Hf. cbn [app] in *. rewrite <- app_assoc in *.
    apply skip_string_value; [done|lia|fuel_lia].
  - intros d rest [|fuel] depth Hr Hd Hf; [fuel_lia|]. by rewrite skip_value_cases by lia.
  - intros d rest [|fuel] depth Hr Hd Hf; [fuel_lia|]. by rewrite skip_value_cases by lia.
  - intros d rest [|fuel] depth Hr Hd Hf; [fuel_lia|]. by rewrite skip_value_cases by lia.
  - intros d c s Hc Hs rest [|fuel] depth Hr Hd Hf; [fuel_lia|]. cbn [app].
    rewrite skip_value_cases by lia. cbn [deref].
    rewrite !(proj2 (Z.eqb_neq c _)) by (by apply digit_not). by apply skip_scalar_digit.
  - intros d c s Hc Hs rest [|fuel] depth Hr Hd Hf; [fuel_lia|]. cbn [app].
    rewrite skip_value_cases by lia. by apply skip_scalar_digit.
  - intros d w Hw rest [|fuel] depth Hr Hd Hf; [fuel_lia|]. cbn [app]. rewrite <- app_assoc.
    rewrite skip_value_cases by lia. cbn [deref tail app].
    rewrite json_skip_ws_app by (done || by right). done.
  - intros d w m Hw Hm IH rest [|fuel] depth Hr Hd Hf; [fuel_lia|]. cbn [app] in *.
    rewrite <- !app_assoc in *. cbn [app] in *.
    rewrite skip_value_cases by lia. cbn [deref tail].
    rewrite json_skip_ws_app by (done || left; by eapply starts_app, jmembers_starts).
    destruct (jmembers_starts d m Hm) as (c & r & Hc & _ & Hne & _).
    assert ((deref (m ++ "}"%ch :: rest) =? "}"%ch) = false) as Hb.
    { subst m. by apply Z.eqb_neq. }
    change ("{"%ch =? DQUOTE) with false. change ("{"%ch =? "{"%ch) with true. cbn iota.
    rewrite Hb. apply IH; [lia|fuel_lia].
  - intros d w Hw rest [|fuel] depth Hr Hd Hf; [fuel_lia|]. cbn [app]. rewrite <- app_assoc.
    rewrite skip_value_cases by lia. cbn [deref tail app].
    rewrite json_skip_ws_app by (done || by right). done.
  - intros d w l Hw Hl IH rest [|fuel] depth Hr Hd Hf; [fuel_lia|]. cbn [app] in *.
    rewrite <- !app_assoc in *. cbn [app] in *.
    rewrite skip_value_cases by lia. cbn [deref tail].
    rewrite json_skip_ws_app by (done || left; by eapply starts_app, jitems_starts).
    destruct (jitems_starts d l Hl) as (c & r & Hc & _ & _ & Hne).
    assert ((deref (l ++ "]"%ch :: rest) =? "]"%ch) = false) as Hb.
    { subst l. by apply Z.eqb_neq. }
    change ("["%ch =? DQUOTE) with false. change ("["%ch =? "{"%ch) with false.
    change ("["%ch =? "["%ch) with true. cbn iota. rewrite Hb. apply IH; [lia|fuel_lia].
  - intros d k w1 w2 v w3 Hk Hw1 Hw2 Hv IH Hw3 rest [|fuel] depth Hd Hf; [fuel_lia|].
    repeat (rewrite <- ?app_assoc in *; cbn [app] in *).
    rewrite (skip_member_head fuel k w1 w2 v d w3 "}"%ch) by (done || fuel_lia). done.
  - intros d k w1 w2 v w3 w4 m Hk Hw1 Hw2 Hv IH Hw3 Hw4 Hm IHm rest [|fuel] depth Hd Hf; [fuel_lia|].
    repeat (rewrite <- ?app_assoc in *; cbn [app] in *).
    rewrite (skip_member_head fuel k w1 w2 v d w3 ","%ch) by (done || fuel_lia).
    change (","%ch =? ","%ch) with true. cbn iota.
    rewrite json_skip_ws_app by (done || left; by eapply starts_app, jmembers_starts).
    apply IHm; [done|fuel_lia].
  - intros d v w Hv IH Hw rest [|fuel] depth Hd Hf; [fuel_lia|]. rewrite <- app_assoc in *.
    rewrite (skip_item_head fuel v d w "]"%ch) by (done || fuel_lia). done.
  - intros d v w1 w2 l Hv IH Hw1 Hw2 Hl IHl rest [|fuel] depth Hd Hf; [fuel_lia|].
    repeat (rewrite <- ?app_assoc in *; cbn [app] in *).
    rewrite (skip_item_head fuel v d w1 ","%ch) by (done || fuel_lia).
    change (","%ch =? ","%ch) with true. cbn iota.
    rewrite json_skip_ws_app by (done || left; by eapply starts_app, jitems_starts).
    apply IHl; [done|fuel_lia].
Qed.

(** ** [http_req_json_string] finds its member *)

Definition plain_key (k : bytes) : Prop := Forall (λ c, not_key_end c = true) k.

(** Members with other keys, each followed by its comma. *)
Inductive other_members (key : bytes) : bytes → Prop :=
  | om_nil : other_members key []
  | om_cons k w1 w2 v w3 w4 ms : plain_key k → k ≠ key → json_ws w1 → json_ws w2 → jvalue 32 v →
      json_ws w3 → json_ws w4 → other_members key ms →
      other_members key
        (DQUOTE :: k ++ DQUOTE :: w1 ++ ":"%ch :: w2 ++ v ++ w3 ++ ","%ch :: w4 ++ ms).

(** The key in quotes, the colon, and the white space around it. *)
Definition member_key (key w1 w2 : bytes) : bytes :=
  DQUOTE :: key ++ DQUOTE :: w1 ++ ":"%ch :: w2.

Lemma find_member_head fuel k w1 w2 t key size :
  plain_key k → json_ws w1 → json_ws w2 → starts t →
  json_find_loop (S fuel) (member_key k w1 w2 ++ t) key size =
  (if streq k key then
     if negb (deref t =? DQUOTE) then None else fst <$> json_decode_string t size
   else
     p ← json_skip_value (value_fuel t) t 32;
     let p := json_skip_ws p in
     if deref p =? ","%ch then json_find_loop fuel (json_skip_ws (tail p)) key size else None).
Proof.
  intros Hk Hw1 Hw2 Ht. unfold member_key.
  repeat (rewrite <- ?app_assoc in *; cbn [app] in *). cbn [json_find_loop deref tail].
  change (DQUOTE =? DQUOTE) with true. cbn [negb].
  rewrite span_app_stop by (done || right; by do 2 eexists). cbn [deref tail].
  change (DQUOTE =? DQUOTE) with true. cbn [negb].
  rewrite json_skip_ws_app by (done || by right). cbn [deref tail].
  change (":"%ch =? ":"%ch) with true. cbn [negb]. by rewrite json_skip_ws_app by (done || by left).
Qed.

Lemma json_find_loop_spec fuel ms key w1 w2 t size :
  other_members key ms → plain_key key → json_ws w1 → json_ws w2 →
  (length (ms ++ member_key key w1 w2) ≤ fuel)%nat →
  json_find_loop fuel (ms ++ member_key key w1 w2 ++ DQUOTE :: t) key size
  = fst <$> json_decode_string (DQUOTE :: t) size.
Proof.
  intros Hms Hk Hw1 Hw2. revert fuel.
  induction Hms as [|k v1 v2 v v3 v4 ms Hk' Hne Hv1 Hv2 Hv Hv3 Hv4 Hms IH]; intros fuel Hf.
  - destruct fuel as [|fuel]; [simpl in Hf; lia|]. cbn [app].
    rewrite find_member_head by (done || by exists DQUOTE, t). by rewrite streq_refl.
  - destruct fuel as [|fuel]; [simpl in Hf; lia|].
    assert (starts (v ++ v3 ++ ","%ch :: v4 ++ ms ++ member_key key w1 w2 ++ DQUOTE :: t)) as Hst
      by (by eapply starts_app, jvalue_starts).
    pose proof (find_member_head fuel k v1 v2 _ key size Hk' Hv1 Hv2 Hst) as Hhead.
    unfold member_key at 1 in Hhead.
    repeat (rewrite <- ?app_assoc in *; cbn [app] in *). rewrite Hhead.
    rewrite (proj2 (streq_false k key)) by done.
    rewrite (proj1 json_skip_complete 32%nat v Hv) by (lia || done || by apply stops_ws).
    cbn [mbind option_bind]. rewrite json_skip_ws_app by (done || by right). cbn [deref tail].
    change (","%ch =? ","%ch) with true. cbn iota.
    rewrite json_skip_ws_app; [|done|left].
    + apply IH. rewrite !length_app, !length_cons in *.
      repeat rewrite ?length_app, ?length_cons in Hf. lia.
    + destruct Hms; by eexists _, _.
Qed.

(** C34: looking up a string member of a JSON object body, behind any well-formed
    other members nested at most 32 deep, gives exactly the string the client
    printed there. *)
Theorem http_req_json_string_spec req w0 w1 ms key w2 w3 s rest size :
  req_body req = Some (w0 ++ "{"%ch :: w1 ++ ms ++ member_key key w2 w3
                         ++ json_print_string s ++ rest) →
  nul_free (default [] (req_body req)) → Forall is_byte s →
  json_ws w0 → json_ws w1 → json_ws w2 → json_ws w3 → plain_key key → other_members key ms →
  nul_free s → zlen s < size →
  http_req_json_string req (Some key) size = Some s.
Proof.
  intros Hb Hnf Hs Hw0 Hw1 Hw2 Hw3 Hk Hms Hn Hsz. unfold http_req_json_string.
  rewrite Hb in *. simpl default in Hnf. rewrite cstr_id by done.
  pose proof (zlen_nonneg s). rewrite (proj2 (Z.eqb_neq size 0)) by lia.
  set (t := ms ++ member_key key w2 w3 ++ json_print_string s ++ rest) in *.
  assert ((zlen (w0 ++ "{"%ch :: w1 ++ t) =? 0) = false) as -> by (apply Z.eqb_neq; zlen_lia).
  cbn [orb]. rewrite json_skip_ws_app by (done || by right). cbn [deref tail].
  change ("{"%ch =? "{"%ch) with true. cbn [negb].
  assert (starts t) as Ht.
  { unfold t. destruct Hms; by eexists _, _. }
  rewrite json_skip_ws_app by (done || by left).
  assert ((deref t =? "}"%ch) = false) as ->.
  { destruct Ht as (c & r & -> & _ & Hc & _). by apply Z.eqb_neq. }
  unfold t. unfold json_print_string at 2. cbn [app].
  rewrite json_find_loop_spec; [|done..|].
  - pose proof (json_decode_print s size rest Hs Hn Hsz) as Hd. unfold json_print_string in Hd.
    cbn [app] in Hd. by rewrite Hd.
  - rewrite !length_app. lia.
Qed.

Lemma http_req_json_string_spec_witness :
  let body := str "{" ++ [DQUOTE] ++ str "a" ++ [DQUOTE] ++ str ":" ++ [DQUOTE] ++ str "hi" ++ [DQUOTE]
              ++ str "}" in
  http_req_json_string (set_req_body (Some body) empty_request) (Some (str "a")) 16 = Some (str "hi").
Proof.
  intros body.
  apply (http_req_json_string_spec (set_req_body (Some body) empty_request) [] [] [] (str "a") [] []
    (str "hi") (str "}")); try exact (Forall_nil_2 _);
    [ reflexivity | unfold nul_free; decided | unfold is_byte; decided | | constructor
    | unfold nul_free; decided | decided ].
  repeat constructor; vm_compute; done.
Defined.

(** A full buffer: the NUL goes one byte behind it. *)
Lemma json_decode_overflow :
  json_decode_string (DQUOTE :: BACKSLASH :: str "u0041" ++ [DQUOTE]) 1 = Some (str "A", []).
Proof. by vm_compute. Qed.
