(* ===== verification/Multipart.v ===== *)
(** * multipart/form-data

    [mem_find], [multipart_boundary], [disposition_attr], [parse_part_headers],
    [parse_multipart] and the accessors of [src/c_http.c].  The three attribute
    buffers are uninitialised stack arrays; their contents are explicit, since
    not every path terminates the string it wrote. *)

From S2P Require Import Prelude CLib World Types Headers Request.
#[local] Open Scope Z_scope.

(** ** The code *)

(** [None] is [(size_t)-1]. *)
Definition mem_find (hay needle : bytes) : option Z :=
  if (zlen needle =? 0) || (zlen hay <? zlen needle) then None
  else (λ r, zlen r.1) <$> strstr needle hay.

Fixpoint find_boundary (p : bytes) : option bytes :=
  match p with
  | [] => None
  | _ :: r => if starts_with_ci (str "boundary=") p then Some (zdrop 9 p) else find_boundary r
  end.

Definition boundary_char (c : Z) : bool := negb ((c <? 0x20) || (0x7e <? c)).
Definition not_boundary_end (c : Z) : bool := negb ((c =? DQUOTE) || (c =? ";"%ch)).

(** The empty string is the return value 0. *)
Definition multipart_boundary (content_type : bytes) (out_size : Z) : bytes :=
  match find_boundary content_type with
  | None => []
  | Some p =>
      let p := if deref p =? DQUOTE then tail p else p in
      let text := take_while not_boundary_end p in
      if negb (forallb boundary_char text) || (out_size <=? zlen text) then [] else text
  end.

(** [text] written from the start of the buffer, without a NUL. *)
Definition overlay (text buf : bytes) : bytes := text ++ zdrop (zlen text) buf.

(** What follows the attribute, searched behind [prev] in the rest [s] of the
    line; it must be preceded by [';'] or white space. *)
Fixpoint find_attr (prev : option Z) (s attr : bytes) : option bytes :=
  match s with
  | [] => None
  | c :: r =>
      if zlen s <=? zlen attr then None
      else if starts_with_ci attr s
              && match prev with
                 | None => true
                 | Some x => (x =? ";"%ch) || (x =? SP) || (x =? HT)
                 end
      then Some (zdrop (zlen attr) s)
      else find_attr (Some c) r attr
  end.

(** Copies the value into [out]; the three ways out of the loop leave different
    buffers. *)
Definition copy_attr (v out : bytes) (out_size : Z) : bytes :=
  let quoted := deref v =? DQUOTE in
  let v := if quoted then tail v else v in
  let stop c := if quoted then c =? DQUOTE else (c =? ";"%ch) || (c =? CR) in
  let '(text, rest) := span (λ c, negb (stop c)) v in
  let good := ztake (out_size - 1) (take_while boundary_char text) in
  if zlen good <? zlen text then overlay good out
  else if (quoted && negb (zlen rest =? 0)) || (negb quoted && (0 <? zlen text)) then
    write_cstr text out
  else overlay text out.

Definition disposition_attr (region attr out : bytes) (out_size : Z) : bytes :=
  let out := write_cstr [] out in
  match find_attr None region attr with
  | None => out
  | Some v => copy_attr v out out_size
  end.

(** [name], [filename] and [content_type] of the part being parsed. *)
Record PartBuffers := { pb_name : bytes; pb_filename : bytes; pb_content_type : bytes }.

Definition part_header_line (line : bytes) (b : PartBuffers) : PartBuffers :=
  if (20 <? zlen line) && starts_with_ci (str "Content-Disposition:") line then
    {| pb_name := disposition_attr line (str "name=") (pb_name b) HTTP_MULTIPART_NAME_MAX;
       pb_filename := disposition_attr line (str "filename=") (pb_filename b) HTTP_MULTIPART_FILE_MAX;
       pb_content_type := pb_content_type b |}
  else if (13 <? zlen line) && starts_with_ci (str "Content-Type:") line then
    let v := take_while (λ c, negb (c =? ";"%ch)) (zdrop 13 line) in
    let text := ztake (HTTP_MULTIPART_FILE_MAX - 1) (List.filter (λ c, negb (is_ows c)) v) in
    {| pb_name := pb_name b; pb_filename := pb_filename b;
       pb_content_type := write_cstr text (pb_content_type b) |}
  else b.

(** A round per line. *)
Fixpoint part_headers_loop (fuel : nat) (p : bytes) (b : PartBuffers) : PartBuffers :=
  match fuel, p with
  | O, _ | _, [] => b
  | S fuel, _ =>
      let eol := default (zlen p) (mem_find p CRLF) in
      part_headers_loop fuel (zdrop (eol + 2) p) (part_header_line (ztake eol p) b)
  end.

Definition parse_part_headers (region : bytes) (b : PartBuffers) : PartBuffers :=
  part_headers_loop (length region) region
    {| pb_name := write_cstr [] (pb_name b); pb_filename := write_cstr [] (pb_filename b);
       pb_content_type := write_cstr [] (pb_content_type b) |}.

(** [snprintf(dst, size, "%s", buf)]: [None] when no NUL ends the buffer, a read
    past the array. *)
Definition copy_buffer (size : Z) (buf : bytes) : option bytes :=
  if has_chr NUL buf then Some (snprintf_s size (cstr buf)) else None.

Definition make_part (b : PartBuffers) (data data_len : Z) : option HttpMultipartPart :=
  name ← copy_buffer HTTP_MULTIPART_NAME_MAX (pb_name b);
  filename ← copy_buffer HTTP_MULTIPART_FILE_MAX (pb_filename b);
  content_type ← copy_buffer HTTP_MULTIPART_FILE_MAX (pb_content_type b);
  Some {| mp_name := name; mp_filename := filename; mp_content_type := content_type;
          mp_data := data; mp_data_len := data_len |}.

(** The parts from offset [pos] on, where the body's rest is [p]; [stack] gives
    the arrays' contents in each round.  [None]: undefined behaviour. *)
Fixpoint multipart_loop (fuel : nat) (stack : nat → PartBuffers) (delim p : bytes) (pos : Z)
    (parts : list HttpMultipartPart) : option (list HttpMultipartPart) :=
  match fuel with
  | O => Some parts
  | S fuel =>
      if (zlen p =? 0) || (HTTP_MAX_MULTIPART_PARTS <=? zlen parts) then Some parts
      else if starts_with (str "--") p then Some parts
      else if negb (starts_with CRLF p) then Some parts
      else
        let p := zdrop 2 p in
        match mem_find p CRLFCRLF with
        | None => Some parts
        | Some hdr_end =>
            let data := zdrop (hdr_end + 4) p in
            let data_start := pos + 2 + hdr_end + 4 in
            let b := parse_part_headers (ztake (hdr_end + 2) p) (stack fuel) in
            match mem_find data (CRLF ++ delim) with
            | None => Some parts
            | Some data_end =>
                parts ← (if deref (pb_name b) =? NUL then Some parts
                         else part ← make_part b data_start data_end; Some (parts ++ [part]));
                multipart_loop fuel stack delim (zdrop (data_end + 2 + zlen delim) data)
                  (data_start + data_end + 2 + zlen delim) parts
            end
        end
  end.

Definition parse_multipart (stack : nat → PartBuffers) (req : HttpRequest)
  : option (list HttpMultipartPart) :=
  match req_body req, http_req_header req (Some (str "Content-Type")) with
  | Some body, Some ct =>
      if zlen body =? 0 then Some []
      else
        let boundary := multipart_boundary ct 71 in
        if zlen boundary =? 0 then Some []
        else
          let delim := str "--" ++ boundary in
          match mem_find body delim with
          | None => Some []
          | Some pos =>
              multipart_loop (length body) stack delim (zdrop (pos + zlen delim) body)
                (pos + zlen delim) []
          end
  | _, _ => Some []
  end.

Definition http_req_multipart_count (req : HttpRequest) : Z := zlen (req_multiparts req).

Definition http_req_multipart_part (req : HttpRequest) (index : Z) : option HttpMultipartPart :=
  if zlen (req_multiparts req) <=? index then None else req_multiparts req !! Z.to_nat index.

Definition http_req_multipart_get (req : HttpRequest) (name : option bytes)
  : option HttpMultipartPart :=
  name ← name; List.find (λ p, streq (mp_name p) name) (req_multiparts req).

(** ** Searching *)

Lemma starts_with_app_long pre s t :
  (length pre ≤ length s)%nat → starts_with pre (s ++ t) = starts_with pre s.
Proof.
  revert s. induction pre as [|x pre IH]; intros [|y s] H; simpl in *; try done; [lia|].
  by rewrite IH by lia.
Qed.

Lemma strstr_length needle s a b : strstr needle s = Some (a, b) → (length needle ≤ length s)%nat.
Proof.
  intros H. apply strstr_Some in H as [-> H]. apply starts_with_true in H as [t ->].
  rewrite !length_app. lia.
Qed.

(** Text behind the first match does not change it. *)
Lemma strstr_app needle s a b t :
  strstr needle s = Some (a, b) → strstr needle (s ++ t) = Some (a, b ++ t).
Proof.
  revert a. induction s as [|c s IH]; intros a H.
  - simpl in H. destruct needle; [|done]. injection H as <- <-. simpl. by destruct t.
  - pose proof (strstr_length _ _ _ _ H) as Hl.
    cbn [strstr app] in *. change (c :: s ++ t) with ((c :: s) ++ t).
    rewrite starts_with_app_long by done.
    destruct (starts_with needle (c :: s)); [by injection H as <- <-|].
    destruct (strstr needle s) as [[a' b']|] eqn:E; [|done]. injection H as <- <-.
    by rewrite (IH _ eq_refl).
Qed.

Lemma mem_find_strstr hay needle a b :
  needle ≠ [] → strstr needle hay = Some (a, b) → mem_find hay needle = Some (zlen a).
Proof.
  intros Hn H. unfold mem_find. pose proof (strstr_length _ _ _ _ H).
  rewrite (proj2 (Z.eqb_neq _ _)) by (destruct needle; [done|zlen_lia]).
  rewrite (proj2 (Z.ltb_ge _ _)) by (unfold zlen; lia). by rewrite H.
Qed.

(** A prefix without the needle's first character is skipped. *)
Lemma strstr_skip c needle a t x y :
  c ∉ a → strstr (c :: needle) t = Some (x, y) → strstr (c :: needle) (a ++ t) = Some (a ++ x, y).
Proof.
  intros Ha Ht. induction a as [|d a IH]; [done|]. apply not_elem_of_cons in Ha as [Hd Ha].
  cbn [app strstr starts_with]. rewrite (proj2 (Z.eqb_neq c d)) by done. cbn [andb].
  by rewrite IH.
Qed.

Lemma crlfcrlf_skip_crlf s x y :
  deref s ≠ CR → strstr CRLFCRLF s = Some (x, y) →
  strstr CRLFCRLF (CRLF ++ s) = Some (CRLF ++ x, y).
Proof.
  intros Hs H. unfold CRLFCRLF, CRLF in *. cbn [app]. 
  change (strstr [CR; LF; CR; LF] (CR :: LF :: s)) with
    (if starts_with [CR; LF] s then Some ([], CR :: LF :: s)
     else match strstr [CR; LF; CR; LF] (LF :: s) with Some (a, b) => Some (CR :: a, b) | None => None end).
  assert (starts_with [CR; LF] s = false) as ->.
  { destruct s as [|c s]; [done|]. cbn [starts_with deref] in *.
    by rewrite (proj2 (Z.eqb_neq CR c)) by congruence. }
  change (LF :: s) with ([LF] ++ s). rewrite (strstr_skip CR [LF; CR; LF] [LF] s x y); [done| |done].
  apply not_elem_of_cons. split; [done|apply not_elem_of_nil].
Qed.

(** ** Attributes *)

(** [attr] does not start at any character of [a] when [t] follows. *)
Fixpoint clear_of (attr a t : bytes) : Prop :=
  match a with
  | [] => True
  | c :: r => starts_with_ci attr (c :: r ++ t) = false ∧ clear_of attr r t
  end.

Lemma clear_of_app attr a b t : clear_of attr a (b ++ t) → clear_of attr b t → clear_of attr (a ++ b) t.
Proof.
  induction a as [|c a IH]; intros Ha Hb; [done|]. destruct Ha as [Hc Ha]. split; [|auto].
  by rewrite <- app_assoc.
Qed.

Definition attr_sep (x : Z) : bool := (x =? ";"%ch) || (x =? SP) || (x =? HT).

Lemma find_attr_found prev attr a x v :
  clear_of attr (a ++ [x]) (attr ++ v) → attr_sep x = true → v ≠ [] →
  find_attr prev (a ++ x :: attr ++ v) attr = Some v.
Proof.
  revert prev. induction a as [|c a IH]; intros prev Hc Hx Hv.
  - destruct Hc as [Hc _]. cbn [app find_attr]. cbn [app] in Hc. rewrite Hc. cbn [andb].
    assert (0 < zlen v) by (destruct v; [done|zlen_lia]). pose proof (zlen_nonneg attr).
    rewrite (proj2 (Z.leb_gt _ _)) by zlen_lia.
    destruct attr as [|y attr]; cbn [app].
    + destruct v as [|z v]; [done|]. cbn [find_attr]. rewrite (proj2 (Z.leb_gt _ _)) by zlen_lia.
      unfold attr_sep in Hx. by rewrite Hx.
    + cbn [find_attr]. rewrite (proj2 (Z.leb_gt _ _)) by zlen_lia.
      unfold attr_sep in Hx. rewrite Hx.
      assert (starts_with_ci (y :: attr) (y :: attr ++ v) = true) as ->.
      { unfold starts_with_ci. change (y :: attr ++ v) with ((y :: attr) ++ v).
        rewrite map_app. apply starts_with_app. }
      cbn [andb]. change (y :: attr ++ v) with ((y :: attr) ++ v). by rewrite zdrop_app_length.
  - destruct Hc as [Hc Ha]. cbn [app find_attr].
    assert (0 < zlen v) by (destruct v; [done|zlen_lia]).
    rewrite (proj2 (Z.leb_gt _ _)) by zlen_lia.
    cbn [app] in Hc. rewrite <- app_assoc in Hc. cbn [app] in Hc. rewrite Hc. cbn [andb].
    by apply IH.
Qed.

Lemma find_attr_none prev attr a : clear_of attr a [] → find_attr prev a attr = None.
Proof.
  revert prev. induction a as [|c a IH]; intros prev Hc; [done|]. destruct Hc as [Hc Ha].
  rewrite app_nil_r in Hc. cbn [find_attr]. case_if; [done|]. rewrite Hc. cbn [andb]. by apply IH.
Qed.

(** A character a quoted value may hold here: printable, no quote and no [=]. *)
Definition attr_char (c : Z) : Prop := 32 <= c <= 126 ∧ c ≠ DQUOTE ∧ c ≠ "="%ch.

Lemma tolower_fixed c x : tolower c = x → is_lower x = false → is_upper x = false → c = x.
Proof.
  unfold tolower, is_lower, is_upper. intros Hx Hl _. case_if_in Hx; [|done]. subst x. breflect.
  destruct Hl as [Hl|Hl]; breflect; lia.
Qed.

Lemma clear_of_value n t :
  Forall attr_char n → clear_of (str "filename=") n (DQUOTE :: t).
Proof.
  induction n as [|c n IH]; intros Hn; [done|]. split; [|apply IH; by apply Forall_cons in Hn as [_ ?]].
  destruct (starts_with_ci _ _) eqn:E; [exfalso|done].
  unfold starts_with_ci in E. apply starts_with_true in E as [u E].
  change (c :: n ++ DQUOTE :: t) with ((c :: n) ++ [DQUOTE] ++ t) in E. rewrite !map_app in E.
  generalize dependent (c :: n). clear. intros n Hn E.
  assert (DQUOTE ∈ map tolower (str "filename=") ∨ "="%ch ∈ map tolower n) as [H|H].
  { apply (f_equal (take 9)) in E.
    rewrite (take_app_length' (map tolower (str "filename=")) u 9 eq_refl) in E.
    destruct (decide (9 ≤ length n)%nat).
    - right. rewrite take_app_le in E by (rewrite length_map; lia).
      assert ("="%ch ∈ take 9 (map tolower n)) as Hin by (rewrite E; by apply has_chr_true).
      eapply elem_of_take in Hin as (i & Hi & _). by eapply list_elem_of_lookup_2.
    - left. rewrite take_app_ge in E by (rewrite length_map; lia). rewrite <- E.
      apply elem_of_app. right. rewrite length_map.
      replace (9 - length n)%nat with (S (8 - length n)) by lia. by left. }
  - by apply has_chr_true in H.
  - apply list_elem_of_fmap in H as (x & Hx & Hin). rewrite Forall_forall in Hn.
    destruct (Hn x Hin) as (_ & _ & Hne). symmetry in Hx. by apply tolower_fixed in Hx.
Qed.

Lemma attr_char_plain n : Forall attr_char n → Forall (λ c, boundary_char c = true) n ∧ nul_free n.
Proof.
  intros H. split; (eapply Forall_impl; [done|]); intros c (Hc & _ & _); cbv beta in *; [|lia].
  unfold boundary_char. by rewrite !(proj2 (Z.ltb_ge _ _)) by lia.
Qed.

Lemma copy_attr_quoted n rest out size :
  Forall attr_char n → zlen n < size →
  copy_attr (DQUOTE :: n ++ DQUOTE :: rest) out size = write_cstr n out.
Proof.
  intros Hn Hs. unfold copy_attr. change (deref (DQUOTE :: n ++ DQUOTE :: rest) =? DQUOTE) with true.
  cbn [tail]. cbv zeta.
  rewrite span_app_stop; [|eapply Forall_impl; [done|]; intros c (_ & Hc & _); cbv beta in *;
    by rewrite (proj2 (Z.eqb_neq c DQUOTE))|right; by do 2 eexists].
  assert (take_while boundary_char n = n) as ->.
  { unfold take_while. rewrite span_all; [done|by apply attr_char_plain]. }
  rewrite ztake_all by lia. rewrite (proj2 (Z.ltb_ge _ _)) by lia.
  by rewrite (proj2 (Z.eqb_neq _ 0)) by zlen_lia.
Qed.

Lemma copy_buffer_written n buf size :
  nul_free n → zlen n < size → copy_buffer size (write_cstr n buf) = Some n.
Proof.
  intros Hn Hs. unfold copy_buffer, write_cstr.
  rewrite (proj2 (has_chr_true NUL (n ++ [NUL] ++ zdrop (zlen n + 1) buf))).
  - rewrite cstr_app by done. cbn [cstr app]. rewrite app_nil_r. unfold snprintf_s.
    by rewrite ztake_all by lia.
  - apply elem_of_app. right. by left.
Qed.

(** ** Printing and parsing a body *)

(** A part as a client sends it. *)
Record Part := {
  pt_name : bytes;
  pt_filename : option bytes;
  pt_content_type : option bytes;
  pt_data : bytes;
}.

Definition disposition_line (p : Part) : bytes :=
  str "Content-Disposition: form-data; name=" ++ DQUOTE :: pt_name p ++ DQUOTE ::
  match pt_filename p with
  | Some f => str "; filename=" ++ DQUOTE :: f ++ [DQUOTE]
  | None => []
  end.

Definition type_line (p : Part) : option bytes :=
  (λ t, str "Content-Type: " ++ t) <$> pt_content_type p.

Definition print_headers_of (p : Part) : bytes :=
  disposition_line p ++ CRLF ++ match type_line p with Some l => l ++ CRLF | None => [] end.

Definition print_part (delim : bytes) (p : Part) : bytes :=
  CRLF ++ print_headers_of p ++ CRLF ++ pt_data p ++ CRLF ++ delim.

Definition print_body (delim : bytes) (parts : list Part) (epilogue : bytes) : bytes :=
  delim ++ concat (map (print_part delim) parts) ++ str "--" ++ epilogue.

(** A content type the parser keeps: no separator, no white space, no control. *)
Definition type_char (c : Z) : Prop := 33 <= c <= 126 ∧ c ≠ ";"%ch.

(** What the parser supports: a name, sizes that fit its buffers, plain
    attribute values, and data in which the delimiter does not occur. *)
Record part_ok (delim : bytes) (p : Part) : Prop := {
  po_name : pt_name p ≠ [];
  po_name_chars : Forall attr_char (pt_name p);
  po_name_len : zlen (pt_name p) < HTTP_MULTIPART_NAME_MAX;
  po_filename : ∀ f, pt_filename p = Some f → Forall attr_char f ∧ zlen f < HTTP_MULTIPART_FILE_MAX;
  po_type : ∀ t, pt_content_type p = Some t → Forall type_char t ∧ zlen t < HTTP_MULTIPART_FILE_MAX;
  po_data : strstr (CRLF ++ delim) (pt_data p ++ CRLF ++ delim) = Some (pt_data p, CRLF ++ delim);
}.

(** The part the handler sees; its data is where it lies in the body. *)
Definition parsed_part (p : Part) (pos : Z) : HttpMultipartPart :=
  {| mp_name := pt_name p; mp_filename := default [] (pt_filename p);
     mp_content_type := default [] (pt_content_type p);
     mp_data := pos; mp_data_len := zlen (pt_data p) |}.

Fixpoint parsed_parts (delim : bytes) (parts : list Part) (pos : Z) : list HttpMultipartPart :=
  match parts with
  | [] => []
  | p :: parts =>
      parsed_part p (pos + 2 + zlen (print_headers_of p) + 2)
      :: parsed_parts delim parts (pos + zlen (print_part delim p))
  end.

Lemma disposition_name p b :
  Forall attr_char (pt_name p) → zlen (pt_name p) < HTTP_MULTIPART_NAME_MAX →
  disposition_attr (disposition_line p) (str "name=") b HTTP_MULTIPART_NAME_MAX
  = write_cstr (pt_name p) (write_cstr [] b).
Proof.
  intros Hc Hl. unfold disposition_attr, disposition_line.
  set (v := DQUOTE :: pt_name p ++ DQUOTE :: match pt_filename p with
    | Some f => str "; filename=" ++ DQUOTE :: f ++ [DQUOTE] | None => [] end).
  change (str "Content-Disposition: form-data; name=" ++ v)
    with (str "Content-Disposition: form-data;" ++ SP :: str "name=" ++ v).
  rewrite find_attr_found; [|by repeat split|done|by unfold v].
  unfold v. by apply copy_attr_quoted.
Qed.

Lemma disposition_filename p b :
  Forall attr_char (pt_name p) →
  (∀ f, pt_filename p = Some f → Forall attr_char f ∧ zlen f < HTTP_MULTIPART_FILE_MAX) →
  disposition_attr (disposition_line p) (str "filename=") b HTTP_MULTIPART_FILE_MAX
  = match pt_filename p with
    | Some f => write_cstr f (write_cstr [] b)
    | None => write_cstr [] b
    end.
Proof.
  intros Hc Hf. unfold disposition_attr, disposition_line.
  destruct (pt_filename p) as [f|].
  - destruct (Hf f eq_refl) as [Hfc Hfl].
    set (v := DQUOTE :: f ++ [DQUOTE]).
    replace (str "Content-Disposition: form-data; name=" ++ DQUOTE :: pt_name p ++ DQUOTE ::
               str "; filename=" ++ v)
      with ((str "Content-Disposition: form-data; name=" ++ [DQUOTE] ++ pt_name p ++ DQUOTE :: str ";")
             ++ SP :: str "filename=" ++ v)
      by (repeat (rewrite <- ?app_assoc; cbn [app]); done).
    rewrite find_attr_found; [| |done|by unfold v].
    + unfold v. by apply (copy_attr_quoted f []).
    + repeat (rewrite <- ?app_assoc; cbn [app]).
      apply (clear_of_app _ (str "Content-Disposition: form-data; name=")); [by repeat split|].
      split; [done|]. apply clear_of_app; [by apply clear_of_value|]. by repeat split.
  - rewrite find_attr_none; [done|].
    apply (clear_of_app _ (str "Content-Disposition: form-data; name=")); [by repeat split|].
    split; [done|]. apply clear_of_app; [by apply clear_of_value|]. by repeat split.
Qed.

Lemma attr_char_no_cr n : Forall attr_char n → CR ∉ n.
Proof. intros H Hin. rewrite Forall_forall in H. destruct (H CR Hin). lia. Qed.

Lemma disposition_line_no_cr p :
  Forall attr_char (pt_name p) → (∀ f, pt_filename p = Some f → Forall attr_char f) →
  CR ∉ disposition_line p.
Proof.
  intros Hn Hf. unfold disposition_line. rewrite !not_elem_of_app, not_elem_of_cons, not_elem_of_app,
    not_elem_of_cons. split; [by apply has_chr_false|]. split; [done|].
  split; [by apply attr_char_no_cr|]. split; [done|].
  destruct (pt_filename p) as [f|]; [|apply not_elem_of_nil].
  rewrite !not_elem_of_app, not_elem_of_cons, not_elem_of_app. split; [by apply has_chr_false|].
  split; [done|]. split; [by apply attr_char_no_cr, Hf|by apply has_chr_false].
Qed.

Lemma type_line_no_cr t : Forall type_char t → CR ∉ str "Content-Type: " ++ t.
Proof.
  intros H. rewrite not_elem_of_app. split; [by apply has_chr_false|].
  intros Hin. rewrite Forall_forall in H. destruct (H CR Hin). lia.
Qed.

(** One line of a header block. *)
Lemma part_headers_line fuel line rest b :
  CR ∉ line → line ≠ [] →
  part_headers_loop (S fuel) (line ++ CRLF ++ rest) b
  = part_headers_loop fuel rest (part_header_line line b).
Proof.
  intros Hc Hne. destruct line as [|c line]; [done|].
  change (part_headers_loop (S fuel) ((c :: line) ++ CRLF ++ rest) b)
    with (let p := (c :: line) ++ CRLF ++ rest in
          let eol := default (zlen p) (mem_find p CRLF) in
          part_headers_loop fuel (zdrop (eol + 2) p) (part_header_line (ztake eol p) b)).
  cbv zeta. rewrite (mem_find_strstr _ CRLF (c :: line) (CRLF ++ rest)); [|done|].
  - change (default ?x (Some ?y)) with y. rewrite ztake_app_length.
    replace (zlen (c :: line) + 2) with (zlen ((c :: line) ++ CRLF))
      by (rewrite zlen_app; done).
    rewrite app_assoc. by rewrite zdrop_app_length.
  - by apply strstr_app_first.
Qed.

Lemma part_header_type t b :
  Forall type_char t → zlen t < HTTP_MULTIPART_FILE_MAX →
  part_header_line (str "Content-Type: " ++ t) b
  = {| pb_name := pb_name b; pb_filename := pb_filename b;
       pb_content_type := write_cstr t (pb_content_type b) |}.
Proof.
  intros Ht Hl. unfold part_header_line.
  assert (starts_with_ci (str "Content-Disposition:") (str "Content-Type: " ++ t) = false) as -> by done.
  rewrite andb_false_r. rewrite (proj2 (Z.ltb_lt 13 _)).
  2: { rewrite zlen_app. change (zlen (str "Content-Type: ")) with 14. zlen_lia. }
  assert (starts_with_ci (str "Content-Type:") (str "Content-Type: " ++ t) = true) as -> by done.
  cbn [andb]. change (zdrop 13 (str "Content-Type: " ++ t)) with (SP :: t). do 2 f_equal.
  assert (take_while (λ c, negb (c =? ";"%ch)) (SP :: t) = SP :: t) as ->.
  { unfold take_while. rewrite span_all; [done|]. constructor; [done|].
    eapply Forall_impl; [done|]. intros c [_ Hc]. cbv beta. by apply negb_true_iff, Z.eqb_neq. }
  change (List.filter (λ c, negb (is_ows c)) (SP :: t)) with (List.filter (λ c, negb (is_ows c)) t).
  assert (List.filter (λ c, negb (is_ows c)) t = t) as ->.
  { clear Hl. induction Ht as [|c t [Hc _] Ht IH]; [done|]. simpl. unfold is_ows at 1.
    rewrite !(proj2 (Z.eqb_neq c _)) by lia. cbn [orb negb]. by rewrite IH. }
  apply ztake_all. lia.
Qed.

Section PartOk.
Context (delim : bytes) (p : Part) (Hok : part_ok delim p).

Lemma part_disposition_no_cr : CR ∉ disposition_line p.
Proof using Hok.
  apply disposition_line_no_cr; [apply (po_name_chars _ _ Hok)|].
  intros f Hf. by apply (po_filename _ _ Hok f).
Qed.

(** The header block ends where it was printed to end. *)
Lemma part_headers_end X :
  strstr CRLFCRLF (print_headers_of p ++ CRLF ++ X)
  = Some (ztake (zlen (print_headers_of p) - 2) (print_headers_of p), CRLFCRLF ++ X).
Proof using Hok.
  pose proof part_disposition_no_cr as Hd. unfold print_headers_of, type_line.
  destruct (pt_content_type p) as [t|] eqn:Et; cbn [fmap option_fmap option_map].
  - destruct (po_type _ _ Hok t Et) as [Ht _]. pose proof (type_line_no_cr t Ht) as Htc.
    set (T := str "Content-Type: " ++ t) in *.
    replace (zlen (disposition_line p ++ CRLF ++ T ++ CRLF) - 2)
      with (zlen (disposition_line p ++ CRLF ++ T))
      by (rewrite !zlen_app; change (zlen CRLF) with 2; lia).
    replace ((disposition_line p ++ CRLF ++ T ++ CRLF) ++ CRLF ++ X)
      with (disposition_line p ++ CRLF ++ T ++ CRLFCRLF ++ X)
      by (rewrite <- !app_assoc; done).
    rewrite (strstr_skip CR [LF; CR; LF] _ _ (CRLF ++ T) (CRLFCRLF ++ X)); [|done|].
    + do 2 f_equal. symmetry.
      replace (disposition_line p ++ CRLF ++ T ++ CRLF) with ((disposition_line p ++ CRLF ++ T) ++ CRLF)
        by (by rewrite <- !app_assoc).
      apply ztake_app_length.
    + apply crlfcrlf_skip_crlf; [by unfold T|]. by apply strstr_app_first.
  - rewrite app_nil_r. replace (zlen (disposition_line p ++ CRLF) - 2) with (zlen (disposition_line p))
      by (rewrite !zlen_app; change (zlen CRLF) with 2; lia).
    rewrite ztake_app_length, <- app_assoc. by apply strstr_app_first.
Qed.

Lemma print_headers_length : 2 <= zlen (print_headers_of p).
Proof using.
  unfold print_headers_of. rewrite !zlen_app. change (zlen CRLF) with 2.
  pose proof (zlen_nonneg (disposition_line p)). case_match; zlen_lia.
Qed.

Lemma part_header_disposition b :
  part_header_line (disposition_line p) b
  = {| pb_name := write_cstr (pt_name p) (write_cstr [] (pb_name b));
       pb_filename := match pt_filename p with
                      | Some f => write_cstr f (write_cstr [] (pb_filename b))
                      | None => write_cstr [] (pb_filename b) end;
       pb_content_type := pb_content_type b |}.
Proof using Hok.
  unfold part_header_line.
  assert ((20 <? zlen (disposition_line p)) = true) as ->.
  { apply Z.ltb_lt. unfold disposition_line. rewrite zlen_app.
    change (zlen (str "Content-Disposition: form-data; name=")) with 37. zlen_lia. }
  assert (starts_with_ci (str "Content-Disposition:") (disposition_line p) = true) as -> by done.
  cbn [andb]. f_equal.
  - apply disposition_name; apply Hok.
  - apply disposition_filename; apply Hok.
Qed.

Lemma parse_part_headers_print b pos len :
  let b' := parse_part_headers (print_headers_of p) b in
  deref (pb_name b') ≠ NUL ∧
  make_part b' pos len = Some {| mp_name := pt_name p; mp_filename := default [] (pt_filename p);
    mp_content_type := default [] (pt_content_type p); mp_data := pos; mp_data_len := len |}.
Proof using Hok.
  assert (disposition_line p ≠ []) as Hdne by done.
  pose proof part_disposition_no_cr as Hd.
  destruct (attr_char_plain _ (po_name_chars _ _ Hok)) as [_ Hnn].
  set (b0 := {| pb_name := write_cstr [] (pb_name b); pb_filename := write_cstr [] (pb_filename b);
                pb_content_type := write_cstr [] (pb_content_type b) |}).
  assert (parse_part_headers (print_headers_of p) b
    = let b1 := part_header_line (disposition_line p) b0 in
      match type_line p with Some l => part_header_line l b1 | None => b1 end) as ->.
  { unfold parse_part_headers. fold b0. unfold print_headers_of.
    destruct (length (disposition_line p ++ CRLF ++ match type_line p with
              | Some l => l ++ CRLF | None => [] end)) as [|[|fuel]] eqn:El;
      try (rewrite !length_app in El; simpl in El; lia).
    rewrite part_headers_line by done. unfold type_line.
    destruct (pt_content_type p) as [t|] eqn:Et; cbn [fmap option_fmap option_map]; [|done].
    destruct (po_type _ _ Hok t Et) as [Ht _].
    rewrite <- (app_nil_r CRLF). rewrite part_headers_line; [|by apply type_line_no_cr|done].
    by destruct fuel. }
  cbv zeta. rewrite part_header_disposition. unfold type_line.
  assert (∀ f buf, pt_filename p = Some f →
    copy_buffer HTTP_MULTIPART_FILE_MAX (write_cstr f buf) = Some f) as Hf.
  { intros f buf Hf. destruct (po_filename _ _ Hok f Hf) as [Hc Hl].
    apply copy_buffer_written; [by apply attr_char_plain|done]. }
  assert (∀ buf, copy_buffer HTTP_MULTIPART_FILE_MAX (write_cstr [] buf) = Some []) as He.
  { intros buf. by apply copy_buffer_written; [constructor|]. }
  assert (deref (write_cstr (pt_name p) (write_cstr [] (write_cstr [] (pb_name b)))) ≠ NUL) as Hn0.
  { pose proof (po_name _ _ Hok). unfold nul_free in Hnn. destruct (pt_name p) as [|c n]; [done|].
    by apply Forall_cons in Hnn as [? _]. }
  destruct (pt_content_type p) as [t|] eqn:Et; cbn [fmap option_fmap option_map].
  - destruct (po_type _ _ Hok t Et) as [Ht Htl]. rewrite part_header_type by done.
    split; [done|]. unfold make_part. cbn [pb_name pb_filename pb_content_type b0].
    rewrite (copy_buffer_written (pt_name p)) by (done || apply Hok). cbn [mbind option_bind].
    assert (copy_buffer HTTP_MULTIPART_FILE_MAX match pt_filename p with
      | Some f => write_cstr f (write_cstr [] (write_cstr [] (pb_filename b)))
      | None => write_cstr [] (write_cstr [] (pb_filename b)) end
      = Some (default [] (pt_filename p))) as ->.
    { destruct (pt_filename p) as [f|]; [by apply Hf|apply He]. }
    cbn [mbind option_bind]. rewrite (copy_buffer_written t); [done| |done].
    eapply Forall_impl; [done|]. intros c [Hc _]. cbv beta. lia.
  - split; [done|]. unfold make_part. cbn [pb_name pb_filename pb_content_type b0].
    rewrite (copy_buffer_written (pt_name p)) by (done || apply Hok). cbn [mbind option_bind].
    assert (copy_buffer HTTP_MULTIPART_FILE_MAX match pt_filename p with
      | Some f => write_cstr f (write_cstr [] (write_cstr [] (pb_filename b)))
      | None => write_cstr [] (write_cstr [] (pb_filename b)) end
      = Some (default [] (pt_filename p))) as ->.
    { destruct (pt_filename p) as [f|]; [by apply Hf|apply He]. }
    cbn [mbind option_bind]. by rewrite He.
Qed.
End PartOk.

Lemma multipart_loop_print fuel stack delim parts ep pos acc :
  delim ≠ [] → Forall (part_ok delim) parts → (length parts < fuel)%nat →
  zlen acc + zlen parts <= HTTP_MAX_MULTIPART_PARTS →
  multipart_loop fuel stack delim (concat (map (print_part delim) parts) ++ str "--" ++ ep) pos acc
  = Some (acc ++ parsed_parts delim parts pos).
Proof.
  intros Hd Hok. revert fuel pos acc. induction Hok as [|p parts Hp _ IH]; intros fuel pos acc Hf Hl.
  { destruct fuel as [|fuel]; [simpl in Hf; lia|]. cbn [map concat app multipart_loop].
    rewrite app_nil_r. case_if; [done|]. by rewrite starts_with_app. }
  destruct fuel as [|fuel]; [simpl in Hf; lia|]. simpl in Hf. rewrite zlen_cons in Hl.
  pose proof (zlen_nonneg parts). cbn [map concat]. rewrite <- app_assoc.
  set (X := concat (map (print_part delim) parts) ++ str "--" ++ ep) in *.
  set (hb := print_headers_of p).
  assert (print_part delim p ++ X = CRLF ++ hb ++ CRLF ++ pt_data p ++ CRLF ++ delim ++ X) as ->
    by (unfold print_part; by rewrite <- !app_assoc).
  cbn [multipart_loop].
  assert ((zlen (CRLF ++ hb ++ CRLF ++ pt_data p ++ CRLF ++ delim ++ X) =? 0) = false) as ->
    by (apply Z.eqb_neq; unfold CRLF; zlen_lia).
  rewrite (proj2 (Z.leb_gt _ _)) by lia. cbn [orb].
  assert (starts_with (str "--") (CRLF ++ hb ++ CRLF ++ pt_data p ++ CRLF ++ delim ++ X) = false) as -> by done.
  rewrite starts_with_app. cbn [negb].
  change (zdrop 2 (CRLF ++ hb ++ CRLF ++ pt_data p ++ CRLF ++ delim ++ X))
    with (hb ++ CRLF ++ pt_data p ++ CRLF ++ delim ++ X).
  pose proof (print_headers_length p) as HHl. fold hb in HHl.
  rewrite (mem_find_strstr _ CRLFCRLF _ _) by (done || apply (part_headers_end delim p Hp)).
  rewrite zlen_ztake, Z.min_l by (fold hb; lia).
  fold hb. replace (zlen hb - 2 + 4) with (zlen (hb ++ CRLF)) by (rewrite zlen_app; change (zlen CRLF) with 2; lia).
  replace (zlen hb - 2 + 2) with (zlen hb) by lia. rewrite ztake_app_length.
  rewrite (app_assoc hb CRLF), zdrop_app_length.
  rewrite (mem_find_strstr _ (CRLF ++ delim) (pt_data p) (CRLF ++ delim ++ X)).
  2: done.
  2: { pose proof (strstr_app _ _ _ _ X (po_data _ _ Hp)) as Hs. rewrite <- !app_assoc in Hs. exact Hs. }
  destruct (parse_part_headers_print delim p Hp (stack fuel) (pos + 2 + (zlen hb - 2) + 4) (zlen (pt_data p)))
    as [Hn Hm].
  fold hb in Hn, Hm. rewrite (proj2 (Z.eqb_neq _ _) Hn), Hm. cbn [mbind option_bind].
  replace (zlen (pt_data p) + 2 + zlen delim) with (zlen (pt_data p ++ CRLF ++ delim))
    by (rewrite !zlen_app; change (zlen CRLF) with 2; lia).
  replace (pt_data p ++ CRLF ++ delim ++ X) with ((pt_data p ++ CRLF ++ delim) ++ X)
    by (by rewrite <- !app_assoc).
  rewrite zdrop_app_length. rewrite IH; [|lia|rewrite zlen_app, zlen_cons, zlen_nil; lia].
  rewrite <- app_assoc. cbn [app parsed_parts]. do 2 f_equal. f_equal.
  - unfold parsed_part. fold hb. f_equal. lia.
  - f_equal. unfold print_part. fold hb. rewrite !zlen_app. change (zlen CRLF) with 2. lia.
Qed.

Lemma strstr_here needle s : starts_with needle s = true → strstr needle s = Some ([], s).
Proof. intros H. destruct s; cbn [strstr]; by rewrite H. Qed.

(** A stack full of one character, and a request whose part name has a control
    character. *)
Definition stack_of (c : Z) : nat → PartBuffers := λ _,
  {| pb_name := replicate 31 c ++ [NUL]; pb_filename := replicate 64 NUL;
     pb_content_type := replicate 64 NUL |}.

Definition leaky_request : HttpRequest :=
  let body := str "--B" ++ CRLF ++ str "Content-Disposition: form-data; name=" ++ [DQUOTE]
    ++ str "ab" ++ [1] ++ str "c" ++ [DQUOTE] ++ CRLFCRLF ++ str "data" ++ CRLF ++ str "--B--" in
  set_req_body (Some body) (set_req_headers
    {| hs_items := [{| h_key := str "Content-Type"; h_value := str "multipart/form-data; boundary=B" |}];
       hs_capacity := 8 |} empty_request).

(** C35: a multipart body printed from up to 16 parts parses back to the names, file
    names, types and data of these parts, whatever the buffers on the stack held
    before. *)
Theorem parse_multipart_print stack req ct boundary parts ep :
  req_body req = Some (print_body (str "--" ++ boundary) parts ep) →
  http_req_header req (Some (str "Content-Type")) = Some ct →
  multipart_boundary ct 71 = boundary → boundary ≠ [] →
  Forall (part_ok (str "--" ++ boundary)) parts → zlen parts <= HTTP_MAX_MULTIPART_PARTS →
  parse_multipart stack req
  = Some (parsed_parts (str "--" ++ boundary) parts (zlen (str "--" ++ boundary))).
Proof.
  intros Hb Hct Hbd Hne Hok Hl. unfold parse_multipart. rewrite Hb, Hct, Hbd.
  set (delim := str "--" ++ boundary) in *. unfold print_body in *.
  set (X := concat (map (print_part delim) parts) ++ str "--" ++ ep).
  assert ((zlen (delim ++ X) =? 0) = false) as -> by
    (apply Z.eqb_neq; unfold delim; change (str "--" ++ boundary) with ("-"%ch :: "-"%ch :: boundary); zlen_lia).
  assert ((zlen boundary =? 0) = false) as ->.
  { apply Z.eqb_neq. intros H. by apply zlen_nil_inv in H. }
  rewrite (mem_find_strstr _ delim [] (delim ++ X)); [|done|].
  2: { apply strstr_here, starts_with_app. }
  change (zlen [] + zlen delim) with (zlen delim). rewrite zdrop_app_length.
  unfold X. rewrite multipart_loop_print; try done.
  assert (length parts ≤ length (concat (map (print_part delim) parts)))%nat.
  { clear. induction parts as [|p parts IH]; simpl; [lia|]. rewrite length_app. lia. }
  assert (1 ≤ length delim)%nat by (unfold delim; simpl; lia).
  rewrite !length_app. lia.
Qed.

Lemma parse_multipart_print_witness :
  let p := {| pt_name := str "a"; pt_filename := Some (str "f.txt");
              pt_content_type := Some (str "text/plain"); pt_data := str "hi" |} in
  let req := set_req_body (Some (print_body (str "--B") [p] [])) (set_req_headers
    {| hs_items := [{| h_key := str "Content-Type"; h_value := str "multipart/form-data; boundary=B" |}];
       hs_capacity := 8 |} empty_request) in
  ∃ parts, parse_multipart (stack_of 97) req = Some parts ∧ map mp_name parts = [str "a"] ∧
    map mp_filename parts = [str "f.txt"].
Proof.
  intros p req.
  exists (parsed_parts (str "--B") [p] 3). split; [|split; reflexivity].
  apply (parse_multipart_print (stack_of 97) req (str "multipart/form-data; boundary=B") (str "B") [p] []);
    [reflexivity | vm_compute; reflexivity | vm_compute; reflexivity | discriminate | | decided].
  constructor; [|constructor]. split.
  - discriminate.
  - repeat constructor; vm_compute; congruence.
  - decided.
  - intros f [= <-]. split; [repeat constructor; vm_compute; congruence | decided].
  - intros t [= <-]. split; [repeat constructor; vm_compute; congruence | decided].
  - vm_compute. reflexivity.
Defined.

(** Every part a request holds lies within its body. *)
Lemma multipart_loop_within fuel stack delim p pos parts parts' total :
  multipart_loop fuel stack delim p pos parts = Some parts' →
  pos + zlen p = total → 0 <= pos → zlen parts <= HTTP_MAX_MULTIPART_PARTS →
  Forall (λ x, 0 <= mp_data x ∧ 0 <= mp_data_len x ∧ mp_data x + mp_data_len x <= total) parts →
  zlen parts' <= HTTP_MAX_MULTIPART_PARTS ∧
  Forall (λ x, 0 <= mp_data x ∧ 0 <= mp_data_len x ∧ mp_data x + mp_data_len x <= total) parts'.
Proof.
  assert (∀ hay needle n, mem_find hay needle = Some n → 0 <= n ∧ n + zlen needle <= zlen hay) as Hfind.
  { intros hay needle n H. unfold mem_find in H. case_if_in H; [done|].
    destruct (strstr needle hay) as [[a b]|] eqn:E; [|done]. injection H as <-.
    apply strstr_Some in E as [-> Hs]. apply starts_with_true in Hs as [t ->]. cbn [fst]. zlen_lia. }
  revert p pos parts. induction fuel as [|fuel IH]; intros p pos parts H Hp Hpos Hl Hf; cbn [multipart_loop] in H.
  { injection H as <-. done. }
  repeat (case_if_in H; [by injection H as <-|]). breflect.
  match goal with E : starts_with CRLF p = true |- _ => apply starts_with_true in E as [p' ->] end.
  change (zdrop 2 (CRLF ++ p')) with p' in H. rewrite zlen_app in Hp. change (zlen CRLF) with 2 in Hp.
  destruct (mem_find p' CRLFCRLF) as [he|] eqn:E1; [|by injection H as <-].
  destruct (Hfind _ _ _ E1) as [Hhe1 Hhe2]. change (zlen CRLFCRLF) with 4 in Hhe2.
  destruct (mem_find (zdrop (he + 4) p') (CRLF ++ delim)) as [de|] eqn:E2; [|by injection H as <-].
  destruct (Hfind _ _ _ E2) as [Hde1 Hde2]. rewrite zlen_app, zlen_zdrop in Hde2 by lia.
  change (zlen CRLF) with 2 in Hde2. pose proof (zlen_nonneg delim).
  apply bind_Some in H as (parts1 & Hparts & H).
  eapply IH in H; [done| | | |].
  - rewrite !zlen_zdrop by lia. lia.
  - lia.
  - case_if_in Hparts; [injection Hparts as <-; done|].
    apply bind_Some in Hparts as (part & _ & [= <-]). rewrite zlen_app, zlen_cons, zlen_nil. lia.
  - case_if_in Hparts; [injection Hparts as <-; done|].
    apply bind_Some in Hparts as (part & Hpart & [= <-]). apply Forall_app. split; [done|].
    constructor; [|constructor]. unfold make_part in Hpart.
    apply bind_Some in Hpart as (? & _ & Hpart). apply bind_Some in Hpart as (? & _ & Hpart).
    apply bind_Some in Hpart as (? & _ & [= <-]). simpl. lia.
Qed.

(** Whatever the body, at most 16 parts are found and the data of each lies
    within the body. *)
Lemma parse_multipart_within stack req body parts :
  req_body req = Some body → parse_multipart stack req = Some parts →
  zlen parts <= HTTP_MAX_MULTIPART_PARTS ∧
  Forall (λ x, 0 <= mp_data x ∧ 0 <= mp_data_len x ∧ mp_data x + mp_data_len x <= zlen body) parts.
Proof.
  intros Hb H. unfold parse_multipart in H. rewrite Hb in H.
  destruct (http_req_header req (Some (str "Content-Type"))) as [ct|]; [|by injection H as <-].
  repeat (case_if_in H; [by injection H as <-|]).
  destruct (mem_find body (str "--" ++ multipart_boundary ct 71)) as [n|] eqn:E; [|by injection H as <-].
  unfold mem_find in E. case_if_in E; [done|].
  destruct (strstr _ body) as [[a b]|] eqn:Es; [|done]. injection E as <-.
  apply strstr_Some in Es as [-> Hs]. apply starts_with_true in Hs as [t ->]. cbn [fst] in *.
  eapply multipart_loop_within in H; [exact H| | | |constructor].
  - rewrite zlen_zdrop by zlen_lia. zlen_lia.
  - zlen_lia.
  - done.
Qed.

(** What the part is called depends on what the stack held. *)
Lemma multipart_leaks_stack c :
  33 <= c <= 126 →
  map mp_name <$> parse_multipart (stack_of c) leaky_request = Some [str "ab" ++ replicate 29 c].
Proof.
  intros Hc. assert (c ∈ seqZ 33 94) as Hin by (apply elem_of_seqZ; lia). clear Hc.
  assert (Forall (λ c, map mp_name <$> parse_multipart (stack_of c) leaky_request
                       = Some [str "ab" ++ replicate 29 c]) (seqZ 33 94)) as H.
  { vm_compute. repeat constructor. }
  rewrite Forall_forall in H. by apply H.
Qed.
