(* ===== verification/Server.v ===== *)
(** * Serving a connection

    [handle_client] of [src/c_http.c].  The websocket layer is reached through
    an interface, [WsLayer], which its own file implements. *)

From stdpp Require Import gmap.
From S2P Require Import Prelude CLib World Types Validate Headers Query Request Net Segments Time Response Encoder Static Routing Json Multipart.
#[local] Open Scope Z_scope.

(** ** The websocket layer, as the server sees it *)

Inductive HttpWsDispatchResult := WS_DISPATCH_NOT_WS | WS_DISPATCH_UPGRADED | WS_DISPATCH_REJECTED.

#[export] Instance HttpWsDispatchResult_eq_dec : EqDecision HttpWsDispatchResult.
Proof. solve_decision. Defined.

(** [http_ws_dispatch] on the parsed request, its segments and the bytes behind
    it; a request that is no upgrade falls through without side effects. *)
Class WsLayer := {
  http_ws_dispatch : HttpRequest → HttpRouteSegments → bytes → M HttpWsDispatchResult;
  http_ws_dispatch_not_ws : ∀ req segments leftover w,
    result (http_ws_dispatch req segments leftover) w = WS_DISPATCH_NOT_WS →
    world (http_ws_dispatch req segments leftover) w = w;
}.

Section Server.
Context {ws : WsLayer}.
(** The server, its routers, and what the stack holds when a body is parsed. *)
Context (server : HttpServer) (heap : RouterHeap) (stack : nat → PartBuffers).

(** The label [send]: the response is completed and sent.  The value is
    whether the connection persists. *)
Definition send_response (req : HttpRequest) (res : HttpResponse) (persist : bool) : M bool :=
  let res := if res_status res =? 0
             then set_res_status HTTP_STATUS_INTERNAL_SERVER_ERROR res else res in
  res ← match sv_error_handler server with
        | Some error_handler =>
            if res_error res then
              error_handler req res (res_status res)
                (if zlen (res_error_message res) =? 0 then status_text (res_status res)
                 else res_error_message res)
            else mret res
        | None => mret res
        end;
  '(_, res) ← http_encode_body (sv_encoders server) req res;
  send_res res (streq (req_method req) (str "HEAD"));;
  mret persist.

(** What the routing made of the request: the status of a framework error, and
    the [Allow] header of a 405. *)
Definition finish_routing (rc : HandlerResult) (segments : HttpRouteSegments) (res : HttpResponse)
  : M HttpResponse :=
  match rc with
  | HANDLER_OK => mret res
  | HANDLER_METHOD_NOT_ALLOWED =>
      set_allow_header server heap segments (set_protocol_error res HTTP_STATUS_METHOD_NOT_ALLOWED)
  | HANDLER_NOT_FOUND => mret (set_protocol_error res HTTP_STATUS_NOT_FOUND)
  | HANDLER_NOT_IMPLEMENTED => mret (set_protocol_error res HTTP_STATUS_NOT_IMPLEMENTED)
  end.

Definition no_segments : HttpRouteSegments := {| segs := []; segs_capacity := 0 |}.

(** Middleware, the websocket layer, routing: behind the parsed request. *)
Definition route_request (req : HttpRequest) (res : HttpResponse) (persist : bool)
    (ws_leftover : bytes) : M bool :=
  parsed ← http_parse_route_segments (req_path req);
  let segments := default no_segments parsed in
  '(go, res) ← apply_middleware (ms_middlewares (sv_middlewares server)) req res;
  if negb go then send_response req res persist
  else
    ws_result ← http_ws_dispatch req segments ws_leftover;
    if bool_decide (ws_result ≠ WS_DISPATCH_NOT_WS) then mret false
    else
      '(rc, req, res) ← (match parsed with
                         | Some segments => execute_handler server heap req res segments
                         | None => mret (HANDLER_NOT_FOUND, req, res)
                         end);
      res ← finish_routing rc segments res;
      send_response req res persist.

(** The form and the parts of a body. *)
Definition parse_body (req : HttpRequest) : HttpRequest :=
  let req := match http_req_body_type req with
             | HTTP_BODY_URLENCODED => set_req_form (parse_query (cstr (default [] (req_body req)))) req
             | _ => req
             end in
  match http_req_body_type req with
  | HTTP_BODY_MULTIPART => set_req_multiparts (default [] (parse_multipart stack req)) req
  | _ => req
  end.

(** The request out of the received bytes: the status of a protocol error (0:
    none), the request and the bytes behind it. *)
Definition parse_request (buf : bytes) (req : HttpRequest) : M (Z * HttpRequest * bytes) :=
  match strstr CRLFCRLF (cstr buf), strstr CRLF (cstr buf) with
  | Some (head, _), Some (line, eol) =>
      let header_end := zlen head + 4 in
      let '(line_status, req) := parse_request_line line req in
      if negb (line_status =? 0) then mret (line_status, req, [])
      else
        '(hdr_status, req) ← parse_headers (zdrop 2 eol) req;
        if negb (hdr_status =? 0) then mret (hdr_status, req, [])
        else
          '(body_status, req) ← read_body (zdrop header_end buf) req;
          if negb (body_status =? 0) then mret (body_status, req, [])
          else mret (0, req, zdrop (header_end + req_body_len req) buf)
  | _, _ => mret (HTTP_STATUS_BAD_REQUEST, req, [])
  end.

(** One iteration of the keep-alive loop: whether to read another request. *)
Definition handle_request (ip : bytes) (client_port : Z) : M bool :=
  r ← read_request 4096;
  match r with
  | None => mret false
  | Some (buf, headers_complete) =>
      if zlen buf =? 0 then mret false
      else
        let req := set_req_client_port client_port (set_req_ip (snprintf_s 46 ip) empty_request) in
        res ← apply_default_headers empty_response (sv_server_name server) false;
        if negb headers_complete then
          send_response req
            (set_protocol_error res HTTP_STATUS_REQUEST_HEADER_FIELDS_TOO_LARGE) false
        else
          '(status, req, ws_leftover) ← parse_request buf req;
          if negb (status =? 0) then send_response req (set_protocol_error res status) false
          else
            let req := parse_body req in
            let persist := sv_keep_alive server && request_wants_keep_alive req in
            '(_, headers) ← replace_header (res_headers res) (str "Connection")
                              (if persist then str "keep-alive" else str "close");
            route_request req (set_res_headers headers res) persist ws_leftover
  end.

(** The loop; the fuel bounds the requests on one connection. *)
Fixpoint handle_client (fuel : nat) (ip : bytes) (client_port : Z) : M unit :=
  match fuel with
  | O => mret tt
  | S fuel =>
      persist ← handle_request ip client_port;
      if (persist : bool) then handle_client fuel ip client_port else mret tt
  end.
End Server.

(** ** Effects on the connection *)

(** [m] sends nothing, leaves what [send] will answer alone, and puts nothing back
    into the receive queue. *)
Definition reads_only {A} (m : M A) : Prop :=
  ∀ w, w_sent (world m w) = w_sent w ∧ w_send (world m w) = w_send w ∧
       (recv_size (w_recv (world m w)) ≤ recv_size (w_recv w))%nat.

Lemma reads_only_ret {A} (x : A) : reads_only (mret x).
Proof. done. Qed.

Lemma reads_only_bind {A B} (m : M A) (f : A → M B) :
  reads_only m → (∀ x, reads_only (f x)) → reads_only (m ≫= f).
Proof.
  intros Hm Hf w. unfold world. rewrite bind_run. destruct (Hm w) as (H1 & H2 & H3).
  destruct (Hf (result m w) (world m w)) as (H4 & H5 & H6). unfold world in *.
  rewrite H4, H5. split; [done|]. split; [done|lia].
Qed.

Lemma only_allocates_reads {A} (m : M A) : only_allocates m → reads_only m.
Proof. intros H w. destruct (H w) as [(H1 & H2 & H3 & _) _]. rewrite H1, H2, H3. done. Qed.

#[export] Hint Resolve reads_only_ret only_allocates_reads : chttp.

(** Walks through a program that only reads and allocates. *)
Ltac reads :=
  repeat first
    [ apply reads_only_ret
    | apply reads_only_bind; [|intros ?]
    | solve [eauto with chttp nocore]
    | match goal with |- reads_only (match ?x with _ => _ end) => destruct x end ].

Lemma recv_reads n : 0 < n → reads_only (recv n).
Proof. intros Hn w. destruct (recv_consumes n w Hn) as [H _]. unfold world in *. by rewrite recv_run in *. Qed.

(** Reading a header block: a non-empty answer used up something. *)
Lemma read_request_loop_reads fuel size buf : reads_only (read_request_loop fuel size buf).
Proof.
  revert buf. induction fuel as [|fuel IH]; intros buf; cbn [read_request_loop]; [apply reads_only_ret|].
  case_if; breflect; [|apply reads_only_ret].
  apply reads_only_bind; [apply recv_reads; lia|]. intros [bs| | | |]; try apply reads_only_ret; [|apply IH].
  case_match; [apply reads_only_ret|apply IH].
Qed.

Lemma read_request_loop_progress fuel size buf w buf' c :
  result (read_request_loop fuel size buf) w = Some (buf', c) → buf' ≠ buf →
  (recv_size (w_recv (world (read_request_loop fuel size buf) w)) < recv_size (w_recv w))%nat.
Proof.
  revert buf w. induction fuel as [|fuel IH]; intros buf w; cbn [read_request_loop].
  { intros [= <- <-]. done. }
  case_if; breflect; [|by intros [= <- <-]].
  unfold world. rewrite bind_run. unfold result. rewrite bind_run.
  destruct (recv_consumes (size - 1 - zlen buf) w ltac:(lia)) as [Hle Hlt]. unfold result, world.
  destruct (recv (size - 1 - zlen buf) w) as [r w1]. cbn [fst snd] in *.
  destruct r as [bs| | | |]; cbn [fst snd mret M_ret]; try done.
  - specialize (Hlt bs eq_refl). destruct (strstr CRLFCRLF _); cbn [fst snd mret M_ret]; [done|].
    destruct (read_request_loop_reads fuel size (buf ++ bs) w1) as (_ & _ & H). unfold world in H. lia.
  - by intros [= <- <-].
  - intros Hr Hne. specialize (IH buf w1 Hr Hne). unfold world in IH. lia.
Qed.

Lemma read_request_reads size : reads_only (read_request size).
Proof. apply reads_only_bind; [done|]. intros q. apply read_request_loop_reads. Qed.

Lemma read_request_progress size w buf c :
  result (read_request size) w = Some (buf, c) → buf ≠ [] →
  (recv_size (w_recv (world (read_request size) w)) < recv_size (w_recv w))%nat.
Proof. unfold read_request, result, world. rewrite bind_run. apply read_request_loop_progress. Qed.

Lemma read_body_loop_reads fuel n body : reads_only (read_body_loop fuel n body).
Proof.
  revert body. induction fuel as [|fuel IH]; intros body; cbn [read_body_loop]; [apply reads_only_ret|].
  case_if; breflect; [|apply reads_only_ret]. apply reads_only_bind; [apply recv_reads; lia|].
  intros [bs| | | |]; try apply IH; apply reads_only_ret.
Qed.
#[export] Hint Resolve read_request_reads read_body_loop_reads : chttp.

Lemma read_body_reads leftover req : reads_only (read_body leftover req).
Proof. unfold read_body. assert (reads_only recv_queue) by done. reads. Qed.
#[export] Hint Resolve read_body_reads only_allocates_parse_headers_loop : chttp.

Lemma parse_request_reads buf req : reads_only (parse_request buf req).
Proof. unfold parse_request, parse_headers. reads. Qed.
#[export] Hint Resolve parse_request_reads : chttp.

(** ** One response per request *)

(** What follows a response head: nothing, the body, or a slice of a file. *)
Definition body_bytes (res : HttpResponse) (tail : bytes) : Prop :=
  tail = [] ∨ tail = select_body res ∨
  ∃ f start n, tail = ztake n (zdrop start (of_data f)).

(** One response head with a valid status, and what follows it. *)
Definition one_response (out : bytes) : Prop :=
  ∃ res no_body_status streaming n tail,
    is_valid_status_code (res_status res) = true ∧ body_bytes res tail ∧
    out = concat (head_chunks res no_body_status streaming n (select_body res)) ++ tail.

(** [m] sends one response. *)
Definition answers {A} (m : M A) : Prop :=
  ∀ w, w_send w = [] →
  w_send (world m w) = [] ∧ (recv_size (w_recv (world m w)) ≤ recv_size (w_recv w))%nat ∧
  ∃ out, w_sent (world m w) = w_sent w ++ out ∧ one_response out.

Lemma answers_after {A B} (m : M A) (f : A → M B) :
  reads_only m → (∀ x, answers (f x)) → answers (m ≫= f).
Proof.
  intros Hm Hf w Hw. destruct (Hm w) as (H1 & H2 & H3).
  destruct (Hf (result m w) (world m w)) as (H4 & H5 & out & H6 & H7); [by rewrite H2|].
  unfold world, result in *. rewrite bind_run. unfold world, result. split; [done|]. split; [lia|].
  exists out. by rewrite H6, H1.
Qed.

Lemma answers_then {A B} (m : M A) (f : A → M B) :
  answers m → (∀ x, reads_only (f x)) → answers (m ≫= f).
Proof.
  intros Hm Hf w Hw. destruct (Hm w Hw) as (H1 & H2 & out & H3 & H4).
  destruct (Hf (result m w) (world m w)) as (H5 & H6 & H7).
  unfold world, result in *. rewrite bind_run. unfold world, result. rewrite H5, H6. split; [done|].
  split; [lia|]. eauto.
Qed.

Lemma send_all_quiet_world data w :
  w_send w = [] → send_all data w = (0, with_send [] (w_sent w ++ data) w).
Proof. apply send_all_quiet. Qed.

Lemma open_body_file_reads res nb : only_allocates (open_body_file res nb).
Proof. unfold open_body_file, open_regular_file. only_alloc. Qed.

Lemma open_body_file_status res nb :
  returns (open_body_file res nb) (λ r,
    is_valid_status_code (res_status res) = true → is_valid_status_code (res_status r.1.1) = true).
Proof.
  unfold open_body_file. destruct (res_file_path res); [|by apply returns_ret].
  case_if; [by apply returns_ret|]. apply returns_bind with (λ _, True); [done|].
  intros [f|] _; [case_if|]; by apply returns_ret.
Qed.

Lemma clamp_range_status res f n :
  is_valid_status_code (res_status res) = true →
  is_valid_status_code (res_status (clamp_range res f n).1.1.1) = true.
Proof. intros H. unfold clamp_range. by repeat case_if. Qed.

Lemma send_fd_quiet_world f start size w :
  w_send w = [] → ∃ out, w_sent (world (send_fd f start size) w) = w_sent w ++ out ∧
    (out = [] ∨ ∃ f start n, out = ztake n (zdrop start (of_data f))) ∧
    w_send (world (send_fd f start size) w) = [] ∧ w_recv (world (send_fd f start size) w) = w_recv w.
Proof.
  intros Hw. unfold world, send_fd. destruct f as [f|]; [|exists []; rewrite app_nil_r; auto].
  rewrite Hw. cbn [send_fd_loop]. case_if; cbn [snd with_send w_sent w_send w_recv]; [eauto 10|].
  eexists. split; [done|]. split; [|done]. right.
  exists f, (if 0 <? start then start else 0). eexists. by destruct (0 <? start).
Qed.

Lemma send_res_answers res suppress_body : answers (send_res res suppress_body).
Proof.
  unfold send_res. set (res1 := if is_valid_status_code (res_status res) then res else _).
  assert (is_valid_status_code (res_status res1) = true) as Hs by (unfold res1; by case_if).
  clearbody res1. intros w Hw.
  pose proof (open_body_file_reads res1 (no_body (res_status res1)) w) as [(Hr & Hsd & Hst & _) _].
  pose proof (open_body_file_status res1 (no_body (res_status res1)) w Hs) as Hv.
  unfold world, result in *. rewrite bind_run. unfold world, result.
  destruct (open_body_file res1 (no_body (res_status res1)) w) as [[[res2 fd] size] w1].
  cbn [fst snd] in *. pose proof (clamp_range_status res2 fd size Hv) as Hv2.
  destruct (clamp_range res2 fd size) as [[[res3 fd'] off] n]. cbn [fst snd] in *.
  set (chunks := head_chunks res3 _ _ _ _).
  assert (∃ tail, let w' := (((rc ← send_chunks chunks;
    (if (rc =? 0) && negb (no_body (res_status res1)) && negb suppress_body then
       if bool_decide (fd ≠ None) then send_fd fd' off n else send_all (select_body res3)
     else mret 0);;
    mret (set_res_file_path None (set_res_dyn_body None (set_res_encoded_body None res3)))) : M _) w1).2 in
    w_sent w' = w_sent w1 ++ concat chunks ++ tail ∧ body_bytes res3 tail ∧ w_send w' = [] ∧ w_recv w' = w_recv w1)
    as (tail & Hsent & Htail & Hsend & Hrecv).
  { rewrite bind_run. unfold world, result. rewrite sends_quiet_send_chunks by congruence.
    cbn [fst snd]. change (0 =? 0) with true. cbn [andb]. rewrite bind_run. unfold world, result.
    destruct (negb (no_body (res_status res1)) && negb suppress_body).
    - case_if.
      + destruct (send_fd_quiet_world fd' off n (with_send [] (w_sent w1 ++ concat chunks) w1))
          as (out & H1 & Ht & H2 & H3); [done|]. unfold world in *. exists out. simpl in *.
        rewrite H1, H2, H3, <- app_assoc. unfold body_bytes. tauto.
      + exists (select_body res3). rewrite send_all_quiet by done. simpl. rewrite <- app_assoc.
        unfold body_bytes. tauto.
    - exists []. rewrite app_nil_r. unfold body_bytes. tauto. }
  split; [exact Hsend|]. split; [by rewrite Hrecv, Hr|].
  exists (concat chunks ++ tail). split; [by rewrite Hsent, Hst|].
  unfold chunks. do 5 eexists. split; [exact Hv2|]. split; [exact Htail|done].
Qed.

(** ** Callbacks that leave the socket alone *)

Definition routes_quiet (rs : HttpRoutes) : Prop :=
  Forall (λ r, ∀ req res, reads_only (r_handler r req res)) (rs_routes rs).

(** User code does not use the client's socket (no pointer to it is passed). *)
Record callbacks_quiet (server : HttpServer) (heap : RouterHeap) : Prop := {
  cq_routes : routes_quiet (sv_routes server);
  cq_heap : map_Forall (λ _ r, routes_quiet (rt_routes r)) heap;
  cq_middleware : Forall (λ m, ∀ req res, reads_only (m_handler m req res))
                    (ms_middlewares (sv_middlewares server));
  cq_error : ∀ h, sv_error_handler server = Some h →
    ∀ req res status message, reads_only (h req res status message);
  cq_encoders : Forall (λ e, ∀ b, reads_only (enc_encode e b)) (es_encoders (sv_encoders server));
}.

Lemma only_allocates_set_res_header res key value : only_allocates (http_set_res_header res key value).
Proof. unfold http_set_res_header. only_alloc. Qed.
#[export] Hint Resolve only_allocates_set_res_header : chttp.

Lemma try_encoders_reads encoders req src res :
  Forall (λ e, ∀ b, reads_only (enc_encode e b)) encoders → reads_only (try_encoders encoders req src res).
Proof.
  intros H. induction H as [|e encoders He _ IH]; cbn [try_encoders]; [apply reads_only_ret|]. reads.
Qed.

Lemma http_encode_body_reads encoders req res :
  Forall (λ e, ∀ b, reads_only (enc_encode e b)) (es_encoders encoders) →
  reads_only (http_encode_body encoders req res).
Proof.
  intros H. unfold http_encode_body. repeat (case_if; [apply reads_only_ret|]).
  by apply try_encoders_reads.
Qed.

Lemma apply_middleware_reads middlewares req res :
  Forall (λ m, ∀ req res, reads_only (m_handler m req res)) middlewares →
  reads_only (apply_middleware middlewares req res).
Proof.
  intros H. revert res. induction H as [|m ms Hm _ IH]; intros res; cbn [apply_middleware].
  - apply reads_only_ret.
  - case_if; [|apply IH]. apply reads_only_bind; [apply Hm|]. intros [[] res']; [apply IH|apply reads_only_ret].
Qed.

Lemma only_allocates_resolve_file path pre root index_file :
  only_allocates (resolve_file path pre root index_file).
Proof. unfold resolve_file, find_file, confine. only_alloc. Qed.
#[export] Hint Resolve only_allocates_resolve_file : chttp.

Lemma only_allocates_static_handler req res cfg : only_allocates (http_static_handler req res cfg).
Proof. unfold http_static_handler, static_file_response. only_alloc. Qed.
#[export] Hint Resolve only_allocates_static_handler : chttp.

Lemma only_allocates_static_dispatch mounts req res :
  only_allocates (http_static_dispatch mounts req res).
Proof.
  induction mounts as [|m mounts IH]; cbn [http_static_dispatch]; [only_alloc|].
  destruct (extract_suffix _ _); [|exact IH]. apply only_allocates_if; unfold set_header_res; only_alloc.
Qed.
#[export] Hint Resolve only_allocates_static_dispatch : chttp.

Lemma execute_handler_reads server heap req res segments :
  callbacks_quiet server heap → reads_only (execute_handler server heap req res segments).
Proof.
  intros Hq. unfold execute_handler.
  destruct (string_to_http_method (req_method req)) as [method|]; [|apply reads_only_ret].
  rewrite select_handler_spec.
  destruct (first_pick segments method (tables server heap segments)) as [[o r]|] eqn:E; cbn [scan_answer].
  - apply first_pick_In in E as (routes & Hin & Hr & _).
    assert (∀ req res, reads_only (r_handler r req res)) as Hh.
    { unfold tables in Hin. apply elem_of_cons in Hin as [Hin|Hin].
      - injection Hin as -> ->. pose proof (cq_routes _ _ Hq) as H. unfold routes_quiet in H.
        rewrite Forall_forall in H. by apply H.
      - apply list_elem_of_fmap in Hin as (m & Hm & _). injection Hm as -> ->.
        unfold mount_routes in Hr. destruct (heap !! rm_router m) as [rt|] eqn:Er; [|by apply elem_of_nil in Hr].
        pose proof (cq_heap _ _ Hq _ _ Er) as H. unfold routes_quiet in H.
        rewrite Forall_forall in H. by apply H. }
    apply reads_only_bind; [apply Hh|]. intros res'. apply reads_only_ret.
  - reads.
Qed.

(** ** The whole iteration *)

Section ServerCorrect.
Context {ws : WsLayer} (server : HttpServer) (heap : RouterHeap) (stack : nat → PartBuffers).
Context (Hq : callbacks_quiet server heap).

Lemma error_step_reads (req : HttpRequest) (res : HttpResponse) :
  reads_only (match sv_error_handler server with
        | Some error_handler =>
            if res_error res then
              error_handler req res (res_status res)
                (if zlen (res_error_message res) =? 0 then status_text (res_status res)
                 else res_error_message res)
            else mret res
        | None => mret res
        end).
Proof.
  destruct (sv_error_handler server) eqn:E; [|apply reads_only_ret].
  case_if; [|apply reads_only_ret]. eapply cq_error; eauto.
Qed.

Lemma send_response_answers req res persist : answers (send_response server req res persist).
Proof.
  unfold send_response. apply answers_after; [apply error_step_reads|]. intros res1.
  apply answers_after; [apply http_encode_body_reads, Hq|]. intros [b res2].
  apply answers_then; [apply send_res_answers|]. intros _. apply reads_only_ret.
Qed.

Lemma send_response_result req res persist w :
  result (send_response server req res persist) w = persist.
Proof.
  revert w. change (returns (send_response server req res persist) (λ b, b = persist)).
  unfold send_response. apply returns_bind with (λ _, True); [done|]. intros res1 _.
  apply returns_bind with (λ _, True); [done|]. intros [b res2] _.
  apply returns_bind with (λ _, True); [done|]. intros _ _. by apply returns_ret.
Qed.

Lemma only_allocates_parse_segments path : only_allocates (http_parse_route_segments path).
Proof.
  unfold http_parse_route_segments. apply only_allocates_bind; [apply only_allocates_malloc|].
  intros ok. case_if; [apply only_allocates_ret|].
  generalize {| segs := []; segs_capacity := 8 |}. generalize (length path).
  intros n. revert path. induction n as [|n IH]; intros path r; cbn [parse_segments_loop]; only_alloc.
Qed.

Lemma finish_routing_reads rc segments res :
  reads_only (finish_routing server heap rc segments res).
Proof.
  unfold finish_routing. destruct rc; try apply reads_only_ret.
  apply only_allocates_reads. unfold set_allow_header, set_header_res. only_alloc.
Qed.

(** Behind the websocket layer: routing and the response. *)
Definition route_and_send (parsed : option HttpRouteSegments) (req : HttpRequest)
    (res : HttpResponse) (persist : bool) : M bool :=
  '(rc, req, res) ← (match parsed with
                     | Some segments => execute_handler server heap req res segments
                     | None => mret (HANDLER_NOT_FOUND, req, res)
                     end);
  res ← finish_routing server heap rc (default no_segments parsed) res;
  send_response server req res persist.

Lemma route_and_send_answers parsed req res persist :
  answers (route_and_send parsed req res persist).
Proof.
  unfold route_and_send. apply answers_after.
  { destruct parsed; [by apply execute_handler_reads|apply reads_only_ret]. }
  intros [[rc req1] res1]. apply answers_after; [apply finish_routing_reads|].
  intros res2. apply send_response_answers.
Qed.

(** Either the websocket layer took the connection over, or one response left. *)
Definition answers_or_ws (m : M bool) : Prop :=
  ∀ w, w_send w = [] →
    (∃ req segments leftover w', result (http_ws_dispatch req segments leftover) w' ≠ WS_DISPATCH_NOT_WS ∧
      w_sent w' = w_sent w ∧ w_send w' = [] ∧ (recv_size (w_recv w') ≤ recv_size (w_recv w))%nat ∧
      world m w = world (http_ws_dispatch req segments leftover) w' ∧ result m w = false) ∨
    (w_send (world m w) = [] ∧ (recv_size (w_recv (world m w)) ≤ recv_size (w_recv w))%nat ∧
     ∃ out, w_sent (world m w) = w_sent w ++ out ∧ one_response out).

Lemma answers_or_ws_answers m : answers m → answers_or_ws m.
Proof. intros H w Hw. right. by apply H. Qed.

Lemma answers_or_ws_after {A} (m : M A) (f : A → M bool) :
  reads_only m → (∀ x, answers_or_ws (f x)) → answers_or_ws (m ≫= f).
Proof.
  intros Hm Hf w Hw. destruct (Hm w) as (H1 & H2 & H3).
  destruct (Hf (result m w) (world m w)) as
    [(req & sg & lo & w' & Hws & H4 & H5 & H6 & H7 & H8)|(H4 & H5 & out & H6 & H7)]; [by rewrite H2| |].
  - left. exists req, sg, lo, w'. unfold world, result in *. rewrite !bind_run. unfold world, result.
    split; [done|]. split; [congruence|]. split; [done|]. split; [lia|done].
  - right. unfold world, result in *. rewrite bind_run. unfold world, result. split; [done|].
    split; [lia|]. exists out. by rewrite H6, H1.
Qed.

Lemma route_request_answers req res persist leftover :
  answers_or_ws (route_request server heap req res persist leftover).
Proof.
  unfold route_request. apply answers_or_ws_after.
  { apply only_allocates_reads, only_allocates_parse_segments. }
  intros parsed. apply answers_or_ws_after; [apply apply_middleware_reads, Hq|].
  intros [go res1]. case_if; [apply answers_or_ws_answers, send_response_answers|].
  intros w Hw.
  destruct (decide (result (http_ws_dispatch req (default no_segments parsed) leftover) w
                    = WS_DISPATCH_NOT_WS)) as [E|E].
  - right. pose proof (http_ws_dispatch_not_ws _ _ _ _ E) as Hsame. unfold world, result in *.
    rewrite bind_run. unfold world, result. rewrite Hsame, E. cbn [bool_decide].
    rewrite bool_decide_false by tauto. by apply route_and_send_answers.
  - left. eexists req, _, leftover, w. split; [exact E|]. split; [done|]. split; [done|].
    split; [done|]. unfold world, result in *. rewrite bind_run. unfold world, result.
    by rewrite bool_decide_true by done.
Qed.

Lemma default_headers_reads res name keep_alive : reads_only (apply_default_headers res name keep_alive).
Proof.
  apply only_allocates_reads. unfold apply_default_headers. apply only_allocates_bind.
  { unfold format_http_date. only_alloc. }
  intros t. match goal with |- only_allocates (apply_headers ?l _) => generalize l end.
  intros l. revert res. induction l as [|[k v] l IH]; intros res; cbn [apply_headers]; only_alloc.
Qed.

Lemma replace_header_reads hs key value : reads_only (replace_header hs key value).
Proof. apply only_allocates_reads. unfold replace_header. only_alloc. Qed.

(** Every iteration ends the connection silently, hands it to the websocket
    layer or sends one response. *)
Lemma handle_request_answers ip port w :
  w_send w = [] →
  (result (handle_request server heap stack ip port) w = false ∧
   w_sent (world (handle_request server heap stack ip port) w) = w_sent w) ∨
  (∃ req segments leftover w', result (http_ws_dispatch req segments leftover) w' ≠ WS_DISPATCH_NOT_WS ∧
      w_sent w' = w_sent w ∧ w_send w' = [] ∧ (recv_size (w_recv w') ≤ recv_size (w_recv w))%nat ∧
      world (handle_request server heap stack ip port) w
      = world (http_ws_dispatch req segments leftover) w' ∧
      result (handle_request server heap stack ip port) w = false) ∨
  (w_send (world (handle_request server heap stack ip port) w) = [] ∧
   ∃ out, w_sent (world (handle_request server heap stack ip port) w) = w_sent w ++ out ∧
          one_response out).
Proof.
  intros Hw. destruct (read_request_reads 4096 w) as (H1 & H2 & H3).
  unfold handle_request, world, result in *. rewrite bind_run. unfold world, result in *.
  destruct (read_request 4096 w) as [r w1]. cbn [fst snd] in *.
  destruct r as [[buf complete]|]; [|left; done].
  destruct (zlen buf =? 0); [left; done|]. right.
  match goal with |- context [ @fst bool _ (?prog w1) ] => assert (answers_or_ws prog) as Hp end.
  { apply answers_or_ws_after; [apply default_headers_reads|]. intros res.
    case_if; [apply answers_or_ws_answers, send_response_answers|].
    apply answers_or_ws_after; [apply parse_request_reads|]. intros [[status req] lo].
    case_if; [apply answers_or_ws_answers, send_response_answers|].
    apply answers_or_ws_after; [apply replace_header_reads|]. intros [rc hs].
    apply route_request_answers. }
  destruct (Hp w1) as [(req & sg & lo & w' & Hws & H4 & H5 & H6 & H7 & H8)|(H4 & H5 & out & H6 & H7)].
  - congruence.
  - left. exists req, sg, lo, w'. unfold world, result in *. rewrite H7, H8.
    split; [done|]. split; [congruence|]. split; [done|]. split; [lia|done].
  - right. unfold world, result in *. split; [done|]. exists out. by rewrite H6, H1.
Qed.

(** What the layer's dispatch leaves on the wire, when it takes the connection over. *)
Definition dispatch_output (tail : bytes) : Prop :=
  ∃ req segments leftover w', w_send w' = [] ∧
    result (http_ws_dispatch req segments leftover) w' ≠ WS_DISPATCH_NOT_WS ∧
    w_sent (world (http_ws_dispatch req segments leftover) w') = w_sent w' ++ tail.

(** Everything sent on a connection is a sequence of responses and, when the
    websocket layer takes the connection, what the layer sends: given that it only
    ever appends. *)
Lemma handle_client_run fuel ip port w :
  (∀ req segments leftover w', w_send w' = [] → ∃ tail,
     w_sent (world (http_ws_dispatch req segments leftover) w') = w_sent w' ++ tail) →
  w_send w = [] →
  ∃ outs tail, Forall one_response outs ∧ (length outs ≤ fuel)%nat ∧ (tail = [] ∨ dispatch_output tail) ∧
    w_sent (world (handle_client server heap stack fuel ip port) w) = w_sent w ++ concat outs ++ tail.
Proof.
  intros Hws. revert w. induction fuel as [|fuel IH]; intros w Hw; cbn [handle_client].
  { exists [], []. rewrite app_nil_r. auto. }
  pose proof (handle_request_answers ip port w Hw) as H. unfold world, result in *.
  rewrite bind_run. unfold world, result.
  destruct (handle_request server heap stack ip port w) as [persist w1]. cbn [fst snd] in *.
  destruct H as [[-> Hs]|[(req & sg & lo & w' & Hne & Hs & Hq' & _ & -> & ->)|(Hs & out & Ho & Hr)]].
  - exists [], []. rewrite app_nil_r. split; [done|]. split; [simpl; lia|]. split; [by left|done].
  - destruct (Hws req sg lo w' Hq') as [tail Ht]. exists [], tail. split; [done|]. split; [simpl; lia|].
    split; [right; by exists req, sg, lo, w'|]. cbn [fst snd mret M_ret concat app]. by rewrite Ht, Hs.
  - destruct persist.
    + destruct (IH w1 Hs) as (outs & tail & Hf & Hl & Hd & Ht). exists (out :: outs), tail.
      split; [by constructor|]. split; [simpl; lia|]. split; [done|]. rewrite Ht, Ho. simpl.
      by rewrite <- !app_assoc.
    + exists [out], []. split; [by constructor|]. split; [simpl; lia|]. split; [by left|].
      cbn [snd mret M_ret]. by rewrite Ho; simpl; rewrite !app_nil_r.
Qed.

End ServerCorrect.

(** ** Termination: a connection that persists has used up input *)

(** [m] puts nothing back into the receive queue, whatever [send] answers. *)
Definition shrinks {A} (m : M A) : Prop :=
  ∀ w, (recv_size (w_recv (world m w)) ≤ recv_size (w_recv w))%nat.

(** The same, when the value is [true]. *)
Definition persists (m : M bool) : Prop :=
  ∀ w, result m w = true → (recv_size (w_recv (world m w)) ≤ recv_size (w_recv w))%nat.

Lemma shrinks_bind {A B} (m : M A) (f : A → M B) :
  shrinks m → (∀ x, shrinks (f x)) → shrinks (m ≫= f).
Proof.
  intros Hm Hf w. unfold world. rewrite bind_run. unfold result, world.
  pose proof (Hf (result m w) (world m w)) as H1. pose proof (Hm w) as H2.
  unfold result, world in *. lia.
Qed.

Lemma persists_bind {A} (m : M A) (f : A → M bool) :
  shrinks m → (∀ x, persists (f x)) → persists (m ≫= f).
Proof.
  intros Hm Hf w. unfold world, result. rewrite bind_run. unfold result, world. intros Ht.
  pose proof (Hf (result m w) (world m w) Ht) as H1. pose proof (Hm w) as H2.
  unfold result, world in *. lia.
Qed.

Lemma reads_only_shrinks {A} (m : M A) : reads_only m → shrinks m.
Proof. intros H w. apply (H w). Qed.

Lemma shrinks_persists (m : M bool) : shrinks m → persists m.
Proof. intros H w _. apply H. Qed.

Lemma shrinks_same_recv {A} (m : M A) : (∀ w, w_recv (world m w) = w_recv w) → shrinks m.
Proof. intros H w. by rewrite H. Qed.

Lemma shrinks_send_all data : shrinks (send_all data).
Proof.
  apply shrinks_same_recv. intros w. unfold world, send_all.
  by destruct (send_all_loop (w_send w) data) as [[rc ev] out].
Qed.

Lemma shrinks_send_fd f start size : shrinks (send_fd f start size).
Proof.
  apply shrinks_same_recv. intros w. unfold world, send_fd. destruct f as [f|]; [|done].
  by destruct (send_fd_loop _ _ _ _) as [[rc ev] out].
Qed.

Lemma shrinks_ret {A} (x : A) : shrinks (mret x).
Proof. by intros w. Qed.

Lemma shrinks_send_chunks chunks : shrinks (send_chunks chunks).
Proof.
  induction chunks as [|c chunks IH]; cbn [send_chunks]; [apply shrinks_ret|].
  apply shrinks_bind; [apply shrinks_send_all|]. intros rc. case_if; [apply shrinks_ret|exact IH].
Qed.

Lemma shrinks_send_res res suppress_body : shrinks (send_res res suppress_body).
Proof.
  unfold send_res. apply shrinks_bind.
  { apply reads_only_shrinks, only_allocates_reads, open_body_file_reads. }
  intros [[res1 fd] n]. destruct (clamp_range res1 fd n) as [[[res2 fd2] off] size].
  apply shrinks_bind; [apply shrinks_send_chunks|]. intros rc.
  apply shrinks_bind; [|intros _; apply shrinks_ret].
  repeat case_if; first [apply shrinks_send_fd|apply shrinks_send_all|apply shrinks_ret].
Qed.

Section ServerTerminates.
Context {ws : WsLayer} (server : HttpServer) (heap : RouterHeap) (stack : nat → PartBuffers).
Context (Hq : callbacks_quiet server heap).

Lemma send_response_shrinks req res persist : shrinks (send_response server req res persist).
Proof.
  unfold send_response. apply shrinks_bind; [apply reads_only_shrinks, (error_step_reads _ _ Hq)|].
  intros res1. apply shrinks_bind; [apply reads_only_shrinks, http_encode_body_reads, Hq|].
  intros [b res2]. apply shrinks_bind; [apply shrinks_send_res|]. intros _. apply shrinks_ret.
Qed.

Lemma route_request_persists req res persist leftover :
  persists (route_request server heap req res persist leftover).
Proof.
  unfold route_request. apply persists_bind.
  { apply reads_only_shrinks, only_allocates_reads, only_allocates_parse_segments. }
  intros parsed. apply persists_bind; [apply reads_only_shrinks, apply_middleware_reads, Hq|].
  intros [go res1]. case_if; [apply shrinks_persists, send_response_shrinks|].
  intros w. pose proof (http_ws_dispatch_not_ws req (default no_segments parsed) leftover w) as Hsame.
  unfold world, result in *. rewrite bind_run. unfold world, result in *. case_if; breflect; [done|].
  intros _. rewrite Hsame.
  2: { by destruct (decide ((http_ws_dispatch req (default no_segments parsed) leftover w).1
                   = WS_DISPATCH_NOT_WS)). }
  match goal with |- context [ @snd bool _ (?prog w) ] => assert (shrinks prog) as Hp end.
  { apply shrinks_bind.
    - destruct parsed; [by apply reads_only_shrinks, execute_handler_reads|apply shrinks_ret].
    - intros [[rc req1] res2]. apply shrinks_bind; [apply reads_only_shrinks, finish_routing_reads|].
      intros res3. apply send_response_shrinks. }
  apply Hp.
Qed.

Lemma handle_request_progress ip port w :
  result (handle_request server heap stack ip port) w = true →
  (recv_size (w_recv (world (handle_request server heap stack ip port) w)) < recv_size (w_recv w))%nat.
Proof.
  pose proof (read_request_progress 4096 w) as Hread. unfold handle_request, world, result in *.
  rewrite bind_run. unfold world, result in *. destruct (read_request 4096 w) as [r w1].
  cbn [fst snd] in *. destruct r as [[buf complete]|]; [|done].
  destruct (zlen buf =? 0) eqn:E; [done|]. breflect. intros Ht.
  assert (buf ≠ []) as Hbuf by (intros ->; done). specialize (Hread buf complete eq_refl Hbuf).
  match type of Ht with @fst bool _ (?prog w1) = _ => assert (persists prog) as Hp end.
  { apply persists_bind; [apply reads_only_shrinks, default_headers_reads|]. intros res.
    case_if; [apply shrinks_persists, send_response_shrinks|].
    apply persists_bind; [apply reads_only_shrinks, parse_request_reads|]. intros [[status req] lo].
    case_if; [apply shrinks_persists, send_response_shrinks|].
    apply persists_bind; [apply reads_only_shrinks, replace_header_reads|]. intros [rc hs].
    apply route_request_persists. }
  specialize (Hp w1 Ht). unfold world in Hp. lia.
Qed.

(** C2: the keep-alive loop terminates: every iteration that keeps the connection
    consumes input, so more rounds than there is input change nothing. *)
Theorem handle_client_fuel fuel ip port w :
  (recv_size (w_recv w) < fuel)%nat →
  handle_client server heap stack fuel ip port w
  = handle_client server heap stack (S (recv_size (w_recv w))) ip port w.
Proof.
  assert (∀ n m w, (recv_size (w_recv w) < n)%nat → (recv_size (w_recv w) < m)%nat →
    handle_client server heap stack n ip port w = handle_client server heap stack m ip port w) as H.
  { intros n. induction n as [|n IH]; intros [|m] v Hn Hm; try lia. cbn [handle_client].
    pose proof (handle_request_progress ip port v) as Hp. unfold world, result in *.
    rewrite !bind_run. unfold world, result.
    destruct (handle_request server heap stack ip port v) as [[] w1]; cbn [fst snd] in *; [|done].
    specialize (Hp eq_refl). apply IH; lia. }
  intros Hf. apply H; lia.
Qed.

End ServerTerminates.

(** ** A server on a connection *)

(** A server without websocket routes: every request is plain HTTP. *)
Definition plain_http : WsLayer :=
  {| http_ws_dispatch := λ _ _ _, mret WS_DISPATCH_NOT_WS;
     http_ws_dispatch_not_ws := λ _ _ _ _ _, eq_refl |}.

Lemma http_res_body_reads res status content_type body body_len :
  reads_only (http_res_body res status content_type body body_len).
Proof. unfold http_res_body. reads. Qed.
#[export] Hint Resolve http_res_body_reads : chttp.

Lemma show_id_reads req res : reads_only (show_id req res).
Proof. unfold show_id. reads. Qed.

Lemma demo_server_quiet : callbacks_quiet demo_server ∅.
Proof.
  split.
  - constructor; [|constructor]. apply show_id_reads.
  - apply map_Forall_empty.
  - constructor.
  - done.
  - constructor.
Qed.

(** Two requests in one segment, the second asking to close. *)
Definition two_requests : bytes :=
  str "GET /user/42 HTTP/1.1" ++ CRLF ++ str "Host: a" ++ CRLFCRLF
  ++ str "GET /user HTTP/1.1" ++ CRLF ++ str "Host: a" ++ CRLF ++ str "Connection: close" ++ CRLFCRLF.


(** A server with a websocket layer that never upgrades serves HTTP; the second
    request of the segment is lost with the rest of the first read. *)
Example pipelined_request_dropped :
  ∃ head, w_sent (world (handle_client (ws := plain_http) demo_server ∅ (stack_of NUL) 5 (str "10.0.0.1") 80)
                    (with_recv [RData two_requests] quiet_world)) = head ++ CRLFCRLF ++ str "42" ∧
  starts_with (str "HTTP/1.1 200 OK" ++ CRLF ++ str "Content-Length: 2" ++ CRLF) head = true ∧
  strstr (str "404") head = None.
Proof.
  match goal with |- ∃ head, ?x = _ ∧ _ => exists (ztake (zlen x - 6) x) end.
  vm_compute. auto.
Qed.

Lemma handle_client_fuel_witness :
  let w := with_recv [RData (str "x"); REof] quiet_world in
  handle_client (ws := plain_http) demo_server ∅ (stack_of NUL) 100 (str "10.0.0.1") 80 w
  = handle_client (ws := plain_http) demo_server ∅ (stack_of NUL) 4 (str "10.0.0.1") 80 w.
Proof.
  intros w.
  apply (handle_client_fuel (ws := plain_http) demo_server ∅ (stack_of NUL) demo_server_quiet) with
    (fuel := 100%nat); vm_compute; lia.
Defined.
