(* ===== verification/Lifecycle.v ===== *)
(** * Setting up, serving and tearing down

    [http_create_server], [http_close_server], [http_stop_server],
    [http_listen] and the worker threads ([spawn_worker], [worker_main],
    [worker_state_free]) of [src/c_http.c].  The calls to the operating system
    that set the socket up answer what a record says; the threads interleave in
    a step relation whose steps are the critical sections. *)

From stdpp Require Import gmap relations.
From S2P Require Import Prelude CLib World Types Headers Net Encoder Static Routing.
#[local] Open Scope Z_scope.

(** ** Creating and closing *)

(** [socket] (negative: failure), [getaddrinfo], [bind], [listen] and the
    initialisation of the mutex and the condition variable. *)
Record SysOutcomes := {
  os_socket : Z; os_getaddrinfo : bool; os_bind : bool; os_listen : bool; os_thread_sync : bool }.

Record ServerArgs := {
  sa_bind_addr : option bytes; sa_port : Z; sa_server_name : option bytes;
  sa_worker_threads : Z; sa_keep_alive : bool }.

Record WorkerState := { wk_active : Z; wk_limit : Z }.

(** The rest of [struct HttpServer]: the socket, the flag and the pool.
    [ss_open] is not a field of it: the descriptors the process holds. *)
Record ServerState := {
  ss_config : HttpServer; ss_fd : Z; ss_port : Z; ss_bind_addr : bytes; ss_listening : bool;
  ss_thread_state : option WorkerState; ss_open : list Z }.

Definition no_server : HttpServer :=
  {| sv_server_name := []; sv_keep_alive := false;
     sv_routes := {| rs_routes := []; rs_capacity := 0 |};
     sv_middlewares := {| ms_middlewares := []; ms_capacity := 0 |};
     sv_encoders := {| es_encoders := []; es_capacity := 0 |};
     sv_static_mounts := []; sv_error_handler := None; sv_router_mounts := [] |}.

(** [memset] and [out->fd = -1]. *)
Definition zero_server (open : list Z) : ServerState :=
  {| ss_config := no_server; ss_fd := -1; ss_port := 0; ss_bind_addr := []; ss_listening := false;
     ss_thread_state := None; ss_open := open |}.

Definition close_fd (fd : Z) (open : list Z) : list Z := filter (λ x, x ≠ fd) open.

(** [worker_state_free] leaves [thread_state = NULL]; that it waits for the
    workers is the step relation below.  The owned strings and tables go; the
    listening flag, the port and the callbacks stay. *)
Definition http_close_server (s : ServerState) : ServerState :=
  {| ss_config := {| sv_server_name := []; sv_keep_alive := sv_keep_alive (ss_config s);
       sv_routes := {| rs_routes := []; rs_capacity := 0 |};
       sv_middlewares := {| ms_middlewares := []; ms_capacity := 0 |};
       sv_encoders := {| es_encoders := []; es_capacity := 0 |};
       sv_static_mounts := http_static_mounts_free (sv_static_mounts (ss_config s));
       sv_error_handler := sv_error_handler (ss_config s); sv_router_mounts := [] |};
     ss_fd := if 0 <=? ss_fd s then -1 else ss_fd s;
     ss_port := ss_port s; ss_bind_addr := ss_bind_addr s; ss_listening := ss_listening s;
     ss_thread_state := None;
     ss_open := if 0 <=? ss_fd s then close_fd (ss_fd s) (ss_open s) else ss_open s |}.

Definition http_stop_server (s : ServerState) : ServerState :=
  {| ss_config := ss_config s; ss_fd := ss_fd s; ss_port := ss_port s;
     ss_bind_addr := ss_bind_addr s; ss_listening := false;
     ss_thread_state := ss_thread_state s; ss_open := ss_open s |}.

Section Create.
(** The two encoders every server starts with, and what the system answers. *)
Context (http_gzip_encoder : HttpEncoder) (os : SysOutcomes).

(** The tables: the routes array, the name, the default encoders (whose
    failures are ignored), then the pool. *)
Definition create_tables (args : ServerArgs) (bind_addr server_name : bytes) (fd : Z)
    (open : list Z) : M (HttpServerResult * ServerState) :=
  let failed := zero_server (close_fd fd open) in
  routes ← malloc;
  if negb routes then mret (SERVER_ERROR, failed)
  else
    name ← malloc;
    if negb name then mret (SERVER_ERROR, failed)
    else
      '(_, es) ← http_register_encoder {| es_encoders := []; es_capacity := 0 |} http_gzip_encoder;
      '(_, es) ← http_register_encoder es http_identity_encoder;
      let config :=
        {| sv_server_name := server_name; sv_keep_alive := sa_keep_alive args;
           sv_routes := {| rs_routes := []; rs_capacity := 8 |};
           sv_middlewares := {| ms_middlewares := []; ms_capacity := 0 |};
           sv_encoders := es; sv_static_mounts := []; sv_error_handler := None;
           sv_router_mounts := [] |} in
      let out ts fd :=
        {| ss_config := config; ss_fd := fd; ss_port := sa_port args; ss_bind_addr := bind_addr;
           ss_listening := false; ss_thread_state := ts; ss_open := open |} in
      let unset ts := {| ss_config := config; ss_fd := -1; ss_port := 0; ss_bind_addr := [];
           ss_listening := false; ss_thread_state := ts; ss_open := open |} in
      if 0 <? sa_worker_threads args then
        ok ← malloc;
        if negb ok then mret (SERVER_ERROR, http_close_server (unset None))
        else if negb (os_thread_sync os) then mret (SERVER_ERROR, http_close_server (unset None))
        else mret (SERVER_OK,
          out (Some {| wk_active := 0; wk_limit := sa_worker_threads args |}) fd)
      else mret (SERVER_OK, out None fd).

(** [open] are the descriptors the process already holds. *)
Definition http_create_server (args : ServerArgs) (open : list Z)
  : M (HttpServerResult * ServerState) :=
  match sa_bind_addr args, sa_server_name args with
  | Some bind_addr, Some server_name =>
      let fd := os_socket os in
      if fd <? 0 then mret (SERVER_ERROR, zero_server open)
      else
        let failed := zero_server (close_fd fd (fd :: open)) in
        if negb (os_getaddrinfo os) then mret (SERVER_ERROR, failed)
        else if negb (os_bind os) then mret (SERVER_ERROR, failed)
        else if negb (os_listen os) then mret (SERVER_ERROR, failed)
        else create_tables args bind_addr server_name fd (fd :: open)
  | _, _ => mret (SERVER_ERROR, zero_server open)
  end.
End Create.

Lemma close_fd_fresh fd open : fd ∉ open → close_fd fd (fd :: open) = open.
Proof.
  intros H. unfold close_fd. rewrite filter_cons, decide_False by tauto.
  induction open as [|x open IH]; [done|]. apply not_elem_of_cons in H as [Hx H].
  rewrite filter_cons, decide_True by done. by rewrite IH.
Qed.

Lemma register_encoder_run es e w :
  w_alloc w = [] →
  http_register_encoder es e w =
  ((HTTP_ENCODER_ADD_OK,
    {| es_encoders := es_encoders es ++ [e];
       es_capacity := if zlen (es_encoders es) =? es_capacity es
                      then if es_capacity es =? 0 then 4 else es_capacity es * 2
                      else es_capacity es |}), w).
Proof.
  intros Hw. unfold http_register_encoder. destruct (zlen (es_encoders es) =? es_capacity es); [|done].
  rewrite bind_run. unfold result, world, malloc. by rewrite Hw.
Qed.

(** Creating a server with every system call succeeding gives a listening
    socket, the gzip and identity encoders, an empty configuration, and a pool of at
    most [worker_threads] idle workers. *)
Lemma http_create_server_ok gzip os args bind_addr server_name open w :
  sa_bind_addr args = Some bind_addr → sa_server_name args = Some server_name →
  0 <= os_socket os → os_socket os ∉ open →
  os_getaddrinfo os = true → os_bind os = true → os_listen os = true → os_thread_sync os = true →
  w_alloc w = [] →
  result (http_create_server gzip os args open) w =
  (SERVER_OK,
   {| ss_config :=
        {| sv_server_name := server_name; sv_keep_alive := sa_keep_alive args;
           sv_routes := {| rs_routes := []; rs_capacity := 8 |};
           sv_middlewares := {| ms_middlewares := []; ms_capacity := 0 |};
           sv_encoders := {| es_encoders := [gzip; http_identity_encoder]; es_capacity := 4 |};
           sv_static_mounts := []; sv_error_handler := None; sv_router_mounts := [] |};
      ss_fd := os_socket os; ss_port := sa_port args; ss_bind_addr := bind_addr; ss_listening := false;
      ss_thread_state := if 0 <? sa_worker_threads args
        then Some {| wk_active := 0; wk_limit := sa_worker_threads args |} else None;
      ss_open := os_socket os :: open |}).
Proof.
  intros Hb Hn Hs Hf Hg Hbi Hl Ht Hw. unfold http_create_server. rewrite Hb, Hn, Hg, Hbi, Hl. cbn [negb].
  rewrite (proj2 (Z.ltb_ge _ _) Hs). unfold create_tables, result.
  assert (malloc w = (true, w)) as Hm by (unfold malloc; by rewrite Hw).
  rewrite bind_run. unfold result, world. rewrite Hm. cbn [fst snd negb].
  rewrite bind_run. unfold result, world. rewrite Hm. cbn [fst snd negb].
  rewrite bind_run. unfold result, world. rewrite register_encoder_run by done. cbn [fst snd].
  rewrite bind_run. unfold result, world. rewrite register_encoder_run by done.
  cbn [fst snd es_encoders es_capacity app].
  change (zlen [gzip] =? (if zlen (@nil HttpEncoder) =? 0 then if 0 =? 0 then 4 else 0 * 2 else 0)) with false.
  cbn iota. change (zlen (@nil HttpEncoder) =? 0) with true. cbn iota. rewrite Ht. cbn [negb].
  destruct (0 <? sa_worker_threads args); [|done].
  rewrite bind_run. unfold result, world. rewrite Hm. done.
Qed.

(** A creation that fails before the pool is set up leaves no descriptor behind. *)
Lemma http_create_server_error gzip os args open w :
  os_socket os ∉ open → sa_worker_threads args <= 0 →
  let r := result (http_create_server gzip os args open) w in
  r.1 = SERVER_ERROR → ss_open r.2 = open ∧ ss_fd r.2 = -1.
Proof.
  intros Hf Ht r. unfold r, http_create_server, result. clear r.
  destruct (sa_bind_addr args); [|done]. destruct (sa_server_name args); [|done].
  case_if; [done|]. repeat (case_if; [cbn [zero_server ss_open ss_fd fst snd mret M_ret];
    rewrite close_fd_fresh by done; done|]).
  unfold create_tables. rewrite bind_run. unfold result, world.
  destruct (malloc w) as [[] w1]; cbn [fst snd negb];
    [|cbn [zero_server ss_open ss_fd fst snd mret M_ret]; by rewrite close_fd_fresh].
  rewrite bind_run. unfold result, world.
  destruct (malloc w1) as [[] w2]; cbn [fst snd negb];
    [|cbn [zero_server ss_open ss_fd fst snd mret M_ret]; by rewrite close_fd_fresh].
  rewrite bind_run. unfold result, world. destruct (http_register_encoder _ _ w2) as [[rc es] w3].
  cbn [fst snd]. rewrite bind_run. unfold result, world.
  destruct (http_register_encoder _ _ w3) as [[rc' es'] w4]. cbn [fst snd].
  rewrite (proj2 (Z.ltb_ge _ _) Ht). done.
Qed.

(** A failure to set the pool up leaks the listening socket: [out->fd] is still
    -1 when [http_close_server] runs, so nothing closes it. *)
Lemma http_create_server_leaks gzip os args bind_addr server_name open w :
  sa_bind_addr args = Some bind_addr → sa_server_name args = Some server_name →
  0 <= os_socket os → os_getaddrinfo os = true → os_bind os = true → os_listen os = true →
  os_thread_sync os = false → 0 < sa_worker_threads args → w_alloc w = [] →
  let r := result (http_create_server gzip os args open) w in
  r.1 = SERVER_ERROR ∧ ss_fd r.2 = -1 ∧ ss_open r.2 = os_socket os :: open.
Proof.
  intros Hb Hn Hs Hg Hbi Hl Ht Hwt Hw r. unfold r, http_create_server. clear r.
  rewrite Hb, Hn, Hg, Hbi, Hl. cbn [negb].
  rewrite (proj2 (Z.ltb_ge _ _) Hs). unfold create_tables, result.
  assert (malloc w = (true, w)) as Hm by (unfold malloc; by rewrite Hw).
  rewrite bind_run. unfold result, world. rewrite Hm. cbn [fst snd negb].
  rewrite bind_run. unfold result, world. rewrite Hm. cbn [fst snd negb].
  rewrite bind_run. unfold result, world.
  destruct (http_register_encoder _ gzip w) as [[rc es] w3] eqn:E.
  cbn [fst snd]. rewrite bind_run. unfold result, world.
  destruct (http_register_encoder _ _ w3) as [[rc' es'] w4]. cbn [fst snd].
  rewrite (proj2 (Z.ltb_lt _ _) Hwt), Ht. rewrite bind_run. unfold result, world.
  destruct (malloc w4) as [[] w5]; done.
Qed.

(** ** The threads *)

(** The critical section of [spawn_worker]: a slot is taken when there is one. *)
Definition spawn_worker (ts : option WorkerState) (alloc_ok : bool) : bool * option WorkerState :=
  match ts with
  | None => (false, None)
  | Some ws =>
      if negb alloc_ok then (false, Some ws)
      else if wk_limit ws <=? wk_active ws then (false, Some ws)
      else (true, Some {| wk_active := wk_active ws + 1; wk_limit := wk_limit ws |})
  end.

(** The critical section behind a failed [pthread_create]. *)
Definition spawn_failed (ws : WorkerState) : WorkerState :=
  {| wk_active := wk_active ws - 1; wk_limit := wk_limit ws |}.

(** The critical section at the end of [worker_main]. *)
Definition worker_main_exit (ws : WorkerState) : WorkerState :=
  {| wk_active := if 0 <? wk_active ws then wk_active ws - 1 else wk_active ws;
     wk_limit := wk_limit ws |}.

(** The flag and the listening socket: [http_stop_server] lowers the flag, then shuts the
    socket down. *)
Inductive ListenState := Listening | FlagDown | ShutDown.

(** The thread that runs [http_listen] and then [http_close_server], on one
    connection at a time; connections are numbered in the order of [accept]. *)
Inductive MainPhase :=
  | MLoop                   (** the accept loop tests the flag next *)
  | MAccept                 (** inside [accept] *)
  | MAccepted (c : nat)     (** [accept] has returned; [spawn_worker] comes next *)
  | MReserved (c : nat)     (** a slot is taken; [pthread_create] comes next *)
  | MInline (c : nat)       (** the accept loop handles the connection itself *)
  | MClosing (c : nat)      (** handled inline; [close] comes next *)
  | MReturned               (** [http_listen] has returned *)
  | MDraining               (** [worker_state_free] holds the lock *)
  | MWaiting                (** inside [pthread_cond_wait] *)
  | MFreed.                 (** the server is torn down *)

(** What [accept] leaves in [errno], and where the loop goes. *)
Inductive Errno := EINTR | ECONNABORTED | EBADF | EINVAL | EOTHER.

Definition accept_failed (errno : Errno) : MainPhase :=
  match errno with
  | EINTR | ECONNABORTED => MLoop
  | EBADF | EINVAL => MReturned
  | EOTHER => MLoop
  end.

#[export] Instance MainPhase_eq_dec : EqDecision MainPhase.
Proof. solve_decision. Defined.

(** A worker: serving, about to close its descriptor, about to count down. *)
Inductive WorkerPhase := WServing (c : nat) | WServed (c : nat) | WClosed (c : nat).

Record Pool := {
  p_thread_state : option WorkerState;
  p_listening : ListenState;
  p_main : MainPhase;
  p_workers : list WorkerPhase;
  p_accepted : nat;         (** connections accepted so far *)
  p_open : list nat;        (** those whose descriptor is open *)
  p_handled : list nat;     (** those [handle_client] has run on *)
}.

(** [pthread_cond_broadcast] when the count drops to 0. *)
Definition woken (ws : WorkerState) (m : MainPhase) : MainPhase :=
  match m with
  | MWaiting => if wk_active ws =? 0 then MDraining else MWaiting
  | _ => m
  end.

Definition close_conn (c : nat) (open : list nat) : list nat := filter (λ x, x ≠ c) open.

Inductive pool_step : Pool → Pool → Prop :=
  (** [http_stop_server], from a signal handler or another thread: the flag, then the
      socket; calling it again changes nothing *)
  | ps_stop_flag ts m ws n o h : m ≠ MFreed →
      pool_step {| p_thread_state := ts; p_listening := Listening; p_main := m; p_workers := ws;
                   p_accepted := n; p_open := o; p_handled := h |}
                {| p_thread_state := ts; p_listening := FlagDown; p_main := m; p_workers := ws;
                   p_accepted := n; p_open := o; p_handled := h |}
  | ps_stop_shut ts m ws n o h : m ≠ MFreed →
      pool_step {| p_thread_state := ts; p_listening := FlagDown; p_main := m; p_workers := ws;
                   p_accepted := n; p_open := o; p_handled := h |}
                {| p_thread_state := ts; p_listening := ShutDown; p_main := m; p_workers := ws;
                   p_accepted := n; p_open := o; p_handled := h |}
  | ps_loop_enter ts ws n o h :
      pool_step {| p_thread_state := ts; p_listening := Listening; p_main := MLoop; p_workers := ws;
                   p_accepted := n; p_open := o; p_handled := h |}
                {| p_thread_state := ts; p_listening := Listening; p_main := MAccept; p_workers := ws;
                   p_accepted := n; p_open := o; p_handled := h |}
  | ps_loop_leave ts l ws n o h : l ≠ Listening →
      pool_step {| p_thread_state := ts; p_listening := l; p_main := MLoop; p_workers := ws;
                   p_accepted := n; p_open := o; p_handled := h |}
                {| p_thread_state := ts; p_listening := l; p_main := MReturned; p_workers := ws;
                   p_accepted := n; p_open := o; p_handled := h |}
  (** [accept] returns a connection, or fails: on a socket that is shut down with EINVAL *)
  | ps_accept ts l ws n o h : l ≠ ShutDown →
      pool_step {| p_thread_state := ts; p_listening := l; p_main := MAccept; p_workers := ws;
                   p_accepted := n; p_open := o; p_handled := h |}
                {| p_thread_state := ts; p_listening := l; p_main := MAccepted n; p_workers := ws;
                   p_accepted := S n; p_open := n :: o; p_handled := h |}
  | ps_accept_failed ts l ws n o h errno : (l = ShutDown → errno = EINVAL) →
      pool_step {| p_thread_state := ts; p_listening := l; p_main := MAccept; p_workers := ws;
                   p_accepted := n; p_open := o; p_handled := h |}
                {| p_thread_state := ts; p_listening := l; p_main := accept_failed errno; p_workers := ws;
                   p_accepted := n; p_open := o; p_handled := h |}
  | ps_spawn ts l c ws n o h alloc_ok taken ts' :
      spawn_worker ts alloc_ok = (taken, ts') →
      pool_step {| p_thread_state := ts; p_listening := l; p_main := MAccepted c; p_workers := ws;
                   p_accepted := n; p_open := o; p_handled := h |}
                {| p_thread_state := ts'; p_listening := l;
                   p_main := if taken then MReserved c else MInline c; p_workers := ws;
                   p_accepted := n; p_open := o; p_handled := h |}
  | ps_created ts l c ws n o h :
      pool_step {| p_thread_state := ts; p_listening := l; p_main := MReserved c; p_workers := ws;
                   p_accepted := n; p_open := o; p_handled := h |}
                {| p_thread_state := ts; p_listening := l; p_main := MLoop;
                   p_workers := WServing c :: ws; p_accepted := n; p_open := o; p_handled := h |}
  | ps_not_created st l c ws n o h :
      pool_step {| p_thread_state := Some st; p_listening := l; p_main := MReserved c; p_workers := ws;
                   p_accepted := n; p_open := o; p_handled := h |}
                {| p_thread_state := Some (spawn_failed st); p_listening := l; p_main := MInline c;
                   p_workers := ws; p_accepted := n; p_open := o; p_handled := h |}
  | ps_inline ts l c ws n o h :
      pool_step {| p_thread_state := ts; p_listening := l; p_main := MInline c; p_workers := ws;
                   p_accepted := n; p_open := o; p_handled := h |}
                {| p_thread_state := ts; p_listening := l; p_main := MClosing c; p_workers := ws;
                   p_accepted := n; p_open := o; p_handled := c :: h |}
  | ps_inline_close ts l c ws n o h :
      pool_step {| p_thread_state := ts; p_listening := l; p_main := MClosing c; p_workers := ws;
                   p_accepted := n; p_open := o; p_handled := h |}
                {| p_thread_state := ts; p_listening := l; p_main := MLoop; p_workers := ws;
                   p_accepted := n; p_open := close_conn c o; p_handled := h |}
  | ps_serve ts l m c ws1 ws2 n o h :
      pool_step {| p_thread_state := ts; p_listening := l; p_main := m;
                   p_workers := ws1 ++ WServing c :: ws2; p_accepted := n; p_open := o; p_handled := h |}
                {| p_thread_state := ts; p_listening := l; p_main := m;
                   p_workers := ws1 ++ WServed c :: ws2; p_accepted := n; p_open := o;
                   p_handled := c :: h |}
  | ps_worker_close ts l m c ws1 ws2 n o h :
      pool_step {| p_thread_state := ts; p_listening := l; p_main := m;
                   p_workers := ws1 ++ WServed c :: ws2; p_accepted := n; p_open := o; p_handled := h |}
                {| p_thread_state := ts; p_listening := l; p_main := m;
                   p_workers := ws1 ++ WClosed c :: ws2; p_accepted := n; p_open := close_conn c o;
                   p_handled := h |}
  | ps_worker_exit st l m c ws1 ws2 n o h :
      pool_step {| p_thread_state := Some st; p_listening := l; p_main := m;
                   p_workers := ws1 ++ WClosed c :: ws2; p_accepted := n; p_open := o; p_handled := h |}
                {| p_thread_state := Some (worker_main_exit st); p_listening := l;
                   p_main := woken (worker_main_exit st) m;
                   p_workers := ws1 ++ ws2; p_accepted := n; p_open := o; p_handled := h |}
  (** [http_close_server], once [http_listen] has returned *)
  | ps_close ts l ws n o h :
      pool_step {| p_thread_state := ts; p_listening := l; p_main := MReturned; p_workers := ws;
                   p_accepted := n; p_open := o; p_handled := h |}
                {| p_thread_state := ts; p_listening := l; p_main := MDraining; p_workers := ws;
                   p_accepted := n; p_open := o; p_handled := h |}
  | ps_wait st l ws n o h : 0 < wk_active st →
      pool_step {| p_thread_state := Some st; p_listening := l; p_main := MDraining; p_workers := ws;
                   p_accepted := n; p_open := o; p_handled := h |}
                {| p_thread_state := Some st; p_listening := l; p_main := MWaiting; p_workers := ws;
                   p_accepted := n; p_open := o; p_handled := h |}
  (** a spurious wakeup *)
  | ps_spurious ts l ws n o h :
      pool_step {| p_thread_state := ts; p_listening := l; p_main := MWaiting; p_workers := ws;
                   p_accepted := n; p_open := o; p_handled := h |}
                {| p_thread_state := ts; p_listening := l; p_main := MDraining; p_workers := ws;
                   p_accepted := n; p_open := o; p_handled := h |}
  | ps_free ts l ws n o h : (∀ st, ts = Some st → wk_active st <= 0) →
      pool_step {| p_thread_state := ts; p_listening := l; p_main := MDraining; p_workers := ws;
                   p_accepted := n; p_open := o; p_handled := h |}
                {| p_thread_state := None; p_listening := l; p_main := MFreed; p_workers := ws;
                   p_accepted := n; p_open := o; p_handled := h |}.

(** A server as [http_create_server] leaves it, entering [http_listen]. *)
Definition pool_start (s : ServerState) : Pool :=
  {| p_thread_state := ss_thread_state s; p_listening := Listening; p_main := MLoop; p_workers := [];
     p_accepted := 0; p_open := []; p_handled := [] |}.

Definition reachable (s : ServerState) (p : Pool) : Prop := rtc pool_step (pool_start s) p.

(** *** The invariant *)

(** The connections the main thread holds: accepted and not yet handled; open. *)
Definition main_pending (m : MainPhase) : list nat :=
  match m with MAccepted c | MReserved c | MInline c => [c] | _ => [] end.
Definition main_open (m : MainPhase) : list nat :=
  match m with MAccepted c | MReserved c | MInline c | MClosing c => [c] | _ => [] end.
Definition worker_pending (w : WorkerPhase) : list nat :=
  match w with WServing c => [c] | _ => [] end.
Definition worker_open (w : WorkerPhase) : list nat :=
  match w with WServing c | WServed c => [c] | WClosed _ => [] end.

Definition pending (p : Pool) : list nat :=
  main_pending (p_main p) ++ concat (map worker_pending (p_workers p)).
Definition in_use (p : Pool) : list nat :=
  main_open (p_main p) ++ concat (map worker_open (p_workers p)).

(** The slots taken: one per worker, and the one about to be used. *)
Definition slots (p : Pool) : Z :=
  zlen (p_workers p) + match p_main p with MReserved _ => 1 | _ => 0 end.

Record pool_ok (p : Pool) : Prop := {
  po_count : match p_thread_state p with
             | Some st => wk_active st = slots p ∧ 0 <= slots p <= wk_limit st
             | None => slots p = 0
             end;
  po_waiting : p_main p = MWaiting → p_thread_state p ≠ None ∧ 0 < slots p;
  po_freed : p_main p = MFreed → p_thread_state p = None;
  (** every accepted connection is handled or about to be, once *)
  po_served : Permutation (p_handled p ++ pending p) (seq 0 (p_accepted p));
  po_nodup : NoDup (in_use p);
  po_bound : Forall (λ c, (c < p_accepted p)%nat) (in_use p);
  (** a descriptor is open exactly as long as a thread uses it *)
  po_open : Permutation (p_open p) (in_use p);
}.

Lemma close_conn_perm c o l : NoDup (c :: l) → Permutation o (c :: l) → Permutation (close_conn c o) l.
Proof.
  intros Hnd Hp. unfold close_conn. rewrite Hp, filter_cons, decide_False by tauto. clear Hp.
  apply NoDup_cons in Hnd as [Hc _]. induction l as [|x l IH]; [done|].
  apply not_elem_of_cons in Hc as [Hx Hc]. rewrite filter_cons, decide_True by done.
  f_equiv. by apply IH.
Qed.

(** Moving the entry of the worker that steps to the front. *)
Lemma concat_worker {A} (f : WorkerPhase → list A) ws1 w ws2 :
  Permutation (concat (map f (ws1 ++ w :: ws2))) (f w ++ concat (map f (ws1 ++ ws2))).
Proof.
  rewrite !map_app. simpl. rewrite !concat_app. simpl. rewrite !app_assoc. f_equiv. apply Permutation_app_comm.
Qed.

Lemma slots_app (ws1 : list WorkerPhase) w ws2 : zlen (ws1 ++ w :: ws2) = zlen (ws1 ++ ws2) + 1.
Proof. unfold zlen. rewrite !length_app, length_cons. lia. Qed.

Definition start_ok (s : ServerState) : Prop :=
  match ss_thread_state s with Some st => wk_active st = 0 ∧ 0 < wk_limit st | None => True end.

Ltac pool_cbn := cbn [p_thread_state p_listening p_main p_workers p_accepted p_open p_handled
  main_pending main_open worker_pending worker_open app] in *.


Lemma pool_start_ok s : start_ok s → pool_ok (pool_start s).
Proof.
  unfold start_ok. intros H. split; unfold pool_start, slots, pending, in_use; pool_cbn; try done.
  - change (zlen (@nil WorkerPhase)) with 0. destruct (ss_thread_state s); [lia|done].
  - apply NoDup_nil_2.
Qed.

Lemma main_worker_perm {A} (l : list A) (f : WorkerPhase → list A) ws1 w ws2 :
  Permutation (l ++ concat (map f (ws1 ++ w :: ws2))) (f w ++ l ++ concat (map f (ws1 ++ ws2))).
Proof. by rewrite concat_worker, !app_assoc, (Permutation_app_comm l). Qed.

Lemma pool_accept_ok ts l ws n o h :
  pool_ok {| p_thread_state := ts; p_listening := l; p_main := MAccept; p_workers := ws;
             p_accepted := n; p_open := o; p_handled := h |} →
  pool_ok {| p_thread_state := ts; p_listening := l; p_main := MAccepted n; p_workers := ws;
             p_accepted := S n; p_open := n :: o; p_handled := h |}.
Proof.
  intros [Hc Hw Hfr Hs Hn Hb Ho]. unfold slots, pending, in_use in *. pool_cbn.
  split; unfold slots, pending, in_use; pool_cbn; try done.
  - by rewrite seq_S, <- Hs, <- Permutation_middle, <- Permutation_cons_append.
  - apply NoDup_cons. split; [|done]. intros Hin. rewrite Forall_forall in Hb. apply Hb in Hin. lia.
  - constructor; [lia|]. eapply Forall_impl; [exact Hb|]. simpl. lia.
  - by rewrite Ho.
Qed.

Lemma pool_spawn_ok ts l c ws n o h alloc_ok taken ts' :
  spawn_worker ts alloc_ok = (taken, ts') →
  pool_ok {| p_thread_state := ts; p_listening := l; p_main := MAccepted c; p_workers := ws;
             p_accepted := n; p_open := o; p_handled := h |} →
  pool_ok {| p_thread_state := ts'; p_listening := l;
             p_main := if taken then MReserved c else MInline c; p_workers := ws;
             p_accepted := n; p_open := o; p_handled := h |}.
Proof.
  intros H [Hc Hw Hfr Hs Hn Hb Ho]. unfold slots, pending, in_use in *. pool_cbn.
  assert (match ts' with
          | Some st => wk_active st = zlen ws + (if taken then 1 else 0) ∧
              0 <= zlen ws + (if taken then 1 else 0) <= wk_limit st
          | None => zlen ws + (if taken then 1 else 0) = 0 end) as Hc'.
  { unfold spawn_worker in H. destruct ts as [st|]; [|injection H as <- <-; lia].
    destruct alloc_ok; cbn [negb] in H; [|injection H as <- <-; exact Hc].
    destruct (wk_limit st <=? wk_active st) eqn:E; injection H as <- <-; [exact Hc|].
    apply Z.leb_gt in E. cbn [wk_active wk_limit]. lia. }
  destruct taken; split; unfold slots, pending, in_use; pool_cbn; done.
Qed.

Lemma pool_worker_ok ts l m c w w' ws1 ws2 n o o' h h' :
  worker_pending w ++ h = worker_pending w' ++ h' ∨ worker_pending w ++ h = h' ++ worker_pending w' →
  (∀ r, NoDup (worker_open w ++ r) → Permutation o (worker_open w ++ r) →
    Permutation o' (worker_open w' ++ r)) →
  (worker_open w' = worker_open w ∨ worker_open w' = []) → worker_open w = [c] →
  pool_ok {| p_thread_state := ts; p_listening := l; p_main := m; p_workers := ws1 ++ w :: ws2;
             p_accepted := n; p_open := o; p_handled := h |} →
  pool_ok {| p_thread_state := ts; p_listening := l; p_main := m; p_workers := ws1 ++ w' :: ws2;
             p_accepted := n; p_open := o'; p_handled := h' |}.
Proof.
  intros Hp Hop Ho' Hwo [Hc Hw Hfr Hs Hn Hb Ho]. unfold slots, pending, in_use in *. pool_cbn.
  rewrite main_worker_perm in Hs, Hn, Hb, Ho. rewrite slots_app in Hc, Hw.
  split; unfold slots, pending, in_use; pool_cbn; rewrite ?slots_app, ?main_worker_perm; try done.
  - rewrite <- Hs, app_assoc, (Permutation_app_comm h'). rewrite (app_assoc h), (Permutation_app_comm h).
    f_equiv. destruct Hp as [->| ->]; [done|apply Permutation_app_comm].
  - destruct Ho' as [-> | ->]; [done|]. rewrite Hwo in Hn. by apply NoDup_cons in Hn as [_ ?].
  - destruct Ho' as [-> | ->]; [done|]. rewrite Hwo in Hb. by apply Forall_cons in Hb as [_ ?].
  - by apply Hop.
Qed.

Lemma pool_exit_ok st l m c ws1 ws2 n o h :
  pool_ok {| p_thread_state := Some st; p_listening := l; p_main := m;
             p_workers := ws1 ++ WClosed c :: ws2; p_accepted := n; p_open := o; p_handled := h |} →
  pool_ok {| p_thread_state := Some (worker_main_exit st); p_listening := l;
             p_main := woken (worker_main_exit st) m;
             p_workers := ws1 ++ ws2; p_accepted := n; p_open := o; p_handled := h |}.
Proof.
  intros [Hc Hw Hfr Hs Hn Hb Ho]. unfold slots, pending, in_use in *. pool_cbn.
  rewrite main_worker_perm in Hs, Hn, Hb, Ho. rewrite slots_app in Hc, Hw. pool_cbn.
  assert (wk_active (worker_main_exit st) = wk_active st - 1) as Ha.
  { unfold worker_main_exit. cbn [wk_active]. case_if; breflect; [done|].
    pose proof (zlen_nonneg (ws1 ++ ws2)). destruct m; lia. }
  assert (main_pending (woken (worker_main_exit st) m) = main_pending m) as Hm1
    by (destruct m; cbn [woken]; try done; by case_if).
  assert (main_open (woken (worker_main_exit st) m) = main_open m) as Hm2
    by (destruct m; cbn [woken]; try done; by case_if).
  pose proof (zlen_nonneg (ws1 ++ ws2)) as Hlen.
  split; unfold slots, pending, in_use; pool_cbn; rewrite ?Hm1, ?Hm2; try done.
  - rewrite Ha. cbn [worker_main_exit wk_limit].
    destruct m; cbn [woken]; try (case_if); lia.
  - destruct m; cbn [woken]; try done. rewrite Ha. case_if; [done|]. breflect. intros _. split; [done|lia].
  - destruct m; cbn [woken]; try done; [by case_if|]. intros _. by specialize (Hfr eq_refl).
Qed.

Lemma pool_step_ok p p' : pool_ok p → pool_step p p' → pool_ok p'.
Proof.
  intros Hok Hst. destruct Hst;
    try (eapply pool_accept_ok; exact Hok);
    try (eapply pool_spawn_ok; eassumption);
    try (eapply pool_exit_ok; exact Hok);
    try (eapply pool_worker_ok; [..|exact Hok]; cbn [worker_pending worker_open app];
         [first [by left|by right]|..|done];
         [intros r Hnd Hp; first [exact Hp|by apply close_conn_perm]|first [by left|by right]]);
    destruct Hok as [Hc Hw Hfr Hs Hn Hb Ho]; unfold slots, pending, in_use in *; pool_cbn;
    try (split; unfold slots, pending, in_use; pool_cbn; done).
  - (* accept failed *)
    destruct errno; split; unfold slots, pending, in_use; pool_cbn; done.
  - (* created *)
    split; unfold slots, pending, in_use; pool_cbn; cbn [map concat worker_pending worker_open app]; try done.
    unfold zlen in *. rewrite length_cons. destruct ts; lia.
  - (* not created *)
    split; unfold slots, pending, in_use; pool_cbn; try done. cbn [spawn_failed wk_active wk_limit].
    pose proof (zlen_nonneg ws). lia.
  - (* inline *)
    split; unfold slots, pending, in_use; pool_cbn; try done. rewrite <- Hs. apply Permutation_middle.
  - (* inline close *)
    apply NoDup_cons in Hn as Hn'. apply Forall_cons in Hb as [_ Hb].
    split; unfold slots, pending, in_use; pool_cbn; try done; [tauto|]. by apply close_conn_perm.
  - (* wait *)
    split; unfold slots, pending, in_use; pool_cbn; try done. intros _. split; [done|lia].
  - (* free *)
    split; unfold slots, pending, in_use; pool_cbn; try done.
    destruct ts as [st|]; [|done]. specialize (H st eq_refl). lia.
Qed.

Lemma reachable_ok s p : start_ok s → reachable s p → pool_ok p.
Proof.
  intros Hs Hr. apply pool_start_ok in Hs. unfold reachable in Hr.
  induction Hr as [|p1 p2 p3 Hst _ IH]; [done|]. eauto using pool_step_ok.
Qed.

(** *** What the protocol guarantees *)

(** In every state the threads can reach, no more workers run than the
    configured limit. *)
Lemma pool_limit s p st :
  start_ok s → reachable s p → p_thread_state p = Some st → zlen (p_workers p) <= wk_limit st.
Proof.
  intros Hs Hr Ht. pose proof (po_count p (reachable_ok s p Hs Hr)) as H. rewrite Ht in H.
  unfold slots in H. destruct (p_main p); lia.
Qed.

(** C25: when the server is torn down no worker is left that could touch it, every
    accepted connection was handled exactly once, every descriptor is closed, and no
    thread makes a further step. *)
Theorem pool_freed s p :
  start_ok s → reachable s p → p_main p = MFreed →
  p_workers p = [] ∧ Permutation (p_handled p) (seq 0 (p_accepted p)) ∧ p_open p = [] ∧
  ∀ p', ¬ pool_step p p'.
Proof.
  intros Hs Hr Hm.
  cut (p_workers p = [] ∧ Permutation (p_handled p) (seq 0 (p_accepted p)) ∧ p_open p = []).
  { intros (Hw & Hp & Ho). split; [done|]. split; [done|]. split; [done|].
    intros p' Hst. destruct Hst; cbn [p_main p_workers] in *; try done; by destruct ws1. }
  destruct (reachable_ok s p Hs Hr) as [Hc _ Hf Hse _ _ Ho].
  unfold slots, pending, in_use in *. rewrite Hm in *. rewrite (Hf eq_refl) in Hc.
  destruct (p_workers p) as [|w ws].
  - cbn [main_pending main_open map concat app] in *. rewrite app_nil_r in Hse.
    split; [done|]. split; [exact Hse|]. by apply Permutation_nil_r in Ho.
  - unfold zlen in Hc. rewrite length_cons in Hc. lia.
Qed.

Lemma pool_freed_witness :
  let s := {| ss_config := no_server; ss_fd := 3; ss_port := 80; ss_bind_addr := []; ss_listening := true;
              ss_thread_state := None; ss_open := [3] |} in
  ∃ p, reachable s p ∧ p_main p = MFreed ∧ p_accepted p = 1%nat ∧ Permutation (p_handled p) [0%nat] ∧
    p_open p = [].
Proof.
  intros s. eexists.
  assert (reachable s {| p_thread_state := None; p_listening := FlagDown; p_main := MFreed; p_workers := [];
                         p_accepted := 1; p_open := []; p_handled := [0%nat] |}) as Hr.
  { eapply rtc_l; [apply ps_loop_enter|]. eapply rtc_l; [by apply ps_accept|].
    eapply rtc_l; [apply (ps_spawn _ _ _ _ _ _ _ true false); reflexivity|].
    eapply rtc_l; [apply ps_inline|]. eapply rtc_l; [apply ps_inline_close|].
    eapply rtc_l; [by apply ps_stop_flag|]. eapply rtc_l; [by apply ps_loop_leave|]. eapply rtc_l; [apply ps_close|].
    apply rtc_once. apply ps_free. intros st [=]. }
  split; [exact Hr|]. split; [reflexivity|]. split; [reflexivity|].
  destruct (pool_freed s _ I Hr eq_refl) as (_ & H1 & H2 & _). split; [exact H1 | exact H2].
Defined.

(** A waiting [worker_state_free] has a worker to wait for: no wakeup is lost. *)
Lemma pool_waiting_has_worker s p :
  start_ok s → reachable s p → p_main p = MWaiting → p_workers p ≠ [].
Proof.
  intros Hs Hr Hm. pose proof (po_waiting p (reachable_ok s p Hs Hr) Hm) as [_ H].
  unfold slots in H. rewrite Hm in H. by destruct (p_workers p).
Qed.

(** *** After [http_stop_server] *)

(** A spurious wakeup. *)
Definition spurious (p p' : Pool) : Prop :=
  p_main p = MWaiting ∧ p_main p' = MDraining ∧ p_workers p' = p_workers p.

Definition progress (p p' : Pool) : Prop := pool_step p p' ∧ ¬ spurious p p'.

(** The steps still to make, at most: of a worker, of the main thread, of the stop. *)
Definition worker_todo (w : WorkerPhase) : nat :=
  match w with WServing _ => 4 | WServed _ => 3 | WClosed _ => 2 end.

Definition main_todo (m : MainPhase) : nat :=
  match m with
  | MAccept => 11 | MAccepted _ => 10 | MReserved _ => 9 | MInline _ => 6 | MClosing _ => 5 | MLoop => 4
  | MReturned => 3 | MDraining => 2 | MWaiting => 1 | MFreed => 0
  end.

Definition listen_todo (l : ListenState) : nat := match l with ShutDown => 0 | _ => 1 end.

Definition todo (p : Pool) : nat :=
  main_todo (p_main p) + sum_list_with worker_todo (p_workers p) + listen_todo (p_listening p).

(** A connection that a thread inside [accept] may still get. *)
Definition last_accept (p : Pool) : nat :=
  match p_main p, p_listening p with MAccept, FlagDown => 1 | _, _ => 0 end.

Lemma sum_list_middle {A} (f : A → nat) xs x ys :
  sum_list_with f (xs ++ x :: ys) = (f x + sum_list_with f (xs ++ ys))%nat.
Proof. rewrite !sum_list_with_app. simpl. lia. Qed.

(** Once the flag is down every step brings the end closer. *)
Lemma progress_todo p p' :
  progress p p' → p_listening p ≠ Listening →
  (todo p' < todo p)%nat ∧ p_listening p' ≠ Listening ∧
  (p_accepted p' + last_accept p' ≤ p_accepted p + last_accept p)%nat.
Proof.
  intros [Hst Hsp] Hl. unfold todo, last_accept.
  destruct Hst; pool_cbn; rewrite ?sum_list_middle; cbn [main_todo listen_todo worker_todo sum_list_with]; try done;
    try (destruct l; [done|..]); cbn [listen_todo]; try (split_and!; [lia|done|lia]).
  all: first [ by destruct Hsp | destruct errno | destruct taken | destruct m; cbn [woken]; try case_if ];
    cbn; split_and!; (done || lia).
Qed.

(** There is a step to make until the server is torn down. *)
Lemma progress_exists p :
  pool_ok p → p_listening p ≠ Listening → p_main p ≠ MFreed → ∃ p', progress p p'.
Proof.
  intros Hok Hl Hm. destruct p as [ts l m ws n o h]. pool_cbn.
  destruct m as [| |c|c|c|c| | | |]; try done.
  - eexists. split; [by apply ps_loop_leave|by intros []].
  - eexists. split; [by apply (ps_accept_failed ts l ws n o h EINVAL)|by intros []].
  - destruct (spawn_worker ts true) as [taken ts'] eqn:E. eexists. split; [by eapply ps_spawn|by intros []].
  - eexists. split; [apply ps_created|by intros []].
  - eexists. split; [apply ps_inline|by intros []].
  - eexists. split; [apply ps_inline_close|by intros []].
  - eexists. split; [apply ps_close|by intros []].
  - destruct ts as [st|]; [destruct (decide (0 < wk_active st))|].
    + eexists. split; [by apply ps_wait|by intros []].
    + eexists. split; [apply ps_free|by intros []]. intros st' [= <-]. lia.
    + eexists. split; [by apply ps_free|by intros []].
  - assert (ws ≠ []) as Hne.
    { pose proof (po_waiting _ Hok eq_refl) as [_ H]. unfold slots in H. pool_cbn. by intros ->. }
    assert (ts ≠ None) as Hts by apply (po_waiting _ Hok eq_refl).
    destruct ts as [st|]; [|done]. destruct ws as [|[c|c|c] ws]; [done|..].
    + eexists. split; [apply (ps_serve (Some st) l MWaiting c [] ws)|]. intros (_ & H & _). done.
    + eexists. split; [apply (ps_worker_close (Some st) l MWaiting c [] ws)|]. intros (_ & H & _). done.
    + eexists. split; [apply (ps_worker_exit st l MWaiting c [] ws)|]. intros (_ & _ & H).
      apply (f_equal length) in H. simpl in H. lia.
Qed.

Lemma progress_bound n p p' :
  nsteps progress n p p' → p_listening p ≠ Listening →
  (n + todo p' ≤ todo p)%nat ∧ (p_accepted p' + last_accept p' ≤ p_accepted p + last_accept p)%nat.
Proof.
  induction 1 as [p|n p1 p2 p3 H12 _ IH]; intros Hl; [lia|].
  destruct (progress_todo p1 p2 H12 Hl) as (H1 & H2 & H3). destruct (IH H2). lia.
Qed.

Lemma stopped_step p p' : pool_step p p' → p_listening p ≠ Listening → p_listening p' ≠ Listening.
Proof. intros Hst. by destruct Hst. Qed.

(** C36: once [http_stop_server] has lowered the flag the server comes to its end: every
    schedule without spurious wakeups makes at most [todo] further steps and gets at most
    the one connection that [accept] had in hand; and no schedule can end before the
    server is torn down, so no wakeup is lost and no count is left over. *)
Theorem pool_stops s p :
  start_ok s → reachable s p → p_listening p ≠ Listening →
  (∀ n p', nsteps progress n p p' → (n ≤ todo p)%nat ∧ (p_accepted p' ≤ p_accepted p + last_accept p)%nat) ∧
  (∀ p', rtc pool_step p p' → (∀ p'', ¬ progress p' p'') → p_main p' = MFreed).
Proof.
  intros Hs Hr Hl. split.
  - intros n p' Hn. destruct (progress_bound n p p' Hn Hl). lia.
  - intros p' Hp' Hstuck. destruct (decide (p_main p' = MFreed)) as [|Hm]; [done|]. exfalso.
    assert (pool_ok p' ∧ p_listening p' ≠ Listening) as [Hok' Hl'].
    { pose proof (reachable_ok s p Hs Hr) as Hok. clear Hstuck Hm Hr.
      induction Hp' as [|p1 p2 p3 Hst _ IH]; [done|].
      apply IH; [by eapply stopped_step|by eapply pool_step_ok]. }
    destruct (progress_exists p' Hok' Hl' Hm) as (p'' & H). by eapply Hstuck.
Qed.

(** A pool of one worker, stopped while it serves. *)
Lemma pool_stops_witness :
  let s := {| ss_config := no_server; ss_fd := 3; ss_port := 80; ss_bind_addr := []; ss_listening := true;
              ss_thread_state := Some {| wk_active := 0; wk_limit := 1 |}; ss_open := [3] |} in
  let p := {| p_thread_state := Some {| wk_active := 1; wk_limit := 1 |}; p_listening := FlagDown;
              p_main := MLoop; p_workers := [WServing 0]; p_accepted := 1; p_open := [0%nat]; p_handled := [] |} in
  reachable s p ∧ todo p = 9%nat ∧
  (∀ n p', nsteps progress n p p' → (n ≤ 9)%nat ∧ (p_accepted p' ≤ 1)%nat) ∧
  (∀ p', rtc pool_step p p' → (∀ p'', ¬ progress p' p'') → p_main p' = MFreed).
Proof.
  intros s p. assert (reachable s p) as Hr.
  { eapply rtc_l; [apply ps_loop_enter|]. eapply rtc_l; [by apply ps_accept|].
    eapply rtc_l; [apply (ps_spawn _ _ _ _ _ _ _ true true); reflexivity|].
    eapply rtc_l; [apply ps_created|]. apply rtc_once. by apply ps_stop_flag. }
  split; [exact Hr|]. split; [reflexivity|].
  exact (pool_stops s p (conj eq_refl eq_refl) Hr ltac:(discriminate)).
Defined.

Lemma stopped_finishes p :
  pool_ok p → p_listening p = ShutDown →
  ∃ p', rtc pool_step p p' ∧ p_main p' = MFreed ∧ p_accepted p' = p_accepted p.
Proof.
  remember (todo p) as k eqn:Hk. revert p Hk. induction (lt_wf k) as [k _ IH]. intros p -> Hok Hl.
  destruct (decide (p_main p = MFreed)) as [Hm|Hm]; [by exists p|].
  assert (p_listening p ≠ Listening) as Hl' by congruence.
  destruct (progress_exists p Hok Hl' Hm) as [p1 H1]. destruct (progress_todo p p1 H1 Hl') as (Hlt & _ & Ha).
  assert (p_listening p1 = ShutDown ∧ p_accepted p1 = p_accepted p) as [Hl1 Ha1].
  { clear IH Hlt Ha Hok Hm Hl'. revert Hl. destruct H1 as [[] _]; cbn; intros Hl; by subst. }
  destruct H1 as [H1 _]. destruct (IH _ Hlt p1 eq_refl) as (p' & Hr & Hf & Ha'); [by eapply pool_step_ok|done|].
  exists p'. split; [by eapply rtc_l|]. split; [done|congruence].
Qed.

(** From every reachable state the threads can go on to the tear-down of the server without
    accepting another connection. *)
Lemma pool_can_finish s p :
  start_ok s → reachable s p →
  ∃ p', rtc pool_step p p' ∧ p_main p' = MFreed ∧ p_accepted p' = p_accepted p.
Proof.
  intros Hs Hr. pose proof (reachable_ok s p Hs Hr) as Hok.
  destruct (decide (p_main p = MFreed)) as [Hm|Hm]; [by exists p|].
  assert (∃ p1, rtc pool_step p p1 ∧ p_listening p1 = ShutDown ∧ p_accepted p1 = p_accepted p ∧ pool_ok p1)
    as (p1 & H1 & Hl & Ha & Hok1).
  { destruct p as [ts [| |] m ws n o h]; cbn in Hm.
    - eexists. assert (H : rtc pool_step _ _) by (eapply rtc_l; [apply (ps_stop_flag ts m ws n o h Hm)|
        apply rtc_once, (ps_stop_shut ts m ws n o h Hm)]). split; [exact H|]. split_and!; [done|done|].
      by destruct Hok; split.
    - eexists. split; [apply rtc_once, (ps_stop_shut ts m ws n o h Hm)|]. split_and!; [done|done|].
      by destruct Hok; split.
    - eexists. by split; [apply rtc_refl|]. }
  destruct (stopped_finishes p1 Hok1 Hl) as (p2 & H2 & Hf & Ha2).
  exists p2. split; [by transitivity p1|]. split; [done|congruence].
Qed.
