(* ===== verification/WsCrypto.v ===== *)
(** * SHA-1, Base64 and the accept key

    The primitives of the websocket handshake in [src/c_http_ws.c]: [rol32],
    [sha1_*], [base64_*] and [ws_accept_key].  32-bit words are Z below 2^32. *)

From S2P Require Import Prelude CLib.
#[local] Open Scope Z_scope.

(** ** SHA-1 *)

Definition u32 (x : Z) : Z := x mod 2 ^ 32.

Definition rol32 (v bits : Z) : Z := Z.lor (u32 (Z.shiftl v bits)) (Z.shiftr v (32 - bits)).

(** [uint32_t state\[5\]] *)
Record Sha1State := { s0 : Z; s1 : Z; s2 : Z; s3 : Z; s4 : Z }.

(** [sha_buf] holds the first [buf_len] bytes of the buffer. *)
Record Sha1 := { sha_state : Sha1State; sha_total : Z; sha_buf : bytes }.

Definition sha1_init : Sha1 :=
  {| sha_state := {| s0 := 0x67452301; s1 := 0xEFCDAB89; s2 := 0x98BADCFE; s3 := 0x10325476;
                     s4 := 0xC3D2E1F0 |};
     sha_total := 0; sha_buf := [] |}.

Definition byte_at (p : bytes) (i : nat) : Z := default 0 (p !! i).

Definition be32 (p : bytes) (i : nat) : Z :=
  Z.lor (Z.lor (Z.lor (Z.shiftl (byte_at p i) 24) (Z.shiftl (byte_at p (i + 1)) 16))
               (Z.shiftl (byte_at p (i + 2)) 8)) (byte_at p (i + 3)).

(** [w\[i\]] for 16 <= i < 80, [n] of them. *)
Fixpoint sha1_extend (n : nat) (w : list Z) : list Z :=
  match n with
  | O => w
  | S n =>
      let i := length w in
      let x j := byte_at w (i - j) in
      sha1_extend n
        (w ++ [rol32 (Z.lxor (Z.lxor (Z.lxor (x 3%nat) (x 8%nat)) (x 14%nat)) (x 16%nat)) 1])
  end.

Definition sha1_schedule (p : bytes) : list Z :=
  sha1_extend 64 (map (λ i, be32 p (i * 4)) (seq 0 16)).

Definition sha1_round (w : list Z) (r : Sha1State) (i : nat) : Sha1State :=
  let '{| s0 := a; s1 := b; s2 := c; s3 := d; s4 := e |} := r in
  let f := if (i <? 20)%nat then Z.lor (Z.land b c) (Z.land (Z.lxor b 0xFFFFFFFF) d)
           else if (i <? 40)%nat then Z.lxor (Z.lxor b c) d
           else if (i <? 60)%nat then Z.lor (Z.lor (Z.land b c) (Z.land b d)) (Z.land c d)
           else Z.lxor (Z.lxor b c) d in
  let k := if (i <? 20)%nat then 0x5A827999 else if (i <? 40)%nat then 0x6ED9EBA1
           else if (i <? 60)%nat then 0x8F1BBCDC else 0xCA62C1D6 in
  {| s0 := u32 (rol32 a 5 + f + e + k + byte_at w i); s1 := a; s2 := rol32 b 30; s3 := c; s4 := d |}.

Definition sha1_block (s : Sha1State) (p : bytes) : Sha1State :=
  let w := sha1_schedule p in
  let r := fold_left (sha1_round w) (seq 0 80) s in
  {| s0 := u32 (s0 s + s0 r); s1 := u32 (s1 s + s1 r); s2 := u32 (s2 s + s2 r);
     s3 := u32 (s3 s + s3 r); s4 := u32 (s4 s + s4 r) |}.

(** One round per block or per copy into the buffer; each eats a byte at least. *)
Fixpoint sha1_update_loop (fuel : nat) (st : Sha1State) (buf p : bytes) : Sha1State * bytes :=
  match fuel, p with
  | O, _ | _, [] => (st, buf)
  | S fuel, _ =>
      if (zlen buf =? 0) && (64 <=? zlen p) then
        sha1_update_loop fuel (sha1_block st (ztake 64 p)) buf (zdrop 64 p)
      else
        let take := Z.min (64 - zlen buf) (zlen p) in
        let buf := buf ++ ztake take p in
        if zlen buf =? 64 then sha1_update_loop fuel (sha1_block st buf) [] (zdrop take p)
        else sha1_update_loop fuel st buf (zdrop take p)
  end.

Definition sha1_update (s : Sha1) (data : bytes) : Sha1 :=
  let '(st, buf) := sha1_update_loop (length data) (sha_state s) (sha_buf s) data in
  {| sha_state := st; sha_total := (sha_total s + zlen data) mod 2 ^ 64; sha_buf := buf |}.

(** The zeros up to 56 bytes in the buffer: 63 rounds at most. *)
Fixpoint sha1_pad (fuel : nat) (s : Sha1) : Sha1 :=
  match fuel with
  | O => s
  | S fuel => if zlen (sha_buf s) =? 56 then s else sha1_pad fuel (sha1_update s [0])
  end.

Definition be32_bytes (x : Z) : bytes :=
  [Z.shiftr x 24 mod 256; Z.shiftr x 16 mod 256; Z.shiftr x 8 mod 256; x mod 256].

Definition be64_bytes (x : Z) : bytes :=
  map (λ i, Z.shiftr x (56 - 8 * Z.of_nat i) mod 256) (seq 0 8).

Definition sha1_digest (st : Sha1State) : bytes :=
  be32_bytes (s0 st) ++ be32_bytes (s1 st) ++ be32_bytes (s2 st) ++ be32_bytes (s3 st)
  ++ be32_bytes (s4 st).

Definition sha1_final (s : Sha1) : bytes :=
  let bits := sha_total s * 8 mod 2 ^ 64 in
  let s := sha1_pad 64 (sha1_update s [0x80]) in
  sha1_digest (sha_state (sha1_update s (be64_bytes bits))).

Example sha1_abc :
  sha1_final (sha1_update sha1_init (str "abc"))
  = [0xa9; 0x99; 0x3e; 0x36; 0x47; 0x06; 0x81; 0x6a; 0xba; 0x3e; 0x25; 0x71; 0x78; 0x50; 0xc2; 0x6c;
     0x9c; 0xd0; 0xd8; 0x9d].
Proof. vm_compute. done. Qed.

(** ** Base64 *)

Definition B64_CHARS : bytes :=
  str "ABCDEFGHIJKLMNOPQRSTUVWXYZabcdefghijklmnopqrstuvwxyz0123456789+/".

Definition b64_char (v : Z) : Z := byte_at B64_CHARS (Z.to_nat (Z.land v 0x3F)).

Fixpoint base64_groups (i : bytes) : bytes :=
  match i with
  | a :: b :: c :: i =>
      let v := Z.lor (Z.lor (Z.shiftl a 16) (Z.shiftl b 8)) c in
      b64_char (Z.shiftr v 18) :: b64_char (Z.shiftr v 12) :: b64_char (Z.shiftr v 6) :: b64_char v ::
      base64_groups i
  | [a] =>
      let v := Z.shiftl a 16 in
      [b64_char (Z.shiftr v 18); b64_char (Z.shiftr v 12); "="%ch; "="%ch]
  | [a; b] =>
      let v := Z.lor (Z.shiftl a 16) (Z.shiftl b 8) in
      [b64_char (Z.shiftr v 18); b64_char (Z.shiftr v 12); b64_char (Z.shiftr v 6); "="%ch]
  | [] => []
  end.

(** The text written into [out], its length being the value; [None]: 0. *)
Definition base64_encode (i : bytes) (out_size : Z) : option bytes :=
  if out_size <? (zlen i + 2) / 3 * 4 + 1 then None else Some (base64_groups i).

Definition base64_value (c : Z) : Z :=
  if ("A"%ch <=? c) && (c <=? "Z"%ch) then c - "A"%ch
  else if ("a"%ch <=? c) && (c <=? "z"%ch) then c - "a"%ch + 26
  else if ("0"%ch <=? c) && (c <=? "9"%ch) then c - "0"%ch + 52
  else if c =? "+"%ch then 62
  else if c =? "/"%ch then 63
  else -1.

(** The four characters of a group, from index [j] on: their values and the
    number of ['=']. *)
Fixpoint base64_group (last : bool) (j : Z) (cs : bytes) (pad : Z) : option (list Z * Z) :=
  match cs with
  | [] => Some ([], pad)
  | c :: cs =>
      if c =? "="%ch then
        if negb last || (j <? 2) then None
        else match base64_group last (j + 1) cs (pad + 1) with
             | Some (v, pad) => Some (0 :: v, pad)
             | None => None
             end
      else if 0 <? pad then None
      else if base64_value c <? 0 then None
      else match base64_group last (j + 1) cs pad with
           | Some (v, pad) => Some (base64_value c :: v, pad)
           | None => None
           end
  end.

(** A group of four characters per round. *)
Fixpoint base64_decode_loop (i : bytes) (o : bytes) (out_size : Z) : option bytes :=
  match i with
  | a :: b :: c :: d :: i =>
      match base64_group (zlen i =? 0) 0 [a; b; c; d] 0 with
      | Some ([v0; v1; v2; v3], pad) =>
          let produced := 3 - pad in
          if out_size <? zlen o + produced then None
          else
            let acc := Z.lor (Z.lor (Z.lor (Z.shiftl v0 18) (Z.shiftl v1 12)) (Z.shiftl v2 6)) v3 in
            base64_decode_loop i
              (o ++ [Z.shiftr acc 16 mod 256]
                 ++ (if 1 <? produced then [Z.shiftr acc 8 mod 256] else [])
                 ++ (if 2 <? produced then [acc mod 256] else [])) out_size
      | _ => None
      end
  | _ => Some o
  end.

Definition base64_decode (i : bytes) (out_size : Z) : option bytes :=
  if (zlen i =? 0) || negb (zlen i mod 4 =? 0) then None
  else base64_decode_loop i [] out_size.

(** ** The accept key *)

Definition WS_GUID : bytes := str "258EAFA5-E914-47DA-95CA-C5AB0DC85B11".

Definition ws_accept_key (key : bytes) (out_size : Z) : option bytes :=
  if out_size <? 29 then None
  else
    let sha := sha1_update (sha1_update sha1_init key) WS_GUID in
    match base64_encode (sha1_final sha) out_size with
    | Some out => if zlen out =? 28 then Some out else None
    | None => None
    end.

(** The example of RFC 6455. *)
Example ws_accept_key_rfc :
  ws_accept_key (str "dGhlIHNhbXBsZSBub25jZQ==") 32 = Some (str "s3pPLMBiTxaQ9kYGzzhZRbK+xOo=").
Proof. vm_compute. done. Qed.

Example base64_decode_examples :
  base64_decode (str "dGhlIHNhbXBsZSBub25jZQ==") 24 = Some (str "the sample nonce") ∧
  base64_decode (str "AA=A") 24 = None ∧ base64_decode (str "A===") 24 = None ∧
  base64_decode (str "AA==AAAA") 24 = None ∧ base64_decode (str "AAAA") 2 = None.
Proof. vm_compute. done. Qed.

(** ** Correctness of the streaming hash *)

(** One byte into the buffer, which is hashed when it is full. *)
Definition feed (s : Sha1State * bytes) (b : Z) : Sha1State * bytes :=
  let '(st, buf) := s in
  let buf := buf ++ [b] in
  if zlen buf =? 64 then (sha1_block st buf, []) else (st, buf).

Lemma feed_partial st buf p :
  zlen buf + zlen p < 64 → fold_left feed p (st, buf) = (st, buf ++ p).
Proof.
  revert buf. induction p as [|b p IH]; intros buf Hl; [by rewrite app_nil_r|]. cbn [fold_left feed].
  assert (zlen (b :: p) = 1 + zlen p) as Hc by (unfold zlen; rewrite length_cons; lia).
  pose proof (zlen_nonneg p).
  assert (zlen (buf ++ [b]) = zlen buf + 1) as Hb by (rewrite zlen_app; done).
  case_if; breflect; [lia|]. rewrite IH by lia. by rewrite <- app_assoc.
Qed.

Lemma feed_full st buf p :
  p ≠ [] → zlen buf + zlen p = 64 → fold_left feed p (st, buf) = (sha1_block st (buf ++ p), []).
Proof.
  intros Hp Hl. destruct (exists_last Hp) as (q & b & ->). rewrite fold_left_app.
  rewrite zlen_app in Hl. change (zlen [b]) with 1 in Hl.
  rewrite feed_partial by lia. cbn [fold_left feed].
  rewrite <- app_assoc. case_if; breflect; [done|].
  rewrite !zlen_app in Heqb0. change (zlen [b]) with 1 in Heqb0. lia.
Qed.

(** However the data is cut into calls, every byte goes through [feed] in order. *)
Lemma sha1_update_loop_feed fuel st buf p :
  zlen buf < 64 → (length p ≤ fuel)%nat →
  sha1_update_loop fuel st buf p = fold_left feed p (st, buf).
Proof.
  revert st buf p. induction fuel as [|fuel IH]; intros st buf p Hb Hf.
  { destruct p; [done|simpl in Hf; lia]. }
  destruct p as [|b p]; [done|]. cbn [sha1_update_loop]. set (q := b :: p) in *.
  assert (1 <= zlen q) as Hq by (unfold q, zlen; rewrite length_cons; lia).
  assert (∀ n, 1 <= n → (length (zdrop n q) ≤ fuel)%nat) as Hdrop.
  { intros n Hn. unfold zdrop. rewrite length_drop. unfold q in *. simpl in *. lia. }
  pose proof (zlen_nonneg buf) as Hb0. case_if; breflect.
  - assert (buf = []) as -> by (by apply zlen_nil_inv).
    rewrite IH by (try apply Hdrop; done || lia).
    transitivity (fold_left feed (ztake 64 q ++ zdrop 64 q) (st, [])); [|by rewrite ztake_zdrop].
    rewrite fold_left_app. rewrite (feed_full st [] (ztake 64 q)); [done| |].
    + intros E. assert (zlen (ztake 64 q) = 0) as E0 by (by rewrite E). rewrite zlen_ztake in E0 by lia. lia.
    + rewrite zlen_ztake by lia. change (zlen (@nil Z)) with 0. lia.
  - set (take := Z.min (64 - zlen buf) (zlen q)) in *.
    assert (zlen (ztake take q) = take) as Ht by (rewrite zlen_ztake by lia; lia).
    transitivity (fold_left feed (ztake take q ++ zdrop take q) (st, buf)); [|by rewrite ztake_zdrop].
    rewrite fold_left_app. case_if; breflect.
    + rewrite IH; [|rewrite zlen_nil; lia|apply Hdrop; lia]. rewrite zlen_app, Ht in Heqb1.
      rewrite (feed_full st buf (ztake take q)); [done| |lia]. intros E. rewrite E in Ht. change (zlen (@nil Z)) with 0 in Ht. lia.
    + rewrite zlen_app, Ht in Heqb1.
      rewrite IH; [|rewrite zlen_app; lia|apply Hdrop; lia]. by rewrite (feed_partial st buf (ztake take q)) by lia.
Qed.

Definition absorbed (s : Sha1) : Sha1State * bytes := (sha_state s, sha_buf s).

Lemma feed_buf p st buf :
  zlen buf < 64 → zlen (fold_left feed p (st, buf)).2 = (zlen buf + zlen p) mod 64.
Proof.
  revert st buf. induction p as [|b p IH]; intros st buf Hb; cbn [fold_left].
  - rewrite zlen_nil, Z.add_0_r. cbn [snd]. pose proof (zlen_nonneg buf). rewrite Z.mod_small; lia.
  - pose proof (zlen_nonneg buf) as H0. unfold feed at 2. rewrite zlen_cons.
    assert (zlen (buf ++ [b]) = zlen buf + 1) as Hl by by rewrite zlen_app.
    case_if; breflect.
    + rewrite IH by (rewrite zlen_nil; lia). rewrite zlen_nil.
      replace (zlen buf + (1 + zlen p)) with (0 + zlen p + 1 * 64) by lia. by rewrite Z_mod_plus_full.
    + rewrite IH by lia. f_equal. lia.
Qed.

Lemma absorbed_state s : (absorbed s).1 = sha_state s.
Proof. done. Qed.

Lemma sha1_update_absorbed s d :
  zlen (sha_buf s) < 64 → absorbed (sha1_update s d) = fold_left feed d (absorbed s).
Proof.
  intros Hb. unfold sha1_update, absorbed. pose proof (sha1_update_loop_feed (length d) (sha_state s) (sha_buf s) d Hb) as H.
  rewrite H by lia. by destruct (fold_left feed d (sha_state s, sha_buf s)).
Qed.

Lemma sha1_update_buf s d :
  zlen (sha_buf s) < 64 → zlen (sha_buf (sha1_update s d)) = (zlen (sha_buf s) + zlen d) mod 64.
Proof.
  intros Hb. change (sha_buf (sha1_update s d)) with (absorbed (sha1_update s d)).2.
  rewrite sha1_update_absorbed by done. by apply feed_buf.
Qed.

Lemma sha1_update_total s d :
  sha_total (sha1_update s d) = (sha_total s + zlen d) mod 2 ^ 64.
Proof. unfold sha1_update. by destruct (sha1_update_loop _ _ _ _). Qed.

Lemma sha1_update_app s a b :
  zlen (sha_buf s) < 64 → sha1_update (sha1_update s a) b = sha1_update s (a ++ b).
Proof.
  intros Hb. assert (zlen (sha_buf (sha1_update s a)) < 64) as Hb'.
  { rewrite sha1_update_buf by done. apply Z.mod_pos_bound. lia. }
  pose proof (sha1_update_absorbed _ b Hb') as H1. pose proof (sha1_update_absorbed _ a Hb) as H2.
  pose proof (sha1_update_absorbed _ (a ++ b) Hb) as H3. rewrite fold_left_app, <- H2, <- H1 in H3.
  pose proof (sha1_update_total (sha1_update s a) b) as H4. rewrite (sha1_update_total s a) in H4.
  pose proof (sha1_update_total s (a ++ b)) as H5.
  rewrite Zplus_mod_idemp_l, <- Z.add_assoc, <- zlen_app in H4. rewrite <- H5 in H4.
  destruct (sha1_update (sha1_update s a) b), (sha1_update s (a ++ b)). unfold absorbed in H3.
  cbn in *. congruence.
Qed.

(** The zeros that bring the buffer to 56 bytes. *)
Lemma sha1_pad_absorbed fuel s :
  zlen (sha_buf s) < 64 → (56 - zlen (sha_buf s)) mod 64 < Z.of_nat fuel →
  absorbed (sha1_pad fuel s)
  = fold_left feed (replicate (Z.to_nat ((56 - zlen (sha_buf s)) mod 64)) 0) (absorbed s).
Proof.
  revert s. induction fuel as [|fuel IH]; intros s Hb Hf.
  { pose proof (Z.mod_pos_bound (56 - zlen (sha_buf s)) 64). lia. }
  cbn [sha1_pad]. pose proof (zlen_nonneg (sha_buf s)) as H0. case_if; breflect.
  - by rewrite Heqb.
  - assert (zlen (sha_buf (sha1_update s [0])) = (zlen (sha_buf s) + 1) mod 64) as Hl
      by by rewrite sha1_update_buf.
    assert ((56 - zlen (sha_buf (sha1_update s [0]))) mod 64 = (56 - zlen (sha_buf s)) mod 64 - 1) as Hm.
    { rewrite Hl. rewrite Zminus_mod_idemp_r.
      destruct (decide (zlen (sha_buf s) < 56)).
      - rewrite (Z.mod_small (56 - zlen (sha_buf s))) by lia. rewrite Z.mod_small; lia.
      - replace (56 - zlen (sha_buf s)) with (120 - zlen (sha_buf s) + -1 * 64) by lia.
        replace (56 - (zlen (sha_buf s) + 1)) with (119 - zlen (sha_buf s) + -1 * 64) by lia.
        rewrite !Z_mod_plus_full, !Z.mod_small; lia. }
    pose proof (Z.mod_pos_bound (56 - zlen (sha_buf s)) 64 ltac:(lia)) as Hp1.
    pose proof (Z.mod_pos_bound (56 - zlen (sha_buf (sha1_update s [0]))) 64 ltac:(lia)) as Hp2.
    assert (zlen (sha_buf (sha1_update s [0])) < 64) as Hb'.
    { rewrite Hl. apply Z.mod_pos_bound. lia. }
    rewrite IH by lia. rewrite Hm, sha1_update_absorbed by done.
    replace (Z.to_nat ((56 - zlen (sha_buf s)) mod 64))
      with (S (Z.to_nat ((56 - zlen (sha_buf s)) mod 64 - 1))) by lia. done.
Qed.

(** *** FIPS 180: pad the message and hash block after block *)

Fixpoint sha1_blocks (n : nat) (st : Sha1State) (p : bytes) : Sha1State :=
  match n with
  | O => st
  | S n => sha1_blocks n (sha1_block st (ztake 64 p)) (zdrop 64 p)
  end.

Definition fips_pad (m : bytes) : bytes :=
  m ++ [0x80] ++ replicate (Z.to_nat ((55 - zlen m) mod 64)) 0 ++ be64_bytes (8 * zlen m mod 2 ^ 64).

Definition fips_sha1 (m : bytes) : bytes :=
  sha1_digest (sha1_blocks (length (fips_pad m) / 64) (sha_state sha1_init) (fips_pad m)).

Lemma feed_blocks n st p :
  zlen p = 64 * Z.of_nat n → fold_left feed p (st, []) = (sha1_blocks n st p, []).
Proof.
  revert st p. induction n as [|n IH]; intros st p Hl; cbn [sha1_blocks].
  - by rewrite (zlen_nil_inv p) by lia.
  - transitivity (fold_left feed (ztake 64 p ++ zdrop 64 p) (st, [])); [by rewrite ztake_zdrop|].
    assert (zlen (ztake 64 p) = 64) as Ht by (rewrite zlen_ztake by lia; lia).
    rewrite fold_left_app, (feed_full st [] (ztake 64 p)).
    + apply IH. rewrite zlen_zdrop by lia. lia.
    + intros E. rewrite E in Ht. done.
    + rewrite Ht. done.
Qed.

Lemma zlen_be64 x : zlen (be64_bytes x) = 8.
Proof. done. Qed.

Lemma fips_pad_length m : zlen (fips_pad m) mod 64 = 0.
Proof.
  unfold fips_pad. rewrite !zlen_app, zlen_be64. change (zlen [0x80]) with 1.
  pose proof (Z.mod_pos_bound (55 - zlen m) 64 ltac:(lia)).
  assert (zlen (replicate (Z.to_nat ((55 - zlen m) mod 64)) 0) = (55 - zlen m) mod 64) as ->.
  { unfold zlen at 1. rewrite length_replicate. lia. }
  pose proof (Z.div_mod (55 - zlen m) 64 ltac:(lia)) as Hd.
  replace (zlen m + (1 + ((55 - zlen m) mod 64 + 8))) with (0 + (1 - (55 - zlen m) / 64) * 64) by lia.
  by rewrite Z_mod_plus_full.
Qed.

Lemma sha1_final_fips m : sha1_final (sha1_update sha1_init m) = fips_sha1 m.
Proof.
  set (s := sha1_update sha1_init m).
  assert (zlen (sha_buf s) = zlen m mod 64) as Hs by (unfold s; by rewrite sha1_update_buf).
  pose proof (Z.mod_pos_bound (zlen m) 64 ltac:(lia)) as Hm.
  set (s' := sha1_update s [0x80]).
  assert (zlen (sha_buf s') = (zlen m + 1) mod 64) as Hs'.
  { unfold s'. rewrite sha1_update_buf by lia. rewrite Hs. apply Zplus_mod_idemp_l. }
  pose proof (Z.mod_pos_bound (zlen m + 1) 64 ltac:(lia)) as Hm'.
  assert ((56 - zlen (sha_buf s')) mod 64 = (55 - zlen m) mod 64) as Hk.
  { rewrite Hs', Zminus_mod_idemp_r. f_equal. lia. }
  pose proof (Z.mod_pos_bound (55 - zlen m) 64 ltac:(lia)) as Hkb.
  unfold sha1_final, fips_sha1. f_equal. fold s s'.
  assert (sha_total s * 8 mod 2 ^ 64 = 8 * zlen m mod 2 ^ 64) as ->.
  { unfold s. rewrite sha1_update_total. change (sha_total sha1_init) with 0.
    rewrite Z.add_0_l, Zmult_mod_idemp_l. f_equal. lia. }
  assert (absorbed (sha1_pad 64 s') = fold_left feed (m ++ [0x80] ++
            replicate (Z.to_nat ((55 - zlen m) mod 64)) 0) (absorbed sha1_init)) as Hpad.
  { rewrite sha1_pad_absorbed by lia. rewrite Hk, !fold_left_app. unfold s', s.
    rewrite sha1_update_absorbed by (fold s; lia). by rewrite sha1_update_absorbed. }
  assert (zlen (sha_buf (sha1_pad 64 s')) < 64) as Hpb.
  { change (sha_buf (sha1_pad 64 s')) with (absorbed (sha1_pad 64 s')).2. rewrite Hpad.
    unfold absorbed. rewrite feed_buf by done. apply Z.mod_pos_bound. lia. }
  pose proof (sha1_update_absorbed _ (be64_bytes (8 * zlen m mod 2 ^ 64)) Hpb) as H.
  rewrite Hpad, <- fold_left_app, <- !app_assoc in H. fold (fips_pad m) in H.
  unfold absorbed at 2 in H. rewrite (feed_blocks (length (fips_pad m) / 64)) in H.
  - rewrite <- absorbed_state, H. reflexivity.
  - pose proof (fips_pad_length m) as Hp. unfold zlen in *. rewrite Nat2Z.inj_div.
    pose proof (Z.div_mod (Z.of_nat (length (fips_pad m))) 64 ltac:(lia)). lia.
Qed.

(** ** Base64 round trip *)

Definition octet (b : Z) : Prop := 0 <= b < 256.

Lemma bits24 a b c :
  octet b → octet c →
  Z.lor (Z.lor (Z.shiftl a 16) (Z.shiftl b 8)) c = a * 65536 + b * 256 + c.
Proof.
  unfold octet. intros Hb Hc. rewrite !Z.shiftl_mul_pow2 by lia.
  rewrite (lor_add 16 (a * 2 ^ 16) (b * 2 ^ 8)) by (try rewrite Z_mod_mult; lia).
  rewrite (lor_add 8); [lia|lia| |lia].
  replace (a * 2 ^ 16 + b * 2 ^ 8) with ((a * 2 ^ 8 + b) * 2 ^ 8) by lia. apply Z_mod_mult.
Qed.

Lemma sextets a b c d :
  0 <= b < 64 → 0 <= c < 64 → 0 <= d < 64 →
  Z.lor (Z.lor (Z.lor (Z.shiftl a 18) (Z.shiftl b 12)) (Z.shiftl c 6)) d
  = a * 262144 + b * 4096 + c * 64 + d.
Proof.
  intros Hb Hc Hd. rewrite !Z.shiftl_mul_pow2 by lia.
  rewrite (lor_add 18 (a * 2 ^ 18) (b * 2 ^ 12)) by (try rewrite Z_mod_mult; lia).
  rewrite (lor_add 12 (a * 2 ^ 18 + b * 2 ^ 12) (c * 2 ^ 6)); [|lia| |lia].
  2: { replace (a * 2 ^ 18 + b * 2 ^ 12) with ((a * 2 ^ 6 + b) * 2 ^ 12) by lia. apply Z_mod_mult. }
  rewrite (lor_add 6); [lia|lia| |lia].
  replace (a * 2 ^ 18 + b * 2 ^ 12 + c * 2 ^ 6) with ((a * 2 ^ 12 + b * 2 ^ 6 + c) * 2 ^ 6) by lia.
  apply Z_mod_mult.
Qed.

Lemma land_63 v : Z.land v 0x3F = v mod 64.
Proof. change 0x3F with (Z.ones 6). by rewrite Z.land_ones. Qed.

(** The alphabet and [base64_value] are inverse; ['='] is outside it. *)
Lemma b64_char_value v :
  base64_value (b64_char v) = v mod 64 ∧ (b64_char v =? "="%ch) = false.
Proof.
  unfold b64_char. rewrite land_63. pose proof (Z.mod_pos_bound v 64 ltac:(lia)) as H.
  assert (∀ i : nat, (i < 64)%nat →
    (base64_value (byte_at B64_CHARS i) =? Z.of_nat i) && negb (byte_at B64_CHARS i =? "="%ch) = true) as Hall.
  { intros i Hi.
    assert (forallb (λ i, (base64_value (byte_at B64_CHARS i) =? Z.of_nat i)
              && negb (byte_at B64_CHARS i =? "="%ch)) (seq 0 64) = true) as Hc by (by vm_compute).
    rewrite forallb_forall in Hc. apply Hc. apply in_seq. lia. }
  specialize (Hall (Z.to_nat (v mod 64)) ltac:(lia)). apply andb_true_iff in Hall as [H1 H2].
  apply Z.eqb_eq in H1. apply negb_true_iff in H2. split; [|done]. rewrite H1. lia.
Qed.

Lemma base64_group_char last j v cs pad :
  pad <= 0 →
  base64_group last j (b64_char v :: cs) pad
  = match base64_group last (j + 1) cs pad with
    | Some (vs, pad) => Some (v mod 64 :: vs, pad) | None => None end.
Proof.
  intros Hp. cbn [base64_group]. destruct (b64_char_value v) as [Hv ->]. rewrite Hv.
  rewrite (proj2 (Z.ltb_ge 0 pad)) by lia. rewrite (proj2 (Z.ltb_ge (v mod 64) 0)); [done|].
  apply Z.mod_pos_bound. lia.
Qed.

Lemma shiftr_div a n : 0 <= n → Z.shiftr a n = a / 2 ^ n.
Proof. apply Z.shiftr_div_pow2. Qed.

(** The four sextets of a 24-bit number. *)
Lemma sextets_join v :
  0 <= v < 2 ^ 24 →
  Z.lor (Z.lor (Z.lor (Z.shiftl (Z.shiftr v 18 mod 64) 18) (Z.shiftl (Z.shiftr v 12 mod 64) 12))
               (Z.shiftl (Z.shiftr v 6 mod 64) 6)) (v mod 64) = v.
Proof.
  intros Hv. rewrite sextets by (apply Z.mod_pos_bound; lia). rewrite !shiftr_div by lia.
  change (2 ^ 18) with 262144. change (2 ^ 12) with 4096. change (2 ^ 6) with 64.
  Z.to_euclidean_division_equations. lia.
Qed.

Lemma octets_split a b c v :
  octet a → octet b → octet c → v = a * 65536 + b * 256 + c →
  Z.shiftr v 16 mod 256 = a ∧ Z.shiftr v 8 mod 256 = b ∧ v mod 256 = c ∧ 0 <= v < 2 ^ 24.
Proof.
  unfold octet. intros Ha Hb Hc ->. rewrite !shiftr_div by lia.
  change (2 ^ 16) with 65536. change (2 ^ 8) with 256. change (2 ^ 24) with 16777216.
  Z.to_euclidean_division_equations. lia.
Qed.

Lemma base64_decode_loop_groups n x o out_size :
  (length x ≤ n)%nat → Forall octet x → zlen o + zlen x <= out_size →
  base64_decode_loop (base64_groups x) o out_size = Some (o ++ x).
Proof.
  revert x o. induction n as [n IH] using lt_wf_ind. intros x o Hn Hx Hl.
  assert (octet 0) as H0 by (unfold octet; lia).
  destruct x as [|a [|b [|c x]]]; cbn [base64_groups].
  - by rewrite app_nil_r.
  - apply Forall_cons in Hx as [Ha _].
    destruct (octets_split a 0 0 (Z.shiftl a 16) Ha H0 H0) as (E1 & _ & _ & Hr);
      [rewrite Z.shiftl_mul_pow2 by lia; lia|].
    cbn [base64_decode_loop]. rewrite !base64_group_char by lia. cbn [base64_group].
    change ("="%ch =? "="%ch) with true. cbn iota. change (zlen (@nil Z) =? 0) with true.
    change (0 + 1 + 1 <? 2) with false. change (0 + 1 + 1 + 1 <? 2) with false. cbn [negb orb].
    change (3 - (0 + 1 + 1)) with 1. cbn zeta. rewrite zlen_cons, zlen_nil in Hl. case_if; breflect; [lia|].
    change (1 <? 1) with false. change (2 <? 1) with false. cbn iota. cbn [app].
    replace 0 with (Z.shiftr (Z.shiftl a 16) 6 mod 64) at 1.
    2: { rewrite Z.shiftl_mul_pow2, shiftr_div by lia.
         replace (a * 2 ^ 16) with (a * 2 ^ 4 * 2 ^ 6 * 2 ^ 6) by lia. rewrite Z_div_mult by lia. apply Z_mod_mult. }
    replace 0 with (Z.shiftl a 16 mod 64) at 1.
    2: { rewrite Z.shiftl_mul_pow2 by lia. replace (a * 2 ^ 16) with (a * 2 ^ 10 * 64) by lia. apply Z_mod_mult. }
    rewrite sextets_join by done. by rewrite E1.
  - apply Forall_cons in Hx as [Ha Hx]. apply Forall_cons in Hx as [Hb _].
    destruct (octets_split a b 0 (Z.lor (Z.shiftl a 16) (Z.shiftl b 8)) Ha Hb H0) as (E1 & E2 & _ & Hr).
    { pose proof (bits24 a b 0 Hb H0) as H. rewrite Z.lor_0_r in H. exact H. }
    cbn [base64_decode_loop]. rewrite !base64_group_char by lia. cbn [base64_group].
    change ("="%ch =? "="%ch) with true. cbn iota. change (zlen (@nil Z) =? 0) with true.
    change (0 + 1 + 1 + 1 <? 2) with false. cbn [negb orb].
    change (3 - (0 + 1)) with 2. cbn zeta. rewrite !zlen_cons, zlen_nil in Hl. case_if; breflect; [lia|].
    change (1 <? 2) with true. change (2 <? 2) with false. cbn iota. cbn [app].
    set (v := Z.lor (Z.shiftl a 16) (Z.shiftl b 8)) in *.
    assert (v mod 64 = 0) as Hv.
    { pose proof (bits24 a b 0 Hb H0) as H. rewrite Z.lor_0_r in H. fold v in H. rewrite H.
      replace (a * 65536 + b * 256 + 0) with ((a * 1024 + b * 4) * 64) by lia. apply Z_mod_mult. }
    pose proof (sextets_join v Hr) as Hj. rewrite Hv in Hj. by rewrite Hj, E1, E2.
  - apply Forall_cons in Hx as [Ha Hx]. apply Forall_cons in Hx as [Hb Hx]. apply Forall_cons in Hx as [Hc Hx].
    destruct (octets_split a b c _ Ha Hb Hc (bits24 a b c Hb Hc)) as (E1 & E2 & E3 & Hr).
    cbn [base64_decode_loop]. rewrite !base64_group_char by lia. cbn [base64_group].
    change (3 - 0) with 3. cbn zeta. rewrite !zlen_cons in Hl. pose proof (zlen_nonneg x).
    case_if; breflect; [lia|]. change (1 <? 3) with true. change (2 <? 3) with true. cbn iota. cbn [app].
    rewrite sextets_join by done. rewrite E1, E2, E3.
    destruct n as [|n]; [simpl in Hn; lia|]. rewrite (IH n); [by rewrite <- app_assoc|lia|simpl in Hn; lia|done|].
    rewrite zlen_app. change (zlen [a; b; c]) with 3. lia.
Qed.

Lemma base64_groups_length n x :
  (length x ≤ n)%nat → zlen (base64_groups x) = (zlen x + 2) / 3 * 4.
Proof.
  revert x. induction n as [n IH] using lt_wf_ind. intros x Hn.
  destruct x as [|a [|b [|c x]]]; cbn [base64_groups]; [done..|].
  destruct n as [|n]; [simpl in Hn; lia|]. rewrite !zlen_cons, (IH n) by (simpl in Hn; lia).
  replace (1 + (1 + (1 + zlen x)) + 2) with (zlen x + 2 + 1 * 3) by lia. rewrite Z_div_plus by lia. lia.
Qed.

(** What [base64_encode] writes is read back by [base64_decode]. *)
Lemma base64_round_trip x size out :
  Forall octet x → x ≠ [] → base64_encode x size = Some out → base64_decode out (zlen x) = Some x.
Proof.
  intros Hx Hne He. unfold base64_encode in He. case_if_in He; [done|]. injection He as <-.
  pose proof (base64_groups_length (length x) x ltac:(lia)) as Hl.
  assert (1 <= zlen x) as Hx1 by (destruct x; [done|rewrite zlen_cons; pose proof (zlen_nonneg x); lia]).
  assert (1 <= (zlen x + 2) / 3) as Hd by (apply Z.div_le_lower_bound; lia).
  unfold base64_decode. rewrite Hl, Z_mod_mult. change (0 =? 0) with true. cbn [negb]. rewrite orb_false_r.
  rewrite (proj2 (Z.eqb_neq _ 0)) by lia.
  by rewrite (base64_decode_loop_groups (length x)) by (rewrite ?zlen_nil; done || lia).
Qed.

Lemma sha1_digest_octets st : Forall octet (sha1_digest st) ∧ zlen (sha1_digest st) = 20.
Proof.
  split; [|done]. unfold sha1_digest, be32_bytes.
  repeat (apply Forall_app; split); repeat (apply Forall_cons; split); try apply Forall_nil; try done;
    apply Z.mod_pos_bound; lia.
Qed.

(** The accept key is 28 Base64 characters that decode to the FIPS 180 hash of the
    client's key followed by the protocol's GUID. *)
Lemma ws_accept_key_spec key out_size :
  29 <= out_size →
  ∃ out, ws_accept_key key out_size = Some out ∧ zlen out = 28 ∧
    base64_decode out 20 = Some (fips_sha1 (key ++ WS_GUID)).
Proof.
  intros Ho. unfold ws_accept_key. case_if; breflect; [lia|].
  rewrite sha1_update_app by done. rewrite sha1_final_fips.
  set (d := fips_sha1 (key ++ WS_GUID)).
  assert (Forall octet d ∧ zlen d = 20) as [Hd Hl] by apply sha1_digest_octets.
  pose proof (base64_groups_length (length d) d ltac:(lia)) as Hg. rewrite Hl in Hg.
  change ((20 + 2) / 3 * 4) with 28 in Hg.
  assert (base64_encode d out_size = Some (base64_groups d)) as He.
  { unfold base64_encode. rewrite Hl. change ((20 + 2) / 3 * 4 + 1) with 29. case_if; breflect; [lia|done]. }
  rewrite He, Hg. change (28 =? 28) with true. cbn iota. exists (base64_groups d).
  split; [done|]. split; [done|]. rewrite <- Hl. eapply base64_round_trip; [done| |exact He].
  intros E. rewrite E in Hl. done.
Qed.
