(* ===== verification/WsSession.v ===== *)
(** * Websocket sessions

    The frame writer, the parse state machine and the session API of
    [src/c_http_ws.c], as the thread that runs the websocket handler executes
    them; [WsThreads] shows that other threads do not come in between. *)

From S2P Require Import Prelude CLib World Net.
#[local] Open Scope Z_scope.

Definition WS_OP_CONT : Z := 0.
Definition WS_OP_TEXT : Z := 1.
Definition WS_OP_BINARY : Z := 2.
Definition WS_OP_CLOSE : Z := 8.
Definition WS_OP_PING : Z := 9.
Definition WS_OP_PONG : Z := 10.
Definition WS_RECV_BUFFER : Z := 4096.
Definition WS_RECV_BUFFER_MAX : Z := 64 * 1024.
Definition HTTP_WS_POLL_MS : Z := 250.
Definition HTTP_WS_CLOSE_WAIT_MS : Z := 1000.

Inductive WsParseState :=
  | WS_NEED_HEADER | WS_NEED_LEN16 | WS_NEED_LEN64 | WS_NEED_MASK | WS_NEED_PAYLOAD.

Inductive WsParseResult :=
  | WS_PARSE_CONTINUE | WS_PARSE_MESSAGE | WS_PARSE_CLOSED | WS_PARSE_PROTOCOL | WS_PARSE_IO_ERROR.

Inductive HttpWsMessageType := HTTP_WS_TEXT | HTTP_WS_BINARY.
Inductive HttpWsResult := HTTP_WS_OK | HTTP_WS_CLOSED | HTTP_WS_ERROR.

#[export] Instance WsParseState_eq_dec : EqDecision WsParseState.
Proof. solve_decision. Defined.

(** [struct HttpWsMessage]: the type and the [len] bytes of [data]. *)
Record HttpWsMessage := { wm_type : HttpWsMessageType; wm_data : bytes }.

(** [struct HttpWs].  [ws_in] is [in\[0..in_len)], [ws_ctrl] is
    [ctrl\[0..ctrl_len)], [ws_msg] the [msg_len] bytes assembled, [None] while
    the pointer is NULL, [ws_data] the user's pointer.  [ws_overrun] is no field of the code: it records that a
    write went behind the end of [msg]. *)
Record HttpWs := {
  ws_max_message : Z;
  ws_close_sent : bool; ws_close_received : bool; ws_dead : bool; ws_io_error : bool;
  ws_close_code : Z;
  ws_in : bytes; ws_in_cap : Z; ws_pos : Z;
  ws_state : WsParseState; ws_fin : bool; ws_opcode : Z; ws_masked : bool; ws_mask : bytes;
  ws_payload_len : Z; ws_payload_done : Z;
  ws_ctrl : bytes;
  ws_msg_active : bool; ws_msg_opcode : Z; ws_msg : option bytes; ws_msg_cap : Z;
  ws_cur : option HttpWsMessage;
  ws_overrun : bool;
  ws_data : Z;
}.

Definition set_ws_max_message (x : Z) (w : HttpWs) : HttpWs := {| ws_max_message := x; ws_close_sent
  := ws_close_sent w; ws_close_received := ws_close_received w; ws_dead := ws_dead w; ws_io_error :=
  ws_io_error w; ws_close_code := ws_close_code w; ws_in := ws_in w; ws_in_cap := ws_in_cap w;
  ws_pos := ws_pos w; ws_state := ws_state w; ws_fin := ws_fin w; ws_opcode := ws_opcode w;
  ws_masked := ws_masked w; ws_mask := ws_mask w; ws_payload_len := ws_payload_len w;
  ws_payload_done := ws_payload_done w; ws_ctrl := ws_ctrl w; ws_msg_active := ws_msg_active w;
  ws_msg_opcode := ws_msg_opcode w; ws_msg := ws_msg w; ws_msg_cap := ws_msg_cap w; ws_cur := ws_cur
  w; ws_overrun := ws_overrun w;
  ws_data := ws_data w |}.
Definition set_ws_close_sent (x : bool) (w : HttpWs) : HttpWs := {| ws_max_message := ws_max_message
  w; ws_close_sent := x; ws_close_received := ws_close_received w; ws_dead := ws_dead w; ws_io_error
  := ws_io_error w; ws_close_code := ws_close_code w; ws_in := ws_in w; ws_in_cap := ws_in_cap w;
  ws_pos := ws_pos w; ws_state := ws_state w; ws_fin := ws_fin w; ws_opcode := ws_opcode w;
  ws_masked := ws_masked w; ws_mask := ws_mask w; ws_payload_len := ws_payload_len w;
  ws_payload_done := ws_payload_done w; ws_ctrl := ws_ctrl w; ws_msg_active := ws_msg_active w;
  ws_msg_opcode := ws_msg_opcode w; ws_msg := ws_msg w; ws_msg_cap := ws_msg_cap w; ws_cur := ws_cur
  w; ws_overrun := ws_overrun w;
  ws_data := ws_data w |}.
Definition set_ws_close_received (x : bool) (w : HttpWs) : HttpWs := {| ws_max_message :=
  ws_max_message w; ws_close_sent := ws_close_sent w; ws_close_received := x; ws_dead := ws_dead w;
  ws_io_error := ws_io_error w; ws_close_code := ws_close_code w; ws_in := ws_in w; ws_in_cap :=
  ws_in_cap w; ws_pos := ws_pos w; ws_state := ws_state w; ws_fin := ws_fin w; ws_opcode :=
  ws_opcode w; ws_masked := ws_masked w; ws_mask := ws_mask w; ws_payload_len := ws_payload_len w;
  ws_payload_done := ws_payload_done w; ws_ctrl := ws_ctrl w; ws_msg_active := ws_msg_active w;
  ws_msg_opcode := ws_msg_opcode w; ws_msg := ws_msg w; ws_msg_cap := ws_msg_cap w; ws_cur := ws_cur
  w; ws_overrun := ws_overrun w;
  ws_data := ws_data w |}.
Definition set_ws_dead (x : bool) (w : HttpWs) : HttpWs := {| ws_max_message := ws_max_message w;
  ws_close_sent := ws_close_sent w; ws_close_received := ws_close_received w; ws_dead := x;
  ws_io_error := ws_io_error w; ws_close_code := ws_close_code w; ws_in := ws_in w; ws_in_cap :=
  ws_in_cap w; ws_pos := ws_pos w; ws_state := ws_state w; ws_fin := ws_fin w; ws_opcode :=
  ws_opcode w; ws_masked := ws_masked w; ws_mask := ws_mask w; ws_payload_len := ws_payload_len w;
  ws_payload_done := ws_payload_done w; ws_ctrl := ws_ctrl w; ws_msg_active := ws_msg_active w;
  ws_msg_opcode := ws_msg_opcode w; ws_msg := ws_msg w; ws_msg_cap := ws_msg_cap w; ws_cur := ws_cur
  w; ws_overrun := ws_overrun w;
  ws_data := ws_data w |}.
Definition set_ws_io_error (x : bool) (w : HttpWs) : HttpWs := {| ws_max_message := ws_max_message
  w; ws_close_sent := ws_close_sent w; ws_close_received := ws_close_received w; ws_dead := ws_dead
  w; ws_io_error := x; ws_close_code := ws_close_code w; ws_in := ws_in w; ws_in_cap := ws_in_cap w;
  ws_pos := ws_pos w; ws_state := ws_state w; ws_fin := ws_fin w; ws_opcode := ws_opcode w;
  ws_masked := ws_masked w; ws_mask := ws_mask w; ws_payload_len := ws_payload_len w;
  ws_payload_done := ws_payload_done w; ws_ctrl := ws_ctrl w; ws_msg_active := ws_msg_active w;
  ws_msg_opcode := ws_msg_opcode w; ws_msg := ws_msg w; ws_msg_cap := ws_msg_cap w; ws_cur := ws_cur
  w; ws_overrun := ws_overrun w;
  ws_data := ws_data w |}.
Definition set_ws_close_code (x : Z) (w : HttpWs) : HttpWs := {| ws_max_message := ws_max_message w;
  ws_close_sent := ws_close_sent w; ws_close_received := ws_close_received w; ws_dead := ws_dead w;
  ws_io_error := ws_io_error w; ws_close_code := x; ws_in := ws_in w; ws_in_cap := ws_in_cap w;
  ws_pos := ws_pos w; ws_state := ws_state w; ws_fin := ws_fin w; ws_opcode := ws_opcode w;
  ws_masked := ws_masked w; ws_mask := ws_mask w; ws_payload_len := ws_payload_len w;
  ws_payload_done := ws_payload_done w; ws_ctrl := ws_ctrl w; ws_msg_active := ws_msg_active w;
  ws_msg_opcode := ws_msg_opcode w; ws_msg := ws_msg w; ws_msg_cap := ws_msg_cap w; ws_cur := ws_cur
  w; ws_overrun := ws_overrun w;
  ws_data := ws_data w |}.
Definition set_ws_in (x : bytes) (w : HttpWs) : HttpWs := {| ws_max_message := ws_max_message w;
  ws_close_sent := ws_close_sent w; ws_close_received := ws_close_received w; ws_dead := ws_dead w;
  ws_io_error := ws_io_error w; ws_close_code := ws_close_code w; ws_in := x; ws_in_cap := ws_in_cap
  w; ws_pos := ws_pos w; ws_state := ws_state w; ws_fin := ws_fin w; ws_opcode := ws_opcode w;
  ws_masked := ws_masked w; ws_mask := ws_mask w; ws_payload_len := ws_payload_len w;
  ws_payload_done := ws_payload_done w; ws_ctrl := ws_ctrl w; ws_msg_active := ws_msg_active w;
  ws_msg_opcode := ws_msg_opcode w; ws_msg := ws_msg w; ws_msg_cap := ws_msg_cap w; ws_cur := ws_cur
  w; ws_overrun := ws_overrun w;
  ws_data := ws_data w |}.
Definition set_ws_in_cap (x : Z) (w : HttpWs) : HttpWs := {| ws_max_message := ws_max_message w;
  ws_close_sent := ws_close_sent w; ws_close_received := ws_close_received w; ws_dead := ws_dead w;
  ws_io_error := ws_io_error w; ws_close_code := ws_close_code w; ws_in := ws_in w; ws_in_cap := x;
  ws_pos := ws_pos w; ws_state := ws_state w; ws_fin := ws_fin w; ws_opcode := ws_opcode w;
  ws_masked := ws_masked w; ws_mask := ws_mask w; ws_payload_len := ws_payload_len w;
  ws_payload_done := ws_payload_done w; ws_ctrl := ws_ctrl w; ws_msg_active := ws_msg_active w;
  ws_msg_opcode := ws_msg_opcode w; ws_msg := ws_msg w; ws_msg_cap := ws_msg_cap w; ws_cur := ws_cur
  w; ws_overrun := ws_overrun w;
  ws_data := ws_data w |}.
Definition set_ws_pos (x : Z) (w : HttpWs) : HttpWs := {| ws_max_message := ws_max_message w;
  ws_close_sent := ws_close_sent w; ws_close_received := ws_close_received w; ws_dead := ws_dead w;
  ws_io_error := ws_io_error w; ws_close_code := ws_close_code w; ws_in := ws_in w; ws_in_cap :=
  ws_in_cap w; ws_pos := x; ws_state := ws_state w; ws_fin := ws_fin w; ws_opcode := ws_opcode w;
  ws_masked := ws_masked w; ws_mask := ws_mask w; ws_payload_len := ws_payload_len w;
  ws_payload_done := ws_payload_done w; ws_ctrl := ws_ctrl w; ws_msg_active := ws_msg_active w;
  ws_msg_opcode := ws_msg_opcode w; ws_msg := ws_msg w; ws_msg_cap := ws_msg_cap w; ws_cur := ws_cur
  w; ws_overrun := ws_overrun w;
  ws_data := ws_data w |}.
Definition set_ws_state (x : WsParseState) (w : HttpWs) : HttpWs := {| ws_max_message :=
  ws_max_message w; ws_close_sent := ws_close_sent w; ws_close_received := ws_close_received w;
  ws_dead := ws_dead w; ws_io_error := ws_io_error w; ws_close_code := ws_close_code w; ws_in :=
  ws_in w; ws_in_cap := ws_in_cap w; ws_pos := ws_pos w; ws_state := x; ws_fin := ws_fin w;
  ws_opcode := ws_opcode w; ws_masked := ws_masked w; ws_mask := ws_mask w; ws_payload_len :=
  ws_payload_len w; ws_payload_done := ws_payload_done w; ws_ctrl := ws_ctrl w; ws_msg_active :=
  ws_msg_active w; ws_msg_opcode := ws_msg_opcode w; ws_msg := ws_msg w; ws_msg_cap := ws_msg_cap w;
  ws_cur := ws_cur w; ws_overrun := ws_overrun w;
  ws_data := ws_data w |}.
Definition set_ws_fin (x : bool) (w : HttpWs) : HttpWs := {| ws_max_message := ws_max_message w;
  ws_close_sent := ws_close_sent w; ws_close_received := ws_close_received w; ws_dead := ws_dead w;
  ws_io_error := ws_io_error w; ws_close_code := ws_close_code w; ws_in := ws_in w; ws_in_cap :=
  ws_in_cap w; ws_pos := ws_pos w; ws_state := ws_state w; ws_fin := x; ws_opcode := ws_opcode w;
  ws_masked := ws_masked w; ws_mask := ws_mask w; ws_payload_len := ws_payload_len w;
  ws_payload_done := ws_payload_done w; ws_ctrl := ws_ctrl w; ws_msg_active := ws_msg_active w;
  ws_msg_opcode := ws_msg_opcode w; ws_msg := ws_msg w; ws_msg_cap := ws_msg_cap w; ws_cur := ws_cur
  w; ws_overrun := ws_overrun w;
  ws_data := ws_data w |}.
Definition set_ws_opcode (x : Z) (w : HttpWs) : HttpWs := {| ws_max_message := ws_max_message w;
  ws_close_sent := ws_close_sent w; ws_close_received := ws_close_received w; ws_dead := ws_dead w;
  ws_io_error := ws_io_error w; ws_close_code := ws_close_code w; ws_in := ws_in w; ws_in_cap :=
  ws_in_cap w; ws_pos := ws_pos w; ws_state := ws_state w; ws_fin := ws_fin w; ws_opcode := x;
  ws_masked := ws_masked w; ws_mask := ws_mask w; ws_payload_len := ws_payload_len w;
  ws_payload_done := ws_payload_done w; ws_ctrl := ws_ctrl w; ws_msg_active := ws_msg_active w;
  ws_msg_opcode := ws_msg_opcode w; ws_msg := ws_msg w; ws_msg_cap := ws_msg_cap w; ws_cur := ws_cur
  w; ws_overrun := ws_overrun w;
  ws_data := ws_data w |}.
Definition set_ws_masked (x : bool) (w : HttpWs) : HttpWs := {| ws_max_message := ws_max_message w;
  ws_close_sent := ws_close_sent w; ws_close_received := ws_close_received w; ws_dead := ws_dead w;
  ws_io_error := ws_io_error w; ws_close_code := ws_close_code w; ws_in := ws_in w; ws_in_cap :=
  ws_in_cap w; ws_pos := ws_pos w; ws_state := ws_state w; ws_fin := ws_fin w; ws_opcode :=
  ws_opcode w; ws_masked := x; ws_mask := ws_mask w; ws_payload_len := ws_payload_len w;
  ws_payload_done := ws_payload_done w; ws_ctrl := ws_ctrl w; ws_msg_active := ws_msg_active w;
  ws_msg_opcode := ws_msg_opcode w; ws_msg := ws_msg w; ws_msg_cap := ws_msg_cap w; ws_cur := ws_cur
  w; ws_overrun := ws_overrun w;
  ws_data := ws_data w |}.
Definition set_ws_mask (x : bytes) (w : HttpWs) : HttpWs := {| ws_max_message := ws_max_message w;
  ws_close_sent := ws_close_sent w; ws_close_received := ws_close_received w; ws_dead := ws_dead w;
  ws_io_error := ws_io_error w; ws_close_code := ws_close_code w; ws_in := ws_in w; ws_in_cap :=
  ws_in_cap w; ws_pos := ws_pos w; ws_state := ws_state w; ws_fin := ws_fin w; ws_opcode :=
  ws_opcode w; ws_masked := ws_masked w; ws_mask := x; ws_payload_len := ws_payload_len w;
  ws_payload_done := ws_payload_done w; ws_ctrl := ws_ctrl w; ws_msg_active := ws_msg_active w;
  ws_msg_opcode := ws_msg_opcode w; ws_msg := ws_msg w; ws_msg_cap := ws_msg_cap w; ws_cur := ws_cur
  w; ws_overrun := ws_overrun w;
  ws_data := ws_data w |}.
Definition set_ws_payload_len (x : Z) (w : HttpWs) : HttpWs := {| ws_max_message := ws_max_message
  w; ws_close_sent := ws_close_sent w; ws_close_received := ws_close_received w; ws_dead := ws_dead
  w; ws_io_error := ws_io_error w; ws_close_code := ws_close_code w; ws_in := ws_in w; ws_in_cap :=
  ws_in_cap w; ws_pos := ws_pos w; ws_state := ws_state w; ws_fin := ws_fin w; ws_opcode :=
  ws_opcode w; ws_masked := ws_masked w; ws_mask := ws_mask w; ws_payload_len := x; ws_payload_done
  := ws_payload_done w; ws_ctrl := ws_ctrl w; ws_msg_active := ws_msg_active w; ws_msg_opcode :=
  ws_msg_opcode w; ws_msg := ws_msg w; ws_msg_cap := ws_msg_cap w; ws_cur := ws_cur w; ws_overrun :=
  ws_overrun w;
  ws_data := ws_data w |}.
Definition set_ws_payload_done (x : Z) (w : HttpWs) : HttpWs := {| ws_max_message := ws_max_message
  w; ws_close_sent := ws_close_sent w; ws_close_received := ws_close_received w; ws_dead := ws_dead
  w; ws_io_error := ws_io_error w; ws_close_code := ws_close_code w; ws_in := ws_in w; ws_in_cap :=
  ws_in_cap w; ws_pos := ws_pos w; ws_state := ws_state w; ws_fin := ws_fin w; ws_opcode :=
  ws_opcode w; ws_masked := ws_masked w; ws_mask := ws_mask w; ws_payload_len := ws_payload_len w;
  ws_payload_done := x; ws_ctrl := ws_ctrl w; ws_msg_active := ws_msg_active w; ws_msg_opcode :=
  ws_msg_opcode w; ws_msg := ws_msg w; ws_msg_cap := ws_msg_cap w; ws_cur := ws_cur w; ws_overrun :=
  ws_overrun w;
  ws_data := ws_data w |}.
Definition set_ws_ctrl (x : bytes) (w : HttpWs) : HttpWs := {| ws_max_message := ws_max_message w;
  ws_close_sent := ws_close_sent w; ws_close_received := ws_close_received w; ws_dead := ws_dead w;
  ws_io_error := ws_io_error w; ws_close_code := ws_close_code w; ws_in := ws_in w; ws_in_cap :=
  ws_in_cap w; ws_pos := ws_pos w; ws_state := ws_state w; ws_fin := ws_fin w; ws_opcode :=
  ws_opcode w; ws_masked := ws_masked w; ws_mask := ws_mask w; ws_payload_len := ws_payload_len w;
  ws_payload_done := ws_payload_done w; ws_ctrl := x; ws_msg_active := ws_msg_active w;
  ws_msg_opcode := ws_msg_opcode w; ws_msg := ws_msg w; ws_msg_cap := ws_msg_cap w; ws_cur := ws_cur
  w; ws_overrun := ws_overrun w;
  ws_data := ws_data w |}.
Definition set_ws_msg_active (x : bool) (w : HttpWs) : HttpWs := {| ws_max_message := ws_max_message
  w; ws_close_sent := ws_close_sent w; ws_close_received := ws_close_received w; ws_dead := ws_dead
  w; ws_io_error := ws_io_error w; ws_close_code := ws_close_code w; ws_in := ws_in w; ws_in_cap :=
  ws_in_cap w; ws_pos := ws_pos w; ws_state := ws_state w; ws_fin := ws_fin w; ws_opcode :=
  ws_opcode w; ws_masked := ws_masked w; ws_mask := ws_mask w; ws_payload_len := ws_payload_len w;
  ws_payload_done := ws_payload_done w; ws_ctrl := ws_ctrl w; ws_msg_active := x; ws_msg_opcode :=
  ws_msg_opcode w; ws_msg := ws_msg w; ws_msg_cap := ws_msg_cap w; ws_cur := ws_cur w; ws_overrun :=
  ws_overrun w;
  ws_data := ws_data w |}.
Definition set_ws_msg_opcode (x : Z) (w : HttpWs) : HttpWs := {| ws_max_message := ws_max_message w;
  ws_close_sent := ws_close_sent w; ws_close_received := ws_close_received w; ws_dead := ws_dead w;
  ws_io_error := ws_io_error w; ws_close_code := ws_close_code w; ws_in := ws_in w; ws_in_cap :=
  ws_in_cap w; ws_pos := ws_pos w; ws_state := ws_state w; ws_fin := ws_fin w; ws_opcode :=
  ws_opcode w; ws_masked := ws_masked w; ws_mask := ws_mask w; ws_payload_len := ws_payload_len w;
  ws_payload_done := ws_payload_done w; ws_ctrl := ws_ctrl w; ws_msg_active := ws_msg_active w;
  ws_msg_opcode := x; ws_msg := ws_msg w; ws_msg_cap := ws_msg_cap w; ws_cur := ws_cur w; ws_overrun := ws_overrun w;
  ws_data := ws_data w |}.
Definition set_ws_msg (x : option bytes) (w : HttpWs) : HttpWs := {| ws_max_message :=
  ws_max_message w; ws_close_sent := ws_close_sent w; ws_close_received := ws_close_received w;
  ws_dead := ws_dead w; ws_io_error := ws_io_error w; ws_close_code := ws_close_code w; ws_in :=
  ws_in w; ws_in_cap := ws_in_cap w; ws_pos := ws_pos w; ws_state := ws_state w; ws_fin := ws_fin w;
  ws_opcode := ws_opcode w; ws_masked := ws_masked w; ws_mask := ws_mask w; ws_payload_len :=
  ws_payload_len w; ws_payload_done := ws_payload_done w; ws_ctrl := ws_ctrl w; ws_msg_active :=
  ws_msg_active w; ws_msg_opcode := ws_msg_opcode w; ws_msg := x; ws_msg_cap := ws_msg_cap w; ws_cur
  := ws_cur w; ws_overrun := ws_overrun w;
  ws_data := ws_data w |}.
Definition set_ws_msg_cap (x : Z) (w : HttpWs) : HttpWs := {| ws_max_message := ws_max_message w;
  ws_close_sent := ws_close_sent w; ws_close_received := ws_close_received w; ws_dead := ws_dead w;
  ws_io_error := ws_io_error w; ws_close_code := ws_close_code w; ws_in := ws_in w; ws_in_cap :=
  ws_in_cap w; ws_pos := ws_pos w; ws_state := ws_state w; ws_fin := ws_fin w; ws_opcode :=
  ws_opcode w; ws_masked := ws_masked w; ws_mask := ws_mask w; ws_payload_len := ws_payload_len w;
  ws_payload_done := ws_payload_done w; ws_ctrl := ws_ctrl w; ws_msg_active := ws_msg_active w;
  ws_msg_opcode := ws_msg_opcode w; ws_msg := ws_msg w; ws_msg_cap := x; ws_cur := ws_cur w;
  ws_overrun := ws_overrun w;
  ws_data := ws_data w |}.
Definition set_ws_cur (x : option HttpWsMessage) (w : HttpWs) : HttpWs := {| ws_max_message :=
  ws_max_message w; ws_close_sent := ws_close_sent w; ws_close_received := ws_close_received w;
  ws_dead := ws_dead w; ws_io_error := ws_io_error w; ws_close_code := ws_close_code w; ws_in :=
  ws_in w; ws_in_cap := ws_in_cap w; ws_pos := ws_pos w; ws_state := ws_state w; ws_fin := ws_fin w;
  ws_opcode := ws_opcode w; ws_masked := ws_masked w; ws_mask := ws_mask w; ws_payload_len :=
  ws_payload_len w; ws_payload_done := ws_payload_done w; ws_ctrl := ws_ctrl w; ws_msg_active :=
  ws_msg_active w; ws_msg_opcode := ws_msg_opcode w; ws_msg := ws_msg w; ws_msg_cap := ws_msg_cap w;
  ws_cur := x; ws_overrun := ws_overrun w;
  ws_data := ws_data w |}.
Definition set_ws_overrun (x : bool) (w : HttpWs) : HttpWs := {| ws_max_message := ws_max_message w;
  ws_close_sent := ws_close_sent w; ws_close_received := ws_close_received w; ws_dead := ws_dead w;
  ws_io_error := ws_io_error w; ws_close_code := ws_close_code w; ws_in := ws_in w; ws_in_cap :=
  ws_in_cap w; ws_pos := ws_pos w; ws_state := ws_state w; ws_fin := ws_fin w; ws_opcode :=
  ws_opcode w; ws_masked := ws_masked w; ws_mask := ws_mask w; ws_payload_len := ws_payload_len w;
  ws_payload_done := ws_payload_done w; ws_ctrl := ws_ctrl w; ws_msg_active := ws_msg_active w;
  ws_msg_opcode := ws_msg_opcode w; ws_msg := ws_msg w; ws_msg_cap := ws_msg_cap w; ws_cur := ws_cur
  w; ws_overrun := x; ws_data := ws_data w |}.

Definition set_ws_data (x : Z) (w : HttpWs) : HttpWs := {| ws_max_message := ws_max_message w;
  ws_close_sent := ws_close_sent w; ws_close_received := ws_close_received w; ws_dead := ws_dead w;
  ws_io_error := ws_io_error w; ws_close_code := ws_close_code w; ws_in := ws_in w; ws_in_cap :=
  ws_in_cap w; ws_pos := ws_pos w; ws_state := ws_state w; ws_fin := ws_fin w; ws_opcode :=
  ws_opcode w; ws_masked := ws_masked w; ws_mask := ws_mask w; ws_payload_len := ws_payload_len w;
  ws_payload_done := ws_payload_done w; ws_ctrl := ws_ctrl w; ws_msg_active := ws_msg_active w;
  ws_msg_opcode := ws_msg_opcode w; ws_msg := ws_msg w; ws_msg_cap := ws_msg_cap w; ws_cur := ws_cur
  w; ws_overrun := ws_overrun w; ws_data := x |}.

Definition ws_msg_len (ws : HttpWs) : Z := zlen (default [] (ws_msg ws)).
Definition ws_avail (ws : HttpWs) : Z := zlen (ws_in ws) - ws_pos ws.

(** ** Sending *)

(** The same loop as [send_all]. *)
Definition ws_send_raw (data : bytes) : M Z := send_all data.

Definition ws_mark_dead (ws : HttpWs) (close_code : Z) (io_error : bool) : HttpWs :=
  let ws := if close_code =? 0 then ws else set_ws_close_code close_code ws in
  let ws := if io_error then set_ws_io_error true ws else ws in
  set_ws_dead true ws.

(** The 2, 4 or 10 bytes in front of a payload of [len] bytes. *)
Definition frame_header (opcode len : Z) : bytes :=
  if len <=? 125 then [Z.lor 0x80 opcode; len]
  else if len <=? 0xFFFF then [Z.lor 0x80 opcode; 126; Z.shiftr len 8 mod 256; len mod 256]
  else [Z.lor 0x80 opcode; 127]
         ++ map (λ i, Z.shiftr len (56 - 8 * Z.of_nat i) mod 256) (seq 0 8).

Definition ws_send_frame_locked (ws : HttpWs) (opcode : Z) (payload : bytes) : M (Z * HttpWs) :=
  rc ← ws_send_raw (frame_header opcode (zlen payload));
  if negb (rc =? 0) then mret (-1, set_ws_io_error true (set_ws_dead true ws))
  else
    rc ← (if 0 <? zlen payload then ws_send_raw payload else mret 0);
    if negb (rc =? 0) then mret (-1, set_ws_io_error true (set_ws_dead true ws))
    else mret (0, ws).

Definition ws_send_frame (ws : HttpWs) (opcode : Z) (payload : bytes) : M (Z * HttpWs) :=
  if ws_dead ws then mret (-1, ws) else ws_send_frame_locked ws opcode payload.

Definition close_payload (code : Z) (reason : option bytes) : bytes :=
  if code =? 0 then []
  else [Z.shiftr code 8 mod 256; code mod 256]
         ++ match reason with Some reason => ztake 123 reason | None => [] end.

Definition ws_send_close (ws : HttpWs) (code : Z) (reason : option bytes) : M (Z * HttpWs) :=
  '(rc, ws) ← (if ws_dead ws then mret (-1, ws)
               else
                 '(rc, ws) ← ws_send_frame_locked ws WS_OP_CLOSE (close_payload code reason);
                 mret (rc, if negb (ws_close_sent ws) && negb (code =? 0)
                           then set_ws_close_code code ws else ws));
  mret (rc, set_ws_close_sent true ws).

(** ** The parser *)

Definition ws_compact (ws : HttpWs) : HttpWs :=
  if ws_pos ws =? 0 then ws else set_ws_pos 0 (set_ws_in (zdrop (ws_pos ws) (ws_in ws)) ws).

Definition ws_protocol_violation (ws : HttpWs) (code : Z) : M (WsParseResult * HttpWs) :=
  '(_, ws) ← ws_send_close ws code (Some []);
  mret (WS_PARSE_PROTOCOL, ws_mark_dead ws 0 false).

(** Doubles [cap] until [need + 1] fits; 64 rounds reach every [size_t]. *)
Fixpoint grow_cap (fuel : nat) (cap need : Z) : Z :=
  match fuel with
  | O => cap
  | S fuel =>
      if cap <? need + 1 then
        if SIZE_MAX / 2 <? cap then need + 1 else grow_cap fuel (cap * 2) need
      else cap
  end.

Definition ws_msg_reserve (ws : HttpWs) (need : Z) : M (bool * HttpWs) :=
  if need <=? ws_msg_cap ws then mret (true, ws)
  else if SIZE_MAX - 1 <? need then mret (false, ws)
  else
    let new_cap := grow_cap 64 (if ws_msg_cap ws =? 0 then 256 else ws_msg_cap ws) need in
    ok ← malloc;
    if negb ok then mret (false, ws)
    else mret (true, set_ws_msg_cap new_cap (set_ws_msg (Some (default [] (ws_msg ws))) ws)).

(** [p\[i\] ^= mask\[(done + i) % 4\]] *)
Fixpoint unmask (mask : bytes) (i : Z) (p : bytes) : bytes :=
  match p with
  | [] => []
  | b :: p => Z.lxor b (default 0 (mask !! Z.to_nat (i mod 4))) :: unmask mask (i + 1) p
  end.

(** The chunk, and the session with the cursors behind it. *)
Definition ws_unmask_chunk (ws : HttpWs) : bytes * HttpWs :=
  let chunk := Z.min (ws_payload_len ws - ws_payload_done ws) (ws_avail ws) in
  let plain := unmask (ws_mask ws) (ws_payload_done ws) (ztake chunk (zdrop (ws_pos ws) (ws_in ws))) in
  let buf := ztake (ws_pos ws) (ws_in ws) ++ plain ++ zdrop (ws_pos ws + chunk) (ws_in ws) in
  (plain, set_ws_pos (ws_pos ws + chunk)
            (set_ws_payload_done (ws_payload_done ws + chunk) (set_ws_in buf ws))).

Definition ws_frame_length_known (ws : HttpWs) : M (WsParseResult * HttpWs) :=
  if (ws_opcode ws <? WS_OP_CLOSE) &&
     ((ws_max_message ws - ws_msg_len ws) mod 2 ^ 64 <? ws_payload_len ws)
  then ws_protocol_violation ws 1009
  else mret (WS_PARSE_CONTINUE, set_ws_state WS_NEED_MASK ws).

Definition byte_of (p : bytes) (i : Z) : Z := default 0 (p !! Z.to_nat i).

Definition ws_handle_control (ws : HttpWs) : M (WsParseResult * HttpWs) :=
  if ws_opcode ws =? WS_OP_PING then
    '(rc, ws) ← ws_send_frame ws WS_OP_PONG (ws_ctrl ws);
    if negb (rc =? 0) then mret (WS_PARSE_IO_ERROR, ws_mark_dead ws 0 true)
    else mret (WS_PARSE_CONTINUE, ws)
  else if ws_opcode ws =? WS_OP_PONG then mret (WS_PARSE_CONTINUE, ws)
  else if ws_opcode ws =? WS_OP_CLOSE then
    if zlen (ws_ctrl ws) =? 1 then ws_protocol_violation ws 1002
    else
      let code := if 2 <=? zlen (ws_ctrl ws)
                  then Z.lor (Z.shiftl (byte_of (ws_ctrl ws) 0) 8) (byte_of (ws_ctrl ws) 1) else 0 in
      '(_, ws) ← (if ws_close_sent ws then mret (0, ws) else ws_send_close ws code (Some []));
      mret (WS_PARSE_CLOSED,
        set_ws_close_received true (ws_mark_dead ws (if code =? 0 then 1005 else code) false))
  else ws_protocol_violation ws 1002.

(** What one round of the parse loop says: go on, wait for input, or return. *)
Inductive ParseStep := PNext | PNeed | PReturn (r : WsParseResult).

(** [WsParseResult r = ...; if (r != WS_PARSE_CONTINUE) return r; continue;] *)
Definition or_return (m : M (WsParseResult * HttpWs)) : M (ParseStep * HttpWs) :=
  '(r, ws) ← m;
  mret (match r with WS_PARSE_CONTINUE => PNext | r => PReturn r end, ws).

Definition known_opcode (op : Z) : bool :=
  bool_decide (op ∈ [WS_OP_CONT; WS_OP_TEXT; WS_OP_BINARY; WS_OP_CLOSE; WS_OP_PING; WS_OP_PONG]).

Definition ws_parse_header (ws : HttpWs) : M (ParseStep * HttpWs) :=
  if ws_avail ws <? 2 then mret (PNeed, ws)
  else
    let b0 := byte_of (ws_in ws) (ws_pos ws) in
    let b1 := byte_of (ws_in ws) (ws_pos ws + 1) in
    let ws := set_ws_pos (ws_pos ws + 2) ws in
    let ws := set_ws_fin (negb (Z.land b0 0x80 =? 0)) ws in
    let ws := set_ws_opcode (Z.land b0 0x0F) ws in
    let ws := set_ws_masked (negb (Z.land b1 0x80 =? 0)) ws in
    let len7 := Z.land b1 0x7F in
    if negb (Z.land b0 0x70 =? 0) then or_return (ws_protocol_violation ws 1002)
    else if negb (ws_masked ws) then or_return (ws_protocol_violation ws 1002)
    else if negb (known_opcode (ws_opcode ws)) then or_return (ws_protocol_violation ws 1002)
    else
      let is_control := WS_OP_CLOSE <=? ws_opcode ws in
      if is_control && ((125 <? len7) || negb (ws_fin ws)) then
        or_return (ws_protocol_violation ws 1002)
      else if negb is_control && (ws_opcode ws =? WS_OP_CONT) && negb (ws_msg_active ws) then
        or_return (ws_protocol_violation ws 1002)
      else if negb is_control && negb (ws_opcode ws =? WS_OP_CONT) && ws_msg_active ws then
        or_return (ws_protocol_violation ws 1002)
      else
        let ws := if negb is_control && negb (ws_opcode ws =? WS_OP_CONT)
                  then set_ws_msg_opcode (ws_opcode ws) ws else ws in
        if len7 <? 126 then or_return (ws_frame_length_known (set_ws_payload_len len7 ws))
        else if len7 =? 126 then mret (PNext, set_ws_state WS_NEED_LEN16 ws)
        else mret (PNext, set_ws_state WS_NEED_LEN64 ws).

Definition be_value (p : bytes) : Z := fold_left (λ len b, Z.lor (Z.shiftl len 8) b) p 0.

Definition ws_parse_length (ws : HttpWs) : M (ParseStep * HttpWs) :=
  let len16 := bool_decide (ws_state ws = WS_NEED_LEN16) in
  let ext := if len16 then 2 else 8 in
  if ws_avail ws <? ext then mret (PNeed, ws)
  else
    let len := be_value (ztake ext (zdrop (ws_pos ws) (ws_in ws))) in
    if negb len16 && negb (Z.shiftr len 63 =? 0) then or_return (ws_protocol_violation ws 1002)
    else
      let ws := set_ws_pos (ws_pos ws + ext) (set_ws_payload_len len ws) in
      if len16 && (len <? 126) then or_return (ws_protocol_violation ws 1002)
      else if negb len16 && (len <? 65536) then or_return (ws_protocol_violation ws 1002)
      else or_return (ws_frame_length_known ws).

Definition ws_parse_mask (ws : HttpWs) : M (ParseStep * HttpWs) :=
  if ws_avail ws <? 4 then mret (PNeed, ws)
  else mret (PNext,
    set_ws_state WS_NEED_PAYLOAD (set_ws_ctrl [] (set_ws_payload_done 0
      (set_ws_pos (ws_pos ws + 4)
        (set_ws_mask (ztake 4 (zdrop (ws_pos ws) (ws_in ws))) ws))))).

(** A fatal lack of memory: close with 1011. *)
Definition ws_out_of_memory (ws : HttpWs) : M (ParseStep * HttpWs) :=
  '(_, ws) ← ws_send_close ws 1011 (Some []);
  mret (PReturn WS_PARSE_IO_ERROR, ws_mark_dead ws 0 true).

(** The complete message is handed over: NUL-terminated, behind [msg_len] bytes. *)
Definition ws_deliver (ws : HttpWs) : HttpWs :=
  let ws := set_ws_overrun (ws_overrun ws || (ws_msg_cap ws <=? ws_msg_len ws)) ws in
  let m := {| wm_type := if ws_msg_opcode ws =? WS_OP_TEXT then HTTP_WS_TEXT else HTTP_WS_BINARY;
              wm_data := default [] (ws_msg ws) |} in
  set_ws_msg_active false (set_ws_msg_cap 0 (set_ws_msg None (set_ws_cur (Some m) ws))).

(** A frame is complete. *)
Definition ws_frame_complete (ws : HttpWs) : M (ParseStep * HttpWs) :=
  let ws := set_ws_payload_done 0 (set_ws_state WS_NEED_HEADER ws) in
  if WS_OP_CLOSE <=? ws_opcode ws then or_return (ws_handle_control ws)
  else if negb (ws_fin ws) then mret (PNext, set_ws_msg_active true ws)
  else
    match ws_msg ws with
    | Some _ => mret (PReturn WS_PARSE_MESSAGE, ws_deliver ws)
    | None =>
        ok ← malloc;
        if negb ok then ws_out_of_memory ws
        else mret (PReturn WS_PARSE_MESSAGE, ws_deliver (set_ws_msg_cap 1 (set_ws_msg (Some []) ws)))
    end.

Definition ws_parse_payload (ws : HttpWs) : M (ParseStep * HttpWs) :=
  if ws_payload_done ws =? ws_payload_len ws then ws_frame_complete ws
  else if ws_avail ws =? 0 then mret (PNeed, ws)
  else
    let '(chunk, ws) := ws_unmask_chunk ws in
    if WS_OP_CLOSE <=? ws_opcode ws then mret (PNext, set_ws_ctrl (ws_ctrl ws ++ chunk) ws)
    else
      '(ok, ws) ← ws_msg_reserve ws (ws_msg_len ws + zlen chunk);
      if negb ok then ws_out_of_memory ws
      else mret (PNext, set_ws_msg (Some (default [] (ws_msg ws) ++ chunk)) ws).

Definition ws_parse_step (ws : HttpWs) : M (ParseStep * HttpWs) :=
  match ws_state ws with
  | WS_NEED_HEADER => ws_parse_header ws
  | WS_NEED_LEN16 | WS_NEED_LEN64 => ws_parse_length ws
  | WS_NEED_MASK => ws_parse_mask ws
  | WS_NEED_PAYLOAD => ws_parse_payload ws
  end.

Fixpoint ws_parse_loop (fuel : nat) (ws : HttpWs) : M (WsParseResult * HttpWs) :=
  match fuel with
  | O => mret (WS_PARSE_CONTINUE, ws)
  | S fuel =>
      '(s, ws) ← ws_parse_step ws;
      match s with
      | PNext => ws_parse_loop fuel ws
      | PNeed => mret (WS_PARSE_CONTINUE, ws_compact ws)
      | PReturn r => mret (r, ws)
      end
  end.

(** A round eats a byte, or completes a frame and the next one eats two. *)
Definition parse_fuel (ws : HttpWs) : nat := S (S (2 * Z.to_nat (ws_avail ws))).

(** The message of [WS_PARSE_MESSAGE] is [ws_cur]. *)
Definition ws_parse (ws : HttpWs) : M (WsParseResult * HttpWs) := ws_parse_loop (parse_fuel ws) ws.

(** ** The session API *)

(** [ws_session_create]: [None] when an allocation fails ([pthread_mutex_init]
    succeeds for default attributes). *)
Definition ws_session_create (max_message : Z) (leftover : bytes) : M (option HttpWs) :=
  ok ← malloc;
  if negb ok then mret None
  else
    ok ← malloc;
    if negb ok then mret None
    else mret (Some
      {| ws_max_message := max_message; ws_close_sent := false; ws_close_received := false;
         ws_dead := false; ws_io_error := false; ws_close_code := 0;
         ws_in := leftover;
         ws_in_cap := if WS_RECV_BUFFER <? zlen leftover then zlen leftover + WS_RECV_BUFFER
                      else WS_RECV_BUFFER;
         ws_pos := 0; ws_state := WS_NEED_HEADER; ws_fin := false; ws_opcode := 0;
         ws_masked := false; ws_mask := []; ws_payload_len := 0; ws_payload_done := 0;
         ws_ctrl := []; ws_msg_active := false; ws_msg_opcode := 0; ws_msg := None; ws_msg_cap := 0;
         ws_cur := None; ws_overrun := false; ws_data := 0 |}).

(** A full buffer is doubled; [false]: it cannot grow. *)
Definition ws_grow_in (ws : HttpWs) : M (bool * HttpWs) :=
  if zlen (ws_in ws) =? ws_in_cap ws then
    if WS_RECV_BUFFER_MAX <=? ws_in_cap ws then mret (false, ws)
    else
      let new_cap := ws_in_cap ws * 2 in
      if new_cap <=? ws_in_cap ws then mret (false, ws)
      else
        ok ← malloc;
        if negb ok then mret (false, ws) else mret (true, set_ws_in_cap new_cap ws)
  else mret (true, ws).

Definition ws_recv_in (ws : HttpWs) : M RecvResult := recv (ws_in_cap ws - zlen (ws_in ws)).

(** [slices] rounds are left. *)
Fixpoint ws_drain_loop (slices : nat) (ws : HttpWs) : M HttpWs :=
  let no_echo := mret (ws_mark_dead ws 0 false) in
  match slices with
  | O => no_echo
  | S slices =>
      if ws_close_received ws then no_echo
      else
        '(ok, ws) ← ws_grow_in ws;
        if negb ok then mret (ws_mark_dead ws 0 false)
        else
          r ← ws_recv_in ws;
          match r with
          | GotIntr => ws_drain_loop slices ws
          | GotTimeout | GotError => mret (ws_mark_dead ws 0 false)
          | GotEof => mret (ws_mark_dead ws 1006 false)
          | Got bs =>
              '(res, ws) ← ws_parse (set_ws_in (ws_in ws ++ bs) ws);
              match res with
              | WS_PARSE_CLOSED | WS_PARSE_PROTOCOL => mret ws
              | WS_PARSE_IO_ERROR => mret (ws_mark_dead ws 1006 true)
              | WS_PARSE_MESSAGE | WS_PARSE_CONTINUE => ws_drain_loop slices ws
              end
          end
  end.

Definition ws_drain_close_echo (ws : HttpWs) : M HttpWs :=
  ws_drain_loop (Z.to_nat (HTTP_WS_CLOSE_WAIT_MS / HTTP_WS_POLL_MS + 1)) ws.

(** The loop of [http_ws_recv]; a round takes something off the receive queue. *)
Fixpoint ws_recv_loop (fuel : nat) (ws : HttpWs) : M (HttpWsResult * HttpWs) :=
  match fuel with
  | O => mret (HTTP_WS_ERROR, ws)
  | S fuel =>
      '(res, ws) ← ws_parse ws;
      match res with
      | WS_PARSE_MESSAGE => mret (HTTP_WS_OK, ws)
      | WS_PARSE_CLOSED | WS_PARSE_PROTOCOL => mret (HTTP_WS_CLOSED, ws)
      | WS_PARSE_IO_ERROR => mret (HTTP_WS_ERROR, ws)
      | WS_PARSE_CONTINUE =>
          '(ok, ws) ← ws_grow_in ws;
          if negb ok then mret (HTTP_WS_ERROR, ws_mark_dead ws 0 true)
          else
            r ← ws_recv_in ws;
            match r with
            | Got bs => ws_recv_loop fuel (set_ws_in (ws_in ws ++ bs) ws)
            | GotEof => mret (HTTP_WS_CLOSED, ws_mark_dead ws 1006 false)
            | GotIntr => ws_recv_loop fuel ws
            | GotTimeout =>
                listening ← read_listening;
                if negb listening then
                  '(_, ws) ← ws_send_close ws 1001 (Some (str "server shutting down"));
                  mret (HTTP_WS_CLOSED, ws_mark_dead ws 1001 false)
                else ws_recv_loop fuel ws
            | GotError => mret (HTTP_WS_ERROR, ws_mark_dead ws 1006 true)
            end
      end
  end.

(** The message of [HTTP_WS_OK] is [ws_cur]. *)
Definition http_ws_recv (ws : HttpWs) : M (HttpWsResult * HttpWs) :=
  if ws_dead ws then mret (if ws_io_error ws then HTTP_WS_ERROR else HTTP_WS_CLOSED, ws)
  else
    q ← recv_queue;
    ws_recv_loop (S (S (recv_size q))) ws.

Definition http_ws_send_text (ws : HttpWs) (data : bytes) : M (Z * HttpWs) :=
  ws_send_frame ws WS_OP_TEXT data.
Definition http_ws_send_binary (ws : HttpWs) (data : bytes) : M (Z * HttpWs) :=
  ws_send_frame ws WS_OP_BINARY data.
Definition http_ws_send_ping (ws : HttpWs) (data : bytes) : M (Z * HttpWs) :=
  if 125 <? zlen data then mret (-1, ws) else ws_send_frame ws WS_OP_PING data.

Definition http_ws_close (ws : HttpWs) (code : Z) (reason : option bytes) : M (Z * HttpWs) :=
  if ws_dead ws then mret (0, ws)
  else
    '(rc, ws) ← ws_send_close ws code reason;
    ws ← ws_drain_close_echo ws;
    mret (rc, ws).

(** The user's pointer. *)
Definition http_ws_set_data (ws : HttpWs) (data : Z) : HttpWs := set_ws_data data ws.
Definition http_ws_get_data (ws : HttpWs) : Z := ws_data ws.

Definition http_ws_close_code (ws : HttpWs) : Z := ws_close_code ws.

(** ** On concrete frames *)

(** A frame as a client sends it: masked. *)
Record Frame := { fr_fin : bool; fr_opcode : Z; fr_mask : bytes; fr_payload : bytes }.

Definition client_length (len : Z) : bytes :=
  if len <? 126 then [Z.lor 0x80 len]
  else if len <? 65536 then [Z.lor 0x80 126; Z.shiftr len 8 mod 256; len mod 256]
  else Z.lor 0x80 127 :: map (λ i, Z.shiftr len (56 - 8 * Z.of_nat i) mod 256) (seq 0 8).

Definition encode_frame (f : Frame) : bytes :=
  (Z.lor (if fr_fin f then 0x80 else 0) (fr_opcode f)) :: client_length (zlen (fr_payload f))
  ++ fr_mask f ++ unmask (fr_mask f) 0 (fr_payload f).

Definition client_frame (fin : bool) (opcode : Z) (payload : bytes) : Frame :=
  {| fr_fin := fin; fr_opcode := opcode; fr_mask := [1; 2; 3; 4]; fr_payload := payload |}.

Definition fresh_session (max_message : Z) (leftover : bytes) : HttpWs :=
  match result (ws_session_create max_message leftover) quiet_world with
  | Some ws => ws
  | None => {| ws_max_message := 0; ws_close_sent := false; ws_close_received := false;
       ws_dead := true; ws_io_error := false; ws_close_code := 0; ws_in := []; ws_in_cap := 0;
       ws_pos := 0; ws_state := WS_NEED_HEADER; ws_fin := false; ws_opcode := 0;
       ws_masked := false; ws_mask := []; ws_payload_len := 0; ws_payload_done := 0;
       ws_ctrl := []; ws_msg_active := false; ws_msg_opcode := 0; ws_msg := None; ws_msg_cap := 0;
       ws_cur := None; ws_overrun := false; ws_data := 0 |}
  end.

Definition receives (q : list RecvEvent) : World := with_recv q quiet_world.

(** Two fragments with a ping between them, cut in odd places. *)
Example ws_recv_fragments :
  let s := encode_frame (client_frame false WS_OP_TEXT (str "Hel"))
           ++ encode_frame (client_frame true WS_OP_PING (str "p"))
           ++ encode_frame (client_frame true WS_OP_CONT (str "lo")) in
  let r := http_ws_recv (fresh_session 100 []) (receives [RData (ztake 5 s); RTimeout; RData (zdrop 5 s)]) in
  r.1.1 = HTTP_WS_OK ∧ ws_cur r.1.2 = Some {| wm_type := HTTP_WS_TEXT; wm_data := str "Hello" |} ∧
  w_sent r.2 = frame_header WS_OP_PONG 1 ++ str "p".
Proof. vm_compute. done. Qed.

(** A message of 256 bytes that arrives in two reads is NUL-terminated one byte
    behind its buffer: [ws_msg_reserve] asks for one byte more than it needs only
    when it grows the buffer. *)
Example ws_nul_overrun :
  let s := encode_frame (client_frame true WS_OP_BINARY (replicate 256 65)) in
  let r := http_ws_recv (fresh_session 4096 []) (receives [RData (ztake 100 s); RData (zdrop 100 s)]) in
  r.1.1 = HTTP_WS_OK ∧ ws_overrun r.1.2 = true.
Proof. vm_compute. done. Qed.

Example ws_unmasked_frame :
  let r := http_ws_recv (fresh_session 100 []) (receives [RData ([0x81; 1] ++ str "x")]) in
  r.1.1 = HTTP_WS_CLOSED ∧ w_sent r.2 = [0x88; 2; 0x03; 0xEA].
Proof. vm_compute. done. Qed.

(** Reads fields through updates. *)
Ltac ws_cbn :=
  cbn [ws_max_message ws_close_sent ws_close_received ws_dead ws_io_error ws_close_code ws_in
    ws_in_cap ws_pos ws_state ws_fin ws_opcode ws_masked ws_mask ws_payload_len ws_payload_done
    ws_ctrl ws_msg_active ws_msg_opcode ws_msg ws_msg_cap ws_cur ws_overrun ws_data set_ws_max_message
    set_ws_close_sent set_ws_close_received set_ws_dead set_ws_io_error set_ws_close_code
    set_ws_in set_ws_in_cap set_ws_pos set_ws_state set_ws_fin set_ws_opcode set_ws_masked
    set_ws_mask set_ws_payload_len set_ws_payload_done set_ws_ctrl set_ws_msg_active
    set_ws_msg_opcode set_ws_msg set_ws_msg_cap set_ws_cur set_ws_overrun set_ws_data] in *.

(** ** The invariant of a session *)

(** What the parser knows in each state; data frames have opcodes below 8. *)
Definition state_ok (ws : HttpWs) : Prop :=
  match ws_state ws with
  | WS_NEED_HEADER => True
  | WS_NEED_LEN16 | WS_NEED_LEN64 => ws_opcode ws < WS_OP_CLOSE
  | WS_NEED_MASK =>
      0 <= ws_payload_len ws ∧
      (if ws_opcode ws <? WS_OP_CLOSE then ws_msg_len ws + ws_payload_len ws <= ws_max_message ws
       else ws_payload_len ws <= 125)
  | WS_NEED_PAYLOAD =>
      0 <= ws_payload_done ws <= ws_payload_len ws ∧
      (if ws_opcode ws <? WS_OP_CLOSE
       then ws_msg_len ws + (ws_payload_len ws - ws_payload_done ws) <= ws_max_message ws
       else ws_payload_len ws <= 125 ∧ zlen (ws_ctrl ws) = ws_payload_done ws)
  end.

(** The cursor inside the buffer, the message within its limit; a control payload
    fits the 125 bytes of [ctrl]. *)
Record ws_ok (ws : HttpWs) : Prop := {
  ok_pos : 0 <= ws_pos ws <= zlen (ws_in ws);
  ok_cap : zlen (ws_in ws) <= ws_in_cap ws ∧ WS_RECV_BUFFER <= ws_in_cap ws;
  ok_max : ws_msg_len ws <= ws_max_message ws < 2 ^ 63;
  ok_ctrl : zlen (ws_ctrl ws) <= 125;
  ok_state : state_ok ws;
}.

(** What the parse loop leaves unread, and whether a frame awaits completion. *)
Definition parse_measure (ws : HttpWs) : Z :=
  2 * ws_avail ws + (if bool_decide (ws_state ws = WS_NEED_PAYLOAD) then 1 else 0).

(** The parts of a session that sending changes are no part of the invariant. *)
Definition same_recv (ws ws' : HttpWs) : Prop :=
  ws_max_message ws' = ws_max_message ws ∧ ws_in ws' = ws_in ws ∧ ws_in_cap ws' = ws_in_cap ws ∧
  ws_pos ws' = ws_pos ws ∧ ws_state ws' = ws_state ws ∧ ws_fin ws' = ws_fin ws ∧
  ws_opcode ws' = ws_opcode ws ∧ ws_mask ws' = ws_mask ws ∧
  ws_payload_len ws' = ws_payload_len ws ∧ ws_payload_done ws' = ws_payload_done ws ∧
  ws_ctrl ws' = ws_ctrl ws ∧ ws_msg_active ws' = ws_msg_active ws ∧
  ws_msg_opcode ws' = ws_msg_opcode ws ∧ ws_msg ws' = ws_msg ws ∧ ws_msg_cap ws' = ws_msg_cap ws.

#[export] Instance same_recv_preorder : PreOrder same_recv.
Proof. split; [by intros ?; unfold same_recv|]. unfold same_recv. intros ???; intuition congruence. Qed.

Lemma same_recv_ok ws ws' : same_recv ws ws' → ws_ok ws → ws_ok ws'.
Proof.
  intros (E1 & E2 & E3 & E4 & E5 & E6 & E7 & E8 & E9 & E10 & E11 & E12 & E13 & E14 & E15) [H1 H2 H3 H4 H5].
  split; unfold state_ok, ws_msg_len in *; rewrite ?E1, ?E2, ?E3, ?E4, ?E5, ?E7, ?E9, ?E10, ?E11, ?E14; done.
Qed.

Lemma same_recv_mark_dead ws code io : same_recv ws (ws_mark_dead ws code io).
Proof. unfold ws_mark_dead. by destruct (code =? 0), io. Qed.

Lemma same_recv_send_locked ws op p : returns (ws_send_frame_locked ws op p) (λ r, same_recv ws r.2).
Proof.
  unfold ws_send_frame_locked. apply returns_bind with (λ _, True); [done|]. intros rc _.
  case_if; [by apply returns_ret|]. apply returns_bind with (λ _, True); [done|]. intros rc' _.
  case_if; by apply returns_ret.
Qed.

Lemma same_recv_send ws op p : returns (ws_send_frame ws op p) (λ r, same_recv ws r.2).
Proof. unfold ws_send_frame. case_if; [by apply returns_ret|apply same_recv_send_locked]. Qed.

Lemma same_recv_send_close ws code reason : returns (ws_send_close ws code reason) (λ r, same_recv ws r.2).
Proof.
  unfold ws_send_close. apply returns_bind with (λ r, same_recv ws r.2).
  - case_if; [by apply returns_ret|]. eapply returns_bind; [apply same_recv_send_locked|].
    intros [rc ws'] H. apply returns_ret. cbn [snd] in *. etrans; [exact H|]. by case_if.
  - intros [rc ws'] H. apply returns_ret. cbn [snd] in *. by etrans; [exact H|].
Qed.

Lemma same_recv_violation ws code :
  returns (ws_protocol_violation ws code) (λ r, r.1 = WS_PARSE_PROTOCOL ∧ same_recv ws r.2).
Proof.
  unfold ws_protocol_violation. eapply returns_bind; [apply same_recv_send_close|].
  intros [rc ws'] H. apply returns_ret. split; [done|]. cbn [snd] in *.
  etrans; [exact H|apply same_recv_mark_dead].
Qed.

(** ** Every round keeps the invariant and makes progress *)

Definition step_ok (ws : HttpWs) (r : ParseStep * HttpWs) : Prop :=
  ws_ok r.2 ∧ match r.1 with
  | PNext => parse_measure r.2 < parse_measure ws
  | PNeed => r.2 = ws ∧ ws_avail ws < 8
  | PReturn r => r ≠ WS_PARSE_CONTINUE
  end.

Lemma violation_step_ok ws0 ws code :
  ws_ok ws → returns (or_return (ws_protocol_violation ws code)) (step_ok ws0).
Proof.
  intros H. unfold or_return. eapply returns_bind; [apply same_recv_violation|].
  intros [r ws'] [Hr Hs]. apply returns_ret. cbn [fst snd] in *. subst r.
  split; [by eapply same_recv_ok|done].
Qed.

Lemma avail_measure ws : 2 * ws_avail ws <= parse_measure ws.
Proof. unfold parse_measure. case_if; lia. Qed.

Lemma ws_msg_len_nonneg ws : 0 <= ws_msg_len ws.
Proof. apply zlen_nonneg. Qed.

(** A session whose header is read: its opcode and length are checked next. *)
Lemma frame_length_known_ok ws0 ws :
  0 <= ws_pos ws <= zlen (ws_in ws) → zlen (ws_in ws) <= ws_in_cap ws ∧ WS_RECV_BUFFER <= ws_in_cap ws →
  ws_msg_len ws <= ws_max_message ws < 2 ^ 63 → zlen (ws_ctrl ws) <= 125 →
  0 <= ws_payload_len ws → (WS_OP_CLOSE <= ws_opcode ws → ws_payload_len ws <= 125) →
  state_ok ws → 2 * ws_avail ws < parse_measure ws0 →
  returns (or_return (ws_frame_length_known ws)) (step_ok ws0).
Proof.
  intros Hp Hc Hm Ht Hl Hctl Hst Hms. unfold ws_frame_length_known.
  pose proof (ws_msg_len_nonneg ws) as H0. rewrite Z.mod_small by lia.
  case_if; [by apply violation_step_ok|]. breflect.
  unfold or_return. apply returns_ret_bind, returns_ret. split; cbn [fst snd].
  - split; unfold state_ok, ws_msg_len in *; ws_cbn; try done. split; [done|]. case_if; breflect.
    + destruct Heqb as [Heqb|Heqb]; lia.
    + apply Hctl. lia.
  - unfold parse_measure, ws_avail in *. ws_cbn. rewrite bool_decide_false by done. lia.
Qed.

Lemma measure_not_payload ws : ws_state ws ≠ WS_NEED_PAYLOAD → parse_measure ws = 2 * ws_avail ws.
Proof. intros H. unfold parse_measure. rewrite bool_decide_false by done. lia. Qed.

Lemma parse_header_ok ws : ws_ok ws → ws_state ws = WS_NEED_HEADER → returns (ws_parse_header ws) (step_ok ws).
Proof.
  intros [Hp Hc Hm Ht Hs] Hst. unfold ws_parse_header. case_if; breflect.
  { apply returns_ret. split; [by split|]. cbn [fst snd]. split; [done|lia]. }
  set (b0 := byte_of _ _). set (b1 := byte_of _ _). cbv zeta.
  set (ws1 := set_ws_masked _ _). unfold ws_avail in *.
  assert (ws_ok ws1) as Hok.
  { split; unfold ws1, state_ok, ws_msg_len in *; ws_cbn; rewrite ?Hst; try done. lia. }
  assert (∀ ws', same_recv ws1 ws' ∨ same_recv (set_ws_msg_opcode (ws_opcode ws1) ws1) ws' →
    2 * ws_avail ws' < parse_measure ws) as Hms.
  { intros ws' Hsame. pose proof (avail_measure ws) as Ha. unfold ws_avail in *.
    assert (ws_in ws' = ws_in ws ∧ ws_pos ws' = ws_pos ws + 2) as [-> ->].
    { unfold same_recv, ws1 in Hsame. ws_cbn. intuition. } lia. }
  repeat (case_if; [by apply violation_step_ok|]).
  assert (0 <= Z.land b1 0x7F) as Hb by (apply Z.land_nonneg; right; lia).
  set (ws2 := if _ : bool then _ else ws1).
  assert (ws_ok ws2) as Hok2.
  { unfold ws2. case_if; [|done]. destruct Hok. by split. }
  assert (2 * ws_avail ws2 < parse_measure ws) as Hms2.
  { apply Hms. unfold ws2. case_if; [by right|by left]. }
  assert (ws_opcode ws2 = ws_opcode ws1) as Hop by (unfold ws2; by case_if).
  assert (ws_state ws2 = WS_NEED_HEADER) as Hst2 by (unfold ws2; case_if; unfold ws1; ws_cbn; done).
  clearbody ws2. destruct Hok2 as [Hp2 Hc2 Hm2 Ht2 _].
  case_if; [|case_if].
  - apply frame_length_known_ok; unfold state_ok, ws_msg_len in *; ws_cbn; try done.
    + rewrite Hop. intros Hctl. breflect. rewrite (proj2 (Z.leb_le _ _)) in Heqb3 by done.
      cbn [andb] in Heqb3. breflect. lia.
    + by rewrite Hst2.
  - apply returns_ret. split; cbn [fst snd].
    + split; unfold state_ok, ws_msg_len in *; ws_cbn; try done. rewrite Hop. breflect.
      destruct (Z.leb_spec WS_OP_CLOSE (ws_opcode ws1)); [|lia].
      cbn [andb] in Heqb3. breflect. lia.
    + rewrite measure_not_payload by done. exact Hms2.
  - apply returns_ret. split; cbn [fst snd].
    + split; unfold state_ok, ws_msg_len in *; ws_cbn; try done. rewrite Hop. breflect.
      destruct (Z.leb_spec WS_OP_CLOSE (ws_opcode ws1)); [|lia].
      cbn [andb] in Heqb3. breflect. lia.
    + rewrite measure_not_payload by done. exact Hms2.
Qed.

Lemma parse_length_ok ws :
  ws_ok ws → ws_state ws = WS_NEED_LEN16 ∨ ws_state ws = WS_NEED_LEN64 →
  returns (ws_parse_length ws) (step_ok ws).
Proof.
  intros [Hp Hc Hm Ht Hs] Hst. unfold ws_parse_length.
  set (len16 := bool_decide _). set (ext := if len16 then 2 else 8). cbv zeta.
  assert (2 <= ext <= 8) as He by (unfold ext; case_if; lia).
  assert (ws_opcode ws < WS_OP_CLOSE) as Hop by (unfold state_ok in Hs; by destruct Hst as [E|E]; rewrite E in Hs).
  pose proof (avail_measure ws) as Ha.
  case_if; breflect.
  { apply returns_ret. split; [by split|]. cbn [fst snd]. split; [done|lia]. }
  set (len := be_value _).
  case_if; [apply violation_step_ok; by split|].
  set (ws1 := set_ws_pos _ _). unfold ws_avail in *.
  assert (ws_ok ws1) as Hok.
  { split; unfold ws1, state_ok, ws_msg_len in *; ws_cbn; try done; [lia|].
    destruct Hst as [E|E]; rewrite E in *; done. }
  case_if; [by apply violation_step_ok|]. case_if; [by apply violation_step_ok|].
  destruct Hok as [Hp1 Hc1 Hm1 Ht1 Hs1]. apply frame_length_known_ok; try done.
  - unfold ws1. ws_cbn. destruct len16; cbn [negb andb] in *; breflect; lia.
  - unfold ws1. ws_cbn. lia.
  - unfold ws_avail, ws1. ws_cbn. lia.
Qed.

Lemma parse_mask_ok ws : ws_ok ws → ws_state ws = WS_NEED_MASK → returns (ws_parse_mask ws) (step_ok ws).
Proof.
  intros [Hp Hc Hm Ht Hs] Hst. unfold ws_parse_mask. pose proof (avail_measure ws) as Ha.
  unfold state_ok in Hs. rewrite Hst in Hs. destruct Hs as [Hs1 Hs2]. unfold ws_avail in *.
  case_if; breflect; apply returns_ret; (split; cbn [fst snd]).
  - split; try done. unfold state_ok. by rewrite Hst.
  - unfold ws_avail. split; [done|lia].
  - split; unfold state_ok, ws_msg_len in *; ws_cbn; try done; [lia|]. split; [lia|].
    case_if; breflect.
    + rewrite Z.sub_0_r. destruct (Z.ltb_spec (ws_opcode ws) WS_OP_CLOSE); [done|lia].
    + destruct (Z.ltb_spec (ws_opcode ws) WS_OP_CLOSE); [lia|]. split; [done|]. by rewrite zlen_nil.
  - unfold parse_measure, ws_avail in *. ws_cbn. rewrite bool_decide_true by done. case_if; lia.
Qed.

Lemma zlen_unmask mask i p : zlen (unmask mask i p) = zlen p.
Proof.
  revert i. induction p as [|b p IH]; intros i; cbn [unmask]; [done|]. by rewrite !zlen_cons, IH.
Qed.

Lemma grow_cap_ge fuel cap need :
  0 < cap → 2 ^ 64 <= cap * 2 ^ Z.of_nat fuel ∨ need + 1 <= cap → need + 1 <= SIZE_MAX → need + 1 <= grow_cap fuel cap need.
Proof.
  revert cap. induction fuel as [|fuel IH]; intros cap Hc Hf Hn; cbn [grow_cap].
  - unfold SIZE_MAX in *. change (2 ^ Z.of_nat 0) with 1 in Hf. lia.
  - case_if; breflect; [|lia]. case_if; breflect; [lia|]. apply IH; [lia| |done]. left.
    destruct Hf as [Hf|Hf]; [|lia]. rewrite Nat2Z.inj_succ, Z.pow_succ_r in Hf by lia. lia.
Qed.

Lemma msg_reserve_same ws need :
  returns (ws_msg_reserve ws need) (λ r,
    r.2 = ws ∨ ∃ cap, r.2 = set_ws_msg_cap cap (set_ws_msg (Some (default [] (ws_msg ws))) ws)).
Proof.
  unfold ws_msg_reserve. repeat (case_if; [apply returns_ret; by left|]).
  apply returns_bind with (λ _, True); [done|]. intros ok _. case_if; apply returns_ret; [by left|right; by eexists].
Qed.

Lemma out_of_memory_ok ws0 ws : ws_ok ws → returns (ws_out_of_memory ws) (step_ok ws0).
Proof.
  intros H. unfold ws_out_of_memory. eapply returns_bind; [apply same_recv_send_close|].
  intros [r ws'] Hs. apply returns_ret. cbn [snd] in Hs. split; cbn [fst snd]; [|done].
  eapply same_recv_ok; [|exact H]. etrans; [exact Hs|]. apply same_recv_mark_dead.
Qed.

Lemma deliver_ok ws : ws_ok ws → ws_state ws = WS_NEED_HEADER → ws_ok (ws_deliver ws).
Proof.
  intros [Hp Hc Hm Ht Hs] Hst. unfold ws_deliver.
  split; unfold state_ok, ws_msg_len in *; ws_cbn; rewrite ?Hst; try done.
  cbn [default]. rewrite zlen_nil. pose proof (zlen_nonneg (default [] (ws_msg ws))). lia.
Qed.

Lemma handle_control_ok ws0 ws :
  ws_ok ws → parse_measure ws < parse_measure ws0 → returns (or_return (ws_handle_control ws)) (step_ok ws0).
Proof.
  intros Hok Hms.
  assert (∀ ws', same_recv ws ws' → ws_ok ws' ∧ parse_measure ws' < parse_measure ws0) as Hsame.
  { intros ws' H. split; [by eapply same_recv_ok|]. destruct H as (_ & E1 & _ & E2 & E3 & _).
    unfold parse_measure, ws_avail in *. by rewrite E1, E2, E3. }
  unfold ws_handle_control. case_if; [|case_if; [|case_if]].
  - unfold or_return. apply returns_bind with (λ r, same_recv ws r.2 ∧ (r.1 = WS_PARSE_CONTINUE ∨ r.1 = WS_PARSE_IO_ERROR)).
    + eapply returns_bind; [apply same_recv_send|]. intros [rc ws'] H. cbn [snd] in H.
      case_if; apply returns_ret; (split; [|tauto]); cbn [snd]; [|done].
      etrans; [exact H|apply same_recv_mark_dead].
    + intros [r ws'] [H [E|E]]; cbn [fst snd] in *; subst r; apply returns_ret; split; cbn [fst snd];
        try apply Hsame; done.
  - apply returns_ret_bind, returns_ret. by split; [|].
  - case_if; [by apply violation_step_ok|]. unfold or_return.
    apply returns_bind with (λ r, same_recv ws r.2 ∧ r.1 = WS_PARSE_CLOSED).
    + apply returns_bind with (λ r, same_recv ws r.2).
      { case_if; [by apply returns_ret|apply same_recv_send_close]. }
      intros [rc ws'] H. apply returns_ret. cbn [fst snd] in *. split; [|done].
      etrans; [exact H|]. etrans; [apply same_recv_mark_dead|done].
    + intros [r ws'] [H E]. cbn [fst snd] in *. subst r. apply returns_ret. split; [|done].
      cbn [snd]. by apply Hsame.
  - by apply violation_step_ok.
Qed.

Lemma parse_payload_ok ws :
  ws_ok ws → ws_state ws = WS_NEED_PAYLOAD → returns (ws_parse_payload ws) (step_ok ws).
Proof.
  intros [Hp Hc Hm Ht Hs] Hst. unfold ws_parse_payload.
  pose proof Hs as Hs'. unfold state_ok in Hs'. rewrite Hst in Hs'. destruct Hs' as [Hd Hs'].
  assert (parse_measure ws = 2 * ws_avail ws + 1) as Hmeas
    by (unfold parse_measure; by rewrite bool_decide_true).
  case_if; breflect.
  - unfold ws_frame_complete. set (ws1 := set_ws_payload_done _ _).
    assert (ws_ok ws1) as Hok by by split.
    assert (parse_measure ws1 < parse_measure ws) as Hms.
    { rewrite measure_not_payload by done. rewrite Hmeas. change (ws_avail ws1) with (ws_avail ws). lia. }
    case_if; [by apply handle_control_ok|]. case_if.
    + apply returns_ret. split; cbn [fst snd]; [by destruct Hok; split|].
      rewrite measure_not_payload by done. rewrite measure_not_payload in Hms by done. exact Hms.
    + destruct (ws_msg ws1) as [m|] eqn:Em.
      { apply returns_ret. split; cbn [fst snd]; [by apply deliver_ok|done]. }
      apply returns_bind with (λ _, True); [done|]. intros ok _.
      case_if; [by apply out_of_memory_ok|]. apply returns_ret. split; cbn [fst snd]; [|done].
      apply deliver_ok; [|done]. destruct Hok as [Hp1 Hc1 Hm1 Ht1 Hs1].
      split; unfold state_ok, ws_msg_len in *; ws_cbn; try done. by rewrite Em in Hm1.
  - case_if; breflect.
    { apply returns_ret. split; [by split|]. cbn [fst snd]. unfold ws_avail in *. split; [done|lia]. }
    unfold ws_unmask_chunk. set (chunk := Z.min _ _). set (plain := unmask _ _ _). set (buf := _ ++ _ ++ _).
    unfold ws_avail in *.
    assert (1 <= chunk <= zlen (ws_in ws) - ws_pos ws ∧ chunk <= ws_payload_len ws - ws_payload_done ws) as Hch by lia.
    assert (zlen plain = chunk) as Hpl.
    { unfold plain. rewrite zlen_unmask, zlen_ztake, zlen_zdrop by lia. lia. }
    assert (zlen buf = zlen (ws_in ws)) as Hbuf.
    { unfold buf. rewrite !zlen_app, Hpl, zlen_ztake, zlen_zdrop by lia. lia. }
    set (ws1 := set_ws_pos _ _). assert (ws_opcode ws1 = ws_opcode ws) as Hop1 by done.
    assert (∀ f, ws_in (f ws1) = buf → ws_pos (f ws1) = ws_pos ws + chunk → ws_state (f ws1) = WS_NEED_PAYLOAD →
      parse_measure (f ws1) < parse_measure ws) as Hms.
    { intros f E1 E2 E3. unfold parse_measure, ws_avail. rewrite E1, E2, E3, Hbuf. rewrite Hst.
      rewrite !bool_decide_true by done. lia. }
    case_if.
    + apply returns_ret. breflect. destruct (Z.ltb_spec (ws_opcode ws) WS_OP_CLOSE); [lia|].
      destruct Hs' as [Hs1 Hs2]. split; cbn [fst snd].
      * split; unfold ws1, state_ok, ws_msg_len in *; ws_cbn; rewrite ?Hst, ?Hbuf, ?zlen_app, ?Hpl; try done; [lia|lia|].
        split; [lia|]. destruct (Z.ltb_spec (ws_opcode ws) WS_OP_CLOSE); [lia|]. lia.
      * by apply (Hms (set_ws_ctrl (ws_ctrl ws1 ++ plain))).
    + breflect. destruct (Z.ltb_spec (ws_opcode ws) WS_OP_CLOSE); [|lia].
      assert (ws_ok ws1) as Hok1.
      { split; unfold ws1, state_ok, ws_msg_len in *; ws_cbn; rewrite ?Hst, ?Hbuf; try done; [lia|].
        split; [lia|]. destruct (Z.ltb_spec (ws_opcode ws) WS_OP_CLOSE); [|lia]. lia. }
      eapply returns_bind; [apply msg_reserve_same|]. intros [ok ws2] H2. cbn [snd] in H2.
      assert (ws_ok ws2) as Hok2.
      { destruct H2 as [->|[cap ->]]; [done|]. destruct Hok1. by split. }
      case_if; [by apply out_of_memory_ok|]. apply returns_ret. split; cbn [fst snd].
      * assert (default [] (ws_msg ws2) = default [] (ws_msg ws)) as Em by by destruct H2 as [->|[cap ->]].
        destruct Hok2 as [Hp2 Hc2 Hm2 Ht2 Hs2].
        assert (ws_msg_len (set_ws_msg (Some (default [] (ws_msg ws2) ++ plain)) ws2)
                = ws_msg_len ws + chunk) as Hlen.
        { unfold ws_msg_len. ws_cbn. change (default [] (Some ?x)) with x. by rewrite zlen_app, Em, Hpl. }
        split; try done.
        -- rewrite Hlen. destruct H2 as [->|[cap ->]]; unfold ws1; ws_cbn; lia.
        -- unfold state_ok. rewrite Hlen.
           destruct H2 as [->|[cap ->]]; unfold ws1; ws_cbn; rewrite Hst;
             (split; [lia|]); destruct (Z.ltb_spec (ws_opcode ws) WS_OP_CLOSE); lia.
      * destruct H2 as [->|[cap ->]]; [by apply (Hms (set_ws_msg _))|].
        by apply (Hms (λ w, set_ws_msg _ (set_ws_msg_cap cap (set_ws_msg (Some (default [] (ws_msg w))) w)))).
Qed.

Lemma parse_step_ok ws : ws_ok ws → returns (ws_parse_step ws) (step_ok ws).
Proof.
  intros H. unfold ws_parse_step. destruct (ws_state ws) eqn:E.
  - by apply parse_header_ok.
  - apply parse_length_ok; auto.
  - apply parse_length_ok; auto.
  - by apply parse_mask_ok.
  - by apply parse_payload_ok.
Qed.

(** What a parse leaves: when it asks for input, fewer than 8 bytes, at the front. *)
Definition parse_ok (r : WsParseResult * HttpWs) : Prop :=
  ws_ok r.2 ∧ (r.1 = WS_PARSE_CONTINUE → ws_pos r.2 = 0 ∧ zlen (ws_in r.2) < 8).

Lemma compact_ok ws : ws_ok ws → ws_avail ws < 8 →
  ws_ok (ws_compact ws) ∧ ws_pos (ws_compact ws) = 0 ∧ zlen (ws_in (ws_compact ws)) < 8.
Proof.
  intros [Hp Hc Hm Ht Hs] Ha. unfold ws_compact, ws_avail in *. case_if; breflect.
  - split; [by split|]. split; [done|]. lia.
  - ws_cbn. split; [|split; [done|rewrite zlen_zdrop by lia; lia]].
    split; unfold state_ok, ws_msg_len in *; ws_cbn; rewrite ?zlen_zdrop by lia; try done; [lia|].
    unfold WS_RECV_BUFFER in *. lia.
Qed.

Lemma parse_loop_ok fuel ws :
  ws_ok ws → parse_measure ws < Z.of_nat fuel → returns (ws_parse_loop fuel ws) parse_ok.
Proof.
  revert ws. induction fuel as [|fuel IH]; intros ws Hok Hf.
  { unfold parse_measure, ws_avail in Hf. destruct Hok as [Hp _ _ _ _]. case_if_in Hf; lia. }
  cbn [ws_parse_loop]. eapply returns_bind; [by apply parse_step_ok|].
  intros [s ws1] [Hok1 Hs]. cbn [fst snd] in *. destruct s as [| |r].
  - apply IH; [done|lia].
  - destruct Hs as [-> Ha]. apply returns_ret. destruct (compact_ok ws Hok Ha) as (H1 & H2 & H3).
    by split.
  - apply returns_ret. by split.
Qed.

(** The parser always comes to an end of its own: the fuel never runs out. *)
Lemma ws_parse_ok ws : ws_ok ws → returns (ws_parse ws) parse_ok.
Proof.
  intros H. apply parse_loop_ok; [done|]. unfold parse_fuel, parse_measure. destruct H as [Hp _ _ _ _].
  unfold ws_avail in *. case_if; lia.
Qed.

Lemma parse_loop_fuel n m ws w :
  ws_ok ws → parse_measure ws < Z.of_nat n → parse_measure ws < Z.of_nat m →
  ws_parse_loop n ws w = ws_parse_loop m ws w.
Proof.
  revert m ws w. induction n as [|n IH]; intros [|m] ws w Hok Hn Hm;
    try (exfalso; unfold parse_measure, ws_avail in *; destruct Hok as [Hp _ _ _ _]; destruct (bool_decide _); lia).
  cbn [ws_parse_loop]. rewrite !bind_run. pose proof (parse_step_ok ws Hok w) as [Hok1 Hs].
  destruct (result (ws_parse_step ws) w) as [s ws1]. cbn [fst snd] in *. destruct s; [|done|done].
  apply IH; [done|lia|lia].
Qed.

(** A session that waits for input has room for it: the growth of the receive
    buffer in [http_ws_recv] is never reached. *)
Lemma grow_in_room ws : ws_ok ws → zlen (ws_in ws) < 8 → ws_grow_in ws = mret (true, ws).
Proof.
  intros [_ [_ Hc] _ _ _] Hl. unfold ws_grow_in. unfold WS_RECV_BUFFER in *.
  rewrite (proj2 (Z.eqb_neq _ _)) by lia. done.
Qed.

Lemma recv_step_octets n q : 0 < n →
  match (recv_step n q).1 with Got bs => zlen bs <= n | _ => True end.
Proof.
  intros Hn. destruct q as [|[bs| | | |] q]; try done. simpl. destruct bs as [|b bs]; [done|].
  case_if; breflect; cbn [fst]; [done|]. rewrite zlen_ztake by lia. lia.
Qed.

Lemma recv_in_ok ws : ws_ok ws → zlen (ws_in ws) < 8 →
  returns (ws_recv_in ws) (λ r, match r with
    | Got bs => ws_ok (set_ws_in (ws_in ws ++ bs) ws) | _ => True end).
Proof.
  intros [Hp Hc Hm Ht Hs] Hl w. unfold ws_recv_in, result. rewrite recv_run. cbn [fst].
  assert (0 < ws_in_cap ws - zlen (ws_in ws)) as Hn by (unfold WS_RECV_BUFFER in *; lia).
  pose proof (recv_step_octets _ (w_recv w) Hn) as H.
  destruct (recv_step _ (w_recv w)).1 as [bs| | | |]; try done.
  pose proof (zlen_nonneg bs). split; unfold state_ok, ws_msg_len in *; ws_cbn; rewrite ?zlen_app; try done; lia.
Qed.

Lemma mark_dead_ok ws code io : ws_ok ws → ws_ok (ws_mark_dead ws code io).
Proof. apply same_recv_ok, same_recv_mark_dead. Qed.

(** Whatever the peer sends, in whatever pieces: the session stays well-formed. *)
Lemma recv_loop_ok fuel ws : ws_ok ws → returns (ws_recv_loop fuel ws) (λ r, ws_ok r.2).
Proof.
  revert ws. induction fuel as [|fuel IH]; intros ws Hok; cbn [ws_recv_loop]; [by apply returns_ret|].
  eapply returns_bind; [by apply ws_parse_ok|]. intros [res ws1] [Hok1 Hc]. cbn [fst snd] in *.
  destruct res; try (apply returns_ret; exact Hok1).
  destruct (Hc eq_refl) as [Hp0 Hl]. rewrite grow_in_room by done. apply returns_ret_bind. cbn [negb].
  eapply returns_bind; [by apply recv_in_ok|]. intros [bs| | | |] Hr.
  - by apply IH.
  - apply returns_ret. cbn [snd]. by apply mark_dead_ok.
  - by apply IH.
  - apply returns_bind with (λ _, True); [done|]. intros l _. case_if; [|by apply IH].
    eapply returns_bind; [apply same_recv_send_close|]. intros [rc ws2] Hs. apply returns_ret.
    cbn [snd] in *. apply mark_dead_ok. by eapply same_recv_ok.
  - apply returns_ret. cbn [snd]. by apply mark_dead_ok.
Qed.

Lemma session_create_ok max_message leftover :
  0 <= max_message < 2 ^ 63 →
  returns (ws_session_create max_message leftover) (λ r, match r with Some ws => ws_ok ws | None => True end).
Proof.
  intros Hm. unfold ws_session_create. do 2 (apply returns_bind with (λ _, True); [done|]; intros ? _;
    case_if; [by apply returns_ret|]). apply returns_ret.
  pose proof (zlen_nonneg leftover). split; cbn [ws_pos ws_in ws_in_cap ws_max_message ws_ctrl].
  - lia.
  - unfold WS_RECV_BUFFER. case_if; breflect; lia.
  - change (ws_msg_len _) with 0. lia.
  - rewrite zlen_nil. lia.
  - done.
Qed.

(** Receiving keeps the session well-formed, whatever arrives and whatever fails. *)
Lemma http_ws_recv_ok ws : ws_ok ws → returns (http_ws_recv ws) (λ r, ws_ok r.2).
Proof.
  intros Hok. unfold http_ws_recv. case_if; [by apply returns_ret|].
  apply returns_bind with (λ _, True); [done|]. intros q _. by apply recv_loop_ok.
Qed.
