(* ===== verification/WsProtocol.v ===== *)
(** * What a websocket session delivers

    A reference reading of the client's byte stream - frames, messages of one or
    more fragments, control frames between them - and the proof that
    [http_ws_recv] of [src/c_http_ws.c] delivers exactly the messages of the
    stream, however the network cuts it, answering the pings on the way. *)

From S2P Require Import Prelude CLib World Net WsSession.
#[local] Open Scope Z_scope.

(** ** The stream *)

(** The pong a server answers a ping with. *)
Definition pong (payload : bytes) : bytes := frame_header WS_OP_PONG (zlen payload) ++ payload.

Definition data_opcode (active : bool) (op : Z) : Z := if active then WS_OP_CONT else op.

Definition mask_ok (f : Frame) : Prop := length (fr_mask f) = 4%nat.

(** The frames [fs] complete a message of type [op] to [m] - [acc] is what earlier
    fragments hold, if there are any ([active]) - and ask for [pongs]. *)
Inductive delivers (max op : Z) : bool → bytes → list Frame → bytes → bytes → Prop :=
  | d_last active acc f :
      mask_ok f → fr_opcode f = data_opcode active op → fr_fin f = true →
      zlen (acc ++ fr_payload f) <= max →
      delivers max op active acc [f] (acc ++ fr_payload f) []
  | d_more active acc f fs m pongs :
      mask_ok f → fr_opcode f = data_opcode active op → fr_fin f = false →
      zlen (acc ++ fr_payload f) <= max →
      delivers max op true (acc ++ fr_payload f) fs m pongs →
      delivers max op active acc (f :: fs) m pongs
  | d_ping active acc f fs m pongs :
      mask_ok f → fr_opcode f = WS_OP_PING → fr_fin f = true → zlen (fr_payload f) <= 125 →
      delivers max op active acc fs m pongs →
      delivers max op active acc (f :: fs) m (pong (fr_payload f) ++ pongs)
  | d_pong active acc f fs m pongs :
      mask_ok f → fr_opcode f = WS_OP_PONG → fr_fin f = true → zlen (fr_payload f) <= 125 →
      delivers max op active acc fs m pongs →
      delivers max op active acc (f :: fs) m pongs.

Definition frames (fs : list Frame) : bytes := concat (map encode_frame fs).

Definition message_opcode (op : Z) : Prop := op = WS_OP_TEXT ∨ op = WS_OP_BINARY.

(** ** Masking *)

Lemma unmask_involutive mask i p : unmask mask i (unmask mask i p) = p.
Proof.
  revert i. induction p as [|b p IH]; intros i; cbn [unmask]; [done|].
  rewrite IH, Z.lxor_assoc, Z.lxor_nilpotent, Z.lxor_0_r. done.
Qed.

Lemma unmask_app mask i p q : unmask mask i (p ++ q) = unmask mask i p ++ unmask mask (i + zlen p) q.
Proof.
  revert i. induction p as [|b p IH]; intros i; cbn [unmask app].
  - by rewrite zlen_nil, Z.add_0_r.
  - rewrite IH, zlen_cons. do 3 f_equal. lia.
Qed.

(** A chunk out of the middle of a masked payload. *)
Lemma unmask_chunk mask payload d n :
  0 <= d → 0 <= n → d + n <= zlen payload →
  unmask mask d (ztake n (zdrop d (unmask mask 0 payload))) = ztake n (zdrop d payload).
Proof.
  intros Hd Hn Hl.
  assert (∀ p, zdrop d (unmask mask 0 (ztake d payload ++ p)) = unmask mask d p) as Hdrop.
  { intros p. rewrite unmask_app.
    assert (zlen (ztake d payload) = d) as Ht by (rewrite zlen_ztake by lia; lia).
    rewrite <- Ht at 1. rewrite <- (zlen_unmask mask 0 (ztake d payload)) at 1.
    rewrite zdrop_app_length. by rewrite Ht. }
  rewrite <- (ztake_zdrop d payload) at 1. rewrite Hdrop.
  assert (zlen (ztake n (zdrop d payload)) = n) as Ht by (rewrite zlen_ztake, zlen_zdrop by lia; lia).
  rewrite <- (ztake_zdrop n (zdrop d payload)) at 1. rewrite unmask_app.
  rewrite <- Ht at 1. rewrite <- (zlen_unmask mask d (ztake n (zdrop d payload))) at 1.
  by rewrite ztake_app_length, unmask_involutive.
Qed.

(** ** The header bytes *)

Lemma header_fin fin op :
  op ∈ [WS_OP_CONT; WS_OP_TEXT; WS_OP_BINARY; WS_OP_CLOSE; WS_OP_PING; WS_OP_PONG] →
  let b0 := Z.lor (if (fin : bool) then 0x80 else 0) op in
  negb (Z.land b0 0x80 =? 0) = fin ∧ Z.land b0 0x0F = op ∧ Z.land b0 0x70 = 0.
Proof.
  intros H. rewrite !elem_of_cons in H. cbv zeta.
  destruct H as [->|[->|[->|[->|[->|[->|H]]]]]]; [destruct fin; vm_compute; done..|].
  by apply elem_of_nil in H.
Qed.

Lemma length_byte len : 0 <= len < 128 → Z.land (Z.lor 0x80 len) 0x80 ≠ 0 ∧ Z.land (Z.lor 0x80 len) 0x7F = len.
Proof.
  intros H.
  assert (forallb (λ n, let len := Z.of_nat n in
     negb (Z.land (Z.lor 0x80 len) 0x80 =? 0) && (Z.land (Z.lor 0x80 len) 0x7F =? len)) (seq 0 128) = true) as Hc
    by by vm_compute.
  rewrite forallb_forall in Hc. specialize (Hc (Z.to_nat len)). rewrite Z2Nat.id in Hc by lia.
  cbv zeta in Hc. apply andb_true_iff in Hc as [H1 H2]; [|apply in_seq; lia].
  split; [by apply negb_true_iff, Z.eqb_neq in H1|by apply Z.eqb_eq].
Qed.

Lemma be_value_two len : 0 <= len < 65536 → be_value [Z.shiftr len 8 mod 256; len mod 256] = len.
Proof.
  intros H. unfold be_value. cbn [fold_left]. rewrite Z.shiftl_0_l, Z.lor_0_l, Z.shiftr_div_pow2 by lia.
  rewrite Z.shiftl_mul_pow2 by lia. change (2 ^ 8) with 256.
  rewrite (Z.mod_small (len / 256)) by (Z.to_euclidean_division_equations; lia).
  rewrite (lor_add 8); [|lia|apply Z_mod_mult|apply Z.mod_pos_bound; lia].
  pose proof (Z.div_mod len 256 ltac:(lia)). lia.
Qed.

(** Eight bytes, most significant first. *)
Lemma be_value_app p b : 0 <= b < 256 → be_value (p ++ [b]) = be_value p * 256 + b.
Proof.
  intros H. unfold be_value. rewrite fold_left_app. cbn [fold_left].
  rewrite Z.shiftl_mul_pow2 by lia. change (2 ^ 8) with 256. apply (lor_add 8); [lia|apply Z_mod_mult|lia].
Qed.

Lemma be_value_digits n len :
  0 <= len < 256 ^ Z.of_nat n →
  be_value (map (λ i, Z.shiftr len (8 * Z.of_nat n - 8 - 8 * Z.of_nat i) mod 256) (seq 0 n)) = len.
Proof.
  revert len. induction n as [|n IH]; intros len H; [change (256 ^ Z.of_nat 0) with 1 in H; cbn; lia|].
  rewrite seq_S, map_app. cbn [map]. rewrite be_value_app by (apply Z.mod_pos_bound; lia).
  replace (8 * Z.of_nat (S n) - 8 - 8 * Z.of_nat (0 + n)) with 0 by lia. rewrite Z.shiftr_0_r.
  rewrite Nat2Z.inj_succ, Z.pow_succ_r in H by lia.
  pose proof (Z.div_mod len 256 ltac:(lia)).
  assert (map (λ i, Z.shiftr len (8 * Z.of_nat (S n) - 8 - 8 * Z.of_nat i) mod 256) (seq 0 n)
    = map (λ i, Z.shiftr (len / 256) (8 * Z.of_nat n - 8 - 8 * Z.of_nat i) mod 256) (seq 0 n)) as ->.
  { apply map_ext_in. intros i Hi%in_seq. f_equal. change 256 with (2 ^ 8).
    rewrite <- Z.shiftr_div_pow2 by lia. rewrite Z.shiftr_shiftr by lia. f_equal. lia. }
  rewrite IH; [lia|]. Z.to_euclidean_division_equations. nia.
Qed.

Lemma be_value_eight len :
  0 <= len < 2 ^ 64 →
  be_value (map (λ i, Z.shiftr len (56 - 8 * Z.of_nat i) mod 256) (seq 0 8)) = len.
Proof. intros H. apply (be_value_digits 8 len). exact H. Qed.

(** ** Where the parser stands in the stream *)

Definition unread (ws : HttpWs) : bytes := zdrop (ws_pos ws) (ws_in ws).

Definition len7 (len : Z) : Z := if len <? 126 then len else if len <? 65536 then 126 else 127.
Definition len_ext (len : Z) : bytes :=
  if len <? 126 then []
  else if len <? 65536 then [Z.shiftr len 8 mod 256; len mod 256]
  else map (λ i, Z.shiftr len (56 - 8 * Z.of_nat i) mod 256) (seq 0 8).

Lemma client_length_split len : client_length len = Z.lor 0x80 (len7 len) :: len_ext len.
Proof. unfold client_length, len7, len_ext. by repeat case_if. Qed.

Definition masked (f : Frame) : bytes := unmask (fr_mask f) 0 (fr_payload f).

(** Inside the frame [f], [acc] being the message before it. *)
Record in_frame (op : Z) (ws : HttpWs) (acc : bytes) (f : Frame) (fs : list Frame) (m pongs : bytes)
  : Prop := {
  if_fin : ws_fin ws = fr_fin f;
  if_opcode : ws_opcode ws = fr_opcode f;
  if_delivers : delivers (ws_max_message ws) op (ws_msg_active ws) acc (f :: fs) m pongs;
  if_msg_opcode : ws_opcode ws < WS_OP_CLOSE ∨ ws_msg_active ws = true → ws_msg_opcode ws = op;
}.

(** What the rest of the stream holds, before the parser delivers [m]. *)
Inductive expects (op : Z) (ws : HttpWs) : bytes → bytes → bytes → Prop :=
  | ex_header fs m pongs :
      ws_state ws = WS_NEED_HEADER →
      delivers (ws_max_message ws) op (ws_msg_active ws) (default [] (ws_msg ws)) fs m pongs →
      (ws_msg_active ws = true → ws_msg_opcode ws = op) →
      expects op ws (frames fs) m pongs
  | ex_length f fs m pongs :
      ws_state ws = (if zlen (fr_payload f) <? 65536 then WS_NEED_LEN16 else WS_NEED_LEN64) →
      126 <= zlen (fr_payload f) → fr_opcode f < WS_OP_CLOSE →
      in_frame op ws (default [] (ws_msg ws)) f fs m pongs →
      expects op ws (len_ext (zlen (fr_payload f)) ++ fr_mask f ++ masked f ++ frames fs) m pongs
  | ex_mask f fs m pongs :
      ws_state ws = WS_NEED_MASK → ws_payload_len ws = zlen (fr_payload f) →
      in_frame op ws (default [] (ws_msg ws)) f fs m pongs →
      expects op ws (fr_mask f ++ masked f ++ frames fs) m pongs
  | ex_payload acc f fs m pongs :
      ws_state ws = WS_NEED_PAYLOAD → ws_payload_len ws = zlen (fr_payload f) →
      ws_mask ws = fr_mask f → 0 <= ws_payload_done ws <= zlen (fr_payload f) →
      default [] (ws_msg ws) = (if fr_opcode f <? WS_OP_CLOSE
        then acc ++ ztake (ws_payload_done ws) (fr_payload f) else acc) →
      (WS_OP_CLOSE <= fr_opcode f → ws_ctrl ws = ztake (ws_payload_done ws) (fr_payload f)) →
      in_frame op ws acc f fs m pongs →
      expects op ws (zdrop (ws_payload_done ws) (masked f) ++ frames fs) m pongs.

(** After the message: between messages, and alive. *)
Record ready (ws : HttpWs) : Prop := {
  rd_ok : ws_ok ws;
  rd_alive : ws_dead ws = false;
  rd_state : ws_state ws = WS_NEED_HEADER;
  rd_active : ws_msg_active ws = false;
  rd_msg : ws_msg ws = None;
}.

(** What the world has beyond [w]: [s] was sent; nothing can fail. *)
Definition sent_more (w : World) (s : bytes) (w' : World) : Prop :=
  w_sent w' = w_sent w ++ s ∧ w_send w' = [] ∧ w_alloc w' = [] ∧ w_recv w' = w_recv w ∧
  w_listening w' = w_listening w.

Lemma sent_nothing w : w_send w = [] → w_alloc w = [] → sent_more w [] w.
Proof. intros H1 H2. unfold sent_more. by rewrite app_nil_r. Qed.

Lemma delivers_nonempty max op active acc fs m pongs : delivers max op active acc fs m pongs → fs ≠ [].
Proof. by inversion 1. Qed.

(** The first frame of a message: a data frame that fits, or a ping or a pong. *)
Lemma delivers_head max op active acc f fs m pongs :
  message_opcode op → delivers max op active acc (f :: fs) m pongs →
  mask_ok f ∧ known_opcode (fr_opcode f) = true ∧
  ((fr_opcode f < WS_OP_CLOSE ∧ fr_opcode f = data_opcode active op ∧ zlen (acc ++ fr_payload f) <= max) ∨
   (WS_OP_CLOSE <= fr_opcode f ∧ fr_fin f = true ∧ zlen (fr_payload f) <= 125 ∧
    (fr_opcode f = WS_OP_PING ∨ fr_opcode f = WS_OP_PONG))).
Proof.
  intros Hop H.
  assert (∀ a : bool, data_opcode a op < WS_OP_CLOSE ∧ known_opcode (data_opcode a op) = true) as Hd.
  { intros a. destruct Hop as [-> | ->], a; by vm_compute. }
  inversion H; subst.
  - split; [done|]. match goal with E : fr_opcode f = _ |- _ => rewrite E end. split; [apply Hd|]. left.
    split; [apply Hd|]. done.
  - split; [done|]. match goal with E : fr_opcode f = _ |- _ => rewrite E end. split; [apply Hd|]. left.
    split; [apply Hd|]. done.
  - split; [done|]. match goal with E : fr_opcode f = _ |- _ => rewrite E end. split; [by vm_compute|].
    right. split; [by vm_compute|]. split; [done|]. split; [done|]. tauto.
  - split; [done|]. match goal with E : fr_opcode f = _ |- _ => rewrite E end. split; [by vm_compute|].
    right. split; [by vm_compute|]. split; [done|]. split; [done|]. tauto.
Qed.

Lemma zlen_unread ws : ws_ok ws → zlen (unread ws) = ws_avail ws.
Proof. intros [Hp _ _ _ _]. unfold unread, ws_avail. rewrite zlen_zdrop by lia. lia. Qed.

Lemma byte_of_unread ws i : ws_ok ws → 0 <= i → byte_of (ws_in ws) (ws_pos ws + i) = byte_of (unread ws) i.
Proof.
  intros [Hp _ _ _ _] Hi. unfold byte_of, unread, zdrop. rewrite lookup_drop. do 2 f_equal. lia.
Qed.

Lemma zdrop_zdrop {A} n k (s : list A) : 0 <= n → 0 <= k → zdrop n (zdrop k s) = zdrop (k + n) s.
Proof. intros Hn Hk. unfold zdrop. rewrite drop_drop. f_equal. lia. Qed.

(** The front of the stream is in the buffer once enough of it has arrived. *)
Lemma front_arrived (a U V R : bytes) :
  U ++ V = a ++ R → zlen a <= zlen U → U = a ++ zdrop (zlen a) U ∧ zdrop (zlen a) U ++ V = R.
Proof.
  intros E Hl. assert (ztake (zlen a) U = a) as Ht.
  { assert (ztake (zlen a) (U ++ V) = a) as H by by rewrite E, ztake_app_length.
    unfold ztake, zlen in *. rewrite take_app_le in H by lia. done. }
  split; [by rewrite <- Ht at 1; rewrite ztake_zdrop|].
  apply (app_inv_head a). rewrite app_assoc. rewrite <- Ht at 1. by rewrite ztake_zdrop.
Qed.

(** ** One round of the parser *)

(** What a round does to a session that stands at the front of [R ++ tail], of
    which [V] has not arrived yet. *)
Definition round_spec (op : Z) (ws : HttpWs) (w : World) (V R tail m pongs : bytes) : Prop :=
  match ws_parse_step ws w with
  | ((PNext, ws'), w') =>
      ∃ R' s pongs', expects op ws' R' m pongs' ∧ unread ws' ++ V = R' ++ tail ∧ pongs = s ++ pongs' ∧
        sent_more w s w' ∧ ws_dead ws' = false
  | ((PNeed, ws'), w') => ws' = ws ∧ w' = w ∧ zlen (unread ws) < zlen R
  | ((PReturn WS_PARSE_MESSAGE, ws'), w') =>
      (∃ t, ws_cur ws' = Some {| wm_type := t; wm_data := m |} ∧
            (t = HTTP_WS_TEXT ↔ op = WS_OP_TEXT)) ∧
      ready ws' ∧ unread ws' ++ V = tail ∧ pongs = [] ∧ sent_more w [] w'
  | _ => False
  end.

Lemma frame_length_known_data ws w :
  ws_msg_len ws + ws_payload_len ws <= ws_max_message ws < 2 ^ 64 ∨ WS_OP_CLOSE <= ws_opcode ws →
  ws_frame_length_known ws w = ((WS_PARSE_CONTINUE, set_ws_state WS_NEED_MASK ws), w).
Proof.
  intros H. unfold ws_frame_length_known. pose proof (ws_msg_len_nonneg ws).
  destruct (Z.ltb_spec (ws_opcode ws) WS_OP_CLOSE); [|done].
  destruct H as [H|H]; [|lia].
  destruct (Z.ltb_spec ((ws_max_message ws - ws_msg_len ws) mod 2 ^ 64) (ws_payload_len ws)) as [Hl|Hl]; [|done].
  destruct (decide (0 <= ws_max_message ws - ws_msg_len ws)).
  - rewrite Z.mod_small in Hl by lia. lia.
  - pose proof (Z.mod_pos_bound (ws_max_message ws - ws_msg_len ws) (2 ^ 64) ltac:(lia)). lia.
Qed.

Lemma unread_pos ws ws' n :
  0 <= ws_pos ws → 0 <= n → ws_in ws' = ws_in ws → ws_pos ws' = ws_pos ws + n →
  unread ws' = zdrop n (unread ws).
Proof. intros Hp Hn E1 E2. unfold unread. rewrite E1, E2. by rewrite zdrop_zdrop. Qed.

Lemma mask_round op ws w V f fs m pongs tail :
  ws_ok ws → ws_dead ws = false → w_send w = [] → w_alloc w = [] → message_opcode op →
  ws_state ws = WS_NEED_MASK → ws_payload_len ws = zlen (fr_payload f) →
  in_frame op ws (default [] (ws_msg ws)) f fs m pongs →
  unread ws ++ V = (fr_mask f ++ masked f ++ frames fs) ++ tail →
  round_spec op ws w V (fr_mask f ++ masked f ++ frames fs) tail m pongs.
Proof.
  intros Hok Hd Hs Ha Hop Hst Hlen Hf HU. pose proof (if_delivers _ _ _ _ _ _ _ Hf) as Hdel.
  destruct (delivers_head _ _ _ _ _ _ _ _ Hop Hdel) as (Hm & _ & _).
  assert (zlen (fr_mask f) = 4) as Hm4 by (unfold zlen; by rewrite Hm).
  unfold round_spec, ws_parse_step. rewrite Hst. unfold ws_parse_mask.
  rewrite <- zlen_unread by done. destruct (Z.ltb_spec (zlen (unread ws)) 4) as [Hl|Hl].
  { split; [done|]. split; [done|]. rewrite !zlen_app, Hm4.
    pose proof (zlen_nonneg (masked f)). pose proof (zlen_nonneg (frames fs)). lia. }
  destruct (front_arrived (fr_mask f) (unread ws) V ((masked f ++ frames fs) ++ tail)) as [HU1 HU2].
  { rewrite HU. by rewrite <- !app_assoc. } { lia. }
  rewrite Hm4 in *. set (ws1 := set_ws_state _ _). cbv zeta.
  exists (zdrop (ws_payload_done ws1) (masked f) ++ frames fs), [], pongs.
  assert (ztake 4 (unread ws) = fr_mask f) as Hmask.
  { rewrite HU1. rewrite <- Hm4. apply ztake_app_length. }
  split; [|split; [|split; [done|split; [by apply sent_nothing|done]]]].
  - apply ex_payload with (acc := default [] (ws_msg ws)); try done; unfold ws1; ws_cbn.
    + pose proof (zlen_nonneg (fr_payload f)). lia.
    + case_if; [|done]. by rewrite app_nil_r.
    + by destruct Hf.
  - rewrite (unread_pos ws ws1 4); [by rewrite HU2|apply Hok|lia|done|done].
Qed.

Lemma len_ext_value len :
  126 <= len < 2 ^ 63 →
  be_value (len_ext len) = len ∧ zlen (len_ext len) = (if len <? 65536 then 2 else 8).
Proof.
  intros H. unfold len_ext. rewrite (proj2 (Z.ltb_ge len 126)) by lia.
  case_if; breflect; (split; [|done]); [apply be_value_two|apply be_value_eight]; lia.
Qed.

Lemma length_round op ws w V f fs m pongs tail :
  ws_ok ws → ws_dead ws = false → w_send w = [] → w_alloc w = [] → message_opcode op →
  ws_state ws = (if zlen (fr_payload f) <? 65536 then WS_NEED_LEN16 else WS_NEED_LEN64) →
  126 <= zlen (fr_payload f) → fr_opcode f < WS_OP_CLOSE →
  in_frame op ws (default [] (ws_msg ws)) f fs m pongs →
  unread ws ++ V = (len_ext (zlen (fr_payload f)) ++ fr_mask f ++ masked f ++ frames fs) ++ tail →
  round_spec op ws w V (len_ext (zlen (fr_payload f)) ++ fr_mask f ++ masked f ++ frames fs) tail m pongs.
Proof.
  intros Hok Hd Hs Ha Hop Hst Hbig Hdata Hf HU.
  pose proof (if_delivers _ _ _ _ _ _ _ Hf) as Hdel.
  destruct (delivers_head _ _ _ _ _ _ _ _ Hop Hdel) as (Hm & _ & [(_ & _ & Hfit)|(Hc & _)]); [|lia].
  rewrite zlen_app in Hfit. pose proof (zlen_nonneg (default [] (ws_msg ws))) as Hacc.
  pose proof (ok_max ws Hok) as [_ Hmax].
  set (len := zlen (fr_payload f)) in *.
  destruct (len_ext_value len) as [Hval Hext]; [lia|].
  unfold round_spec, ws_parse_step.
  assert (match ws_state ws with
    | WS_NEED_HEADER => ws_parse_header ws | WS_NEED_LEN16 | WS_NEED_LEN64 => ws_parse_length ws
    | WS_NEED_MASK => ws_parse_mask ws | WS_NEED_PAYLOAD => ws_parse_payload ws end = ws_parse_length ws)
    as -> by (rewrite Hst; by case_if).
  unfold ws_parse_length.
  assert (bool_decide (ws_state ws = WS_NEED_LEN16) = (len <? 65536)) as ->.
  { rewrite Hst. by case_if. }
  rewrite <- Hext. rewrite <- zlen_unread by done.
  destruct (Z.ltb_spec (zlen (unread ws)) (zlen (len_ext len))) as [Hl|Hl].
  { split; [done|]. split; [done|]. rewrite (zlen_app (len_ext len)).
    pose proof (zlen_nonneg (fr_mask f ++ masked f ++ frames fs)). rewrite (zlen_app (fr_mask f)).
    assert (zlen (fr_mask f) = 4) as -> by (unfold zlen; by rewrite Hm).
    pose proof (zlen_nonneg (masked f ++ frames fs)). lia. }
  destruct (front_arrived (len_ext len) (unread ws) V ((fr_mask f ++ masked f ++ frames fs) ++ tail)) as [HU1 HU2].
  { rewrite HU. by rewrite <- !app_assoc. } { lia. }
  assert (ztake (zlen (len_ext len)) (zdrop (ws_pos ws) (ws_in ws)) = len_ext len) as ->.
  { fold (unread ws). rewrite HU1. apply ztake_app_length. }
  rewrite Hval. cbv zeta. rewrite Z.shiftr_div_pow2 by lia.
  rewrite (Z.div_small len) by lia. change (0 =? 0) with true. cbn [negb]. rewrite andb_false_r.
  set (ws1 := set_ws_pos _ _).
  assert ((len <? 65536) && (len <? 126) = false) as -> by lia.
  assert (negb (len <? 65536) && (len <? 65536) = false) as -> by lia.
  unfold or_return. rewrite bind_run. unfold result, world.
  rewrite frame_length_known_data.
  2: { left. unfold ws_msg_len. unfold ws1. ws_cbn. pose proof (ok_max ws Hok). unfold len. lia. }
  cbn [fst snd mret M_ret].
  set (ws2 := set_ws_state WS_NEED_MASK ws1).
  exists (fr_mask f ++ masked f ++ frames fs), [], pongs.
  split; [|split; [|split; [done|split; [by apply sent_nothing|done]]]].
  - apply ex_mask; [done..|]. by destruct Hf.
  - rewrite (unread_pos ws ws2 (zlen (len_ext len))); [by rewrite HU2|apply Hok|apply zlen_nonneg|done|done].
Qed.

(** A header that a message may have, read from the buffer. *)
Lemma parse_header_frame ws w f U :
  ws_ok ws → unread ws = Z.lor (if fr_fin f then 0x80 else 0) (fr_opcode f) ::
                         Z.lor 0x80 (len7 (zlen (fr_payload f))) :: U →
  known_opcode (fr_opcode f) = true →
  (fr_opcode f < WS_OP_CLOSE ∧ (fr_opcode f = WS_OP_CONT ↔ ws_msg_active ws = true) ∨
   WS_OP_CLOSE <= fr_opcode f ∧ fr_fin f = true ∧ zlen (fr_payload f) <= 125) →
  ∃ ws1, ws_fin ws1 = fr_fin f ∧ ws_opcode ws1 = fr_opcode f ∧ ws_in ws1 = ws_in ws ∧
    ws_pos ws1 = ws_pos ws + 2 ∧ ws_msg ws1 = ws_msg ws ∧ ws_msg_active ws1 = ws_msg_active ws ∧
    ws_max_message ws1 = ws_max_message ws ∧ ws_dead ws1 = ws_dead ws ∧
    ws_msg_opcode ws1 = (if (fr_opcode f <? WS_OP_CLOSE) && negb (fr_opcode f =? WS_OP_CONT)
                         then fr_opcode f else ws_msg_opcode ws) ∧
    ws_parse_header ws w =
      (if zlen (fr_payload f) <? 126
       then or_return (ws_frame_length_known (set_ws_payload_len (zlen (fr_payload f)) ws1)) w
       else ((PNext, set_ws_state (if zlen (fr_payload f) <? 65536 then WS_NEED_LEN16 else WS_NEED_LEN64) ws1), w)).
Proof.
  intros Hok HU Hk Hcase. pose proof (zlen_nonneg (fr_payload f)) as Hlen0.
  unfold ws_parse_header. rewrite <- zlen_unread by done. rewrite HU, !zlen_cons.
  pose proof (zlen_nonneg U). destruct (Z.ltb_spec (1 + (1 + zlen U)) 2); [lia|].
  pose proof (byte_of_unread ws 0 Hok ltac:(lia)) as Hb0. rewrite Z.add_0_r in Hb0.
  pose proof (byte_of_unread ws 1 Hok ltac:(lia)) as Hb1. rewrite HU in Hb0, Hb1.
  change (byte_of (?x :: _) 0) with x in Hb0. change (byte_of (_ :: ?x :: _) 1) with x in Hb1.
  rewrite Hb0, Hb1. clear Hb0 Hb1.
  destruct (header_fin (fr_fin f) (fr_opcode f)) as (H1 & H2 & H3).
  { unfold known_opcode in Hk. by apply bool_decide_eq_true in Hk. }
  assert (0 <= len7 (zlen (fr_payload f)) < 128) as Hl7 by (unfold len7; repeat case_if; breflect; lia).
  destruct (length_byte _ Hl7) as [H4 H5]. cbv zeta.
  rewrite H1, H2, H3, H5. rewrite (proj2 (Z.eqb_neq _ 0) H4).
  set (wsb := set_ws_masked _ _).
  assert (ws_masked wsb = true ∧ ws_opcode wsb = fr_opcode f ∧ ws_fin wsb = fr_fin f ∧
    ws_msg_active wsb = ws_msg_active ws) as (-> & -> & -> & ->) by done. change (0 =? 0) with true. cbn [negb]. rewrite Hk. cbn [negb].
  assert ((WS_OP_CLOSE <=? fr_opcode f) && ((125 <? len7 (zlen (fr_payload f))) || negb (fr_fin f)) = false) as ->.
  { destruct Hcase as [[Hc _]|(Hc & -> & Hs)]; [lia|]. unfold len7.
    destruct (Z.ltb_spec (zlen (fr_payload f)) 126); [|lia]. cbn [negb]. lia. }
  assert (negb (WS_OP_CLOSE <=? fr_opcode f) && (fr_opcode f =? WS_OP_CONT) && negb (ws_msg_active ws) = false) as ->.
  { destruct Hcase as [[Hc Ha]|(Hc & _)]; [|lia].
    destruct (Z.eqb_spec (fr_opcode f) WS_OP_CONT); [|by rewrite andb_false_r].
    rewrite (proj1 Ha) by done. by rewrite andb_false_r. }
  assert (negb (WS_OP_CLOSE <=? fr_opcode f) && negb (fr_opcode f =? WS_OP_CONT) && ws_msg_active ws = false) as ->.
  { destruct Hcase as [[Hc Ha]|(Hc & _)]; [|lia].
    destruct (Z.eqb_spec (fr_opcode f) WS_OP_CONT); [by rewrite andb_false_r|].
    destruct (ws_msg_active ws); [by exfalso; apply n, Ha|apply andb_false_r]. }
  assert (negb (WS_OP_CLOSE <=? fr_opcode f) = (fr_opcode f <? WS_OP_CLOSE)) as -> by lia.
  exists (if (fr_opcode f <? WS_OP_CLOSE) && negb (fr_opcode f =? WS_OP_CONT)
          then set_ws_msg_opcode (fr_opcode f) wsb else wsb).
  set (ws1 := if (fr_opcode f <? WS_OP_CLOSE) && _ then set_ws_msg_opcode _ _ else wsb). repeat (split; [unfold ws1; by case_if|]). unfold len7.
  destruct (Z.ltb_spec (zlen (fr_payload f)) 126) as [Hs|Hs].
  { by rewrite (proj2 (Z.ltb_lt _ _) Hs). }
  destruct (Z.ltb_spec (zlen (fr_payload f)) 65536) as [Hs'|Hs']; done.
Qed.

Lemma header_round op ws w V fs m pongs tail :
  ws_ok ws → ws_dead ws = false → w_send w = [] → w_alloc w = [] → message_opcode op →
  ws_state ws = WS_NEED_HEADER →
  delivers (ws_max_message ws) op (ws_msg_active ws) (default [] (ws_msg ws)) fs m pongs →
  (ws_msg_active ws = true → ws_msg_opcode ws = op) →
  unread ws ++ V = frames fs ++ tail →
  round_spec op ws w V (frames fs) tail m pongs.
Proof.
  intros Hok Hd Hs Ha Hop Hst Hdel Hact HU.
  destruct fs as [|f fs]; [by apply delivers_nonempty in Hdel|].
  destruct (delivers_head _ _ _ _ _ _ _ _ Hop Hdel) as (Hm & Hk & Hcase).
  set (b0 := Z.lor (if fr_fin f then 0x80 else 0) (fr_opcode f)).
  set (b1 := Z.lor 0x80 (len7 (zlen (fr_payload f)))).
  set (rest := fr_mask f ++ masked f ++ frames fs).
  assert (frames (f :: fs) = [b0; b1] ++ len_ext (zlen (fr_payload f)) ++ rest) as HR.
  { unfold frames, rest. cbn [map concat]. unfold encode_frame. rewrite client_length_split.
    cbn [app]. by rewrite <- !app_assoc. }
  unfold round_spec, ws_parse_step. rewrite Hst.
  destruct (Z.ltb_spec (zlen (unread ws)) 2) as [Hl|Hl].
  { unfold ws_parse_header. rewrite <- zlen_unread by done. rewrite (proj2 (Z.ltb_lt _ _) Hl).
    split; [done|]. split; [done|]. rewrite HR, zlen_app. change (zlen [b0; b1]) with 2.
    pose proof (zlen_nonneg (len_ext (zlen (fr_payload f)) ++ rest)). lia. }
  rewrite HR in HU.
  destruct (front_arrived [b0; b1] (unread ws) V ((len_ext (zlen (fr_payload f)) ++ rest) ++ tail)) as [HU1 HU2].
  { by rewrite HU, <- !app_assoc. } { done. }
  change (zlen [b0; b1]) with 2 in HU1, HU2.
  destruct (parse_header_frame ws w f (zdrop 2 (unread ws))) as
    (ws1 & E1 & E2 & E3 & E4 & E5 & E6 & E7 & E8 & E9 & ->); [done|exact HU1|done| |].
  { destruct Hcase as [(Hc & Ho & _)|(Hc & Hf & Hs' & _)]; [left|right; done]. split; [done|].
    rewrite Ho. unfold data_opcode. destruct (ws_msg_active ws); [done|].
    destruct Hop as [-> | ->]; by split. }
  pose proof (zlen_nonneg (fr_payload f)) as Hlen0.
  assert (∀ ws2, ws_fin ws2 = ws_fin ws1 → ws_opcode ws2 = ws_opcode ws1 → ws_max_message ws2 = ws_max_message ws1 →
    ws_msg_active ws2 = ws_msg_active ws1 → ws_msg_opcode ws2 = ws_msg_opcode ws1 →
    ws_msg ws2 = ws_msg ws1 →
    in_frame op ws2 (default [] (ws_msg ws2)) f fs m pongs) as Hin.
  { intros ws2 F1 F2 F3 F4 F5 F6. split; [congruence|congruence|by rewrite F3, F4, F6, E5, E6, E7|].
    rewrite F2, F4, F5, E2, E6, E9. intros Hor.
    destruct Hcase as [(Hc & Ho & _)|(Hc & _)].
    - rewrite (proj2 (Z.ltb_lt _ _) Hc). cbn [andb]. rewrite Ho. unfold data_opcode.
      destruct (ws_msg_active ws) eqn:Eact.
      + cbn. by apply Hact.
      + destruct Hop as [-> | ->]; done.
    - rewrite (proj2 (Z.ltb_ge _ _) Hc). cbn [andb]. destruct Hor as [Hor|Hor]; [lia|by apply Hact]. }
  assert (0 <= ws_pos ws) as Hp by apply Hok.
  destruct (Z.ltb_spec (zlen (fr_payload f)) 126) as [Hsm|Hbig].
  - unfold or_return. rewrite bind_run. unfold result, world. rewrite frame_length_known_data.
    2: { destruct Hcase as [(Hc & _ & Hfit)|(Hc & _)]; [left|right; ws_cbn; by rewrite E2].
         unfold ws_msg_len. ws_cbn. rewrite E5, E7. rewrite zlen_app in Hfit.
         pose proof (ok_max ws Hok). lia. }
    cbn [fst snd mret M_ret]. set (ws2 := set_ws_state _ _).
    exists rest, [], pongs. split; [|split; [|split; [done|split; [by apply sent_nothing|by rewrite <- Hd]]]].
    + apply ex_mask; [done..|]. by apply Hin.
    + rewrite (unread_pos ws ws2 2) by (done || lia). rewrite HU2. f_equal. unfold len_ext.
      by rewrite (proj2 (Z.ltb_lt _ _) Hsm).
  - set (ws2 := set_ws_state _ _).
    exists (len_ext (zlen (fr_payload f)) ++ rest), [], pongs.
    split; [|split; [|split; [done|split; [by apply sent_nothing|by rewrite <- Hd]]]].
    + apply ex_length; [done|lia| |by apply Hin].
      destruct Hcase as [(Hc & _)|(_ & _ & Hs' & _)]; [done|lia].
    + rewrite (unread_pos ws ws2 2) by (done || lia). by rewrite HU2.
Qed.

Lemma send_frame_quiet ws op p w :
  ws_dead ws = false → w_send w = [] →
  ∃ w', ws_send_frame ws op p w = ((0, ws), w') ∧ w_sent w' = w_sent w ++ frame_header op (zlen p) ++ p ∧
    w_send w' = [] ∧ w_alloc w' = w_alloc w ∧ w_recv w' = w_recv w ∧ w_listening w' = w_listening w.
Proof.
  intros Hd Hw. unfold ws_send_frame. rewrite Hd. unfold ws_send_frame_locked, ws_send_raw.
  rewrite bind_run. unfold result, world. rewrite send_all_quiet by done. cbn [fst snd].
  change (0 =? 0) with true. cbn [negb]. rewrite bind_run. unfold result, world.
  destruct (Z.ltb_spec 0 (zlen p)).
  - rewrite send_all_quiet by done. cbn [fst snd]. change (0 =? 0) with true. cbn [negb].
    eexists. split; [done|]. cbn. by rewrite <- app_assoc.
  - rewrite (zlen_nil_inv p) by (pose proof (zlen_nonneg p); lia). eexists. split; [done|].
    cbn [with_send w_sent w_send w_alloc w_recv w_listening snd mret M_ret]. by rewrite !app_nil_r.
Qed.

Lemma zlen_masked f : zlen (masked f) = zlen (fr_payload f).
Proof. apply zlen_unmask. Qed.

(** The end of a frame: a pong for a ping, the next fragment, or the message. *)
Lemma frame_complete_round op ws w V acc f fs m pongs tail :
  ws_ok ws → ws_dead ws = false → w_send w = [] → w_alloc w = [] → message_opcode op →
  ws_state ws = WS_NEED_PAYLOAD → ws_payload_len ws = zlen (fr_payload f) →
  ws_payload_done ws = zlen (fr_payload f) →
  default [] (ws_msg ws) = (if fr_opcode f <? WS_OP_CLOSE then acc ++ fr_payload f else acc) →
  (WS_OP_CLOSE <= fr_opcode f → ws_ctrl ws = fr_payload f) →
  in_frame op ws acc f fs m pongs →
  unread ws ++ V = frames fs ++ tail →
  round_spec op ws w V (frames fs) tail m pongs.
Proof.
  intros Hok Hd Hs Ha Hop Hst Hlen Hdone Hmsg Hctrl [F1 F2 F3 F4] HU.
  unfold round_spec, ws_parse_step. rewrite Hst. unfold ws_parse_payload.
  rewrite Hlen, Hdone, Z.eqb_refl. unfold ws_frame_complete.
  set (ws1 := set_ws_payload_done _ _).
  assert (ws_ok ws1) as Hok1 by (destruct Hok; by split).
  assert (ws_opcode ws1 = fr_opcode f ∧ ws_fin ws1 = fr_fin f ∧ ws_msg ws1 = ws_msg ws ∧ ws_dead ws1 = false)
    as (E1 & E2 & E3 & E4) by done.
  rewrite E1, E2, E3. rewrite F2 in F4.
  inversion F3; subst.
  - (* the last fragment *)
    match goal with H : fr_fin f = true |- _ => rewrite H end.
    match goal with H : fr_opcode f = data_opcode _ _ |- _ => rename H into Ho end.
    assert (fr_opcode f < WS_OP_CLOSE) as Hc.
    { rewrite Ho. destruct Hop as [-> | ->], (ws_msg_active ws); by vm_compute. }
    rewrite (proj2 (Z.ltb_lt _ _) Hc) in Hmsg. rewrite (proj2 (Z.leb_gt _ _) Hc). cbn [negb].
    assert (ws_msg_opcode ws = op) as Hmo by (apply F4; by left).
    assert (∀ ws2, ws_ok ws2 → ws_msg_opcode ws2 = op → default [] (ws_msg ws2) = acc ++ fr_payload f →
      ws_state ws2 = WS_NEED_HEADER → ws_dead ws2 = false → unread ws2 = unread ws →
      (∃ t, ws_cur (ws_deliver ws2) = Some {| wm_type := t; wm_data := acc ++ fr_payload f |} ∧
            (t = HTTP_WS_TEXT ↔ op = WS_OP_TEXT)) ∧
      ready (ws_deliver ws2) ∧ unread (ws_deliver ws2) ++ V = tail) as Hdeliver.
    { intros ws2 G1 G2 G3 G4 G5 G6. unfold ws_deliver at 1. ws_cbn. rewrite G2, G3. split; [|split].
      - eexists. split; [done|]. destruct Hop as [-> | ->]; by vm_compute.
      - split; try done. by apply deliver_ok.
      - change (unread (ws_deliver ws2)) with (unread ws2). by rewrite G6, HU. }
    destruct (ws_msg ws) as [msg|] eqn:Em.
    + destruct (Hdeliver ws1) as (D1 & D2 & D3); try done; [by rewrite E3|].
      split; [exact D1|]. split; [exact D2|]. split; [exact D3|]. split; [done|]. by apply sent_nothing.
    + rewrite bind_run. unfold result, world. rewrite malloc_ok by done. cbn [fst snd negb mret M_ret].
      destruct (Hdeliver (set_ws_msg_cap 1 (set_ws_msg (Some []) ws1))) as (D1 & D2 & D3); try done.
      { destruct Hok1 as [Hp Hcp Hmx Ht Hsx]. split; try done. unfold ws_msg_len in *.
        rewrite E3 in Hmx. exact Hmx. }
      split; [exact D1|]. split; [exact D2|]. split; [exact D3|]. split; [done|]. by apply sent_nothing.
  - (* a fragment *)
    match goal with H : fr_fin f = false |- _ => rewrite H end.
    match goal with H : fr_opcode f = data_opcode _ _ |- _ => rename H into Ho end.
    assert (fr_opcode f < WS_OP_CLOSE) as Hc.
    { rewrite Ho. destruct Hop as [-> | ->], (ws_msg_active ws); by vm_compute. }
    rewrite (proj2 (Z.ltb_lt _ _) Hc) in Hmsg. rewrite (proj2 (Z.leb_gt _ _) Hc). cbn [negb].
    exists (frames fs), [], pongs.
    split; [|split; [exact HU|split; [done|split; [by apply sent_nothing|exact E4]]]].
    apply ex_header; [done| |].
    + change (ws_max_message _) with (ws_max_message ws). change (ws_msg_active _) with true.
      change (ws_msg _) with (ws_msg ws). by rewrite Hmsg.
    + intros _. apply F4. by left.
  - (* a ping *)
    match goal with H : fr_opcode f = WS_OP_PING |- _ => rename H into Ho end.
    rewrite Ho in *. change (WS_OP_PING <? WS_OP_CLOSE) with false in Hmsg.
    change (WS_OP_CLOSE <=? WS_OP_PING) with true. cbn iota.
    unfold or_return. rewrite bind_run. unfold result, world, ws_handle_control.
    rewrite E1. change (WS_OP_PING =? WS_OP_PING) with true. cbn iota.
    rewrite bind_run. unfold result, world.
    change (ws_ctrl ws1) with (ws_ctrl ws). rewrite Hctrl by by vm_compute.
    destruct (send_frame_quiet ws1 WS_OP_PONG (fr_payload f) w) as (w' & -> & G1 & G2 & G3 & G4 & G5); [done..|].
    cbn [fst snd]. change (0 =? 0) with true. cbn [negb fst snd mret M_ret].
    exists (frames fs), (pong (fr_payload f)), pongs0.
    split; [|split; [exact HU|split; [done|split; [|done]]]].
    + apply ex_header; [done| |]; [by rewrite E3, Hmsg|]. intros Hact. apply F4. by right.
    + unfold sent_more. by rewrite G1, G2, G3, G4, G5.
  - (* a pong *)
    match goal with H : fr_opcode f = WS_OP_PONG |- _ => rename H into Ho end.
    rewrite Ho in *. change (WS_OP_PONG <? WS_OP_CLOSE) with false in Hmsg.
    change (WS_OP_CLOSE <=? WS_OP_PONG) with true. cbn iota.
    unfold or_return. rewrite bind_run. unfold result, world, ws_handle_control.
    rewrite E1. change (WS_OP_PONG =? WS_OP_PING) with false.
    change (WS_OP_PONG =? WS_OP_PONG) with true. cbn iota. cbn [fst snd mret M_ret].
    exists (frames fs), [], pongs.
    split; [|split; [exact HU|split; [done|split; [by apply sent_nothing|done]]]].
    apply ex_header; [done| |]; [by rewrite E3, Hmsg|]. intros Hact. apply F4. by right.
Qed.

Lemma msg_reserve_quiet ws need w :
  w_alloc w = [] → need < 2 ^ 63 →
  ∃ ws2, ws_msg_reserve ws need w = ((true, ws2), w) ∧
    (ws2 = ws ∨ ∃ cap, ws2 = set_ws_msg_cap cap (set_ws_msg (Some (default [] (ws_msg ws))) ws)).
Proof.
  intros Ha Hn. unfold ws_msg_reserve. destruct (need <=? ws_msg_cap ws); [eauto|].
  destruct (Z.ltb_spec (SIZE_MAX - 1) need); [unfold SIZE_MAX in *; lia|].
  rewrite bind_run. unfold result, world. rewrite malloc_ok by done. cbn [fst snd negb mret M_ret]. eauto.
Qed.

Lemma payload_round op ws w V acc f fs m pongs tail :
  ws_ok ws → ws_dead ws = false → w_send w = [] → w_alloc w = [] → message_opcode op →
  ws_state ws = WS_NEED_PAYLOAD → ws_payload_len ws = zlen (fr_payload f) →
  ws_mask ws = fr_mask f → 0 <= ws_payload_done ws <= zlen (fr_payload f) →
  default [] (ws_msg ws) = (if fr_opcode f <? WS_OP_CLOSE
    then acc ++ ztake (ws_payload_done ws) (fr_payload f) else acc) →
  (WS_OP_CLOSE <= fr_opcode f → ws_ctrl ws = ztake (ws_payload_done ws) (fr_payload f)) →
  in_frame op ws acc f fs m pongs →
  unread ws ++ V = (zdrop (ws_payload_done ws) (masked f) ++ frames fs) ++ tail →
  round_spec op ws w V (zdrop (ws_payload_done ws) (masked f) ++ frames fs) tail m pongs.
Proof.
  intros Hok Hd Hs Ha Hop Hst Hlen Hmask Hdone Hmsg Hctrl Hf HU.
  destruct (decide (ws_payload_done ws = zlen (fr_payload f))) as [E|E].
  { rewrite E in *. rewrite (zdrop_all (zlen (fr_payload f)) (masked f)) in * by (rewrite zlen_masked; lia).
    rewrite ztake_all in Hmsg by lia. rewrite ztake_all in Hctrl by lia.
    cbn [app] in *. eapply frame_complete_round; eauto. }
  set (d := ws_payload_done ws) in *. set (len := zlen (fr_payload f)) in *.
  unfold round_spec, ws_parse_step. rewrite Hst. unfold ws_parse_payload. fold d. rewrite Hlen.
  fold len. rewrite (proj2 (Z.eqb_neq _ _) E). rewrite <- zlen_unread by done.
  pose proof (zlen_nonneg (unread ws)) as HU0.
  assert (zlen (zdrop d (masked f)) = len - d) as Hrem by (rewrite zlen_zdrop, zlen_masked by lia; lia).
  destruct (Z.eqb_spec (zlen (unread ws)) 0) as [Hl|Hl].
  { split; [done|]. split; [done|]. rewrite zlen_app, Hrem. pose proof (zlen_nonneg (frames fs)). lia. }
  unfold ws_unmask_chunk. fold d. rewrite Hlen. fold len. rewrite <- zlen_unread by done. fold (unread ws).
  set (n := Z.min (len - d) (zlen (unread ws))).
  assert (1 <= n <= zlen (unread ws) ∧ n <= len - d) as Hn by lia.
  assert (ztake n (unread ws) = ztake n (zdrop d (masked f))) as Hpre.
  { assert (ztake n (unread ws ++ V) = ztake n ((zdrop d (masked f) ++ frames fs) ++ tail)) as H by by rewrite HU.
    rewrite <- app_assoc in H. unfold ztake, zlen in *. rewrite !take_app_le in H by lia. exact H. }
  cbv zeta. rewrite Hpre, Hmask.
  assert (unmask (fr_mask f) d (ztake n (zdrop d (masked f))) = ztake n (zdrop d (fr_payload f))) as ->
    by (apply unmask_chunk; lia).
  set (plain := ztake n (zdrop d (fr_payload f))).
  assert (zlen plain = n) as Hplain by (unfold plain; rewrite zlen_ztake, zlen_zdrop by lia; fold len; lia).
  set (buf := ztake (ws_pos ws) (ws_in ws) ++ plain ++ zdrop (ws_pos ws + n) (ws_in ws)).
  set (ws1 := set_ws_pos _ _). cbv zeta beta iota.
  assert (0 <= ws_pos ws) as Hp by apply Hok.
  assert (∀ ws', ws_in ws' = buf → ws_pos ws' = ws_pos ws + n →
    unread ws' ++ V = (zdrop (d + n) (masked f) ++ frames fs) ++ tail) as Hun.
  { intros ws' E1 E2. unfold unread at 1. rewrite E1, E2. unfold buf.
    assert (zlen (ztake (ws_pos ws) (ws_in ws) ++ plain) = ws_pos ws + n) as Hl2.
    { rewrite zlen_app, Hplain, zlen_ztake by lia. pose proof (ok_pos ws Hok). lia. }
    rewrite app_assoc. rewrite <- Hl2 at 1. rewrite zdrop_app_length, <- zdrop_zdrop by lia. fold (unread ws).
    apply (app_inv_head (ztake n (unread ws))). rewrite app_assoc, ztake_zdrop, HU, Hpre.
    rewrite <- (zdrop_zdrop n d) by lia. rewrite !app_assoc, ztake_zdrop. done. }
  assert (ztake (d + n) (fr_payload f) = ztake d (fr_payload f) ++ plain) as Htake.
  { unfold plain. rewrite (ztake_split d (d + n)) by lia. do 2 f_equal. lia. }
  destruct Hf as [F1 F2 F3 F4].
  assert (ws_opcode ws1 = fr_opcode f) as -> by done.
  destruct (Z.leb_spec WS_OP_CLOSE (fr_opcode f)) as [Hc|Hc].
  - set (ws2 := set_ws_ctrl _ _). exists (zdrop (d + n) (masked f) ++ frames fs), [], pongs.
    split; [|split; [by apply Hun|split; [done|split; [by apply sent_nothing|done]]]].
    apply (ex_payload op ws2 acc f); try done.
    + unfold ws2, ws1. ws_cbn. fold len. lia.
    + rewrite (proj2 (Z.ltb_ge _ _) Hc) in *. exact Hmsg.
    + intros _. change (ws_ctrl ws2) with (ws_ctrl ws ++ plain). rewrite Hctrl by done. by rewrite <- Htake.
  - rewrite (proj2 (Z.ltb_lt _ _) Hc) in Hmsg.
    destruct (delivers_head _ _ _ _ _ _ _ _ Hop F3) as (_ & _ & [(_ & _ & Hfit)|(Hc' & _)]); [|lia].
    assert (ws_msg_len ws1 = zlen acc + d) as Hml.
    { unfold ws_msg_len. change (ws_msg ws1) with (ws_msg ws). rewrite Hmsg, zlen_app, zlen_ztake by lia.
      fold len. lia. }
    rewrite zlen_app in Hfit. fold len in Hfit.
    rewrite bind_run. unfold result, world.
    pose proof (ok_max ws Hok) as [_ Hmax]. pose proof (zlen_nonneg acc).
    destruct (msg_reserve_quiet ws1 (ws_msg_len ws1 + zlen plain) w) as (ws2 & -> & H2); [done|lia|].
    cbn [fst snd negb mret M_ret]. set (ws3 := set_ws_msg _ ws2).
    assert (default [] (ws_msg ws2) = default [] (ws_msg ws)) as Hm2 by by destruct H2 as [->|[cap ->]].
    exists (zdrop (d + n) (masked f) ++ frames fs), [], pongs.
    split; [|split; [apply Hun|split; [done|split; [by apply sent_nothing|]]]];
      try (by destruct H2 as [->|[cap ->]]).
    assert (ws_payload_done ws3 = d + n) as Hd3 by by destruct H2 as [->|[cap ->]].
    rewrite <- Hd3. apply (ex_payload op ws3 acc f); try (by destruct H2 as [->|[cap ->]]).
    + rewrite Hd3. fold len. lia.
    + rewrite (proj2 (Z.ltb_lt _ _) Hc), Hd3, Htake, app_assoc, <- Hmsg, <- Hm2. done.
    + intros Hc'. lia.
Qed.

(** At the front of a stream that delivers a message every round makes sense. *)
Lemma step_round op ws w V R tail m pongs :
  ws_ok ws → ws_dead ws = false → w_send w = [] → w_alloc w = [] → message_opcode op →
  expects op ws R m pongs → unread ws ++ V = R ++ tail →
  round_spec op ws w V R tail m pongs.
Proof.
  intros Hok Hd Hs Ha Hop He HU. destruct He.
  - by apply header_round.
  - by apply length_round.
  - by apply mask_round.
  - eapply payload_round; eauto.
Qed.

(** ** The parser on what has arrived *)

Lemma sent_more_trans w s1 w1 s2 w2 : sent_more w s1 w1 → sent_more w1 s2 w2 → sent_more w (s1 ++ s2) w2.
Proof.
  intros (A1 & A2 & A3 & A4 & A5) (B1 & B2 & B3 & B4 & B5). unfold sent_more.
  rewrite B1, A1, B4, B5, app_assoc. by rewrite A4, A5.
Qed.

(** The buffer and its cursor are no part of what is expected. *)
Lemma expects_buffer op ws R m pongs p b :
  expects op ws R m pongs → expects op (set_ws_pos p (set_ws_in b ws)) R m pongs.
Proof.
  intros H. destruct H as [fs m pongs H1 H2 H3|f fs m pongs H1 H2 H3 H4|f fs m pongs H1 H2 H3
                          |acc f fs m pongs H1 H2 H3 H4 H5 H6 H7].
  - by apply ex_header.
  - apply ex_length; [done..|]. by destruct H4.
  - apply ex_mask; [done..|]. by destruct H3.
  - apply (ex_payload op (set_ws_pos p (set_ws_in b ws)) acc f); [done..|]. by destruct H7.
Qed.

Lemma expects_compact op ws R m pongs : expects op ws R m pongs → expects op (ws_compact ws) R m pongs.
Proof. intros H. unfold ws_compact. case_if; [done|by apply expects_buffer]. Qed.

Lemma unread_compact ws : ws_ok ws → unread (ws_compact ws) = unread ws.
Proof.
  intros Hok. unfold ws_compact. case_if; [done|]. unfold unread. ws_cbn. unfold zdrop at 1. done.
Qed.

(** The message, and the session ready for the next one. *)
Definition delivered (op : Z) (m : bytes) (ws : HttpWs) : Prop :=
  (∃ t, ws_cur ws = Some {| wm_type := t; wm_data := m |} ∧ (t = HTTP_WS_TEXT ↔ op = WS_OP_TEXT)) ∧ ready ws.

Definition parse_spec (op : Z) (w : World) (V tail m pongs : bytes) (r : WsParseResult * HttpWs * World) : Prop :=
  match r with
  | ((WS_PARSE_CONTINUE, ws'), w') =>
      ∃ R' s pongs', expects op ws' R' m pongs' ∧ unread ws' ++ V = R' ++ tail ∧ pongs = s ++ pongs' ∧
        sent_more w s w' ∧ ws_dead ws' = false ∧ zlen (unread ws') < zlen R'
  | ((WS_PARSE_MESSAGE, ws'), w') => delivered op m ws' ∧ unread ws' ++ V = tail ∧ sent_more w pongs w'
  | _ => False
  end.

Lemma parse_loop_delivers fuel op ws w V R tail m pongs :
  ws_ok ws → ws_dead ws = false → w_send w = [] → w_alloc w = [] → message_opcode op →
  expects op ws R m pongs → unread ws ++ V = R ++ tail → parse_measure ws < Z.of_nat fuel →
  parse_spec op w V tail m pongs (ws_parse_loop fuel ws w).
Proof.
  revert ws w R pongs. induction fuel as [|fuel IH]; intros ws w R pongs Hok Hd Hs Ha Hop He HU Hf.
  { exfalso. destruct Hok as [Hp _ _ _ _]. unfold parse_measure, ws_avail in Hf. case_if_in Hf; lia. }
  cbn [ws_parse_loop]. rewrite bind_run. unfold result, world.
  pose proof (parse_step_ok ws Hok w) as [Hok1 Hst]. unfold result in Hok1, Hst.
  pose proof (step_round op ws w V R tail m pongs Hok Hd Hs Ha Hop He HU) as Hr. unfold round_spec in Hr.
  destruct (ws_parse_step ws w) as [[st ws1] w1]. cbn [fst snd] in *. destruct st as [| |r].
  - destruct Hr as (R' & s & pongs' & He' & HU' & -> & Hsent & Hd').
    destruct Hsent as (S1 & S2 & S3 & S4 & S5).
    pose proof (IH ws1 w1 R' pongs' Hok1 Hd' S2 S3 Hop He' HU' ltac:(lia)) as Hrec.
    assert (sent_more w s w1) as Hsent by done.
    unfold parse_spec in *. destruct (ws_parse_loop fuel ws1 w1) as [[r ws2] w2]. destruct r; try done.
    + destruct Hrec as (R2 & s2 & p2 & G1 & G2 & -> & G3 & G4).
      exists R2, (s ++ s2), p2. split; [done|]. split; [done|]. split; [by rewrite app_assoc|].
      split; [by eapply sent_more_trans|done].
    + destruct Hrec as (G1 & G2 & G3). split; [done|]. split; [done|]. by eapply sent_more_trans.
  - destruct Hr as (-> & -> & Hl). cbn [fst snd mret M_ret]. unfold parse_spec.
    exists R, [], pongs. rewrite unread_compact by done. split; [by apply expects_compact|].
    split; [done|]. split; [done|]. split; [by apply sent_nothing|]. split; [|done].
    unfold ws_compact. by case_if.
  - destruct r; try done. cbn [fst snd mret M_ret]. destruct Hr as (H1 & H2 & H3 & -> & H4).
    by split; [split|].
Qed.

Lemma parse_delivers op ws w V R tail m pongs :
  ws_ok ws → ws_dead ws = false → w_send w = [] → w_alloc w = [] → message_opcode op →
  expects op ws R m pongs → unread ws ++ V = R ++ tail →
  parse_spec op w V tail m pongs (ws_parse ws w).
Proof.
  intros Hok Hd Hs Ha Hop He HU. eapply parse_loop_delivers; [done..|].
  destruct Hok as [Hp _ _ _ _]. unfold parse_fuel, parse_measure, ws_avail. case_if; lia.
Qed.

(** ** Receiving, however the network cuts the stream *)

(** Data, interruptions and timeouts, in any order. *)
Definition benign (e : RecvEvent) : Prop :=
  match e with RData bs => bs ≠ [] | RIntr | RTimeout => True | _ => False end.

Fixpoint arriving (q : list RecvEvent) : bytes :=
  match q with
  | [] => []
  | RData bs :: q => bs ++ arriving q
  | _ :: q => arriving q
  end.

Lemma recv_loop_delivers fuel op ws w R tail m pongs :
  ws_ok ws → ws_dead ws = false → w_send w = [] → w_alloc w = [] → w_listening w = [] →
  message_opcode op → Forall benign (w_recv w) →
  expects op ws R m pongs → unread ws ++ arriving (w_recv w) = R ++ tail →
  (recv_size (w_recv w) < fuel)%nat →
  ∃ ws' w', ws_recv_loop fuel ws w = ((HTTP_WS_OK, ws'), w') ∧ delivered op m ws' ∧
    unread ws' ++ arriving (w_recv w') = tail ∧ Forall benign (w_recv w') ∧
    w_sent w' = w_sent w ++ pongs ∧ w_send w' = [] ∧ w_alloc w' = [] ∧ w_listening w' = [].
Proof.
  revert ws w R pongs. induction fuel as [|fuel IH]; intros ws w R pongs Hok Hd Hs Ha Hli Hop Hb He HU Hf; [lia|].
  cbn [ws_recv_loop]. rewrite bind_run. unfold result, world.
  pose proof (ws_parse_ok ws Hok w) as [Hok1 Hc]. unfold result in Hok1, Hc.
  pose proof (parse_delivers op ws w _ R tail m pongs Hok Hd Hs Ha Hop He HU) as Hp. unfold parse_spec in Hp.
  destruct (ws_parse ws w) as [[r ws1] w1]. cbn [fst snd] in *. destruct r; try done.
  2: { destruct Hp as (H1 & H2 & S1 & S2 & S3 & S4 & S5). exists ws1, w1. split; [done|]. split; [done|].
       rewrite S4, S5. done. }
  destruct Hp as (R' & s & pongs' & He' & HU' & -> & (S1 & S2 & S3 & S4 & S5) & Hd' & Hlt).
  destruct (Hc eq_refl) as [Hpos Hlen]. clear Hc.
  rewrite grow_in_room by done. rewrite bind_run. unfold result, world. cbn [fst snd negb mret M_ret].
  rewrite bind_run. unfold result, world.
  pose proof (recv_in_ok ws1 Hok1 Hlen w1) as Hrok. unfold result, ws_recv_in in *.
  rewrite recv_run in *. cbn [fst snd] in *. rewrite S4 in *.
  assert (0 < ws_in_cap ws1 - zlen (ws_in ws1)) as Hroom.
  { pose proof (ok_cap ws1 Hok1). unfold WS_RECV_BUFFER in *. lia. }
  set (room := ws_in_cap ws1 - zlen (ws_in ws1)) in *.
  assert (unread ws1 = ws_in ws1) as Hun by (unfold unread; by rewrite Hpos).
  assert (∀ bs q, recv_size q < recv_size (w_recv w) → Forall benign q →
    ws_ok (set_ws_in (ws_in ws1 ++ bs) ws1) → (ws_in ws1 ++ bs) ++ arriving q = R' ++ tail →
    ∃ ws' w', ws_recv_loop fuel (set_ws_in (ws_in ws1 ++ bs) ws1) (with_recv q w1) = ((HTTP_WS_OK, ws'), w') ∧
      delivered op m ws' ∧ unread ws' ++ arriving (w_recv w') = tail ∧ Forall benign (w_recv w') ∧
      w_sent w' = w_sent w ++ s ++ pongs' ∧ w_send w' = [] ∧ w_alloc w' = [] ∧ w_listening w' = [])%nat as Hnext.
  { intros bs q Hq Hbq Hokq HUq.
    destruct (IH (set_ws_in (ws_in ws1 ++ bs) ws1) (with_recv q w1) R' pongs') as (ws' & w' & G1 & G2 & G3 & G4 & G5 & G6); try done.
    - cbn. congruence.
    - replace (set_ws_in (ws_in ws1 ++ bs) ws1) with (set_ws_pos (ws_pos ws1) (set_ws_in (ws_in ws1 ++ bs) ws1)) by by destruct ws1.
      by apply expects_buffer.
    - cbn [with_recv w_recv]. rewrite <- HUq. f_equal. unfold unread. ws_cbn. by rewrite Hpos.
    - cbn [with_recv w_recv]. lia.
    - exists ws', w'. split; [done|]. split; [done|]. split; [done|]. split; [done|]. split; [|done].
      rewrite G5. cbn [with_recv w_sent]. by rewrite S1, app_assoc. }
  assert (ws1 = set_ws_in (ws_in ws1 ++ []) ws1) as Hsame by (rewrite app_nil_r; by destruct ws1).
  destruct (w_recv w) as [|e q] eqn:Eq.
  { exfalso. cbn [arriving] in HU'. rewrite app_nil_r in HU'. rewrite HU', zlen_app in Hlt.
    pose proof (zlen_nonneg tail). lia. }
  apply Forall_cons in Hb as [Hbe Hbq]. destruct e as [bs| | | |]; try done.
  - destruct bs as [|b bs]; [done|]. cbn [recv_step] in *. set (data := b :: bs) in *.
    rewrite Hun in HU'. cbn [arriving] in HU'.
    destruct (Z.leb_spec (zlen data) room) as [Hfit|Hfit]; cbn [fst snd] in *.
    + apply Hnext; [simpl; lia|done|done|]. by rewrite <- app_assoc.
    + apply Hnext; [|constructor; [|done]|done|].
      * pose proof (recv_step_size room (RData data :: q) Hroom) as [_ Hsz]. cbn [recv_step] in Hsz.
        unfold data in Hsz at 1 2. cbn [recv_step] in Hsz.
        change (b :: bs) with data in Hsz. rewrite (proj2 (Z.leb_gt _ _) Hfit) in Hsz. by eapply Hsz.
      * cbn [benign]. intros E. assert (zlen (zdrop room data) = 0) as E0 by by rewrite E.
        rewrite zlen_zdrop in E0 by lia. lia.
      * cbn [arriving]. rewrite <- HU', <- !app_assoc. f_equal. rewrite app_assoc. by rewrite ztake_zdrop.
  - cbn [recv_step fst snd]. rewrite Hsame. apply Hnext; [simpl; lia|done|by rewrite <- Hsame|].
    by rewrite app_nil_r, <- Hun.
  - cbn [recv_step fst snd]. rewrite bind_run. unfold result, world, read_listening.
    cbn [with_recv w_listening]. rewrite S5, Hli. cbn [fst snd negb].
    rewrite Hsame. apply Hnext; [simpl; lia|done|by rewrite <- Hsame|]. by rewrite app_nil_r, <- Hun.
Qed.

(** A ready session receives the next message of the stream, whole, whatever the
    fragmentation and the segmentation, answers the pings before and between its
    fragments, and is ready again at the rest of the stream. *)
Lemma http_ws_recv_delivers op ws w fs tail m pongs :
  ready ws → w_send w = [] → w_alloc w = [] → w_listening w = [] → Forall benign (w_recv w) →
  message_opcode op → delivers (ws_max_message ws) op false [] fs m pongs →
  unread ws ++ arriving (w_recv w) = frames fs ++ tail →
  ∃ ws' w', http_ws_recv ws w = ((HTTP_WS_OK, ws'), w') ∧ delivered op m ws' ∧
    unread ws' ++ arriving (w_recv w') = tail ∧ Forall benign (w_recv w') ∧
    w_sent w' = w_sent w ++ pongs ∧ w_send w' = [] ∧ w_alloc w' = [] ∧ w_listening w' = [].
Proof.
  intros [Hok Hd Hst Hact Hmsg] Hs Ha Hli Hb Hop Hdel HU. unfold http_ws_recv. rewrite Hd.
  rewrite bind_run. unfold result, world, recv_queue. cbn [fst snd].
  destruct (recv_loop_delivers (S (S (recv_size (w_recv w)))) op ws w (frames fs) tail m pongs)
    as (ws' & w' & H1 & H2 & H3 & H4 & H5 & H6); try done.
  - apply ex_header; [done| |by rewrite Hact]. by rewrite Hact, Hmsg.
  - lia.
  - eauto 10.
Qed.
