(* ===== verification/WsWire.v ===== *)
(** * What a session puts on the wire

    Everything a websocket session of [src/c_http_ws.c] sends is a sequence of
    complete server frames, which a client reads back; and a closed session
    stays closed. *)

From stdpp Require Import relations.
From S2P Require Import Prelude CLib World Net WsSession WsProtocol.
#[local] Open Scope Z_scope.

(** ** Server frames, written and read *)

Definition server_opcode (op : Z) : Prop :=
  op ∈ [WS_OP_TEXT; WS_OP_BINARY; WS_OP_CLOSE; WS_OP_PING; WS_OP_PONG].

Definition frame_text (op : Z) (payload : bytes) : bytes := frame_header op (zlen payload) ++ payload.

(** A frame RFC 6455 allows a server: final, unmasked, short when it is a control frame. *)
Definition frame_fits (op : Z) (payload : bytes) : Prop :=
  server_opcode op ∧ zlen payload < 2 ^ 63 ∧ (WS_OP_CLOSE <= op → zlen payload <= 125).

Definition server_frame (out : bytes) : Prop :=
  ∃ op payload, frame_fits op payload ∧ out = frame_text op payload.

(** A client's reading of one frame: opcode, payload and what follows it. *)
Definition read_frame (p : bytes) : option (Z * bytes * bytes) :=
  match p with
  | b0 :: b1 :: p =>
      if Z.land b0 0x80 =? 0 then None
      else
        let '(len, p) := if b1 <? 126 then (b1, p)
                         else if b1 =? 126 then (be_value (ztake 2 p), zdrop 2 p)
                         else (be_value (ztake 8 p), zdrop 8 p) in
        if zlen p <? len then None else Some (Z.land b0 0x0F, ztake len p, zdrop len p)
  | _ => None
  end.

(** All the frames of a text; every frame takes two bytes at least. *)
Fixpoint read_frames (fuel : nat) (p : bytes) : option (list (Z * bytes)) :=
  match fuel, p with
  | _, [] => Some []
  | O, _ => None
  | S fuel, _ =>
      '(op, payload, p) ← read_frame p;
      cons (op, payload) <$> read_frames fuel p
  end.

Lemma read_frame_text op payload rest :
  server_opcode op → zlen payload < 2 ^ 63 →
  read_frame (frame_text op payload ++ rest) = Some (op, payload, rest).
Proof.
  intros Hop Hl. pose proof (zlen_nonneg payload) as H0.
  destruct (header_fin true op) as (Hf & Ho & _).
  { unfold server_opcode in Hop. rewrite !elem_of_cons in *. tauto. }
  apply negb_true_iff in Hf. unfold frame_text, frame_header.
  assert (∀ p, zlen payload <= zlen (payload ++ p)) as Hle by (intros p; zlen_lia).
  assert (∀ b0 (q : bytes), (if zlen (payload ++ rest) <? zlen payload then None
     else Some (b0, ztake (zlen payload) (payload ++ rest), zdrop (zlen payload) (payload ++ rest)))
     = Some (b0 : Z, payload, rest)) as Hend.
  { intros b0 _. rewrite (proj2 (Z.ltb_ge _ _)) by apply Hle.
    by rewrite ztake_app_length, zdrop_app_length. }
  destruct (Z.leb_spec (zlen payload) 125); [|destruct (Z.leb_spec (zlen payload) 0xFFFF)].
  - cbn [app read_frame]. rewrite Hf, Ho. rewrite (proj2 (Z.ltb_lt _ _)) by lia. apply (Hend op []).
  - cbn [app read_frame]. rewrite Hf, Ho.
    change (126 <? 126) with false. change (126 =? 126) with true. cbn iota.
    change (ztake 2 (?a :: ?b :: ?c)) with [a; b]. change (zdrop 2 (?a :: ?b :: ?c)) with c.
    rewrite be_value_two by lia. apply (Hend op []).
  - rewrite <- !app_assoc. cbn [app read_frame]. rewrite Hf, Ho.
    change (127 <? 126) with false. change (127 =? 126) with false. cbn iota.
    set (ext := map _ _). assert (zlen ext = 8) as He by done.
    rewrite <- He, ztake_app_length, zdrop_app_length. unfold ext.
    rewrite be_value_eight by lia. apply (Hend op []).
Qed.

Lemma frame_text_length op payload : (2 ≤ length (frame_text op payload))%nat.
Proof.
  unfold frame_text, frame_header. rewrite length_app. repeat case_if; simpl; lia.
Qed.

Lemma read_frames_text fs fuel :
  Forall (λ f, frame_fits f.1 f.2) fs → (length (concat (map (uncurry frame_text) fs)) ≤ fuel)%nat →
  read_frames fuel (concat (map (uncurry frame_text) fs)) = Some fs.
Proof.
  intros Hfs. revert fuel. induction Hfs as [|[op payload] fs (Hop & Hl & _) _ IH]; intros fuel Hf.
  { by destruct fuel. }
  cbn [map concat uncurry] in *. rewrite length_app in Hf.
  pose proof (frame_text_length op payload) as H2. destruct fuel as [|fuel]; [lia|].
  assert (∃ c r, frame_text op payload ++ concat (map (uncurry frame_text) fs) = c :: r) as (c & r & Hcr).
  { destruct (frame_text op payload) as [|c t]; [simpl in H2; lia|]. by eexists _, _. }
  cbn [read_frames]. rewrite Hcr, <- Hcr, read_frame_text by done.
  cbn [mbind option_bind]. rewrite IH by lia. done.
Qed.

(** ** Computations that send frames *)

(** On a socket that takes everything, [m] sends whole server frames. *)
Definition emits {A} (m : M A) : Prop :=
  ∀ w, w_send w = [] → w_send (world m w) = [] ∧
    ∃ fs, Forall server_frame fs ∧ w_sent (world m w) = w_sent w ++ concat fs.

Lemma emits_ret {A} (x : A) : emits (mret x).
Proof. intros w Hw. split; [done|]. exists []. by rewrite app_nil_r. Qed.

Lemma emits_bind {A B} (m : M A) (f : A → M B) (P : A → Prop) :
  emits m → returns m P → (∀ x, P x → emits (f x)) → emits (m ≫= f).
Proof.
  intros Hm Hp Hf w Hw. destruct (Hm w Hw) as (H1 & fs & H2 & H3).
  destruct (Hf _ (Hp w) _ H1) as (H4 & fs' & H5 & H6).
  unfold world, result in *. rewrite bind_run. unfold world, result. split; [done|].
  exists (fs ++ fs'). split; [by apply Forall_app|]. by rewrite H6, H3, concat_app, <- app_assoc.
Qed.

Lemma emits_bind_any {A B} (m : M A) (f : A → M B) :
  emits m → (∀ x, emits (f x)) → emits (m ≫= f).
Proof. intros Hm Hf. by apply emits_bind with (λ _, True). Qed.

(** [m] leaves the sending side alone. *)
Lemma emits_silent {A} (m : M A) :
  (∀ w, w_sent (world m w) = w_sent w ∧ w_send (world m w) = w_send w) → emits m.
Proof.
  intros H w Hw. destruct (H w) as [H1 H2]. split; [congruence|]. exists []. by rewrite app_nil_r.
Qed.

Lemma emits_malloc : emits malloc.
Proof. apply emits_silent. intros w. unfold world, malloc. by destruct (w_alloc w). Qed.

Lemma emits_recv_in ws : emits (ws_recv_in ws).
Proof. apply emits_silent. intros w. unfold world, ws_recv_in. by rewrite recv_run. Qed.

Lemma emits_listening : emits read_listening.
Proof. apply emits_silent. intros w. unfold world, read_listening. by destruct (w_listening w). Qed.

Lemma emits_recv_queue : emits recv_queue.
Proof. by apply emits_silent. Qed.

#[export] Hint Resolve emits_malloc emits_recv_in emits_listening emits_recv_queue : chttp.

(** Walks through a program whose results need not be known. *)
Ltac emit :=
  repeat first
    [ apply emits_ret
    | solve [eauto with chttp nocore]
    | apply emits_bind_any; [|intros ?]
    | match goal with |- emits (if ?b then _ else _) => destruct b end
    | match goal with |- emits (match ?x with _ => _ end) => destruct x end ].

(** ** Every operation of a session *)

Lemma emits_send_locked ws op payload :
  frame_fits op payload → emits (ws_send_frame_locked ws op payload).
Proof.
  intros Hf w Hw. unfold ws_send_frame_locked, ws_send_raw, world. rewrite bind_run.
  unfold result, world. rewrite send_all_quiet by done. cbn [fst snd].
  change (negb (0 =? 0)) with false. cbn iota. rewrite bind_run. unfold result, world.
  pose proof (zlen_nonneg payload).
  assert (∀ s, (0 <? zlen payload) = false → s ++ payload = s) as Hnil.
  { intros s Hz. breflect. assert (payload = []) as -> by (apply zlen_nil_inv; lia). apply app_nil_r. }
  destruct (0 <? zlen payload) eqn:E.
  - rewrite send_all_quiet by done. cbn. split; [done|]. exists [frame_text op payload].
    split; [constructor; [by exists op, payload|constructor]|]. simpl. unfold frame_text.
    by rewrite app_nil_r, <- app_assoc.
  - cbn. split; [done|]. exists [frame_text op payload].
    split; [constructor; [by exists op, payload|constructor]|]. simpl. unfold frame_text.
    by rewrite app_nil_r, Hnil.
Qed.

Lemma emits_send_frame ws op payload : frame_fits op payload → emits (ws_send_frame ws op payload).
Proof. intros H. unfold ws_send_frame. case_if; [apply emits_ret|by apply emits_send_locked]. Qed.

Lemma close_payload_fits code reason : frame_fits WS_OP_CLOSE (close_payload code reason).
Proof.
  assert (zlen (close_payload code reason) <= 125) as Hl.
  { unfold close_payload. case_if; [done|]. rewrite zlen_app. change (zlen [?a; ?b]) with 2.
    destruct reason; [rewrite zlen_ztake by lia; lia|rewrite zlen_nil; lia]. }
  split; [unfold server_opcode; rewrite !elem_of_cons; tauto|]. split; [lia|done].
Qed.

Lemma emits_send_close ws code reason : emits (ws_send_close ws code reason).
Proof.
  unfold ws_send_close. apply emits_bind_any; [|intros []; apply emits_ret].
  case_if; [apply emits_ret|]. apply emits_bind_any; [|intros []; apply emits_ret].
  apply emits_send_locked, close_payload_fits.
Qed.
#[export] Hint Resolve emits_send_close : chttp.

Lemma emits_violation ws code : emits (or_return (ws_protocol_violation ws code)).
Proof. unfold or_return, ws_protocol_violation. emit. Qed.
#[export] Hint Resolve emits_violation : chttp.

Lemma emits_out_of_memory ws : emits (ws_out_of_memory ws).
Proof. unfold ws_out_of_memory. emit. Qed.
#[export] Hint Resolve emits_out_of_memory : chttp.

Lemma emits_length_known ws : emits (or_return (ws_frame_length_known ws)).
Proof.
  unfold ws_frame_length_known. case_if; [apply emits_violation|]. unfold or_return. emit.
Qed.
#[export] Hint Resolve emits_length_known : chttp.

Lemma emits_control ws : zlen (ws_ctrl ws) <= 125 → emits (or_return (ws_handle_control ws)).
Proof.
  intros Hc. unfold ws_handle_control.
  case_if; [|case_if; [unfold or_return; emit|case_if; [case_if; [apply emits_violation|]|apply emits_violation]]].
  - unfold or_return. apply emits_bind_any; [|intros []; apply emits_ret].
    apply emits_bind_any; [|intros []; emit]. apply emits_send_frame.
    split; [unfold server_opcode; rewrite !elem_of_cons; tauto|]. split; [lia|done].
  - unfold or_return. emit.
Qed.

Lemma emits_reserve ws need : emits (ws_msg_reserve ws need).
Proof. unfold ws_msg_reserve. emit. Qed.
#[export] Hint Resolve emits_reserve : chttp.

Lemma emits_step ws : ws_ok ws → emits (ws_parse_step ws).
Proof.
  intros Hok. pose proof (ok_ctrl ws Hok) as Hc. unfold ws_parse_step. destruct (ws_state ws).
  - unfold ws_parse_header. cbv zeta. emit.
  - unfold ws_parse_length. cbv zeta. emit.
  - unfold ws_parse_length. cbv zeta. emit.
  - unfold ws_parse_mask. emit.
  - unfold ws_parse_payload. case_if.
    + unfold ws_frame_complete. cbv zeta. case_if; [by apply emits_control|emit].
    + case_if; [emit|]. destruct (ws_unmask_chunk ws). emit.
Qed.

Lemma emits_parse_loop fuel ws : ws_ok ws → emits (ws_parse_loop fuel ws).
Proof.
  revert ws. induction fuel as [|fuel IH]; intros ws Hok; [apply emits_ret|]. cbn [ws_parse_loop].
  eapply emits_bind; [by apply emits_step|by apply parse_step_ok|].
  intros [s ws1] [Hok1 _]. destruct s; [by apply IH|emit..].
Qed.

Lemma emits_grow ws : emits (ws_grow_in ws).
Proof. unfold ws_grow_in. cbv zeta. emit. Qed.
#[export] Hint Resolve emits_grow : chttp.

(** After a successful growth there is room, and the session is still well-formed. *)
Lemma grow_in_ok ws : ws_ok ws →
  returns (ws_grow_in ws) (λ r, ws_ok r.2 ∧ (r.1 = true → zlen (ws_in r.2) < ws_in_cap r.2)).
Proof.
  intros Hok. destruct (ok_cap ws Hok) as [Hc Hb]. unfold ws_grow_in.
  case_if; breflect; [|apply returns_ret; cbn [fst snd]; split; [done|lia]].
  case_if; [by apply returns_ret|]. case_if; [by apply returns_ret|]. breflect.
  apply returns_bind with (λ _, True); [done|]. intros ok _.
  case_if; apply returns_ret; cbn [fst snd]; [by split|].
  destruct Hok as [H1 H2 H3 H4 H5]. split; [|unfold WS_RECV_BUFFER in *; ws_cbn; lia].
  split; unfold state_ok, ws_msg_len in *; ws_cbn; try done. lia.
Qed.

Lemma recv_in_room_ok ws : ws_ok ws → zlen (ws_in ws) < ws_in_cap ws →
  returns (ws_recv_in ws) (λ r, match r with
    | Got bs => ws_ok (set_ws_in (ws_in ws ++ bs) ws) | _ => True end).
Proof.
  intros [Hp Hc Hm Ht Hs] Hl w. unfold ws_recv_in, result. rewrite recv_run. cbn [fst].
  pose proof (recv_step_octets (ws_in_cap ws - zlen (ws_in ws)) (w_recv w) ltac:(lia)) as H.
  destruct (recv_step _ (w_recv w)).1 as [bs| | | |]; try done.
  pose proof (zlen_nonneg bs). split; unfold state_ok, ws_msg_len in *; ws_cbn; rewrite ?zlen_app; try done; lia.
Qed.

Lemma emits_recv_loop fuel ws : ws_ok ws → emits (ws_recv_loop fuel ws).
Proof.
  revert ws. induction fuel as [|fuel IH]; intros ws Hok; [apply emits_ret|]. cbn [ws_recv_loop].
  eapply emits_bind; [by apply emits_parse_loop|by apply ws_parse_ok|].
  intros [res ws1] [Hok1 _]. cbn [snd] in Hok1. destruct res; try apply emits_ret.
  eapply emits_bind; [apply emits_grow|by apply grow_in_ok|]. intros [ok ws2] [Hok2 Hr].
  cbn [fst snd] in *. destruct ok; [|emit]. cbn [negb].
  eapply emits_bind; [apply emits_recv_in|by apply recv_in_room_ok, Hr|].
  intros [bs| | | |] Hbs; [by apply IH|apply emits_ret|by apply IH| |apply emits_ret].
  apply emits_bind_any; [apply emits_listening|]. intros []; [by apply IH|emit].
Qed.

Lemma emits_recv ws : ws_ok ws → emits (http_ws_recv ws).
Proof.
  intros Hok. unfold http_ws_recv. case_if; [apply emits_ret|].
  apply emits_bind_any; [apply emits_recv_queue|]. intros q. by apply emits_recv_loop.
Qed.

(** Draining keeps the session well-formed and ends it. *)
Lemma drain_loop_ok slices ws : ws_ok ws → returns (ws_drain_loop slices ws) ws_ok.
Proof.
  revert ws. induction slices as [|slices IH]; intros ws Hok; cbn [ws_drain_loop].
  { by apply returns_ret, mark_dead_ok. }
  case_if; [by apply returns_ret, mark_dead_ok|].
  eapply returns_bind; [by apply grow_in_ok|]. intros [ok ws1] [Hok1 Hr]. cbn [fst snd] in *.
  destruct ok; [|by apply returns_ret, mark_dead_ok]. cbn [negb].
  eapply returns_bind; [by apply recv_in_room_ok, Hr|].
  intros [bs| | | |] Hbs; try (by apply returns_ret, mark_dead_ok); [|by apply IH].
  eapply returns_bind; [by apply ws_parse_ok|]. intros [res ws2] [Hok2 _]. cbn [snd] in Hok2.
  destruct res; [by apply IH|by apply IH|by apply returns_ret|by apply returns_ret|].
  by apply returns_ret, mark_dead_ok.
Qed.

Lemma emits_drain slices ws : ws_ok ws → emits (ws_drain_loop slices ws).
Proof.
  revert ws. induction slices as [|slices IH]; intros ws Hok; cbn [ws_drain_loop]; [apply emits_ret|].
  case_if; [apply emits_ret|].
  eapply emits_bind; [apply emits_grow|by apply grow_in_ok|]. intros [ok ws1] [Hok1 Hr].
  cbn [fst snd] in *. destruct ok; [|apply emits_ret]. cbn [negb].
  eapply emits_bind; [apply emits_recv_in|by apply recv_in_room_ok, Hr|].
  intros [bs| | | |] Hbs; try apply emits_ret; [|by apply IH].
  eapply emits_bind; [by apply emits_parse_loop|by apply ws_parse_ok|]. intros [res ws2] [Hok2 _].
  cbn [snd] in Hok2. destruct res; [by apply IH|by apply IH|apply emits_ret..].
Qed.

(** ** A session that ended *)

(** What a parse reports as the end of a session is its end. *)
Definition ended (s : WsParseResult) (ws : HttpWs) : Prop :=
  match s with
  | WS_PARSE_CLOSED | WS_PARSE_PROTOCOL | WS_PARSE_IO_ERROR => ws_dead ws = true
  | WS_PARSE_CONTINUE | WS_PARSE_MESSAGE => True
  end.

Definition step_ended (r : ParseStep * HttpWs) : Prop :=
  match r.1 with PReturn s => ended s r.2 | PNext | PNeed => True end.

Lemma mark_dead_dead ws code io : ws_dead (ws_mark_dead ws code io) = true.
Proof. done. Qed.

Lemma or_return_ended m : returns m (λ r, ended r.1 r.2) → returns (or_return m) step_ended.
Proof.
  intros H. unfold or_return. eapply returns_bind; [exact H|].
  intros [s ws] Hs. apply returns_ret. by destruct s.
Qed.

Lemma returns_any {A B} (m : M A) (f : A → M B) Q : (∀ x, returns (f x) Q) → returns (m ≫= f) Q.
Proof. intros H. by apply returns_bind with (λ _, True). Qed.

Lemma violation_ended ws code : returns (ws_protocol_violation ws code) (λ r, ended r.1 r.2).
Proof. unfold ws_protocol_violation. apply returns_any. intros []. by apply returns_ret. Qed.

Lemma control_ended ws : returns (ws_handle_control ws) (λ r, ended r.1 r.2).
Proof.
  unfold ws_handle_control. case_if; [|case_if; [by apply returns_ret|case_if]].
  - apply returns_any. intros []. case_if; by apply returns_ret.
  - case_if; [apply violation_ended|]. apply returns_any. intros []. by apply returns_ret.
  - apply violation_ended.
Qed.

Lemma length_known_ended ws : returns (ws_frame_length_known ws) (λ r, ended r.1 r.2).
Proof. unfold ws_frame_length_known. case_if; [apply violation_ended|by apply returns_ret]. Qed.

Lemma out_of_memory_ended ws : returns (ws_out_of_memory ws) step_ended.
Proof. unfold ws_out_of_memory. apply returns_any. intros []. by apply returns_ret. Qed.

Lemma step_ended_all ws : returns (ws_parse_step ws) step_ended.
Proof.
  unfold ws_parse_step, ws_parse_header, ws_parse_length, ws_parse_mask, ws_parse_payload,
    ws_frame_complete. cbv zeta.
  destruct (ws_state ws);
    repeat first
      [ apply or_return_ended; first [apply violation_ended | apply length_known_ended | apply control_ended]
      | apply out_of_memory_ended
      | by apply returns_ret
      | apply returns_any; intros ?
      | match goal with |- returns (if ?b then _ else _) _ => destruct b end
      | match goal with |- returns (match ?x with _ => _ end) _ => destruct x end ].
Qed.

Lemma parse_ended fuel ws : returns (ws_parse_loop fuel ws) (λ r, ended r.1 r.2).
Proof.
  revert ws. induction fuel as [|fuel IH]; intros ws; [by apply returns_ret|]. cbn [ws_parse_loop].
  eapply returns_bind; [apply step_ended_all|].
  intros [[| |s] ws1] Hs; [apply IH|by apply returns_ret..].
Qed.

Lemma drain_dead slices ws : returns (ws_drain_loop slices ws) (λ ws', ws_dead ws' = true).
Proof.
  revert ws. induction slices as [|slices IH]; intros ws; cbn [ws_drain_loop]; [by apply returns_ret|].
  case_if; [by apply returns_ret|]. apply returns_any. intros [ok ws1].
  case_if; [by apply returns_ret|]. apply returns_any. intros [bs| | | |]; try by apply returns_ret.
  - eapply returns_bind; [apply parse_ended|]. intros [res ws2] Hres.
    destruct res; [apply IH|apply IH|by apply returns_ret..].
  - apply IH.
Qed.

(** What the functions of the interface do to a session that is over: nothing. *)
Definition session_over (ws : HttpWs) : Prop :=
  (∀ data, http_ws_send_text ws data = mret (-1, ws)) ∧
  (∀ data, http_ws_send_binary ws data = mret (-1, ws)) ∧
  (∀ data, http_ws_send_ping ws data = mret (-1, ws)) ∧
  (∀ code reason, http_ws_close ws code reason = mret (0, ws)) ∧
  ∃ r, r ≠ HTTP_WS_OK ∧ http_ws_recv ws = mret (r, ws).

Lemma dead_over ws : ws_dead ws = true → session_over ws.
Proof.
  intros H. unfold session_over, http_ws_send_text, http_ws_send_binary, http_ws_send_ping,
    http_ws_close, http_ws_recv, ws_send_frame. rewrite H.
  split; [done|]. split; [done|]. split; [intros data; by case_if|]. split; [done|].
  eexists. split; [|done]. by case_if.
Qed.

(** Http_ws_close always ends the session: whatever the peer does and whatever
    fails, afterwards every send is refused without effect, closing again answers 0,
    and http_ws_recv reports the end at once, so a handler that closes cannot block. *)
Lemma http_ws_close_over ws code reason :
  returns (http_ws_close ws code reason) (λ r, session_over r.2).
Proof.
  unfold http_ws_close. case_if; [by apply returns_ret, dead_over|].
  apply returns_any. intros [rc ws1]. eapply returns_bind; [apply drain_dead|].
  intros ws2 H. apply returns_ret. by apply dead_over.
Qed.

(** ** Any use of the session API *)

(** One call of the interface, as a handler makes it; what is sent fits a frame. *)
Inductive api_call : (HttpWs → M HttpWs) → Prop :=
  | api_recv : api_call (λ ws, snd <$> http_ws_recv ws)
  | api_text data : zlen data < 2 ^ 63 → api_call (λ ws, snd <$> http_ws_send_text ws data)
  | api_binary data : zlen data < 2 ^ 63 → api_call (λ ws, snd <$> http_ws_send_binary ws data)
  | api_ping data : api_call (λ ws, snd <$> http_ws_send_ping ws data)
  | api_close code reason : api_call (λ ws, snd <$> http_ws_close ws code reason).

Lemma emits_fmap {A B} (f : A → B) (m : M A) : emits m → emits (f <$> m).
Proof. intros H. exact H. Qed.

Lemma returns_fmap {A B} (f : A → B) (m : M A) P : returns m (λ x, P (f x)) → returns (f <$> m) P.
Proof. intros H. exact H. Qed.

Lemma send_frame_ok ws op payload : ws_ok ws → returns (ws_send_frame ws op payload) (λ r, ws_ok r.2).
Proof. intros Hok w. eapply same_recv_ok; [apply same_recv_send|done]. Qed.

Lemma close_ok ws code reason : ws_ok ws →
  emits (http_ws_close ws code reason) ∧ returns (http_ws_close ws code reason) (λ r, ws_ok r.2).
Proof.
  intros Hok. assert (returns (ws_send_close ws code reason) (λ r, ws_ok r.2)) as Hs.
  { intros w. eapply same_recv_ok; [apply same_recv_send_close|done]. }
  unfold http_ws_close. case_if; [by split; [apply emits_ret|apply returns_ret]|]. split.
  - eapply emits_bind; [apply emits_send_close|exact Hs|]. intros [rc ws1] Hok1.
    apply emits_bind_any; [by apply emits_drain|]. intros ?. apply emits_ret.
  - eapply returns_bind; [exact Hs|]. intros [rc ws1] Hok1.
    eapply returns_bind; [by apply drain_loop_ok|]. intros ws2 Hok2. by apply returns_ret.
Qed.

Lemma api_call_ok f ws : api_call f → ws_ok ws → emits (f ws) ∧ returns (f ws) ws_ok.
Proof.
  assert (∀ op, op ∈ [WS_OP_TEXT; WS_OP_BINARY; WS_OP_PING] → server_opcode op) as Hop.
  { intros op. unfold server_opcode. rewrite !elem_of_cons. tauto. }
  intros Hf Hok. destruct Hf as [|data Hd|data Hd|data|code reason].
  - split; [by apply emits_fmap, emits_recv|by apply returns_fmap, http_ws_recv_ok].
  - split; [apply emits_fmap, emits_send_frame|by apply returns_fmap, send_frame_ok].
    split; [by apply Hop; set_solver|]. split; [done|]. unfold WS_OP_TEXT, WS_OP_CLOSE. lia.
  - split; [apply emits_fmap, emits_send_frame|by apply returns_fmap, send_frame_ok].
    split; [by apply Hop; set_solver|]. split; [done|]. unfold WS_OP_BINARY, WS_OP_CLOSE. lia.
  - unfold http_ws_send_ping. case_if; breflect.
    { split; [apply emits_fmap, emits_ret|by apply returns_fmap, returns_ret]. }
    split; [apply emits_fmap, emits_send_frame|by apply returns_fmap, send_frame_ok].
    split; [by apply Hop; set_solver|]. split; [lia|done].
  - destruct (close_ok ws code reason Hok) as [H1 H2].
    split; [by apply emits_fmap|by apply returns_fmap].
Qed.

(** What a handler may do between its calls leaves the socket alone. *)
Inductive api_step : HttpWs * World → HttpWs * World → Prop :=
  | step_call f ws w : api_call f → api_step (ws, w) (result (f ws) w, world (f ws) w)
  | step_own ws w w' : w_sent w' = w_sent w → w_send w' = w_send w → api_step (ws, w) (ws, w').

(** Any sequence of calls keeps the session's invariant and sends only whole frames. *)
Lemma api_run_ok ws w ws' w' :
  ws_ok ws → rtc api_step (ws, w) (ws', w') →
  ws_ok ws' ∧
  (w_send w = [] → w_send w' = [] ∧
     ∃ fs, Forall server_frame fs ∧ w_sent w' = w_sent w ++ concat fs).
Proof.
  intros Hok H. remember (ws, w) as a eqn:Ea. remember (ws', w') as b eqn:Eb.
  revert ws w Ea Hok. induction H as [a|a c b Hst _ IH]; intros ws w -> Hok.
  - injection Eb as <- <-. split; [done|]. intros Hw. split; [done|]. exists []. by rewrite app_nil_r.
  - inversion Hst as [f ws0 w0 Hf|ws0 w0 w1 H1 H2]; subst.
    + destruct (api_call_ok f ws Hf Hok) as [He Hr].
      destruct (IH eq_refl _ _ eq_refl (Hr w)) as [Hok' Hs]. split; [done|]. intros Hw.
      destruct (He w Hw) as (G1 & fs & G2 & G3). destruct (Hs G1) as (G4 & fs' & G5 & G6).
      split; [done|]. exists (fs ++ fs'). split; [by apply Forall_app|].
      by rewrite G6, G3, concat_app, <- app_assoc.
    + destruct (IH eq_refl _ _ eq_refl Hok) as [Hok' Hs]. split; [done|].
      intros Hw. rewrite <- H1. apply Hs. congruence.
Qed.

Lemma server_frames_pairs out : Forall server_frame out →
  ∃ fs, Forall (λ f, frame_fits f.1 f.2) fs ∧ out = map (uncurry frame_text) fs.
Proof.
  induction 1 as [|o out (op & payload & Hfit & ->) _ (fs & Hfs & ->)]; [by exists []|].
  exists ((op, payload) :: fs). split; [by constructor|done].
Qed.

(** C8: whatever calls of the session interface a handler makes, in any order, with steps of
    its own between them, the session keeps its invariant and everything it sends is a sequence of
    complete frames a client may accept (final, unmasked, known opcode, short when control), which the
    client's parser reads back exactly. *)
Theorem session_api_ok ws w ws' w' :
  ws_ok ws → w_send w = [] → rtc api_step (ws, w) (ws', w') →
  ws_ok ws' ∧
  ∃ out fs, w_sent w' = w_sent w ++ out ∧ Forall (λ f, frame_fits f.1 f.2) fs ∧
    read_frames (length out) out = Some fs ∧ out = concat (map (uncurry frame_text) fs).
Proof.
  intros Hok Hw H. destruct (api_run_ok ws w ws' w' Hok H) as [Hok' Hs]. split; [done|].
  destruct (Hs Hw) as (_ & out & Ho & E). destruct (server_frames_pairs out Ho) as (fs & Hfs & ->).
  exists (concat (map (uncurry frame_text) fs)), fs. split; [done|]. split; [done|]. split; [|done].
  by apply read_frames_text.
Qed.

Lemma session_api_ok_witness :
  let ws := fresh_session 10 [] in
  let r := http_ws_send_text ws (str "hi") quiet_world in
  ws_ok r.1.2 ∧ w_sent r.2 = frame_text WS_OP_TEXT (str "hi") ∧
  ∃ out fs, w_sent r.2 = w_sent quiet_world ++ out ∧ Forall (λ f, frame_fits f.1 f.2) fs ∧
    read_frames (length out) out = Some fs ∧ out = concat (map (uncurry frame_text) fs).
Proof.
  intros ws r.
  destruct (session_api_ok ws quiet_world r.1.2 r.2) as [H1 H2].
  - apply (session_create_ok 10 [] ltac:(lia) quiet_world).
  - reflexivity.
  - apply rtc_once.
    exact (step_call (λ ws, snd <$> http_ws_send_text ws (str "hi")) ws quiet_world
             (api_text (str "hi") eq_refl)).
  - split; [exact H1 | split; [vm_compute; reflexivity | exact H2]].
Defined.

(** A handler that works on its session through the interface. *)
Definition uses_api {A} (handler : HttpWs → A → M HttpWs) : Prop :=
  ∀ ws req w, rtc api_step (ws, w) (result (handler ws req) w, world (handler ws req) w).

(** ** A stream of messages *)

(** The limit of a session never changes. *)
Definition keeps_max {A} (ws : HttpWs) (r : A * HttpWs) : Prop :=
  ws_max_message r.2 = ws_max_message ws.

Lemma keeps_max_close ws ws0 code reason :
  ws_max_message ws = ws_max_message ws0 → returns (ws_send_close ws code reason) (keeps_max ws0).
Proof.
  intros E w. unfold keeps_max. rewrite <- E. apply (same_recv_send_close ws code reason w).
Qed.

Lemma keeps_max_frame ws ws0 op payload :
  ws_max_message ws = ws_max_message ws0 → returns (ws_send_frame ws op payload) (keeps_max ws0).
Proof. intros E w. unfold keeps_max. rewrite <- E. apply (same_recv_send ws op payload w). Qed.

Lemma keeps_max_dead {A} (s : A) ws ws0 code io :
  ws_max_message ws = ws_max_message ws0 → keeps_max ws0 (s, ws_mark_dead ws code io).
Proof. intros E. unfold keeps_max, ws_mark_dead. by destruct (code =? 0), io. Qed.

(** Walks a program, with the session's limit known at every point. *)
Ltac keep_max :=
  repeat first
    [ apply keeps_max_close
    | apply keeps_max_frame
    | apply returns_ret
    | apply keeps_max_dead
    | progress (unfold or_return, ws_protocol_violation, ws_out_of_memory, ws_frame_length_known,
        ws_handle_control, ws_frame_complete)
    | match goal with
      | |- returns (ws_send_close _ _ _ ≫= _) _ =>
          eapply returns_bind; [apply keeps_max_close|intros [? ?] ?; unfold keeps_max in *; cbn [snd] in *]
      | |- returns (ws_send_frame _ _ _ ≫= _) _ =>
          eapply returns_bind; [apply keeps_max_frame|intros [? ?] ?; unfold keeps_max in *; cbn [snd] in *]
      | |- returns (malloc ≫= _) _ => apply returns_any; intros ?
      | |- returns (if ?b then _ else _) _ => destruct b
      | |- returns (match ?x with _ => _ end) _ => destruct x
      | |- returns (_ ≫= _) (keeps_max ?ws) =>
          apply returns_bind with (keeps_max ws); [|intros [? ?] ?; unfold keeps_max in *; cbn [snd] in *]
      | |- returns (_ ≫= _) (λ _, ws_max_message _ = ws_max_message ?ws) =>
          apply returns_bind with (keeps_max ws); [|intros [? ?] ?; unfold keeps_max in *; cbn [snd] in *]
      end
    | (unfold keeps_max in *; cbn [snd]; ws_cbn; done)
    | (unfold keeps_max, ws_mark_dead, ws_deliver in *; cbn [snd];
       repeat match goal with
              | H : context [if ?b then _ else _] |- _ => destruct b
              | |- context [if ?b then _ else _] => destruct b
              end; ws_cbn; congruence) ].

Lemma reserve_keeps_max ws ws0 need :
  ws_max_message ws = ws_max_message ws0 → returns (ws_msg_reserve ws need) (keeps_max ws0).
Proof.
  intros E w. unfold keeps_max. by destruct (msg_reserve_same ws need w) as [-> | [cap ->]].
Qed.

Lemma step_keeps_max ws : returns (ws_parse_step ws) (keeps_max ws).
Proof.
  unfold ws_parse_step. destruct (ws_state ws).
  - unfold ws_parse_header. cbv zeta. keep_max.
  - unfold ws_parse_length. cbv zeta. keep_max.
  - unfold ws_parse_length. cbv zeta. keep_max.
  - unfold ws_parse_mask. keep_max.
  - unfold ws_parse_payload. case_if; [keep_max|]. case_if; [keep_max|].
    unfold ws_unmask_chunk. cbv zeta. case_if; [keep_max|].
    eapply returns_bind; [by apply (reserve_keeps_max _ ws)|]. intros [ok ws1] H. unfold keeps_max in H.
    cbn [snd] in H. keep_max.
Qed.

Lemma parse_keeps_max ws : returns (ws_parse ws) (keeps_max ws).
Proof.
  unfold ws_parse. generalize (parse_fuel ws). intros fuel.
  enough (∀ ws1, ws_max_message ws1 = ws_max_message ws → returns (ws_parse_loop fuel ws1) (keeps_max ws)) by auto.
  induction fuel as [|fuel IH]; intros ws1 E; cbn [ws_parse_loop]; [by apply returns_ret|].
  eapply returns_bind; [apply step_keeps_max|]. intros [[] ws2] H; unfold keeps_max in H; cbn [snd] in H.
  - apply IH. congruence.
  - apply returns_ret. unfold keeps_max, ws_compact. cbn [snd].
    repeat match goal with |- context [if ?b then _ else _] => destruct b end; ws_cbn; congruence.
  - apply returns_ret. unfold keeps_max. cbn [snd]. congruence.
Qed.

Lemma recv_keeps_max ws : returns (http_ws_recv ws) (keeps_max ws).
Proof.
  unfold http_ws_recv. case_if; [by apply returns_ret|]. apply returns_any. intros q.
  generalize (S (S (recv_size q))). intros fuel.
  enough (∀ ws1, ws_max_message ws1 = ws_max_message ws → returns (ws_recv_loop fuel ws1) (keeps_max ws)) by auto.
  induction fuel as [|fuel IH]; intros ws1 E; cbn [ws_recv_loop]; [by apply returns_ret|].
  eapply returns_bind; [apply parse_keeps_max|]. intros [r ws2] H. unfold keeps_max in H. cbn [snd] in H.
  destruct r; try (apply returns_ret; unfold keeps_max; cbn [snd]; congruence).
  eapply returns_bind with (keeps_max ws).
  { unfold ws_grow_in. rewrite E in H. keep_max. }
  intros [[] ws3] H3; unfold keeps_max in H3; cbn [snd negb] in *;
    [|apply returns_ret; unfold keeps_max, ws_mark_dead; by rewrite <- H3].
  apply returns_any. intros [bs| | | |]; try (apply IH; ws_cbn; congruence); try by keep_max.
  apply returns_any. intros []; cbn [negb]; [by apply IH|]. keep_max.
Qed.

(** A message of the client: its opcode, its frames, its data and the pongs its
    pings ask for. *)
Record ClientMessage := { cm_opcode : Z; cm_frames : list Frame; cm_data : bytes; cm_pongs : bytes }.

Definition cm_ok (max : Z) (c : ClientMessage) : Prop :=
  message_opcode (cm_opcode c) ∧ delivers max (cm_opcode c) false [] (cm_frames c) (cm_data c) (cm_pongs c).

Definition cm_message (c : ClientMessage) : HttpWsMessage :=
  {| wm_type := if cm_opcode c =? WS_OP_TEXT then HTTP_WS_TEXT else HTTP_WS_BINARY; wm_data := cm_data c |}.

Definition cm_stream (cs : list ClientMessage) : bytes := concat (map (frames ∘ cm_frames) cs).

(** A handler's loop: [n] calls of [http_ws_recv], and what they returned. *)
Fixpoint recv_messages (n : nat) (ws : HttpWs) : M (list (HttpWsResult * option HttpWsMessage) * HttpWs) :=
  match n with
  | O => mret ([], ws)
  | S n =>
      '(r, ws) ← http_ws_recv ws;
      '(rs, ws') ← recv_messages n ws;
      mret ((r, ws_cur ws) :: rs, ws')
  end.

(** C7: a ready session receives a whole stream of messages: the n-th call of http_ws_recv
    returns the n-th message of the client, complete, whatever the fragmentation and the segmentation of
    the network, every ping is answered in its place, and the session is ready at the rest of the stream. *)
Theorem session_delivers cs tail ws w :
  ready ws → w_send w = [] → w_alloc w = [] → w_listening w = [] → Forall benign (w_recv w) →
  Forall (cm_ok (ws_max_message ws)) cs → unread ws ++ arriving (w_recv w) = cm_stream cs ++ tail →
  let r := recv_messages (length cs) ws w in
  r.1.1 = map (λ c, (HTTP_WS_OK, Some (cm_message c))) cs ∧ ready r.1.2 ∧
  unread r.1.2 ++ arriving (w_recv r.2) = tail ∧ w_sent r.2 = w_sent w ++ concat (map cm_pongs cs).
Proof.
  cbv zeta. revert ws w. induction cs as [|c cs IH]; intros ws w Hr Hs Ha Hl Hb Hc HU.
  { split; [done|]. split; [done|]. split; [done|]. cbn. by rewrite app_nil_r. }
  apply Forall_cons in Hc as [[Hop Hd] Hc]. unfold cm_stream in HU. cbn [map concat compose] in HU.
  rewrite <- app_assoc in HU.
  destruct (http_ws_recv_delivers _ ws w _ _ _ _ Hr Hs Ha Hl Hb Hop Hd HU)
    as (ws' & w' & E & ((t & Ht & Hiff) & Hr') & HU' & Hb' & Hw & Hs' & Ha' & Hl').
  pose proof (recv_keeps_max ws w) as Hk. unfold keeps_max, result in Hk. rewrite E in Hk. cbn [fst snd] in Hk.
  rewrite <- Hk in Hc. destruct (IH ws' w' Hr' Hs' Ha' Hl' Hb' Hc HU') as (G1 & G2 & G3 & G4).
  cbn [length recv_messages]. rewrite bind_run. unfold result, world. rewrite E. cbn [fst snd].
  rewrite bind_run. unfold result, world. destruct (recv_messages (length cs) ws' w') as [[rs ws2] w2].
  cbn [fst snd] in *. split; [|split; [done|split; [done|]]].
  - cbn [mret M_ret fst snd map]. rewrite G1, Ht. f_equal. f_equal. f_equal.
    unfold cm_message. f_equal. case_if; breflect; [by apply Hiff|].
    destruct t; [|done]. by destruct Hiff as [Hi _]; specialize (Hi eq_refl).
  - cbn [mret M_ret fst snd map concat]. by rewrite G4, Hw, app_assoc.
Qed.

Lemma session_delivers_witness :
  let f := client_frame true WS_OP_TEXT (str "hi") in
  let p := client_frame true WS_OP_PING (str "?") in
  let g := client_frame true WS_OP_BINARY (str "yo") in
  let s := encode_frame f ++ encode_frame p ++ encode_frame g in
  let w := receives [RData (ztake 3 s); RTimeout; RData (zdrop 3 s)] in
  let r := recv_messages 2 (fresh_session 10 []) w in
  r.1.1 = [(HTTP_WS_OK, Some {| wm_type := HTTP_WS_TEXT; wm_data := str "hi" |});
           (HTTP_WS_OK, Some {| wm_type := HTTP_WS_BINARY; wm_data := str "yo" |})] ∧
  w_sent r.2 = frame_text WS_OP_PONG (str "?").
Proof.
  intros f p g s w r.
  set (pong := frame_text WS_OP_PONG (str "?")).
  destruct (session_delivers
      [ {| cm_opcode := WS_OP_TEXT; cm_frames := [f]; cm_data := str "hi"; cm_pongs := [] |};
        {| cm_opcode := WS_OP_BINARY; cm_frames := [p; g]; cm_data := str "yo"; cm_pongs := pong ++ [] |} ]
      [] (fresh_session 10 []) w) as (H1 & _ & _ & H4).
  - split; try reflexivity. apply (session_create_ok 10 [] ltac:(lia) quiet_world).
  - reflexivity.
  - reflexivity.
  - reflexivity.
  - repeat constructor; vm_compute; discriminate.
  - apply Forall_cons. split; [split; [left; reflexivity|]|].
    { apply (d_last 10 WS_OP_TEXT false [] f); [reflexivity | reflexivity | reflexivity | decided]. }
    apply Forall_cons. split; [split; [right; reflexivity|]|apply Forall_nil; exact I].
    apply (d_ping 10 WS_OP_BINARY false [] p); [reflexivity | reflexivity | reflexivity | decided |].
    apply (d_last 10 WS_OP_BINARY false [] g); [reflexivity | reflexivity | reflexivity | decided].
  - vm_compute. reflexivity.
  - split; [exact H1 | exact H4].
Defined.
