(* ===== verification/WsThreads.v ===== *)
(** * Websocket sessions shared between threads

    [src/c_http_ws.c] lets other threads send on a session while its handler runs.  What
    threads share is guarded by the mutex of the session; here threads interleave at every
    [send] call, and what they do is shown to be what the critical sections do one after
    the other, in the order in which they took the lock. *)

From stdpp Require Import gmap.
From S2P Require Import Prelude CLib World Net WsSession WsProtocol WsWire.
#[local] Open Scope Z_scope.

(** ** Critical sections *)

(** The fields of [HttpWs] that the mutex guards. *)
Record Shared := {
  sh_close_sent : bool;
  sh_dead : bool;
  sh_io_error : bool;
  sh_close_code : Z;
}.

Definition shared_of (ws : HttpWs) : Shared :=
  {| sh_close_sent := ws_close_sent ws; sh_dead := ws_dead ws; sh_io_error := ws_io_error ws;
     sh_close_code := ws_close_code ws |}.

(** A session with these fields. *)
Definition with_shared (sh : Shared) (ws : HttpWs) : HttpWs :=
  set_ws_close_code (sh_close_code sh) (set_ws_io_error (sh_io_error sh)
    (set_ws_dead (sh_dead sh) (set_ws_close_sent (sh_close_sent sh) ws))).

(** What is done between a lock and its unlock: [ws_send_frame], [ws_send_close],
    [ws_mark_dead], and the reads of [ws_is_dead], [http_ws_recv] and [http_ws_close_code]. *)
Inductive CriticalSection :=
  | SecSend (opcode : Z) (payload : bytes)
  | SecClose (code : Z) (reason : option bytes)
  | SecMark (close_code : Z) (io_error : bool)
  | SecIsDead
  | SecIoError
  | SecCloseCode.

Definition b2z (b : bool) : Z := if b then 1 else 0.

(** A section run without interruption, by the definitions of [WsSession]. *)
Definition run_section (s : CriticalSection) (ws : HttpWs) : M (Z * HttpWs) :=
  match s with
  | SecSend opcode payload => ws_send_frame ws opcode payload
  | SecClose code reason => ws_send_close ws code reason
  | SecMark code io_error => mret (0, ws_mark_dead ws code io_error)
  | SecIsDead => mret (b2z (ws_dead ws), ws)
  | SecIoError => mret (b2z (ws_io_error ws), ws)
  | SecCloseCode => mret (http_ws_close_code ws, ws)
  end.

(** Its effect on what is shared. *)
Definition atomic (s : CriticalSection) (sh : Shared) : M (Z * Shared) :=
  r ← run_section s (with_shared sh (fresh_session 0 []));
  mret (r.1, shared_of r.2).

(** ** Threads *)

(** Where a thread is in its section: waiting for the lock; holding it; in the loop of
    [ws_send_raw] with these bytes left, and the payload still to come when they are the
    header; behind the frame; about to unlock. *)
Inductive Pc :=
  | PWait
  | PEnter
  | PRaw (rest : bytes) (next : option bytes)
  | PSent (rc : Z)
  | PFinish (rc : Z).

Definition set_dead_io (sh : Shared) : Shared :=
  {| sh_close_sent := sh_close_sent sh; sh_dead := true; sh_io_error := true; sh_close_code := sh_close_code sh |}.

Definition set_sh_close_code (code : Z) (sh : Shared) : Shared :=
  {| sh_close_sent := sh_close_sent sh; sh_dead := sh_dead sh; sh_io_error := sh_io_error sh;
     sh_close_code := code |}.

Definition set_sh_close_sent (sh : Shared) : Shared :=
  {| sh_close_sent := true; sh_dead := sh_dead sh; sh_io_error := sh_io_error sh;
     sh_close_code := sh_close_code sh |}.

Definition enter (s : CriticalSection) (sh : Shared) : Pc * Shared :=
  match s with
  | SecSend opcode payload =>
      (if sh_dead sh then PFinish (-1) else PRaw (frame_header opcode (zlen payload)) (Some payload), sh)
  | SecClose code reason =>
      let payload := close_payload code reason in
      (if sh_dead sh then PFinish (-1) else PRaw (frame_header WS_OP_CLOSE (zlen payload)) (Some payload), sh)
  | SecMark code io_error =>
      (PFinish 0, {| sh_close_sent := sh_close_sent sh; sh_dead := true;
                     sh_io_error := io_error || sh_io_error sh;
                     sh_close_code := if code =? 0 then sh_close_code sh else code |})
  | SecIsDead => (PFinish (b2z (sh_dead sh)), sh)
  | SecIoError => (PFinish (b2z (sh_io_error sh)), sh)
  | SecCloseCode => (PFinish (sh_close_code sh), sh)
  end.

(** What [ws_send_close] does behind its frame, and before it unlocks. *)
Definition after_frame (s : CriticalSection) (sh : Shared) : Shared :=
  match s with
  | SecClose code _ => if negb (sh_close_sent sh) && negb (code =? 0) then set_sh_close_code code sh else sh
  | _ => sh
  end.
Definition before_unlock (s : CriticalSection) (sh : Shared) : Shared :=
  match s with SecClose _ _ => set_sh_close_sent sh | _ => sh end.

(** One step of the thread that holds the lock; at most one [send]. *)
Definition micro (s : CriticalSection) (pc : Pc) (sh : Shared) (w : World) : option (Pc * Shared * World) :=
  match pc with
  | PWait | PFinish _ => None
  | PEnter => Some (enter s sh, w)
  | PRaw [] (Some payload) => Some (if 0 <? zlen payload then PRaw payload None else PSent 0, sh, w)
  | PRaw [] None => Some (PSent 0, sh, w)
  | PRaw data next =>
      match w_send w with
      | [] => Some (PRaw [] next, sh, with_send [] (w_sent w ++ data) w)
      | SIntr :: events => Some (PRaw data next, sh, with_send events (w_sent w) w)
      | SError :: events => Some (PSent (-1), set_dead_io sh, with_send events (w_sent w) w)
      | SAccept n :: events =>
          Some (PRaw (zdrop n data) next, sh, with_send events (w_sent w ++ ztake n data) w)
      end
  | PSent rc => Some (PFinish rc, after_frame s sh, w)
  end.

(** The threads that are in a section, who holds the lock, and the sections that are over
    with their results, the first one first. *)
Record System := {
  sy_shared : Shared;
  sy_world : World;
  sy_lock : option nat;
  sy_threads : gmap nat (CriticalSection * Pc);
  sy_log : list (nat * CriticalSection * Z);
}.

Definition start (sh : Shared) (w : World) : System :=
  {| sy_shared := sh; sy_world := w; sy_lock := None; sy_threads := ∅; sy_log := [] |}.

(** A schedule says which thread goes next: it asks for the lock, gets it, works, or
    releases it. *)
Inductive Event := ECall (t : nat) (s : CriticalSection) | ELock (t : nat) | EWork (t : nat) | EUnlock (t : nat).

Definition step_of (e : Event) (y : System) : option System :=
  match e with
  | ECall t s =>
      match sy_threads y !! t with
      | None => Some {| sy_shared := sy_shared y; sy_world := sy_world y; sy_lock := sy_lock y;
                        sy_threads := <[t := (s, PWait)]> (sy_threads y); sy_log := sy_log y |}
      | Some _ => None
      end
  | ELock t =>
      match sy_lock y, sy_threads y !! t with
      | None, Some (s, PWait) =>
          Some {| sy_shared := sy_shared y; sy_world := sy_world y; sy_lock := Some t;
                  sy_threads := <[t := (s, PEnter)]> (sy_threads y); sy_log := sy_log y |}
      | _, _ => None
      end
  | EWork t =>
      match sy_threads y !! t with
      | Some (s, pc) =>
          '(pc, sh, w) ← micro s pc (sy_shared y) (sy_world y);
          Some {| sy_shared := sh; sy_world := w; sy_lock := sy_lock y;
                  sy_threads := <[t := (s, pc)]> (sy_threads y); sy_log := sy_log y |}
      | None => None
      end
  | EUnlock t =>
      match sy_threads y !! t with
      | Some (s, PFinish rc) =>
          Some {| sy_shared := before_unlock s (sy_shared y); sy_world := sy_world y; sy_lock := None;
                  sy_threads := base.delete t (sy_threads y); sy_log := sy_log y ++ [(t, s, rc)] |}
      | _ => None
      end
  end.

Definition thread_step (y y' : System) : Prop := ∃ e, step_of e y = Some y'.

Fixpoint run_schedule (es : list Event) (y : System) : option System :=
  match es with
  | [] => Some y
  | e :: es => y ← step_of e y; run_schedule es y
  end.

(** ** What is left of a section *)

(** Behind the frame: the result and the shared fields. *)
Definition settle (s : CriticalSection) (sh : Shared) (rc : Z) : Z * Shared :=
  (rc, before_unlock s (after_frame s sh)).

(** The rest of a frame, and what [ws_send_frame_locked] returns for it. *)
Definition frame_rc (data : bytes) (next : option bytes) : M Z :=
  rc ← ws_send_raw data;
  if negb (rc =? 0) then mret (-1)
  else
    rc ← match next with
         | Some payload => if 0 <? zlen payload then ws_send_raw payload else mret 0
         | None => mret 0
         end;
    mret (if negb (rc =? 0) then -1 else 0).

(** The section run to its end from where it is, without interruption. *)
Definition complete (s : CriticalSection) (pc : Pc) (sh : Shared) : M (Z * Shared) :=
  match pc with
  | PWait | PEnter => atomic s sh
  | PRaw data next =>
      rc ← frame_rc data next;
      mret (settle s (if rc =? 0 then sh else set_dead_io sh) rc)
  | PSent rc => mret (settle s sh rc)
  | PFinish rc => mret (rc, before_unlock s sh)
  end.

Lemma shared_with_shared sh ws : shared_of (with_shared sh ws) = sh.
Proof. by destruct sh. Qed.

Lemma locked_run ws op payload w :
  let r := frame_rc (frame_header op (zlen payload)) (Some payload) w in
  ws_send_frame_locked ws op payload w =
    ((r.1, if r.1 =? 0 then ws else set_ws_io_error true (set_ws_dead true ws)), r.2).
Proof.
  cbv zeta. unfold ws_send_frame_locked, frame_rc. mrun.
  destruct (ws_send_raw (frame_header op (zlen payload)) w) as [rc w1]. mrun.
  destruct (negb (rc =? 0)); [done|]. mrun. by case_match; mrun; destruct (negb _).
Qed.

(** Entering a section does what the section does first, whatever else the session holds. *)
Lemma enter_complete s ws w :
  let r := enter s (shared_of ws) in
  complete s r.1 r.2 w = (r ← run_section s ws; mret (r.1, shared_of r.2)) w.
Proof.
  destruct s as [op payload|code reason|code io| | |]; cbn [enter run_section fst snd]; [| | |done..].
  - unfold ws_send_frame. change (sh_dead (shared_of ws)) with (ws_dead ws).
    destruct (ws_dead ws); cbn [complete]; [done|]. mrun. rewrite locked_run.
    destruct (frame_rc _ _ w) as [rc w']. mrun. by destruct (rc =? 0).
  - unfold ws_send_close. change (sh_dead (shared_of ws)) with (ws_dead ws).
    destruct (ws_dead ws); cbn [complete]; [done|]. mrun. rewrite locked_run.
    destruct (frame_rc _ _ w) as [rc w']. mrun. unfold settle, before_unlock, after_frame, shared_of.
    destruct (ws_close_sent ws) eqn:E, (rc =? 0), (code =? 0); cbn; by rewrite ?E.
  - cbn [complete]. mrun. unfold ws_mark_dead, shared_of. by destruct (code =? 0), io.
Qed.

(** What a section does to the shared fields and the socket does not depend on the rest of
    the session. *)
Lemma atomic_shared s ws w :
  (r ← run_section s ws; mret (r.1, shared_of r.2)) w = atomic s (shared_of ws) w.
Proof.
  unfold atomic. rewrite <- !enter_complete. by rewrite shared_with_shared.
Qed.

Lemma complete_enter s sh w : complete s (enter s sh).1 (enter s sh).2 w = atomic s sh w.
Proof.
  pose proof (enter_complete s (with_shared sh (fresh_session 0 [])) w) as H. cbv zeta in H.
  rewrite shared_with_shared in H. by rewrite H.
Qed.

(** One round of the loop of [send_all]. *)
Lemma send_all_nil w : send_all [] w = (0, w).
Proof.
  unfold send_all. destruct w as [? ? events]; destruct events; cbn; unfold with_send; cbn; by rewrite app_nil_r.
Qed.

Lemma send_all_intr b data events w :
  w_send w = SIntr :: events → send_all (b :: data) w = send_all (b :: data) (with_send events (w_sent w) w).
Proof. intros E. unfold send_all. rewrite E. done. Qed.

Lemma send_all_error b data events w :
  w_send w = SError :: events → send_all (b :: data) w = (-1, with_send events (w_sent w) w).
Proof. intros E. unfold send_all. rewrite E. cbn. by rewrite app_nil_r. Qed.

Lemma send_all_accept n b data events w :
  w_send w = SAccept n :: events →
  send_all (b :: data) w = send_all (zdrop n (b :: data)) (with_send events (w_sent w ++ ztake n (b :: data)) w).
Proof.
  intros E. unfold send_all. rewrite E. cbn [send_all_loop w_send w_sent with_send].
  destruct (send_all_loop events (zdrop n (b :: data))) as [[rc ev] out]. unfold with_send. cbn.
  by rewrite app_assoc.
Qed.

(** A frame whose next call is known goes on behind it. *)
Lemma frame_rc_step data next w data' w' :
  send_all data w = send_all data' w' → frame_rc data next w = frame_rc data' next w'.
Proof. intros E. unfold frame_rc, ws_send_raw. mrun. by rewrite E. Qed.

(** Behind the header comes the payload. *)
Lemma frame_rc_header payload w :
  frame_rc [] (Some payload) w = if 0 <? zlen payload then frame_rc payload None w else (0, w).
Proof.
  unfold frame_rc, ws_send_raw. mrun. rewrite send_all_nil. cbn [fst snd]. simpl (0 =? 0). mrun.
  destruct (0 <? zlen payload); [|done]. mrun. destruct (send_all payload w) as [rc w1]. mrun.
  destruct (rc =? 0) eqn:E; mrun; [|done]. done.
Qed.

Lemma frame_rc_done w : frame_rc [] None w = (0, w).
Proof. unfold frame_rc, ws_send_raw. mrun. by rewrite send_all_nil. Qed.

(** A step of the holder leaves less to do, and the same result. *)
Lemma micro_complete s pc sh w pc' sh' w' :
  micro s pc sh w = Some (pc', sh', w') → complete s pc' sh' w' = complete s pc sh w.
Proof.
  destruct pc as [| |data next|rc|rc]; cbn [micro]; [done| | | |done].
  - intros [= E <-]. change (complete s PEnter sh w) with (atomic s sh w). by rewrite <- complete_enter, E.
  - destruct data as [|b data]; [destruct next as [payload|]|destruct (w_send w) as [|[n| |] events] eqn:E];
      intros [= <- <- <-]; cbn [complete]; mrun.
    + rewrite frame_rc_header. by destruct (0 <? zlen payload).
    + by rewrite frame_rc_done.
    + assert (send_all (b :: data) w = send_all [] (with_send [] (w_sent w ++ b :: data) w)) as Hq
        by (rewrite send_all_nil; by apply send_all_quiet).
      by rewrite (frame_rc_step _ next _ _ _ Hq).
    + by rewrite <- (frame_rc_step (b :: data) next w _ _ (send_all_accept n b data events w E)).
    + by rewrite <- (frame_rc_step (b :: data) next w _ _ (send_all_intr b data events w E)).
    + unfold frame_rc, ws_send_raw. mrun. by rewrite (send_all_error b data events w E).
  - intros [= <- <- <-]. done.
Qed.

(** ** Interleavings *)

(** The sections of a log, run one after the other with the results it gives. *)
Inductive ran (sh0 : Shared) (w0 : World) : list (nat * CriticalSection * Z) → Shared → World → Prop :=
  | ran_nil : ran sh0 w0 [] sh0 w0
  | ran_snoc log sh w t s rc sh' w' :
      ran sh0 w0 log sh w → atomic s sh w = (rc, sh', w') → ran sh0 w0 (log ++ [(t, s, rc)]) sh' w'.

Definition waits (x : CriticalSection * Pc) : Prop := x.2 = PWait.

(** Between two sections the state is that of the log; within one, its holder is on the way
    there and the others wait. *)
Definition between (sh0 : Shared) (w0 : World) (y : System) : Prop :=
  ∃ sh w, ran sh0 w0 (sy_log y) sh w ∧
  match sy_lock y with
  | None => sy_shared y = sh ∧ sy_world y = w ∧ map_Forall (λ _, waits) (sy_threads y)
  | Some t =>
      ∃ s pc, sy_threads y !! t = Some (s, pc) ∧ pc ≠ PWait ∧
        complete s pc (sy_shared y) (sy_world y) = atomic s sh w ∧
        map_Forall (λ t' x, t' ≠ t → waits x) (sy_threads y)
  end.

Lemma between_start sh w : between sh w (start sh w).
Proof. exists sh, w. split; [constructor|]. split_and!; [done|done|]. apply map_Forall_empty. Qed.

Lemma micro_not_wait s pc sh w r : micro s pc sh w = Some r → pc ≠ PWait ∧ r.1.1 ≠ PWait.
Proof.
  destruct pc as [| |[|b data] [payload|]|rc|rc]; cbn [micro]; intros H; try done; split; try done.
  all: repeat (case_match; try done); injection H as <-; cbn [fst snd]; try done.
  by destruct s, sh as [? [] ? ?].
Qed.

(** In every state, only the holder of the lock is past the wait. *)
Lemma between_holder sh0 w0 y t s pc :
  between sh0 w0 y → sy_threads y !! t = Some (s, pc) → pc ≠ PWait → sy_lock y = Some t.
Proof.
  intros (sh & w & _ & Hy) Ht Hpc. destruct (sy_lock y) as [h|].
  - destruct Hy as (s' & pc' & _ & _ & _ & Ho). destruct (decide (t = h)) as [->|Hne]; [done|].
    by destruct Hpc; apply (Ho t _ Ht).
  - destruct Hy as (_ & _ & Ho). by destruct Hpc; apply (Ho t _ Ht).
Qed.

Lemma between_call sh0 w0 y t s :
  between sh0 w0 y → sy_threads y !! t = None →
  between sh0 w0 {| sy_shared := sy_shared y; sy_world := sy_world y; sy_lock := sy_lock y;
                    sy_threads := <[t := (s, PWait)]> (sy_threads y); sy_log := sy_log y |}.
Proof.
  intros (sh & w & Hran & Hy) Et. exists sh, w. split; [done|]. simpl. destruct (sy_lock y) as [h|].
  - destruct Hy as (s' & pc & Hh & Hpc & Hc & Ho). exists s', pc.
    split_and!; [|done|done|by apply map_Forall_insert_2].
    rewrite lookup_insert_ne; [done|]. intros ->. congruence.
  - destruct Hy as (-> & -> & Ho). split_and!; [done|done|by apply map_Forall_insert_2].
Qed.

Lemma between_lock sh0 w0 y t s :
  between sh0 w0 y → sy_lock y = None →
  between sh0 w0 {| sy_shared := sy_shared y; sy_world := sy_world y; sy_lock := Some t;
                    sy_threads := <[t := (s, PEnter)]> (sy_threads y); sy_log := sy_log y |}.
Proof.
  intros (sh & w & Hran & Hy) El. rewrite El in Hy. destruct Hy as (Hs & Hw & Ho).
  exists sh, w. split; [done|]. simpl. exists s, PEnter. rewrite lookup_insert_eq, Hs, Hw.
  split_and!; [done|done|done|]. apply map_Forall_insert_2; [done|].
  intros t' x Hx _. by eapply Ho.
Qed.

Lemma between_work sh0 w0 y t s pc pc' sh' w' :
  between sh0 w0 y → sy_threads y !! t = Some (s, pc) →
  micro s pc (sy_shared y) (sy_world y) = Some (pc', sh', w') →
  between sh0 w0 {| sy_shared := sh'; sy_world := w'; sy_lock := sy_lock y;
                    sy_threads := <[t := (s, pc')]> (sy_threads y); sy_log := sy_log y |}.
Proof.
  intros Hb Et Em. destruct (micro_not_wait _ _ _ _ _ Em) as [Hpc Hpc'].
  pose proof (between_holder _ _ _ _ _ _ Hb Et Hpc) as El. destruct Hb as (sh & w & Hran & Hy).
  exists sh, w. split; [done|]. simpl. rewrite El in *. destruct Hy as (s' & pc0 & Hh & _ & Hc & Ho).
  rewrite Et in Hh. injection Hh as <- <-. exists s, pc'. rewrite lookup_insert_eq.
  split_and!; [done|done|by rewrite (micro_complete _ _ _ _ _ _ _ Em)|by apply map_Forall_insert_2].
Qed.

Lemma between_unlock sh0 w0 y t s rc :
  between sh0 w0 y → sy_threads y !! t = Some (s, PFinish rc) →
  between sh0 w0 {| sy_shared := before_unlock s (sy_shared y); sy_world := sy_world y; sy_lock := None;
                    sy_threads := base.delete t (sy_threads y); sy_log := sy_log y ++ [(t, s, rc)] |}.
Proof.
  intros Hb Et. pose proof (between_holder _ _ _ _ _ _ Hb Et ltac:(done)) as El.
  destruct Hb as (sh & w & Hran & Hy). rewrite El in Hy. destruct Hy as (s' & pc0 & Hh & _ & Hc & Ho).
  rewrite Et in Hh. injection Hh as <- <-. exists (before_unlock s (sy_shared y)), (sy_world y).
  simpl. split_and!; [|done|done|].
  - eapply ran_snoc; [done|]. by rewrite <- Hc.
  - intros t' x Hx. apply lookup_delete_Some in Hx as [Hne Hx]. by apply (Ho t').
Qed.

Lemma between_step sh0 w0 y y' : between sh0 w0 y → thread_step y y' → between sh0 w0 y'.
Proof.
  intros Hb [[t s|t|t|t] He]; simpl in He.
  - destruct (sy_threads y !! t) eqn:Et; [done|]. injection He as <-. by apply between_call.
  - destruct (sy_lock y) eqn:El; [done|].
    destruct (sy_threads y !! t) as [[s []]|]; try done. injection He as <-. by apply between_lock.
  - destruct (sy_threads y !! t) as [[s pc]|] eqn:Et; [|done].
    destruct (micro s pc (sy_shared y) (sy_world y)) as [[[pc' sh'] w']|] eqn:Em; [|done].
    injection He as <-. by eapply between_work.
  - destruct (sy_threads y !! t) as [[s [| | | |rc]]|] eqn:Et; try done. injection He as <-. by apply between_unlock.
Qed.

Lemma between_reachable sh0 w0 y : rtc thread_step (start sh0 w0) y → between sh0 w0 y.
Proof.
  intros H. pose proof (between_start sh0 w0) as Hb. remember (start sh0 w0) as x eqn:E. clear E.
  induction H as [x|x y z Hst _ IH]; [done|]. by eapply IH, between_step.
Qed.

(** ** The bytes of the socket *)

Definition frames_of (s : CriticalSection) : bytes :=
  match s with
  | SecSend opcode payload => frame_text opcode payload
  | SecClose code reason => frame_text WS_OP_CLOSE (close_payload code reason)
  | _ => []
  end.

(** The frames of the sections that returned 0. *)
Definition frames_sent (log : list (nat * CriticalSection * Z)) : bytes :=
  concat (map (λ x, if x.2 =? 0 then frames_of x.1.2 else []) log).

Lemma frame_rc_spec data payload w :
  let r := frame_rc data (Some payload) w in
  (r.1 = 0 ∧ w_sent r.2 = w_sent w ++ data ++ payload) ∨
  (r.1 = -1 ∧ ∃ part, part `prefix_of` data ++ payload ∧ w_sent r.2 = w_sent w ++ part).
Proof.
  cbv zeta. unfold frame_rc, ws_send_raw. mrun. pose proof (send_all_spec data w) as H1.
  destruct (send_all data w) as [rc w1]. destruct H1 as (_ & _ & [[-> H1]|(-> & out & rest & -> & H1)]); cbn [fst snd].
  - simpl (0 =? 0). mrun. destruct (0 <? zlen payload) eqn:E; mrun; breflect.
    + pose proof (send_all_spec payload w1) as H2.
      destruct (send_all payload w1) as [rc w2]. destruct H2 as (_ & _ & [[-> H2]|(-> & out & rest & -> & H2)]); mrun.
      * left. split; [done|]. by rewrite H2, H1, <- app_assoc.
      * right. split; [done|]. exists (data ++ out). split; [|by rewrite H2, H1, <- app_assoc].
        exists rest. by rewrite <- !app_assoc.
    + left. split; [done|]. pose proof (zlen_nonneg payload).
      rewrite (zlen_nil_inv payload) by lia. by rewrite app_nil_r.
  - right. split; [done|]. exists out. split; [|done]. exists (rest ++ payload). by rewrite <- app_assoc.
Qed.

Lemma settle_rc s sh rc : (settle s sh rc).1 = rc.
Proof. done. Qed.

Lemma settle_dead s sh rc : sh_dead (settle s sh rc).2 = sh_dead sh.
Proof. unfold settle, before_unlock, after_frame. by destruct s; try case_match. Qed.

(** On a dead session nothing is sent, and it stays dead. *)
Lemma atomic_dead s sh w :
  let r := atomic s sh w in
  sh_dead sh = true → w_sent r.2 = w_sent w ∧ sh_dead r.1.2 = true ∧ (r.1.1 = 0 → frames_of s = []).
Proof. cbv zeta. rewrite <- complete_enter. intros H. destruct s; cbn [enter fst snd]; rewrite ?H; by split_and!. Qed.

(** Otherwise the frame is sent, or a part of it and the session is dead. *)
Lemma atomic_alive s sh w :
  let r := atomic s sh w in
  sh_dead sh = false →
  ∃ part, w_sent r.2 = w_sent w ++ (if r.1.1 =? 0 then frames_of s else []) ++ part ∧
    (part = [] ∨ (r.1.1 = -1 ∧ sh_dead r.1.2 = true ∧ part `prefix_of` frames_of s)).
Proof.
  cbv zeta. rewrite <- complete_enter. intros H.
  assert (∀ op payload, frames_of s = frame_text op payload →
    let r := complete s (PRaw (frame_header op (zlen payload)) (Some payload)) sh w in
    ∃ part, w_sent r.2 = w_sent w ++ (if r.1.1 =? 0 then frames_of s else []) ++ part ∧
      (part = [] ∨ (r.1.1 = -1 ∧ sh_dead r.1.2 = true ∧ part `prefix_of` frames_of s))) as Hframe.
  { intros op payload Hf. cbn [complete]. mrun.
    pose proof (frame_rc_spec (frame_header op (zlen payload)) payload w) as Hr. cbv zeta in Hr.
    destruct (frame_rc _ _ w) as [rc w']. cbn [fst snd] in *. rewrite settle_rc, settle_dead, Hf.
    destruct Hr as [[-> ->]|(-> & part & Hp & ->)].
    - exists []. split; [by rewrite app_nil_r|by left].
    - exists part. split; [done|]. by right. }
  destruct s as [op payload|code reason|code io| | |]; cbn [enter fst snd]; rewrite ?H.
  1-2: by apply Hframe.
  all: exists []; split; [|by left]; cbn [complete]; mrun; cbn [fst snd frames_of].
  all: by case_if; rewrite ?app_nil_r.
Qed.

Lemma frames_sent_snoc log t s rc :
  frames_sent (log ++ [(t, s, rc)]) = frames_sent log ++ (if rc =? 0 then frames_of s else []).
Proof. unfold frames_sent. rewrite map_app, concat_app. simpl. by rewrite app_nil_r. Qed.

Lemma ran_wire sh0 w0 log sh w :
  ran sh0 w0 log sh w →
  ∃ part, w_sent w = w_sent w0 ++ frames_sent log ++ part ∧
    (part = [] ∨ (sh_dead sh = true ∧ ∃ t s, (t, s, -1) ∈ log ∧ part `prefix_of` frames_of s)).
Proof.
  induction 1 as [|log sh w t s rc sh' w' _ (part & Hw & Hp) Ha].
  - exists []. rewrite app_nil_r. split; [done|by left].
  - rewrite frames_sent_snoc. destruct (sh_dead sh) eqn:Hd.
    + destruct (atomic_dead s sh w Hd) as (H1 & H2 & H3). rewrite Ha in H1, H2, H3. cbn [fst snd] in *.
      assert ((if rc =? 0 then frames_of s else []) = []) as ->.
      { destruct (rc =? 0) eqn:E; [|done]. breflect. auto. }
      exists part. rewrite app_nil_r. split; [congruence|]. destruct Hp as [?|(_ & t' & s' & Hin & Hpre)]; [by left|].
      right. split; [done|]. exists t', s'. split; [apply elem_of_app; by left|done].
    + destruct Hp as [->|[? _]]; [|done]. destruct (atomic_alive s sh w Hd) as (part & H1 & H2).
      rewrite Ha in H1, H2. cbn [fst snd] in *. exists part. rewrite H1, Hw, !app_nil_r, <- !app_assoc.
      split; [done|]. destruct H2 as [?|(-> & ? & ?)]; [by left|right]. split; [done|]. exists t, s.
      split; [apply elem_of_app; right; by apply list_elem_of_singleton|done].
Qed.

(** ** The lock is given back *)

Definition pc_measure (pc : Pc) : nat :=
  match pc with
  | PWait => 7
  | PEnter => 6
  | PRaw data next => match next with Some _ => 4 | None => 2 end + match data with [] => 0 | _ => 1 end
  | PSent _ => 1
  | PFinish _ => 0
  end.

Lemma enter_measure s sh : (pc_measure (enter s sh).1 ≤ 5)%nat.
Proof.
  assert (∀ data payload, (pc_measure (PRaw data (Some payload)) ≤ 5)%nat) as H.
  { intros data payload. simpl. destruct data; lia. }
  destruct s; cbn [enter fst]; try destruct (sh_dead sh); try apply H; simpl; lia.
Qed.

(** The holder can always go on until it is about to unlock, and comes closer to it. *)
Lemma micro_progress s pc sh w :
  pc ≠ PWait →
  (∃ rc, pc = PFinish rc) ∨
  ∃ pc' sh' w', micro s pc sh w = Some (pc', sh', w') ∧
    (pc_measure pc' + length (w_send w') < pc_measure pc + length (w_send w))%nat.
Proof.
  intros Hpc. destruct pc as [| |data next|rc|rc]; [done| | | |by left; exists rc]; right; cbn [micro].
  - destruct (enter s sh) as [pc' sh'] eqn:E. exists pc', sh', w. split; [done|].
    pose proof (enter_measure s sh) as H. rewrite E in H. simpl in *. lia.
  - destruct data as [|b data]; [destruct next as [payload|]|destruct (w_send w) as [|[n| |] events]];
      do 3 eexists; (split; [reflexivity|]).
    + destruct (0 <? zlen payload); simpl; [destruct payload; lia|lia].
    + simpl. lia.
    + simpl. destruct next; lia.
    + simpl. destruct (zdrop n (b :: data)), next; simpl; lia.
    + simpl. destruct next; lia.
    + simpl. destruct next; lia.
  - do 3 eexists. split; [reflexivity|]. simpl. lia.
Qed.

Lemma holder_finishes k : ∀ y t s pc,
  sy_threads y !! t = Some (s, pc) → pc ≠ PWait →
  (pc_measure pc + length (w_send (sy_world y)) < k)%nat →
  ∃ n y', run_schedule (replicate n (EWork t) ++ [EUnlock t]) y = Some y' ∧ sy_lock y' = None.
Proof.
  induction k as [|k IH]; intros y t s pc Ht Hpc Hk; [lia|].
  destruct (micro_progress s pc (sy_shared y) (sy_world y) Hpc) as [[rc ->]|(pc' & sh' & w' & Hm & Hlt)].
  - exists 0%nat. simpl. rewrite Ht. simpl. by eexists.
  - destruct (IH {| sy_shared := sh'; sy_world := w'; sy_lock := sy_lock y;
                    sy_threads := <[t := (s, pc')]> (sy_threads y); sy_log := sy_log y |} t s pc')
      as (n & y' & Hr & Hl).
    + simpl. apply lookup_insert_eq.
    + by apply (micro_not_wait _ _ _ _ _ Hm).
    + simpl. lia.
    + exists (S n), y'. split; [|done]. simpl. rewrite Ht, Hm. exact Hr.
Qed.

(** C9: threads that share a session get in each other's way as little as the comments
    promise: however their calls interleave at the single [send], once the lock is free
    the session and the socket are as if the critical sections had run one after the
    other, in the order they took the lock, with the results they returned.  The socket
    has got the frames of those that returned 0, whole and in this order, and behind them
    nothing, or a part of one frame and the session is dead.  A thread that holds the lock
    can give it back by its own steps alone. *)
Theorem sessions_serialize sh w y :
  rtc thread_step (start sh w) y →
  (sy_lock y = None →
     ran sh w (sy_log y) (sy_shared y) (sy_world y) ∧
     ∃ part, w_sent (sy_world y) = w_sent w ++ frames_sent (sy_log y) ++ part ∧
       (part = [] ∨ (sh_dead (sy_shared y) = true ∧
          ∃ t s, (t, s, -1) ∈ sy_log y ∧ part `prefix_of` frames_of s))) ∧
  (∀ t, sy_lock y = Some t →
     ∃ n y', run_schedule (replicate n (EWork t) ++ [EUnlock t]) y = Some y' ∧ sy_lock y' = None).
Proof.
  intros Hreach. destruct (between_reachable _ _ _ Hreach) as (sh' & w' & Hran & Hy). split.
  - intros Hl. rewrite Hl in Hy. destruct Hy as (-> & -> & _). split; [done|]. by eapply ran_wire.
  - intros t Hl. rewrite Hl in Hy. destruct Hy as (s & pc & Ht & Hpc & _). eapply holder_finishes; [done|done|apply Nat.lt_succ_diag_r].
Qed.

(** ** Concrete schedules *)

Lemma run_schedule_steps es : ∀ y y', run_schedule es y = Some y' → rtc thread_step y y'.
Proof.
  induction es as [|e es IH]; intros y y'; simpl; [by intros [= <-]|].
  destruct (step_of e y) as [y1|] eqn:E; [|done]. simpl. intros H. eapply rtc_l; [by exists e|by apply IH].
Qed.

Definition alive : Shared := {| sh_close_sent := false; sh_dead := false; sh_io_error := false; sh_close_code := 0 |}.

(** The kernel takes one byte, is interrupted, takes two, and then everything. *)
Definition slow_world : World := with_send [SAccept 1; SIntr; SAccept 2] [] quiet_world.

(** Two threads: the second asks for the lock while the first one is inside its header. *)
Definition two_senders : list Event :=
  [ECall 1 (SecSend WS_OP_TEXT (str "hi")); ELock 1; EWork 1; EWork 1;
   ECall 2 (SecSend WS_OP_TEXT (str "yo")); EWork 1; EWork 1; EWork 1; EWork 1; EWork 1; EWork 1;
   EUnlock 1; ELock 2; EWork 2; EWork 2; EWork 2; EWork 2; EWork 2; EWork 2; EUnlock 2].

Definition after_two : System :=
  default (start alive slow_world) (run_schedule two_senders (start alive slow_world)).

Lemma sessions_serialize_witness :
  rtc thread_step (start alive slow_world) after_two ∧ sy_lock after_two = None ∧
  w_sent (sy_world after_two) = frame_text WS_OP_TEXT (str "hi") ++ frame_text WS_OP_TEXT (str "yo") ∧
  ran alive slow_world (sy_log after_two) (sy_shared after_two) (sy_world after_two).
Proof.
  assert (rtc thread_step (start alive slow_world) after_two) as H.
  { apply (run_schedule_steps two_senders). vm_compute. reflexivity. }
  split; [exact H|]. split; [reflexivity|]. split; [reflexivity|].
  exact (proj1 (proj1 (sessions_serialize alive slow_world after_two H) eq_refl)).
Defined.

(** Only [dead] stops a sender: while the thread that closes waits for the echo, others
    still send messages behind the close frame, and a second close frame. *)
Example data_after_close :
  let y := run_schedule
    ([ECall 1 (SecClose 1000 (Some [])); ELock 1] ++ replicate 6 (EWork 1) ++ [EUnlock 1] ++
     [ECall 2 (SecSend WS_OP_TEXT (str "hi")); ELock 2] ++ replicate 6 (EWork 2) ++ [EUnlock 2] ++
     [ECall 3 (SecClose 1001 (Some [])); ELock 3] ++ replicate 6 (EWork 3) ++ [EUnlock 3]) (start alive quiet_world) in
  (w_sent ∘ sy_world) <$> y = Some (frame_text WS_OP_CLOSE [3; 232] ++ frame_text WS_OP_TEXT (str "hi") ++
                                    frame_text WS_OP_CLOSE [3; 233]).
Proof. reflexivity. Qed.

(** A ping that is too long is refused, and the session lives on. *)
Example long_ping_refused :
  let ws := fresh_session 0 [] in
  let r := result (http_ws_send_ping ws (replicate 126 0)) quiet_world in
  r.1 = -1 ∧ ws_dead r.2 = false.
Proof. split; reflexivity. Qed.
