(* ===== verification/WsDispatch.v ===== *)
(** * The websocket handshake

    Websocket routes and [http_ws_dispatch] of [src/c_http_ws.c]: from the parsed
    request to the 101 response, the handler and the closing handshake; and the
    instance of [WsLayer] they make for the connection loop. *)

From stdpp Require Import relations.
From S2P Require Import Prelude CLib World Types Validate Headers Request Net Segments Response Routing Multipart WsCrypto WsSession WsProtocol WsWire Server.
#[local] Open Scope Z_scope.

Definition HTTP_WS_DEFAULT_MAX_MESSAGE : Z := 4 * 1024 * 1024.

(** ** Routes *)

(** The handler runs the session; its effects on it are those of the session API. *)
Definition HttpWsHandler : Type := HttpWs → HttpRequest → M HttpWs.
Definition HttpWsVerify : Type := HttpRequest → M bool.

Record HttpWsOptions := {
  wo_verify : option HttpWsVerify;
  wo_subprotocols : option (list bytes);
  wo_max_message : Z;
}.

Record HttpWsRoute := {
  wr_path : bytes;
  wr_segments : HttpRouteSegments;
  wr_handler : HttpWsHandler;
  wr_verify : option HttpWsVerify;
  wr_subprotocols : option (list bytes);
  wr_max_message : Z;
}.

(** The fields of the server this layer reads: [ws_routes], and whether
    [thread_state] is set. *)
Record WsServer := { wss_routes : list HttpWsRoute; wss_threads : bool }.

Definition is_separator (c : Z) : bool :=
  has_chr c (str "()<>@,;:" ++ [BACKSLASH; DQUOTE] ++ str "/[]?={}").

Definition ws_valid_subprotocol (name : bytes) : bool :=
  match name with
  | [] => false
  | _ => forallb (λ c, negb ((c <=? 0x20) || (0x7F <=? c)) && negb (is_separator c)) name
  end.

(** A [strdup] per name. *)
Fixpoint strdup_all (names : list bytes) : M bool :=
  match names with
  | [] => mret true
  | _ :: names => ok ← malloc; if negb ok then mret false else strdup_all names
  end.

(** [None]: [bad_options]. *)
Definition ws_apply_options (route : HttpWsRoute) (options : option HttpWsOptions)
  : M (option HttpWsRoute) :=
  match options with
  | None => mret (Some route)
  | Some o =>
      let max_message := if 0 <? wo_max_message o then wo_max_message o else wr_max_message route in
      let with_names names :=
        {| wr_path := wr_path route; wr_segments := wr_segments route; wr_handler := wr_handler route;
           wr_verify := wo_verify o; wr_subprotocols := names; wr_max_message := max_message |} in
      match wo_subprotocols o with
      | None => mret (Some (with_names (wr_subprotocols route)))
      | Some names =>
          if negb (forallb ws_valid_subprotocol names) then mret None
          else
            owned ← malloc;
            if negb owned then mret None
            else
              ok ← strdup_all names;
              mret (if ok : bool then Some (with_names (Some names)) else None)
      end
  end.

Definition ws_add_route (routes : list HttpWsRoute) (path : option bytes)
    (handler : option HttpWsHandler) (options : option HttpWsOptions)
  : M (HttpRouteAddResult * list HttpWsRoute) :=
  match path, handler with
  | Some path, Some handler =>
      if negb (deref path =? "/"%ch) || (HTTP_PATH_MAX <=? zlen path) || strchr_found path "?"%ch
      then mret (HTTP_ROUTE_ADD_ERROR, routes)
      else
        parsed ← http_parse_route_segments path;
        match parsed with
        | None => mret (HTTP_ROUTE_ADD_ERROR, routes)
        | Some segments =>
            if negb (validate_params [] (segs segments) 0) then mret (HTTP_ROUTE_ADD_ERROR, routes)
            else if existsb (λ r, streq (wr_path r) path) routes then
              mret (HTTP_ROUTE_ADD_CONFLICT, routes)
            else
              block ← malloc;
              if negb block then mret (HTTP_ROUTE_ADD_ERROR, routes)
              else
                owned_path ← malloc;
                if negb owned_path then mret (HTTP_ROUTE_ADD_ERROR, routes)
                else
                  route ← ws_apply_options
                    {| wr_path := path; wr_segments := segments; wr_handler := handler;
                       wr_verify := None; wr_subprotocols := None;
                       wr_max_message := HTTP_WS_DEFAULT_MAX_MESSAGE |} options;
                  match route with
                  | None => mret (HTTP_ROUTE_ADD_ERROR, routes)
                  | Some route => mret (HTTP_ROUTE_ADD_OK, routes ++ [route])
                  end
        end
  | _, _ => mret (HTTP_ROUTE_ADD_ERROR, routes)
  end.

Definition http_ws (routes : list HttpWsRoute) (path : option bytes) (handler : option HttpWsHandler)
  : M (HttpRouteAddResult * list HttpWsRoute) := ws_add_route routes path handler None.

Definition http_ws_options (routes : list HttpWsRoute) (path : option bytes)
    (handler : option HttpWsHandler) (options : option HttpWsOptions)
  : M (HttpRouteAddResult * list HttpWsRoute) := ws_add_route routes path handler options.

Definition http_ws_routes_free (routes : list HttpWsRoute) : list HttpWsRoute := [].

(** ** The header lists of the handshake *)

(** A round per element; the fuel is the length of the text. *)
Fixpoint ws_token_loop (fuel : nat) (p token : bytes) : bool :=
  match fuel, p with
  | O, _ | _, [] => false
  | S fuel, _ =>
      let '(start, p) := span not_comma (skip_while is_ows_or_comma p) in
      let start := rtrim is_ows start in
      if (zlen start =? zlen token) && starts_with_ci token start then true
      else ws_token_loop fuel p token
  end.

Definition ws_header_has_token (value token : bytes) : bool :=
  ws_token_loop (length value) value token.

(** [strlen(name) == len && strncmp(name, start, len) == 0] *)
Definition same_name (start name : bytes) : bool :=
  (zlen name =? zlen start) && streq (ztake (zlen start) name) start.

Fixpoint ws_pick_loop (fuel : nat) (p : bytes) (subprotocols : list bytes) : option bytes :=
  match fuel, p with
  | O, _ | _, [] => None
  | S fuel, _ =>
      let '(start, p) := span not_comma (skip_while is_ows_or_comma p) in
      let start := rtrim is_ows start in
      if zlen start =? 0 then ws_pick_loop fuel p subprotocols
      else
        match List.find (same_name start) subprotocols with
        | Some name => Some name
        | None => ws_pick_loop fuel p subprotocols
        end
  end.

Definition ws_pick_subprotocol (subprotocols : list bytes) (offered : bytes) : option bytes :=
  ws_pick_loop (length offered) offered subprotocols.

(** ** Answers *)

Definition ws_error_text (status : Z) (text message extra_headers : bytes) : bytes :=
  str "HTTP/1.1 " ++ fmt_d status ++ [SP] ++ text ++ CRLF
  ++ str "Content-Type: text/plain" ++ CRLF
  ++ str "Content-Length: " ++ fmt_u (zlen message) ++ CRLF
  ++ str "Connection: close" ++ CRLF
  ++ extra_headers ++ CRLF ++ message.

(** A text that does not fit the buffer is dropped. *)
Definition ws_send_error_response (status : Z) (text message extra_headers : bytes) : M unit :=
  let buf := ws_error_text status text message extra_headers in
  if 512 <=? zlen buf then mret tt else _ ← ws_send_raw buf; mret tt.

Definition ws_response (accept : bytes) : bytes :=
  str "HTTP/1.1 101 Switching Protocols" ++ CRLF ++ str "Upgrade: websocket" ++ CRLF
  ++ str "Connection: Upgrade" ++ CRLF ++ str "Sec-WebSocket-Accept: " ++ accept ++ CRLF.

(** The line of the chosen subprotocol; [None]: it does not fit behind [n] bytes. *)
Definition ws_protocol_line (route : HttpWsRoute) (req : HttpRequest) (n : Z) : option bytes :=
  match wr_subprotocols route with
  | None => Some []
  | Some names =>
      match http_req_header req (Some (str "Sec-WebSocket-Protocol")) with
      | None => Some []
      | Some offered =>
          match ws_pick_subprotocol names offered with
          | None => Some []
          | Some pick =>
              let line := str "Sec-WebSocket-Protocol: " ++ pick ++ CRLF in
              if 512 - n <=? zlen line then None else Some line
          end
      end
  end.

(** ** Dispatch *)

(** The handler returned: the closing handshake it left out. *)
Definition ws_finish_session (ws : HttpWs) : M HttpWs :=
  if ws_dead ws then mret ws
  else
    '(_, ws) ← ws_send_close ws 1000 (Some []);
    ws_drain_close_echo ws.

(** The session of an upgraded connection. *)
Definition ws_run_session (route : HttpWsRoute) (req : HttpRequest) (leftover : bytes)
  : M HttpWsDispatchResult :=
  session ← ws_session_create (wr_max_message route) leftover;
  match session with
  | None => mret WS_DISPATCH_REJECTED
  | Some ws =>
      ws ← wr_handler route ws req;
      _ ← ws_finish_session ws;
      mret WS_DISPATCH_UPGRADED
  end.

(** The request passed every check: the 101 response, then the session. *)
Definition ws_accept (route : HttpWsRoute) (req : HttpRequest) (key leftover : bytes)
  : M HttpWsDispatchResult :=
  match ws_accept_key key 32 with
  | None => mret WS_DISPATCH_REJECTED
  | Some accept =>
      let response := ws_response accept in
      if 512 <=? zlen response then mret WS_DISPATCH_REJECTED
      else
        match ws_protocol_line route req (zlen response) with
        | None => mret WS_DISPATCH_REJECTED
        | Some line =>
            let response := response ++ line in
            if 512 <? zlen response + 2 then mret WS_DISPATCH_REJECTED
            else
              rc ← ws_send_raw response;
              if negb (rc =? 0) then mret WS_DISPATCH_REJECTED
              else
                rc ← ws_send_raw CRLF;
                if negb (rc =? 0) then mret WS_DISPATCH_REJECTED
                else ws_run_session route req leftover
        end
  end.

(** The base64 text of 16 octets. *)
Definition ws_key_valid (key : bytes) : bool :=
  (zlen key =? 24) && match base64_decode key 24 with Some k => zlen k =? 16 | None => false end.

(** The checks of the handshake, in their order. *)
Definition ws_handshake (threads : bool) (route : HttpWsRoute) (req : HttpRequest) (leftover : bytes)
  : M HttpWsDispatchResult :=
  let reject status text message extra :=
    ws_send_error_response status text message extra;; mret WS_DISPATCH_REJECTED in
  if 0 <? req_body_len req then
    reject 400 (str "Bad Request") (str "websocket handshake must not have a body" ++ [LF]) []
  else if negb threads then
    reject 503 (str "Service Unavailable")
      (str "websockets require ServerArgs.worker_threads > 0" ++ [LF]) []
  else
    match http_req_header req (Some (str "Sec-WebSocket-Key")) with
    | None => reject 400 (str "Bad Request") (str "invalid Sec-WebSocket-Key" ++ [LF]) []
    | Some key =>
        if negb (ws_key_valid key) then
          reject 400 (str "Bad Request") (str "invalid Sec-WebSocket-Key" ++ [LF]) []
        else if negb (streq (default [] (http_req_header req (Some (str "Sec-WebSocket-Version"))))
                        (str "13")) then
          reject 426 (str "Upgrade Required")
            (str "unsupported websocket version (this server speaks version 13)" ++ [LF])
            (str "Sec-WebSocket-Version: 13" ++ CRLF)
        else
          verified ← (match wr_verify route with Some verify => verify req | None => mret true end);
          if negb verified then
            reject 403 (str "Forbidden") (str "websocket upgrade rejected" ++ [LF]) []
          else ws_accept route req key leftover
    end.

(** [GET] with [Connection: upgrade] and [Upgrade: websocket]. *)
Definition ws_is_upgrade (req : HttpRequest) : bool :=
  streq (req_method req) (str "GET") &&
  match http_req_header req (Some (str "Connection")), http_req_header req (Some (str "Upgrade")) with
  | Some conn, Some upgrade =>
      ws_header_has_token conn (str "upgrade") && ws_header_has_token upgrade (str "websocket")
  | _, _ => false
  end.

Definition ws_find_route (routes : list HttpWsRoute) (req_segments : HttpRouteSegments)
  : option HttpWsRoute :=
  List.find (λ r, (http_segments_match (wr_segments r) req_segments None).1) routes.

(** The request with the parameters of its path. *)
Definition ws_bind (route : HttpWsRoute) (req_segments : HttpRouteSegments) (req : HttpRequest)
  : HttpRequest :=
  set_req_params (default (req_params req)
    (http_segments_match (wr_segments route) req_segments (Some (req_params req))).2) req.

Definition ws_dispatch (server : WsServer) (req : HttpRequest) (req_segments : HttpRouteSegments)
    (leftover : bytes) : M HttpWsDispatchResult :=
  match wss_routes server with
  | [] => mret WS_DISPATCH_NOT_WS
  | routes =>
      if negb (ws_is_upgrade req) then mret WS_DISPATCH_NOT_WS
      else
        match ws_find_route routes req_segments with
        | None => mret WS_DISPATCH_NOT_WS
        | Some route => ws_handshake (wss_threads server) route (ws_bind route req_segments req) leftover
        end
  end.

(** ** The lists of the handshake *)

(** The scan is the one of [header_contains_token]. *)
Lemma ws_header_has_token_spec value token :
  token ≠ [] →
  ws_header_has_token value token = existsb (λ e, strcaseeq e token) (list_elements value).
Proof.
  intros Ht. transitivity (header_contains_token value token); [done|].
  by apply header_contains_token_spec.
Qed.

Lemma same_name_spec start name : same_name start name = bool_decide (name = start).
Proof.
  unfold same_name. case_bool_decide as H; [subst; by rewrite Z.eqb_refl, ztake_all, streq_refl by lia|].
  destruct (Z.eqb_spec (zlen name) (zlen start)) as [E|E]; [|done].
  rewrite <- E, ztake_all by lia. by apply streq_false.
Qed.

Lemma find_same_name start names :
  List.find (same_name start) names = if bool_decide (start ∈ names) then Some start else None.
Proof.
  induction names as [|n names IH]; [done|]. simpl. rewrite same_name_spec, IH.
  repeat case_bool_decide; rewrite elem_of_cons in *; intuition congruence.
Qed.

Lemma ws_pick_loop_spec fuel p names :
  (length p ≤ fuel)%nat →
  ws_pick_loop fuel p names = List.find (λ e, bool_decide (e ∈ names)) (list_tokens p).
Proof.
  revert p. induction fuel as [|fuel IH]; intros p Hl.
  { destruct p; [done|simpl in Hl; lia]. }
  destruct p as [|c0 p0] eqn:Ep; [done|]. rewrite <- Ep in *.
  assert (ws_pick_loop (S fuel) p names =
    let '(start, p) := span not_comma (skip_while is_ows_or_comma p) in
    let start := rtrim is_ows start in
    if zlen start =? 0 then ws_pick_loop fuel p names
    else match List.find (same_name start) names with
         | Some name => Some name | None => ws_pick_loop fuel p names end) as -> by by rewrite Ep.
  rewrite <- list_tokens_skip_while. pose proof (skip_while_stop is_ows_or_comma p) as Hq.
  destruct (span not_comma (skip_while is_ows_or_comma p)) as [a b] eqn:Es.
  assert (p ≠ []) as Hp by by rewrite Ep. pose proof (skip_span_shorter p a b Es Hp) as Hlt.
  rewrite (list_tokens_step _ _ _ Es Hq). cbv zeta.
  destruct (rtrim is_ows a) as [|c e] eqn:Er; [apply IH; lia|].
  rewrite find_same_name. cbn [List.find]. case_bool_decide; [done|]. apply IH. lia.
Qed.

Lemma ws_pick_subprotocol_spec names offered :
  ws_pick_subprotocol names offered = List.find (λ e, bool_decide (e ∈ names)) (list_tokens offered).
Proof. by apply ws_pick_loop_spec. Qed.

(** ** Registration *)

(** What the table of websocket routes holds. *)
Record ws_route_ok (r : HttpWsRoute) : Prop := {
  wro_slash : deref (wr_path r) = "/"%ch;
  wro_path : zlen (wr_path r) < HTTP_PATH_MAX;
  wro_query : ¬ ("?"%ch ∈ wr_path r);
  wro_segments : route_segments (wr_path r) = Some (segs (wr_segments r));
  wro_pattern : pattern_ok (segs (wr_segments r));
  wro_names : Forall (λ n, ws_valid_subprotocol n = true) (default [] (wr_subprotocols r));
  wro_max : 0 < wr_max_message r;
}.

Record ws_routes_ok (routes : list HttpWsRoute) : Prop := {
  wrs_routes : Forall ws_route_ok routes;
  wrs_paths : NoDup (map wr_path routes);
}.

(** The options of a route that was added. *)
Definition has_options (r : HttpWsRoute) (options : option HttpWsOptions) : Prop :=
  wr_verify r = (options ≫= wo_verify) ∧ wr_subprotocols r = (options ≫= wo_subprotocols) ∧
  wr_max_message r =
    match options with
    | Some o => if 0 <? wo_max_message o then wo_max_message o else HTTP_WS_DEFAULT_MAX_MESSAGE
    | None => HTTP_WS_DEFAULT_MAX_MESSAGE
    end.

Lemma ws_apply_options_spec route options :
  wr_verify route = None → wr_subprotocols route = None →
  wr_max_message route = HTTP_WS_DEFAULT_MAX_MESSAGE →
  returns (ws_apply_options route options) (λ r, match r with
    | None => True
    | Some r => wr_path r = wr_path route ∧ wr_segments r = wr_segments route ∧
        wr_handler r = wr_handler route ∧ has_options r options ∧
        Forall (λ n, ws_valid_subprotocol n = true) (default [] (wr_subprotocols r))
    end).
Proof.
  intros Hv Hs Hm. unfold ws_apply_options. destruct options as [o|].
  2: { apply returns_ret. rewrite Hs. unfold has_options. rewrite Hv, Hs, Hm. by split_and!; try constructor. }
  destruct (wo_subprotocols o) as [names|] eqn:En.
  - case_if; [by apply returns_ret|]. apply returns_any. intros owned. case_if; [by apply returns_ret|].
    apply returns_any. intros []; apply returns_ret; [|done]. simpl. split_and!; try done.
    + unfold has_options. simpl. by rewrite En, Hm.
    + breflect. by apply List.Forall_forall, forallb_forall.
  - apply returns_ret. simpl. rewrite Hs. unfold has_options. simpl. rewrite En, Hm. by split_and!; try constructor.
Qed.

Lemma ws_add_route_run routes path handler options :
  ws_routes_ok routes →
  returns (ws_add_route routes path handler options) (λ '(rc, routes'),
    ws_routes_ok routes' ∧
    match rc with
    | HTTP_ROUTE_ADD_OK => ∃ p h r, path = Some p ∧ handler = Some h ∧ routes' = routes ++ [r] ∧
        wr_path r = p ∧ wr_handler r = h ∧ has_options r options
    | HTTP_ROUTE_ADD_CONFLICT => routes' = routes ∧ ∃ p, path = Some p ∧ p ∈ map wr_path routes
    | HTTP_ROUTE_ADD_ERROR => routes' = routes
    end).
Proof.
  intros Hok. unfold ws_add_route.
  destruct path as [p|], handler as [h|]; try by apply returns_ret.
  case_if; [by apply returns_ret|]. breflect.
  match goal with H : strchr_found _ _ = false |- _ => rename H into Hq end.
  apply returns_bind with (λ o, match o with
    | Some s => route_segments p = Some (segs s) | None => True end).
  { intros w. pose proof (http_parse_route_segments_spec p w) as Hp.
    by destruct (result (http_parse_route_segments p) w). }
  intros [segments|] Hseg; [|by apply returns_ret].
  case_if; [by apply returns_ret|]. breflect.
  destruct (existsb (λ r, streq (wr_path r) p) routes) eqn:Ex.
  { apply returns_ret. split; [done|]. split; [done|]. exists p. split; [done|].
    apply existsb_exists in Ex as (r & Hin & Hr). apply list_elem_of_fmap. exists r.
    split; [symmetry; by apply streq_true|by apply list_elem_of_In]. }
  apply returns_any. intros block. case_if; [by apply returns_ret|].
  apply returns_any. intros owned. case_if; [by apply returns_ret|].
  eapply returns_bind; [by apply ws_apply_options_spec|]. cbn [wr_path wr_segments wr_handler].
  intros [r|]; [|intros _; by apply returns_ret]. intros (Hp & Hs & Hh & Ho & Hn).
  apply returns_ret. split; [|by exists p, h, r]. destruct Hok as [Hf Hd]. split.
  - apply Forall_app. split; [done|]. constructor; [|constructor]. split; rewrite ?Hp, ?Hs; try done.
    + unfold strchr_found in Hq. breflect. by apply has_chr_false.
    + by eapply validate_params_pattern_ok.
    + destruct Ho as (_ & _ & ->). destruct options; [case_if; breflect; [lia|done]|done].
  - rewrite map_app. apply NoDup_app. split; [done|]. split; [|apply NoDup_singleton].
    intros k Hk Hk'. apply list_elem_of_singleton in Hk'. subst k. cbn in Hk. rewrite Hp in Hk.
    apply list_elem_of_fmap in Hk as (r' & Hr & Hin).
    assert (existsb (λ r, streq (wr_path r) p) routes = true); [|congruence].
    apply existsb_exists. exists r'. split; [by apply list_elem_of_In|]. rewrite <- Hr. apply streq_refl.
Qed.

(** What a path and its options must satisfy. *)
Definition ws_registrable (path : bytes) (options : option HttpWsOptions) : Prop :=
  deref path = "/"%ch ∧ zlen path < HTTP_PATH_MAX ∧ ¬ ("?"%ch ∈ path) ∧
  (∃ l, route_segments path = Some l ∧ pattern_ok l) ∧
  Forall (λ n, ws_valid_subprotocol n = true) (default [] (options ≫= wo_subprotocols)).

Lemma strdup_all_alloc names w : w_alloc w = [] → strdup_all names w = (true, w).
Proof.
  intros Hw. induction names as [|n names IH]; [done|]. cbn [strdup_all]. by mrun_ok Hw.
Qed.

Lemma ws_apply_options_alloc route options w :
  w_alloc w = [] → Forall (λ n, ws_valid_subprotocol n = true) (default [] (options ≫= wo_subprotocols)) →
  ∃ r, ws_apply_options route options w = (Some r, w).
Proof.
  intros Hw Hn. unfold ws_apply_options. destruct options as [o|]; [|by eexists].
  simpl in Hn. destruct (wo_subprotocols o) as [names|]; [|by eexists]. simpl in Hn.
  assert (forallb ws_valid_subprotocol names = true) as -> by by apply forallb_forall, List.Forall_forall.
  cbn [negb]. mrun_ok Hw. rewrite strdup_all_alloc by done. by eexists.
Qed.

Lemma parse_segments_alloc path l w :
  w_alloc w = [] → route_segments path = Some l →
  ∃ sg, http_parse_route_segments path w = (Some sg, w) ∧ segs sg = l.
Proof.
  intros Hw Hl. destruct (only_allocates_parse_segments path w) as [_ Hsame]. specialize (Hsame Hw).
  pose proof (http_parse_route_segments_spec path w) as Hp. unfold world, result in *.
  destruct (http_parse_route_segments path w) as [[sg|] w1]; cbn [fst snd] in *; subst w1.
  - exists sg. split; [done|]. congruence.
  - destruct Hp; congruence.
Qed.

Lemma ws_add_route_adds routes path handler options w :
  w_alloc w = [] → ws_registrable path options → ¬ (path ∈ map wr_path routes) →
  (result (ws_add_route routes (Some path) (Some handler) options) w).1 = HTTP_ROUTE_ADD_OK.
Proof.
  intros Hw (Hs & Hl & Hq & (l & Hseg & Hpat) & Hn) Hnew. unfold ws_add_route.
  assert (negb (deref path =? "/"%ch) || (HTTP_PATH_MAX <=? zlen path) || strchr_found path "?"%ch = false) as ->.
  { rewrite Hs, Z.eqb_refl. cbn [negb orb]. apply orb_false_iff. split; [by apply Z.leb_gt|].
    unfold strchr_found. by apply has_chr_false. }
  destruct (parse_segments_alloc path l w Hw Hseg) as (sg & Hsg & <-).
  unfold result. rewrite bind_run. unfold result, world. rewrite Hsg. cbn [fst snd].
  assert (validate_params [] (segs sg) 0 = true) as ->.
  { apply validate_params_spec; [done|constructor|]. destruct Hpat as (_ & H1 & H2 & H3). auto. }
  cbn [negb]. destruct (existsb _ routes) eqn:Ex.
  { destruct Hnew. apply existsb_exists in Ex as (r & Hin & Hr). apply list_elem_of_fmap. exists r.
    split; [symmetry; by apply streq_true|by apply list_elem_of_In]. }
  mrun_ok Hw. cbn [negb]. mrun_ok Hw. cbn [negb].
  match goal with |- context [ws_apply_options ?r options w] =>
    destruct (ws_apply_options_alloc r options w Hw Hn) as (r' & ->) end.
  done.
Qed.

(** Registering a websocket route keeps the table well formed (valid patterns below
    the length limit, distinct paths, printable subprotocol names, a positive message limit), appends
    exactly the route asked for when it answers OK and changes nothing otherwise, CONFLICT means the path
    was registered before, and with memory available every valid new path is accepted. *)
Lemma ws_add_route_spec routes path handler options w :
  ws_routes_ok routes →
  let r := result (ws_add_route routes path handler options) w in
  ws_routes_ok r.2 ∧
  (r.1 ≠ HTTP_ROUTE_ADD_OK → r.2 = routes) ∧
  (r.1 = HTTP_ROUTE_ADD_OK → ∃ p h rt, path = Some p ∧ handler = Some h ∧ r.2 = routes ++ [rt] ∧
     wr_path rt = p ∧ wr_handler rt = h ∧ has_options rt options) ∧
  (r.1 = HTTP_ROUTE_ADD_CONFLICT → ∃ p, path = Some p ∧ p ∈ map wr_path routes) ∧
  (∀ p h, path = Some p → handler = Some h → w_alloc w = [] → ws_registrable p options →
     ¬ (p ∈ map wr_path routes) → r.1 = HTTP_ROUTE_ADD_OK).
Proof.
  intros Hok r. assert (r = result (ws_add_route routes path handler options) w) as Er by done.
  pose proof (ws_add_route_run routes path handler options Hok w) as H. rewrite <- Er in H.
  assert (∀ p h, path = Some p → handler = Some h → w_alloc w = [] → ws_registrable p options →
     ¬ (p ∈ map wr_path routes) → r.1 = HTTP_ROUTE_ADD_OK) as Hadds.
  { intros p h -> -> Hw Hreg Hnew. rewrite Er. by apply ws_add_route_adds. }
  clear Er. destruct r as [rc routes']. cbn [fst snd] in *. destruct H as [H1 H2].
  split; [done|]. destruct rc; split_and!; try done; intros; by destruct H2 as [H2 ?].
Qed.

(** ** Which requests the layer takes *)

(** RFC 6455 section 4.2.1: a GET whose [Connection] lists [upgrade] and whose
    [Upgrade] lists [websocket]. *)
Definition lists_token (req : HttpRequest) (name token : bytes) : Prop :=
  ∃ value, http_req_header req (Some name) = Some value ∧
    Exists (λ e, strcaseeq e token = true) (list_elements value).

Definition asks_upgrade (req : HttpRequest) : Prop :=
  req_method req = str "GET" ∧ lists_token req (str "Connection") (str "upgrade") ∧
  lists_token req (str "Upgrade") (str "websocket").

Lemma header_token_lists value token :
  token ≠ [] → ws_header_has_token value token = true ↔
    Exists (λ e, strcaseeq e token = true) (list_elements value).
Proof.
  intros Ht. rewrite ws_header_has_token_spec, existsb_exists, List.Exists_exists by done. done.
Qed.

Lemma ws_is_upgrade_spec req : ws_is_upgrade req = true ↔ asks_upgrade req.
Proof.
  unfold ws_is_upgrade, asks_upgrade, lists_token. rewrite andb_true_iff, streq_true.
  split; intros [Hm H]; (split; [done|]).
  - destruct (http_req_header req (Some (str "Connection"))) as [c|],
      (http_req_header req (Some (str "Upgrade"))) as [u|]; try done.
    apply andb_true_iff in H as [H1 H2]. rewrite header_token_lists in H1, H2 by done. split; eexists; (split; [reflexivity|done]).
  - destruct H as [(c & -> & H1) (u & -> & H2)].
    apply andb_true_iff. by rewrite !header_token_lists by done.
Qed.

(** The route's pattern against the request's path, segment by segment. *)
Definition ws_route_matches (req_segments : HttpRouteSegments) (r : HttpWsRoute) : Prop :=
  Forall2 seg_matches (segs (wr_segments r)) (segs req_segments).

Lemma ws_route_test req_segments r :
  (http_segments_match (wr_segments r) req_segments None).1 = true ↔ ws_route_matches req_segments r.
Proof.
  unfold http_segments_match. rewrite segments_match_test by done. cbn [fst].
  rewrite bool_decide_eq_true. unfold ws_route_matches, zdrop. cbn [Z.to_nat drop].
  pose proof (zlen_nonneg (segs req_segments)). tauto.
Qed.

(** The first matching route, in the order of registration. *)
Lemma ws_find_route_spec routes req_segments :
  match ws_find_route routes req_segments with
  | Some r => ∃ before after, routes = before ++ r :: after ∧ ws_route_matches req_segments r ∧
      Forall (λ r', ¬ ws_route_matches req_segments r') before
  | None => Forall (λ r', ¬ ws_route_matches req_segments r') routes
  end.
Proof.
  unfold ws_find_route. induction routes as [|r routes IH]; [constructor|]. cbn [List.find].
  destruct ((http_segments_match (wr_segments r) req_segments None).1) eqn:E.
  - apply ws_route_test in E. exists [], routes. split; [done|]. split; [done|constructor].
  - assert (¬ ws_route_matches req_segments r) as Hr by (rewrite <- ws_route_test; congruence).
    destruct (List.find _ routes) as [r'|]; [|by constructor].
    destruct IH as (b & a & -> & Hm & Hb). exists (r :: b), a. split; [done|]. split; [done|by constructor].
Qed.

Lemma ws_handshake_taken threads route req leftover :
  returns (ws_handshake threads route req leftover) (λ r, r ≠ WS_DISPATCH_NOT_WS).
Proof.
  unfold ws_handshake, ws_accept, ws_run_session.
  repeat first
    [ apply returns_any; intros ?
    | by apply returns_ret
    | match goal with |- returns (if ?b then _ else _) _ => destruct b end
    | match goal with |- returns (match ?x with _ => _ end) _ => destruct x end
    | progress cbv zeta ].
Qed.

Lemma ws_dispatch_cases server req req_segments leftover w :
  (ws_dispatch server req req_segments leftover w = (WS_DISPATCH_NOT_WS, w) ∧
   ¬ (asks_upgrade req ∧ Exists (ws_route_matches req_segments) (wss_routes server))) ∨
  ∃ r before after, wss_routes server = before ++ r :: after ∧ asks_upgrade req ∧
    ws_route_matches req_segments r ∧ Forall (λ r', ¬ ws_route_matches req_segments r') before ∧
    ws_dispatch server req req_segments leftover w
    = ws_handshake (wss_threads server) r (ws_bind r req_segments req) leftover w.
Proof.
  unfold ws_dispatch. destruct (wss_routes server) as [|r0 routes] eqn:Er.
  { left. split; [done|]. intros [_ H]. by apply Exists_nil in H. }
  rewrite <- Er. pose proof (ws_find_route_spec (wss_routes server) req_segments) as Hf.
  destruct (ws_is_upgrade req) eqn:Eu; cbn [negb].
  - apply ws_is_upgrade_spec in Eu. destruct (ws_find_route _ _) as [r|].
    + right. destruct Hf as (b & a & -> & Hm & Hb). by exists r, b, a.
    + left. split; [done|]. intros [_ H]. rewrite Exists_exists in H. destruct H as (r & Hin & Hr).
      rewrite Forall_forall in Hf. by eapply Hf.
  - left. split; [done|]. intros [H _]. apply ws_is_upgrade_spec in H. congruence.
Qed.

(** The layer leaves a request to normal routing, without any effect, exactly when it
    is no upgrade in the sense of RFC 6455 (a GET with the two tokens among the comma-separated, trimmed
    elements, up to case) or no websocket route matches its path segment by segment. *)
Lemma ws_dispatch_falls_through server req req_segments leftover w :
  (result (ws_dispatch server req req_segments leftover) w = WS_DISPATCH_NOT_WS ↔
    ¬ (asks_upgrade req ∧ Exists (ws_route_matches req_segments) (wss_routes server))) ∧
  (world (ws_dispatch server req req_segments leftover) w = w ∨
   result (ws_dispatch server req req_segments leftover) w ≠ WS_DISPATCH_NOT_WS).
Proof.
  unfold result, world.
  destruct (ws_dispatch_cases server req req_segments leftover w) as [[-> H]|(r & b & a & Hr & Hu & Hm & _ & ->)].
  - split; [done|by left].
  - pose proof (ws_handshake_taken (wss_threads server) r (ws_bind r req_segments req) leftover w) as Ht.
    split; [|by right]. split; [done|]. intros []. split; [done|].
    rewrite Hr. apply Exists_app. right. by apply Exists_cons_hd.
Qed.

(** The layer the connection loop calls. *)
Lemma ws_dispatch_not_ws server req req_segments leftover w :
  result (ws_dispatch server req req_segments leftover) w = WS_DISPATCH_NOT_WS →
  world (ws_dispatch server req req_segments leftover) w = w.
Proof.
  destruct (ws_dispatch_cases server req req_segments leftover w) as [[E _]|(r & b & a & _ & _ & _ & _ & E)].
  - intros _. unfold world. by rewrite E.
  - unfold result, world. rewrite E. intros H. by apply ws_handshake_taken in H.
Qed.

#[export] Instance ws_layer (server : WsServer) : WsLayer :=
  {| http_ws_dispatch := ws_dispatch server; http_ws_dispatch_not_ws := ws_dispatch_not_ws server |}.

(** ** Refusals *)

(** An error response as a client reads it: a status line, lines without CR or LF,
    a blank line, and as many bytes as [Content-Length] says. *)
Definition error_answer (status : Z) (out : bytes) : Prop :=
  ∃ fields message,
    out = concat (map (λ l, l ++ CRLF) ((str "HTTP/1.1 " ++ fmt_d status ++ [SP] ++ status_text status) :: fields))
          ++ CRLF ++ message ∧
    Forall line_safe fields ∧ str "Content-Length: " ++ fmt_u (zlen message) ∈ fields ∧
    str "Connection: close" ∈ fields ∧
    (status = 426 → str "Sec-WebSocket-Version: 13" ∈ fields).

(** The key is Base64 of sixteen octets. *)
Definition key_ok (req : HttpRequest) (key : bytes) : Prop :=
  http_req_header req (Some (str "Sec-WebSocket-Key")) = Some key ∧
  zlen key = 24 ∧ ∃ nonce, base64_decode key 24 = Some nonce ∧ zlen nonce = 16.

Definition version_ok (req : HttpRequest) : Prop :=
  http_req_header req (Some (str "Sec-WebSocket-Version")) = Some (str "13").

Definition verdict (route : HttpWsRoute) (req : HttpRequest) : M bool :=
  match wr_verify route with Some verify => verify req | None => mret true end.

(** The checks of RFC 6455 section 4.2 and the server's own, in their order: the
    status that answers the first that fails. *)
Inductive ws_refusal (threads : bool) (req : HttpRequest) (verified : bool) : Z → Prop :=
  | refuse_body : 0 < req_body_len req → ws_refusal threads req verified 400
  | refuse_threads : req_body_len req <= 0 → threads = false → ws_refusal threads req verified 503
  | refuse_key : req_body_len req <= 0 → threads = true → (∀ key, ¬ key_ok req key) →
      ws_refusal threads req verified 400
  | refuse_version key : req_body_len req <= 0 → threads = true → key_ok req key → ¬ version_ok req →
      ws_refusal threads req verified 426
  | refuse_verify key : req_body_len req <= 0 → threads = true → key_ok req key → version_ok req →
      verified = false → ws_refusal threads req verified 403.

(** ... and none fails. *)
Definition ws_acceptable (threads : bool) (req : HttpRequest) (verified : bool) (key : bytes) : Prop :=
  req_body_len req <= 0 ∧ threads = true ∧ key_ok req key ∧ version_ok req ∧ verified = true.

Lemma ws_error_text_answer status message fields :
  Forall line_safe fields → (status = 426 → str "Sec-WebSocket-Version: 13" ∈ fields) →
  error_answer status
    (ws_error_text status (status_text status) message (concat (map (λ l, l ++ CRLF) fields))).
Proof.
  intros Hf H426. exists (str "Content-Type: text/plain" :: (str "Content-Length: " ++ fmt_u (zlen message))
    :: str "Connection: close" :: fields), message. split.
  - unfold ws_error_text. cbn [map concat]. by rewrite <- !app_assoc.
  - split; [|split; [|split]].
    + constructor; [line_literal|]. constructor; [|constructor; [line_literal|done]].
      apply line_safe_app. split; [line_literal|]. apply digits_line_safe, fmt_u_digits, zlen_nonneg.
    + rewrite !elem_of_cons. tauto.
    + rewrite !elem_of_cons. tauto.
    + rewrite !elem_of_cons. tauto.
Qed.

Lemma ws_reject_run status text message fields extra (r : HttpWsDispatchResult) w :
  w_send w = [] → text = status_text status → extra = concat (map (λ l, l ++ CRLF) fields) →
  Forall line_safe fields → (status = 426 → str "Sec-WebSocket-Version: 13" ∈ fields) →
  zlen (ws_error_text status text message extra) < 512 →
  ∃ out, (ws_send_error_response status text message extra;; mret r) w
    = (r, with_send [] (w_sent w ++ out) w) ∧ error_answer status out.
Proof.
  intros Hw -> -> Hf H426 Hl.
  exists (ws_error_text status (status_text status) message (concat (map (λ l, l ++ CRLF) fields))).
  split; [|by apply ws_error_text_answer].
  unfold ws_send_error_response. rewrite (proj2 (Z.leb_gt _ _) Hl). unfold ws_send_raw.
  rewrite !bind_run. unfold result, world. rewrite bind_run. unfold result, world.
  by rewrite send_all_quiet.
Qed.

Lemma ws_key_valid_spec req :
  match http_req_header req (Some (str "Sec-WebSocket-Key")) with
  | Some key => ws_key_valid key = true ↔ key_ok req key
  | None => ∀ key, ¬ key_ok req key
  end.
Proof.
  unfold key_ok. destruct (http_req_header _ _) as [key|]; [|by intros key [? _]].
  unfold ws_key_valid. rewrite andb_true_iff, Z.eqb_eq.
  destruct (base64_decode key 24) as [nonce|].
  - rewrite Z.eqb_eq. split; [intros [? ?]; eauto|]. by intros (_ & ? & n & [= <-] & ?).
  - split; [by intros [_ ?]|]. by intros (_ & _ & n & ? & _).
Qed.

Lemma version_ok_spec req :
  streq (default [] (http_req_header req (Some (str "Sec-WebSocket-Version")))) (str "13") = true
  ↔ version_ok req.
Proof.
  unfold version_ok. rewrite streq_true. destruct (http_req_header _ _) as [v|]; simpl.
  - split; [by intros ->|by intros [= ->]].
  - split; [by intros|done].
Qed.

(** Reduces the checks of [ws_handshake] that are decided by the hypotheses. *)
Lemma ws_handshake_keyed threads route req leftover key w :
  req_body_len req <= 0 → threads = true → key_ok req key →
  ws_handshake threads route req leftover w =
  (let reject status text message extra :=
     ws_send_error_response status text message extra;; mret WS_DISPATCH_REJECTED in
   if negb (streq (default [] (http_req_header req (Some (str "Sec-WebSocket-Version")))) (str "13")) then
     reject 426 (str "Upgrade Required")
       (str "unsupported websocket version (this server speaks version 13)" ++ [LF])
       (str "Sec-WebSocket-Version: 13" ++ CRLF)
   else
     verified ← verdict route req;
     if negb verified then
       reject 403 (str "Forbidden") (str "websocket upgrade rejected" ++ [LF]) []
     else ws_accept route req key leftover) w.
Proof.
  intros Hb -> Hk. unfold ws_handshake. rewrite (proj2 (Z.ltb_ge _ _) Hb). cbn [negb].
  pose proof (ws_key_valid_spec req) as Hv. rewrite (proj1 Hk) in *.
  by rewrite (proj2 Hv Hk).
Qed.

Lemma ws_handshake_refused threads route req leftover st w :
  w_send w = [] → reads_only (verdict route req) →
  ws_refusal threads req (result (verdict route req) w) st →
  ∃ w' out, ws_handshake threads route req leftover w = (WS_DISPATCH_REJECTED, w') ∧
    w_send w' = [] ∧ w_sent w' = w_sent w ++ out ∧ error_answer st out.
Proof.
  intros Hw Hq Href. destruct (Hq w) as (Q1 & Q2 & _). unfold result, world in *.
  destruct Href as [Hb|Hb Ht|Hb Ht Hk|key Hb Ht Hk Hv|key Hb Ht Hk Hv Hf].
  - unfold ws_handshake. rewrite (proj2 (Z.ltb_lt _ _) Hb).
    match goal with |- context [ws_send_error_response ?s ?t ?m ?e] =>
      destruct (ws_reject_run s t m [] e WS_DISPATCH_REJECTED w) as (out & -> & Ho); try done end.
    eexists _, out. done.
  - unfold ws_handshake. rewrite (proj2 (Z.ltb_ge _ _) Hb), Ht. cbn [negb].
    match goal with |- context [ws_send_error_response ?s ?t ?m ?e] =>
      destruct (ws_reject_run s t m [] e WS_DISPATCH_REJECTED w) as (out & -> & Ho); try done end.
    eexists _, out. done.
  - unfold ws_handshake. rewrite (proj2 (Z.ltb_ge _ _) Hb), Ht. cbn [negb].
    pose proof (ws_key_valid_spec req) as Hkv.
    destruct (ws_reject_run 400 (str "Bad Request") (str "invalid Sec-WebSocket-Key" ++ [LF]) [] []
      WS_DISPATCH_REJECTED w) as (out & E & Ho); try done.
    exists (with_send [] (w_sent w ++ out) w), out. split; [|done].
    destruct (http_req_header _ _) as [key|]; [|exact E].
    destruct (ws_key_valid key) eqn:Ek; [|exact E]. by destruct (Hk key), Hkv; auto.
  - rewrite (ws_handshake_keyed _ _ _ _ key) by done. cbv zeta.
    destruct (streq _ (str "13")) eqn:E; [by apply version_ok_spec in E|]. cbn [negb].
    match goal with |- context [ws_send_error_response ?s ?t ?m ?e] =>
      destruct (ws_reject_run s t m [str "Sec-WebSocket-Version: 13"] e WS_DISPATCH_REJECTED w)
        as (out & -> & Ho); try done end.
    + constructor; [line_literal|constructor].
    + intros _. by left.
    + eexists _, out. done.
  - rewrite (ws_handshake_keyed _ _ _ _ key) by done. cbv zeta.
    rewrite (proj2 (version_ok_spec req) Hv). cbn [negb]. rewrite bind_run. unfold result, world.
    rewrite Hf. cbn [negb].
    match goal with |- context [ws_send_error_response ?s ?t ?m ?e] =>
      destruct (ws_reject_run s t m [] e WS_DISPATCH_REJECTED (verdict route req w).2) as (out & -> & Ho);
        try done; [congruence|] end.
    eexists _, out. split; [done|]. split; [done|]. cbn. by rewrite Q1.
Qed.

Lemma ws_handshake_accepted threads route req leftover key w :
  ws_acceptable threads req (result (verdict route req) w) key →
  ws_handshake threads route req leftover w
  = ws_accept route req key leftover (world (verdict route req) w).
Proof.
  intros (Hb & Ht & Hk & Hv & Hf). rewrite (ws_handshake_keyed _ _ _ _ key) by done. cbv zeta.
  rewrite (proj2 (version_ok_spec req) Hv). cbn [negb]. rewrite bind_run. by rewrite Hf.
Qed.

Lemma ws_checks threads req verified :
  (∃ st, ws_refusal threads req verified st) ∨ ∃ key, ws_acceptable threads req verified key.
Proof.
  destruct (Z.ltb_spec 0 (req_body_len req)); [left; eexists; by apply refuse_body|].
  destruct threads; [|left; eexists; by apply refuse_threads].
  pose proof (ws_key_valid_spec req) as Hk.
  destruct (http_req_header req (Some (str "Sec-WebSocket-Key"))) as [key|] eqn:Eh;
    [|left; eexists; by apply refuse_key].
  destruct (ws_key_valid key).
  2: { left. eexists. apply refuse_key; [done|done|]. intros key' Hk'.
       assert (key' = key) as -> by (destruct Hk'; congruence). by apply Hk in Hk'. }
  apply proj1 in Hk. specialize (Hk eq_refl).
  destruct (streq (default [] (http_req_header req (Some (str "Sec-WebSocket-Version")))) (str "13")) eqn:Ev.
  - apply version_ok_spec in Ev. destruct verified; [right; by exists key|].
    left. eexists. by eapply refuse_verify.
  - left. eexists. eapply refuse_version; try done. rewrite <- version_ok_spec. congruence.
Qed.

(** ** Acceptance *)

(** The first offered subprotocol the route knows. *)
Definition chosen_protocol (route : HttpWsRoute) (req : HttpRequest) : option bytes :=
  match wr_subprotocols route, http_req_header req (Some (str "Sec-WebSocket-Protocol")) with
  | Some names, Some offered => List.find (λ e, bool_decide (e ∈ names)) (list_tokens offered)
  | _, _ => None
  end.

Definition protocol_field (pick : option bytes) : bytes :=
  match pick with Some e => str "Sec-WebSocket-Protocol: " ++ e ++ CRLF | None => [] end.

(** The response to an accepted handshake. *)
Definition upgrade_head (accept : bytes) (pick : option bytes) : bytes :=
  ws_response accept ++ protocol_field pick ++ CRLF.

(** The buffer of the response has room for names of up to 357 bytes. *)
Definition pick_fits (pick : option bytes) : bool := zlen (default [] pick) <=? 357.

Lemma ws_protocol_line_spec route req n :
  ws_protocol_line route req n =
  (if bool_decide (chosen_protocol route req = None) then Some []
   else if 512 - n <=? zlen (protocol_field (chosen_protocol route req)) then None
   else Some (protocol_field (chosen_protocol route req))).
Proof.
  unfold ws_protocol_line, chosen_protocol. destruct (wr_subprotocols route) as [names|]; [|done].
  destruct (http_req_header _ _) as [offered|]; [|done]. rewrite ws_pick_subprotocol_spec.
  by destruct (List.find _ _).
Qed.

Lemma ws_accept_run route req key leftover w :
  w_send w = [] →
  ∃ accept, zlen accept = 28 ∧ base64_decode accept 20 = Some (fips_sha1 (key ++ WS_GUID)) ∧
    ws_accept route req key leftover w =
    (if pick_fits (chosen_protocol route req)
     then ws_run_session route req leftover
            (with_send [] (w_sent w ++ upgrade_head accept (chosen_protocol route req)) w)
     else (WS_DISPATCH_REJECTED, w)).
Proof.
  intros Hw. destruct (ws_accept_key_spec key 32 ltac:(lia)) as (accept & Ha & Hl & Hd).
  exists accept. split; [done|]. split; [done|]. unfold ws_accept. rewrite Ha.
  assert (zlen (ws_response accept) = 127) as Hr.
  { unfold ws_response. rewrite !zlen_app, Hl. done. }
  rewrite Hr. change (512 <=? 127) with false. cbn iota. rewrite ws_protocol_line_spec.
  assert (∀ line, zlen line <= 383 →
    (if 512 <? zlen (ws_response accept ++ line) + 2 then mret WS_DISPATCH_REJECTED
     else rc ← ws_send_raw (ws_response accept ++ line);
          if negb (rc =? 0) then mret WS_DISPATCH_REJECTED
          else rc ← ws_send_raw CRLF;
               if negb (rc =? 0) then mret WS_DISPATCH_REJECTED
               else ws_run_session route req leftover) w
    = ws_run_session route req leftover
        (with_send [] (w_sent w ++ ws_response accept ++ line ++ CRLF) w)) as Hsend.
  { intros line Hline. rewrite zlen_app, Hr. rewrite (proj2 (Z.ltb_ge _ _)) by lia.
    unfold ws_send_raw. rewrite bind_run. unfold result, world. rewrite send_all_quiet by done.
    cbn [fst snd]. change (negb (0 =? 0)) with false. cbn iota. rewrite bind_run. unfold result, world.
    rewrite send_all_quiet by done. cbn [fst snd]. change (negb (0 =? 0)) with false. cbn iota.
    f_equal. unfold with_send. cbn [w_alloc w_recv w_sent w_listening w_now w_fs]. f_equal. by rewrite <- !app_assoc. }
  unfold pick_fits, upgrade_head. destruct (chosen_protocol route req) as [e|]; [|by apply Hsend].
  rewrite bool_decide_false by done. cbn [default from_option id].
  assert (zlen (protocol_field (Some e)) = 26 + zlen e) as He.
  { unfold protocol_field. rewrite !zlen_app. change (zlen CRLF) with 2.
    change (zlen (str "Sec-WebSocket-Protocol: ")) with 24. lia. }
  destruct (Z.leb_spec (zlen e) 357).
  - rewrite (proj2 (Z.leb_gt _ _)) by lia. apply Hsend. lia.
  - case_if; [done|]. rewrite (proj2 (Z.ltb_lt _ _)); [done|]. rewrite zlen_app. lia.
Qed.

(** The session of a route whose handler works through the interface sends server
    frames only. *)
Lemma uses_api_emits (handler : HttpWs → HttpRequest → M HttpWs) ws req :
  uses_api handler → ws_ok ws → emits (handler ws req) ∧ returns (handler ws req) ws_ok.
Proof.
  intros Hu Hok. split; intros w; pose proof (api_run_ok _ _ _ _ Hok (Hu ws req w)) as [H1 H2]; [|done].
  by intros Hw; destruct (H2 Hw).
Qed.

Lemma finish_emits ws : ws_ok ws → emits (ws_finish_session ws).
Proof.
  intros Hok. unfold ws_finish_session. case_if; [apply emits_ret|].
  apply emits_bind with (λ r, ws_ok r.2); [apply emits_send_close| |].
  { intros w. eapply same_recv_ok; [apply same_recv_send_close|done]. }
  intros [rc ws1] Hok1. by apply emits_drain.
Qed.

Lemma emits_session_create max_message leftover : emits (ws_session_create max_message leftover).
Proof. unfold ws_session_create. emit. Qed.

Lemma ws_run_session_emits route req leftover :
  uses_api (wr_handler route) → 0 <= wr_max_message route < 2 ^ 63 →
  emits (ws_run_session route req leftover).
Proof.
  intros Hu Hm. unfold ws_run_session.
  eapply emits_bind; [apply emits_session_create|by apply session_create_ok|].
  intros [ws|] Hok; [|apply emits_ret]. destruct (uses_api_emits (wr_handler route) ws req Hu Hok) as [He Hr].
  eapply emits_bind; [exact He|exact Hr|]. intros ws1 Hok1.
  apply emits_bind_any; [by apply finish_emits|]. intros. apply emits_ret.
Qed.

(** With memory, a session is created ready, its input the bytes behind the request. *)
Lemma session_create_ready max_message leftover w :
  w_alloc w = [] → 0 <= max_message < 2 ^ 63 →
  ∃ ws, ws_session_create max_message leftover w = (Some ws, w) ∧ ready ws ∧ unread ws = leftover ∧
    ws_max_message ws = max_message.
Proof.
  intros Hw Hm. pose proof (session_create_ok max_message leftover Hm w) as Hok.
  assert (∃ ws, ws_session_create max_message leftover w = (Some ws, w) ∧ ws_dead ws = false ∧
    ws_state ws = WS_NEED_HEADER ∧ ws_msg_active ws = false ∧ ws_msg ws = None ∧ unread ws = leftover ∧
    ws_max_message ws = max_message) as (ws & E & H1 & H2 & H3 & H4 & H5 & H6).
  { unfold ws_session_create. mrun_ok Hw. cbn [negb]. mrun_ok Hw. cbn [negb]. by eexists. }
  unfold result in Hok. rewrite E in Hok. exists ws. split; [done|]. split; [by split|done].
Qed.

(** C11: the first check of the handshake that fails decides the answer: 400 for a body, 503
    without worker threads, 400 for a key that is not the Base64 text of 16 octets, 426 for a version other
    than 13 (naming 13), 403 when the verify callback says no.  What is sent is one complete response with
    that status, the right Content-Length and Connection: close; and when no check fails, none of this is
    sent. *)
Theorem ws_handshake_refuses threads route req leftover w :
  w_send w = [] → reads_only (verdict route req) →
  let verified := result (verdict route req) w in
  let r := ws_handshake threads route req leftover w in
  (∀ st, ws_refusal threads req verified st →
     r.1 = WS_DISPATCH_REJECTED ∧ ∃ out, w_sent r.2 = w_sent w ++ out ∧ error_answer st out) ∧
  ((∃ st, ws_refusal threads req verified st) ∨
   ∃ key, ws_acceptable threads req verified key ∧
     r = ws_accept route req key leftover (world (verdict route req) w)).
Proof.
  intros Hw Hq verified r. split.
  - intros st Href. destruct (ws_handshake_refused threads route req leftover st w Hw Hq Href)
      as (w' & out & E & _ & Hs & Ho). unfold r. rewrite E. split; [done|]. by exists out.
  - destruct (ws_checks threads req verified) as [?|[key Hk]]; [by left|right].
    exists key. split; [done|]. by apply ws_handshake_accepted.
Qed.


(** ** The whole connection *)

(** What the routes of a server promise of their callbacks. *)
Record ws_callbacks_ok (server : WsServer) : Prop := {
  wcb_verify : Forall (λ r, ∀ req, reads_only (verdict r req)) (wss_routes server);
  wcb_handler : Forall (λ r, uses_api (wr_handler r)) (wss_routes server);
  wcb_max : Forall (λ r, 0 <= wr_max_message r < 2 ^ 63) (wss_routes server);
}.

(** What the websocket layer may leave behind the responses: an error response, or
    an upgrade head and server frames, or nothing. *)
Definition ws_tail (tail : bytes) : Prop :=
  tail = [] ∨ (∃ st, st ∈ [400; 403; 426; 503] ∧ error_answer st tail) ∨
  ∃ key accept pick fs, zlen accept = 28 ∧
    base64_decode accept 20 = Some (fips_sha1 (key ++ WS_GUID)) ∧
    Forall server_frame fs ∧ tail = upgrade_head accept pick ++ concat fs.

Lemma ws_refusal_status threads req verified st :
  ws_refusal threads req verified st → st ∈ [400; 403; 426; 503].
Proof. intros []; rewrite !elem_of_cons; tauto. Qed.

Lemma ws_handshake_tail threads route req leftover w :
  w_send w = [] → reads_only (verdict route req) → uses_api (wr_handler route) →
  0 <= wr_max_message route < 2 ^ 63 →
  ∃ tail, ws_tail tail ∧ w_sent (world (ws_handshake threads route req leftover) w) = w_sent w ++ tail.
Proof.
  intros Hw Hq Hu Hm. destruct (Hq w) as (Q1 & Q2 & _). unfold world.
  destruct (ws_checks threads req (result (verdict route req) w)) as [[st Href]|[key Hk]].
  { destruct (ws_handshake_refused threads route req leftover st w Hw Hq Href) as (w' & out & E & _ & Hs & Ho).
    rewrite E. exists out. split; [|done]. right. left. exists st. split; [by eapply ws_refusal_status|done]. }
  rewrite (ws_handshake_accepted threads route req leftover key w Hk).
  destruct (ws_accept_run route req key leftover (world (verdict route req) w)) as (accept & Hl & Hd & E).
  { congruence. }
  rewrite E. destruct (pick_fits _).
  - set (w1 := with_send [] _ _).
    destruct (ws_run_session_emits route req leftover Hu Hm w1 eq_refl) as (_ & fs & Hfs & Hs).
    exists (upgrade_head accept (chosen_protocol route req) ++ concat fs). split.
    { right. right. by exists key, accept, (chosen_protocol route req), fs. }
    unfold world in Hs. rewrite Hs. cbn. by rewrite Q1, <- app_assoc.
  - exists []. split; [by left|]. cbn [snd]. by rewrite Q1, app_nil_r.
Qed.

Lemma ws_dispatch_tail server req req_segments leftover w :
  ws_callbacks_ok server → w_send w = [] →
  ∃ tail, ws_tail tail ∧
    w_sent (world (ws_dispatch server req req_segments leftover) w) = w_sent w ++ tail.
Proof.
  intros [H1 H2 H3] Hw.
  destruct (ws_dispatch_cases server req req_segments leftover w) as [[E _]|(r & b & a & Er & _ & _ & _ & E)].
  - unfold world. rewrite E. exists []. split; [by left|]. by rewrite app_nil_r.
  - rewrite Er in *. apply Forall_app in H1 as [_ H1], H2 as [_ H2], H3 as [_ H3].
    apply Forall_cons in H1 as [H1 _], H2 as [H2 _], H3 as [H3 _].
    unfold world. rewrite E. by apply ws_handshake_tail.
Qed.


(** ** On a concrete server *)

(** A handler that greets, and waits for one message. *)
Definition greet (ws : HttpWs) (req : HttpRequest) : M HttpWs :=
  ws ← (snd <$> http_ws_send_text ws (str "hello"));
  snd <$> http_ws_recv ws.

Lemma greet_uses_api : uses_api greet.
Proof.
  intros ws req w. eapply rtc_l.
  { apply (step_call (λ ws, snd <$> http_ws_send_text ws (str "hello")) ws w (api_text (str "hello") eq_refl)). }
  apply rtc_once, (step_call _ _ _ api_recv).
Qed.

Definition chat_segments : HttpRouteSegments :=
  {| segs := [{| seg_text := str "chat"; seg_is_param := false |}]; segs_capacity := 8 |}.

Definition chat_route : HttpWsRoute :=
  {| wr_path := str "/chat"; wr_segments := chat_segments; wr_handler := greet; wr_verify := None;
     wr_subprotocols := Some [str "soap"; str "chat"]; wr_max_message := 100 |}.

Definition chat_server : WsServer := {| wss_routes := [chat_route]; wss_threads := true |}.

Lemma chat_callbacks : ws_callbacks_ok chat_server.
Proof.
  split; (apply Forall_cons; split; [|apply Forall_nil; exact I]).
  - intros req. apply reads_only_ret.
  - exact greet_uses_api.
  - cbn. lia.
Qed.

(** The handshake of RFC 6455, and a close frame behind it. *)
Definition chat_request (version : bytes) : bytes :=
  str "GET /chat HTTP/1.1" ++ CRLF ++ str "Upgrade: websocket" ++ CRLF
  ++ str "Connection: keep-alive, Upgrade" ++ CRLF
  ++ str "Sec-WebSocket-Key: dGhlIHNhbXBsZSBub25jZQ==" ++ CRLF
  ++ str "Sec-WebSocket-Protocol: superchat, chat" ++ CRLF
  ++ str "Sec-WebSocket-Version: " ++ version ++ CRLFCRLF.

Definition chat_bytes : bytes :=
  chat_request (str "13") ++ encode_frame (client_frame true WS_OP_CLOSE [0x03; 0xE8]).


(** The handshake's fields as the parser leaves them. *)
Definition chat_req (version : bytes) : HttpRequest :=
  set_req_headers
    {| hs_items :=
         [{| h_key := str "Upgrade"; h_value := str "websocket" |};
          {| h_key := str "Connection"; h_value := str "Upgrade" |};
          {| h_key := str "Sec-WebSocket-Key"; h_value := str "dGhlIHNhbXBsZSBub25jZQ==" |};
          {| h_key := str "Sec-WebSocket-Protocol"; h_value := str "superchat, chat" |};
          {| h_key := str "Sec-WebSocket-Version"; h_value := version |}];
       hs_capacity := 8 |} (set_req_method (str "GET") empty_request).

Lemma chat_key_ok version : key_ok (chat_req version) (str "dGhlIHNhbXBsZSBub25jZQ==").
Proof. split; [reflexivity|]. split; [reflexivity|]. eexists. split; [vm_compute; reflexivity|reflexivity]. Qed.

Lemma ws_handshake_refuses_witness :
  let r := ws_handshake true chat_route (chat_req (str "8")) [] quiet_world in
  r.1 = WS_DISPATCH_REJECTED ∧ ∃ out, w_sent r.2 = w_sent quiet_world ++ out ∧ error_answer 426 out.
Proof.
  intros r.
  destruct (ws_handshake_refuses true chat_route (chat_req (str "8")) [] quiet_world) as [H _].
  - reflexivity.
  - apply reads_only_ret.
  - apply (H 426). eapply refuse_version; [apply Z.le_refl | reflexivity | apply chat_key_ok | discriminate].
Defined.


(** A subprotocol that registration takes may be too long for the response: the
    dispatch answers REJECTED and nothing at all has been sent. *)
Lemma long_subprotocol_silent :
  let name := replicate 358 "a"%ch in
  let req := set_req_headers
    {| hs_items := {| h_key := str "Sec-WebSocket-Protocol"; h_value := name |}
                   :: hs_items (req_headers (chat_req (str "13"))); hs_capacity := 8 |}
    (chat_req (str "13")) in
  let options := Some {| wo_verify := None; wo_subprotocols := Some [name]; wo_max_message := 0 |} in
  let routes := result (ws_add_route [] (Some (str "/chat")) (Some greet) options) quiet_world in
  let server := {| wss_routes := routes.2; wss_threads := true |} in
  routes.1 = HTTP_ROUTE_ADD_OK ∧
  ws_dispatch server req chat_segments [] quiet_world = (WS_DISPATCH_REJECTED, quiet_world).
Proof. vm_compute. split; reflexivity. Qed.
