(* ===== verification/Tpl.v ===== *)
(** * The template runtime

    [src/src/c_http_tpl.c]: the growable output with its sticky failure flag, the
    scratch arena, escaping, the URL and CSS sanitizers, fragments and once blocks,
    and [http_res_html].  The user's [ctx] pointer is never touched and not
    modelled. *)

From S2P Require Import Prelude CLib World Types Validate Headers Response.
#[local] Open Scope Z_scope.

(** ** The output *)

(** A block of the arena: [ab_used] of its [ab_cap] bytes are handed out. *)
Record TplArenaBlock := { ab_used : Z; ab_cap : Z }.

Definition TPL_ARENA_BLOCK_SIZE : Z := 512.

(** The sizes of an arena block's header and of a pointer on a 64-bit system. *)
Definition ARENA_HEADER : Z := 24.
Definition POINTER_SIZE : Z := 8.

(** A handle is its address. *)
Definition TplOnce : Type := Z.

(** [TplUrl], [TplCss]: the pointer, which may be NULL. *)
Record TplUrl := { url_s : option bytes }.
Record TplCss := { css_s : option bytes }.

(** [TplOut].  [to_data] is [data\[0..len)]; [data] is NULL while [to_cap] is 0.
    [to_misaligned] is a ghost: a pointer was stored at an address that is no
    multiple of its size. *)
Record TplOut := {
  to_data : bytes;
  to_cap : Z;
  to_failed : bool;
  to_arena : list TplArenaBlock;
  to_frag_sel : option bytes;
  to_frag_depth : Z;
  to_frag_match : Z;
  to_once_fired : list TplOnce;
  to_misaligned : bool;
}.

Definition set_to_data (x : bytes) (o : TplOut) : TplOut :=
  {| to_data := x; to_cap := to_cap o; to_failed := to_failed o; to_arena := to_arena o;
     to_frag_sel := to_frag_sel o; to_frag_depth := to_frag_depth o;
     to_frag_match := to_frag_match o; to_once_fired := to_once_fired o; to_misaligned := to_misaligned o |}.
Definition set_to_cap (x : Z) (o : TplOut) : TplOut :=
  {| to_data := to_data o; to_cap := x; to_failed := to_failed o; to_arena := to_arena o;
     to_frag_sel := to_frag_sel o; to_frag_depth := to_frag_depth o;
     to_frag_match := to_frag_match o; to_once_fired := to_once_fired o; to_misaligned := to_misaligned o |}.
Definition set_to_failed (x : bool) (o : TplOut) : TplOut :=
  {| to_data := to_data o; to_cap := to_cap o; to_failed := x; to_arena := to_arena o;
     to_frag_sel := to_frag_sel o; to_frag_depth := to_frag_depth o;
     to_frag_match := to_frag_match o; to_once_fired := to_once_fired o; to_misaligned := to_misaligned o |}.
Definition set_to_arena (x : list TplArenaBlock) (o : TplOut) : TplOut :=
  {| to_data := to_data o; to_cap := to_cap o; to_failed := to_failed o; to_arena := x;
     to_frag_sel := to_frag_sel o; to_frag_depth := to_frag_depth o;
     to_frag_match := to_frag_match o; to_once_fired := to_once_fired o; to_misaligned := to_misaligned o |}.
Definition set_to_frag_sel (x : option bytes) (o : TplOut) : TplOut :=
  {| to_data := to_data o; to_cap := to_cap o; to_failed := to_failed o; to_arena := to_arena o;
     to_frag_sel := x; to_frag_depth := to_frag_depth o; to_frag_match := to_frag_match o;
     to_once_fired := to_once_fired o; to_misaligned := to_misaligned o |}.
Definition set_to_frag_depth (x : Z) (o : TplOut) : TplOut :=
  {| to_data := to_data o; to_cap := to_cap o; to_failed := to_failed o; to_arena := to_arena o;
     to_frag_sel := to_frag_sel o; to_frag_depth := x; to_frag_match := to_frag_match o;
     to_once_fired := to_once_fired o; to_misaligned := to_misaligned o |}.
Definition set_to_frag_match (x : Z) (o : TplOut) : TplOut :=
  {| to_data := to_data o; to_cap := to_cap o; to_failed := to_failed o; to_arena := to_arena o;
     to_frag_sel := to_frag_sel o; to_frag_depth := to_frag_depth o; to_frag_match := x;
     to_once_fired := to_once_fired o; to_misaligned := to_misaligned o |}.
Definition set_to_once_fired (x : list TplOnce) (o : TplOut) : TplOut :=
  {| to_data := to_data o; to_cap := to_cap o; to_failed := to_failed o; to_arena := to_arena o;
     to_frag_sel := to_frag_sel o; to_frag_depth := to_frag_depth o;
     to_frag_match := to_frag_match o; to_once_fired := x; to_misaligned := to_misaligned o |}.
Definition set_to_misaligned (x : bool) (o : TplOut) : TplOut :=
  {| to_data := to_data o; to_cap := to_cap o; to_failed := to_failed o; to_arena := to_arena o;
     to_frag_sel := to_frag_sel o; to_frag_depth := to_frag_depth o;
     to_frag_match := to_frag_match o; to_once_fired := to_once_fired o; to_misaligned := x |}.

Definition empty_out : TplOut :=
  {| to_data := []; to_cap := 0; to_failed := false; to_arena := []; to_frag_sel := None;
     to_frag_depth := 0; to_frag_match := 0; to_once_fired := []; to_misaligned := false |}.

(** All fields zero again; the blocks and the buffer are released. *)
Definition tpl_out_free (out : TplOut) : TplOut := empty_out.

(** [len] bytes of the block [b]: their offset behind its header. *)
Definition arena_take (b : TplArenaBlock) (rest : list TplArenaBlock) (out : TplOut) (len : Z)
  : option Z * TplOut :=
  (Some (ab_used b),
   set_to_arena ({| ab_used := ab_used b + len; ab_cap := ab_cap b |} :: rest) out).

(** A new block; [None]: no memory. *)
Definition arena_fresh (out : TplOut) (len : Z) : M (option Z * TplOut) :=
  let cap := if TPL_ARENA_BLOCK_SIZE <? len then len else TPL_ARENA_BLOCK_SIZE in
  ok ← malloc;
  if negb ok then mret (None, set_to_failed true out)
  else mret (arena_take {| ab_used := 0; ab_cap := cap |} (to_arena out) out len).

Definition arena_alloc (out : TplOut) (len : Z) : M (option Z * TplOut) :=
  match to_arena out with
  | b :: rest =>
      if ab_cap b - ab_used b <? len then arena_fresh out len else mret (arena_take b rest out len)
  | [] => arena_fresh out len
  end.

(** ** Buffer writes *)

(** Doubling; 64 rounds pass the largest size. *)
Fixpoint tpl_grow_cap (fuel : nat) (new_cap need : Z) : Z :=
  match fuel with
  | O => new_cap
  | S fuel =>
      if new_cap <? need then
        if SIZE_MAX / 2 <? new_cap then need else tpl_grow_cap fuel (new_cap * 2) need
      else new_cap
  end.

Definition buf_reserve (out : TplOut) (len : Z) : M (bool * TplOut) :=
  if to_failed out then mret (false, out)
  else if SIZE_MAX - zlen (to_data out) <? len then mret (false, set_to_failed true out)
  else
    let need := zlen (to_data out) + len in
    if need <=? to_cap out then mret (true, out)
    else
      let new_cap := tpl_grow_cap 64 (if to_cap out =? 0 then 256 else to_cap out) need in
      ok ← malloc;
      if negb ok then mret (false, set_to_failed true out)
      else mret (true, set_to_cap new_cap out).

(** Writes the bytes of [s], which may be NULL. *)
Definition tpl_lit_n (out : TplOut) (s : option bytes) : M TplOut :=
  match s with
  | None => mret out
  | Some s =>
      if zlen s =? 0 then mret out
      else if bool_decide (to_frag_sel out ≠ None) && (to_frag_match out <=? 0) then mret out
      else
        '(ok, out) ← buf_reserve out (zlen s);
        if negb ok then mret out else mret (set_to_data (to_data out ++ s) out)
  end.

Definition tpl_lit (out : TplOut) (s : option bytes) : M TplOut :=
  match s with None => mret out | Some s => tpl_lit_n out (Some s) end.

Definition tpl_raw (out : TplOut) (s : option bytes) : M TplOut := tpl_lit out s.
Definition tpl_raw_n (out : TplOut) (s : option bytes) : M TplOut := tpl_lit_n out s.

(** ** Escaping *)

(** The entry of [tpl_entities]: [None] passes through. *)
Definition tpl_entities (c : Z) : option bytes :=
  if c =? "&"%ch then Some (str "&amp;")
  else if c =? "<"%ch then Some (str "&lt;")
  else if c =? ">"%ch then Some (str "&gt;")
  else if c =? DQUOTE then Some (str "&#34;")
  else if c =? "'"%ch then Some (str "&#39;")
  else None.

Definition TPL_ESCAPE_CHARS : bytes := str "&<>" ++ [DQUOTE] ++ str "'".

(** [strpbrk] splits the text in front of the first hit; a hit per round. *)
Fixpoint write_escaped_loop (fuel : nat) (out : TplOut) (p : bytes) : M TplOut :=
  match fuel with
  | O => mret out
  | S fuel =>
      match span (λ c, negb (has_chr c TPL_ESCAPE_CHARS)) p with
      | (p, []) => tpl_lit_n out (Some p)
      | (chunk, hit :: p) =>
          out ← tpl_lit_n out (Some chunk);
          out ← tpl_lit_n out (tpl_entities hit);
          write_escaped_loop fuel out p
      end
  end.

Definition write_escaped (out : TplOut) (s : bytes) : M TplOut :=
  write_escaped_loop (S (length s)) out s.

Definition tpl_esc (out : TplOut) (s : option bytes) : M TplOut :=
  match s with None => mret out | Some s => write_escaped out s end.
Definition tpl_attr (out : TplOut) (s : option bytes) : M TplOut :=
  match s with None => mret out | Some s => write_escaped out s end.

(** ** Value helpers *)

Definition tpl_int (out : TplOut) (value : Z) : M (bytes * TplOut) :=
  '(buf, out) ← arena_alloc out 21;
  match buf with
  | None => mret ([], out)
  | Some _ => mret (snprintf_s 21 (fmt_d value), out)
  end.

(** [formatted] is what [vsnprintf] makes of the format and its arguments, [None] an
    encoding error. *)
Definition tpl_fmt (out : TplOut) (formatted : option bytes) : M (bytes * TplOut) :=
  match formatted with
  | None => mret ([], set_to_failed true out)
  | Some text =>
      let need := zlen text in
      '(buf, out) ← arena_alloc out (need + 1);
      match buf with
      | None => mret ([], out)
      | Some _ => mret (snprintf_s (need + 1) text, out)
      end
  end.

(** ** URLs *)

Definition is_url_space (c : Z) : bool :=
  (c =? SP) || (c =? HT) || (c =? LF) || (c =? CR) || (c =? 12) || (c =? 11).

Definition is_alpha (c : Z) : bool := is_lower c || is_upper c.
Definition scheme_char (c : Z) : bool :=
  is_alpha c || is_digit c || (c =? "+"%ch) || (c =? "-"%ch) || (c =? "."%ch).

(** The length of a scheme with its colon. *)
Definition has_scheme (s : bytes) : option Z :=
  match s with
  | [] => None
  | c :: _ =>
      if negb (is_alpha c) then None
      else
        let '(name, rest) := span (λ c, negb (c =? ":"%ch)) s in
        if negb (forallb scheme_char name) then None
        else match rest with [] => None | _ :: _ => Some (zlen name + 1) end
  end.

Definition scheme_equals (s : bytes) (len : Z) (want : bytes) : bool :=
  (zlen want =? len) && streq (map tolower (ztake len s)) want.

Definition url_is_safe (s : bytes) (len : Z) : bool :=
  match has_scheme s with
  | Some scheme_len =>
      scheme_equals s scheme_len (str "http:") || scheme_equals s scheme_len (str "https:")
      || scheme_equals s scheme_len (str "mailto:")
  | None => true
  end && negb (existsb (λ c, (c <? 0x20) || (c =? 0x7f)) (ztake len s)).

Definition tpl_url_val (s : bytes) : TplUrl := {| url_s := Some s |}.

Definition INVALID_URL : bytes := str "about:invalid#ctmpl".

Definition tpl_url (out : TplOut) (url : option bytes) : M (TplUrl * TplOut) :=
  match url with
  | None => mret (tpl_url_val INVALID_URL, out)
  | Some url =>
      let p := skip_while is_url_space url in
      let trimmed := rtrim is_url_space p in
      if (zlen p =? zlen url) && (zlen trimmed =? zlen url) then
        mret (tpl_url_val (if url_is_safe url (zlen trimmed) then url else INVALID_URL), out)
      else
        '(buf, out) ← arena_alloc out (zlen trimmed + 1);
        match buf with
        | None => mret (tpl_url_val INVALID_URL, out)
        | Some _ =>
            mret (tpl_url_val (if url_is_safe trimmed (zlen trimmed) then trimmed else INVALID_URL), out)
        end
  end.

Definition tpl_safe_url (url : option bytes) : TplUrl := tpl_url_val (default INVALID_URL url).

Definition tpl_attr_url (out : TplOut) (url : TplUrl) : M TplOut :=
  match url_s url with None => mret out | Some s => write_escaped out s end.

(** ** Buffer access *)

Definition tpl_ok (out : TplOut) : bool := negb (to_failed out).

(** The C string at [data]. *)
Definition tpl_str (out : TplOut) : M (bytes * TplOut) :=
  if to_cap out =? 0 then mret ([], out)
  else if zlen (to_data out) =? to_cap out then
    '(ok, out) ← buf_reserve out 1;
    mret (if (ok : bool) then cstr (to_data out) else [], out)
  else mret (cstr (to_data out), out).

Definition tpl_len (out : TplOut) : Z := zlen (to_data out).

(** ** CSS *)

(** A text given by pointer and length; the pointer's string may go on. *)
Definition ci_starts (s : bytes) (len : Z) (prefix : bytes) : bool :=
  (zlen prefix <=? len) && starts_with_ci prefix s.

Fixpoint ci_contains (haystack needle : bytes) : bool :=
  match haystack with
  | [] => false
  | _ :: rest => starts_with_ci needle haystack || ci_contains rest needle
  end.

Definition isalpha (c : Z) : bool := is_alpha c.
Definition isalnum (c : Z) : bool := is_alpha c || is_digit c.

Definition css_prop_valid (s : bytes) : bool :=
  match s with
  | [] => false
  | c :: rest => (isalpha c || (c =? "-"%ch)) && forallb (λ c, isalnum c || (c =? "-"%ch)) rest
  end.

(** What stands behind the first [url(]. *)
Fixpoint find_url (v : bytes) : option bytes :=
  if starts_with_ci (str "url(") v then Some (zdrop 4 v)
  else match v with [] => None | _ :: v => find_url v end.

(** A round per [url(...)]; the fuel is the length of the value. *)
Fixpoint css_url_unsafe_loop (fuel : nat) (v : bytes) : bool :=
  match fuel with
  | O => false
  | S fuel =>
      match find_url v with
      | None => false
      | Some v =>
          let '(inner, rest) := span (λ c, negb (c =? ")"%ch)) v in
          match rest with
          | [] => true
          | _ :: rest =>
              if has_chr ":"%ch inner
                 && negb (ci_starts inner (zlen inner) (str "http://"))
                 && negb (ci_starts inner (zlen inner) (str "https://"))
                 && negb (ci_starts inner (zlen inner) (str "data:image"))
              then true
              else css_url_unsafe_loop fuel rest
          end
      end
  end.

Definition css_url_unsafe (v : bytes) : bool := css_url_unsafe_loop (S (length v)) v.

Definition css_bad_char (c : Z) : bool :=
  (c <? 0x20) || (c =? 0x7f) || (c =? "<"%ch) || (c =? ">"%ch).

(** The value at the pointer [v], [len] bytes: when they reach the end of the
    string, the scan of the characters stops at its NUL. *)
Definition css_value_unsafe (v : bytes) (len : Z) : bool :=
  if existsb css_bad_char (ztake len (v ++ [NUL])) then true
  else
    let v := ztake len v in
    ci_contains v (str "javascript:") || ci_contains v (str "vbscript:")
    || ci_contains v (str "expression(") || ci_contains v (str "behavior:")
    || ci_contains v (str "@import") || css_url_unsafe v.

(** The text up to the next [;] outside parentheses, and what is left. *)
Fixpoint css_span (paren : Z) (s : bytes) : bytes * bytes :=
  match s with
  | [] => ([], [])
  | c :: r =>
      if (0 <? paren) || negb (c =? ";"%ch) then
        let paren := if c =? "("%ch then paren + 1 else if c =? ")"%ch then paren - 1 else paren in
        let '(d, r) := css_span paren r in (c :: d, r)
      else ([], s)
  end.

(** The next declaration: its trimmed text, the string from it on, and what is
    behind its semicolon. *)
Definition css_decl (s : bytes) : bytes * bytes * bytes :=
  let '(raw, rest) := css_span 0 s in
  let led := skip_while isspace raw in
  (rtrim isspace led, zdrop (zlen raw - zlen led) s, match rest with [] => [] | _ :: rest => rest end).

Definition not_colon (c : Z) : bool := negb (c =? ":"%ch).

(** Whether a declaration is safe, the way [css_all_safe] asks: the length of the
    value is counted from the trimmed name, so blanks in front of the colon make
    it reach behind the declaration. *)
Definition css_decl_safe (d ptr : bytes) : bool :=
  match span not_colon d with
  | (_, []) => false
  | (name, _ :: _) =>
      let prop := rtrim isspace name in
      let value := zdrop (zlen name + 1) ptr in
      let value_len := zlen d - zlen prop - 1 in
      css_prop_valid prop && negb (css_value_unsafe value value_len)
  end.

Fixpoint css_all_safe_loop (fuel : nat) (s : bytes) : bool :=
  match fuel, s with
  | O, _ | _, [] => true
  | S fuel, _ =>
      let '(d, ptr, rest) := css_decl s in
      if zlen d =? 0 then css_all_safe_loop fuel rest
      else if css_decl_safe d ptr then css_all_safe_loop fuel rest else false
  end.

(** A declaration takes a character at least. *)
Definition css_all_safe (s : bytes) : bool := css_all_safe_loop (length s) s.

(** What [css_rebuild] writes for a declaration. *)
Definition css_text (d : bytes) : bytes :=
  match span not_colon d with
  | (_, []) => str "zctmplUnsafeCSS"
  | (prop, _ :: value) =>
      if negb (css_prop_valid prop) then str "zctmplUnsafeCSS"
      else if css_value_unsafe value (zlen value) then prop ++ str ":zctmplUnsafeCSS"
      else d
  end.

(** [buf] is what is written; [snprintf] cuts at the end of the block. *)
Fixpoint css_rebuild_loop (fuel : nat) (s : bytes) (cap : Z) (first : bool) (buf : bytes) : bytes :=
  match fuel, s with
  | O, _ | _, [] => buf
  | S fuel, _ =>
      let '(d, _, rest) := css_decl s in
      if zlen d =? 0 then css_rebuild_loop fuel rest cap first buf
      else if negb first && (cap <=? zlen buf + 2) then buf
      else
        let buf := (if first then buf else buf ++ str "; ") ++ css_text d in
        if cap <=? zlen buf then ztake (cap - 1) buf
        else css_rebuild_loop fuel rest cap false buf
  end.

Definition css_rebuild (s : bytes) (cap : Z) : bytes := css_rebuild_loop (length s) s cap true [].

Definition tpl_css (out : TplOut) (declarations : option bytes) : M (TplCss * TplOut) :=
  let empty := {| css_s := Some [] |} in
  match declarations with
  | None => mret (empty, out)
  | Some declarations =>
      if css_all_safe declarations then mret ({| css_s := Some declarations |}, out)
      else
        let seps := 1 + zlen (List.filter (λ c, c =? ";"%ch) declarations) in
        let cap := zlen declarations + seps * 32 + 1 in
        '(buf, out) ← arena_alloc out cap;
        match buf with
        | None => mret (empty, set_to_failed true out)
        | Some _ => mret ({| css_s := Some (css_rebuild declarations cap) |}, out)
        end
  end.

Definition tpl_css_safe (declarations : option bytes) : TplCss :=
  {| css_s := Some (default [] declarations) |}.

Definition tpl_attr_css (out : TplOut) (css : TplCss) : M TplOut :=
  match css_s css with None => mret out | Some s => write_escaped out s end.

(** ** Fragments *)

Definition tpl_frag_select (out : TplOut) (name : option bytes) : TplOut :=
  set_to_frag_match 0 (set_to_frag_depth 0 (set_to_frag_sel name out)).

Definition tpl_frag_begin (out : TplOut) (name : option bytes) : TplOut :=
  match to_frag_sel out with
  | None => out
  | Some sel =>
      let out := set_to_frag_depth (to_frag_depth out + 1) out in
      if 0 <? to_frag_match out then out
      else
        match name with
        | Some name => if streq sel name then set_to_frag_match (to_frag_depth out) out else out
        | None => out
        end
  end.

Definition tpl_frag_end (out : TplOut) : TplOut :=
  match to_frag_sel out with
  | None => out
  | Some _ =>
      let out := set_to_frag_depth (to_frag_depth out - 1) out in
      if to_frag_depth out <? to_frag_match out then set_to_frag_match 0 out else out
  end.

(** ** Once blocks *)

Definition tpl_once_begin (out : TplOut) (handle : TplOnce) : M (bool * TplOut) :=
  if existsb (Z.eqb handle) (to_once_fired out) then mret (false, out)
  else
    '(fired, out) ← arena_alloc out ((zlen (to_once_fired out) + 1) * POINTER_SIZE);
    match fired with
    | None => mret (false, out)
    | Some offset =>
        let out := set_to_misaligned
                     (to_misaligned out || negb ((ARENA_HEADER + offset) mod POINTER_SIZE =? 0)) out in
        mret (true, set_to_once_fired (to_once_fired out ++ [handle]) out)
    end.

(** ** The response *)

Definition http_res_html (res : HttpResponse) (status : Z) (out : TplOut) : M (Z * HttpResponse) :=
  if negb (tpl_ok out) then mret (-1, res)
  else http_res_body res status (Some (str "text/html"))
         (if to_cap out =? 0 then None else Some (to_data out)) (zlen (to_data out)).

(** ** The invariant of an output *)

Definition block_ok (b : TplArenaBlock) : Prop := 0 <= ab_used b <= ab_cap b.

(** What is written fits the buffer, and what is handed out fits its block. *)
Record out_ok (out : TplOut) : Prop := {
  ook_len : zlen (to_data out) <= to_cap out;
  ook_cap : to_cap out <= SIZE_MAX;
  ook_arena : Forall block_ok (to_arena out);
}.

Lemma empty_out_ok : out_ok empty_out.
Proof. split; [done|done|constructor]. Qed.

(** Everything but the buffer and its state is the same. *)
Definition same_frame (out out' : TplOut) : Prop :=
  to_arena out' = to_arena out ∧ to_frag_sel out' = to_frag_sel out ∧
  to_frag_depth out' = to_frag_depth out ∧ to_frag_match out' = to_frag_match out ∧
  to_once_fired out' = to_once_fired out ∧ to_misaligned out' = to_misaligned out.

#[export] Instance same_frame_preorder : PreOrder same_frame.
Proof. split; [by intros ?|]. unfold same_frame. intros ???; intuition congruence. Qed.

(** Writes reach the buffer: nothing is selected, or a matching fragment is open. *)
Definition keeping (out : TplOut) : Prop := to_frag_sel out = None ∨ 0 < to_frag_match out.

#[export] Instance keeping_dec out : Decision (keeping out).
Proof. unfold keeping. apply _. Defined.

Lemma same_frame_keeping out out' : same_frame out out' → keeping out ↔ keeping out'.
Proof. intros (_ & H1 & _ & H2 & _). unfold keeping. by rewrite H1, H2. Qed.

(** What a write of [s] does: nothing while discarding; otherwise a prefix of [s] is
    appended, all of it unless the output has failed.  With memory it does not
    fail. *)
Definition writes (s : bytes) (m : TplOut → M TplOut) : Prop :=
  ∀ out w, out_ok out →
  let r := m out w in
  out_ok r.1 ∧ same_frame out r.1 ∧
  (¬ keeping out → to_data r.1 = to_data out ∧ to_failed r.1 = to_failed out) ∧
  (to_failed out = true → to_data r.1 = to_data out ∧ to_failed r.1 = true) ∧
  (∃ t u, s = t ++ u ∧ (keeping out → to_data r.1 = to_data out ++ t) ∧ (to_failed r.1 = false → u = [])) ∧
  (w_alloc w = [] → to_failed out = false → zlen (to_data out) + zlen s <= SIZE_MAX →
   to_failed r.1 = false ∧ r.2 = w).

Lemma writes_ret : writes [] mret.
Proof.
  intros out w Hok. cbn. split; [done|]. split; [done|]. split; [done|]. split; [done|].
  split; [|done]. exists [], []. split; [done|]. split; [|done]. intros _. by rewrite app_nil_r.
Qed.

Lemma writes_bind s s' m m' : writes s m → writes s' m' → writes (s ++ s') (λ out, m out ≫= m').
Proof.
  intros Hm Hm' out w Hok. rewrite bind_run. unfold result, world.
  destruct (Hm out w Hok) as (O1 & F1 & D1 & X1 & (t & u & -> & T1 & U1) & A1).
  set (out1 := (m out w).1) in *. set (w1 := (m out w).2) in *.
  destruct (Hm' out1 w1 O1) as (O2 & F2 & D2 & X2 & (t' & u' & -> & T2 & U2) & A2).
  set (out2 := (m' out1 w1).1) in *. pose proof (same_frame_keeping _ _ F1) as Hk.
  split; [done|]. split; [by etrans|]. split.
  { intros Hn. destruct (D1 Hn) as [E1 E2]. rewrite Hk in Hn. destruct (D2 Hn) as [E3 E4].
    split; congruence. }
  split.
  { intros Hf. destruct (X1 Hf) as [E1 E2]. destruct (X2 E2) as [E3 E4]. split; congruence. }
  split.
  - destruct (to_failed out1) eqn:Ef.
    + destruct (X2 eq_refl) as [E3 E4]. exists t, (u ++ t' ++ u'). split; [by rewrite <- app_assoc|].
      split; [|congruence]. intros Hkeep. rewrite E3. auto.
    + specialize (U1 eq_refl). subst u. rewrite app_nil_r. exists (t ++ t'), u'.
      split; [by rewrite app_assoc|]. split; [|done]. intros Hkeep.
      rewrite T2, T1 by (rewrite <- ?Hk; done). by rewrite app_assoc.
  - intros Hw Hf Hl. rewrite !zlen_app in *. pose proof (zlen_nonneg t'). pose proof (zlen_nonneg u').
    destruct A1 as [A1 A1']; [done|done|lia|]. destruct A2 as [A2 A2']; [by rewrite A1'|done| |by rewrite A2', A1'].
    specialize (U1 A1). subst u. rewrite zlen_nil in *.
    destruct (decide (keeping out)) as [Hkeep|Hkeep].
    + rewrite T1, zlen_app by done. lia.
    + destruct (D1 Hkeep) as [-> _]. pose proof (zlen_nonneg t). lia.
Qed.

(** ** The buffer *)

Lemma tpl_grow_cap_bounds fuel cap need :
  0 < cap <= SIZE_MAX → need <= SIZE_MAX → SIZE_MAX < cap * 2 ^ Z.of_nat fuel →
  need <= tpl_grow_cap fuel cap need <= SIZE_MAX.
Proof.
  revert cap. induction fuel as [|fuel IH]; intros cap Hc Hn Hf; cbn [tpl_grow_cap].
  - change (2 ^ Z.of_nat 0) with 1 in Hf. lia.
  - rewrite Nat2Z.inj_succ, Z.pow_succ_r in Hf by lia.
    case_if; breflect; [|lia]. case_if; breflect; [lia|]. apply IH; [|done|lia].
    assert (SIZE_MAX / 2 * 2 <= SIZE_MAX) by done. lia.
Qed.

Lemma buf_reserve_spec out len w :
  out_ok out → 0 <= len →
  let r := buf_reserve out len w in
  out_ok r.1.2 ∧ same_frame out r.1.2 ∧ to_data r.1.2 = to_data out ∧
  r.1.1 = negb (to_failed r.1.2) ∧ (to_failed out = true → to_failed r.1.2 = true) ∧
  (r.1.1 = true → zlen (to_data out) + len <= to_cap r.1.2) ∧
  (w_alloc w = [] → to_failed out = false → zlen (to_data out) + len <= SIZE_MAX →
   r.1.1 = true ∧ r.2 = w).
Proof.
  intros Hok Hlen. destruct Hok as [Hl Hc Ha]. unfold buf_reserve.
  destruct (to_failed out) eqn:Ef; [by cbn; rewrite Ef|].
  case_if; breflect.
  { cbn. split; [by split|]. split; [done|]. split; [done|]. split; [done|]. split; [done|]. split; [done|].
    intros. lia. }
  case_if; breflect.
  { cbn. rewrite Ef. split; [by split|]. split; [done|]. split; [done|]. split; [done|]. split; [done|]. split; [lia|done]. }
  set (cap := tpl_grow_cap 64 _ _). pose proof (zlen_nonneg (to_data out)).
  assert (zlen (to_data out) + len <= cap <= SIZE_MAX) as Hcap.
  { apply tpl_grow_cap_bounds; [case_if; breflect; unfold SIZE_MAX in *; lia|lia|].
    change (2 ^ Z.of_nat 64) with (SIZE_MAX + 1). case_if; breflect; unfold SIZE_MAX in *; lia. }
  rewrite bind_run. unfold result, world. destruct (malloc w) as [[] w1] eqn:Em;
    cbn [fst snd negb mret M_ret].
  - split; [split; cbn [set_to_cap to_data to_cap to_arena]; try done; lia|].
    cbn [set_to_cap to_data to_cap to_failed]. rewrite Ef. do 4 (split; [done|]). split; [lia|].
    intros Hw _ _. split; [done|]. by rewrite (malloc_ok w Hw) in Em; injection Em as ->.
  - split; [by split|]. do 4 (split; [done|]). split; [done|].
    intros Hw. by rewrite (malloc_ok w Hw) in Em.
Qed.

Lemma writes_lit_n s : writes (default [] s) (λ out, tpl_lit_n out s).
Proof.
  destruct s as [s|]; [|apply writes_ret]. cbn [default from_option id].
  intros out w Hok. unfold tpl_lit_n. case_if; breflect.
  { assert (s = []) as -> by (apply zlen_nil_inv; lia). apply (writes_ret out w Hok). }
  destruct (bool_decide (to_frag_sel out ≠ None) && (to_frag_match out <=? 0)) eqn:Ed.
  { breflect. assert (¬ keeping out) as Hn by (intros [?|?]; [done|lia]). cbn.
    do 4 (split; [done|]). split; [|done]. exists s, []. rewrite app_nil_r. by do 2 (split; [done|]). }
  assert (keeping out) as Hk.
  { unfold keeping. apply andb_false_iff in Ed as [Ed|Ed]; breflect; [|by right].
    left. destruct (to_frag_sel out); [by destruct Ed|done]. }
  rewrite bind_run. unfold result, world.
  pose proof (buf_reserve_spec out (zlen s) w Hok (zlen_nonneg s)) as H. cbv zeta in H.
  destruct (buf_reserve out (zlen s) w) as [[ok out1] w1]. cbn [fst snd] in *.
  destruct H as (O1 & F1 & D1 & E1 & X1 & R1 & A1). subst ok.
  destruct (to_failed out1) eqn:Ef; rewrite ?Ef in R1, A1; cbn [negb] in *; cbn.
  - rewrite Ef, D1. do 2 (split; [done|]). split; [done|]. split; [done|].
    split; [|intros Hw Hf Hl; by destruct (A1 Hw Hf Hl)].
    exists [], s. by rewrite app_nil_r.
  - specialize (R1 eq_refl). destruct O1 as [O1 O2 O3]. split.
    { split; cbn; [|done|done]. by rewrite zlen_app, D1. }
    split; [done|]. split; [done|]. rewrite D1, Ef. split; [intros Hf; specialize (X1 Hf); congruence|].
    split; [exists s, []; rewrite app_nil_r; done|]. intros Hw Hf Hl. by destruct (A1 Hw Hf Hl).
Qed.

Lemma writes_lit s : writes (default [] s) (λ out, tpl_lit out s).
Proof. destruct s as [s|]; [apply (writes_lit_n (Some s))|apply writes_ret]. Qed.

(** ** Escaping *)

(** The entities of a text, character by character. *)
Definition esc_char (c : Z) : bytes := default [c] (tpl_entities c).
Definition html_escape (s : bytes) : bytes := concat (map esc_char s).

(** A browser's reading of the five entities. *)
Fixpoint html_unescape (s : bytes) : bytes :=
  match s with
  | "&"%ch :: "a"%ch :: "m"%ch :: "p"%ch :: ";"%ch :: r => "&"%ch :: html_unescape r
  | "&"%ch :: "l"%ch :: "t"%ch :: ";"%ch :: r => "<"%ch :: html_unescape r
  | "&"%ch :: "g"%ch :: "t"%ch :: ";"%ch :: r => ">"%ch :: html_unescape r
  | "&"%ch :: "#"%ch :: "3"%ch :: "4"%ch :: ";"%ch :: r => DQUOTE :: html_unescape r
  | "&"%ch :: "#"%ch :: "3"%ch :: "9"%ch :: ";"%ch :: r => "'"%ch :: html_unescape r
  | c :: r => c :: html_unescape r
  | [] => []
  end.

Lemma escape_char_iff c : has_chr c TPL_ESCAPE_CHARS = true ↔ tpl_entities c ≠ None.
Proof.
  unfold tpl_entities. cbn. rewrite orb_false_r.
  repeat match goal with |- context [c =? ?x] => destruct (Z.eqb_spec c x); [by split|] end. by split.
Qed.

Lemma html_escape_plain s :
  Forall (λ c, negb (has_chr c TPL_ESCAPE_CHARS) = true) s → html_escape s = s.
Proof.
  intros H. induction H as [|c s Hc _ IH]; [done|]. unfold html_escape in *. cbn [map concat].
  rewrite IH. unfold esc_char. destruct (tpl_entities c) eqn:E; [|done].
  assert (has_chr c TPL_ESCAPE_CHARS = true) as Hh by (apply escape_char_iff; by rewrite E).
  by rewrite Hh in Hc.
Qed.

Lemma html_escape_app s t : html_escape (s ++ t) = html_escape s ++ html_escape t.
Proof. unfold html_escape. by rewrite map_app, concat_app. Qed.

Lemma writes_escaped s : writes (html_escape s) (λ out, write_escaped out s).
Proof.
  unfold write_escaped. assert (∃ n, n = S (length s) ∧ (length s < n)%nat) as (n & <- & Hn) by eauto.
  revert s Hn. induction n as [|n IH]; intros s Hn; [lia|]. cbn [write_escaped_loop].
  destruct (span (λ c, negb (has_chr c TPL_ESCAPE_CHARS)) s) as [chunk rest] eqn:Es.
  pose proof (span_forall _ _ _ _ Es) as Hplain. pose proof (span_stop _ _ _ _ Es) as Hstop.
  apply span_app in Es. subst s. rewrite html_escape_app, (html_escape_plain chunk) by done.
  destruct rest as [|hit rest].
  { cbn [html_escape map concat]. rewrite app_nil_r. apply (writes_lit_n (Some chunk)). }
  destruct Hstop as [?|(c & r & [= <- <-] & Hhit)]; [done|]. apply negb_false_iff, escape_char_iff in Hhit.
  assert (html_escape (hit :: rest) = default [] (tpl_entities hit) ++ html_escape rest) as ->.
  { unfold html_escape at 1. cbn [map concat]. unfold esc_char. by destruct (tpl_entities hit). }
  apply (writes_bind chunk _ (λ out, tpl_lit_n out (Some chunk))); [apply (writes_lit_n (Some chunk))|].
  apply writes_bind; [apply writes_lit_n|]. apply IH. rewrite length_app in Hn. simpl in Hn. lia.
Qed.

Lemma writes_esc s : writes (html_escape (default [] s)) (λ out, tpl_esc out s).
Proof. destruct s as [s|]; [apply writes_escaped|apply writes_ret]. Qed.

Lemma html_unescape_escape_char c r : html_unescape (esc_char c ++ r) = c :: html_unescape r.
Proof.
  unfold esc_char, tpl_entities.
  repeat match goal with |- context [c =? ?x] => destruct (Z.eqb_spec c x); [by subst|] end.
  cbn [default from_option app].
  destruct c as [|p|p]; try done. do 6 (destruct p as [p|p|]; try done).
Qed.

Lemma html_unescape_escape s : html_unescape (html_escape s) = s.
Proof.
  induction s as [|c s IH]; [done|]. unfold html_escape. cbn [map concat].
  fold (html_escape s). by rewrite html_unescape_escape_char, IH.
Qed.

(** No character that ends a text or a quoted attribute value. *)
Definition markup_free (s : bytes) : Prop :=
  Forall (λ c, c ≠ "<"%ch ∧ c ≠ ">"%ch ∧ c ≠ DQUOTE ∧ c ≠ "'"%ch) s.

Lemma html_escape_markup_free s : markup_free (html_escape s).
Proof.
  unfold markup_free, html_escape. induction s as [|c s IH]; [constructor|]. cbn [map concat].
  apply Forall_app. split; [|done]. unfold esc_char, tpl_entities.
  repeat match goal with |- context [c =? ?x] => destruct (Z.eqb_spec c x); [decided|] end.
  constructor; [done|constructor].
Qed.

(** C38: every escaping writer (text, attribute, URL and CSS attribute values) only appends,
    what it appends has none of the characters that could end the text or the quoted value, and unless
    memory ran out, which the failure flag tells, a browser reads exactly the given value back. *)
Theorem escaped_round_trip s writer out w :
  writer ∈ [ λ o, tpl_esc o (Some s); λ o, tpl_attr o (Some s);
             λ o, tpl_attr_url o {| url_s := Some s |}; λ o, tpl_attr_css o {| css_s := Some s |} ] →
  out_ok out → keeping out →
  let r := (writer out w).1 in
  ∃ t, to_data r = to_data out ++ t ∧ markup_free t ∧ out_ok r ∧
    (tpl_ok r = true → html_unescape t = s).
Proof.
  intros Hin Hok Hk r.
  assert (writer = λ o, write_escaped o s) as ->.
  { rewrite !elem_of_cons, elem_of_nil in Hin. by repeat destruct Hin as [->|Hin]. }
  destruct (writes_escaped s out w Hok) as (O1 & _ & _ & _ & (t & u & E & T & U) & _). fold r in O1, T, U.
  exists t. split; [auto|]. split.
  { pose proof (html_escape_markup_free s) as H. rewrite E in H. by apply Forall_app in H as [? _]. }
  split; [done|]. intros Hr. unfold tpl_ok in Hr. apply negb_true_iff in Hr. rewrite (U Hr), app_nil_r in E.
  by rewrite <- E, html_unescape_escape.
Qed.

Lemma escaped_round_trip_witness :
  let s := str "<a href='x'>R&D</a>" in
  let r := (tpl_attr empty_out (Some s) quiet_world).1 in
  to_data r = str "&lt;a href=&#39;x&#39;&gt;R&amp;D&lt;/a&gt;" ∧
  ∃ t, to_data r = to_data empty_out ++ t ∧ markup_free t ∧ out_ok r ∧
    (tpl_ok r = true → html_unescape t = s).
Proof.
  intros s r. split; [vm_compute; reflexivity|].
  apply (escaped_round_trip s (λ o, tpl_attr o (Some s)) empty_out quiet_world).
  - right. left.
  - exact empty_out_ok.
  - left. reflexivity.
Defined.

(** ** Components

    What a generated component does: literals, escaped values and fragment blocks,
    properly nested. *)

Inductive Markup :=
  | MNil
  | MLit (s : bytes) (next : Markup)
  | MEsc (s : bytes) (next : Markup)
  | MFrag (name : bytes) (body next : Markup).

Fixpoint render (m : Markup) (out : TplOut) : M TplOut :=
  match m with
  | MNil => mret out
  | MLit s next => out ← tpl_lit out (Some s); render next out
  | MEsc s next => out ← tpl_esc out (Some s); render next out
  | MFrag name body next =>
      out ← render body (tpl_frag_begin out (Some name));
      render next (tpl_frag_end out)
  end.

(** The whole text, and the text of the fragments called [sel]. *)
Fixpoint full_text (m : Markup) : bytes :=
  match m with
  | MNil => []
  | MLit s next => s ++ full_text next
  | MEsc s next => html_escape s ++ full_text next
  | MFrag _ body next => full_text body ++ full_text next
  end.

Fixpoint fragment_text (sel : bytes) (m : Markup) : bytes :=
  match m with
  | MNil => []
  | MLit _ next | MEsc _ next => fragment_text sel next
  | MFrag name body next =>
      (if bool_decide (name = sel) then full_text body else fragment_text sel body)
      ++ fragment_text sel next
  end.

Definition selected_text (sel : option bytes) (m : Markup) : bytes :=
  match sel with None => full_text m | Some sel => fragment_text sel m end.

(** What is kept of [m] by an output in a state of its fragment machine. *)
Definition kept (out : TplOut) (m : Markup) : bytes :=
  if decide (keeping out) then full_text m else default [] ((λ sel, fragment_text sel m) <$> to_frag_sel out).

(** The states between blocks: the open matching block lies at or above this depth. *)
Definition frag_ok (out : TplOut) : Prop := 0 <= to_frag_match out <= to_frag_depth out.

(** Rendering [m] with the machine in the state of [out]. *)
Definition renders (m : Markup) : Prop :=
  ∀ out w, out_ok out → frag_ok out →
  let r := render m out w in
  out_ok r.1 ∧ same_frame out r.1 ∧
  (to_failed out = true → to_data r.1 = to_data out ∧ to_failed r.1 = true) ∧
  (∃ t u, kept out m = t ++ u ∧ to_data r.1 = to_data out ++ t ∧ (to_failed r.1 = false → u = [])) ∧
  (w_alloc w = [] → to_failed out = false → zlen (to_data out) + zlen (full_text m) <= SIZE_MAX →
   to_failed r.1 = false ∧ r.2 = w).

Lemma fragment_text_length sel m : zlen (fragment_text sel m) <= zlen (full_text m).
Proof.
  induction m as [|s m IH|s m IH|name b IHb m IH]; cbn [fragment_text full_text]; rewrite ?zlen_app; [done| | |].
  - pose proof (zlen_nonneg s). lia.
  - pose proof (zlen_nonneg (html_escape s)). lia.
  - case_bool_decide; lia.
Qed.

Lemma kept_length out m : zlen (kept out m) <= zlen (full_text m).
Proof.
  unfold kept. case_decide; [done|]. destruct (to_frag_sel out); [apply fragment_text_length|].
  cbn. apply zlen_nonneg.
Qed.

Lemma same_frame_kept out out' m : same_frame out out' → kept out m = kept out' m.
Proof.
  intros H. unfold kept. pose proof (same_frame_keeping _ _ H) as Hk. destruct H as (_ & -> & _).
  by do 2 case_decide; try tauto.
Qed.

Lemma same_frame_frag_ok out out' : same_frame out out' → frag_ok out → frag_ok out'.
Proof. unfold frag_ok. by intros (_ & _ & -> & -> & _). Qed.

(** The buffer side of an output, which the fragment functions leave alone. *)
Definition same_buffer (out out' : TplOut) : Prop :=
  to_data out' = to_data out ∧ to_cap out' = to_cap out ∧ to_failed out' = to_failed out ∧
  to_arena out' = to_arena out.

Lemma same_buffer_ok out out' : same_buffer out out' → out_ok out → out_ok out'.
Proof. intros (H1 & H2 & _ & H3) [? ? ?]. split; by rewrite ?H1, ?H2, ?H3. Qed.

Lemma frag_begin_spec out name :
  frag_ok out →
  let out1 := tpl_frag_begin out (Some name) in
  same_buffer out out1 ∧ frag_ok out1 ∧
  (∀ body, kept out1 body =
     if decide (keeping out) then full_text body
     else match to_frag_sel out with
          | Some sel => if bool_decide (name = sel) then full_text body else fragment_text sel body
          | None => []
          end).
Proof.
  intros [Hm Hd]. unfold tpl_frag_begin. destruct (to_frag_sel out) as [sel|] eqn:Es; cbv zeta.
  2: { split; [done|]. split; [done|]. intros body. assert (keeping out) as Hk by by left.
       unfold kept. by rewrite !(decide_True (P := keeping out)). }
  set (out1 := set_to_frag_depth _ _). change (to_frag_match out1) with (to_frag_match out).
  case_if; breflect.
  { split; [done|]. split; [unfold frag_ok; cbn; lia|]. intros body.
    assert (keeping out ∧ keeping out1) as [? ?] by (split; by right).
    unfold kept. by rewrite !decide_True. }
  assert (¬ keeping out) as Hk by (unfold keeping; rewrite Es; intros [?|?]; [done|lia]).
  destruct (streq sel name) eqn:En.
  - apply streq_true in En as <-. split; [done|]. split; [unfold frag_ok; cbn; lia|]. intros body.
    rewrite (decide_False (P := keeping out)), bool_decide_true by done.
    unfold kept. rewrite decide_True; [done|]. right. cbn. lia.
  - apply streq_false in En. split; [done|]. split; [unfold frag_ok; cbn; lia|]. intros body.
    rewrite (decide_False (P := keeping out)), bool_decide_false by congruence.
    unfold kept. rewrite decide_False.
    + cbn. by rewrite Es.
    + unfold keeping. cbn. rewrite Es. intros [?|?]; [done|lia].
Qed.

Lemma frag_end_spec out name out2 :
  frag_ok out → same_frame (tpl_frag_begin out (Some name)) out2 →
  same_buffer out2 (tpl_frag_end out2) ∧ same_frame out (tpl_frag_end out2).
Proof.
  intros [Hm Hd] (H1 & H2 & H3 & H4 & H5 & H6). unfold tpl_frag_begin in *. unfold tpl_frag_end, same_frame.
  destruct (to_frag_sel out) as [sel|] eqn:Es.
  - assert (to_frag_sel out2 = Some sel ∧ to_arena out2 = to_arena out ∧ to_frag_depth out2 = to_frag_depth out + 1 ∧
      to_once_fired out2 = to_once_fired out ∧ to_misaligned out2 = to_misaligned out ∧
      ((0 < to_frag_match out ∧ to_frag_match out2 = to_frag_match out) ∨
       (to_frag_match out = 0 ∧ (to_frag_match out2 = 0 ∨ to_frag_match out2 = to_frag_depth out + 1))))
      as (G1 & G2 & G3 & G4 & G5 & G6).
    { cbn in *. destruct (Z.ltb_spec 0 (to_frag_match out)); [|destruct (streq sel name)];
        cbn in *; split_and!; try congruence; lia. }
    rewrite G1. split.
    + by case_if; cbn.
    + cbn. case_if; breflect; cbn; cbn in Heqb; split_and!; try congruence; lia.
  - rewrite H2, Es. split; [done|]. cbn in *. split_and!; congruence.
Qed.

Lemma renders_write s f m next :
  writes s f → renders next → (∀ out, render m out = f out ≫= render next) →
  full_text m = s ++ full_text next →
  (∀ sel, fragment_text sel m = fragment_text sel next) → renders m.
Proof.
  intros Hf Hn Er Et Es out w Hok Hfr. rewrite Er, bind_run. unfold result, world.
  destruct (Hf out w Hok) as (O1 & F1 & D1 & X1 & (t & u & E1 & T1 & U1) & A1).
  destruct (f out w) as [out1 w1]. cbn [fst snd] in *.
  destruct (Hn out1 w1 O1 (same_frame_frag_ok _ _ F1 Hfr)) as (O2 & F2 & X2 & (t' & u' & E2 & T2 & U2) & A2).
  destruct (render next out1 w1) as [out2 w2]. cbn [fst snd] in *.
  split; [done|]. split; [by etrans|]. split.
  { intros H. destruct (X1 H) as [E3 E4]. destruct (X2 E4) as [E5 E6]. split; congruence. }
  rewrite <- (same_frame_kept _ _ _ F1) in E2.
  assert (kept out m = (if decide (keeping out) then s else []) ++ kept out next) as Hkept.
  { unfold kept. case_decide; [done|]. destruct (to_frag_sel out); cbn; [by rewrite Es|done]. }
  split.
  - rewrite Hkept. destruct (decide (keeping out)) as [Hk|Hk].
    + destruct (to_failed out1) eqn:Ef.
      * destruct (X2 eq_refl) as [E3 E4]. exists t, (u ++ kept out next). rewrite E1, <- app_assoc.
        split; [done|]. split; [by rewrite E3, T1|congruence].
      * rewrite (U1 eq_refl), app_nil_r in E1. exists (t ++ t'), u'. rewrite E1, E2, app_assoc.
        split; [done|]. split; [|done]. by rewrite T2, T1, app_assoc.
    + destruct (D1 Hk) as [E3 _]. exists t', u'. split; [done|]. split; [congruence|done].
  - intros Hw Hff Hl. rewrite Et, zlen_app in Hl. pose proof (zlen_nonneg (full_text next)).
    destruct A1 as [A1 ->]; [done|done|lia|]. apply A2; [done|done|].
    destruct (decide (keeping out)) as [Hk|Hk].
    + rewrite (U1 A1), app_nil_r in E1. rewrite T1, zlen_app by done. subst t. lia.
    + destruct (D1 Hk) as [-> _]. pose proof (zlen_nonneg s). lia.
Qed.

Lemma renders_nil : renders MNil.
Proof.
  intros out w Hok Hf. cbn. split; [done|]. split; [done|]. split; [done|]. split; [|done].
  exists [], []. split; [|by rewrite app_nil_r]. unfold kept. case_decide; [done|]. by destruct (to_frag_sel out).
Qed.

Lemma renders_frag name body next :
  renders body → renders next → renders (MFrag name body next).
Proof.
  intros Hb Hn out w Hok Hfr. cbn [render]. rewrite bind_run. unfold result, world.
  destruct (frag_begin_spec out name Hfr) as ((B1 & B2 & B3 & B4) & Hfr1 & Hkept).
  pose proof (same_buffer_ok out _ (conj B1 (conj B2 (conj B3 B4))) Hok) as Hok1.
  destruct (Hb _ w Hok1 Hfr1) as (O1 & F1 & X1 & (t & u & E1 & T1 & U1) & A1).
  destruct (render body (tpl_frag_begin out (Some name)) w) as [out2 w2]. cbn [fst snd] in *.
  destruct (frag_end_spec out name out2 Hfr F1) as [(C1 & C2 & C3 & C4) F2].
  pose proof (same_buffer_ok out2 _ (conj C1 (conj C2 (conj C3 C4))) O1) as Hok2.
  destruct (Hn _ w2 Hok2 (same_frame_frag_ok _ _ F2 Hfr)) as (O3 & F3 & X3 & (t' & u' & E3 & T3 & U3) & A3).
  destruct (render next (tpl_frag_end out2) w2) as [out3 w3]. cbn [fst snd] in *.
  rewrite <- (same_frame_kept _ _ _ F2) in E3. rewrite C1, C3, ?B1, ?B3 in *.
  assert (kept out (MFrag name body next) = kept (tpl_frag_begin out (Some name)) body ++ kept out next) as Ek.
  { rewrite Hkept. unfold kept. case_decide; [done|]. by destruct (to_frag_sel out). }
  split; [done|]. split; [by etrans|]. split.
  { intros H. destruct (X1 H) as [E4 E5]. destruct (X3 E5) as [E6 E7]. split; congruence. }
  split.
  - rewrite Ek. destruct (to_failed out2) eqn:Ef.
    + destruct (X3 eq_refl) as [E4 E5]. exists t, (u ++ kept out next). rewrite E1, <- app_assoc.
      split; [done|]. split; [congruence|congruence].
    + rewrite (U1 eq_refl), app_nil_r in E1. exists (t ++ t'), u'. rewrite E1, E3, app_assoc.
      split; [done|]. split; [|done]. by rewrite T3, T1, app_assoc.
  - intros Hw Hff Hl. cbn [full_text] in Hl. rewrite zlen_app in Hl.
    pose proof (zlen_nonneg (full_text next)). pose proof (zlen_nonneg (full_text body)).
    destruct A1 as [A1 ->]; [done|done|lia|]. apply A3; [done|done|].
    rewrite (U1 A1), app_nil_r in E1. rewrite T1, zlen_app. subst t.
    pose proof (kept_length (tpl_frag_begin out (Some name)) body). lia.
Qed.

Lemma render_spec m : renders m.
Proof.
  induction m as [|s m IH|s m IH|name b IHb m IH].
  - apply renders_nil.
  - eapply renders_write; [apply (writes_lit (Some s))|exact IH|done|done|done].
  - eapply renders_write; [apply (writes_esc (Some s))|exact IH|done|done|done].
  - by apply renders_frag.
Qed.

Lemma kept_selected sel m : kept (tpl_frag_select empty_out sel) m = selected_text sel m.
Proof.
  unfold kept, keeping, selected_text. cbn. destruct sel as [sel|]; cbn; case_decide as Hk; try done.
  - destruct Hk as [?|?]; [done|lia].
  - destruct Hk. by left.
Qed.

Lemma render_selected sel m w :
  zlen (full_text m) <= SIZE_MAX →
  let r := render m (tpl_frag_select empty_out sel) w in
  out_ok r.1 ∧
  (∃ u, selected_text sel m = to_data r.1 ++ u) ∧
  (tpl_ok r.1 = true → to_data r.1 = selected_text sel m) ∧
  (w_alloc w = [] → tpl_ok r.1 = true ∧ r.2 = w) ∧
  to_frag_depth r.1 = 0 ∧ to_frag_match r.1 = 0.
Proof.
  intros Hl r. set (out := tpl_frag_select empty_out sel) in *.
  assert (out_ok out) as Hok by (split; [done|done|constructor]).
  assert (frag_ok out) as Hf by (unfold frag_ok; cbn; lia).
  destruct (render_spec m out w Hok Hf) as (O1 & F1 & _ & (t & u & E1 & T1 & U1) & A1). fold r in O1, F1, T1, U1, A1.
  pose proof (kept_selected sel m) as Ek. fold out in Ek.
  change (to_data out) with (@nil Z) in T1. cbn [app] in T1. rewrite <- T1, Ek in E1.
  unfold tpl_ok. split; [done|]. split; [by exists u|]. split.
  { intros H. apply negb_true_iff in H. by rewrite E1, (U1 H), app_nil_r. }
  split; [|by destruct F1 as (_ & _ & -> & -> & _)].
  intros Hw. rewrite negb_true_iff. apply A1; [done|done|]. change (to_data out) with (@nil Z). rewrite zlen_nil. lia.
Qed.

(** C37: rendering a component into a fresh output with a fragment selected leaves exactly
    the text of the fragments of that name, in order and with everything nested in them, and nothing
    else; without a selection, the whole text, values escaped.  When memory runs out the buffer holds a
    prefix of it and the failure flag is set; with memory it succeeds. *)
Theorem render_selects sel m w :
  zlen (full_text m) <= SIZE_MAX →
  let r := render m (tpl_frag_select empty_out sel) w in
  out_ok r.1 ∧
  (∃ u, selected_text sel m = to_data r.1 ++ u) ∧
  (tpl_ok r.1 = true → to_data r.1 = selected_text sel m) ∧
  (w_alloc w = [] → tpl_ok r.1 = true) ∧
  to_frag_depth r.1 = 0 ∧ to_frag_match r.1 = 0.
Proof.
  intros Hl r. destruct (render_selected sel m w Hl) as (H1 & H2 & H3 & H4 & H5).
  split_and!; try done; [|by destruct H5..]. intros Hw. by destruct (H4 Hw).
Qed.

Definition demo_page : Markup :=
  MLit (str "<ul>") (MFrag (str "row") (MLit (str "<li>") (MFrag (str "cell") (MEsc (str "a<b") MNil)
    (MLit (str "</li>") MNil))) (MFrag (str "row") (MEsc (str "c") MNil) (MLit (str "</ul>") MNil))).

Lemma render_selects_witness :
  let r := render demo_page (tpl_frag_select empty_out (Some (str "row"))) quiet_world in
  to_data r.1 = str "<li>a&lt;b</li>c" ∧ out_ok r.1 ∧ tpl_ok r.1 = true.
Proof.
  intros r. split; [vm_compute; reflexivity|].
  destruct (render_selects (Some (str "row")) demo_page quiet_world ltac:(decided)) as (H1 & _ & _ & H4 & _).
  split; [exact H1 | apply H4; reflexivity].
Defined.

(** ** The arena *)

(** Scratch memory lies within the current block, behind everything handed out of it
    before; the output itself is not touched, except that a failure is noted. *)
Lemma arena_alloc_spec out len w :
  out_ok out → 0 <= len →
  let r := arena_alloc out len w in
  out_ok r.1.2 ∧ to_data r.1.2 = to_data out ∧ to_once_fired r.1.2 = to_once_fired out ∧
  (r.1.1 = None → to_failed r.1.2 = true ∧ w_alloc w ≠ []) ∧
  (∀ offset, r.1.1 = Some offset →
     to_failed r.1.2 = to_failed out ∧ ∃ b rest, to_arena r.1.2 = b :: rest ∧ 0 <= offset ∧
       offset + len = ab_used b ∧ block_ok b) ∧
  (w_alloc w = [] → r.2 = w).
Proof.
  intros Hok Hlen. destruct Hok as [Hl Hc Ha]. unfold arena_alloc.
  assert (∀ b rest, block_ok b → ab_used b + len <= ab_cap b → Forall block_ok rest →
    let r := arena_take b rest out len in
    out_ok r.2 ∧ to_data r.2 = to_data out ∧ to_once_fired r.2 = to_once_fired out ∧
    to_failed r.2 = to_failed out ∧ r.1 = Some (ab_used b) ∧
    ∃ b' rest', to_arena r.2 = b' :: rest' ∧ 0 <= ab_used b ∧ ab_used b + len = ab_used b' ∧ block_ok b') as Htake.
  { intros b rest [Hb1 Hb2] Hfit Hrest. assert (block_ok {| ab_used := ab_used b + len; ab_cap := ab_cap b |})
      as Hb' by (split; cbn; lia).
    cbn. split; [split; cbn; try done; by constructor|]. do 4 (split; [done|]). by eexists _, _. }
  assert (∀ w', let r := arena_fresh out len w' in
    out_ok r.1.2 ∧ to_data r.1.2 = to_data out ∧ to_once_fired r.1.2 = to_once_fired out ∧
    (r.1.1 = None → to_failed r.1.2 = true ∧ w_alloc w' ≠ []) ∧
    (∀ offset, r.1.1 = Some offset →
       to_failed r.1.2 = to_failed out ∧ ∃ b rest, to_arena r.1.2 = b :: rest ∧ 0 <= offset ∧
         offset + len = ab_used b ∧ block_ok b) ∧ (w_alloc w' = [] → r.2 = w')) as Hfresh.
  { intros w'. unfold arena_fresh. cbv zeta. rewrite bind_run. unfold result, world.
    set (cap := if TPL_ARENA_BLOCK_SIZE <? len then len else TPL_ARENA_BLOCK_SIZE).
    assert (0 <= cap ∧ len <= cap) as [Hcap1 Hcap2].
    { unfold cap, TPL_ARENA_BLOCK_SIZE. case_if; breflect; lia. }
    destruct (malloc w') as [[] w1] eqn:Em; cbn [fst snd negb mret M_ret].
    - destruct (Htake {| ab_used := 0; ab_cap := cap |} (to_arena out)) as (G1 & G2 & G3 & G4 & G5 & G6);
        [split; cbn; lia|cbn; lia|done|]. split; [done|]. split; [done|]. split; [done|].
      split; [by rewrite G5|]. split; [|intros Hw; by rewrite (malloc_ok w' Hw) in Em; injection Em as ->].
      intros o Ho. rewrite G5 in Ho. injection Ho as <-. done.
    - split; [by split|]. do 2 (split; [done|]). split; [|split; [done|]].
      + intros _. split; [done|]. intros Hw. by rewrite (malloc_ok w' Hw) in Em.
      + intros Hw. by rewrite (malloc_ok w' Hw) in Em. }
  destruct (to_arena out) as [|b rest] eqn:Eb; [apply Hfresh|].
  case_if; breflect; [apply Hfresh|]. apply Forall_cons in Ha as [Hb Hrest].
  destruct (Htake b rest) as (G1 & G2 & G3 & G4 & G5 & G6); [done|lia|done|]. cbn [fst snd mret M_ret].
  split; [done|]. split; [done|]. split; [done|]. split; [by rewrite G5|]. split; [|done].
  intros o Ho. rewrite G5 in Ho. by injection Ho as <-.
Qed.

(** ** URLs *)

(** [scheme = ALPHA *( ALPHA / DIGIT / "+" / "-" / "." )] of RFC 3986. *)
Definition is_scheme (name : bytes) : Prop :=
  is_alpha (deref name) = true ∧ Forall (λ c, scheme_char c = true) name.

(** No control character, and no scheme but the three. *)
Definition url_allowed (u : bytes) : Prop :=
  Forall (λ c, 0x20 <= c ∧ c ≠ 0x7f) u ∧
  ∀ name rest, u = name ++ ":"%ch :: rest → is_scheme name →
    map tolower name ∈ [str "http"; str "https"; str "mailto"].

Definition trim_url (url : bytes) : bytes := rtrim is_url_space (skip_while is_url_space url).

Lemma trim_url_split url :
  ∃ l r, url = l ++ trim_url url ++ r ∧ skip_while is_url_space url = trim_url url ++ r.
Proof.
  unfold trim_url, skip_while. destruct (span is_url_space url) as [a b] eqn:E. apply span_app in E.
  destruct (rtrim_prefix is_url_space b) as (r & Hr & _). exists a, r. cbn [snd]. by rewrite <- Hr.
Qed.

Lemma trim_url_whole url : zlen (trim_url url) = zlen url → trim_url url = url.
Proof.
  destruct (trim_url_split url) as (l & r & E & _). intros H. pose proof (f_equal zlen E) as Hz.
  rewrite !zlen_app in Hz. pose proof (zlen_nonneg l). pose proof (zlen_nonneg r).
  assert (l = []) as -> by (apply zlen_nil_inv; lia). assert (r = []) as -> by (apply zlen_nil_inv; lia).
  cbn in E. by rewrite app_nil_r in E.
Qed.

Lemma scheme_no_colon name : Forall (λ c, scheme_char c = true) name →
  Forall (λ c, negb (c =? ":"%ch) = true) name.
Proof.
  intros H. eapply Forall_impl; [exact H|]. intros c Hc. cbn in *. apply negb_true_iff, Z.eqb_neq.
  by intros ->.
Qed.

(** The scheme of a text is unique. *)
Lemma scheme_split name rest name' rest' :
  name ++ ":"%ch :: rest = name' ++ ":"%ch :: rest' → is_scheme name → is_scheme name' →
  name = name' ∧ rest = rest'.
Proof.
  intros E [_ H] [_ H'].
  assert (∀ n r, Forall (λ c, scheme_char c = true) n →
    span (λ c, negb (c =? ":"%ch)) (n ++ ":"%ch :: r) = (n, ":"%ch :: r)) as Hspan.
  { intros n r Hn. apply span_app_stop; [by apply scheme_no_colon|]. right. by eexists _, _. }
  pose proof (Hspan name rest H) as G. rewrite E, Hspan in G by done. by injection G as -> ->.
Qed.

Lemma has_scheme_spec s :
  match has_scheme s with
  | Some n => ∃ name rest, s = name ++ ":"%ch :: rest ∧ is_scheme name ∧ n = zlen name + 1
  | None => ∀ name rest, s = name ++ ":"%ch :: rest → ¬ is_scheme name
  end.
Proof.
  assert (∀ name rest, s = name ++ ":"%ch :: rest → is_scheme name →
    span (λ c, negb (c =? ":"%ch)) s = (name, ":"%ch :: rest)) as Hspan.
  { intros name rest -> [_ Hn]. apply span_app_stop; [by apply scheme_no_colon|]. right. by eexists _, _. }
  assert (∀ name, is_scheme name → ∃ c r, name = c :: r ∧ is_alpha c = true) as Hne.
  { intros [|c r] [Hc _]; [done|by exists c, r]. }
  unfold has_scheme. destruct s as [|c s']; [intros name rest E; by destruct name|]. set (s := c :: s') in *.
  destruct (is_alpha c) eqn:Ec; cbn [negb].
  2: { intros name rest E Hs. destruct (Hne name Hs) as (c' & r & -> & Hc'). injection E as <- _. congruence. }
  destruct (span (λ c, negb (c =? ":"%ch)) s) as [name rest] eqn:Es.
  destruct (forallb scheme_char name) eqn:Ef; cbn [negb].
  - assert (Forall (λ c, scheme_char c = true) name) as Ef' by by apply List.Forall_forall, forallb_forall.
    destruct rest as [|d rest].
    + intros name' rest' E Hs. discriminate (Hspan _ _ E Hs).
    + exists name, rest. destruct (span_stop _ _ _ _ Es) as [?|(c' & r & [= <- <-] & Hd)]; [done|].
      apply negb_false_iff, Z.eqb_eq in Hd as ->. split; [by eapply span_app|]. split; [|done]. split; [|done].
      apply span_app in Es. destruct name as [|c' name]; [|by injection Es as <- _].
      cbn in Es. injection Es as -> _. done.
  - intros name' rest' E Hs. injection (Hspan _ _ E Hs) as -> ->.
    destruct Hs as [_ Hs]. assert (forallb scheme_char name' = true); [|congruence].
    by apply forallb_forall, List.Forall_forall.
Qed.

Lemma scheme_equals_spec name rest want :
  scheme_equals (name ++ ":"%ch :: rest) (zlen name + 1) (want ++ str ":") = streq (map tolower name) want.
Proof.
  unfold scheme_equals. rewrite zlen_app. change (zlen (str ":")) with 1.
  assert (ztake (zlen name + 1) (name ++ ":"%ch :: rest) = name ++ str ":") as ->.
  { replace (name ++ ":"%ch :: rest) with ((name ++ str ":") ++ rest) by by rewrite <- app_assoc.
    replace (zlen name + 1) with (zlen (name ++ str ":")) by by rewrite zlen_app.
    apply ztake_app_length. }
  rewrite map_app. change (map tolower (str ":")) with (str ":").
  destruct (streq (map tolower name) want) eqn:E.
  - apply streq_true in E as <-. rewrite zlen_map, Z.eqb_refl, streq_refl. done.
  - apply andb_false_iff. right. apply streq_false. apply streq_false in E.
    intros H. apply app_inj_tail in H as [H _]. done.
Qed.

Lemma url_is_safe_spec u : url_is_safe u (zlen u) = true ↔ url_allowed u.
Proof.
  unfold url_is_safe, url_allowed. rewrite ztake_all, andb_true_iff by lia.
  assert (negb (existsb (λ c, (c <? 0x20) || (c =? 0x7f)) u) = true ↔
    Forall (λ c, 0x20 <= c ∧ c ≠ 0x7f) u) as ->.
  { rewrite negb_true_iff. induction u as [|c u IH]; [by split|]. cbn [existsb].
    rewrite orb_false_iff, Forall_cons, IH, orb_false_iff, Z.ltb_ge, Z.eqb_neq. done. }
  pose proof (has_scheme_spec u) as Hs. destruct (has_scheme u) as [n|].
  - destruct Hs as (name & rest & E & Hname & ->).
    assert (scheme_equals u (zlen name + 1) (str "http:") || scheme_equals u (zlen name + 1) (str "https:")
      || scheme_equals u (zlen name + 1) (str "mailto:") = true ↔
      map tolower name ∈ [str "http"; str "https"; str "mailto"]) as ->.
    { rewrite E. change (str "http:") with (str "http" ++ str ":").
      change (str "https:") with (str "https" ++ str ":").
      change (str "mailto:") with (str "mailto" ++ str ":").
      rewrite !scheme_equals_spec, !orb_true_iff, !streq_true, !elem_of_cons, elem_of_nil. tauto. }
    split; [|by intros [H1 H2]; split; [eapply H2|]].
    intros [H1 H2]. split; [done|]. intros name' rest' E' Hname'. assert (name' = name) as ->; [|done].
    rewrite E in E'. apply scheme_split in E' as [-> _]; [done|done|done].
  - split; intros [H1 H2]; (split; [done|]); [|done]. intros name rest E Hn. by destruct (Hs name rest E).
Qed.



(** ** Once blocks *)

(** The answers to a sequence of once blocks. *)
Fixpoint once_all (handles : list TplOnce) (out : TplOut) : M (list bool * TplOut) :=
  match handles with
  | [] => mret ([], out)
  | h :: handles =>
      '(fires, out) ← tpl_once_begin out h;
      '(rest, out) ← once_all handles out;
      mret (fires :: rest, out)
  end.

(** The handles whose block was rendered. *)
Fixpoint fired_handles (handles : list TplOnce) (answers : list bool) : list TplOnce :=
  match handles, answers with
  | h :: handles, b :: answers => (if (b : bool) then [h] else []) ++ fired_handles handles answers
  | _, _ => []
  end.

Fixpoint first_uses (seen handles : list TplOnce) : list bool :=
  match handles with
  | [] => []
  | h :: handles => negb (existsb (Z.eqb h) seen) :: first_uses (seen ++ [h]) handles
  end.

Lemma existsb_eqb h l : existsb (Z.eqb h) l = true ↔ h ∈ l.
Proof.
  rewrite existsb_exists. split.
  - intros (x & Hx & E). apply Z.eqb_eq in E as ->. by apply list_elem_of_In.
  - intros H. exists h. split; [by apply list_elem_of_In|apply Z.eqb_refl].
Qed.

(** [first_uses] only asks which handles were seen. *)
Lemma first_uses_ext seen seen' handles :
  (∀ h, h ∈ seen ↔ h ∈ seen') → first_uses seen handles = first_uses seen' handles.
Proof.
  revert seen seen'. induction handles as [|h handles IH]; intros seen seen' H; [done|]. cbn [first_uses].
  assert (existsb (Z.eqb h) seen = existsb (Z.eqb h) seen') as ->.
  { apply eq_true_iff_eq. by rewrite !existsb_eqb. }
  f_equal. apply IH. intros x. rewrite !elem_of_app, H. done.
Qed.

Lemma once_begin_spec out h w :
  out_ok out → NoDup (to_once_fired out) →
  let r := tpl_once_begin out h w in
  out_ok r.1.2 ∧ NoDup (to_once_fired r.1.2) ∧ to_data r.1.2 = to_data out ∧
  to_once_fired r.1.2 = to_once_fired out ++ (if (r.1.1 : bool) then [h] else []) ∧
  (w_alloc w = [] → r.2 = w ∧ r.1.1 = negb (existsb (Z.eqb h) (to_once_fired out))).
Proof.
  intros Hok Hnd. unfold tpl_once_begin. destruct (existsb (Z.eqb h) (to_once_fired out)) eqn:Ex.
  { cbn. rewrite app_nil_r. done. }
  rewrite bind_run. unfold result, world.
  destruct (arena_alloc_spec out ((zlen (to_once_fired out) + 1) * POINTER_SIZE) w Hok) as (O1 & D1 & F1 & N1 & S1 & A1).
  { pose proof (zlen_nonneg (to_once_fired out)). unfold POINTER_SIZE. lia. }
  destruct (arena_alloc _ _ w) as [[[off|] out1] w1]; cbn [fst snd mret M_ret] in *.
  - split; [by destruct O1|]. split.
    + cbn. rewrite F1. apply NoDup_app. split; [done|]. split; [|apply NoDup_singleton].
      intros x Hx Hx'. apply list_elem_of_singleton in Hx' as ->. apply existsb_eqb in Hx. congruence.
    + split; [done|]. cbn. rewrite F1. split; [done|]. intros Hw. by rewrite A1.
  - split; [done|]. rewrite F1. split; [done|]. split; [done|]. split; [by rewrite app_nil_r|].
    intros Hw. by destruct N1.
Qed.

(** A once block is rendered at most once per handle and render, whatever fails; and with
    memory exactly the first block of every handle is, in any interleaving of handles. *)
Lemma once_fires_once handles out w :
  out_ok out → NoDup (to_once_fired out) →
  let r := (once_all handles out w).1 in
  NoDup (to_once_fired out ++ fired_handles handles r.1) ∧
  (w_alloc w = [] → r.1 = first_uses (to_once_fired out) handles) ∧
  to_data r.2 = to_data out.
Proof.
  cbv zeta. revert out w. induction handles as [|h handles IH]; intros out w Hok Hnd.
  { cbn. rewrite app_nil_r. done. }
  cbn [once_all]. rewrite bind_run. unfold result, world.
  pose proof (once_begin_spec out h w Hok Hnd) as H. cbv zeta in H.
  destruct (tpl_once_begin out h w) as [[fires out1] w1]. cbn [fst snd] in *.
  destruct H as (O1 & N1 & D1 & F1 & A1). rewrite bind_run. unfold result, world. cbn [fst snd].
  specialize (IH out1 w1 O1 N1). destruct (once_all handles out1 w1) as [[rest out2] w2].
  cbn [fst snd mret M_ret fired_handles] in *. destruct IH as (I1 & I2 & I3).
  rewrite app_assoc, <- F1. split; [done|]. split; [|congruence].
  intros Hw. destruct (A1 Hw) as [-> Eb]. rewrite (I2 Hw). cbn [first_uses]. rewrite <- Eb. f_equal.
  apply first_uses_ext. intros x. rewrite F1. destruct fires; [done|].
  rewrite !elem_of_app, elem_of_nil, list_elem_of_singleton. symmetry in Eb.
  apply negb_false_iff, existsb_eqb in Eb. split; [tauto|]. by intros [?| ->]; left.
Qed.

(** A pointer is stored behind the 21 bytes of a number: not at a multiple of its
    size. *)
Lemma once_registry_misaligned :
  let r := (tpl_int empty_out 7 quiet_world).1 in
  let o := (tpl_once_begin r.2 1 quiet_world).1 in
  r.1 = str "7" ∧ o.1 = true ∧ to_misaligned r.2 = false ∧ to_misaligned o.2 = true.
Proof. vm_compute. auto. Qed.

(** ** The response *)

Lemma http_res_html_run res status out w :
  response_ok res → res_encoded_body res = None → out_ok out →
  let '(rc, res') := result (http_res_html res status out) w in
  (rc = 0 ∧ tpl_ok out = true ∧ is_valid_status_code status = true ∧ res_status res' = status ∧
   select_body res' = to_data out ∧
   hs_items (res_headers res') = hs_items (res_headers res)
     ++ [{| h_key := str "Content-Type"; h_value := str "text/html" |}])
  ∨ (rc = -1 ∧ res_status res' = res_status res ∧ select_body res' = select_body res).
Proof.
  intros Hok He Ho. unfold http_res_html. destruct (tpl_ok out); cbn [negb]; [|by right].
  assert (result (http_res_body res status (Some (str "text/html"))
            (if to_cap out =? 0 then None else Some (to_data out)) (zlen (to_data out))) w
          = result (http_res_body res status (Some (str "text/html")) (Some (to_data out)) (zlen (to_data out))) w) as ->.
  { case_if; [|done]. breflect. pose proof (ook_len out Ho). pose proof (zlen_nonneg (to_data out)).
    assert (to_data out = []) as -> by (apply zlen_nil_inv; lia). reflexivity. }
  pose proof (http_res_body_spec res status (str "text/html") (to_data out) w Hok He) as H.
  destruct (result _ w) as [rc res']. destruct H as [(H1 & H2 & H3 & H4 & H5)|H]; [left; by split_and!|by right].
Qed.

Lemma http_res_html_succeeds res status out w :
  w_alloc w = [] → tpl_ok out = true → is_valid_status_code status = true → out_ok out →
  (result (http_res_html res status out) w).1 = 0.
Proof.
  intros Hw Ht Hs Ho. unfold http_res_html. rewrite Ht. cbn [negb]. unfold http_res_body. rewrite Hs.
  assert (bool_decide ((if to_cap out =? 0 then None else Some (to_data out)) = None) && (0 <? zlen (to_data out))
    = false) as ->.
  { case_if; [|done]. breflect. pose proof (ook_len out Ho). apply andb_false_iff. right. by apply Z.ltb_ge; lia. }
  change (false || negb true || (deref (str "text/html") =? NUL)) with false. cbn iota.
  unfold result. rewrite bind_run. unfold result, world, http_set_res_header.
  destruct (only_allocates_set_header (res_headers res) (Some (str "Content-Type")) (Some (str "text/html")) w)
    as [_ Hsame]. specialize (Hsame Hw).
  destruct (apply_header_append (res_headers res) (str "Content-Type") (str "text/html") w Hw) as [Hrc _];
    [reflexivity|reflexivity|].
  unfold http_set_header, result, world in *. rewrite !bind_run in *. unfold result, world in *.
  rewrite bind_run in *. unfold result, world in *.
  destruct (apply_header (res_headers res) (str "Content-Type") (str "text/html") w) as [[rc hs] w1].
  cbn [fst snd mret M_ret] in *. subst rc w1. change (0 <? 0) with false. cbn iota.
  case_if; [done|]. by mrun_ok Hw.
Qed.

(** Rendering a component and answering with http_res_html gives the response the status
    asked for, one more Content-Type field and as its body exactly the selected text, or -1 with status
    and body as they were; and with memory and a valid status it succeeds. *)
Lemma http_res_html_serves sel m res status w :
  response_ok res → res_encoded_body res = None → zlen (full_text m) <= SIZE_MAX →
  let rendered := render m (tpl_frag_select empty_out sel) w in
  let r := result (http_res_html res status rendered.1) rendered.2 in
  ((r.1 = 0 ∧ res_status r.2 = status ∧ select_body r.2 = selected_text sel m ∧
    hs_items (res_headers r.2) = hs_items (res_headers res)
      ++ [{| h_key := str "Content-Type"; h_value := str "text/html" |}])
   ∨ (r.1 = -1 ∧ res_status r.2 = res_status res ∧ select_body r.2 = select_body res)) ∧
  (w_alloc w = [] → is_valid_status_code status = true → r.1 = 0).
Proof.
  intros Hok He Hl. pose proof (render_selected sel m w Hl) as H. cbv zeta in *.
  destruct (render m (tpl_frag_select empty_out sel) w) as [out w1] eqn:Er. cbn [fst snd] in *.
  destruct H as (Ho & _ & Hsel & Hmem & _).
  pose proof (http_res_html_run res status out w1 Hok He Ho) as Hr.
  pose proof (http_res_html_succeeds res status out w1) as Hs.
  destruct (result (http_res_html res status out) w1) as [rc res']. cbn [fst snd] in *. split.
  - destruct Hr as [(H1 & H2 & H3 & H4 & H5 & H6)|?]; [left|by right].
    split; [done|]. split; [done|]. split; [|done]. by rewrite H5, Hsel.
  - intros Hw Hv. destruct (Hmem Hw) as [Ht ->]. by apply Hs.
Qed.

(** A long body whose copy fails: -1, but the field is already in the response. *)
Lemma html_failure_leaves_field :
  let out := set_to_cap 8192 (set_to_data (replicate 4096 "a"%ch) empty_out) in
  let r := result (http_res_html empty_response 200 out) (with_alloc [true; true; true; false] quiet_world) in
  r.1 = -1 ∧ hs_items (res_headers r.2) = [{| h_key := str "Content-Type"; h_value := str "text/html" |}].
Proof. vm_compute. auto. Qed.

(** A blank inside a URL passes. *)
Lemma url_inner_blank :
  url_s (tpl_url empty_out (Some (str "http://a/b c")) quiet_world).1.1 = Some (str "http://a/b c").
Proof. vm_compute. reflexivity. Qed.
