(* ===== verification/TplCss.v ===== *)
(** * The CSS sanitizer of the templates

    [tpl_css] of [src/src/c_http_tpl.c]: what a browser finds when it reads the
    sanitized text, and that the block it is built in is large enough. *)

From S2P Require Import Prelude CLib World Headers Tpl.
#[local] Open Scope Z_scope.

(** ** Declarations *)

(** The declarations of a text, as a browser splits it: at semicolons outside
    parentheses, trimmed, without the empty ones. *)
Fixpoint css_decls (fuel : nat) (s : bytes) : list bytes :=
  match fuel, s with
  | O, _ | _, [] => []
  | S fuel, _ =>
      let '(d, _, rest) := css_decl s in
      (if zlen d =? 0 then [] else [d]) ++ css_decls fuel rest
  end.

Definition css_declarations (s : bytes) : list bytes := css_decls (length s) s.

(** The parenthesis count behind a text, and that no semicolon of the text ends a
    declaration. *)
Definition paren_step (p c : Z) : Z :=
  if c =? "("%ch then p + 1 else if c =? ")"%ch then p - 1 else p.

Fixpoint paren_after (p : Z) (s : bytes) : Z :=
  match s with [] => p | c :: r => paren_after (paren_step p c) r end.

Fixpoint scans (p : Z) (s : bytes) : bool :=
  match s with [] => true | c :: r => ((0 <? p) || negb (c =? ";"%ch)) && scans (paren_step p c) r end.

Lemma paren_after_app p a b : paren_after p (a ++ b) = paren_after (paren_after p a) b.
Proof. revert p. induction a as [|c a IH]; intros p; [done|]. apply IH. Qed.

Lemma scans_app p a b : scans p (a ++ b) = scans p a && scans (paren_after p a) b.
Proof. revert p. induction a as [|c a IH]; intros p; [done|]. cbn. by rewrite IH, andb_assoc. Qed.

(** What ends a declaration: the end, or a semicolon outside parentheses. *)
Definition ends_decl (p : Z) (b : bytes) : Prop := b = [] ∨ ∃ r, b = ";"%ch :: r ∧ p <= 0.

Lemma css_span_spec p s a b :
  css_span p s = (a, b) ↔ s = a ++ b ∧ scans p a = true ∧ ends_decl (paren_after p a) b.
Proof.
  revert p a b. induction s as [|c s IH]; intros p a b; cbn [css_span].
  { split.
    - intros [= <- <-]. split; [done|]. split; [done|by left].
    - intros (E & _). symmetry in E. apply app_eq_nil in E as [-> ->]. done. }
  fold (paren_step p c). destruct ((0 <? p) || negb (c =? ";"%ch)) eqn:Ec.
  - destruct (css_span (paren_step p c) s) as [a' b'] eqn:Es. split.
    + intros [= <- <-]. apply IH in Es as (-> & H1 & H2). cbn. by rewrite Ec.
    + intros (E & H1 & H2). destruct a as [|c' a].
      * cbn in *. destruct H2 as [->|(r & -> & Hp)]; [done|]. injection E as -> ->.
        rewrite orb_false_r in Ec. breflect. lia.
      * injection E as -> E. cbn in H1, H2. apply andb_true_iff in H1 as [_ H1].
        assert (css_span (paren_step p c') s = (a, b)) as G by by apply IH.
        rewrite Es in G. by injection G as -> ->.
  - breflect. subst c. split.
    + intros [= <- <-]. split; [done|]. split; [done|]. right. by exists s.
    + intros (E & H1 & H2). destruct a as [|c' a]; [by cbn in E; rewrite E|].
      injection E as <- E. cbn in H1. apply andb_true_iff in H1 as [H1 _].
      rewrite orb_false_r in H1. breflect. lia.
Qed.

(** Blanks move nothing. *)
Lemma space_scans p l : Forall (λ c, isspace c = true) l → scans p l = true ∧ paren_after p l = p.
Proof.
  intros H. induction H as [|c l Hc _ IH]; [done|]. cbn.
  assert (c ≠ ";"%ch ∧ c ≠ "("%ch ∧ c ≠ ")"%ch) as (H1 & H2 & H3) by (split_and!; by intros ->).
  assert (paren_step p c = p) as ->.
  { unfold paren_step. by rewrite (proj2 (Z.eqb_neq _ _) H2), (proj2 (Z.eqb_neq _ _) H3). }
  rewrite (proj2 (Z.eqb_neq _ _) H1), orb_true_r. done.
Qed.

Lemma skip_while_split P s : ∃ l, s = l ++ skip_while P s ∧ Forall (λ c, P c = true) l.
Proof.
  unfold skip_while. destruct (span P s) as [a b] eqn:E. exists a.
  split; [by apply span_app in E|by eapply span_forall].
Qed.

(** Nothing to trim. *)
Definition trimmed (d : bytes) : Prop := skip_while isspace d = d ∧ rtrim isspace d = d.

Lemma rtrim_idem P s : rtrim P (rtrim P s) = rtrim P s.
Proof. destruct (rtrim_prefix P s) as (t & E & Ht). rewrite E at 2. by rewrite rtrim_app_trim. Qed.

Lemma css_decl_spec s :
  let '(d, ptr, rest) := css_decl s in
  ∃ l t b, s = l ++ d ++ t ++ b ∧ ptr = d ++ t ++ b ∧
    Forall (λ c, isspace c = true) l ∧ Forall (λ c, isspace c = true) t ∧
    scans 0 d = true ∧ ends_decl (paren_after 0 d) b ∧ rest = match b with [] => [] | _ :: r => r end ∧
    rtrim isspace d = d ∧ (d ≠ [] → skip_while isspace d = d).
Proof.
  unfold css_decl. destruct (css_span 0 s) as [raw b] eqn:Es. apply css_span_spec in Es as (-> & Hs & He).
  destruct (skip_while_split isspace raw) as (l & Hl & Hls).
  destruct (rtrim_prefix isspace (skip_while isspace raw)) as (t & Ht & Hts).
  set (d := rtrim isspace (skip_while isspace raw)) in *. exists l, t, b.
  assert (raw = l ++ d ++ t) as Er by by rewrite <- Ht.
  assert (zlen raw - zlen (skip_while isspace raw) = zlen l) as Hz.
  { rewrite Hl at 1. rewrite zlen_app. lia. }
  rewrite Hz. rewrite Er at 1 2. rewrite Er, !scans_app in Hs. rewrite Er, !paren_after_app in He.
  destruct (space_scans 0 l Hls) as [_ Hp]. rewrite Hp in *.
  apply andb_true_iff in Hs as [_ Hs]. apply andb_true_iff in Hs as [Hs _].
  destruct (space_scans (paren_after 0 d) t Hts) as [_ Hp']. rewrite Hp' in He.
  rewrite <- !app_assoc. split; [done|]. split; [by rewrite zdrop_app_length|].
  do 2 (split; [done|]). split; [done|]. split; [done|]. split; [done|]. split.
  - unfold d. by rewrite rtrim_idem.
  - intros Hne. destruct d as [|c d'] eqn:Ed; [done|].
    destruct (skip_while_stop isspace raw) as [E|(c' & r & E & Hc)]; rewrite E in Ht.
    + symmetry in Ht. apply app_eq_nil in Ht as [? _]. done.
    + injection Ht as -> _. by apply skip_while_id.
Qed.

(** Behind a declaration there is less left; the fuel is not missed. *)
Lemma css_decl_shorter s d ptr rest :
  css_decl s = (d, ptr, rest) → s ≠ [] → (length rest < length s)%nat.
Proof.
  intros E Hs. pose proof (css_decl_spec s) as H. rewrite E in H.
  destruct H as (l & t & b & -> & _ & _ & _ & _ & _ & -> & _). rewrite !length_app.
  destruct b as [|c b]; simpl; [|lia]. destruct l, d, t; simpl in *; try lia. done.
Qed.

Lemma css_decls_fuel n s : (length s ≤ n)%nat → css_decls n s = css_declarations s.
Proof.
  unfold css_declarations. revert s. induction n as [n IH] using lt_wf_ind. intros s Hn.
  destruct s as [|c s]; [by destruct n|]. destruct n as [|n]; [simpl in Hn; lia|].
  cbn [css_decls length]. destruct (css_decl (c :: s)) as [[d ptr] rest] eqn:E.
  pose proof (css_decl_shorter _ _ _ _ E ltac:(done)) as Hl. cbn [length] in *. f_equal.
  rewrite IH by lia. destruct (decide (length s = n)) as [<-|Hne].
  - symmetry. apply IH; lia.
  - symmetry. apply IH; lia.
Qed.

Lemma css_declarations_step s :
  s ≠ [] → let '(d, ptr, rest) := css_decl s in
  css_declarations s = (if zlen d =? 0 then [] else [d]) ++ css_declarations rest.
Proof.
  intros Hs. destruct (css_decl s) as [[d ptr] rest] eqn:E. pose proof (css_decl_shorter _ _ _ _ E Hs) as Hl.
  unfold css_declarations at 1. destruct s as [|c s]; [done|]. cbn [css_decls length]. rewrite E. f_equal.
  apply css_decls_fuel. simpl in Hl. lia.
Qed.

(** What a browser may do with a value: nothing with scripts. *)
Definition css_patterns : list bytes :=
  [str "javascript:"; str "vbscript:"; str "expression("; str "behavior:"; str "@import"].

Definition clean_value (v : bytes) : Prop :=
  Forall (λ c, css_bad_char c = false) v ∧
  ∀ p a b, p ∈ css_patterns → v = a ++ b → starts_with_ci p b = false.

Definition clean_declaration (t : bytes) : Prop :=
  t = str "zctmplUnsafeCSS" ∨
  ∃ prop blanks value, t = prop ++ blanks ++ ":"%ch :: value ∧ css_prop_valid prop = true ∧
    Forall (λ c, isspace c = true) blanks ∧ clean_value value.

Lemma ci_contains_false h n : n ≠ [] → ci_contains h n = false → ∀ a b, h = a ++ b → starts_with_ci n b = false.
Proof.
  intros Hn. induction h as [|c h IH]; intros Hc a b E.
  - symmetry in E. apply app_eq_nil in E as [-> ->]. by destruct n.
  - cbn [ci_contains] in Hc. apply orb_false_iff in Hc as [H1 H2]. destruct a as [|c' a].
    + cbn in E. by subst b.
    + injection E as -> E. by eapply IH.
Qed.

Lemma starts_with_app_l p b t : starts_with p b = true → starts_with p (b ++ t) = true.
Proof.
  intros H. apply starts_with_true in H as [u ->]. rewrite <- app_assoc. apply starts_with_app.
Qed.

(** What stands at the front of a clean text is clean. *)
Lemma clean_value_prefix v t : clean_value (v ++ t) → clean_value v.
Proof.
  intros [H1 H2]. apply Forall_app in H1 as [H1 _]. split; [done|]. intros p a b Hp ->.
  specialize (H2 p a (b ++ t) Hp ltac:(by rewrite app_assoc)). unfold starts_with_ci in *.
  destruct (starts_with (map tolower p) (map tolower b)) eqn:E; [|done].
  rewrite map_app in H2. by rewrite starts_with_app_l in H2.
Qed.

(** The length given may reach behind the string: then its NUL is found. *)
Lemma css_value_clean v len :
  css_value_unsafe v len = false → len <= zlen v ∧ clean_value (ztake len v).
Proof.
  unfold css_value_unsafe. destruct (existsb css_bad_char (ztake len (v ++ [NUL]))) eqn:E; [done|].
  intros H. assert (len <= zlen v) as Hl.
  { destruct (Z.le_gt_cases len (zlen v)); [done|]. exfalso. rewrite ztake_all in E by zlen_lia.
    assert (existsb css_bad_char (v ++ [NUL]) = true); [|congruence]. apply existsb_exists. exists NUL.
    split; [apply in_or_app; right; by left|done]. }
  split; [done|]. repeat (apply orb_false_iff in H as [H ?]). split.
  - assert (ztake len (v ++ [NUL]) = ztake len v) as Ez.
    { unfold ztake. apply take_app_le. unfold zlen in Hl. lia. }
    rewrite Ez in E. apply Forall_forall. intros c Hc. destruct (css_bad_char c) eqn:Eb; [|done].
    rewrite <- E. symmetry. apply existsb_exists. exists c. split; [by apply list_elem_of_In|done].
  - intros p a b Hp Hab. unfold css_patterns in Hp. rewrite !elem_of_cons, elem_of_nil in Hp.
    destruct Hp as [->|[->|[->|[->|[->|[]]]]]]; eapply ci_contains_false; try done.
Qed.

Lemma css_prop_valid_chars prop :
  css_prop_valid prop = true → prop ≠ [] ∧ Forall (λ c, isalnum c = true ∨ c = "-"%ch) prop.
Proof.
  destruct prop as [|c prop]; [done|]. cbn [css_prop_valid]. rewrite andb_true_iff. intros [H1 H2].
  split; [done|]. constructor.
  - apply orb_true_iff in H1 as [H1|H1]; [left|right; by apply Z.eqb_eq].
    unfold isalnum, isalpha in *. by rewrite H1.
  - apply List.Forall_forall. intros x Hx. rewrite forallb_forall in H2. specialize (H2 x Hx).
    apply orb_true_iff in H2 as [H2|H2]; [by left|right; by apply Z.eqb_eq].
Qed.

Lemma css_text_clean d : clean_declaration (css_text d).
Proof.
  unfold css_text. destruct (span not_colon d) as [prop [|c value]] eqn:Es; [by left|].
  destruct (css_prop_valid prop) eqn:Ep; cbn [negb]; [|by left].
  destruct (span_stop _ _ _ _ Es) as [?|(c' & r & [= <- <-] & Hc)]; [done|].
  unfold not_colon in Hc. apply negb_false_iff, Z.eqb_eq in Hc as ->. apply span_app in Es as ->.
  right. destruct (css_value_unsafe value (zlen value)) eqn:Ev.
  - exists prop, [], (str "zctmplUnsafeCSS"). split; [done|]. split; [done|]. split; [constructor|].
    split; [decided|]. intros p a b Hp Hab.
    assert (ci_contains (str "zctmplUnsafeCSS") p = false) as Hc.
    { unfold css_patterns in Hp. rewrite !elem_of_cons, elem_of_nil in Hp.
      by destruct Hp as [->|[->|[->|[->|[->|[]]]]]]. }
    eapply ci_contains_false; [|exact Hc|exact Hab].
    unfold css_patterns in Hp. rewrite !elem_of_cons, elem_of_nil in Hp.
    by destruct Hp as [->|[->|[->|[->|[->|[]]]]]].
  - exists prop, [], value. split; [done|]. split; [done|]. split; [constructor|].
    apply css_value_clean in Ev as [_ Ev]. by rewrite ztake_all in Ev by lia.
Qed.

Lemma css_decl_safe_clean d more : css_decl_safe d (d ++ more) = true → clean_declaration d.
Proof.
  unfold css_decl_safe. destruct (span not_colon d) as [name [|c value]] eqn:Es; [done|].
  rewrite andb_true_iff, negb_true_iff. intros [Hp Hv].
  destruct (span_stop _ _ _ _ Es) as [?|(c' & r & [= <- <-] & Hc)]; [done|].
  unfold not_colon in Hc. apply negb_false_iff, Z.eqb_eq in Hc as ->. apply span_app in Es as ->.
  destruct (rtrim_prefix isspace name) as (blanks & En & Hb).
  right. exists (rtrim isspace name), blanks, value.
  split; [by rewrite En at 1; rewrite <- app_assoc|]. split; [done|]. split; [done|].
  apply css_value_clean in Hv as [Hl Hv].
  assert (zdrop (zlen name + 1) ((name ++ ":"%ch :: value) ++ more) = value ++ more) as Ez.
  { replace ((name ++ ":"%ch :: value) ++ more) with ((name ++ [":"%ch]) ++ value ++ more)
      by by rewrite <- !app_assoc.
    replace (zlen name + 1) with (zlen (name ++ [":"%ch])) by zlen_lia. apply zdrop_app_length. }
  rewrite Ez in *. rewrite zlen_app, zlen_cons in *.
  assert (zlen name = zlen (rtrim isspace name) + zlen blanks) as Hn by (rewrite En at 1; zlen_lia).
  pose proof (zlen_nonneg blanks). apply clean_value_prefix with (ztake (zlen blanks) more).
  replace (zlen name + (1 + zlen value) - zlen (rtrim isspace name) - 1) with (zlen value + zlen blanks) in Hv by lia.
  assert (ztake (zlen value + zlen blanks) (value ++ more) = value ++ ztake (zlen blanks) more) as <-; [|done].
  unfold ztake, zlen. rewrite Z2Nat.inj_add, !Nat2Z.id by lia. rewrite take_app_add'; done.
Qed.

(** ** The rebuilt text *)

Definition css_more (ts : list bytes) : bytes := concat (map (λ t, str "; " ++ t) ts).
Definition css_join (ts : list bytes) : bytes :=
  match ts with [] => [] | t :: ts => t ++ css_more ts end.

Lemma css_text_length d : d ≠ [] → 0 < zlen (css_text d) <= zlen d + 15.
Proof.
  intros Hd. assert (0 < zlen d) as H0 by (destruct d; [done|]; rewrite zlen_cons; pose proof (zlen_nonneg d); lia).
  assert (zlen (str "zctmplUnsafeCSS") = 15) as H15 by done.
  unfold css_text. destruct (span not_colon d) as [prop [|c value]] eqn:Es; [lia|].
  case_if; [lia|]. case_if; [|lia]. apply span_app in Es as ->. rewrite !zlen_app, !zlen_cons.
  change (zlen (str ":zctmplUnsafeCSS")) with 16. pose proof (zlen_nonneg prop). pose proof (zlen_nonneg value). lia.
Qed.

(** With room for everything, the loop writes every declaration. *)
Lemma css_rebuild_loop_spec fuel s cap (first : bool) buf :
  (length s ≤ fuel)%nat →
  let ts := map css_text (css_declarations s) in
  let out := if first then buf ++ css_join ts else buf ++ css_more ts in
  zlen out < cap → css_rebuild_loop fuel s cap first buf = out.
Proof.
  cbv zeta. revert s first buf. induction fuel as [|fuel IH]; intros s first buf Hf Hcap.
  { destruct s; [|simpl in Hf; lia]. destruct first; cbn; by rewrite app_nil_r. }
  destruct s as [|c s0] eqn:Es; [destruct first; cbn; by rewrite app_nil_r|].
  rewrite <- Es in *. assert (s ≠ []) as Hs by by rewrite Es.
  assert (css_rebuild_loop (S fuel) s cap first buf =
    let '(d, _, rest) := css_decl s in
    if zlen d =? 0 then css_rebuild_loop fuel rest cap first buf
    else if negb first && (cap <=? zlen buf + 2) then buf
    else let buf := (if first then buf else buf ++ str "; ") ++ css_text d in
         if cap <=? zlen buf then ztake (cap - 1) buf
         else css_rebuild_loop fuel rest cap false buf) as -> by by rewrite Es.
  pose proof (css_declarations_step s Hs) as Hstep. destruct (css_decl s) as [[d ptr] rest] eqn:E.
  pose proof (css_decl_shorter _ _ _ _ E Hs) as Hl. rewrite Hstep in Hcap |- *.
  destruct (Z.eqb_spec (zlen d) 0) as [Hz|Hz]; [apply IH; [lia|exact Hcap]|].
  assert (d ≠ []) as Hd by (intros ->; done). pose proof (css_text_length d Hd) as Ht.
  cbn [app map] in *. set (out := if first then _ else _) in *.
  assert (out = ((if first then buf else buf ++ str "; ") ++ css_text d)
                ++ css_more (map css_text (css_declarations rest))) as Ho.
  { unfold out, css_join, css_more. destruct first; cbn [map concat]; by rewrite <- !app_assoc. }
  rewrite Ho in Hcap |- *. clearbody out. clear Ho. rewrite !zlen_app in Hcap.
  set (more := css_more _) in *. pose proof (zlen_nonneg more).
  assert (negb first && (cap <=? zlen buf + 2) = false) as ->.
  { destruct first; [done|]. cbn [negb andb]. rewrite zlen_app in Hcap. change (zlen (str "; ")) with 2 in Hcap.
    apply Z.leb_gt. lia. }
  cbv zeta. rewrite zlen_app, (proj2 (Z.leb_gt _ _)) by lia. apply (IH rest false); [lia|].
  rewrite !zlen_app. exact Hcap.
Qed.

Definition semicolons (s : bytes) : Z := zlen (List.filter (λ c, c =? ";"%ch) s).

Lemma semicolons_app a b : semicolons (a ++ b) = semicolons a + semicolons b.
Proof. unfold semicolons. rewrite List.filter_app. by rewrite zlen_app. Qed.

(** The bound of [tpl_css]: every declaration takes a separator and a placeholder. *)
Lemma css_more_bound n s :
  (length s ≤ n)%nat →
  zlen (css_more (map css_text (css_declarations s))) <= zlen s + 17 * (1 + semicolons s).
Proof.
  revert s. induction n as [|n IH]; intros s Hn.
  { destruct s; [|simpl in Hn; lia]. done. }
  destruct (decide (s = [])) as [->|Hs]; [done|].
  pose proof (css_declarations_step s Hs) as Hstep. pose proof (css_decl_spec s) as Hd.
  destruct (css_decl s) as [[d ptr] rest] eqn:E. pose proof (css_decl_shorter _ _ _ _ E Hs) as Hl.
  specialize (IH rest ltac:(lia)). rewrite Hstep.
  destruct Hd as (l & t & b & -> & _ & _ & _ & _ & He & -> & _).
  rewrite !zlen_app, !semicolons_app.
  assert (∀ x : bytes, 0 <= zlen x ∧ 0 <= semicolons x) as Hnn by (intros x; split; apply zlen_nonneg).
  destruct (Hnn l), (Hnn t), (Hnn d), (Hnn b).
  assert (zlen (css_more (map css_text (if zlen d =? 0 then [] else [d]))) <= zlen d + 17) as Hd.
  { destruct (Z.eqb_spec (zlen d) 0); [change (0 <= zlen d + 17); lia|]. assert (d ≠ []) as Hne by (intros ->; done).
    pose proof (css_text_length d Hne). unfold css_more. cbn [map concat]. rewrite app_nil_r, zlen_app.
    change (zlen (str "; ")) with 2. lia. }
  unfold css_more in *. rewrite map_app, map_app, concat_app, zlen_app.
  destruct He as [->|(r & -> & _)].
  - cbn in *. lia.
  - assert (zlen (";"%ch :: r) = 1 + zlen r) as -> by apply zlen_cons.
    assert (semicolons (";"%ch :: r) = 1 + semicolons r) as -> by (unfold semicolons; cbn [List.filter]; rewrite Z.eqb_refl; apply zlen_cons).
    lia.
Qed.

Lemma css_join_more ts : zlen (css_join ts) <= zlen (css_more ts).
Proof. destruct ts as [|t ts]; [done|]. unfold css_more. cbn [css_join map concat]. rewrite !zlen_app. unfold css_more. pose proof (zlen_nonneg (str "; ")). lia. Qed.

Lemma css_rebuild_spec s cap :
  zlen s + (1 + semicolons s) * 32 + 1 <= cap →
  css_rebuild s cap = css_join (map css_text (css_declarations s)) ∧ zlen (css_rebuild s cap) < cap.
Proof.
  intros Hcap. set (out := css_join (map css_text (css_declarations s))).
  assert (zlen out < cap) as Hlt.
  { pose proof (css_join_more (map css_text (css_declarations s))) as H1.
    pose proof (css_more_bound (length s) s (le_n _)) as H2. fold out in H1.
    assert (0 <= semicolons s) by apply zlen_nonneg. lia. }
  assert (css_rebuild s cap = out) as ->; [|done].
  apply (css_rebuild_loop_spec (length s) s cap true []); [done|]. exact Hlt.
Qed.

(** ** Reading the result back *)

(** A text that is one declaration, wherever it stands before a separator. *)
Definition decl_closed (d : bytes) : Prop := d ≠ [] ∧ trimmed d ∧ scans 0 d = true.

(** ... and all but the last leave no parenthesis open. *)
Fixpoint decls_closed (ts : list bytes) : Prop :=
  match ts with
  | [] => True
  | t :: ts => decl_closed t ∧ (ts ≠ [] → paren_after 0 t <= 0) ∧ decls_closed ts
  end.

Lemma space_trim l s : Forall (λ c, isspace c = true) l → skip_while isspace (l ++ s) = skip_while isspace s.
Proof.
  intros H. induction H as [|c l Hc _ IH]; [done|]. unfold skip_while in *. cbn [app span].
  rewrite Hc. by destruct (span isspace (l ++ s)).
Qed.

Lemma css_decl_intro l d b :
  Forall (λ c, isspace c = true) l → decl_closed d → ends_decl (paren_after 0 d) b →
  ∃ ptr, css_decl (l ++ d ++ b) = (d, ptr, match b with [] => [] | _ :: r => r end).
Proof.
  intros Hl (Hne & [Ht1 Ht2] & Hs) He. destruct (space_scans 0 l Hl) as [Hl1 Hl2]. unfold css_decl.
  assert (css_span 0 (l ++ d ++ b) = (l ++ d, b)) as ->.
  { apply css_span_spec. split; [by rewrite <- app_assoc|]. rewrite scans_app, paren_after_app, Hl1, Hl2.
    done. }
  rewrite space_trim, Ht1, Ht2 by done. by eexists.
Qed.

Lemma css_declarations_join l ts :
  Forall (λ c, isspace c = true) l → decls_closed ts → css_declarations (l ++ css_join ts) = ts.
Proof.
  revert l. induction ts as [|t ts IH]; intros l Hl Hts.
  { cbn [css_join]. rewrite app_nil_r. clear -Hl.
    assert (css_span 0 l = (l, [])) as Hspan.
    { apply css_span_spec. split; [by rewrite app_nil_r|]. split; [by apply space_scans|by left]. }
    destruct (decide (l = [])) as [->|Hne]; [done|]. pose proof (css_declarations_step l Hne) as H.
    unfold css_decl in H. rewrite Hspan in H. pose proof (space_trim l [] Hl) as Ht.
    rewrite app_nil_r in Ht. rewrite Ht in H. exact H. }
  destruct Hts as (Hc & Hp & Hts). cbn [css_join].
  assert (∃ b, css_more ts = b ∧ ends_decl (paren_after 0 t) b ∧
    css_declarations (match b with [] => [] | _ :: r => r end) = ts) as (b & -> & He & Hrest).
  { destruct ts as [|t' ts]; [by exists []; split_and!; [|left|]|]. eexists. split; [reflexivity|].
    split; [right; eexists; split; [reflexivity|by apply Hp]|].
    cbn [css_more map concat app]. change (css_declarations ([SP] ++ css_join (t' :: ts)) = t' :: ts).
    apply IH; [decided|done]. }
  destruct (css_decl_intro l t b Hl Hc He) as (ptr & E).
  pose proof (css_declarations_step (l ++ t ++ b)) as H. rewrite E in H.
  assert (l ++ t ++ b ≠ []) as Hne.
  { destruct Hc as [Hne _]. intros Hnil. apply app_eq_nil in Hnil as [_ Hnil].
    apply app_eq_nil in Hnil as [? _]. done. }
  rewrite (H Hne), Hrest. destruct Hc as [Hn _].
  destruct (Z.eqb_spec (zlen t) 0) as [Hz|Hz]; [by apply zlen_nil_inv in Hz|done].
Qed.

(** No parentheses and no semicolons. *)
Definition flat_char (c : Z) : bool := negb ((c =? "("%ch) || (c =? ")"%ch) || (c =? ";"%ch)).

Lemma flat_scans p s : Forall (λ c, flat_char c = true) s → scans p s = true ∧ paren_after p s = p.
Proof.
  intros H. revert p. induction H as [|c s Hc _ IH]; intros p; [done|]. unfold flat_char in Hc. breflect.
  cbn. unfold paren_step.
  repeat match goal with H : c ≠ ?x |- _ => rewrite !(proj2 (Z.eqb_neq c x) H); clear H end.
  rewrite orb_true_r. apply IH.
Qed.

Lemma css_text_closed d :
  decl_closed d → decl_closed (css_text d) ∧ (paren_after 0 d <= 0 → paren_after 0 (css_text d) <= 0).
Proof.
  intros Hd. assert (decl_closed (str "zctmplUnsafeCSS") ∧ paren_after 0 (str "zctmplUnsafeCSS") = 0) as [H1 H2].
  { split; [|done]. split; [done|]. split; [split; reflexivity|done]. }
  unfold css_text. destruct (span not_colon d) as [prop [|c value]]; [by rewrite H2|].
  destruct (css_prop_valid prop) eqn:Ep; cbn [negb]; [|by rewrite H2]. case_if; [|done].
  apply css_prop_valid_chars in Ep as [Hne Hchars].
  assert (Forall (λ c, flat_char c = true) (prop ++ str ":zctmplUnsafeCSS")) as Hflat.
  { apply Forall_app. split; [|decided]. eapply Forall_impl; [exact Hchars|]. cbn. intros x Hx.
    unfold flat_char. apply negb_true_iff. rewrite !orb_false_iff, !Z.eqb_neq.
    split_and!; intros ->; by destruct Hx. }
  destruct (flat_scans 0 _ Hflat) as [F1 F2]. rewrite F2. split; [|done].
  split; [by destruct prop|]. split; [|done]. split.
  - destruct prop as [|x prop]; [done|]. apply skip_while_id. apply Forall_cons in Hchars as [Hx _].
    destruct (isspace x) eqn:Esp; [|done]. unfold isspace, isalnum, is_alpha, is_lower, is_upper, is_digit in *.
    exfalso. destruct Hx as [Hx| ->]; [|done].
    repeat match goal with H : (_ || _)%bool = true |- _ => apply orb_true_iff in H as [H|H] end; breflect; lia.
  - replace (prop ++ str ":zctmplUnsafeCSS") with ((prop ++ str ":zctmplUnsafeCS") ++ str "S") by by rewrite <- app_assoc.
    by apply rtrim_id.
Qed.

Lemma css_texts_closed n s :
  (length s ≤ n)%nat → decls_closed (map css_text (css_declarations s)).
Proof.
  revert s. induction n as [|n IH]; intros s Hn.
  { destruct s; [done|simpl in Hn; lia]. }
  destruct (decide (s = [])) as [->|Hs]; [done|].
  pose proof (css_declarations_step s Hs) as Hstep. pose proof (css_decl_spec s) as Hd.
  destruct (css_decl s) as [[d ptr] rest] eqn:E. pose proof (css_decl_shorter _ _ _ _ E Hs) as Hl.
  specialize (IH rest ltac:(lia)). rewrite Hstep.
  destruct Hd as (l & t & b & _ & _ & _ & _ & Hsc & He & Er & Ht1 & Ht2).
  destruct (Z.eqb_spec (zlen d) 0) as [Hz|Hz]; [done|]. cbn [app map decls_closed].
  assert (d ≠ []) as Hne by (intros ->; done).
  destruct (css_text_closed d) as [C1 C2]; [split; [done|]; split; [split; auto|done]|].
  split; [done|]. split; [|done]. intros Hmore. apply C2. destruct He as [->|(r & -> & Hp)]; [|done].
  subst rest. done.
Qed.

Lemma css_all_safe_clean n s :
  (length s ≤ n)%nat → css_all_safe_loop n s = true → Forall clean_declaration (css_declarations s).
Proof.
  revert s. induction n as [|n IH]; intros s Hn Hsafe.
  { destruct s; [constructor|simpl in Hn; lia]. }
  destruct s as [|c s0] eqn:Es; [constructor|]. rewrite <- Es in *. assert (s ≠ []) as Hs by by rewrite Es.
  assert ((let '(d, ptr, rest) := css_decl s in
    if zlen d =? 0 then css_all_safe_loop n rest
    else if css_decl_safe d ptr then css_all_safe_loop n rest else false) = true) as Hsafe' by by rewrite Es in *.
  clear Hsafe. pose proof (css_declarations_step s Hs) as Hstep. pose proof (css_decl_spec s) as Hd.
  destruct (css_decl s) as [[d ptr] rest] eqn:E. pose proof (css_decl_shorter _ _ _ _ E Hs) as Hl.
  rewrite Hstep. destruct (zlen d =? 0); [apply IH; [lia|done]|].
  destruct (css_decl_safe d ptr) eqn:Ed; [|done]. destruct Hd as (l & t & b & _ & -> & _).
  constructor; [by eapply css_decl_safe_clean|]. apply IH; [lia|done].
Qed.



(** A blank in front of a colon makes a harmless declaration unsafe: the value's
    length counts the blank, and reaches the end of the string. *)
Lemma css_blank_before_colon :
  (css_s <$> [(tpl_css empty_out (Some (str "color : red")) quiet_world).1.1])
  = [Some (str "zctmplUnsafeCSS")].
Proof. vm_compute. reflexivity. Qed.
