(* ===== verification/StateErr.v ===== *)
(** * State and failure

    Code that threads a struct through its calls and returns -1 to give up: a
    computation takes a state to a result or a failure, and the state it leaves, over
    the allocations of [M].  The template compiler is written in it. *)

From S2P Require Import Prelude CLib World.

(** [OutOfFuel] is no failure of the code; it is shown not to occur. *)
Inductive Failure (E : Type) := Failed (e : E) | OutOfFuel.
Arguments Failed {E} _.
Arguments OutOfFuel {E}.

Definition SE (S E A : Type) : Type := S → M ((Failure E + A) * S).

#[export] Instance SE_ret S E : MRet (SE S E) := λ A x s, mret (inr x, s).
#[export] Instance SE_bind S E : MBind (SE S E) := λ A B f m s,
  r ← m s;
  match r.1 with inl e => mret (inl e, r.2) | inr x => f x r.2 end.

Definition get {S E} : SE S E S := λ s, mret (inr s, s).
Definition modify {S E} (f : S → S) : SE S E unit := λ s, mret (inr tt, f s).
Definition fails {S E A} (e : Failure E) : SE S E A := λ s, mret (inl e, s).
Definition lift {S E A} (m : M A) : SE S E A := λ s, x ← m; mret (inr x, s).

(** [for (;;)]: a round goes on with [inl] and leaves with [inr]. *)
Fixpoint loop {S E X A} (fuel : nat) (body : X → SE S E (X + A)) (x : X) : SE S E A :=
  match fuel with
  | O => fails OutOfFuel
  | S fuel => r ← body x; match r with inl x => loop fuel body x | inr a => mret a end
  end.

(** ** Weakest preconditions, whatever the allocations do *)

Section Wp.
Context {S E : Type}.

Definition post {A} (Q : A → S → Prop) (R : Failure E → S → Prop) (r : (Failure E + A) * S) : Prop :=
  match r.1 with inl e => R e r.2 | inr x => Q x r.2 end.

Definition wp {A} (m : SE S E A) (Q : A → S → Prop) (R : Failure E → S → Prop) (s : S) : Prop :=
  returns (m s) (post Q R).

Implicit Types (R : Failure E → S → Prop).

Lemma wp_ret {A} (x : A) Q R s : Q x s → wp (mret x) Q R s.
Proof. by intros H w. Qed.

Lemma wp_fails {A} e (Q : A → S → Prop) R s : R e s → wp (fails e) Q R s.
Proof. by intros H w. Qed.

Lemma wp_get Q R s : Q s s → wp get Q R s.
Proof. by intros H w. Qed.

Lemma wp_modify f Q R s : Q tt (f s) → wp (modify f) Q R s.
Proof. by intros H w. Qed.

Lemma wp_lift {A} (m : M A) Q R s : (∀ x, Q x s) → wp (lift m) Q R s.
Proof. intros H w. apply H. Qed.

Lemma wp_lift_returns {A} (m : M A) (Q0 : A → Prop) Q R s :
  returns m Q0 → (∀ x, Q0 x → Q x s) → wp (lift m) Q R s.
Proof. intros Hm H w. apply H, Hm. Qed.

Lemma wp_mono {A} (m : SE S E A) Q Q' R R' s :
  wp m Q' R' s → (∀ x s, Q' x s → Q x s) → (∀ e s, R' e s → R e s) → wp m Q R s.
Proof.
  intros H HQ HR w. specialize (H w). unfold post in *.
  destruct (result (m s) w) as [[e|x] s']; simpl in *; eauto.
Qed.

Lemma wp_bind {A B} (m : SE S E A) (f : A → SE S E B) Q R s :
  wp m (λ x s, wp (f x) Q R s) R s → wp (m ≫= f) Q R s.
Proof.
  intros H. unfold wp. eapply returns_bind; [exact H|].
  intros [[e|x] s'] Hr; simpl in *; [by apply returns_ret|exact Hr].
Qed.

Lemma wp_get_bind {B} (f : S → SE S E B) Q R s : wp (f s) Q R s → wp (get ≫= f) Q R s.
Proof. intros H. by apply wp_bind, wp_get. Qed.

(** A loop whose rounds decrease a measure of the state ends. *)
Lemma wp_loop {X A} (size : S → nat) (body : X → SE S E (X + A)) (I : X → S → Prop) Q R :
  (∀ x s, I x s →
    wp (body x) (λ r s', match r with inl x' => I x' s' ∧ (size s' < size s)%nat | inr a => Q a s' end) R s) →
  ∀ fuel x s, I x s → (size s < fuel)%nat → wp (loop fuel body x) Q R s.
Proof.
  intros Hbody fuel. induction fuel as [|fuel IH]; intros x s Hx Hs; [lia|]. simpl.
  apply wp_bind. eapply wp_mono; [apply Hbody, Hx| |done].
  intros [x'|a] s'; [|by apply wp_ret]. intros [HI Hlt]. apply IH; [done|lia].
Qed.
End Wp.

(** ** Runs in which every allocation succeeds *)

Definition runs {S E A} (m : SE S E A) (s : S) (x : A) (s' : S) : Prop :=
  ∀ w, w_alloc w = [] → m s w = (inr x, s', w).

Section Runs.
Context {S E : Type}.

Lemma runs_ret {A} (x : A) s : runs (mret x : SE S E A) s x s.
Proof. by intros w Hw. Qed.

Lemma runs_bind {A B} (m : SE S E A) (f : A → SE S E B) s x s' y s'' :
  runs m s x s' → runs (f x) s' y s'' → runs (m ≫= f) s y s''.
Proof.
  intros Hm Hf w Hw. unfold mbind, SE_bind. rewrite bind_run. unfold result, world.
  rewrite (Hm w Hw). simpl. by apply Hf.
Qed.

Lemma runs_get_bind {B} (f : S → SE S E B) s y s'' : runs (f s) s y s'' → runs (get ≫= f) s y s''.
Proof. intros H. by apply runs_bind with s s. Qed.

Lemma runs_modify (f : S → S) s : runs (modify f : SE S E unit) s tt (f s).
Proof. by intros w Hw. Qed.

Lemma runs_malloc s : runs (lift malloc : SE S E bool) s true s.
Proof. intros w Hw. unfold lift. rewrite bind_run. unfold result, world. by rewrite (malloc_ok w Hw). Qed.

Lemma lift_bind_run {A B} (m : M A) (f : A → SE S E B) s w :
  (lift m ≫= f) s w = f (m w).1 s (m w).2.
Proof. done. Qed.

Lemma runs_loop_done {X A} fuel (body : X → SE S E (X + A)) x s a s' :
  runs (body x) s (inr a) s' → runs (loop (Datatypes.S fuel) body x) s a s'.
Proof. intros H. simpl. eapply runs_bind; [exact H|apply runs_ret]. Qed.

Lemma runs_loop_next {X A} fuel (body : X → SE S E (X + A)) x s x' s' a s'' :
  runs (body x) s (inl x') s' → runs (loop fuel body x') s' a s'' →
  runs (loop (Datatypes.S fuel) body x) s a s''.
Proof. intros H H'. simpl. eapply runs_bind; [exact H|exact H']. Qed.
End Runs.

(** Walks through a computation, one [wp] rule at a time; what is left are calls. *)
Ltac wp_step :=
  first
    [ apply wp_ret
    | apply wp_get_bind
    | apply wp_bind
    | apply wp_modify
    | apply wp_fails
    | apply wp_lift; intros ? ].
