(* ===== verification/Ctmpl.v ===== *)
(** * The template compiler: parsing

    The parser of [src/tools/ctmpl.c]: the cursor and its error positions, the scanner
    for C text, and the recursive descent from [.thtml] source to nodes, with the tag
    stack and the contexts of interpolations.

    A position is a [nat]; [NULL] bodies are empty lists; a string that is only read with
    [%s] and [strcmp] is cut at its first NUL.  The code appends to the list it is given;
    here a parser returns the nodes to append. *)

From S2P Require Import Prelude CLib World StateErr Response Tpl.
#[local] Open Scope Z_scope.

(** ** State *)

Record CtmplError := { err_message : bytes; err_line : nat; err_col : nat }.

Definition TAG_STACK_MAX : nat := 32.
Definition TAG_NAME_MAX : nat := 31.

Record TagFrame := { tf_name : bytes; tf_pos : nat; tf_line : nat }.

(** How many blocks are tracked and how many the array holds.  [al_double_free] is a
    ghost: a block was released twice. *)
Record Allocs := { al_n : nat; al_cap : nat; al_oom : bool; al_double_free : bool }.

(** [p_params] is the parameter list of [current_comp]; the innermost tag comes first
    in [p_tags]. *)
Record Parser := {
  p_src : bytes;
  p_pos : nat;
  p_line : nat;
  p_line_start : nat;
  p_allocs : Allocs;
  p_params : option bytes;
  p_tags : list TagFrame;
}.

Definition set_p_cursor (pos line line_start : nat) (p : Parser) : Parser :=
  {| p_src := p_src p; p_pos := pos; p_line := line; p_line_start := line_start;
     p_allocs := p_allocs p; p_params := p_params p; p_tags := p_tags p |}.
Definition set_p_allocs (a : Allocs) (p : Parser) : Parser :=
  {| p_src := p_src p; p_pos := p_pos p; p_line := p_line p; p_line_start := p_line_start p;
     p_allocs := a; p_params := p_params p; p_tags := p_tags p |}.
Definition set_p_params (x : option bytes) (p : Parser) : Parser :=
  {| p_src := p_src p; p_pos := p_pos p; p_line := p_line p; p_line_start := p_line_start p;
     p_allocs := p_allocs p; p_params := x; p_tags := p_tags p |}.
Definition set_p_tags (x : list TagFrame) (p : Parser) : Parser :=
  {| p_src := p_src p; p_pos := p_pos p; p_line := p_line p; p_line_start := p_line_start p;
     p_allocs := p_allocs p; p_params := p_params p; p_tags := x |}.

Definition P (A : Type) : Type := SE Parser CtmplError A.

(** ** Nodes *)

Inductive Ctx := CTX_TEXT | CTX_ATTR | CTX_URL | CTX_CSS.

#[export] Instance Ctx_eq_dec : EqDecision Ctx.
Proof. solve_decision. Defined.

(** [comp] is the parameter list of the enclosing component. *)
Inductive Node :=
  | NText (line : nat) (text : bytes)
  | NInterp (line : nat) (expr : bytes) (ctx : Ctx) (children : bool)
  | NCall (line : nat) (callee : bytes) (args data_expr : option bytes) (block : list Node)
      (comp : option bytes) (gen_name : option bytes)
  | NIf (line : nat) (expr : bytes) (then_ otherwise : list Node)
  | NFor (line : nat) (expr : bytes) (then_ : list Node).

(** ** Errors *)

(** The field [message] holds 256 bytes. *)
Definition perr {A} (message : bytes) : P A :=
  p ← get;
  fails (Failed {| err_message := snprintf_s 256 message; err_line := p_line p;
                   err_col := p_pos p - p_line_start p + 1 |}).

(** The line after a text and where it starts. *)
Fixpoint line_of (s : bytes) (i line line_start : nat) : nat * nat :=
  match s with
  | [] => (line, line_start)
  | c :: s => if c =? LF then line_of s (S i) (S line) (S i) else line_of s (S i) line line_start
  end.

Definition perr_at {A} (pos : nat) (message : bytes) : P A :=
  p ← get;
  let at_ := line_of (take pos (p_src p)) 0 1 0 in
  fails (Failed {| err_message := snprintf_s 256 message; err_line := at_.1;
                   err_col := if (pos <? length (p_src p))%nat then (pos - at_.2 + 1)%nat else 1 |}).

Definition out_of_memory {A} : P A := perr (str "out of memory").

(** ** The cursor *)

Definition peek_at (p : Parser) (off : nat) : Z := nth (p_pos p + off) (p_src p) NUL.
Definition peek (p : Parser) : Z := peek_at p 0.

Definition at_end (p : Parser) : bool := (length (p_src p) <=? p_pos p)%nat.

Definition advance (p : Parser) : Parser :=
  if at_end p then p
  else if peek p =? LF then set_p_cursor (S (p_pos p)) (S (p_line p)) (S (p_pos p)) p
  else set_p_cursor (S (p_pos p)) (p_line p) (p_line_start p) p.

Fixpoint advance_n (p : Parser) (n : nat) : Parser :=
  match n with O => p | S n => advance_n (advance p) n end.

(** What is left of the source. *)
Definition remaining (p : Parser) : nat := length (p_src p) - p_pos p.

(** [while (p->pos < p->len && cond) advance(p)]; a round takes a character. *)
Fixpoint advance_while_fuel (fuel : nat) (cond : Parser → bool) (p : Parser) : Parser :=
  match fuel with
  | O => p
  | S fuel => if negb (at_end p) && cond p then advance_while_fuel fuel cond (advance p) else p
  end.

Definition advance_while (cond : Parser → bool) (p : Parser) : Parser :=
  advance_while_fuel (remaining p) cond p.

(** [src[start..end)] *)
Definition slice (p : Parser) (start end_ : nat) : bytes := take (end_ - start) (drop start (p_src p)).

(** A loop that moves the cursor in every round. *)
Definition cursor_loop {X A} (body : X → P (X + A)) (x : X) : P A :=
  λ p, loop (S (remaining p)) body x p.

Definition continue_with {X A} (x : X) : P (X + A) := mret (inl x).
Definition break_with {X A} (a : A) : P (X + A) := mret (inr a).

(** What a parser saves to rewind. *)
Definition rewind (save p : Parser) : Parser :=
  set_p_cursor (p_pos save) (p_line save) (p_line_start save) p.

Definition skip_ws (p : Parser) : Parser := advance_while (λ p, isspace (peek p)) p.

Definition at_comment_end (p : Parser) : bool := (peek p =? "*"%ch) && (peek_at p 1 =? "/"%ch).

Definition skip_ws_comments : P unit :=
  cursor_loop (λ _,
    p ← get;
    let c := peek p in
    if isspace c then _ ← modify advance; continue_with tt
    else if (c =? "/"%ch) && (peek_at p 1 =? "/"%ch) then
      _ ← modify (advance_while (λ p, negb (peek p =? LF)));
      continue_with tt
    else if (c =? "/"%ch) && (peek_at p 1 =? "*"%ch) then
      _ ← modify (λ p, advance_while (λ p, negb (at_comment_end p)) (advance_n p 2));
      _ ← modify (λ p, if negb (at_end p) then advance_n p 2 else p);
      continue_with tt
    else break_with tt) tt.

Definition is_ident_start (c : Z) : bool := isalpha c || (c =? "_"%ch).
Definition is_ident_char (c : Z) : bool := isalnum c || (c =? "_"%ch).

(** ** Memory *)

(** [got]: the block to be tracked was allocated.  When the array cannot grow the block
    is released. *)
Definition allocs_add (a : Allocs) (got : bool) : M (bool * Allocs) :=
  let oom := {| al_n := al_n a; al_cap := al_cap a; al_oom := true; al_double_free := al_double_free a |} in
  if negb got then mret (false, oom)
  else if (al_n a =? al_cap a)%nat then
    ok ← malloc;
    if negb ok then mret (false, oom)
    else mret (true, {| al_n := S (al_n a); al_cap := if (al_cap a =? 0)%nat then 32 else al_cap a * 2;
                        al_oom := al_oom a; al_double_free := al_double_free a |})
  else mret (true, {| al_n := S (al_n a); al_cap := al_cap a; al_oom := al_oom a;
                      al_double_free := al_double_free a |}).

Definition track (got : bool) : P bool := λ p,
  r ← allocs_add (p_allocs p) got; mret (inr r.1, set_p_allocs r.2 p).

Definition alloc : P bool := lift malloc.

Definition note_double_free (p : Parser) : Parser :=
  set_p_allocs {| al_n := al_n (p_allocs p); al_cap := al_cap (p_allocs p);
                  al_oom := al_oom (p_allocs p); al_double_free := true |} p.

(** A tracked copy of [text].  When the array of blocks cannot grow, [allocs_add] has
    released the copy, and it is released again. *)
Definition p_dup (text : bytes) : P bytes :=
  got ← alloc;
  if negb got then out_of_memory
  else
    ok ← track true;
    if negb ok then _ ← modify note_double_free; out_of_memory
    else mret text.

(** The copy of [src[start..end)]; a negative length asks for more than there is. *)
Definition p_dup_raw (start end_ : nat) : P bytes :=
  if (end_ <? start)%nat then out_of_memory
  else p ← get; p_dup (slice p start end_).

Definition trim_space (s : bytes) : bytes := rtrim isspace (skip_while isspace s).

Definition p_dup_trim (start end_ : nat) : P bytes :=
  p ← get;
  text ← p_dup (trim_space (slice p start end_));
  mret (cstr text).

(** The line of a new node. *)
Definition new_node : P nat :=
  got ← alloc;
  ok ← track got;
  if negb ok then out_of_memory else p ← get; mret (p_line p).

Definition append_text (text : bytes) (line : nat) : P (list Node) :=
  if bool_decide (text = []) then mret []
  else
    _ ← new_node;
    text ← p_dup text;
    mret [NText line text].

(** [append_text] of [src[start..end)]. *)
Definition append_slice (start end_ line : nat) : P (list Node) :=
  if (end_ <? start)%nat then _ ← new_node; out_of_memory
  else p ← get; append_text (slice p start end_) line.

(** ** Words *)

Definition read_ident : P bytes :=
  p ← get;
  if negb (is_ident_start (peek p)) then perr (str "expected an identifier")
  else
    _ ← modify (advance_while (λ p, is_ident_char (peek p)));
    p' ← get;
    p_dup_raw (p_pos p) (p_pos p').

(** [kw] stands at [pos] and no identifier character follows. *)
Definition keyword_at (s : bytes) (pos : nat) (kw : bytes) : bool :=
  starts_with kw (drop pos s) && negb (is_ident_char (nth (pos + length kw) s NUL)).

Definition eat_keyword (kw : bytes) : P bool :=
  p ← get;
  if negb (keyword_at (p_src p) (p_pos p) kw) then mret false
  else _ ← modify (λ p, advance_n p (length kw)); mret true.

(** ** C text *)

Inductive ScanMode := SCAN_TO_BRACE | SCAN_MATCH_BRACE | SCAN_MATCH_PAREN.

#[export] Instance ScanMode_eq_dec : EqDecision ScanMode.
Proof. solve_decision. Defined.

(** To the closing quote or the end; a backslash takes the next character along. *)
Definition skip_quoted (quote : Z) : P unit :=
  cursor_loop (λ _,
    p ← get;
    if at_end p || (peek p =? quote) then break_with tt
    else
      _ ← modify (λ p, advance (if peek p =? BACKSLASH then advance p else p));
      continue_with tt) tt.

Definition unbalanced {A} (c : Z) : P A :=
  perr (str "unbalanced '" ++ [c] ++ str "' in expression").

(** One round of [scan_c] at the given depth; it leaves with the position of the end. *)
Definition scan_round (mode : ScanMode) (depth : Z) : P (Z + nat) :=
  let want_close := if bool_decide (mode = SCAN_MATCH_PAREN) then ")"%ch else "}"%ch in
  p ← get;
  let c := peek p in
  if at_end p then
    perr (if bool_decide (mode = SCAN_TO_BRACE) then str "expected '{' before end of file"
          else str "unterminated expression — missing '" ++ [want_close] ++ str "'")
  else if (c =? "/"%ch) && (peek_at p 1 =? "/"%ch) then
    _ ← modify (advance_while (λ p, negb (peek p =? LF)));
    continue_with depth
  else if (c =? "/"%ch) && (peek_at p 1 =? "*"%ch) then
    _ ← modify (λ p, advance_while (λ p, negb (at_comment_end p)) (advance_n p 2));
    p ← get;
    if at_end p then perr (str "unterminated block comment")
    else _ ← modify (λ p, advance_n p 2); continue_with depth
  else if (c =? DQUOTE) || (c =? "'"%ch) then
    _ ← modify advance;
    _ ← skip_quoted c;
    p ← get;
    if at_end p then perr (str "unterminated string literal")
    else _ ← modify advance; continue_with depth
  else if (c =? "{"%ch) || (c =? "("%ch) then
    if bool_decide (mode = SCAN_TO_BRACE) && (c =? "{"%ch) && (depth =? 0) then break_with (p_pos p)
    else _ ← modify advance; continue_with (depth + 1)
  else if (c =? "}"%ch) || (c =? ")"%ch) then
    if (depth - 1 =? 0) && negb (bool_decide (mode = SCAN_TO_BRACE)) then
      if negb (c =? want_close) then unbalanced want_close
      else _ ← modify advance; break_with (p_pos p)
    else if depth - 1 <? 0 then unbalanced c
    else _ ← modify advance; continue_with (depth - 1)
  else _ ← modify advance; continue_with depth.

(** The expression is [src[start..end)]; the cursor is behind the terminator. *)
Definition scan_c (mode : ScanMode) : P (nat * nat) :=
  p ← get;
  end_ ← cursor_loop (scan_round mode) (if bool_decide (mode = SCAN_TO_BRACE) then 0 else 1);
  mret (p_pos p, end_).

(** The expression up to its end, trimmed. *)
Definition scan_expr (mode : ScanMode) : P bytes :=
  se ← scan_c mode;
  p_dup_trim se.1 se.2.

(** ** Interpolations and attributes *)

Definition parse_interp (ctx : Ctx) : P (list Node) :=
  _ ← modify advance;
  expr ← scan_expr SCAN_MATCH_BRACE;
  line ← new_node;
  if streq expr (str "children...") then
    if negb (bool_decide (ctx = CTX_TEXT)) then
      perr (str "{ children... } is not valid in an attribute")
    else mret [NInterp line expr ctx true]
  else if bool_decide (expr = []) then perr (str "empty { } interpolation")
  else mret [NInterp line expr ctx false].

Definition is_builtin_callee (name : bytes) : bool :=
  streq name (str "raw") || streq name (str "fragment") || streq name (str "once").

(** [(int)n] *)
Definition to_int (n : Z) : Z :=
  let r := n mod 2 ^ 32 in if r <? 2 ^ 31 then r else r - 2 ^ 32.

(** [%.*s]: a negative precision is none. *)
Definition fmt_prec (prec : Z) (s : bytes) : bytes :=
  if prec <? 0 then cstr s else cstr (ztake prec s).

Definition url_attrs : list bytes :=
  [str "href"; str "src"; str "action"; str "formaction"; str "poster"; str "cite"; str "background"].

Definition is_script_attr (len : Z) (name : bytes) : bool :=
  (3 <=? len) && starts_with_ci (str "on") name || (6 <=? len) && starts_with_ci (str "hx-on:") name.

(** The length is a [size_t]: it wraps around when the name starts behind its end. *)
Definition classify_attr (name_start name_end : nat) : P Ctx :=
  p ← get;
  let len := to_size_t (Z.of_nat name_end - Z.of_nat name_start) in
  let name := drop name_start (p_src p) in
  if len =? 0 then mret CTX_ATTR
  else if is_script_attr len name then
    perr (str "expressions in '" ++ fmt_prec (to_int len) name ++
          str "' attributes are not supported — pass data via a data-* attribute and wire it up in a <script> block")
  else if existsb (λ a, (zlen a =? len) && starts_with_ci a name) url_attrs then mret CTX_URL
  else if (len =? 5) && starts_with_ci (str "style") name then mret CTX_CSS
  else mret CTX_ATTR.

(** ** Calls, conditions, loops

    [parse_body] is the parser of the nested block. *)

(** A body and the brace that closes it. *)
Definition parse_block (parse_body : P (list Node)) (expected : bytes) : P (list Node) :=
  body ← parse_body;
  p ← get;
  if negb (peek p =? "}"%ch) then perr expected
  else _ ← modify advance; mret body.

(** [with (expr)]; plain text when no parenthesis follows. *)
Definition parse_with (save : Parser) : P (option bytes) :=
  _ ← modify skip_ws;
  with_ ← eat_keyword (str "with");
  if negb with_ then mret None
  else
    _ ← modify skip_ws;
    p ← get;
    if negb (peek p =? "("%ch) then _ ← modify (rewind save); mret None
    else
      _ ← modify advance;
      data_expr ← scan_expr SCAN_MATCH_PAREN;
      _ ← modify skip_ws;
      mret (Some data_expr).

Definition is_missing (args : option bytes) : bool :=
  match args with None | Some [] => true | _ => false end.

(** What the builtins ask of their arguments and block. *)
Definition builtin_check (name : bytes) (args data_expr : option bytes) (block : list Node) : option bytes :=
  if negb (is_builtin_callee name) then None
  else if bool_decide (data_expr ≠ None) then Some (str "with (...) is not valid for @" ++ name)
  else if streq name (str "raw") then
    if is_missing args || bool_decide (block ≠ []) then
      Some (str "@raw expects exactly one argument and no child block")
    else None
  else if is_missing args then Some (str "@" ++ name ++ str " expects an argument")
  else if bool_decide (block = []) then Some (str "@" ++ name ++ str " requires a child block")
  else None.

Definition parse_call (parse_body : P (list Node)) : P (list Node) :=
  _ ← modify advance;
  p ← get;
  let name_line := p_line p in
  name ← read_ident;
  p ← get;
  args ← (if negb (peek p =? "("%ch) then mret None
          else _ ← modify advance; args ← scan_expr SCAN_MATCH_PAREN; mret (Some args));
  save ← get;
  data_expr ← parse_with save;
  p ← get;
  block ← (if peek p =? "{"%ch then
             _ ← modify advance; parse_block parse_body (str "expected '}' to close the child block")
           else _ ← modify (rewind save); mret []);
  match builtin_check name args data_expr block with
  | Some message => perr message
  | None =>
      p ← get;
      _ ← new_node;
      mret [NCall name_line name args data_expr block (p_params p) None]
  end.

Definition parse_for (parse_body : P (list Node)) : P (list Node) :=
  p ← get;
  let for_line := p_line p in
  head_expr ← scan_expr SCAN_TO_BRACE;
  if bool_decide (head_expr = []) then perr (str "missing for-head between 'for' and '{'")
  else
    _ ← modify advance;
    _ ← new_node;
    body ← parse_block parse_body (str "expected '}' to close the for-branch");
    mret [NFor for_line head_expr body].

(** The chain of [else if]s is nested; a link takes the keyword [if] at least. *)
Fixpoint parse_if (fuel : nat) (parse_body : P (list Node)) : P (list Node) :=
  match fuel with
  | O => fails OutOfFuel
  | S fuel =>
      p ← get;
      let if_line := p_line p in
      cond ← scan_expr SCAN_TO_BRACE;
      if bool_decide (cond = []) then perr (str "missing condition between 'if' and '{'")
      else
        _ ← modify advance;
        _ ← new_node;
        then_ ← parse_block parse_body (str "expected '}' to close the if-branch");
        save ← get;
        _ ← modify skip_ws;
        else_ ← eat_keyword (str "else");
        if negb else_ then _ ← modify (rewind save); mret [NIf if_line cond then_ []]
        else
          _ ← modify skip_ws;
          if_ ← eat_keyword (str "if");
          if (if_ : bool) then
            chain ← parse_if fuel parse_body;
            mret [NIf if_line cond then_ chain]
          else
            p ← get;
            if peek p =? "{"%ch then
              _ ← modify advance;
              otherwise ← parse_block parse_body (str "expected '}' to close the else-branch");
              mret [NIf if_line cond then_ otherwise]
            else perr (str "expected 'if' or '{' after 'else'")
  end.

(** ** Tags *)

Definition void_tags : list bytes :=
  [str "area"; str "base"; str "br"; str "col"; str "embed"; str "hr"; str "img";
   str "input"; str "link"; str "meta"; str "param"; str "source"; str "track"; str "wbr"].

Definition is_void_tag (name : bytes) : bool :=
  (zlen name <=? 8) && existsb (λ v, strcaseeq v name) void_tags.

Definition is_tag_char (c : Z) : bool := is_ident_char c || (c =? "-"%ch).

Definition unterminated_tag {A} : P A := perr (str "unterminated tag — missing '>'").

(** To the next [>], which is taken too. *)
Definition skip_to_gt : P unit :=
  _ ← modify (advance_while (λ p, negb (peek p =? ">"%ch)));
  p ← get;
  if at_end p then unterminated_tag else modify advance.

(** The text from the start of the tag to the cursor. *)
Definition tag_text (tag_start tag_line : nat) : P (list Node) :=
  p ← get; append_slice tag_start (p_pos p) tag_line.

Definition parse_comment (tag_start tag_line : nat) : P (list Node) :=
  _ ← modify (advance_while (λ p,
        negb ((peek p =? "-"%ch) && (peek_at p 1 =? "-"%ch) && (peek_at p 2 =? ">"%ch))));
  p ← get;
  if at_end p then perr (str "unterminated <!-- comment")
  else _ ← modify (λ p, advance_n p 3); tag_text tag_start tag_line.

Definition parse_doctype (tag_start tag_line : nat) : P (list Node) :=
  _ ← skip_to_gt; tag_text tag_start tag_line.

(** The tag name at the cursor. *)
Definition read_tag_name : P bytes :=
  p ← get;
  _ ← modify (advance_while (λ p, is_tag_char (peek p)));
  p' ← get;
  mret (slice p (p_pos p) (p_pos p')).

Definition fmt_nat (n : nat) : bytes := fmt_u (Z.of_nat n).

(** The innermost open tag is the one that is closed. *)
Definition pop_tag (tag_start : nat) (name : bytes) : P unit :=
  p ← get;
  if bool_decide (name = []) then perr_at tag_start (str "empty closing tag name")
  else if is_void_tag name then
    perr_at tag_start (str "</" ++ name ++ str "> — void elements cannot have a closing tag")
  else
    match p_tags p with
    | [] => perr_at tag_start (str "</" ++ name ++ str "> closes nothing — no tag is open")
    | top :: tags =>
        if negb (strcaseeq (tf_name top) name) then
          perr_at tag_start (str "</" ++ name ++ str "> closes nothing — expected </" ++ tf_name top ++
                             str "> (opened at line " ++ fmt_nat (tf_line top) ++ str ")")
        else modify (set_p_tags tags)
    end.

Definition parse_close_tag (tag_start tag_line : nat) : P (list Node) :=
  _ ← modify advance;
  name ← read_tag_name;
  _ ← skip_to_gt;
  _ ← pop_tag tag_start name;
  tag_text tag_start tag_line.

(** A frame for a tag that is to be closed. *)
Definition push_tag (tag_start tag_line : nat) (name : bytes) : P unit :=
  p ← get;
  if is_void_tag name then mret tt
  else if (2 <=? p_pos p)%nat && (nth (p_pos p - 2) (p_src p) NUL =? "/"%ch) &&
          (nth (p_pos p - 1) (p_src p) NUL =? ">"%ch) then
    perr_at tag_start (str "<" ++ name ++
                       str "/> — non-void elements need a real closing tag (browsers ignore the '/')")
  else if (length (p_tags p) =? TAG_STACK_MAX)%nat then
    perr_at tag_start (str "tags nested deeper than " ++ fmt_nat TAG_STACK_MAX ++
                       str " — likely an unclosed tag")
  else modify (set_p_tags ({| tf_name := name; tf_pos := tag_start; tf_line := tag_line |} :: p_tags p)).

(** The scanner inside an opening tag, with the nodes made so far. *)
Record TagScan := {
  ts_quote : Z;
  ts_flush_to : nat;
  ts_name_start : nat;
  ts_name_end : nat;
  ts_nodes : list Node;
}.

Definition set_ts_quote (x : Z) (st : TagScan) : TagScan :=
  {| ts_quote := x; ts_flush_to := ts_flush_to st; ts_name_start := ts_name_start st;
     ts_name_end := ts_name_end st; ts_nodes := ts_nodes st |}.
Definition set_ts_name_start (x : nat) (st : TagScan) : TagScan :=
  {| ts_quote := ts_quote st; ts_flush_to := ts_flush_to st; ts_name_start := x;
     ts_name_end := ts_name_end st; ts_nodes := ts_nodes st |}.
Definition set_ts_name_end (x : nat) (st : TagScan) : TagScan :=
  {| ts_quote := ts_quote st; ts_flush_to := ts_flush_to st; ts_name_start := ts_name_start st;
     ts_name_end := x; ts_nodes := ts_nodes st |}.
(** Text is flushed up to [pos] and nodes are added. *)
Definition ts_flushed (pos : nat) (ns : list Node) (st : TagScan) : TagScan :=
  {| ts_quote := ts_quote st; ts_flush_to := pos; ts_name_start := ts_name_start st;
     ts_name_end := ts_name_end st; ts_nodes := ts_nodes st ++ ns |}.

Definition append_quote : P (list Node) :=
  p ← get; append_text [DQUOTE] (p_line p).

(** An expression in an attribute value: inside quotes, or bare, when it is given quotes. *)
Definition attr_interp (bare : bool) (tag_line : nat) (st : TagScan) : P TagScan :=
  ctx ← classify_attr (ts_name_start st) (ts_name_end st);
  before ← tag_text (ts_flush_to st) tag_line;
  open ← (if bare then append_quote else mret []);
  interp ← parse_interp ctx;
  close ← (if bare then append_quote else mret []);
  p ← get;
  mret (ts_flushed (p_pos p) (before ++ open ++ interp ++ close) st).

(** [name?={ cond }] *)
Definition attr_bool (tag_line : nat) (st : TagScan) : P TagScan :=
  p ← get;
  if (p_pos p <=? ts_name_start st)%nat then perr (str "missing attribute name before '?='")
  else
    before ← append_slice (ts_flush_to st) (ts_name_start st) tag_line;
    let attr_line := p_line p in
    let name := slice p (ts_name_start st) (p_pos p) in
    _ ← modify (λ p, advance_n p 2);
    p ← get;
    if negb (peek p =? "{"%ch) then
      perr (str "expected '{' after '?=' (boolean attributes use name?={ cond })")
    else
      _ ← new_node;
      _ ← modify advance;
      cond ← scan_expr SCAN_MATCH_BRACE;
      if bool_decide (cond = []) then perr (str "missing condition in name?={ cond }")
      else
        line ← new_node;
        got ← alloc;
        ok ← (if got : bool then track true else mret false);
        if negb ok then out_of_memory
        else
          p ← get;
          mret (set_ts_name_start (p_pos p)
                 (ts_flushed (p_pos p) (before ++ [NIf attr_line cond [NText line (SP :: name)] []]) st)).

Definition tag_round (tag_start tag_line : nat) (st : TagScan) : P (TagScan + list Node) :=
  p ← get;
  let c := peek p in
  if at_end p then unterminated_tag
  else if negb (ts_quote st =? 0) then
    if c =? "{"%ch then st ← attr_interp false tag_line st; continue_with st
    else _ ← modify advance; continue_with (if c =? ts_quote st then set_ts_quote 0 st else st)
  else if (c =? DQUOTE) || (c =? "'"%ch) then
    _ ← modify advance; continue_with (set_ts_quote c st)
  else if c =? "="%ch then
    _ ← modify advance; continue_with (set_ts_name_end (p_pos p) st)
  else if c =? "{"%ch then
    if (tag_start <? p_pos p)%nat && (nth (p_pos p - 1) (p_src p) NUL =? "="%ch) &&
       (ts_name_start st <? p_pos p - 1)%nat then
      st ← attr_interp true tag_line st; continue_with st
    else perr (str "interpolation outside a quoted attribute value is not supported")
  else if (c =? "?"%ch) && (peek_at p 1 =? "="%ch) then
    st ← attr_bool tag_line st; continue_with st
  else if c =? ">"%ch then
    _ ← modify advance;
    rest ← tag_text (ts_flush_to st) tag_line;
    break_with (ts_nodes st ++ rest)
  else if isspace c then
    _ ← modify advance;
    p ← get;
    continue_with (set_ts_name_start (p_pos (skip_ws p)) st)
  else _ ← modify advance; continue_with st.

(** The text of a [script] or [style] element. *)
Definition parse_raw_text (name : bytes) : P (list Node) :=
  p ← get;
  let close := str "</" ++ name in
  _ ← modify (advance_while (λ p,
        negb ((peek p =? "<"%ch) && starts_with_ci close (drop (p_pos p) (p_src p)))));
  p' ← get;
  if at_end p' then perr (str "missing </" ++ name ++ str "> for the raw-text element")
  else append_slice (p_pos p) (p_pos p') (p_line p).

Definition parse_open_tag (tag_start tag_line : nat) : P (list Node) :=
  p ← get;
  if negb (is_ident_start (peek p)) then perr (str "expected a tag name after '<'")
  else
    name ← read_tag_name;
    if (TAG_NAME_MAX <? length name)%nat then
      perr (str "tag name too long (max " ++ fmt_nat TAG_NAME_MAX ++ str " characters)")
    else
      p ← get;
      tag ← cursor_loop (tag_round tag_start tag_line)
              {| ts_quote := 0; ts_flush_to := tag_start; ts_name_start := p_pos p;
                 ts_name_end := p_pos p; ts_nodes := [] |};
      _ ← push_tag tag_start tag_line name;
      if strcaseeq name (str "script") then
        raw ← parse_raw_text (str "script"); mret (tag ++ raw)
      else if strcaseeq name (str "style") then
        raw ← parse_raw_text (str "style"); mret (tag ++ raw)
      else mret tag.

Definition parse_element : P (list Node) :=
  p ← get;
  let tag_start := p_pos p in
  let tag_line := p_line p in
  _ ← modify advance;
  p ← get;
  if (peek p =? "!"%ch) && (peek_at p 1 =? "-"%ch) && (peek_at p 2 =? "-"%ch) then
    parse_comment tag_start tag_line
  else if peek p =? "!"%ch then parse_doctype tag_start tag_line
  else if peek p =? "/"%ch then parse_close_tag tag_start tag_line
  else parse_open_tag tag_start tag_line.

(** ** Bodies *)

Definition is_special (c : Z) : bool := (c =? "<"%ch) || (c =? "{"%ch) || (c =? "@"%ch).

Definition unterminated_block {A} : P A := perr (str "unterminated block — missing '}'").

(** Text up to a special character, or white space before the closing brace: then
    there is no node. *)
Definition parse_text : P (option (list Node)) :=
  p ← get;
  let run_start := p_pos p in
  let run_line := p_line p in
  _ ← modify advance;
  _ ← modify (advance_while (λ p,
        negb (is_special (peek p) || (peek p =? "}"%ch) || (peek p =? NUL))));
  p ← get;
  if peek p =? NUL then unterminated_block
  else if peek p =? "}"%ch then
    if negb (forallb isspace (slice p run_start (p_pos p))) then
      perr (str "unexpected '}' in text — escape braces with { " ++ [DQUOTE] ++ str "}" ++ [DQUOTE] ++
            str " }")
    else mret None
  else
    ns ← append_slice run_start (p_pos p) run_line;
    mret (Some ns).

(** A run of text: a statement when it starts with its keyword. *)
Definition parse_run (fuel : nat) (parse_body : P (list Node)) : P (option (list Node)) :=
  p ← get;
  let k := p_pos (skip_ws p) in
  let starts kw := keyword_at (p_src p) k kw in
  if starts (str "else") then perr_at k (str "unexpected 'else' — no preceding 'if'")
  else if starts (str "if") then
    _ ← modify (λ p, advance_n p (k - p_pos p));
    _ ← eat_keyword (str "if");
    ns ← parse_if fuel parse_body;
    mret (Some ns)
  else if starts (str "for") then
    _ ← modify (λ p, advance_n p (k - p_pos p));
    _ ← eat_keyword (str "for");
    ns ← parse_for parse_body;
    mret (Some ns)
  else parse_text.

(** What is parsed next, [None] at the end of the body. *)
Definition parse_item (fuel : nat) (parse_body : P (list Node)) : P (option (list Node)) :=
  p ← get;
  let c := peek p in
  if c =? NUL then unterminated_block
  else if c =? "}"%ch then mret None
  else if c =? "<"%ch then ns ← parse_element; mret (Some ns)
  else if c =? "{"%ch then ns ← parse_interp CTX_TEXT; mret (Some ns)
  else if c =? "@"%ch then ns ← parse_call parse_body; mret (Some ns)
  else parse_run fuel parse_body.

Fixpoint parse_body_fuel (fuel : nat) : P (list Node) :=
  match fuel with
  | O => fails OutOfFuel
  | S fuel =>
      item ← parse_item fuel (parse_body_fuel fuel);
      match item with
      | None => mret []
      | Some ns => rest ← parse_body_fuel fuel; mret (ns ++ rest)
      end
  end.

(** Every item and every nested body takes a character. *)
Definition parse_body : P (list Node) := λ p, parse_body_fuel (S (remaining p)) p.
