(* ===== verification/CtmplParse.v ===== *)
(** * The template compiler: what the parser guarantees

    Whatever the source and whatever memory does, the parser of [src/tools/ctmpl.c]
    ends; it fails with a message and a position in the source, or it returns nodes the
    generator can print. *)

From S2P Require Import Prelude CLib World StateErr Response Tpl Ctmpl.
#[local] Open Scope nat_scope.

(** ** Positions *)

(** The line and the column of a position, counted from 1. *)
Definition loc (s : bytes) (pos : nat) : nat * nat :=
  let ls := line_of (take pos s) 0 1 0 in (ls.1, pos - ls.2 + 1).

Definition located (s : bytes) (e : Failure CtmplError) : Prop :=
  match e with
  | OutOfFuel => False
  | Failed e =>
      err_message e ≠ [] ∧ (zlen (err_message e) < 256)%Z ∧
      ∃ pos, pos ≤ length s ∧ (err_line e, err_col e) = loc s pos
  end.

(** A frame of the tag stack is an opening tag of the source. *)
Definition frame_ok (s : bytes) (t : TagFrame) : Prop :=
  tf_pos t < length s ∧ tf_line t = (loc s (tf_pos t)).1 ∧
  starts_with (str "<" ++ tf_name t) (drop (tf_pos t) s) = true ∧
  1 ≤ length (tf_name t) ≤ TAG_NAME_MAX ∧ is_void_tag (tf_name t) = false.

Record parser_ok (p : Parser) : Prop := {
  ok_pos : p_pos p ≤ length (p_src p);
  ok_line : line_of (take (p_pos p) (p_src p)) 0 1 0 = (p_line p, p_line_start p);
  ok_allocs : al_n (p_allocs p) ≤ al_cap (p_allocs p);
  ok_depth : length (p_tags p) ≤ TAG_STACK_MAX;
  ok_frames : Forall (frame_ok (p_src p)) (p_tags p);
}.

(** [p'] is reached from [p], with [n] characters taken at least. *)
Definition ahead (n : nat) (p p' : Parser) : Prop :=
  p_src p' = p_src p ∧ p_params p' = p_params p ∧ parser_ok p' ∧ p_pos p + n ≤ p_pos p'.

Lemma ahead_refl p : parser_ok p → ahead 0 p p.
Proof. intros H. split_and!; [done..|lia]. Qed.

Lemma ahead_trans j k n p q r : n ≤ j + k → ahead j p q → ahead k q r → ahead n p r.
Proof. unfold ahead. intros Hn (?&?&?&?) (?&?&?&?). split_and!; [congruence..|done|lia]. Qed.

Lemma ahead_weaken k n p q : n ≤ k → ahead k p q → ahead n p q.
Proof. unfold ahead. intros Hn (?&?&?&?). split_and!; [done..|lia]. Qed.

Lemma ahead_ok n p q : ahead n p q → parser_ok q.
Proof. by intros (_&_&?&_). Qed.

Lemma ahead_src n p q : ahead n p q → p_src q = p_src p.
Proof. by intros (?&_). Qed.

(** ** Rules: a parser that starts at [p], and ends ahead of [b] *)

Definition from {A} (b : Parser) (n : nat) (m : P A) (Q : A → Parser → Prop) (p : Parser) : Prop :=
  wp m (λ x p', ahead n b p' ∧ Q x p') (λ e _, located (p_src b) e) p.

Section Rules.
Context {A B : Type}.

Lemma from_ret b n (x : A) (Q : A → Parser → Prop) p : ahead n b p → Q x p → from b n (mret x) Q p.
Proof. intros. by apply wp_ret. Qed.

Lemma from_get b n (f : Parser → P B) Q p : from b n (f p) Q p → from b n (get ≫= f) Q p.
Proof. apply wp_get_bind. Qed.

Lemma from_modify b n (g : Parser → Parser) (f : unit → P B) Q p :
  from b n (f tt) Q (g p) → from b n (modify g ≫= f) Q p.
Proof. intros H. by apply wp_bind, wp_modify. Qed.

Lemma from_fails b n e (Q : A → Parser → Prop) p : located (p_src b) e → from b n (fails e) Q p.
Proof. intros H. by apply wp_fails. Qed.

(** A call with a specification of its own, which ends ahead of [c]: mostly where it
    started, but a parser may rewind. *)
Lemma from_bind j k b c n (m : P A) (f : A → P B) Q1 Q p :
  ahead j b c → from c k m Q1 p →
  (∀ x p', ahead k c p' → ahead (j + k) b p' → Q1 x p' → from b n (f x) Q p') →
  from b n (m ≫= f) Q p.
Proof.
  intros Hb Hm Hf. apply wp_bind. eapply wp_mono; [exact Hm| |].
  - intros x p' [Ha HQ]. apply Hf; [done| |done]. by apply (ahead_trans j k (j + k) b c p').
  - intros e s. cbv beta. by rewrite (ahead_src _ _ _ Hb).
Qed.

Lemma from_call j k b c n (m : P A) (Q1 Q : A → Parser → Prop) p :
  ahead j b c → from c k m Q1 p → n ≤ j + k →
  (∀ x p', ahead k c p' → Q1 x p' → Q x p') → from b n m Q p.
Proof.
  intros Hb Hm Hn HQ. eapply wp_mono; [exact Hm| |].
  - intros x p' [Ha H1]. split; [|eauto]. by apply (ahead_trans j k n b c p').
  - intros e s. cbv beta. by rewrite (ahead_src _ _ _ Hb).
Qed.
End Rules.

(** ** The cursor *)

Lemma line_of_app s t i l ls :
  line_of (s ++ t) i l ls = line_of t (i + length s) (line_of s i l ls).1 (line_of s i l ls).2.
Proof.
  revert i l ls. induction s as [|c s IH]; intros i l ls; simpl.
  - by rewrite Nat.add_0_r.
  - replace (i + S (length s)) with (S i + length s) by lia. by case_if.
Qed.

Lemma line_of_start s i l ls : ls ≤ i → (line_of s i l ls).2 ≤ i + length s.
Proof.
  revert i l ls. induction s as [|c s IH]; intros i l ls H; simpl; [lia|].
  case_if; (etrans; [apply IH; lia|lia]).
Qed.

Lemma ok_loc p : parser_ok p → (p_line p, p_pos p - p_line_start p + 1) = loc (p_src p) (p_pos p).
Proof. intros H. unfold loc. by rewrite (ok_line _ H). Qed.

Lemma take_S_nth (s : bytes) n : n < length s → take (S n) s = take n s ++ [nth n s NUL].
Proof.
  revert n. induction s as [|c s IH]; intros n H; simpl in *; [lia|].
  destruct n as [|n]; [done|]. simpl. f_equal. apply IH. lia.
Qed.

Lemma at_end_true p : at_end p = true ↔ length (p_src p) ≤ p_pos p.
Proof. apply Nat.leb_le. Qed.

Lemma at_end_false p : at_end p = false ↔ p_pos p < length (p_src p).
Proof. apply Nat.leb_gt. Qed.

(** The cursor at another position of the same source. *)
Lemma parser_ok_cursor p pos line line_start :
  parser_ok p → pos ≤ length (p_src p) → line_of (take pos (p_src p)) 0 1 0 = (line, line_start) →
  parser_ok (set_p_cursor pos line line_start p).
Proof. intros [? ? ? ? ?] H1 H2. by split. Qed.

Lemma advance_pos p : p_pos (advance p) = if at_end p then p_pos p else S (p_pos p).
Proof. unfold advance. destruct (at_end p); [done|]. by case_if. Qed.

Lemma advance_src p : p_src (advance p) = p_src p.
Proof. unfold advance. destruct (at_end p); [done|]. by case_if. Qed.

Lemma advance_ahead p : parser_ok p → ahead (if at_end p then 0 else 1) p (advance p).
Proof.
  intros H. unfold advance. destruct (at_end p) eqn:E; [by apply ahead_refl|].
  apply at_end_false in E. pose proof (take_S_nth (p_src p) (p_pos p) E) as Ht.
  assert (line_of (take (S (p_pos p)) (p_src p)) 0 1 0 =
          if (peek p =? LF)%Z then (S (p_line p), S (p_pos p)) else (p_line p, p_line_start p)) as Hl.
  { rewrite Ht, line_of_app, (ok_line _ H). unfold peek, peek_at. rewrite Nat.add_0_r.
    rewrite length_take, Nat.min_l by lia. simpl. by case_if. }
  destruct (peek p =? LF)%Z; (split_and!; [done|done| |simpl; lia]);
    (apply parser_ok_cursor; [done|lia|done]).
Qed.

Lemma advance_ahead0 p : parser_ok p → ahead 0 p (advance p).
Proof. intros H. eapply ahead_weaken; [|by apply advance_ahead]. lia. Qed.

Lemma advance_n_ahead n p :
  parser_ok p → ahead (Nat.min n (remaining p)) p (advance_n p n).
Proof.
  revert p. induction n as [|n IH]; intros p H; [by apply ahead_refl|].
  change (advance_n p (S n)) with (advance_n (advance p) n).
  pose proof (advance_ahead p H) as Ha. specialize (IH _ (ahead_ok _ _ _ Ha)).
  refine (ahead_trans _ _ _ _ _ _ _ Ha IH). unfold remaining. rewrite advance_src, advance_pos.
  destruct (at_end p) eqn:E; (apply at_end_true in E || apply at_end_false in E); lia.
Qed.

Lemma advance_n_pos n p :
  p_pos p ≤ length (p_src p) → p_pos (advance_n p n) = Nat.min (p_pos p + n) (length (p_src p)).
Proof.
  revert p. induction n as [|n IH]; intros p H; [simpl; lia|].
  change (advance_n p (S n)) with (advance_n (advance p) n).
  rewrite IH; rewrite advance_src, advance_pos; destruct (at_end p) eqn:E;
    (apply at_end_true in E || apply at_end_false in E); lia.
Qed.

Lemma advance_while_fuel_spec cond fuel p :
  parser_ok p → remaining p ≤ fuel →
  let q := advance_while_fuel fuel cond p in
  ahead 0 p q ∧ (at_end q = true ∨ cond q = false) ∧
  (at_end p = false → cond p = true → ahead 1 p q).
Proof.
  revert p. induction fuel as [|fuel IH]; intros p H Hf; cbn [advance_while_fuel].
  - assert (at_end p = true) as E by (apply at_end_true; unfold remaining in Hf; lia).
    split_and!; [by apply ahead_refl|by left|congruence].
  - destruct (at_end p) eqn:E; [split_and!; [by apply ahead_refl|by left|done]|].
    destruct (cond p) eqn:Ec; [|split_and!; [by apply ahead_refl|by right|done]]. simpl.
    pose proof (advance_ahead p H) as Ha. rewrite E in Ha.
    destruct (IH (advance p)) as (H1 & H2 & _); [by apply (ahead_ok _ _ _ Ha)|..].
    { unfold remaining in *. rewrite advance_src, advance_pos, E. apply at_end_false in E. lia. }
    split_and!; [by apply (ahead_trans 1 0 0 _ _ _ ltac:(lia) Ha)|done|].
    intros _ _. by apply (ahead_trans 1 0 1 _ _ _ ltac:(lia) Ha).
Qed.

Lemma advance_while_ahead cond p : parser_ok p → ahead 0 p (advance_while cond p).
Proof. intros H. by apply advance_while_fuel_spec. Qed.

Lemma advance_while_stop cond p :
  parser_ok p → at_end (advance_while cond p) = true ∨ cond (advance_while cond p) = false.
Proof. intros H. by apply (advance_while_fuel_spec cond (remaining p) p). Qed.

Lemma advance_while_ahead1 cond p :
  parser_ok p → at_end p = false → cond p = true → ahead 1 p (advance_while cond p).
Proof. intros H. by apply (advance_while_fuel_spec cond (remaining p) p). Qed.

Lemma skip_ws_ahead p : parser_ok p → ahead 0 p (skip_ws p).
Proof. apply advance_while_ahead. Qed.

Lemma rewind_ahead n save p b : ahead n b save → ahead 0 save p → ahead n b (rewind save p).
Proof.
  intros (Hs & Hp & Hok & Hn) (Hs' & Hp' & Hok' & Hn').
  unfold rewind. split_and!; simpl; [congruence..| |done].
  apply parser_ok_cursor; [done|rewrite Hs'; apply Hok|]. rewrite Hs'. apply Hok.
Qed.

Lemma peek_not_end p c : peek p = c → c ≠ 0%Z → at_end p = false.
Proof.
  intros <- H. apply at_end_false. unfold peek, peek_at in H. rewrite Nat.add_0_r in H.
  destruct (decide (p_pos p < length (p_src p))); [done|]. rewrite nth_overflow in H by lia. done.
Qed.

(** A loop over the cursor ends when every round that goes on takes a character. *)
Lemma from_cursor_loop {X A} (body : X → P (X + A)) (I : X → Parser → Prop) (Q : A → Parser → Prop) x p :
  parser_ok p → I x p →
  (∀ x q, I x q → ahead 0 p q →
    from q 0 (body x) (λ r q', match r with inl x' => I x' q' ∧ p_pos q < p_pos q' | inr a => Q a q' end) q) →
  from p 0 (cursor_loop body x) Q p.
Proof.
  intros Hp Hx Hbody. unfold from, cursor_loop.
  apply (wp_loop remaining body (λ x q, I x q ∧ ahead 0 p q)); [|split; [done|by apply ahead_refl]|lia].
  intros y q [HI Hq]. eapply wp_mono; [by apply Hbody| |].
  - intros r q' [Ha Hr]. pose proof (ahead_trans 0 0 0 _ _ _ ltac:(lia) Hq Ha) as Hpq.
    destruct r as [y'|a]; [|done]. destruct Hr as [HI' Hlt]. split; [done|].
    pose proof (ok_pos _ (ahead_ok _ _ _ Hpq)). unfold remaining.
    rewrite (ahead_src _ _ _ Ha) in *. lia.
  - intros e q'. cbv beta. by rewrite (ahead_src _ _ _ Hq).
Qed.

(** ** Errors *)

Lemma snprintf_message s :
  s ≠ [] → snprintf_s 256 s ≠ [] ∧ (zlen (snprintf_s 256 s) < 256)%Z.
Proof.
  intros H. unfold snprintf_s. split; [by destruct s|]. rewrite zlen_ztake by lia. lia.
Qed.

Lemma from_perr {A} b n k message (Q : A → Parser → Prop) p :
  ahead k b p → message ≠ [] → from b n (perr message) Q p.
Proof.
  intros (Hs & _ & Hok & _) Hm. unfold perr. apply from_get, from_fails. simpl.
  destruct (snprintf_message _ Hm) as [H1 H2]. split_and!; [done..|].
  exists (p_pos p). rewrite <- Hs. split; [apply Hok|by apply ok_loc].
Qed.

Lemma from_perr_at {A} b n k pos message (Q : A → Parser → Prop) p :
  ahead k b p → message ≠ [] → pos < length (p_src p) → from b n (perr_at pos message) Q p.
Proof.
  intros (Hs & _ & Hok & _) Hm Hpos. unfold perr_at. apply from_get, from_fails. simpl.
  destruct (snprintf_message _ Hm) as [H1 H2]. split_and!; [done..|].
  exists pos. rewrite <- Hs. split; [lia|]. unfold loc.
  by rewrite (proj2 (Nat.ltb_lt _ _)).
Qed.

(** ** Memory *)

Lemma allocs_add_ok a got :
  al_n a ≤ al_cap a → returns (allocs_add a got) (λ r, al_n r.2 ≤ al_cap r.2).
Proof.
  intros H. unfold allocs_add. destruct got; [|by apply returns_ret]. simpl.
  destruct (al_n a =? al_cap a) eqn:E; [apply Nat.eqb_eq in E|apply Nat.eqb_neq in E].
  - apply returns_bind with (λ _, True); [done|]. intros [] _; apply returns_ret; simpl; [|done].
    destruct (al_cap a) as [|cap]; simpl; lia.
  - apply returns_ret. simpl. lia.
Qed.

(** The cursor, the tags and the parameters stay. *)
Lemma ahead_allocs a p : parser_ok p → al_n a ≤ al_cap a → ahead 0 p (set_p_allocs a p).
Proof. intros [? ? ? ? ?] Ha. split_and!; [done..| |simpl; lia]. by split. Qed.

Definition same_cursor (p p' : Parser) : Prop :=
  p_pos p' = p_pos p ∧ p_line p' = p_line p ∧ p_line_start p' = p_line_start p ∧ p_tags p' = p_tags p.

Lemma track_from p got : parser_ok p → from p 0 (track got) (λ _ p', same_cursor p p') p.
Proof.
  intros H. unfold from, wp, track.
  eapply returns_bind; [apply allocs_add_ok, H|].
  intros [ok a] Ha. apply returns_ret. unfold post. simpl. split; [by apply ahead_allocs|done].
Qed.

Lemma alloc_from p : parser_ok p → from p 0 alloc (λ _ p', p' = p) p.
Proof. intros H. apply wp_lift. intros _. split; [by apply ahead_refl|done]. Qed.

Lemma oom_from {A} b k n (Q : A → Parser → Prop) p : ahead k b p → from b n out_of_memory Q p.
Proof. intros H. by apply from_perr with k. Qed.

Lemma double_free_ahead p : parser_ok p → ahead 0 p (note_double_free p).
Proof. intros H. apply ahead_allocs; [done|apply H]. Qed.

Lemma p_dup_from p text : parser_ok p → from p 0 (p_dup text) (λ x p', x = text ∧ same_cursor p p') p.
Proof.
  intros H. unfold p_dup.
  eapply from_bind with (c := p); [by apply ahead_refl|by apply alloc_from|]. intros got p1 _ _ ->.
  case_if; [apply oom_from with 0; by apply ahead_refl|].
  eapply from_bind with (c := p); [by apply ahead_refl|by apply track_from|]. intros ok p2 Ha _ Hc.
  case_if.
  - apply from_modify, oom_from with 0.
    eapply (ahead_trans 0 0); [done|exact Ha|]. apply double_free_ahead, (ahead_ok _ _ _ Ha).
  - by apply from_ret.
Qed.

(** In the proofs below the goal is [from b n m Q p] and a hypothesis says that [p] is
    ahead of [b]: [opening] makes the first one, [calls] uses the specification of a call. *)
Ltac good := first [ solve [eauto 3 using ahead_ok, ahead_refl]
                   | solve [eapply ahead_weaken; [|eassumption]; lia] ].
Ltac opening := match goal with H : parser_ok ?p |- from ?p _ _ _ ?p => pose proof (ahead_refl p H) end.
Ltac calls spec :=
  lazymatch goal with |- from _ _ _ _ ?p =>
    eapply from_bind with (c := p); [eassumption | solve [eapply spec; good] | cbv beta] end.
Ltac last_calls spec :=
  lazymatch goal with |- from _ _ _ _ ?p =>
    eapply from_call with (c := p); [eassumption | solve [eapply spec; good] | try lia | cbv beta] end.
Ltac reads := apply from_get; cbv beta zeta.
Ltac oops :=
  unfold unbalanced, unterminated_tag, unterminated_block; cbv beta iota;
  lazymatch goal with
  | |- from _ _ out_of_memory _ _ => eapply oom_from; eassumption
  | |- from _ _ (perr _) _ _ => eapply from_perr; [eassumption|discriminate]
  end.

(** [modify f], when [f] only moves the cursor forwards. *)
Lemma from_modify_ahead {B} b n j k g (f : unit → P B) Q p :
  ahead j b p → (parser_ok p → ahead k p (g p)) →
  (∀ p', p' = g p → ahead (j + k) b p' → ahead k p p' → from b n (f tt) Q p') →
  from b n (modify g ≫= f) Q p.
Proof.
  intros Hb Hg H. apply from_modify. pose proof (Hg (ahead_ok _ _ _ Hb)) as Ha.
  apply H; [done| |done]. by apply (ahead_trans j k (j + k) b p (g p)).
Qed.

Ltac moves spec := eapply from_modify_ahead; [eassumption | intros; eapply spec; try good | cbv beta].

Lemma new_node_from p : parser_ok p → from p 0 new_node (λ line p', same_cursor p p') p.
Proof.
  intros H. opening. unfold new_node. calls alloc_from. intros g p1 _ Ha ->.
  calls track_from. intros ok p2 Ha2 Ha2' Hc. case_if; [oops|]. reads. by apply from_ret.
Qed.

Lemma append_text_from p text line :
  parser_ok p → from p 0 (append_text text line)
    (λ ns p', ns = (if bool_decide (text = []) then [] else [NText line text]) ∧ same_cursor p p') p.
Proof.
  intros H. opening. unfold append_text. case_if; [by apply from_ret|].
  calls new_node_from. intros l p1 _ Ha1 Hc1. calls p_dup_from. intros x p2 _ Ha2 [-> Hc2].
  apply from_ret; [done|]. split; [done|]. unfold same_cursor in *. intuition congruence.
Qed.

Lemma p_dup_raw_from p start end_ :
  parser_ok p → from p 0 (p_dup_raw start end_) (λ x p', x = slice p start end_ ∧ same_cursor p p') p.
Proof.
  intros H. opening. unfold p_dup_raw. case_if; [oops|]. reads.
  last_calls p_dup_from. done.
Qed.

Lemma p_dup_trim_from p start end_ :
  parser_ok p → from p 0 (p_dup_trim start end_)
    (λ x p', x = cstr (trim_space (slice p start end_)) ∧ same_cursor p p') p.
Proof.
  intros H. opening. unfold p_dup_trim. reads. calls p_dup_from. intros x p1 _ Ha [-> Hc].
  by apply from_ret.
Qed.

(** ** Words *)

Lemma read_ident_from p :
  parser_ok p → from p 1 read_ident
    (λ name _, ∃ c r, name = c :: r ∧ is_ident_start c = true) p.
Proof.
  intros H. opening. unfold read_ident. reads. case_if; [oops|]. apply negb_false_iff in Heqb.
  assert (at_end p = false) as He.
  { apply (peek_not_end p (peek p)); [done|]. intros E. by rewrite E in Heqb. }
  moves advance_while_ahead1.
  { unfold is_ident_char, isalnum. unfold is_ident_start, isalpha in Heqb.
    apply orb_true_iff in Heqb as [->| ->]; [done|]. by rewrite orb_true_r. }
  intros p1 _ Ha _. reads. last_calls p_dup_raw_from. intros x p2 _ [-> _].
  assert (p_src p1 = p_src p) as Hs by apply Ha.
  apply at_end_false in He. destruct Ha as (_ & _ & _ & Hp).
  unfold slice. rewrite Hs. unfold peek, peek_at in Heqb. rewrite Nat.add_0_r in Heqb.
  destruct (drop (p_pos p) (p_src p)) as [|c r] eqn:E.
  { apply (f_equal length) in E. rewrite length_drop in E. simpl in E. lia. }
  destruct (p_pos p1 - p_pos p) as [|k] eqn:Ek; [lia|]. exists c, (take k r).
  split; [done|]. rewrite <- (take_drop (p_pos p) (p_src p)), E, app_nth2 in Heqb.
  - rewrite length_take in Heqb. replace (p_pos p - Nat.min (p_pos p) (length (p_src p))) with 0 in Heqb by lia. done.
  - rewrite length_take. lia.
Qed.

Lemma keyword_at_length s pos kw : keyword_at s pos kw = true → kw ≠ [] → pos + length kw ≤ length s.
Proof.
  unfold keyword_at. rewrite andb_true_iff, starts_with_true. intros [[t Ht] _] Hkw.
  apply (f_equal length) in Ht. rewrite length_drop, length_app in Ht.
  destruct kw; [done|]. simpl in *. lia.
Qed.

Lemma eat_keyword_from kw p :
  parser_ok p → kw ≠ [] →
  from p 0 (eat_keyword kw) (λ (b : bool) p', if b then ahead (length kw) p p' else p' = p) p.
Proof.
  intros H Hkw. opening. unfold eat_keyword. reads.
  destruct (keyword_at (p_src p) (p_pos p) kw) eqn:E; [|by apply from_ret]. simpl.
  apply keyword_at_length in E; [|done].
  moves advance_n_ahead. intros p1 _ Ha Ha'.
  apply from_ret; [good|].
  eapply ahead_weaken; [|exact Ha']. unfold remaining. lia.
Qed.

Lemma at_end_peek p : at_end p = true → peek p = 0%Z.
Proof. intros H. apply at_end_true in H. unfold peek, peek_at. rewrite nth_overflow; [done|lia]. Qed.

(** A character of the source is taken. *)
Lemma advance_ahead1 p : parser_ok p → at_end p = false → ahead 1 p (advance p).
Proof. intros H E. pose proof (advance_ahead p H) as Ha. by rewrite E in Ha. Qed.

Lemma advance_n_ahead1 n p : parser_ok p → at_end p = false → ahead 1 p (advance_n p (S n)).
Proof.
  intros H E. eapply ahead_weaken; [|by apply advance_n_ahead].
  apply at_end_false in E. unfold remaining. lia.
Qed.

Lemma advance_n_ahead0 n p : parser_ok p → ahead 0 p (advance_n p n).
Proof. intros H. eapply ahead_weaken; [|by apply advance_n_ahead]. lia. Qed.

Lemma ahead_pos1 p q : ahead 1 p q → p_pos p < p_pos q.
Proof. intros (_&_&_&H). lia. Qed.

Ltac bools :=
  repeat match goal with
  | H : (_ && _) = true |- _ => apply andb_true_iff in H as [? ?]
  | H : (_ =? _)%Z = true |- _ => apply Z.eqb_eq in H
  | H : negb _ = true |- _ => apply negb_true_iff in H
  | H : negb _ = false |- _ => apply negb_false_iff in H
  end.

(** The character at the cursor is no NUL, so the cursor is inside the source. *)
Ltac inside := eapply peek_not_end; [eassumption|done].

(** The comment of two characters is skipped. *)
Lemma skip_comment_ahead cond p :
  parser_ok p → at_end p = false → ahead 1 p (advance_while cond (advance_n p 2)).
Proof.
  intros H E. pose proof (advance_n_ahead1 1 p H E) as Ha.
  apply (ahead_trans 1 0 1 _ _ _ ltac:(lia) Ha), advance_while_ahead. good.
Qed.

Lemma line_comment_ahead p :
  parser_ok p → peek p = "/"%ch → ahead 1 p (advance_while (λ p, negb (peek p =? LF)%Z) p).
Proof. intros H E. apply advance_while_ahead1; [done|inside|by rewrite E]. Qed.

Lemma skip_ws_comments_from p : parser_ok p → from p 0 skip_ws_comments (λ _ _, True) p.
Proof.
  intros H. eapply from_cursor_loop with (I := λ _ _, True); [done|done|].
  intros [] q _ Hq. apply ahead_ok in Hq. opening. reads.
  destruct (isspace (peek q)) eqn:Esp; [|case_if; [|case_if]]; [..|by apply from_ret].
  - assert (at_end q = false) as E.
    { destruct (at_end q) eqn:E; [|done]. apply at_end_peek in E. by rewrite E in Esp. }
    moves advance_ahead1. intros q1 _ Ha Ha'. apply from_ret; [good|].
    split; [done|by apply ahead_pos1].
  - bools. moves line_comment_ahead. intros q1 _ Ha Ha'.
    apply from_ret; [good|]. split; [done|by apply ahead_pos1].
  - bools. moves skip_comment_ahead; [inside|]. intros q1 _ Ha Ha'.
    eapply from_modify_ahead with (k := 0); [exact Ha| |].
    { intros Hok. case_if; [by apply advance_n_ahead0|by apply ahead_refl]. }
    intros q2 _ Hb Hb'. apply from_ret; [good|].
    split; [done|by apply ahead_pos1].
Qed.

(** ** C text *)

Lemma skip_quoted_from quote p : parser_ok p → from p 0 (skip_quoted quote) (λ _ _, True) p.
Proof.
  intros H. eapply from_cursor_loop with (I := λ _ _, True); [done|done|].
  intros [] q _ Hq. apply ahead_ok in Hq. opening. reads.
  destruct (at_end q) eqn:E; [by apply from_ret|]. simpl. case_if; [by apply from_ret|].
  eapply from_modify_ahead with (k := 1); [done| |].
  - intros _. case_if; [|by apply advance_ahead1].
    pose proof (advance_ahead1 q Hq E) as Ha.
    apply (ahead_trans 1 0 1 _ _ _ ltac:(lia) Ha), advance_ahead0. good.
  - intros q1 _ Ha Ha'. apply from_ret; [good|].
    split; [done|by apply ahead_pos1].
Qed.

(** Where the scanner leaves: at the brace it looked for, or behind the bracket. *)
Definition scan_end (mode : ScanMode) (end_ : nat) (p : Parser) : Prop :=
  if bool_decide (mode = SCAN_TO_BRACE) then end_ = p_pos p ∧ peek p = "{"%ch else p_pos p = S end_.

Lemma advance_next p : at_end p = false → p_pos (advance p) = S (p_pos p).
Proof. intros E. by rewrite advance_pos, E. Qed.

(** The round has gone on. *)
Lemma from_continue {X A} (x : X) (Q : A → Parser → Prop) q q' :
  ahead 1 q q' →
  from q 0 (continue_with x)
    (λ r q', match r with inl x' => True ∧ p_pos q < p_pos q' | inr a => Q a q' end) q'.
Proof.
  intros H. apply from_ret; [good|]. split; [done|by apply ahead_pos1].
Qed.

Lemma scan_round_from mode depth q :
  parser_ok q →
  from q 0 (scan_round mode depth)
    (λ r q', match r with
             | inl _ => True ∧ p_pos q < p_pos q'
             | inr e => p_pos q ≤ e ∧ scan_end mode e q'
             end) q.
Proof.
  intros H. opening. unfold scan_round. reads.
  destruct (at_end q) eqn:E; [case_if; oops|].
  case_if; [bools; moves line_comment_ahead; intros; by apply from_continue|].
  case_if.
  { bools. moves skip_comment_ahead. intros q1 _ Ha _. reads. case_if; [oops|].
    moves advance_n_ahead0. intros. apply from_continue. good. }
  case_if.
  { moves advance_ahead1. intros q1 _ Ha _. calls skip_quoted_from. intros [] q2 _ Hb _. reads.
    case_if; [oops|]. moves advance_ahead0. intros. apply from_continue. good. }
  case_if.
  { case_if; [|moves advance_ahead1; intros; by apply from_continue].
    bools. apply from_ret; [done|]. split; [done|]. unfold scan_end. by case_if. }
  case_if; [|moves advance_ahead1; intros; by apply from_continue].
  case_if; [|case_if; [oops|]; moves advance_ahead1; intros; by apply from_continue].
  case_if; [oops|]. bools. moves advance_ahead1. intros q1 -> Ha Ha'.
  apply from_ret; [good|]. split; [done|]. unfold scan_end. rewrite H2. by apply advance_next.
Qed.

Lemma scan_c_from mode p :
  parser_ok p →
  from p 0 (scan_c mode)
    (λ se p', se.1 = p_pos p ∧ p_pos p ≤ se.2 ∧ scan_end mode se.2 p') p.
Proof.
  intros H. opening. unfold scan_c. reads.
  eapply from_bind with (Q1 := λ e p', p_pos p ≤ e ∧ scan_end mode e p'); [eassumption| |].
  - eapply from_cursor_loop with (I := λ _ _, True); [done|done|]. intros d q _ Hq.
    eapply wp_mono; [apply scan_round_from; good| |done].
    intros [x|e] q' [Ha HQ]; split; [done..|done|]. destruct Hq as (_&_&_&Hq). destruct HQ. split; [lia|done].
  - intros e p' _ Ha [H1 H2]. by apply from_ret.
Qed.

(** The cursor after a scanned expression: [f] is the length of what it takes. *)
Lemma scan_expr_from mode p :
  parser_ok p →
  from p (if bool_decide (mode = SCAN_TO_BRACE) then 0 else 1) (scan_expr mode)
    (λ x p', nul_free x ∧ (mode = SCAN_TO_BRACE → peek p' = "{"%ch)) p.
Proof.
  intros H. opening. unfold scan_expr. calls scan_c_from.
  intros [s e] p1 Ha Ha' (Hs & He & Hend). simpl in *.
  assert (ahead (if bool_decide (mode = SCAN_TO_BRACE) then 0 else 1) p p1) as Ha1.
  { destruct Ha as (?&?&?&?). unfold scan_end in Hend. case_if; split_and!; done || lia. }
  eapply from_call; [exact Ha1|apply p_dup_trim_from; good|lia|].
  intros x p2 Hb [-> Hc]. split; [apply cstr_nul_free|]. intros ->.
  unfold scan_end in Hend. destruct Hend as [_ Hp]. unfold peek, peek_at in *.
  destruct Hc as [-> _]. by rewrite (ahead_src _ _ _ Hb).
Qed.

(** ** Nodes *)

(** What the generator needs of a node: expressions are C strings that are not empty,
    builtins have their arguments and blocks. *)
Inductive node_ok : Node → Prop :=
  | text_ok line text : text ≠ [] → node_ok (NText line text)
  | interp_ok line expr ctx children :
      expr ≠ [] → nul_free expr → children = streq expr (str "children...") →
      (children = true → ctx = CTX_TEXT) → node_ok (NInterp line expr ctx children)
  | call_ok line callee args data_expr block comp :
      callee ≠ [] → builtin_check callee args data_expr block = None →
      nul_free (default [] args) → nul_free (default [] data_expr) → Forall node_ok block →
      node_ok (NCall line callee args data_expr block comp None)
  | if_ok line expr then_ otherwise :
      expr ≠ [] → nul_free expr → Forall node_ok then_ → Forall node_ok otherwise →
      node_ok (NIf line expr then_ otherwise)
  | for_ok line expr then_ :
      expr ≠ [] → nul_free expr → Forall node_ok then_ → node_ok (NFor line expr then_).

Abbreviation nodes_ok := (Forall node_ok).

Lemma append_text_nodes p text line :
  parser_ok p → from p 0 (append_text text line) (λ ns p', nodes_ok ns ∧ same_cursor p p') p.
Proof.
  intros H. opening. last_calls append_text_from. intros ns p' _ [-> Hc]. split; [|done].
  case_if; [done|]. apply Forall_singleton, text_ok. by apply bool_decide_eq_false in Heqb.
Qed.

Lemma append_slice_from p start end_ line :
  parser_ok p → from p 0 (append_slice start end_ line) (λ ns p', nodes_ok ns ∧ same_cursor p p') p.
Proof.
  intros H. opening. unfold append_slice. case_if.
  - calls new_node_from. intros. oops.
  - reads. last_calls append_text_nodes. done.
Qed.

Lemma tag_text_from p start line :
  parser_ok p → from p 0 (tag_text start line) (λ ns p', nodes_ok ns ∧ same_cursor p p') p.
Proof. intros H. opening. unfold tag_text. reads. by last_calls append_slice_from. Qed.

Lemma parse_interp_from ctx p :
  parser_ok p → from p 1 (parse_interp ctx) (λ ns _, nodes_ok ns) p.
Proof.
  intros H. opening. unfold parse_interp. moves advance_ahead0. intros p1 _ Ha _.
  calls scan_expr_from. intros expr p2 _ Hb [Hn _]. simpl in Hb.
  calls new_node_from. intros line p3 _ Hc _. destruct (streq expr _) eqn:E.
  - destruct (negb _) eqn:Ec; [oops|]. bools. apply bool_decide_eq_true in Ec.
    apply from_ret; [good|]. apply Forall_singleton. apply streq_true in E.
    apply interp_ok; [by rewrite E|done| |done]. by rewrite E, streq_refl.
  - case_if; [oops|]. apply from_ret; [good|]. apply Forall_singleton.
    apply bool_decide_eq_false in Heqb. by apply interp_ok.
Qed.

Lemma classify_attr_from s e p : parser_ok p → from p 0 (classify_attr s e) (λ _ p', p' = p) p.
Proof. intros H. opening. unfold classify_attr. reads. repeat (case_if; [by apply from_ret || oops|]). by apply from_ret. Qed.

(** ** Tags *)

Lemma ahead_tags tags p :
  parser_ok p → length tags ≤ TAG_STACK_MAX → Forall (frame_ok (p_src p)) tags →
  ahead 0 p (set_p_tags tags p).
Proof. intros [? ? ? ? ?] H1 H2. split_and!; [done..| |simpl; lia]. by split. Qed.

Lemma skip_to_gt_from p : parser_ok p → from p 0 skip_to_gt (λ _ _, True) p.
Proof.
  intros H. opening. unfold skip_to_gt. moves advance_while_ahead. intros p1 _ Ha _. reads.
  case_if; [oops|]. apply wp_modify. split; [|done].
  apply (ahead_trans 0 0 0 _ _ _ ltac:(lia) Ha), advance_ahead0. good.
Qed.

Lemma parse_comment_from p start line :
  parser_ok p → from p 0 (parse_comment start line) (λ ns _, nodes_ok ns) p.
Proof.
  intros H. opening. unfold parse_comment. moves advance_while_ahead. intros p1 _ Ha _. reads.
  case_if; [oops|]. moves advance_n_ahead0. intros p2 _ Hb _. last_calls tag_text_from. tauto.
Qed.

Lemma parse_doctype_from p start line :
  parser_ok p → from p 0 (parse_doctype start line) (λ ns _, nodes_ok ns) p.
Proof.
  intros H. opening. unfold parse_doctype. calls skip_to_gt_from. intros [] p1 _ Ha _.
  last_calls tag_text_from. tauto.
Qed.

Lemma read_tag_name_from p :
  parser_ok p →
  from p 0 read_tag_name
    (λ name p', name = slice p (p_pos p) (p_pos p') ∧
                p' = advance_while (λ p, is_tag_char (peek p)) p) p.
Proof.
  intros H. opening. unfold read_tag_name. reads. moves advance_while_ahead. intros p1 -> Ha _. reads.
  by apply from_ret.
Qed.

Lemma pop_tag_from start name p :
  parser_ok p → start < length (p_src p) → from p 0 (pop_tag start name) (λ _ _, True) p.
Proof.
  intros H Hs. opening. unfold pop_tag. reads.
  case_if; [by eapply from_perr_at|]. case_if; [by eapply from_perr_at|].
  destruct (p_tags p) as [|top tags] eqn:E; [by eapply from_perr_at|].
  case_if; [by eapply from_perr_at|]. apply wp_modify. split; [|done].
  pose proof (ok_depth _ H) as Hd. pose proof (ok_frames _ H) as Hf. rewrite E in Hd, Hf.
  apply ahead_tags; [done|simpl in Hd; lia|]. by apply Forall_cons in Hf as [_ ?].
Qed.

Lemma parse_close_tag_from p start line :
  parser_ok p → start < length (p_src p) →
  from p 0 (parse_close_tag start line) (λ ns _, nodes_ok ns) p.
Proof.
  intros H Hs. opening. unfold parse_close_tag. moves advance_ahead0. intros p1 _ Ha _.
  calls read_tag_name_from. intros name p2 _ Hb _. calls skip_to_gt_from. intros [] p3 _ Hc _.
  eapply from_bind with (c := p3); [eassumption|apply pop_tag_from; [good|]|].
  { by rewrite (ahead_src _ _ _ Hc). }
  intros [] p4 _ Hd _. last_calls tag_text_from. tauto.
Qed.

Lemma push_tag_from start line name p :
  parser_ok p → start < length (p_src p) → line = (loc (p_src p) start).1 →
  starts_with (str "<" ++ name) (drop start (p_src p)) = true → 1 ≤ length name ≤ TAG_NAME_MAX →
  from p 0 (push_tag start line name) (λ _ _, True) p.
Proof.
  intros H Hs Hl Hn Hlen. opening. unfold push_tag. reads.
  destruct (is_void_tag name) eqn:Ev; [by apply from_ret|].
  case_if; [by eapply from_perr_at|]. case_if; [by eapply from_perr_at|].
  apply wp_modify. split; [|done]. pose proof (ok_depth _ H) as Hd. apply Nat.eqb_neq in Heqb0.
  apply ahead_tags; [done|simpl; lia|]. constructor; [|apply H]. destruct Hlen. by split_and!.
Qed.

(** ** Inside an opening tag *)

Lemma append_quote_from p : parser_ok p → from p 0 append_quote (λ ns _, nodes_ok ns) p.
Proof. intros H. opening. unfold append_quote. reads. last_calls append_text_nodes. tauto. Qed.

Lemma mret_from {A} p (x : A) : parser_ok p → from p 0 (mret x) (λ y p', y = x ∧ p' = p) p.
Proof. intros H. apply from_ret; [good|done]. Qed.

Lemma quote_from (bare : bool) p :
  parser_ok p → from p 0 (if bare then append_quote else mret []) (λ ns _, nodes_ok ns) p.
Proof.
  intros H. destruct bare; [by apply append_quote_from|]. apply from_ret; [good|done].
Qed.

Lemma ts_flushed_ok pos ns st : nodes_ok (ts_nodes st) → nodes_ok ns → nodes_ok (ts_nodes (ts_flushed pos ns st)).
Proof. intros. by apply Forall_app. Qed.

Lemma attr_interp_from bare line st p :
  parser_ok p → nodes_ok (ts_nodes st) →
  from p 1 (attr_interp bare line st) (λ st' _, nodes_ok (ts_nodes st')) p.
Proof.
  intros H Hst. opening. unfold attr_interp. calls classify_attr_from. intros ctx p1 _ Ha _.
  calls tag_text_from. intros before p2 _ Hb [Hns _]. calls quote_from. intros open p3 _ Hc Ho.
  calls parse_interp_from. intros interp p4 _ Hd Hi. calls quote_from. intros close p5 _ He Hcl.
  reads. apply from_ret; [good|]. apply ts_flushed_ok; [done|]. by rewrite !Forall_app.
Qed.

Lemma attr_bool_from line st p :
  parser_ok p → nodes_ok (ts_nodes st) →
  from p 1 (attr_bool line st) (λ st' _, nodes_ok (ts_nodes st')) p.
Proof.
  intros H Hst. opening. unfold attr_bool. reads. case_if; [oops|].
  calls append_slice_from. intros before p1 _ Ha [Hns _]. moves advance_n_ahead0. intros p2 _ Hb _.
  reads. case_if; [oops|]. calls new_node_from. intros l p3 _ Hc _.
  moves advance_ahead0. intros p4 _ Hd _. calls scan_expr_from. intros cond p5 _ He [Hnul _].
  simpl in He. case_if; [oops|]. calls new_node_from. intros l' p6 _ Hf _.
  calls alloc_from. intros got p7 _ Hg _.
  eapply from_bind with (c := p7) (Q1 := λ _ _, True); [eassumption| |].
  { instantiate (1 := 0). assert (parser_ok p7) by good. opening. destruct got; [last_calls track_from; done|by apply from_ret]. }
  intros ok p8 _ Hi _. case_if; [oops|]. reads. apply from_ret; [good|].
  apply bool_decide_eq_false in Heqb1. apply ts_flushed_ok; [done|].
  apply Forall_app. split; [done|]. apply Forall_singleton, if_ok; [done..| |done].
  by apply Forall_singleton, text_ok.
Qed.

Definition tag_next (q : Parser) (r : TagScan + list Node) (q' : Parser) : Prop :=
  match r with inl st => nodes_ok (ts_nodes st) ∧ p_pos q < p_pos q' | inr ns => nodes_ok ns end.

Lemma tag_continue q st q' :
  ahead 1 q q' → nodes_ok (ts_nodes st) → from q 0 (continue_with st) (tag_next q) q'.
Proof. intros H Hst. apply from_ret; [good|]. split; [done|by apply ahead_pos1]. Qed.

Lemma tag_round_from start line st q :
  parser_ok q → nodes_ok (ts_nodes st) → from q 0 (tag_round start line st) (tag_next q) q.
Proof.
  intros H Hst. opening. unfold tag_round. reads.
  destruct (at_end q) eqn:E; [unfold unterminated_tag; oops|]. case_if; [case_if|].
  { calls attr_interp_from. intros st' q1 Ha _ Hst'. by apply tag_continue. }
  { moves advance_ahead1. intros q1 _ Ha _. apply tag_continue; [done|by case_if]. }
  case_if; [moves advance_ahead1; intros; by apply tag_continue|].
  case_if; [moves advance_ahead1; intros; by apply tag_continue|].
  case_if; [case_if; [|oops]|].
  { calls attr_interp_from. intros st' q1 Ha _ Hst'. by apply tag_continue. }
  case_if.
  { calls attr_bool_from. intros st' q1 Ha _ Hst'. by apply tag_continue. }
  case_if.
  { moves advance_ahead1. intros q1 _ Ha _. calls tag_text_from. intros ns q2 _ Hb [Hns _].
    apply from_ret; [good|]. by apply Forall_app. }
  case_if.
  { moves advance_ahead1. intros q1 _ Ha _. reads. by apply tag_continue. }
  moves advance_ahead1. intros. by apply tag_continue.
Qed.

Lemma parse_raw_text_from name p :
  parser_ok p → from p 0 (parse_raw_text name) (λ ns _, nodes_ok ns) p.
Proof.
  intros H. opening. unfold parse_raw_text. reads. moves advance_while_ahead. intros p1 _ Ha _. reads.
  case_if; [oops|]. last_calls append_slice_from. tauto.
Qed.

Lemma slice_S (p : Parser) s e :
  s < e → e ≤ length (p_src p) → slice p s e = nth s (p_src p) NUL :: slice p (S s) e.
Proof.
  intros Hs He. unfold slice. replace (e - s) with (S (e - S s)) by lia.
  destruct (drop s (p_src p)) as [|c r] eqn:E.
  { apply (f_equal length) in E. rewrite length_drop in E. simpl in E. lia. }
  assert (r = drop (S s) (p_src p)) as ->.
  { replace (S s) with (s + 1) by lia. by rewrite <- drop_drop, E. }
  assert (nth s (p_src p) 0%Z = c) as ->; [|done].
  rewrite <- (take_drop s (p_src p)), E, app_nth2; rewrite length_take; [|lia].
  by replace (s - Nat.min s (length (p_src p))) with 0 by lia.
Qed.

Lemma slice_starts p s e : starts_with (slice p s e) (drop s (p_src p)) = true.
Proof. apply starts_with_true. exists (drop (e - s) (drop s (p_src p))). unfold slice. by rewrite take_drop. Qed.

Lemma slice_length p s e : length (slice p s e) = Nat.min (e - s) (length (p_src p) - s).
Proof. unfold slice. by rewrite length_take, length_drop. Qed.

Lemma slice_ahead n p q s e : ahead n p q → slice q s e = slice p s e.
Proof. intros H. unfold slice. by rewrite (ahead_src _ _ _ H). Qed.

(** The bracket at [start] and the name behind it. *)
Lemma tag_name_frame b start e :
  nth start (p_src b) NUL = "<"%ch → S start ≤ e → e ≤ length (p_src b) →
  starts_with (str "<" ++ slice b (S start) e) (drop start (p_src b)) = true.
Proof.
  intros Hc H1 H2. change (str "<" ++ ?x) with ("<"%ch :: x). rewrite <- Hc, <- slice_S by lia. apply slice_starts.
Qed.

Lemma parse_open_tag_from start line p :
  parser_ok p → p_pos p = S start → nth start (p_src p) NUL = "<"%ch → line = (loc (p_src p) start).1 →
  from p 0 (parse_open_tag start line) (λ ns _, nodes_ok ns) p.
Proof.
  intros H Hpos Hc Hl. opening. unfold parse_open_tag. reads. case_if; [oops|]. bools.
  assert (at_end p = false) as He.
  { apply (peek_not_end p (peek p)); [done|]. intros E. by rewrite E in Heqb. }
  calls read_tag_name_from. intros name p1 _ Ha [-> Hp1].
  assert (ahead 1 p p1) as Ha1.
  { rewrite Hp1. apply advance_while_ahead1; [done..|]. unfold is_tag_char, is_ident_char, isalnum.
    unfold is_ident_start, isalpha in Heqb. apply orb_true_iff in Heqb as [->| ->]; [done|].
    by rewrite orb_true_r. }
  pose proof (ok_pos _ (ahead_ok _ _ _ Ha)) as Hok1. rewrite (ahead_src _ _ _ Ha) in Hok1.
  pose proof (ahead_pos1 _ _ Ha1) as Hlt.
  case_if; [oops|]. apply Nat.ltb_ge in Heqb0. reads.
  eapply from_bind with (c := p1); [eassumption| |].
  { eapply from_cursor_loop with (I := λ st _, nodes_ok (ts_nodes st)); [good|done|].
    intros st q Hst Hq. apply tag_round_from; [good|done]. }
  cbv beta. intros tag p2 _ Hb Htag.
  eapply from_bind with (c := p2); [eassumption|apply push_tag_from; [good| | | |]|].
  - rewrite (ahead_src _ _ _ Hb). apply at_end_false in He. lia.
  - by rewrite (ahead_src _ _ _ Hb).
  - rewrite (ahead_src _ _ _ Hb), Hpos. apply tag_name_frame; [done|lia..].
  - rewrite slice_length in *. lia.
  - intros [] p3 _ Hd _. case_if; [|case_if]; [..|apply from_ret; [good|done]];
      (calls parse_raw_text_from; intros raw p4 _ Hf Hraw; apply from_ret; [good|by apply Forall_app]).
Qed.

Lemma parse_element_from p :
  parser_ok p → peek p = "<"%ch → from p 1 parse_element (λ ns _, nodes_ok ns) p.
Proof.
  intros H Hc. opening. unfold parse_element. reads. assert (at_end p = false) as He by inside.
  pose proof (advance_next p He) as Hn. apply at_end_false in He as Hlt.
  moves advance_ahead1. intros p1 -> Ha _. reads. rewrite Nat.add_0_l in Ha.
  case_if; [by last_calls parse_comment_from|]. case_if; [by last_calls parse_doctype_from|].
  case_if.
  - eapply from_call with (c := advance p); [eassumption|apply parse_close_tag_from; [good|]|lia|done].
    by rewrite advance_src.
  - eapply from_call with (c := advance p); [eassumption|apply parse_open_tag_from; [good|done|..]|lia|done].
    + rewrite advance_src. unfold peek, peek_at in Hc. by rewrite Nat.add_0_r in Hc.
    + rewrite advance_src. by rewrite <- (ok_loc p H).
Qed.

(** ** Bodies *)

Lemma ahead_remaining k p q : ahead k p q → remaining q + k ≤ remaining p.
Proof.
  intros (Hs & _ & Hok & Hk). pose proof (ok_pos _ Hok) as H. unfold remaining. rewrite Hs in *. lia.
Qed.

(** The parser of nested bodies is good for sources with less than [n] characters left. *)
Definition body_from (n : nat) (pb : P (list Node)) : Prop :=
  ∀ p, parser_ok p → remaining p < n → from p 0 pb (λ ns _, nodes_ok ns) p.

Lemma parse_block_from n pb msg p :
  body_from n pb → msg ≠ [] → parser_ok p → remaining p < n →
  from p 1 (parse_block pb msg) (λ ns _, nodes_ok ns) p.
Proof.
  intros Hpb Hm H Hn. opening. unfold parse_block.
  eapply from_bind with (c := p); [eassumption|by apply Hpb|]. cbv beta. intros ns p1 _ Ha Hns. reads.
  case_if; [by eapply from_perr|]. bools. moves advance_ahead1; [inside|]. intros p2 _ Hb _.
  by apply from_ret.
Qed.

Ltac calls_block Hpb :=
  lazymatch goal with |- from _ _ _ _ ?p =>
    eapply from_bind with (c := p);
      [eassumption
      | eapply parse_block_from; [exact Hpb|done|good|]
      | cbv beta] end.

Lemma ahead_less n k p q : remaining p < n → ahead k p q → remaining q < n.
Proof. intros H Ha. apply ahead_remaining in Ha. lia. Qed.

Lemma ahead_less1 n k p q : remaining p < S n → ahead (S k) p q → remaining q < n.
Proof. intros H Ha. apply ahead_remaining in Ha. lia. Qed.

Lemma parse_with_from p :
  parser_ok p → from p 0 (parse_with p) (λ d _, nul_free (default [] d)) p.
Proof.
  intros H. opening. unfold parse_with. moves skip_ws_ahead. intros p1 _ Ha _.
  eapply from_bind with (c := p1); [eassumption|by apply eat_keyword_from; [good|]|].
  cbv beta. intros w p2 _ Hb _. case_if; [by apply from_ret; [good|constructor]|].
  moves skip_ws_ahead. intros p3 _ Hc _. reads. case_if.
  - apply from_modify, from_ret; [|constructor]. apply rewind_ahead; [done|good].
  - moves advance_ahead0. intros p4 _ Hd _. calls scan_expr_from. intros d p5 _ He [Hn _].
    simpl in He. moves skip_ws_ahead. intros p6 _ Hf _. apply from_ret; [good|done].
Qed.

Lemma parse_args_from p :
  parser_ok p →
  from p 0 (if negb (peek p =? "("%ch)%Z then mret None
            else _ ← modify advance; args ← scan_expr SCAN_MATCH_PAREN; mret (Some args))
    (λ d _, nul_free (default [] d)) p.
Proof.
  intros H. opening. case_if; [by apply from_ret; [good|constructor]|].
  moves advance_ahead0. intros p1 _ Ha _. calls scan_expr_from. intros d p2 _ Hb [Hn _].
  simpl in Hb. by apply from_ret; [good|].
Qed.

Lemma builtin_message name args data_expr block msg :
  builtin_check name args data_expr block = Some msg → msg ≠ [].
Proof. unfold builtin_check. repeat case_if; congruence || (intros [= <-]; done). Qed.

Lemma parse_call_from n pb p :
  body_from n pb → parser_ok p → remaining p < S n →
  from p 1 (parse_call pb) (λ ns _, nodes_ok ns) p.
Proof.
  intros Hpb H Hn. opening. unfold parse_call. moves advance_ahead0. intros p1 _ Ha _. reads.
  calls read_ident_from. intros name p2 _ Hb (c & r & Hname & _). reads.
  eapply from_bind with (c := p2); [eassumption|apply parse_args_from; good|]. cbv beta.
  intros args p3 _ Hc Hargs. reads. calls parse_with_from. intros data p4 Hd' Hd Hdata. reads.
  eapply from_bind with (c := p3) (k := 0) (Q1 := λ ns _, nodes_ok ns); [exact Hc| |].
  { case_if.
    - bools. moves advance_ahead0. intros p5 _ He _.
      pose proof (ahead_trans 1 0 1 _ _ _ ltac:(lia) Hc He) as Hall.
      eapply from_call with (c := p5) (k := 1) (Q1 := λ ns _, nodes_ok ns); [eassumption| |lia|done].
      eapply parse_block_from; [exact Hpb|done|good|by apply (ahead_less1 n 0 p)].
    - apply from_modify, from_ret; [|done]. apply rewind_ahead; [good|done]. }
  cbv beta. intros block p5 _ He Hblock. destruct (builtin_check _ _ _ _) as [msg|] eqn:Em.
  - eapply from_perr; [eassumption|by eapply builtin_message].
  - reads. calls new_node_from. intros l p6 _ Hf _. apply from_ret; [good|].
    apply Forall_singleton. by apply call_ok; [rewrite Hname|..].
Qed.

Lemma parse_for_from n pb p :
  body_from n pb → parser_ok p → remaining p < S n →
  from p 1 (parse_for pb) (λ ns _, nodes_ok ns) p.
Proof.
  intros Hpb H Hn. opening. unfold parse_for. reads. calls scan_expr_from.
  intros e p1 _ Ha [Hnul Hbr]. simpl in Ha. specialize (Hbr eq_refl). case_if; [oops|].
  moves advance_ahead1; [inside|]. intros p2 _ Hb _. calls new_node_from. intros l p3 _ Hc _.
  calls_block Hpb; [by eapply (ahead_less1 n 0 p)|]. intros ns p4 _ Hd Hns.
  apply bool_decide_eq_false in Heqb. apply from_ret; [good|]. by apply Forall_singleton, for_ok.
Qed.

Lemma parse_if_from n pb fuel p :
  body_from n pb → parser_ok p → remaining p < S n → remaining p < fuel →
  from p 1 (parse_if fuel pb) (λ ns _, nodes_ok ns) p.
Proof.
  intros Hpb. revert p. induction fuel as [|fuel IH]; intros p H Hn Hf; [lia|]. opening.
  cbn [parse_if]. reads. calls scan_expr_from. intros e p1 _ Ha [Hnul Hbr]. simpl in Ha.
  specialize (Hbr eq_refl). case_if; [oops|]. apply bool_decide_eq_false in Heqb.
  moves advance_ahead1; [inside|]. intros p2 _ Hb _. calls new_node_from. intros l p3 _ Hc _.
  calls_block Hpb; [by eapply (ahead_less1 n 0 p)|]. intros then_ p4 _ Hd Hthen. reads.
  assert (ahead 0 p4 p4) as H4 by good. moves skip_ws_ahead. intros p5 _ He He'.
  eapply from_bind with (c := p5); [eassumption|apply eat_keyword_from; [good|done]|].
  cbv beta. intros [] p6 Hg Hf' Helse; simpl.
  - clear Helse. moves skip_ws_ahead. intros p7 _ Hi _.
    eapply from_bind with (c := p7); [eassumption|apply eat_keyword_from; [good|done]|].
    cbv beta. intros [] p8 _ Hj Hif.
    + eapply from_bind with (c := p8); [eassumption| |].
      { apply IH; [good|..]; pose proof (ahead_remaining _ _ _ Hj); lia. }
      cbv beta. intros chain p9 _ Hk Hchain. apply from_ret; [good|].
      by apply Forall_singleton, if_ok.
    + reads. case_if; [|oops]. bools. moves advance_ahead1; [inside|]. intros p9 _ Hk _.
      calls_block Hpb; [pose proof (ahead_remaining _ _ _ Hk); lia|]. intros o p10 _ Hl Ho.
      apply from_ret; [good|]. by apply Forall_singleton, if_ok.
  - apply from_modify, from_ret; [|by apply Forall_singleton, if_ok].
    apply rewind_ahead; [good|]. refine (ahead_trans 0 0 0 _ _ _ ltac:(lia) He' Hg).
Qed.

Definition item_ok (p : Parser) (item : option (list Node)) (p' : Parser) : Prop :=
  match item with None => True | Some ns => nodes_ok ns ∧ p_pos p < p_pos p' end.

Lemma some_item n (m : P (list Node)) p0 p :
  ahead n p0 p → from p 1 m (λ ns _, nodes_ok ns) p →
  from p0 0 (ns ← m; mret (Some ns)) (item_ok p0) p.
Proof.
  intros Ha Hm. eapply from_bind; [exact Ha|exact Hm|]. intros ns p' _ Hb Hns.
  apply from_ret; [good|]. split; [done|]. destruct Hb as (_&_&_&Hb). lia.
Qed.

Lemma parse_text_from p :
  parser_ok p → at_end p = false → from p 0 parse_text (item_ok p) p.
Proof.
  intros H He. opening. unfold parse_text. reads. moves advance_ahead1. intros p1 _ Ha _.
  moves advance_while_ahead. intros p2 _ Hb _. reads. case_if; [unfold unterminated_block; oops|].
  case_if; [case_if; [oops|by apply from_ret; [good|]]|].
  calls append_slice_from. intros ns p3 _ Hc [Hns _]. apply from_ret; [good|]. split; [done|].
  destruct Hc as (_&_&_&Hc). lia.
Qed.

(** The keyword that was seen behind the white space is taken. *)
Lemma eat_keyword_at k kw p :
  parser_ok p → kw ≠ [] → p_pos p ≤ k → keyword_at (p_src p) k kw = true →
  let p1 := advance_n p (k - p_pos p) in
  from p1 (length kw) (eat_keyword kw) (λ _ _, True) p1.
Proof.
  intros H Hkw Hk E p1. pose proof (keyword_at_length _ _ _ E Hkw) as Hl.
  pose proof (advance_n_ahead0 (k - p_pos p) p H) as Ha. change (ahead 0 p p1) in Ha.
  assert (p_pos p1 = k) as Hp1.
  { unfold p1. rewrite advance_n_pos by (by apply ok_pos). lia. }
  assert (parser_ok p1) as H1 by good. opening. unfold eat_keyword. reads.
  rewrite (ahead_src _ _ _ Ha), Hp1, E. simpl.
  moves advance_n_ahead. intros p2 _ Hb _. apply from_ret; [|done].
  eapply ahead_weaken; [|exact Hb]. unfold remaining. rewrite (ahead_src _ _ _ Ha), Hp1. lia.
Qed.

Lemma parse_run_from n fuel pb p :
  body_from n pb → parser_ok p → at_end p = false → remaining p < S n → remaining p < S fuel →
  from p 0 (parse_run fuel pb) (item_ok p) p.
Proof.
  intros Hpb H He Hn Hf. opening. unfold parse_run. reads.
  pose proof (skip_ws_ahead p H) as (_ & _ & _ & Hk). rewrite Nat.add_0_r in Hk.
  case_if.
  { eapply from_perr_at; [eassumption|done|]. apply keyword_at_length in Heqb; [|done]. simpl in Heqb. lia. }
  case_if; [|case_if; [|by apply parse_text_from]].
  - moves advance_n_ahead0. intros p1 -> Ha _.
    eapply from_bind; [exact Ha|by apply eat_keyword_at|]. cbv beta.
    intros w p2 _ Hb _. eapply some_item; [exact Hb|]. apply ahead_remaining in Hb as Hr. simpl in Hr.
    apply (parse_if_from n); [done|good|lia..].
  - moves advance_n_ahead0. intros p1 -> Ha _.
    eapply from_bind; [exact Ha|by apply eat_keyword_at|]. cbv beta.
    intros w p2 _ Hb _. eapply some_item; [exact Hb|]. apply ahead_remaining in Hb as Hr.
    apply (parse_for_from n); [done|good|lia].
Qed.

Lemma parse_item_from n fuel pb p :
  body_from n pb → parser_ok p → remaining p < S n → remaining p < S fuel →
  from p 0 (parse_item fuel pb) (item_ok p) p.
Proof.
  intros Hpb H Hn Hf. opening. unfold parse_item. reads.
  destruct (peek p =? NUL)%Z eqn:E0; [unfold unterminated_block; oops|]. apply Z.eqb_neq in E0.
  assert (at_end p = false) as He by by apply (peek_not_end p (peek p)).
  case_if; [by apply from_ret|].
  case_if; [bools; eapply some_item; [eassumption|by apply parse_element_from]|].
  case_if; [eapply some_item; [eassumption|by apply parse_interp_from]|].
  case_if; [eapply some_item; [eassumption|by apply (parse_call_from n)]|].
  by apply (parse_run_from n).
Qed.

Lemma parse_body_fuel_from fuel : body_from fuel (parse_body_fuel fuel).
Proof.
  induction fuel as [|fuel IH]; intros p H Hf; [lia|]. opening. cbn [parse_body_fuel].
  eapply from_bind with (c := p); [eassumption|by apply (parse_item_from fuel)|]. cbv beta.
  intros [ns|] p1 Ha' Ha Hitem; [|by apply from_ret; [good|]]. destruct Hitem as [Hns Hlt1].
  eapply from_bind with (c := p1); [eassumption| |].
  { apply IH; [by eapply ahead_ok|]. pose proof (ok_pos _ (ahead_ok _ _ _ Ha)).
    unfold remaining in *. rewrite (ahead_src _ _ _ Ha) in *. lia. }
  cbv beta. intros rest p2 _ Hb Hrest. clear IH. apply from_ret; [good|by apply Forall_app].
Qed.

(** The parser of a body ends, in nodes the generator can print or in an error. *)
Lemma parse_body_from p : parser_ok p → from p 0 parse_body (λ ns _, nodes_ok ns) p.
Proof.
  intros H. pose proof (parse_body_fuel_from (S (remaining p)) p H) as Hb.
  unfold from, wp in *. unfold parse_body. apply Hb. lia.
Qed.

(** C23: the parser of bodies keeps its state well formed - the cursor inside the source,
    line and column those of the cursor, the tag stack a list of opening tags of the
    source that fits its array - and what it returns is typed as the generator needs it:
    expressions and conditions are not empty, [children...] stands in text only, builtins
    have their argument and their block.  Otherwise the error names a place in the source. *)
Theorem parse_body_typed p w :
  parser_ok p →
  let r := result (parse_body p) w in
  match r.1 with
  | inr ns => nodes_ok ns ∧ parser_ok r.2 ∧ p_src r.2 = p_src p ∧ p_params r.2 = p_params p ∧ p_pos p ≤ p_pos r.2
  | inl e => located (p_src p) e
  end.
Proof.
  intros H. pose proof (parse_body_from p H w) as Hw. unfold post in Hw. cbv zeta.
  destruct (result (parse_body p) w) as [[e|ns] p']; cbn [fst snd] in *; [done|].
  destruct Hw as ((Hs & Hp & Hok & Hle) & Hns). rewrite Nat.add_0_r in Hle. by split_and!.
Qed.

Definition sample_parser : Parser :=
  {| p_src := str "<p id={ a }>{ b }</p>}"; p_pos := 0; p_line := 1; p_line_start := 0;
     p_allocs := {| al_n := 0; al_cap := 0; al_oom := false; al_double_free := false |};
     p_params := None; p_tags := [] |}.

Lemma parse_body_typed_witness :
  parser_ok sample_parser ∧
  let r := result (parse_body sample_parser) quiet_world in
  nodes_ok (match r.1 with inr ns => ns | inl _ => [] end) ∧ parser_ok r.2 ∧ p_pos r.2 = 21.
Proof.
  assert (parser_ok sample_parser) as H.
  { split; [vm_compute; lia|reflexivity|vm_compute; lia|vm_compute; lia|constructor]. }
  split; [exact H|]. pose proof (parse_body_typed sample_parser quiet_world H) as Hr. cbv zeta in *.
  destruct (result (parse_body sample_parser) quiet_world) as [[e|ns] p'] eqn:E; cbn [fst snd] in *.
  - exfalso. vm_compute in E. discriminate.
  - destruct Hr as (Hns & Hp & _). split; [exact Hns|]. split; [exact Hp|]. vm_compute in E.
    injection E as _ <-. reflexivity.
Defined.

(** ** Contexts of attributes *)

(** The context the name of an attribute calls for; [None]: no expression may stand there. *)
Definition attr_context (name : bytes) : option Ctx :=
  if is_script_attr (zlen name) name then None
  else if existsb (λ a, strcaseeq a name) url_attrs then Some CTX_URL
  else if strcaseeq (str "style") name then Some CTX_CSS
  else Some CTX_ATTR.

Lemma starts_with_take a s :
  (length a ≤ length s) → starts_with a s = streq a (take (length a) s).
Proof.
  revert s. induction a as [|c a IH]; intros s H; [done|]. destruct s as [|d s]; [simpl in H; lia|].
  simpl in *. rewrite IH by lia. unfold streq. destruct (c =? d)%Z eqn:E.
  - apply Z.eqb_eq in E. subst. simpl. apply bool_decide_ext. split; [by intros <-|by intros [= ?]].
  - apply Z.eqb_neq in E. simpl. symmetry. apply bool_decide_eq_false. by intros [= ? _].
Qed.

Lemma starts_with_ci_exact a s n :
  n ≤ length s → (zlen a =? Z.of_nat n)%Z && starts_with_ci a s = strcaseeq a (take n s).
Proof.
  intros Hn. unfold strcaseeq, starts_with_ci, zlen. destruct (Z.of_nat (length a) =? Z.of_nat n)%Z eqn:E; simpl.
  - apply Z.eqb_eq in E. apply Nat2Z.inj in E. subst n.
    rewrite starts_with_take by (by rewrite !length_map). by rewrite length_map, firstn_map.
  - symmetry. apply Z.eqb_neq in E. apply streq_false. intros H. apply (f_equal length) in H.
    rewrite !length_map, length_take in H. lia.
Qed.

Lemma starts_with_ci_take a s n :
  length a ≤ n → n ≤ length s → starts_with_ci a (take n s) = starts_with_ci a s.
Proof.
  intros Ha Hn. unfold starts_with_ci. rewrite !starts_with_take by (rewrite !length_map, ?length_take; lia).
  rewrite !length_map, <- !firstn_map, firstn_firstn. by rewrite Nat.min_l.
Qed.

Lemma classify_attr_wp p s e :
  s < e → e ≤ length (p_src p) → (zlen (p_src p) < 2 ^ 64)%Z →
  wp (classify_attr s e) (λ ctx p', attr_context (slice p s e) = Some ctx ∧ p' = p)
    (λ _ _, attr_context (slice p s e) = None) p.
Proof.
  intros Hs He Hlen.
  assert (zlen (slice p s e) = Z.of_nat (e - s)) as Hn by (unfold zlen; rewrite slice_length; lia).
  assert (to_size_t (Z.of_nat e - Z.of_nat s) = Z.of_nat (e - s)) as Hw.
  { rewrite to_size_t_id; unfold zlen in *; lia. }
  assert (e - s ≤ length (drop s (p_src p))) as Hd by (rewrite length_drop; lia).
  unfold classify_attr. apply wp_get_bind. cbv zeta. rewrite Hw. unfold attr_context. rewrite Hn.
  destruct (Z.of_nat (e - s) =? 0)%Z eqn:E0; [apply Z.eqb_eq in E0; lia|].
  assert (is_script_attr (Z.of_nat (e - s)) (slice p s e) = is_script_attr (Z.of_nat (e - s)) (drop s (p_src p))) as ->.
  { unfold is_script_attr, slice. f_equal.
    - destruct (3 <=? Z.of_nat (e - s))%Z eqn:E; [|done]. apply Z.leb_le in E. cbn [andb].
      apply starts_with_ci_take; [cbn; lia|done].
    - destruct (6 <=? Z.of_nat (e - s))%Z eqn:E; [|done]. apply Z.leb_le in E. cbn [andb].
      apply starts_with_ci_take; [cbn; lia|done]. }
  destruct (is_script_attr _ _) eqn:Esc; [unfold perr; apply wp_get_bind; by apply wp_fails|].
  assert (∀ l, existsb (λ a, (zlen a =? Z.of_nat (e - s))%Z && starts_with_ci a (drop s (p_src p))) l =
               existsb (λ a, strcaseeq a (slice p s e)) l) as ->.
  { induction l as [|a l IH]; [done|]. cbn [existsb]. by rewrite starts_with_ci_exact, IH. }
  destruct (existsb _ _); [by apply wp_ret|].
  change (Z.of_nat (e - s) =? 5)%Z with (Z.of_nat (e - s) =? zlen (str "style"))%Z.
  rewrite Z.eqb_sym, starts_with_ci_exact by done. fold (slice p s e).
  destruct (strcaseeq _ _); by apply wp_ret.
Qed.

(** The context of an attribute expression is decided by the name in front of the
    equals sign, compared case-insensitively: URL attributes get the URL writer, [style]
    the CSS writer, all others the plain one - and the classifier refuses exactly the
    script attributes, [on...] and [hx-on:...]. *)
Lemma classify_attr_spec p s e w :
  s < e → e ≤ length (p_src p) → (zlen (p_src p) < 2 ^ 64)%Z →
  let r := result (classify_attr s e p) w in
  match r.1 with
  | inr ctx => attr_context (slice p s e) = Some ctx ∧ r.2 = p
  | inl _ => attr_context (slice p s e) = None
  end.
Proof.
  intros Hs He Hlen. cbv zeta. pose proof (classify_attr_wp p s e Hs He Hlen w) as H. unfold post in H.
  destruct (result (classify_attr s e p) w) as [[err|ctx] q]; exact H.
Qed.
