(* ===== verification/CtmplGen.v ===== *)
(** * The template compiler: generating C

    The second half of [src/tools/ctmpl.c]: components and directives of a file, the
    lambdas of child blocks, and the C text that is written for them. *)

From S2P Require Import Prelude CLib World StateErr Response Tpl Ctmpl.
#[local] Open Scope Z_scope.

(** ** Files *)

Record Component := { c_name : bytes; c_params : bytes; c_line : nat; c_body : list Node }.

(** What was read of a file, in the order of the source. *)
Record Unit := { u_comps : list Component; u_hash : list bytes; u_once : list bytes }.

Definition reserved_names : list bytes :=
  [str "lit"; str "lit_n"; str "raw"; str "raw_n"; str "esc"; str "attr"; str "int";
   str "fmt"; str "url"; str "ok"; str "str"; str "len"; str "fragment"; str "once"].

Definition name_is_reserved (name : bytes) : bool :=
  starts_with (str "tpl_") name || existsb (streq name) reserved_names.

(** The array of strings grows by one. *)
Definition grow_array : P unit := ok ← alloc; if (ok : bool) then mret tt else out_of_memory.

(** A line that starts with a hash. *)
Definition parse_hash_line (u : Unit) : P Unit :=
  p ← get;
  _ ← modify (advance_while (λ p, negb (peek p =? LF)));
  p' ← get;
  line ← p_dup_raw (p_pos p) (p_pos p');
  _ ← grow_array;
  mret {| u_comps := u_comps u; u_hash := u_hash u ++ [line]; u_once := u_once u |}.

(** [once name] *)
Definition parse_once (u : Unit) : P Unit :=
  _ ← modify skip_ws;
  hname ← read_ident;
  if existsb (λ o, streq o hname) (u_once u) then
    perr (str "once handle '" ++ hname ++ str "' is already declared")
  else
    _ ← grow_array;
    mret {| u_comps := u_comps u; u_hash := u_hash u; u_once := u_once u ++ [hname] |}.

(** The body is parsed with the parameters of the component and an empty tag stack. *)
Definition parse_component_body (params : bytes) : P (list Node) :=
  _ ← modify (λ p, set_p_tags [] (set_p_params (Some params) p));
  body ← parse_body;
  _ ← modify (set_p_params None);
  p ← get;
  match p_tags p with
  | top :: _ =>
      perr_at (tf_pos top) (str "unclosed <" ++ tf_name top ++ str "> (opened at line " ++
                            fmt_nat (tf_line top) ++ str ") — tags must be closed within the component")
  | [] =>
      if negb (peek p =? "}"%ch) then perr (str "expected '}' to close the component")
      else _ ← modify advance; mret body
  end.

(** [name(params) { body }], behind the keyword. *)
Definition parse_component (decl_line : nat) : P Component :=
  _ ← modify skip_ws;
  name ← read_ident;
  if name_is_reserved name then
    perr (str "component name '" ++ name ++ str "' collides with the runtime")
  else
    _ ← modify skip_ws;
    p ← get;
    if negb (peek p =? "("%ch) then perr (str "expected '(' after the component name")
    else
      _ ← modify advance;
      params ← scan_expr SCAN_MATCH_PAREN;
      _ ← modify skip_ws;
      p ← get;
      if negb (peek p =? "{"%ch) then perr (str "expected '{' to open the component body")
      else
        _ ← modify advance;
        got ← alloc;
        ok ← track got;
        if negb ok then out_of_memory
        else
          body ← parse_component_body params;
          mret {| c_name := name; c_params := params; c_line := decl_line; c_body := body |}.

Definition unit_round (u : Unit) : P (Unit + Unit) :=
  _ ← skip_ws_comments;
  p ← get;
  if at_end p then break_with u
  else if peek p =? "#"%ch then u ← parse_hash_line u; continue_with u
  else
    let decl_line := p_line p in
    once ← eat_keyword (str "once");
    if (once : bool) then u ← parse_once u; continue_with u
    else
      component ← eat_keyword (str "component");
      if negb component then perr (str "expected 'component', 'once' or '#<directive>'")
      else
        c ← parse_component decl_line;
        continue_with {| u_comps := u_comps u ++ [c]; u_hash := u_hash u; u_once := u_once u |}.

Definition parse_unit : P Unit :=
  u ← cursor_loop unit_round {| u_comps := []; u_hash := []; u_once := [] |};
  if bool_decide (u_comps u = []) then
    fails (Failed {| err_message := str "no components found"; err_line := 0; err_col := 0 |})
  else mret u.

(** ** Child blocks *)

(** The commas outside brackets and quotes; [None] when a backslash ends the list inside
    a quote: then the code walks over the terminator. *)
Fixpoint commas (s : bytes) (depth quote : Z) (count : nat) : option nat :=
  match s with
  | [] => Some count
  | c :: s' =>
      if negb (quote =? 0) then
        if c =? BACKSLASH then match s' with [] => None | _ :: s'' => commas s'' depth quote count end
        else commas s' depth (if c =? quote then 0 else quote) count
      else if (c =? DQUOTE) || (c =? "'"%ch) then commas s' depth c count
      else if has_chr c (str "([{") then commas s' (depth + 1) 0 count
      else if has_chr c (str ")]}") then commas s' (depth - 1) 0 count
      else if (c =? ","%ch) && (depth =? 0) then commas s' depth 0 (S count)
      else commas s' depth 0 count
  end.

Definition count_top_level_commas (s : bytes) : option nat := commas s 0 0 0.

(** The name of a single plain parameter. *)
Definition extract_param_name (s : bytes) : option bytes :=
  let t := rtrim isspace s in
  let pre := rtrim is_ident_char t in
  let name := drop (length pre) t in
  if bool_decide (name = []) then None
  else
    match last pre with
    | None => Some name
    | Some prev => if isspace prev || (prev =? "*"%ch) then Some name else None
    end.

Inductive BlockMode := BLOCK_UNTYPED | BLOCK_VOID0 | BLOCK_ONE (name : bytes).

Definition takes_no_params (params : bytes) : bool := bool_decide (params = []) || streq params (str "void").

Definition block_mode (data_expr comp : option bytes) : BlockMode :=
  match data_expr, comp with
  | None, Some params =>
      if takes_no_params params then BLOCK_VOID0
      else
        match count_top_level_commas params with
        | Some O => match extract_param_name params with Some name => BLOCK_ONE name | None => BLOCK_UNTYPED end
        | _ => BLOCK_UNTYPED
        end
  | _, _ => BLOCK_UNTYPED
  end.

(** ** The emitter

    The streams are what was written to them.  [em_overread] is a ghost: a literal was
    printed without its terminator. *)

Record Emitter := {
  em_in_name : bytes;
  em_h : bytes;
  em_c : bytes;
  em_lambdas : list Node;
  em_lambda_cap : nat;
  em_failed : bool;
  em_overread : bool;
}.

Definition put_h (s : bytes) (e : Emitter) : Emitter :=
  {| em_in_name := em_in_name e; em_h := em_h e ++ s; em_c := em_c e; em_lambdas := em_lambdas e;
     em_lambda_cap := em_lambda_cap e; em_failed := em_failed e; em_overread := em_overread e |}.
Definition put_c (s : bytes) (e : Emitter) : Emitter :=
  {| em_in_name := em_in_name e; em_h := em_h e; em_c := em_c e ++ s; em_lambdas := em_lambdas e;
     em_lambda_cap := em_lambda_cap e; em_failed := em_failed e; em_overread := em_overread e |}.
Definition set_em_failed (e : Emitter) : Emitter :=
  {| em_in_name := em_in_name e; em_h := em_h e; em_c := em_c e; em_lambdas := em_lambdas e;
     em_lambda_cap := em_lambda_cap e; em_failed := true; em_overread := em_overread e |}.
Definition note_overread (e : Emitter) : Emitter :=
  {| em_in_name := em_in_name e; em_h := em_h e; em_c := em_c e; em_lambdas := em_lambdas e;
     em_lambda_cap := em_lambda_cap e; em_failed := em_failed e; em_overread := true |}.
Definition set_em_lambdas (ns : list Node) (cap : nat) (e : Emitter) : Emitter :=
  {| em_in_name := em_in_name e; em_h := em_h e; em_c := em_c e; em_lambdas := ns;
     em_lambda_cap := cap; em_failed := em_failed e; em_overread := em_overread e |}.

Definition G (A : Type) : Type := SE Emitter unit A.

(** [fprintf] to the [.c] stream. *)
Definition print (s : bytes) : G unit := modify (put_c s).
Definition print_h (s : bytes) : G unit := modify (put_h s).

Definition emit_failed {A} : G A := _ ← modify set_em_failed; fails (Failed tt).

(** ** Literals *)

Record SBuf := { sb_d : bytes; sb_cap : Z; sb_failed : bool }.

Definition empty_sbuf : SBuf := {| sb_d := []; sb_cap := 0; sb_failed := false |}.

(** Doubling; the fuel passes every size below [2 ^ 64]. *)
Fixpoint sb_grow (fuel : nat) (cap need : Z) : Z :=
  match fuel with
  | O => cap
  | S fuel => if cap <? need then sb_grow fuel (cap * 2) need else cap
  end.

Definition sb_putn (sb : SBuf) (s : bytes) : M SBuf :=
  if sb_failed sb || bool_decide (s = []) then mret sb
  else
    let need := zlen (sb_d sb) + zlen s in
    if sb_cap sb <? need then
      let cap := sb_grow 64 (if sb_cap sb =? 0 then 64 else sb_cap sb) need in
      ok ← malloc;
      if negb ok then mret {| sb_d := sb_d sb; sb_cap := sb_cap sb; sb_failed := true |}
      else mret {| sb_d := sb_d sb ++ s; sb_cap := cap; sb_failed := false |}
    else mret {| sb_d := sb_d sb ++ s; sb_cap := sb_cap sb; sb_failed := false |}.

Definition sb_puts (sb : SBuf) (s : bytes) : M SBuf := sb_putn sb s.

(** [%03o] *)
Definition fmt_03o (c : Z) : bytes := map (λ d, "0"%ch + d) [c / 64; c / 8 mod 8; c mod 8].

(** What stands for a character in a C string literal. *)
Definition c_escape (c : Z) : bytes :=
  if c =? DQUOTE then [BACKSLASH; DQUOTE]
  else if c =? BACKSLASH then [BACKSLASH; BACKSLASH]
  else if c =? LF then [BACKSLASH; "n"%ch]
  else if c =? HT then [BACKSLASH; "t"%ch]
  else if c =? CR then [BACKSLASH; "r"%ch]
  else if (c <? 0x20) || (c =? 0x7f) then BACKSLASH :: fmt_03o c
  else [c].

Definition emit_c_char (sb : SBuf) (c : Z) : M SBuf := sb_puts sb (c_escape c).

Fixpoint emit_c_chars (sb : SBuf) (s : bytes) : M SBuf :=
  match s with [] => mret sb | c :: s => sb ← emit_c_char sb c; emit_c_chars sb s end.

(** Consecutive texts make one literal, which is ended when it gets long. *)
Fixpoint merge_texts (sb : SBuf) (total : Z) (ns : list Node) : M (SBuf * list Node) :=
  match ns with
  | NText _ text :: rest =>
      sb ← emit_c_chars sb text;
      let total := total + zlen text in
      if 4000 <? total then mret (sb, rest) else merge_texts sb total rest
  | _ => mret (sb, ns)
  end.

(** ** Lambdas *)

(** The node of a child block gets the next name and joins the list. *)
Definition register_lambda (lambda : bytes → Node) : G Node :=
  e ← get;
  let node := lambda (str "tpl__block_" ++ fmt_nat (S (length (em_lambdas e)))) in
  ok ← lift malloc;
  if negb ok then emit_failed
  else if (length (em_lambdas e) =? em_lambda_cap e)%nat then
    ok ← lift malloc;
    if negb ok then emit_failed
    else
      _ ← modify (set_em_lambdas (em_lambdas e ++ [node])
                    (if (em_lambda_cap e =? 0)%nat then 8 else em_lambda_cap e * 2));
      mret node
  else _ ← modify (set_em_lambdas (em_lambdas e ++ [node]) (em_lambda_cap e)); mret node.

(** Post-order, so that inner blocks come first. *)
Fixpoint collect_lambda (n : Node) : G Node :=
  let fix collect_lambdas (ns : list Node) : G (list Node) :=
    match ns with
    | [] => mret []
    | n :: ns => n ← collect_lambda n; ns ← collect_lambdas ns; mret (n :: ns)
    end in
  match n with
  | NIf line expr then_ otherwise =>
      otherwise ← collect_lambdas otherwise;
      then_ ← collect_lambdas then_;
      mret (NIf line expr then_ otherwise)
  | NFor line expr then_ => then_ ← collect_lambdas then_; mret (NFor line expr then_)
  | NCall line callee args data_expr block comp gen_name =>
      block ← collect_lambdas block;
      if negb (bool_decide (block = [])) && negb (is_builtin_callee callee) then
        register_lambda (λ name, NCall line callee args data_expr block comp (Some name))
      else mret (NCall line callee args data_expr block comp gen_name)
  | n => mret n
  end.

Fixpoint collect_lambdas (ns : list Node) : G (list Node) :=
  match ns with
  | [] => mret []
  | n :: ns => n ← collect_lambda n; ns ← collect_lambdas ns; mret (n :: ns)
  end.

Fixpoint collect_components (cs : list Component) : G (list Component) :=
  match cs with
  | [] => mret []
  | c :: cs =>
      body ← collect_lambdas (c_body c);
      cs ← collect_components cs;
      mret ({| c_name := c_name c; c_params := c_params c; c_line := c_line c; c_body := body |} :: cs)
  end.

(** ** Statements *)

Definition quoted (s : bytes) : bytes := [DQUOTE] ++ s ++ [DQUOTE].

Definition emit_line_directive (line : nat) : G unit :=
  e ← get;
  print (str "#line " ++ fmt_nat line ++ str " " ++ quoted (em_in_name e) ++ [LF]).

(** Four blanks a level. *)
Definition indent (depth : nat) : bytes := replicate (depth * 4) SP.

(** An indented line. *)
Definition print_line (depth : nat) (s : bytes) : G unit := print (indent depth ++ s ++ [LF]).

Definition writer (ctx : Ctx) : bytes :=
  match ctx with
  | CTX_TEXT => str "tpl_esc"
  | CTX_ATTR => str "tpl_attr"
  | CTX_URL => str "tpl_attr_url"
  | CTX_CSS => str "tpl_attr_css"
  end.

Definition emit_interp (depth line : nat) (expr : bytes) (ctx : Ctx) (children : bool) : G unit :=
  _ ← emit_line_directive line;
  if children then
    _ ← print_line depth (str "if (children != NULL && children->fn != NULL) {");
    _ ← print_line (S depth) (str "children->fn(out, children->data);");
    print_line depth (str "}")
  else print_line depth (writer ctx ++ str "(out, (" ++ expr ++ str "));").

(** The literal of the texts [ns] starts with; the rest of the nodes. *)
Definition emit_texts (depth : nat) (ns : list Node) : G (list Node) :=
  r ← lift (merge_texts empty_sbuf 0 ns);
  if sb_failed r.1 then emit_failed
  else
    sb ← lift (sb_putn r.1 [NUL]);
    _ ← (if sb_failed sb then modify note_overread else mret tt);
    _ ← print_line depth (str "tpl_lit(out, " ++ quoted (cstr (sb_d sb)) ++ str ");");
    mret r.2.

(** The function and the data of a child block; [data] holds 256 bytes, [fn] 96. *)
Definition block_binding (mode : BlockMode) (gen_name : bytes) (data_expr : option bytes) : bytes * bytes :=
  match mode with
  | BLOCK_VOID0 => (snprintf_s 96 (gen_name ++ str "_adapter"), str "NULL")
  | BLOCK_ONE name =>
      (snprintf_s 96 (gen_name ++ str "_adapter"), snprintf_s 256 (str "(void *)(" ++ name ++ str ")"))
  | BLOCK_UNTYPED =>
      (snprintf_s 96 gen_name,
       match data_expr with
       | Some data => snprintf_s 256 (str "(void *)(" ++ data ++ str ")")
       | None => str "NULL"
       end)
  end.

(** The arguments of a call, each behind a comma. *)
Definition call_args (args : option bytes) : bytes :=
  if is_missing args then [] else str ", " ++ default [] args.

(** [emit_block] prints the nodes of a block that is rendered in place. *)
Definition emit_call (emit_block : nat → list Node → G unit) (depth line : nat) (callee : bytes)
    (args data_expr : option bytes) (block : list Node) (comp gen_name : option bytes) : G unit :=
  _ ← emit_line_directive line;
  if streq callee (str "raw") then
    print_line depth (str "tpl_raw(out, (" ++ default [] args ++ str "));")
  else if streq callee (str "fragment") then
    _ ← print_line depth (str "{");
    _ ← print_line (S depth) (str "tpl_frag_begin(out, (" ++ default [] args ++ str "));");
    _ ← emit_block (S depth) block;
    _ ← print_line (S depth) (str "tpl_frag_end(out);");
    print_line depth (str "}")
  else if streq callee (str "once") then
    _ ← print_line depth (str "if (tpl_once_begin(out, &(" ++ default [] args ++ str "))) {");
    _ ← emit_block (S depth) block;
    print_line depth (str "}")
  else if bool_decide (block = []) then
    print_line depth (str "tpl_" ++ callee ++ str "(out" ++ call_args args ++ str ");")
  else
    let binding := block_binding (block_mode data_expr comp) (default [] gen_name) data_expr in
    _ ← print_line depth (str "{");
    _ ← print_line (S depth) (str "TplChildren tpl_children = {" ++ binding.1 ++ str ", " ++ binding.2 ++ str "};");
    _ ← print_line (S depth) (str "tpl_" ++ callee ++ str "(out" ++ call_args args ++ str ", &tpl_children);");
    print_line depth (str "}").

(** [if] on the first round, [else if] afterwards. *)
Fixpoint emit_if_chain (fuel : nat) (emit_nodes : nat → list Node → G unit) (first : bool) (depth line : nat)
    (expr : bytes) (then_ otherwise : list Node) : G unit :=
  match fuel with
  | O => fails OutOfFuel
  | S fuel =>
      _ ← emit_line_directive line;
      _ ← print_line depth ((if first then str "if (" else str "} else if (") ++ expr ++ str ") {");
      _ ← emit_nodes (S depth) then_;
      match otherwise with
      | [] => print_line depth (str "}")
      | [NIf line expr then_ otherwise] =>
          emit_if_chain fuel emit_nodes false depth line expr then_ otherwise
      | _ =>
          _ ← print_line depth (str "} else {");
          _ ← emit_nodes (S depth) otherwise;
          print_line depth (str "}")
      end
  end.

Fixpoint emit_nodes (fuel : nat) (depth : nat) (ns : list Node) : G unit :=
  match fuel with
  | O => fails OutOfFuel
  | S fuel =>
      match ns with
      | [] => mret tt
      | NText _ _ :: _ => rest ← emit_texts depth ns; emit_nodes fuel depth rest
      | n :: rest =>
          _ ← match n with
              | NInterp line expr ctx children => emit_interp depth line expr ctx children
              | NCall line callee args data_expr block comp gen_name =>
                  emit_call (emit_nodes fuel) depth line callee args data_expr block comp gen_name
              | NIf line expr then_ otherwise =>
                  emit_if_chain fuel (emit_nodes fuel) true depth line expr then_ otherwise
              | NFor line expr then_ =>
                  _ ← emit_line_directive line;
                  _ ← print_line depth (str "for (" ++ expr ++ str ") {");
                  _ ← emit_nodes fuel (S depth) then_;
                  print_line depth (str "}")
              | NText _ _ => mret tt
              end;
          emit_nodes fuel depth rest
      end
  end.

(** The calls [emit_nodes] nests; a literal and a link of a chain take one too. *)
Fixpoint node_size (n : Node) : nat :=
  match n with
  | NText _ _ | NInterp _ _ _ _ => 1
  | NCall _ _ _ _ block _ _ => S (list_sum (map node_size block))
  | NIf _ _ then_ otherwise => S (list_sum (map node_size then_) + list_sum (map node_size otherwise))
  | NFor _ _ then_ => S (list_sum (map node_size then_))
  end.

Definition nodes_size (ns : list Node) : nat := list_sum (map node_size ns).

Definition emit_body (ns : list Node) : G unit := emit_nodes (S (nodes_size ns)) 1 ns.

(** ** Functions *)

(** The parameters behind [TplOut *out]. *)
Definition c_parameters (params : bytes) : bytes :=
  if takes_no_params params then str "(TplOut *out)" else str "(TplOut *out, " ++ params ++ str ")".

Definition prototype (c : Component) : bytes := str "void tpl_" ++ c_name c ++ c_parameters (c_params c).

(** The adapter has the type of [TplChildren.fn]. *)
Definition emit_adapter (mode : BlockMode) (gen_name : bytes) : G unit :=
  match mode with
  | BLOCK_UNTYPED => mret tt
  | _ =>
      _ ← print_line 0 (str "static void " ++ gen_name ++ str "_adapter(TplOut *out, void *tpl_data)");
      _ ← print_line 0 (str "{");
      _ ← match mode with
          | BLOCK_VOID0 =>
              _ ← print_line 1 (str "(void)tpl_data;");
              print_line 1 (gen_name ++ str "(out);")
          | _ => print_line 1 (gen_name ++ str "(out, tpl_data);")
          end;
      print_line 0 (str "}")
  end.

Definition emit_lambda (n : Node) : G unit :=
  match n with
  | NCall _ _ _ data_expr block comp (Some gen_name) =>
      let mode := block_mode data_expr comp in
      _ ← print_line 0 (str "static void " ++ gen_name ++
            match mode with
            | BLOCK_VOID0 => str "(TplOut *out)"
            | BLOCK_ONE _ => str "(TplOut *out, " ++ default [] comp ++ str ")"
            | BLOCK_UNTYPED => str "(TplOut *out, void *tpl_data)"
            end);
      _ ← print_line 0 (str "{");
      _ ← match mode with
          | BLOCK_UNTYPED => print_line 1 (str "/* child data: 'with (...)' via tpl_data, or out->ctx */")
          | _ => mret tt
          end;
      _ ← emit_body block;
      _ ← print_line 0 (str "}");
      _ ← emit_adapter mode gen_name;
      print_line 0 []
  | _ => mret tt
  end.

Definition emit_component (c : Component) : G unit :=
  _ ← print_line 0 (prototype c);
  _ ← print_line 0 (str "{");
  _ ← emit_line_directive (c_line c);
  _ ← (if bool_decide (c_body c = []) then print_line 1 (str "(void)out;") else emit_body (c_body c));
  _ ← print_line 0 (str "}");
  print_line 0 [].

(** [for (i = 0; i < n; i++) emit(xs[i])] *)
Fixpoint emit_each {X} (emit : X → G unit) (xs : list X) : G unit :=
  match xs with [] => mret tt | x :: xs => _ ← emit x; emit_each emit xs end.

(** ** The program *)

(** What follows the last [c]. *)
Definition after_last (c : Z) (s : bytes) : bytes := drop (length (rtrim (λ x, negb (x =? c)) s)) s.

Definition path_base (path : bytes) : bytes := after_last BACKSLASH (after_last "/"%ch path).

Definition THTML : bytes := str ".thtml".

Definition stem_of_path (path : bytes) : bytes :=
  let base := path_base path in
  let n := (length base - 6)%nat in
  if (6 <? length base)%nat && streq (drop n base) THTML then take n base else base.

Definition toupper (c : Z) : Z := if is_lower c then c - 32 else c.

(** Five characters are stored for an empty stem, and four are counted. *)
Definition guard_of_stem (stem : bytes) : bytes :=
  (if bool_decide (stem = []) then take 4 (str "CTMPL")
   else map (λ c, if isalnum c then toupper c else "_"%ch) stem) ++ str "_TEMPL_H".

(** A tracked block for a string. *)
Definition tracked (s : bytes) : P (option bytes) :=
  got ← alloc;
  ok ← track got;
  mret (if (ok : bool) then Some s else None).

Definition stem_name (path : bytes) : P (option bytes) := tracked (stem_of_path path).
Definition guard_name (stem : bytes) : P (option bytes) := tracked (guard_of_stem stem).

Definition notice (in_name : bytes) : bytes := str "/* Generated by ctmpl from " ++ in_name ++ str " - DO NOT EDIT */".

Definition lines (ls : list bytes) : bytes := concat (map (λ l, l ++ [LF]) ls).

(** The text of the header. *)
Definition h_file_text (in_name guard : bytes) (u : Unit) : bytes :=
  lines ([notice in_name; str "#ifndef " ++ guard; str "#define " ++ guard; [];
          str "#include " ++ quoted (str "c_http_tpl.h")] ++
         (if bool_decide (u_hash u = []) then [] else [] :: map cstr (u_hash u)) ++
         [[]] ++ map (λ c, prototype c ++ str ";") (u_comps u) ++
         [[]; str "#endif /* " ++ guard ++ str " */"]).

Definition once_text (once : list bytes) : bytes :=
  if bool_decide (once = []) then []
  else lines ([str "/* render-once handles (see @once) */"] ++
              map (λ o, str "static TplOnce " ++ o ++ str " = {.name = " ++ quoted o ++ str "};") once ++ [[]]).

Definition generate (stem guard : bytes) (u : Unit) : G unit :=
  e ← get;
  _ ← print_h (h_file_text (em_in_name e) guard u);
  _ ← print (lines [notice (em_in_name e); str "#include " ++ quoted (stem ++ str "_templ.h"); []]);
  _ ← print (once_text (u_once u));
  comps ← collect_components (u_comps u);
  e ← get;
  _ ← emit_each emit_lambda (em_lambdas e);
  emit_each emit_component comps.

Definition no_error : CtmplError := {| err_message := []; err_line := 0; err_col := 0 |}.

(** An error that says nothing is the one of the generator. *)
Definition final_error (err : CtmplError) : CtmplError :=
  if bool_decide (err_message err = []) then
    {| err_message := str "internal error"; err_line := err_line err; err_col := err_col err |}
  else err.

Definition new_parser (src : bytes) : Parser :=
  {| p_src := src; p_pos := 0; p_line := 1; p_line_start := 0;
     p_allocs := {| al_n := 0; al_cap := 0; al_oom := false; al_double_free := false |};
     p_params := None; p_tags := [] |}.

Definition new_emitter (in_name : bytes) : Emitter :=
  {| em_in_name := in_name; em_h := []; em_c := []; em_lambdas := []; em_lambda_cap := 0;
     em_failed := false; em_overread := false |}.

(** Reading a file, its stem and guard included. *)
Definition parse_file (in_name : bytes) : P (Unit * bytes * bytes) :=
  u ← parse_unit;
  stem ← stem_name in_name;
  guard ← guard_name (default [] stem);
  match stem, guard with
  | Some stem, Some guard => mret (u, stem, guard)
  | _, _ => fails (Failed no_error)
  end.

(** The outcome: [None] stands for a computation without end, which does not occur. *)
Record CtmplResult := {
  r_outcome : option (option CtmplError);   (** [Some None]: 0 is returned *)
  r_h : bytes;
  r_c : bytes;
  r_double_free : bool;
  r_overread : bool;
}.

Definition outcome {A} (r : Failure CtmplError + A) : option (option CtmplError) :=
  match r with
  | inr _ => Some None
  | inl (Failed err) => Some (Some (final_error err))
  | inl OutOfFuel => None
  end.

(** [streams]: both streams are given.  The pointer to the error is not NULL. *)
Definition ctmpl_compile (src : option bytes) (in_name : option bytes) (streams : bool) : M CtmplResult :=
  match src with
  | Some src =>
      if negb streams then
        mret {| r_outcome := Some (Some {| err_message := str "invalid arguments"; err_line := 0; err_col := 0 |});
                r_h := []; r_c := []; r_double_free := false; r_overread := false |}
      else
        let in_name := default (str "input") in_name in
        r ← parse_file in_name (new_parser src);
        match r.1 with
        | inr (u, stem, guard) =>
            g ← generate stem guard u (new_emitter in_name);
            mret {| r_outcome := outcome (match g.1 with
                                          | inr x => inr x
                                          | inl (Failed _) => inl (Failed no_error)
                                          | inl OutOfFuel => inl OutOfFuel
                                          end);
                    r_h := em_h g.2; r_c := em_c g.2;
                    r_double_free := al_double_free (p_allocs r.2); r_overread := em_overread g.2 |}
        | inl e =>
            mret {| r_outcome := outcome (inl e : Failure CtmplError + unit); r_h := []; r_c := [];
                    r_double_free := al_double_free (p_allocs r.2); r_overread := false |}
        end
  | None =>
      mret {| r_outcome := Some (Some {| err_message := str "invalid arguments"; err_line := 0; err_col := 0 |});
              r_h := []; r_c := []; r_double_free := false; r_overread := false |}
  end.
