(* ===== verification/CtmplProg.v ===== *)
(** * The template compiler: what the generator guarantees

    [ctmpl_compile] of [src/tools/ctmpl.c] ends on every input, and says why when it
    fails; literals survive the C compiler; the text written for a component is the
    program the template stands for. *)

From S2P Require Import Prelude CLib World StateErr Response Tpl Ctmpl CtmplParse CtmplGen.
#[local] Open Scope nat_scope.

(** ** Reading a file *)

(** The parser between components. *)
Definition outside (p : Parser) : Prop := p_params p = None.

Lemma ahead_outside k p q : outside p → ahead k p q → outside q.
Proof. unfold outside, ahead. intuition congruence. Qed.

Lemma parse_component_body_from params p :
  parser_ok p → outside p → from p 0 (parse_component_body params) (λ ns _, nodes_ok ns) p.
Proof.
  intros H Hout. unfold parse_component_body. apply from_modify.
  set (p1 := set_p_tags [] _). assert (parser_ok p1) as H1.
  { destruct H. split; simpl; [done..|unfold TAG_STACK_MAX; lia|constructor]. }
  apply wp_bind. eapply wp_mono; [by apply parse_body_from| |done]. cbv beta.
  intros ns p2 [Ha Hns]. apply from_modify. set (p3 := set_p_params None p2).
  assert (ahead 0 p p3) as Hb.
  { destruct Ha as (Hs & _ & [] & Hp). split_and!; [done|done|by split|done]. }
  reads. destruct (p_tags p3) as [|top tags] eqn:Et.
  - case_if; [oops|]. moves advance_ahead0. intros p4 _ Hc _. by apply from_ret; [exact Hc|].
  - eapply from_perr_at; [exact Hb|done|]. pose proof (ok_frames _ (ahead_ok _ _ _ Hb)) as Hf.
    rewrite Et in Hf. apply Forall_cons in Hf as [Hf _]. apply Hf.
Qed.

(** A component of the file: its name is an identifier that may be used, its body can
    be printed. *)
Definition component_ok (c : Component) : Prop :=
  c_name c ≠ [] ∧ name_is_reserved (c_name c) = false ∧ nul_free (c_params c) ∧ nodes_ok (c_body c).

Definition unit_ok (u : Unit) : Prop :=
  Forall component_ok (u_comps u) ∧ Forall (λ o, o ≠ []) (u_once u) ∧ NoDup (u_once u).

Lemma grow_array_from p : parser_ok p → from p 0 grow_array (λ _ p', p' = p) p.
Proof.
  intros H. opening. unfold grow_array. calls alloc_from. intros ok p1 _ Ha ->.
  case_if; [by apply from_ret|oops].
Qed.

Lemma parse_hash_line_from u p :
  parser_ok p → peek p = "#"%ch → unit_ok u → from p 1 (parse_hash_line u) (λ u' _, unit_ok u') p.
Proof.
  intros H Hc Hu. opening. unfold parse_hash_line. reads.
  eapply from_modify_ahead with (k := 1); [eassumption| |].
  { intros _. apply advance_while_ahead1; [done|inside|by rewrite Hc]. }
  cbv beta. intros p1 _ Ha _. reads. calls p_dup_raw_from. intros line p2 _ Hb _.
  calls grow_array_from. intros [] p3 _ Hd _. by apply from_ret; [good|].
Qed.

Lemma parse_once_from u p :
  parser_ok p → unit_ok u → from p 0 (parse_once u) (λ u' _, unit_ok u') p.
Proof.
  intros H (Hc & Hne & Hnd). opening. unfold parse_once. moves skip_ws_ahead. intros p1 _ Ha _.
  calls read_ident_from. intros name p2 _ Hb (c & r & -> & _).
  destruct (existsb _ _) eqn:E; [oops|]. calls grow_array_from. intros [] p3 _ Hd _.
  apply from_ret; [good|]. split_and!; simpl; [done|apply Forall_app; by split; [|apply Forall_singleton]|].
  apply NoDup_app. split_and!; [done| |apply NoDup_singleton].
  intros o Ho Ho'. apply list_elem_of_singleton in Ho'. subst.
  apply not_true_iff_false in E. apply E, existsb_exists. exists (c :: r).
  split; [by apply list_elem_of_In|by apply streq_true].
Qed.

Lemma parse_component_from line p :
  parser_ok p → outside p → from p 0 (parse_component line) (λ c _, component_ok c) p.
Proof.
  intros H Hout. opening. unfold parse_component. moves skip_ws_ahead. intros p1 _ Ha _.
  calls read_ident_from. intros name p2 _ Hb (c & r & Hname & _).
  destruct (name_is_reserved name) eqn:Er; [oops|]. moves skip_ws_ahead. intros p3 _ Hc _. reads.
  case_if; [oops|]. moves advance_ahead0. intros p4 _ Hd _. calls scan_expr_from.
  intros params p5 _ He [Hn _]. simpl in He. moves skip_ws_ahead. intros p6 _ Hf _. reads.
  case_if; [oops|]. moves advance_ahead0. intros p7 _ Hg _. calls alloc_from. intros got p8 _ Hh _.
  calls track_from. intros ok p9 _ Hi _. case_if; [oops|].
  eapply from_bind with (c := p9); [eassumption|apply parse_component_body_from; [good|]|].
  { by eapply ahead_outside. }
  cbv beta. intros body p10 _ Hj Hbody. apply from_ret; [good|]. split_and!; simpl; [by subst|done..].
Qed.

Lemma unit_round_from u q :
  parser_ok q → outside q → unit_ok u →
  from q 0 (unit_round u)
    (λ r q', match r with inl u' => unit_ok u' ∧ p_pos q < p_pos q' | inr u' => unit_ok u' end) q.
Proof.
  intros H Hout Hu. opening. unfold unit_round. calls skip_ws_comments_from. intros [] q1 _ Ha _. reads.
  destruct (at_end q1) eqn:E; [by apply from_ret; [good|]|].
  case_if.
  { bools. calls parse_hash_line_from. intros u' q2 _ Hb Hu'. apply from_ret; [good|].
    split; [done|]. apply ahead_pos1. good. }
  eapply from_bind with (c := q1); [eassumption|apply eat_keyword_from; [good|done]|].
  cbv beta. intros [] q2 _ Hb Hkw.
  { simpl in Hkw. assert (ahead 1 q q2) as Hb1.
    { refine (ahead_trans 0 4 1 _ _ _ ltac:(lia) Ha Hkw). }
    calls parse_once_from. intros u' q3 _ Hc Hu'. apply from_ret; [good|].
    split; [done|]. apply ahead_pos1. good. }
  subst q2. eapply from_bind with (c := q1); [eassumption|apply eat_keyword_from; [good|done]|].
  cbv beta. intros [] q2 _ Hd Hkw; simpl; [|oops].
  simpl in Hkw. assert (ahead 1 q q2) as Hb1.
  { refine (ahead_trans 0 9 1 _ _ _ ltac:(lia) Ha Hkw). }
  eapply from_bind with (c := q2); [exact Hb1|apply parse_component_from; [good|by eapply ahead_outside]|].
  cbv beta. intros c q3 _ Hc Hcomp. apply from_ret; [good|]. split; [|apply ahead_pos1; good].
  destruct Hu as (? & ? & ?). split_and!; simpl; [|done..]. apply Forall_app.
  by split; [|apply Forall_singleton].
Qed.

(** An error of the parser: in the source, or of the whole file. *)
Definition reported (s : bytes) (e : Failure CtmplError) : Prop :=
  located s e ∨ e = Failed {| err_message := str "no components found"; err_line := 0; err_col := 0 |}.

Lemma parse_unit_wp p :
  parser_ok p → outside p →
  wp parse_unit (λ u p', ahead 0 p p' ∧ unit_ok u ∧ u_comps u ≠ []) (λ e _, reported (p_src p) e) p.
Proof.
  intros H Hout. unfold parse_unit. apply wp_bind.
  eapply wp_mono; [apply (from_cursor_loop _ (λ u q, unit_ok u ∧ outside q) (λ u _, unit_ok u))| |].
  - done.
  - split; [|done]. split_and!; constructor.
  - intros u q [Hu Hq] Ha. eapply wp_mono; [apply unit_round_from; [good|done..]| |done]. cbv beta.
    intros [u'|u'] q' [Hb HQ]; split; [done| |done..]. destruct HQ. split_and!; [done|by eapply ahead_outside|done].
  - intros u q [Ha Hu]. case_if.
    + apply wp_fails. by right.
    + apply bool_decide_eq_false in Heqb. by apply wp_ret.
  - intros e q He. by left.
Qed.

(** ** The generator ends *)

(** A computation of the generator that ends: it succeeds, or memory ran out. *)
Definition ends {A} (m : G A) : Prop := ∀ e, wp m (λ _ _, True) (λ f _, f = Failed tt) e.

Lemma ends_ret {A} (x : A) : ends (mret x).
Proof. intros e. by apply wp_ret. Qed.

Lemma ends_bind {A B} (m : G A) (f : A → G B) : ends m → (∀ x, ends (f x)) → ends (m ≫= f).
Proof.
  intros Hm Hf e. apply wp_bind. eapply wp_mono; [apply Hm| |done]. intros x e' _. apply Hf.
Qed.

Lemma ends_get : ends (get : G Emitter).
Proof. intros e. by apply wp_get. Qed.

Lemma ends_modify f : ends (modify f).
Proof. intros e. by apply wp_modify. Qed.

Lemma ends_malloc : ends (lift malloc).
Proof. intros e. by apply wp_lift. Qed.

Lemma ends_lift {A} (m : M A) : ends (lift m).
Proof. intros e. by apply wp_lift. Qed.

Lemma ends_failed {A} : ends (emit_failed : G A).
Proof. intros e. unfold emit_failed. apply wp_bind, wp_modify. by apply wp_fails. Qed.

#[export] Hint Resolve ends_ret ends_get ends_modify ends_lift ends_failed : chttp.

(** Walks through a straight-line computation. *)
Ltac ends :=
  repeat first
    [ solve [auto with chttp]
    | apply ends_bind; [|intros ?]
    | match goal with
      | |- ends (if ?b then _ else _) => destruct b
      | |- ends (match ?x with _ => _ end) => destruct x
      end ].

Lemma ends_print s : ends (print s).
Proof. unfold print. ends. Qed.
Lemma ends_print_h s : ends (print_h s).
Proof. unfold print_h. ends. Qed.
Lemma ends_print_line depth s : ends (print_line depth s).
Proof. apply ends_print. Qed.
#[export] Hint Resolve ends_print ends_print_h ends_print_line : chttp.
Lemma ends_line_directive line : ends (emit_line_directive line).
Proof. unfold emit_line_directive. ends. Qed.
#[export] Hint Resolve ends_line_directive : chttp.

(** The nodes inside nodes. *)
Section NodeInd.
Variable Q : Node → Prop.
Hypothesis Htext : ∀ line text, Q (NText line text).
Hypothesis Hinterp : ∀ line expr ctx children, Q (NInterp line expr ctx children).
Hypothesis Hcall : ∀ line callee args data_expr block comp gen_name,
  Forall Q block → Q (NCall line callee args data_expr block comp gen_name).
Hypothesis Hif : ∀ line expr then_ otherwise,
  Forall Q then_ → Forall Q otherwise → Q (NIf line expr then_ otherwise).
Hypothesis Hfor : ∀ line expr then_, Forall Q then_ → Q (NFor line expr then_).

Fixpoint node_nested_ind (n : Node) : Q n :=
  let fix all (ns : list Node) : Forall Q ns :=
    match ns with
    | [] => List.Forall_nil Q
    | n :: ns => List.Forall_cons Q n ns (node_nested_ind n) (all ns)
    end in
  match n with
  | NText line text => Htext line text
  | NInterp line expr ctx children => Hinterp line expr ctx children
  | NCall line callee args data_expr block comp gen_name =>
      Hcall line callee args data_expr block comp gen_name (all block)
  | NIf line expr then_ otherwise => Hif line expr then_ otherwise (all then_) (all otherwise)
  | NFor line expr then_ => Hfor line expr then_ (all then_)
  end.
End NodeInd.

Lemma ends_register lambda : ends (register_lambda lambda).
Proof. unfold register_lambda. ends. Qed.
#[export] Hint Resolve ends_register : chttp.

Lemma collect_lambda_ends n : ends (collect_lambda n).
Proof.
  induction n using node_nested_ind; cbn [collect_lambda]; [ends|ends| | |];
    repeat match goal with
    | |- ends (_ ≫= _) => apply ends_bind; [|intros ?]
    | H : Forall _ ?ns |- ends (_ ?ns) => induction H; ends
    | _ => solve [ends]
    end.
Qed.

Lemma collect_lambdas_ends ns : ends (collect_lambdas ns).
Proof. induction ns as [|n ns IH]; simpl; [ends|]. pose proof (collect_lambda_ends n). ends. Qed.

Lemma collect_components_ends cs : ends (collect_components cs).
Proof.
  induction cs as [|c cs IH]; simpl; [ends|]. pose proof (collect_lambdas_ends (c_body c)). ends.
Qed.

Lemma nodes_size_cons n ns : nodes_size (n :: ns) = node_size n + nodes_size ns.
Proof. done. Qed.
Lemma node_size_call line callee args data_expr block comp gen_name :
  node_size (NCall line callee args data_expr block comp gen_name) = S (nodes_size block).
Proof. done. Qed.
Lemma node_size_if line expr then_ otherwise :
  node_size (NIf line expr then_ otherwise) = S (nodes_size then_ + nodes_size otherwise).
Proof. done. Qed.
Lemma node_size_for line expr then_ : node_size (NFor line expr then_) = S (nodes_size then_).
Proof. done. Qed.

Ltac sizes := rewrite ?nodes_size_cons, ?node_size_call, ?node_size_if, ?node_size_for in *; simpl in *; lia.

(** [merge_texts] takes the texts in front. *)
Lemma merge_texts_suffix sb total ns :
  returns (merge_texts sb total ns) (λ r,
    nodes_size r.2 ≤ nodes_size ns ∧
    (∀ line text rest, ns = NText line text :: rest → nodes_size r.2 < nodes_size ns)).
Proof.
  revert sb total. induction ns as [|n ns IH]; intros sb total; [by apply returns_ret|].
  destruct n; try (apply returns_ret; cbn [snd]; split; [done|discriminate]).
  cbn [merge_texts]. apply returns_bind with (λ _, True); [done|]. intros sb' _. cbv zeta.
  change (nodes_size (NText line text :: ns)) with (S (nodes_size ns)).
  case_if; [apply returns_ret; simpl; split; [lia|intros; lia]|].
  intros w. destruct (IH sb' (total + zlen text)%Z w) as [H1 _]. split; [lia|intros; lia].
Qed.

Lemma emit_texts_ends depth line text rest e :
  wp (emit_texts depth (NText line text :: rest)) (λ ns _, nodes_size ns < nodes_size (NText line text :: rest))
    (λ f _, f = Failed tt) e.
Proof.
  unfold emit_texts. apply wp_bind. eapply wp_lift_returns; [apply merge_texts_suffix|].
  intros [sb ns] [_ Hns]. specialize (Hns _ _ _ eq_refl). simpl in *.
  case_if; [unfold emit_failed; apply wp_bind, wp_modify; by apply wp_fails|].
  apply wp_bind, wp_lift. intros sb'. apply wp_bind.
  assert (ends (if sb_failed sb' then modify note_overread else mret tt)) as H by ends.
  eapply wp_mono; [apply H| |done].
  intros [] e1 _. apply wp_bind. eapply wp_mono; [apply ends_print_line| |done].
  intros [] e2 _. apply wp_ret. exact Hns.
Qed.

Lemma emit_call_ends rec depth line callee args data_expr block comp gen_name :
  ends (rec (S depth) block) → ends (emit_call rec depth line callee args data_expr block comp gen_name).
Proof. intros H. unfold emit_call. ends. Qed.

Lemma emit_if_chain_ends fuel n rec first depth line expr then_ otherwise :
  (∀ d ns, nodes_size ns < n → ends (rec d ns)) →
  nodes_size then_ + nodes_size otherwise < n → nodes_size then_ + nodes_size otherwise < fuel →
  ends (emit_if_chain fuel rec first depth line expr then_ otherwise).
Proof.
  intros Hrec. revert first line expr then_ otherwise.
  induction fuel as [|fuel IH]; intros first line expr then_ otherwise Hn Hf; [lia|].
  cbn [emit_if_chain]. apply ends_bind; [ends|intros _]. apply ends_bind; [ends|intros _].
  apply ends_bind; [apply Hrec; lia|intros _].
  assert (ends (_ ← print_line depth (str "} else {"); _ ← rec (S depth) otherwise; print_line depth (str "}")))
    as Helse by (pose proof (Hrec (S depth) otherwise ltac:(lia)); ends).
  destruct otherwise as [|o [|o' os]]; [ends| |by destruct o].
  destruct o; try exact Helse. apply IH; sizes.
Qed.

Lemma emit_nodes_ends fuel depth ns : nodes_size ns < fuel → ends (emit_nodes fuel depth ns).
Proof.
  revert depth ns. induction fuel as [|fuel IH]; intros depth ns Hf; [lia|].
  destruct ns as [|n rest]; [apply ends_ret|].
  destruct n; cbn [emit_nodes];
    [intros e; apply wp_bind; eapply wp_mono; [apply emit_texts_ends| |done];
       cbv beta; intros ns' e' Hns; apply IH; lia|..];
    (apply ends_bind; [|intros _; apply IH; sizes]).
  - unfold emit_interp. ends.
  - apply emit_call_ends, IH. sizes.
  - apply emit_if_chain_ends with fuel; [done|sizes..].
  - pose proof (IH (S depth) then_ ltac:(sizes)). ends.
Qed.

Lemma emit_body_ends ns : ends (emit_body ns).
Proof. apply emit_nodes_ends. lia. Qed.
#[export] Hint Resolve emit_body_ends collect_components_ends : chttp.

Lemma emit_each_ends {X} (emit : X → G unit) xs : (∀ x, ends (emit x)) → ends (emit_each emit xs).
Proof. intros H. induction xs as [|x xs IH]; simpl; ends. Qed.

Lemma generate_ends stem guard u : ends (generate stem guard u).
Proof.
  assert (∀ n, ends (emit_lambda n)) as Hl by (intros n; unfold emit_lambda, emit_adapter; ends).
  assert (∀ c, ends (emit_component c)) as Hc by (intros c; unfold emit_component; ends).
  unfold generate. repeat (apply ends_bind; [solve [ends | by apply emit_each_ends]|intros ?]).
  by apply emit_each_ends.
Qed.

(** ** [ctmpl_compile] answers *)

Lemma new_parser_ok src : parser_ok (new_parser src).
Proof. split; simpl; [lia|done|lia|unfold TAG_STACK_MAX; lia|constructor]. Qed.

Lemma tracked_wp s R q :
  parser_ok q → wp (tracked s) (λ r p', parser_ok p' ∧ (r = None ∨ r = Some s)) R q.
Proof.
  intros Hq. unfold tracked. apply wp_bind, wp_lift. intros got. apply wp_bind.
  unfold wp at 1, track. eapply returns_bind; [apply allocs_add_ok, Hq|].
  intros [[] a] Hb; apply returns_ret; unfold post; simpl; apply wp_ret;
    (split; [by apply (ahead_ok 0 q), ahead_allocs|auto]).
Qed.

(** The parser of a file: what it returns can be printed, and its errors are reported
    where they are, or memory ran out after the last component. *)
Lemma parse_file_wp in_name p :
  parser_ok p → outside p →
  wp (parse_file in_name)
    (λ r _, unit_ok r.1.1 ∧ u_comps r.1.1 ≠ [] ∧ r.1.2 = stem_of_path in_name ∧
            r.2 = guard_of_stem (stem_of_path in_name))
    (λ e _, reported (p_src p) e ∨ e = Failed no_error) p.
Proof.
  intros H Hout. unfold parse_file. apply wp_bind.
  eapply wp_mono; [by apply parse_unit_wp| |by left]. cbv beta. intros u p1 (Ha & Hu & Hne).
  apply wp_bind. unfold stem_name.
  eapply wp_mono; [apply (tracked_wp _ (λ e _, e = Failed no_error)); good| |by right]. cbv beta. intros stem p2 [H2 Hs].
  apply wp_bind. unfold guard_name. eapply wp_mono; [by apply (tracked_wp _ (λ e _, e = Failed no_error))| |by right].
  cbv beta. intros guard p3 [_ Hg].
  destruct Hs as [->| ->], Hg as [->| ->]; try (apply wp_fails; by right). by apply wp_ret.
Qed.

(** Where an error may point: nowhere, or at a position of the source. *)
Definition points_into (src : option bytes) (err : CtmplError) : Prop :=
  (err_line err = 0 ∧ err_col err = 0) ∨
  ∃ s pos, src = Some s ∧ pos ≤ length s ∧ (err_line err, err_col err) = loc s pos.

Definition answered (src : option bytes) (r : CtmplResult) : Prop :=
  r_outcome r = Some None ∨
  ∃ err, r_outcome r = Some (Some err) ∧ err_message err ≠ [] ∧
         (zlen (err_message err) < 256)%Z ∧ points_into src err.

Lemma final_error_said e src :
  err_message e ≠ [] → (zlen (err_message e) < 256)%Z → points_into src e →
  err_message (final_error e) ≠ [] ∧ (zlen (err_message (final_error e)) < 256)%Z ∧
  points_into src (final_error e).
Proof. intros. unfold final_error. by rewrite bool_decide_eq_false_2. Qed.

Lemma reported_answer src e :
  reported src e ∨ e = Failed no_error →
  ∃ err, outcome (inl e : Failure CtmplError + unit) = Some (Some err) ∧ err_message err ≠ [] ∧
         (zlen (err_message err) < 256)%Z ∧ points_into (Some src) err.
Proof.
  intros H. destruct e as [e|].
  - exists (final_error e). split; [done|]. destruct H as [[H|H]|H].
    + destruct H as (H1 & H2 & pos & H3 & H4). apply final_error_said; [done..|].
      right. eauto.
    + injection H as ->. split_and!; [done|reflexivity|by left].
    + injection H as ->. split_and!; [done|reflexivity|by left].
  - by destruct H as [[H|H]|H].
Qed.

Lemma ctmpl_compile_returns src in_name streams : returns (ctmpl_compile src in_name streams) (answered src).
Proof.
  assert (answered src {| r_outcome := Some (Some {| err_message := str "invalid arguments"; err_line := 0; err_col := 0 |});
            r_h := []; r_c := []; r_double_free := false; r_overread := false |}) as Hinv.
  { right. eexists. split; [done|]. split_and!; [done|reflexivity|by left]. }
  unfold ctmpl_compile. destruct src as [src|]; [|by apply returns_ret].
  destruct (negb streams); [by apply returns_ret|]. cbv zeta.
  eapply returns_bind; [apply (parse_file_wp _ (new_parser src)); [apply new_parser_ok|done]|].
  intros [[e|[[u stem] guard]] p] Hr; unfold post in Hr; simpl in *.
  - apply returns_ret. right. by apply reported_answer.
  - eapply returns_bind; [apply generate_ends|].
    intros [[g|[]] e] Hg; unfold post in Hg; simpl in *; apply returns_ret; [right|by left].
    subst g. eexists. split; [done|]. split_and!; [done|reflexivity|by left].
Qed.

(** C18: [ctmpl_compile] always answers, whatever the source, its name and the outcome
    of every allocation: it returns 0, or -1 with a message of at most 255 characters and
    a position - none at all, or the line and the column of a place in the source.  So no
    loop and no recursion of parser and generator fails to end. *)
Theorem ctmpl_compile_answers src in_name streams w :
  let r := result (ctmpl_compile src in_name streams) w in
  r_outcome r = Some None ∨
  ∃ err, r_outcome r = Some (Some err) ∧ err_message err ≠ [] ∧
         (zlen (err_message err) < 256)%Z ∧ points_into src err.
Proof. intros r. pose proof (ctmpl_compile_returns src in_name streams w) as H. exact H. Qed.

(** ** While memory lasts *)

(** In a world where allocations succeed, a parser leaves it alone and releases no block
    twice. *)
Definition clean {A} (m : P A) : Prop := ∀ p w, w_alloc w = [] →
  (m p w).2 = w ∧ al_double_free (p_allocs (m p w).1.2) = al_double_free (p_allocs p).

Lemma clean_ret {A} (x : A) : clean (mret x).
Proof. by intros p w. Qed.

Lemma clean_get : clean (get : P Parser).
Proof. by intros p w. Qed.

Lemma clean_fails {A} e : clean (fails e : P A).
Proof. by intros p w. Qed.

Lemma clean_modify f : (∀ p, p_allocs (f p) = p_allocs p) → clean (modify f).
Proof. intros H p w Hw. simpl. by rewrite H. Qed.

Lemma clean_bind {A B} (m : P A) (f : A → P B) : clean m → (∀ x, clean (f x)) → clean (m ≫= f).
Proof.
  intros Hm Hf p w Hw. unfold mbind, SE_bind. rewrite bind_run. unfold result, world.
  destruct (Hm p w Hw) as [H1 H2]. destruct (m p w) as [[[e|x] p'] w'] eqn:E; simpl in *; subst w'; [done|].
  destruct (Hf x p' w Hw) as [H3 H4]. split; [done|]. by rewrite H4.
Qed.

Lemma clean_loop {X A} (body : X → P (X + A)) fuel x : (∀ x, clean (body x)) → clean (loop fuel body x).
Proof.
  intros H. revert x. induction fuel as [|fuel IH]; intros x; [apply clean_fails|].
  simpl. apply clean_bind; [done|]. intros [x'|a]; [done|apply clean_ret].
Qed.

Lemma clean_cursor_loop {X A} (body : X → P (X + A)) x : (∀ x, clean (body x)) → clean (cursor_loop body x).
Proof. intros H p w Hw. by apply clean_loop. Qed.

Lemma allocs_advance p : p_allocs (advance p) = p_allocs p.
Proof. unfold advance. destruct (at_end p); [done|]. by case_if. Qed.

Lemma allocs_advance_n n p : p_allocs (advance_n p n) = p_allocs p.
Proof. revert p. induction n as [|n IH]; intros p; [done|]. simpl. by rewrite IH, allocs_advance. Qed.

Lemma allocs_advance_while cond p : p_allocs (advance_while cond p) = p_allocs p.
Proof.
  unfold advance_while. generalize (remaining p). intros fuel. revert p.
  induction fuel as [|fuel IH]; intros p; [done|]. simpl. case_if; [by rewrite IH, allocs_advance|done].
Qed.

Create Rewrite HintDb allocs.
#[export] Hint Rewrite allocs_advance allocs_advance_n allocs_advance_while : allocs.

Ltac allocs := intros; unfold skip_ws; repeat case_if; by autorewrite with allocs.

Lemma clean_perr {A} msg : clean (perr msg : P A).
Proof. unfold perr. apply clean_bind; [apply clean_get|intros; apply clean_fails]. Qed.

Lemma clean_perr_at {A} pos msg : clean (perr_at pos msg : P A).
Proof. unfold perr_at. apply clean_bind; [apply clean_get|intros; apply clean_fails]. Qed.

Lemma clean_alloc : clean alloc.
Proof. intros p w Hw. unfold alloc, lift. rewrite bind_run. unfold result, world. by rewrite (malloc_ok w Hw). Qed.

Lemma clean_track got : clean (track got).
Proof.
  intros p w Hw. unfold track. rewrite bind_run. unfold result, world, allocs_add.
  destruct got; [|done]. simpl. destruct (al_n (p_allocs p) =? al_cap (p_allocs p)) eqn:E; [|done].
  rewrite bind_run. unfold result, world. by rewrite (malloc_ok w Hw).
Qed.

#[export] Hint Resolve clean_ret clean_get clean_fails clean_perr clean_perr_at clean_alloc clean_track : chttp.

Lemma clean_p_dup text : clean (p_dup text).
Proof.
  intros p w Hw. unfold p_dup, mbind, SE_bind, alloc, lift, track, allocs_add. mrun_ok Hw.
  destruct (al_n (p_allocs p) =? al_cap (p_allocs p)); mrun_ok Hw; done.
Qed.
#[export] Hint Resolve clean_p_dup : chttp.

(** Walks through a parser. *)
Ltac cleans :=
  repeat first
    [ solve [auto with chttp]
    | apply clean_bind; [|intros ?]
    | apply clean_modify; solve [allocs | done]
    | apply clean_cursor_loop; intros ?
    | match goal with
      | |- clean (let _ := _ in _) => cbv zeta
      | |- clean (if ?b then _ else _) => destruct b
      | |- clean (match ?x with _ => _ end) => destruct x
      end ].

Ltac clean_def f := unfold f; cleans.

Lemma clean_skip_ws_comments : clean skip_ws_comments.
Proof. clean_def @skip_ws_comments. Qed.
Lemma clean_p_dup_raw s e : clean (p_dup_raw s e).
Proof. clean_def p_dup_raw. Qed.
Lemma clean_new_node : clean new_node.
Proof. clean_def new_node. Qed.
#[export] Hint Resolve clean_skip_ws_comments clean_p_dup_raw clean_new_node : chttp.
Lemma clean_append_text text line : clean (append_text text line).
Proof. clean_def append_text. Qed.
Lemma clean_read_ident : clean read_ident.
Proof. clean_def read_ident. Qed.
Lemma clean_eat_keyword kw : clean (eat_keyword kw).
Proof. clean_def eat_keyword. Qed.
#[export] Hint Resolve clean_append_text clean_read_ident clean_eat_keyword : chttp.
Lemma clean_append_slice s e line : clean (append_slice s e line).
Proof. clean_def append_slice. Qed.
#[export] Hint Resolve clean_append_slice : chttp.
Lemma clean_scan_expr mode : clean (scan_expr mode).
Proof. unfold scan_expr, scan_c, scan_round, skip_quoted, p_dup_trim, unbalanced. cleans. Qed.
#[export] Hint Resolve clean_scan_expr : chttp.
Lemma clean_parse_interp ctx : clean (parse_interp ctx).
Proof. clean_def parse_interp. Qed.
Lemma clean_classify_attr s e : clean (classify_attr s e).
Proof. clean_def classify_attr. Qed.
Lemma clean_tag_text s line : clean (tag_text s line).
Proof. clean_def tag_text. Qed.
#[export] Hint Resolve clean_parse_interp clean_classify_attr clean_tag_text : chttp.
Lemma clean_parse_element : clean parse_element.
Proof.
  unfold parse_element, parse_comment, parse_doctype, parse_close_tag, parse_open_tag, skip_to_gt,
    read_tag_name, pop_tag, push_tag, parse_raw_text, tag_round, attr_interp, attr_bool, append_quote,
    unterminated_tag.
  cleans.
Qed.
#[export] Hint Resolve clean_parse_element : chttp.

Lemma clean_parse_call pb : clean pb → clean (parse_call pb).
Proof. intros H. unfold parse_call, parse_with, parse_block. cleans. Qed.
Lemma clean_parse_for pb : clean pb → clean (parse_for pb).
Proof. intros H. unfold parse_for, parse_block. cleans. Qed.
Lemma clean_parse_if fuel pb : clean pb → clean (parse_if fuel pb).
Proof. intros H. induction fuel as [|fuel IH]; [cleans|]. cbn [parse_if]. unfold parse_block. cleans. Qed.

Lemma clean_parse_body : clean parse_body.
Proof.
  assert (∀ fuel, clean (parse_body_fuel fuel)) as H.
  { induction fuel as [|fuel IH]; [cleans|]. cbn [parse_body_fuel].
    pose proof (clean_parse_call _ IH). pose proof (clean_parse_for _ IH).
    pose proof (clean_parse_if fuel _ IH).
    unfold parse_item, parse_run, parse_text, unterminated_block. cleans. }
  intros p w Hw. unfold parse_body. by apply H.
Qed.
#[export] Hint Resolve clean_parse_body : chttp.

Lemma clean_parse_file in_name : clean (parse_file in_name).
Proof.
  unfold parse_file, parse_unit, unit_round, parse_hash_line, parse_once, parse_component,
    parse_component_body, grow_array, stem_name, guard_name, tracked. cleans.
  repeat match goal with x : option bytes |- _ => destruct x end; cleans.
Qed.
