(* ===== verification/CtmplSem.v ===== *)
(** * The template compiler: the program a template stands for

    The text [src/tools/ctmpl.c] writes for a component is the printed form of a small
    program of statements; running the program renders the template, with child blocks
    lifted to functions that are defined before they are used. *)

From S2P Require Import Prelude CLib World StateErr Response Tpl Ctmpl CtmplParse CtmplGen CtmplProg.
#[local] Open Scope Z_scope.

(** ** Programs *)

(** A function that stands for a child block: how it gets its parameter, its name, and
    the expression bound to it. *)
Record Child := { ch_mode : BlockMode; ch_name : bytes; ch_data : option bytes }.

Inductive Stmt :=
  | SLit (s : bytes)
  | SWrite (line : nat) (ctx : Ctx) (expr : bytes)
  | SChildren (line : nat)
  | SRaw (line : nat) (expr : bytes)
  | SFragment (line : nat) (name : bytes) (body : list Stmt)
  | SOnce (line : nat) (handle : bytes) (body : list Stmt)
  | SCall (line : nat) (callee : bytes) (args : option bytes) (child : option Child)
  | SIf (line : nat) (expr : bytes) (then_ otherwise : list Stmt)
  | SFor (line : nat) (expr : bytes) (body : list Stmt).

(** Adjacent literals are joined, up to the size at which one is ended. *)
Fixpoint merge (lit : option bytes) (ss : list Stmt) : list Stmt :=
  match ss with
  | SLit t :: ss =>
      let s := default [] lit ++ t in
      if 4000 <? zlen s then SLit s :: merge None ss else merge (Some s) ss
  | s :: ss => from_option (λ l, [SLit l]) [] lit ++ s :: merge None ss
  | [] => from_option (λ l, [SLit l]) [] lit
  end.

Fixpoint compile_node (n : Node) : Stmt :=
  match n with
  | NText _ text => SLit text
  | NInterp line expr ctx children => if children then SChildren line else SWrite line ctx expr
  | NCall line callee args data_expr block comp gen_name =>
      if streq callee (str "raw") then SRaw line (default [] args)
      else if streq callee (str "fragment") then
        SFragment line (default [] args) (merge None (map compile_node block))
      else if streq callee (str "once") then
        SOnce line (default [] args) (merge None (map compile_node block))
      else
        SCall line callee args
          (if bool_decide (block = []) then None
           else Some {| ch_mode := block_mode data_expr comp; ch_name := default [] gen_name; ch_data := data_expr |})
  | NIf line expr then_ otherwise =>
      SIf line expr (merge None (map compile_node then_)) (merge None (map compile_node otherwise))
  | NFor line expr then_ => SFor line expr (merge None (map compile_node then_))
  end.

Definition compile (ns : list Node) : list Stmt := merge None (map compile_node ns).

(** ** Programs as text *)

(** A string literal up to the terminator of the buffer. *)
Definition c_literal (s : bytes) : bytes := cstr (concat (map c_escape s)).

Section Text.
Variable file : bytes.

Definition line_text (depth : nat) (s : bytes) : bytes := indent depth ++ s ++ [LF].
Definition directive (line : nat) : bytes :=
  str "#line " ++ fmt_nat line ++ str " " ++ quoted file ++ [LF].

Definition call_text (depth : nat) (callee : bytes) (args : option bytes) (child : option Child) : bytes :=
  match child with
  | None => line_text depth (str "tpl_" ++ callee ++ str "(out" ++ call_args args ++ str ");")
  | Some ch =>
      let binding := block_binding (ch_mode ch) (ch_name ch) (ch_data ch) in
      line_text depth (str "{") ++
      line_text (S depth) (str "TplChildren tpl_children = {" ++ binding.1 ++ str ", " ++ binding.2 ++ str "};") ++
      line_text (S depth) (str "tpl_" ++ callee ++ str "(out" ++ call_args args ++ str ", &tpl_children);") ++
      line_text depth (str "}")
  end.

(** [first]: no [else] in front of an [if]. *)
Fixpoint stmt_text (first : bool) (depth : nat) (s : Stmt) : bytes :=
  let body ss := concat (map (stmt_text true (S depth)) ss) in
  match s with
  | SLit s => line_text depth (str "tpl_lit(out, " ++ quoted (c_literal s) ++ str ");")
  | SWrite line ctx expr => directive line ++ line_text depth (writer ctx ++ str "(out, (" ++ expr ++ str "));")
  | SChildren line =>
      directive line ++
      line_text depth (str "if (children != NULL && children->fn != NULL) {") ++
      line_text (S depth) (str "children->fn(out, children->data);") ++
      line_text depth (str "}")
  | SRaw line expr => directive line ++ line_text depth (str "tpl_raw(out, (" ++ expr ++ str "));")
  | SFragment line name ss =>
      directive line ++ line_text depth (str "{") ++
      line_text (S depth) (str "tpl_frag_begin(out, (" ++ name ++ str "));") ++ body ss ++
      line_text (S depth) (str "tpl_frag_end(out);") ++ line_text depth (str "}")
  | SOnce line handle ss =>
      directive line ++ line_text depth (str "if (tpl_once_begin(out, &(" ++ handle ++ str "))) {") ++ body ss ++
      line_text depth (str "}")
  | SCall line callee args child => directive line ++ call_text depth callee args child
  | SIf line expr then_ otherwise =>
      directive line ++
      line_text depth ((if first then str "if (" else str "} else if (") ++ expr ++ str ") {") ++ body then_ ++
      match otherwise with
      | [] => line_text depth (str "}")
      | [SIf _ _ _ _ as link] => stmt_text false depth link
      | _ => line_text depth (str "} else {") ++ body otherwise ++ line_text depth (str "}")
      end
  | SFor line expr ss =>
      directive line ++ line_text depth (str "for (" ++ expr ++ str ") {") ++ body ss ++ line_text depth (str "}")
  end.

Definition stmts_text (depth : nat) (ss : list Stmt) : bytes := concat (map (stmt_text true depth) ss).
End Text.

(** ** The emitter prints programs *)

Lemma put_c_app s t e : put_c t (put_c s e) = put_c (s ++ t) e.
Proof. unfold put_c. simpl. by rewrite app_assoc. Qed.

Lemma put_c_nil e : put_c [] e = e.
Proof. unfold put_c. rewrite app_nil_r. by destruct e. Qed.

(** [m] prints [s e], and does nothing else, while memory lasts. *)
Definition prints (file : bytes) (m : G unit) (s : bytes) : Prop :=
  ∀ e, em_in_name e = file → runs m e tt (put_c s e).

Lemma prints_print file s : prints file (print s) s.
Proof. intros e _. apply runs_modify. Qed.

Lemma prints_line file depth s : prints file (print_line depth s) (line_text depth s).
Proof. apply prints_print. Qed.

Lemma prints_directive file line : prints file (emit_line_directive line) (directive file line).
Proof. intros e <-. unfold emit_line_directive. apply runs_get_bind, runs_modify. Qed.

Lemma prints_bind file m s k t :
  prints file m s → prints file k t → prints file (_ ← m; k) (s ++ t).
Proof.
  intros Hm Hk e He. eapply runs_bind; [by apply Hm|]. rewrite <- put_c_app. by apply Hk.
Qed.

Lemma prints_if file (b : bool) m s k t :
  prints file m s → prints file k t → prints file (if b then m else k) (if b then s else t).
Proof. by destruct b. Qed.

Lemma c_escape_not_nil c : c_escape c ≠ [].
Proof. unfold c_escape. repeat case_if; discriminate. Qed.

Lemma emit_c_chars_ok sb s w :
  w_alloc w = [] → sb_failed sb = false →
  ∃ cap, emit_c_chars sb s w =
    ({| sb_d := sb_d sb ++ concat (map c_escape s); sb_cap := cap; sb_failed := false |}, w).
Proof.
  intros Hw. revert sb. induction s as [|c s IH]; intros sb Hs.
  - exists (sb_cap sb). simpl. rewrite app_nil_r. destruct sb. simpl in Hs. by subst.
  - assert (∃ cap, emit_c_char sb c w =
      ({| sb_d := sb_d sb ++ c_escape c; sb_cap := cap; sb_failed := false |}, w)) as [cap E].
    { unfold emit_c_char, sb_puts, sb_putn. rewrite Hs.
      rewrite bool_decide_eq_false_2 by apply c_escape_not_nil. cbn [orb].
      case_if; [rewrite bind_run; unfold result, world; rewrite (malloc_ok w Hw); cbn [fst snd negb]|]; eexists; reflexivity. }
    simpl. rewrite bind_run. unfold result, world. rewrite E. cbn [fst snd].
    destruct (IH {| sb_d := sb_d sb ++ c_escape c; sb_cap := cap; sb_failed := false |} eq_refl) as [cap' E'].
    exists cap'. rewrite E'. cbn [sb_d]. by rewrite app_assoc.
Qed.

Definition is_text (n : Node) : bool := match n with NText _ _ => true | _ => false end.

(** Other nodes end a literal. *)
Lemma merge_other lit n ns :
  is_text n = false →
  merge lit (map compile_node (n :: ns)) =
  from_option (λ l, [SLit l]) [] lit ++ compile_node n :: compile ns.
Proof. destruct n; [done|..]; intros _; simpl; by repeat case_match. Qed.

(** The texts in front become one literal. *)
Lemma merge_texts_ok ns a :
  ∃ b rest,
    merge (Some a) (map compile_node ns) = SLit b :: merge None (map compile_node rest) ∧
    ∀ sb w, w_alloc w = [] → sb_failed sb = false → sb_d sb = concat (map c_escape a) →
      ∃ cap, merge_texts sb (zlen a) ns w =
        (({| sb_d := concat (map c_escape b); sb_cap := cap; sb_failed := false |}, rest), w).
Proof.
  revert a. induction ns as [|n ns IH]; intros a.
  - exists a, []. split; [done|]. intros [d cap f] w _ Hs Hd. simpl in *. subst. by exists cap.
  - destruct (is_text n) eqn:Et.
    2:{ exists a, (n :: ns). split; [by rewrite !merge_other|]. intros [d cap f] w _ Hs Hd.
        simpl in Hs, Hd. subst. exists cap. by destruct n. }
    destruct n; try discriminate.
    cbn [map compile_node merge from_option id merge_texts].
    assert (∀ sb w, w_alloc w = [] → sb_failed sb = false → sb_d sb = concat (map c_escape a) →
      ∃ cap, emit_c_chars sb text w =
        ({| sb_d := concat (map c_escape (a ++ text)); sb_cap := cap; sb_failed := false |}, w)) as Hchars.
    { intros sb w Hw Hs Hd. destruct (emit_c_chars_ok sb text w Hw Hs) as [cap E]. exists cap.
      by rewrite E, Hd, map_app, concat_app. }
    destruct (4000 <? zlen (a ++ text)) eqn:El; [exists (a ++ text), ns|destruct (IH (a ++ text)) as (b & rest & Hb & Hrun); exists b, rest];
      (split; [done || exact Hb|]); intros sb w Hw Hs Hd; destruct (Hchars sb w Hw Hs Hd) as [cap E];
      rewrite bind_run; unfold result, world; rewrite E; cbn [fst snd];
      replace (zlen a + zlen text) with (zlen (a ++ text)) by zlen_lia; rewrite El; [by exists cap|].
    by apply Hrun.
Qed.

Lemma cstr_terminated s : cstr (s ++ [NUL]) = cstr s.
Proof. induction s as [|c s IH]; [done|]. simpl. case_if; [done|]. by rewrite IH. Qed.

Lemma runs_lift {A} (m : M A) (x : A) (e : Emitter) :
  (∀ w, w_alloc w = [] → m w = (x, w)) → runs (lift m : G A) e x e.
Proof. intros H w Hw. unfold lift. rewrite bind_run. unfold result, world. by rewrite (H w Hw). Qed.

Lemma sb_putn_ok sb s w :
  w_alloc w = [] → sb_failed sb = false →
  ∃ cap, sb_putn sb s w = ({| sb_d := sb_d sb ++ s; sb_cap := cap; sb_failed := false |}, w).
Proof.
  intros Hw Hs. unfold sb_putn. rewrite Hs. cbn [orb]. case_if.
  - breflect. subst. rewrite app_nil_r. destruct sb. simpl in *. subst. by eexists.
  - case_if; [rewrite bind_run; unfold result, world; rewrite (malloc_ok w Hw); cbn [fst snd negb]|];
      eexists; reflexivity.
Qed.

Lemma emit_texts_runs file depth line text rest :
  ∃ b rest',
    compile (NText line text :: rest) = SLit b :: compile rest' ∧
    (nodes_size rest' < nodes_size (NText line text :: rest))%nat ∧
    ∀ e, em_in_name e = file →
      runs (emit_texts depth (NText line text :: rest)) e rest' (put_c (stmt_text file true depth (SLit b)) e).
Proof.
  destruct (merge_texts_ok (NText line text :: rest) []) as (b & rest' & Hm & Hrun).
  exists b, rest'. split; [exact Hm|].
  assert (∀ w, w_alloc w = [] → ∃ cap, merge_texts empty_sbuf 0 (NText line text :: rest) w =
    (({| sb_d := concat (map c_escape b); sb_cap := cap; sb_failed := false |}, rest'), w)) as Hrun'.
  { intros w Hw. by apply (Hrun empty_sbuf w Hw). }
  split.
  - destruct (Hrun' quiet_world eq_refl) as [cap E].
    pose proof (merge_texts_suffix empty_sbuf 0 (NText line text :: rest) quiet_world) as [_ Hsz].
    unfold result in Hsz. rewrite E in Hsz. by eapply Hsz.
  - intros e He w Hw. destruct (Hrun' w Hw) as [cap E]. unfold emit_texts.
    etrans; [apply lift_bind_run|]. rewrite E. cbn [fst snd sb_failed].
    destruct (sb_putn_ok {| sb_d := concat (map c_escape b); sb_cap := cap; sb_failed := false |} [NUL] w Hw eq_refl)
      as [cap' E']. etrans; [apply lift_bind_run|]. rewrite E'. cbn [fst snd sb_failed sb_d]. by rewrite cstr_terminated.
Qed.

Lemma compile_other n ns : is_text n = false → compile (n :: ns) = compile_node n :: compile ns.
Proof. intros H. unfold compile at 1. by rewrite merge_other. Qed.

Lemma compile_text line text ns : ∃ b ss, compile (NText line text :: ns) = SLit b :: ss.
Proof. destruct (emit_texts_runs [] 0 line text ns) as (b & rest & H & _). eauto. Qed.

Lemma compile_not_nil n ns : compile (n :: ns) ≠ [].
Proof.
  destruct (is_text n) eqn:E; [|by rewrite compile_other].
  destruct n; try discriminate. destruct (compile_text line text ns) as (b & ss & ->). done.
Qed.

(** The statements behind [else] that are no [else if]. *)
Definition plain_else (ss : list Stmt) : Prop :=
  match ss with [] => False | [SIf _ _ _ _] => False | _ => True end.

Lemma compile_plain_else n ns :
  (∀ line expr then_ otherwise, n = NIf line expr then_ otherwise → ns ≠ []) → plain_else (compile (n :: ns)).
Proof.
  intros H. destruct (is_text n) eqn:E.
  - destruct n; try discriminate. by destruct (compile_text line text ns) as (b & ss & ->).
  - rewrite compile_other by done. destruct n; simpl; repeat case_match; try done.
    simplify_eq. destruct ns as [|n' ns]; [by eapply H|]. by destruct (compile_not_nil n' ns).
Qed.

Section EmitPrints.
Variable file : bytes.

Ltac prints :=
  repeat lazymatch goal with
  | |- prints _ (emit_line_directive _) _ => apply prints_directive
  | |- prints _ (print_line _ _) _ => apply prints_line
  | |- prints _ (_ ≫= _) _ => apply prints_bind
  | |- _ => eassumption
  end.

Lemma emit_call_prints rec depth line callee args data_expr block comp gen_name :
  prints file (rec (S depth) block) (stmts_text file (S depth) (compile block)) →
  prints file (emit_call rec depth line callee args data_expr block comp gen_name)
    (stmt_text file true depth (compile_node (NCall line callee args data_expr block comp gen_name))).
Proof.
  intros H. unfold emit_call. cbn [compile_node].
  case_if; [prints|]. case_if; [prints|]. case_if; [prints|]. cbn [stmt_text call_text].
  case_if; prints.
Qed.

Lemma else_text line expr then_ ss first depth :
  plain_else ss →
  stmt_text file first depth (SIf line expr then_ ss) =
  directive file line ++
  line_text depth ((if first then str "if (" else str "} else if (") ++ expr ++ str ") {") ++
  stmts_text file (S depth) then_ ++
  line_text depth (str "} else {") ++ stmts_text file (S depth) ss ++ line_text depth (str "}").
Proof. intros H. destruct ss as [|s [|s' ss]]; [done| |by destruct s]. by destruct s. Qed.

Lemma emit_if_chain_prints fuel n rec first depth line expr then_ otherwise :
  (∀ d ns, (nodes_size ns < n)%nat → prints file (rec d ns) (stmts_text file d (compile ns))) →
  (nodes_size then_ + nodes_size otherwise < n)%nat → (nodes_size then_ + nodes_size otherwise < fuel)%nat →
  prints file (emit_if_chain fuel rec first depth line expr then_ otherwise)
    (stmt_text file first depth (SIf line expr (compile then_) (compile otherwise))).
Proof.
  intros Hrec. revert first line expr then_ otherwise.
  induction fuel as [|fuel IH]; intros first line expr then_ otherwise Hn Hf; [lia|].
  cbn [emit_if_chain]. pose proof (Hrec (S depth) then_ ltac:(lia)) as Hthen.
  pose proof (Hrec (S depth) otherwise ltac:(lia)) as Helse.
  destruct otherwise as [|o os]; [prints|].
  destruct o as [| | |line' expr' then' otherwise'|];
    try (rewrite else_text by (by apply compile_plain_else); prints).
  destruct os as [|o' os].
  - apply prints_bind; [prints|]. apply prints_bind; [prints|]. apply prints_bind; [prints|].
    apply IH; sizes.
  - rewrite else_text by (by apply compile_plain_else). prints.
Qed.

Lemma emit_nodes_prints fuel depth ns :
  (nodes_size ns < fuel)%nat → prints file (emit_nodes fuel depth ns) (stmts_text file depth (compile ns)).
Proof.
  revert depth ns. induction fuel as [|fuel IH]; intros depth ns Hf; [lia|].
  destruct ns as [|n rest].
  { intros e _. unfold stmts_text. simpl. rewrite put_c_nil. apply runs_ret. }
  destruct (is_text n) eqn:Et.
  - destruct n; try discriminate. cbn [emit_nodes].
    destruct (emit_texts_runs file depth line text rest) as (b & rest' & -> & Hsz & Hrun).
    intros e He. eapply runs_bind; [by apply Hrun|].
    change (stmts_text file depth (SLit b :: compile rest'))
      with (stmt_text file true depth (SLit b) ++ stmts_text file depth (compile rest')).
    rewrite <- put_c_app. apply IH; [lia|done].
  - rewrite compile_other by done.
    destruct n; try discriminate; cbn [emit_nodes]; (apply prints_bind; [|apply IH; sizes]).
    + unfold emit_interp. cbn [compile_node]. destruct children; prints.
    + apply emit_call_prints, IH. sizes.
    + apply emit_if_chain_prints with fuel; [done|sizes..].
    + pose proof (IH (S depth) then_ ltac:(sizes)). prints.
Qed.
End EmitPrints.

(** ** Numbering child blocks, as a function *)

Definition block_name (i : nat) : bytes := str "tpl__block_" ++ fmt_nat i.

(** With [k] lambdas there already: the node with its names, and its own lambdas. *)
Fixpoint number_node (k : nat) (n : Node) : Node * list Node :=
  let fix number (k : nat) (ns : list Node) : list Node * list Node :=
    match ns with
    | [] => ([], [])
    | n :: ns =>
        let r := number_node k n in
        let rs := number (k + length r.2)%nat ns in
        (r.1 :: rs.1, r.2 ++ rs.2)
    end in
  match n with
  | NIf line expr then_ otherwise =>
      let o := number k otherwise in
      let t := number (k + length o.2)%nat then_ in
      (NIf line expr t.1 o.1, o.2 ++ t.2)
  | NFor line expr then_ => let t := number k then_ in (NFor line expr t.1, t.2)
  | NCall line callee args data_expr block comp gen_name =>
      let b := number k block in
      if negb (bool_decide (b.1 = [])) && negb (is_builtin_callee callee) then
        let n := NCall line callee args data_expr b.1 comp (Some (block_name (S (k + length b.2)))) in
        (n, b.2 ++ [n])
      else (NCall line callee args data_expr b.1 comp gen_name, b.2)
  | n => (n, [])
  end.

Fixpoint number (k : nat) (ns : list Node) : list Node * list Node :=
  match ns with
  | [] => ([], [])
  | n :: ns =>
      let r := number_node k n in
      let rs := number (k + length r.2)%nat ns in
      (r.1 :: rs.1, r.2 ++ rs.2)
  end.

Fixpoint number_components (k : nat) (cs : list Component) : list Component * list Node :=
  match cs with
  | [] => ([], [])
  | c :: cs =>
      let r := number k (c_body c) in
      let rs := number_components (k + length r.2)%nat cs in
      ({| c_name := c_name c; c_params := c_params c; c_line := c_line c; c_body := r.1 |} :: rs.1, r.2 ++ rs.2)
  end.

(** The lambdas [L] are collected. *)
Definition collects {A} (m : G A) (r : nat → A * list Node) : Prop :=
  ∀ e, ∃ cap, let x := r (length (em_lambdas e)) in
    runs m e x.1 (set_em_lambdas (em_lambdas e ++ x.2) cap e).

Lemma set_em_lambdas_id e : set_em_lambdas (em_lambdas e ++ []) (em_lambda_cap e) e = e.
Proof. rewrite app_nil_r. by destruct e. Qed.

Lemma collects_ret {A} (x : A) : collects (mret x) (λ _, (x, [])).
Proof. intros e. exists (em_lambda_cap e). cbn [fst snd]. rewrite set_em_lambdas_id. apply runs_ret. Qed.

Lemma collects_bind {A B} (m : G A) (f : A → G B) r g :
  collects m r → (∀ x, collects (f x) (g x)) →
  collects (m ≫= f) (λ k, let x := r k in let y := g x.1 (k + length x.2)%nat in (y.1, x.2 ++ y.2)).
Proof.
  intros Hm Hf e. destruct (Hm e) as [cap H1]. cbv zeta in *. cbn [fst snd].
  destruct (Hf (r (length (em_lambdas e))).1 (set_em_lambdas (em_lambdas e ++ (r (length (em_lambdas e))).2) cap e))
    as [cap' H2].
  exists cap'. eapply runs_bind; [exact H1|]. cbn in H2. rewrite length_app in H2. by rewrite app_assoc.
Qed.

Lemma collects_ext {A} (m : G A) r r' : collects m r → (∀ k, r k = r' k) → collects m r'.
Proof. intros Hm H e. destruct (Hm e) as [cap Hr]. exists cap. by rewrite <- H. Qed.

Lemma collects_register lambda :
  collects (register_lambda lambda) (λ k, (lambda (block_name (S k)), [lambda (block_name (S k))])).
Proof.
  intros e. unfold register_lambda. destruct (length (em_lambdas e) =? em_lambda_cap e)%nat eqn:E.
  - eexists. cbv zeta. apply runs_get_bind. rewrite E. cbn [fst snd].
    eapply runs_bind; [apply runs_malloc|]. eapply runs_bind; [apply runs_malloc|].
    eapply runs_bind; [apply runs_modify|]. apply runs_ret.
  - eexists. cbv zeta. apply runs_get_bind. rewrite E. cbn [fst snd].
    eapply runs_bind; [apply runs_malloc|]. eapply runs_bind; [apply runs_modify|]. apply runs_ret.
Qed.

Lemma collects_nodes (ns : list Node) :
  Forall (λ n, collects (collect_lambda n) (λ k, number_node k n)) ns →
  collects (collect_lambdas ns) (λ k, number k ns).
Proof.
  induction 1 as [|n ns Hn Hns IH]; [apply collects_ret|].
  eapply collects_ext; [apply collects_bind; [exact Hn|intros n'; apply collects_bind; [exact IH|intros ns'; apply collects_ret]]|].
  intros k. cbv zeta. simpl. by rewrite app_nil_r.
Qed.

Lemma collect_lambda_collects n : collects (collect_lambda n) (λ k, number_node k n).
Proof.
  induction n as [| |line callee args data block comp gen Hb|line expr t o Ht Ho|line expr t Ht] using node_nested_ind.
  - apply collects_ret.
  - apply collects_ret.
  - eapply collects_ext; [apply collects_bind; [apply collects_nodes, Hb|]|].
    + intros b. instantiate (1 := λ b k, if negb (bool_decide (b = [])) && negb (is_builtin_callee callee)
        then (NCall line callee args data b comp (Some (block_name (S k))),
              [NCall line callee args data b comp (Some (block_name (S k)))])
        else (NCall line callee args data b comp gen, [])). cbv beta.
      case_if; [apply (collects_register (λ name, NCall line callee args data b comp (Some name)))|apply collects_ret].
    + intros k. cbv zeta. change (number_node k (NCall line callee args data block comp gen))
        with (let b := number k block in
              if negb (bool_decide (b.1 = [])) && negb (is_builtin_callee callee) then
                let n := NCall line callee args data b.1 comp (Some (block_name (S (k + length b.2)))) in (n, b.2 ++ [n])
              else (NCall line callee args data b.1 comp gen, b.2)).
      cbv beta zeta. case_if; cbn [fst snd]; [done|by rewrite app_nil_r].
  - eapply collects_ext; [apply collects_bind; [apply collects_nodes, Ho|intros o'; apply collects_bind;
      [apply collects_nodes, Ht|intros t'; apply collects_ret]]|].
    intros k. cbv zeta. simpl. by rewrite app_nil_r.
  - eapply collects_ext; [apply collects_bind; [apply collects_nodes, Ht|intros t'; apply collects_ret]|].
    intros k. cbv zeta. simpl. by rewrite app_nil_r.
Qed.

Lemma collect_lambdas_collects ns : collects (collect_lambdas ns) (λ k, number k ns).
Proof. apply collects_nodes, Forall_forall. intros n _. apply collect_lambda_collects. Qed.

Lemma collect_components_collects cs : collects (collect_components cs) (λ k, number_components k cs).
Proof.
  induction cs as [|c cs IH]; [apply collects_ret|].
  eapply collects_ext; [apply collects_bind; [apply collect_lambdas_collects|intros b; apply collects_bind;
    [exact IH|intros cs'; apply collects_ret]]|].
  intros k. cbv zeta. simpl. by rewrite app_nil_r.
Qed.

(** ** The text of a file *)

Section FileText.
Variable file : bytes.

Definition body_text (ns : list Node) : bytes := stmts_text file 1 (compile ns).

Definition adapter_text (mode : BlockMode) (name : bytes) : bytes :=
  match mode with
  | BLOCK_UNTYPED => []
  | _ =>
      line_text 0 (str "static void " ++ name ++ str "_adapter(TplOut *out, void *tpl_data)") ++
      line_text 0 (str "{") ++
      match mode with
      | BLOCK_VOID0 => line_text 1 (str "(void)tpl_data;") ++ line_text 1 (name ++ str "(out);")
      | _ => line_text 1 (name ++ str "(out, tpl_data);")
      end ++
      line_text 0 (str "}")
  end.

Definition lambda_text (n : Node) : bytes :=
  match n with
  | NCall _ _ _ data_expr block comp (Some name) =>
      let mode := block_mode data_expr comp in
      line_text 0 (str "static void " ++ name ++
        match mode with
        | BLOCK_VOID0 => str "(TplOut *out)"
        | BLOCK_ONE _ => str "(TplOut *out, " ++ default [] comp ++ str ")"
        | BLOCK_UNTYPED => str "(TplOut *out, void *tpl_data)"
        end) ++
      line_text 0 (str "{") ++
      match mode with
      | BLOCK_UNTYPED => line_text 1 (str "/* child data: 'with (...)' via tpl_data, or out->ctx */")
      | _ => []
      end ++
      body_text block ++ line_text 0 (str "}") ++ adapter_text mode name ++ line_text 0 []
  | _ => []
  end.

Definition component_text (c : Component) : bytes :=
  line_text 0 (prototype c) ++ line_text 0 (str "{") ++ directive file (c_line c) ++
  (if bool_decide (c_body c = []) then line_text 1 (str "(void)out;") else body_text (c_body c)) ++
  line_text 0 (str "}") ++ line_text 0 [].

(** Lambdas, then components. *)
Definition program_text (p : list Component * list Node) : bytes :=
  concat (map lambda_text p.2) ++ concat (map component_text p.1).

Definition preamble_text (stem : bytes) (once : list bytes) : bytes :=
  lines [notice file; str "#include " ++ quoted (stem ++ str "_templ.h"); []] ++ once_text once.

Ltac prints :=
  repeat lazymatch goal with
  | |- prints _ (emit_line_directive _) _ => apply prints_directive
  | |- prints _ (print_line _ _) _ => apply prints_line
  | |- prints _ (emit_body _) _ => apply emit_nodes_prints; lia
  | |- prints _ (_ ≫= _) _ => apply prints_bind
  | |- prints _ (if _ then _ else _) _ => apply prints_if
  | |- _ => assumption
  end.

Lemma prints_ret : prints file (mret tt) [].
Proof. intros e _. rewrite put_c_nil. apply runs_ret. Qed.

Lemma emit_adapter_prints mode name : prints file (emit_adapter mode name) (adapter_text mode name).
Proof. destruct mode; [apply prints_ret| |]; unfold emit_adapter, adapter_text; prints. Qed.

Lemma emit_lambda_prints n : prints file (emit_lambda n) (lambda_text n).
Proof.
  destruct n as [| |? ? ? data block comp [name|]| |]; try apply prints_ret.
  pose proof (emit_adapter_prints (block_mode data comp) name) as Ha.
  unfold emit_lambda, lambda_text. destruct (block_mode data comp);
    apply prints_bind; [prints|prints|prints|idtac|prints|idtac];
    (apply prints_bind; [prints|]); (apply prints_bind; [apply prints_ret|]); prints.
Qed.

Lemma emit_component_prints c : prints file (emit_component c) (component_text c).
Proof. unfold emit_component, component_text. prints. Qed.

Lemma emit_each_prints {X} (emit : X → G unit) (text : X → bytes) xs :
  (∀ x, prints file (emit x) (text x)) → prints file (emit_each emit xs) (concat (map text xs)).
Proof.
  intros H. induction xs as [|x xs IH]; [apply prints_ret|]. by apply prints_bind.
Qed.
End FileText.

(** Generating never fails while memory lasts, and this is what it writes. *)
Lemma generate_runs stem guard u file :
  ∃ e, runs (generate stem guard u) (new_emitter file) tt e ∧
    em_h e = h_file_text file guard u ∧
    em_c e = preamble_text file stem (u_once u) ++ program_text file (number_components 0 (u_comps u)) ∧
    em_overread e = false.
Proof.
  unfold generate. set (r := number_components 0 (u_comps u)).
  set (e1 := put_c (preamble_text file stem (u_once u)) (put_h (h_file_text file guard u) (new_emitter file))).
  destruct (collect_components_collects (u_comps u) e1) as [cap Hc]. cbv zeta in Hc. change (length _) with 0%nat in Hc.
  set (e2 := set_em_lambdas _ cap e1) in Hc.
  exists (put_c (program_text file r) e2). split_and!; [|done|done|done].
  apply runs_get_bind. eapply runs_bind; [apply runs_modify|]. eapply runs_bind; [apply runs_modify|].
  eapply runs_bind; [apply runs_modify|]. rewrite put_c_app.
  eapply runs_bind; [exact Hc|]. apply runs_get_bind.
  eapply runs_bind; [by apply (emit_each_prints file emit_lambda (lambda_text file)); [apply emit_lambda_prints|]|].
  unfold program_text. rewrite <- put_c_app.
  by apply (emit_each_prints file emit_component (component_text file)); [apply emit_component_prints|].
Qed.

(** ** What programs do

    The C expressions, the called components and the runtime are the interface: an
    environment gives a meaning to expressions, an output is what is written to. *)

Class Runtime (Env Out : Type) := {
  rt_lit : bytes → Out → Out;
  rt_write : Ctx → bytes → Env → Out → Out;
  rt_children : Env → Out → Out;
  rt_raw : bytes → Env → Out → Out;
  rt_frag_begin : bytes → Env → Out → Out;
  rt_frag_end : Out → Out;
  rt_once_begin : bytes → Env → Out → bool * Out;
  rt_cond : bytes → Env → Out → bool;
  rt_iterations : bytes → Env → Out → list Env;
  rt_child_env : BlockMode → option bytes → Env → Env;
  rt_call : bytes → option bytes → option (Out → Out) → Env → Out → Out;
  rt_undefined : Out → Out;
  rt_lit_app s t out : rt_lit (s ++ t) out = rt_lit t (rt_lit s out);
  rt_call_ext callee args f g env out :
    (∀ o, f o = g o) → rt_call callee args (Some f) env out = rt_call callee args (Some g) env out;
}.

Section Semantics.
Context {Env Out : Type} {rt : Runtime Env Out}.

(** What a template stands for. *)
Fixpoint render_node (n : Node) (env : Env) (out : Out) : Out :=
  let render (ns : list Node) env out := foldl (λ out n, render_node n env out) out ns in
  match n with
  | NText _ text => rt_lit text out
  | NInterp _ expr ctx children => if children then rt_children env out else rt_write ctx expr env out
  | NCall _ callee args data_expr block comp _ =>
      if streq callee (str "raw") then rt_raw (default [] args) env out
      else if streq callee (str "fragment") then
        rt_frag_end (render block env (rt_frag_begin (default [] args) env out))
      else if streq callee (str "once") then
        let r := rt_once_begin (default [] args) env out in
        if r.1 then render block env r.2 else r.2
      else
        rt_call callee args
          (if bool_decide (block = []) then None
           else Some (render block (rt_child_env (block_mode data_expr comp) data_expr env)))
          env out
  | NIf _ expr then_ otherwise => if rt_cond expr env out then render then_ env out else render otherwise env out
  | NFor _ expr then_ => foldl (λ out env, render then_ env out) out (rt_iterations expr env out)
  end.

Definition render (ns : list Node) (env : Env) (out : Out) : Out :=
  foldl (λ out n, render_node n env out) out ns.

(** The functions defined so far, in the order of the file. *)
Definition Functions : Type := list (bytes * (Env → Out → Out)).

Fixpoint find_function (fs : Functions) (name : bytes) : option (Env → Out → Out) :=
  match fs with
  | [] => None
  | (name', f) :: fs => if streq name' name then Some f else find_function fs name
  end.

Definition call_function (fs : Functions) (name : bytes) (env : Env) (out : Out) : Out :=
  match find_function fs name with Some f => f env out | None => rt_undefined out end.

(** Running a program in which the functions [fs] are defined. *)
Fixpoint exec_stmt (fs : Functions) (s : Stmt) (env : Env) (out : Out) : Out :=
  let exec (ss : list Stmt) env out := foldl (λ out s, exec_stmt fs s env out) out ss in
  match s with
  | SLit s => rt_lit s out
  | SWrite _ ctx expr => rt_write ctx expr env out
  | SChildren _ => rt_children env out
  | SRaw _ expr => rt_raw expr env out
  | SFragment _ name body => rt_frag_end (exec body env (rt_frag_begin name env out))
  | SOnce _ handle body =>
      let r := rt_once_begin handle env out in
      if r.1 then exec body env r.2 else r.2
  | SCall _ callee args child =>
      rt_call callee args
        (match child with
         | None => None
         | Some ch => Some (call_function fs (ch_name ch) (rt_child_env (ch_mode ch) (ch_data ch) env))
         end) env out
  | SIf _ expr then_ otherwise => if rt_cond expr env out then exec then_ env out else exec otherwise env out
  | SFor _ expr body => foldl (λ out env, exec body env out) out (rt_iterations expr env out)
  end.

Definition exec (fs : Functions) (ss : list Stmt) (env : Env) (out : Out) : Out :=
  foldl (λ out s, exec_stmt fs s env out) out ss.

Definition lambda_name (n : Node) : bytes :=
  match n with NCall _ _ _ _ _ _ (Some name) => name | _ => [] end.
Definition lambda_block (n : Node) : list Node :=
  match n with NCall _ _ _ _ block _ _ => block | _ => [] end.

(** Each function sees the ones before it only, as in C. *)
Definition define (fs : Functions) (n : Node) : Functions :=
  fs ++ [(lambda_name n, exec fs (compile (lambda_block n)))].

Definition link (fs : Functions) (lambdas : list Node) : Functions := foldl define fs lambdas.

(** *** Literals *)

Lemma exec_cons fs s ss env out : exec fs (s :: ss) env out = exec fs ss env (exec_stmt fs s env out).
Proof. done. Qed.

Lemma exec_merge fs lit ss env out :
  exec fs (merge lit ss) env out = exec fs ss env (from_option (λ l, rt_lit l out) out lit).
Proof.
  revert lit out. induction ss as [|s ss IH]; intros lit out; [by destruct lit|].
  destruct s; try (destruct lit; cbn [merge from_option app]; rewrite ?exec_cons, IH; done).
  cbn [merge]. rewrite exec_cons.
  assert (rt_lit (default [] lit ++ s) out = rt_lit s (from_option (λ l, rt_lit l out) out lit)) as E.
  { destruct lit as [l|]; [apply rt_lit_app|done]. }
  case_if; [rewrite exec_cons|]; rewrite IH; simpl; by rewrite <- E.
Qed.

Lemma exec_compile fs ns env out : exec fs (compile ns) env out = exec fs (map compile_node ns) env out.
Proof. unfold compile. by rewrite exec_merge. Qed.

(** *** Lambdas *)

Definition names (fs : Functions) : list bytes := map fst fs.

Definition numbered (k : nat) (fs : Functions) : Prop := names fs = map block_name (seq 1 k).

Lemma block_name_inj i j : block_name i = block_name j → i = j.
Proof.
  intros H. apply app_inv_head in H. unfold fmt_nat in H. apply fmt_u_inj in H; lia.
Qed.

Lemma find_function_app fs gs name f :
  name ∉ names fs → find_function (fs ++ (name, f) :: gs) name = Some f.
Proof.
  induction fs as [|[name' f'] fs IH]; intros H; simpl.
  - by rewrite streq_refl.
  - unfold names in H. simpl in H. apply not_elem_of_cons in H as [Hne H].
    rewrite (proj2 (streq_false _ _)) by congruence. by apply IH.
Qed.

(** A node that is numbered [k] on: its lambdas continue the numbering, and once they
    are defined running it renders it. *)
Definition lifted (n : Node) : Prop := ∀ k fs,
  numbered k fs →
  let r := number_node k n in
  numbered (k + length r.2) (link fs r.2) ∧ (∃ gs, link fs r.2 = fs ++ gs) ∧
  ∀ gs env out, exec_stmt (link fs r.2 ++ gs) (compile_node r.1) env out = render_node n env out.

Definition lifted_all (ns : list Node) : Prop := ∀ k fs,
  numbered k fs →
  let r := number k ns in
  numbered (k + length r.2) (link fs r.2) ∧ (∃ gs, link fs r.2 = fs ++ gs) ∧
  ∀ gs env out, exec (link fs r.2 ++ gs) (compile r.1) env out = render ns env out.

Lemma link_app fs l1 l2 : link fs (l1 ++ l2) = link (link fs l1) l2.
Proof. apply foldl_app. Qed.

Lemma lifted_list ns : Forall lifted ns → lifted_all ns.
Proof.
  induction 1 as [|n ns Hn Hns IH]; intros k fs Hfs; cbv zeta.
  - simpl. rewrite Nat.add_0_r. split_and!; [done|by exists []; rewrite app_nil_r|done].
  - destruct (Hn k fs Hfs) as (H1 & [g1 E1] & R1). cbv zeta in *.
    destruct (IH _ _ H1) as (H2 & [g2 E2] & R2). cbv zeta in *. cbn [number]. cbv zeta. cbn [fst snd].
    rewrite link_app, length_app, Nat.add_assoc. split_and!; [done| |].
    + exists (g1 ++ g2). by rewrite E2, E1, app_assoc.
    + intros gs env out. rewrite exec_compile. cbn [map]. rewrite exec_cons, <- exec_compile, R2.
      rewrite E2, <- app_assoc, R1. done.
Qed.

Lemma number_nil k ns : (number k ns).1 = [] ↔ ns = [].
Proof. by destruct ns. Qed.

Lemma exec_body fs ns env out :
  foldl (λ out s, exec_stmt fs s env out) out (merge None (map compile_node ns)) = exec fs (compile ns) env out.
Proof. done. Qed.

(** A child block that is lifted to a function. *)
Lemma lifted_child line callee args data block comp gen :
  is_builtin_callee callee = false → block ≠ [] → lifted_all block →
  lifted (NCall line callee args data block comp gen).
Proof.
  intros Hcallee Hne Hb k fs Hfs. destruct (Hb k fs Hfs) as (H1 & [g1 E1] & R1). cbv zeta in *.
  change (number_node k (NCall line callee args data block comp gen))
    with (let b := number k block in
          if negb (bool_decide (b.1 = [])) && negb (is_builtin_callee callee) then
            let n := NCall line callee args data b.1 comp (Some (block_name (S (k + length b.2)))) in (n, b.2 ++ [n])
          else (NCall line callee args data b.1 comp gen, b.2)).
  cbv zeta. rewrite Hcallee, bool_decide_eq_false_2 by (by rewrite number_nil). cbn [negb andb fst snd].
  set (b := number k block) in *. set (name := block_name (S (k + length b.2))).
  rewrite link_app. set (fs1 := link fs b.2) in *.
  change (link fs1 [NCall line callee args data b.1 comp (Some name)])
    with (fs1 ++ [(name, exec fs1 (compile b.1))]).
  rewrite length_app, Nat.add_assoc. split_and!.
  - unfold numbered, names. rewrite map_app. fold (names fs1). rewrite H1. simpl length.
    by rewrite (seq_app (k + length b.2) 1 1), map_app.
  - exists (g1 ++ [(name, exec fs1 (compile b.1))]). by rewrite E1, app_assoc.
  - intros gs env out. cbn [compile_node render_node].
    unfold is_builtin_callee in Hcallee. apply orb_false_iff in Hcallee as [Hc1 Hc3].
    apply orb_false_iff in Hc1 as [Hc1 Hc2]. rewrite Hc1, Hc2, Hc3.
    assert (b.1 ≠ []) as Hbne by (unfold b; by rewrite number_nil).
    rewrite !bool_decide_eq_false_2 by done. cbn [exec_stmt ch_name ch_mode ch_data from_option id].
    apply rt_call_ext. intros o. unfold call_function. rewrite <- app_assoc. cbn [app].
    rewrite find_function_app; [|].
    + rewrite <- (app_nil_r fs1) at 1. apply R1.
    + rewrite H1. intros Hin. apply list_elem_of_In, in_map_iff in Hin as (i & Hi & Hseq).
      apply block_name_inj in Hi. apply in_seq in Hseq. lia.
Qed.

(** Other calls get no lambda of their own. *)
Lemma lifted_builtin line callee args data block comp gen :
  is_builtin_callee callee = true ∨ block = [] → lifted_all block →
  lifted (NCall line callee args data block comp gen).
Proof.
  intros Hcallee Hb k fs Hfs. destruct (Hb k fs Hfs) as (H1 & H2 & R1). cbv zeta in *.
  assert (number_node k (NCall line callee args data block comp gen) =
          (NCall line callee args data (number k block).1 comp gen, (number k block).2)) as ->.
  { change (number_node k (NCall line callee args data block comp gen))
      with (let b := number k block in
            if negb (bool_decide (b.1 = [])) && negb (is_builtin_callee callee) then
              let n := NCall line callee args data b.1 comp (Some (block_name (S (k + length b.2)))) in (n, b.2 ++ [n])
            else (NCall line callee args data b.1 comp gen, b.2)).
    cbv zeta. destruct Hcallee as [->| ->]; [by rewrite andb_false_r|done]. }
  cbn [fst snd]. split_and!; [done..|]. intros gs env out. cbn [compile_node render_node].
  destruct (streq callee (str "raw")) eqn:Er; [done|].
  destruct (streq callee (str "fragment")) eqn:Ef; [cbn [exec_stmt]; by rewrite exec_body, R1|].
  destruct (streq callee (str "once")) eqn:Eo; [cbn [exec_stmt]; by rewrite exec_body, R1|].
  destruct Hcallee as [Hc| ->]; [|done]. unfold is_builtin_callee in Hc. by rewrite Er, Ef, Eo in Hc.
Qed.

Lemma lifted_node n : lifted n.
Proof.
  induction n as [| |line callee args data block comp gen Hb|line expr t o Ht Ho|line expr t Ht] using node_nested_ind.
  - intros k fs Hfs. cbn. rewrite Nat.add_0_r. split_and!; [done|exists []; by rewrite app_nil_r|done].
  - intros k fs Hfs. cbn. rewrite Nat.add_0_r. split_and!; [done|exists []; by rewrite app_nil_r|].
    by destruct children.
  - apply lifted_list in Hb. destruct (is_builtin_callee callee) eqn:Ec; [by apply lifted_builtin; [left|]|].
    destruct (decide (block = [])); [by apply lifted_builtin; [right|]|by apply lifted_child].
  - apply lifted_list in Ht, Ho. intros k fs Hfs.
    destruct (Ho k fs Hfs) as (H1 & [g1 E1] & R1). cbv zeta in *.
    destruct (Ht _ _ H1) as (H2 & [g2 E2] & R2). cbv zeta in *.
    change (number_node k (NIf line expr t o))
      with (let o' := number k o in let t' := number (k + length o'.2)%nat t in (NIf line expr t'.1 o'.1, o'.2 ++ t'.2)).
    cbv zeta. cbn [fst snd]. rewrite link_app, length_app, Nat.add_assoc. split_and!; [done| |].
    + exists (g1 ++ g2). by rewrite E2, E1, app_assoc.
    + intros gs env out. cbn [compile_node exec_stmt render_node]. rewrite !exec_body, R2.
      rewrite E2, <- app_assoc, R1. done.
  - apply lifted_list in Ht. intros k fs Hfs. destruct (Ht k fs Hfs) as (H1 & H2 & R1). cbv zeta in *.
    change (number_node k (NFor line expr t)) with (let t' := number k t in (NFor line expr t'.1, t'.2)).
    cbv zeta. cbn [fst snd]. split_and!; [done..|]. intros gs env out.
    cbn [compile_node exec_stmt render_node]. generalize (rt_iterations expr env out). intros envs.
    revert out. induction envs as [|env' envs IH]; intros out; [done|]. simpl. rewrite <- IH.
    f_equal. apply R1.
Qed.

Lemma lifted_body ns : lifted_all ns.
Proof. apply lifted_list, Forall_forall. intros n _. apply lifted_node. Qed.

(** [c'] is [c] compiled: the same function, whose body renders that of [c]. *)
Definition compiled (fs : Functions) (c c' : Component) : Prop :=
  c_name c' = c_name c ∧ c_params c' = c_params c ∧
  ∀ env out, exec fs (compile (c_body c')) env out = render (c_body c) env out.

Lemma components_compiled cs k fs gs :
  numbered k fs →
  let r := number_components k cs in
  (∃ hs, link fs r.2 = fs ++ hs) ∧ Forall2 (compiled (link fs r.2 ++ gs)) cs r.1.
Proof.
  revert k fs. induction cs as [|c cs IH]; intros k fs Hfs; cbv zeta.
  - split; [exists []; by rewrite app_nil_r|constructor].
  - destruct (lifted_body (c_body c) k fs Hfs) as (H1 & [g1 E1] & R1). cbv zeta in *.
    destruct (IH _ _ H1) as ([g2 E2] & H2). cbv zeta in *. cbn [number_components]. cbv zeta. cbn [fst snd].
    rewrite link_app. split; [exists (g1 ++ g2); by rewrite E2, E1, app_assoc|].
    constructor; [|done]. split_and!; [done..|]. intros env out. cbn [c_body].
    rewrite E2, <- app_assoc. apply R1.
Qed.
End Semantics.

