(* ===== verification/CtmplOut.v ===== *)
(** * The template compiler: what reaches the C compiler

    String literals written by [src/tools/ctmpl.c] mean the text of the template, nothing
    is written when the source is refused, and examples of what goes wrong otherwise. *)

From S2P Require Import Prelude CLib World StateErr Response Tpl Ctmpl CtmplParse CtmplGen CtmplProg CtmplSem.
#[local] Open Scope Z_scope.

(** ** Reading a C string literal *)

(** Translation phase 1 of C17: the character a trigraph [??c] stands for. *)
Definition trigraph (c : Z) : option Z :=
  if c =? "="%ch then Some "#"%ch
  else if c =? "("%ch then Some "["%ch
  else if c =? "/"%ch then Some BACKSLASH
  else if c =? ")"%ch then Some "]"%ch
  else if c =? "'"%ch then Some "^"%ch
  else if c =? "<"%ch then Some "{"%ch
  else if c =? "!"%ch then Some "|"%ch
  else if c =? ">"%ch then Some "}"%ch
  else if c =? "-"%ch then Some "~"%ch
  else None.

Fixpoint trigraphs (s : bytes) : bytes :=
  match s with
  | c1 :: ((c2 :: c3 :: r) as r1) =>
      if (c1 =? "?"%ch) && (c2 =? "?"%ch) then
        match trigraph c3 with Some x => x :: trigraphs r | None => c1 :: trigraphs r1 end
      else c1 :: trigraphs r1
  | c1 :: r1 => c1 :: trigraphs r1
  | [] => []
  end.

Definition is_octal (c : Z) : bool := ("0"%ch <=? c) && (c <=? "7"%ch).

(** The value of a simple escape sequence. *)
Definition simple_escape (c : Z) : option Z :=
  if (c =? DQUOTE) || (c =? BACKSLASH) then Some c
  else if c =? "n"%ch then Some LF
  else if c =? "t"%ch then Some HT
  else if c =? "r"%ch then Some CR
  else None.

(** The contents of a literal up to its closing quote, and what follows. *)
Fixpoint read_literal (s : bytes) : option (bytes * bytes) :=
  match s with
  | [] => None
  | c :: r =>
      if c =? DQUOTE then Some ([], r)
      else if c =? LF then None
      else if c =? BACKSLASH then
        match r with
        | a :: r' =>
            match simple_escape a with
            | Some x => '(v, t) ← read_literal r'; Some (x :: v, t)
            | None =>
                match r' with
                | b :: d :: r'' =>
                    if is_octal a && is_octal b && is_octal d then
                      '(v, t) ← read_literal r'';
                      Some ((a - "0"%ch) * 64 + (b - "0"%ch) * 8 + (d - "0"%ch) :: v, t)
                    else None
                | _ => None
                end
            end
        | [] => None
        end
      else '(v, t) ← read_literal r; Some (c :: v, t)
  end.

(** The value of a string literal as a C17 compiler sees it. *)
Definition c_string_value (text : bytes) : option bytes :=
  match trigraphs text with
  | c :: t =>
      if c =? DQUOTE then
        match read_literal t with Some (v, []) => Some v | _ => None end
      else None
  | [] => None
  end.

(** Two question marks in a row. *)
Fixpoint qq (s : bytes) : bool :=
  match s with
  | c1 :: r => ((c1 =? "?"%ch) && (deref r =? "?"%ch)) || qq r
  | [] => false
  end.

Lemma trigraphs_id s : qq s = false → trigraphs s = s.
Proof.
  induction s as [|c s IH]; [done|]. cbn [qq]. intros H. apply orb_false_iff in H as [H1 H2].
  specialize (IH H2). destruct s as [|c2 [|c3 r]]; [done|simpl in *; congruence|].
  cbn [deref] in H1. change (trigraphs (c :: c2 :: c3 :: r))
    with (if (c =? "?"%ch) && (c2 =? "?"%ch) then
            match trigraph c3 with Some x => x :: trigraphs r | None => c :: trigraphs (c2 :: c3 :: r) end
          else c :: trigraphs (c2 :: c3 :: r)).
  by rewrite H1, IH.
Qed.

(** A text without question marks does not matter. *)
Definition no_question (s : bytes) : Prop := Forall (λ c, c ≠ "?"%ch) s.

Lemma qq_app_l s t : no_question s → qq (s ++ t) = qq t.
Proof.
  induction 1 as [|c s Hc Hs IH]; [done|]. simpl. rewrite (proj2 (Z.eqb_neq _ _) Hc). exact IH.
Qed.

Lemma c_escape_cases c :
  is_byte c →
  (c_escape c = [c] ∧ c ≠ DQUOTE ∧ c ≠ LF ∧ c ≠ BACKSLASH ∧ c ≠ NUL) ∨
  (∃ a, c_escape c = [BACKSLASH; a] ∧ simple_escape a = Some c ∧ a ≠ "?"%ch ∧ a ≠ NUL) ∨
  (c_escape c = BACKSLASH :: fmt_03o c).
Proof.
  intros Hb. unfold c_escape.
  destruct (c =? DQUOTE) eqn:E1; [breflect; subst; right; left; by eexists|].
  destruct (c =? BACKSLASH) eqn:E2; [breflect; subst; right; left; by eexists|].
  destruct (c =? LF) eqn:E3; [breflect; subst; right; left; by eexists|].
  destruct (c =? HT) eqn:E4; [breflect; subst; right; left; by eexists|].
  destruct (c =? CR) eqn:E5; [breflect; subst; right; left; by eexists|].
  destruct ((c <? 32) || (c =? 127)) eqn:E6; [auto|]. left. breflect. split_and!; [done|lia..].
Qed.

Lemma octal_digits c :
  is_byte c →
  let d2 := c / 64 in let d1 := c / 8 mod 8 in let d0 := c mod 8 in
  0 <= d2 < 4 ∧ 0 <= d1 < 8 ∧ 0 <= d0 < 8 ∧ d2 * 64 + d1 * 8 + d0 = c.
Proof.
  unfold is_byte. intros H. cbv zeta. pose proof (Z.div_mod c 8 ltac:(lia)).
  pose proof (Z.div_mod (c / 8) 8 ltac:(lia)). rewrite Z.div_div in * by lia. change (8 * 8) with 64 in *.
  pose proof (Z.mod_pos_bound c 8 ltac:(lia)). pose proof (Z.mod_pos_bound (c / 8) 8 ltac:(lia)).
  split_and!; lia || (apply Z.div_le_lower_bound; lia) || (apply Z.div_lt_upper_bound; lia).
Qed.

Lemma read_escaped c r :
  is_byte c → read_literal (c_escape c ++ r) = ('(v, t) ← read_literal r; Some (c :: v, t)).
Proof.
  intros Hb. destruct (c_escape_cases c Hb) as [(-> & H1 & H2 & H3 & _)|[(a & -> & Ha & _)| ->]].
  - cbn [app read_literal]. by rewrite !(proj2 (Z.eqb_neq _ _)).
  - change ([BACKSLASH; a] ++ r) with (BACKSLASH :: a :: r). cbn [read_literal]. simpl Z.eqb. cbv iota. by rewrite Ha.
  - destruct (octal_digits c Hb) as (H2 & H1 & H0 & Hc). cbv zeta in *.
    unfold fmt_03o. cbn [map]. set (d2 := c / 64) in *. set (d1 := c / 8 mod 8) in *. set (d0 := c mod 8) in *.
    change ((BACKSLASH :: ["0"%ch + d2; "0"%ch + d1; "0"%ch + d0]) ++ r)
      with (BACKSLASH :: ("0"%ch + d2) :: ("0"%ch + d1) :: ("0"%ch + d0) :: r).
    cbn [read_literal]. simpl (BACKSLASH =? _). cbv iota.
    assert (simple_escape ("0"%ch + d2) = None) as ->.
    { unfold simple_escape. repeat (rewrite (proj2 (Z.eqb_neq _ _)) by lia). done. }
    assert (∀ d, 0 <= d < 8 → is_octal ("0"%ch + d) = true) as Hoct.
    { intros d Hd. unfold is_octal. apply andb_true_iff. split; apply Z.leb_le; lia. }
    rewrite !Hoct by lia. cbn [andb]. destruct (read_literal r) as [[v t]|]; [|done]. simpl. do 3 f_equal. lia.
Qed.

Lemma read_literal_escape s r :
  Forall is_byte s → read_literal (concat (map c_escape s) ++ DQUOTE :: r) = Some (s, r).
Proof.
  induction 1 as [|c s Hc Hs IH]; [done|]. cbn [map concat]. by rewrite <- app_assoc, read_escaped, IH.
Qed.

Lemma fmt_03o_digits c : is_byte c → Forall (λ d, "0"%ch <= d <= "7"%ch) (fmt_03o c).
Proof.
  intros Hb. destruct (octal_digits c Hb) as (H2 & H1 & H0 & _). cbv zeta in *. unfold fmt_03o. cbn [map].
  repeat constructor; lia.
Qed.

Lemma escape_nul_free s : Forall is_byte s → nul_free (concat (map c_escape s)).
Proof.
  induction 1 as [|c s Hc Hs IH]; [constructor|]. cbn [map concat]. apply Forall_app. split; [|done].
  destruct (c_escape_cases c Hc) as [(-> & _ & _ & _ & H)|[(a & -> & _ & _ & H)| ->]].
  - by apply Forall_singleton.
  - by repeat constructor.
  - constructor; [done|]. eapply Forall_impl; [by apply fmt_03o_digits|]. intros d. cbv beta. lia.
Qed.

Lemma qq_escape s t :
  Forall is_byte s → deref t ≠ "?"%ch → qq (concat (map c_escape s) ++ t) = qq s || qq t.
Proof.
  intros Hs Ht. induction Hs as [|c s Hc Hs IH]; [done|]. cbn [map concat]. rewrite <- app_assoc.
  destruct (Z.eq_dec c "?"%ch) as [->|Hq].
  - change (c_escape "?"%ch) with ["?"%ch]. cbn [app qq]. rewrite IH, <- orb_assoc. f_equal. cbn [andb Z.eqb].
    destruct s as [|c' s]; [by apply Z.eqb_neq|]. cbn [map concat deref].
    apply Forall_cons in Hs as [Hc' _].
    destruct (c_escape_cases c' Hc') as [(-> & _)|[(a & E & Ha & _)|E]]; [done|..]; rewrite E; simpl;
      symmetry; apply Z.eqb_neq; intros ->; by vm_compute in E.
  - cbn [qq]. rewrite (proj2 (Z.eqb_neq _ _) Hq). cbn [andb orb]. rewrite <- IH.
    destruct (c_escape_cases c Hc) as [(-> & _)|[(a & -> & _ & Ha & _)| ->]].
    + apply (qq_app_l [c]). by apply Forall_singleton.
    + apply (qq_app_l [BACKSLASH; a]). by repeat constructor.
    + apply qq_app_l. constructor; [done|]. eapply Forall_impl; [by apply fmt_03o_digits|].
      intros d. cbv beta. lia.
Qed.

(** The string literal that is written for a text means this text: a C17 compiler
    reads back every byte, control characters and quotes included, whenever there are no
    two question marks in a row. *)
Lemma literal_round_trip s :
  Forall is_byte s → qq s = false → c_string_value (quoted (c_literal s)) = Some s.
Proof.
  intros Hs Hq. unfold c_literal. rewrite cstr_id by by apply escape_nul_free.
  unfold c_string_value, quoted. cbn [app]. rewrite trigraphs_id.
  - simpl (DQUOTE =? DQUOTE). cbv iota. by rewrite read_literal_escape.
  - change (qq (concat (map c_escape s) ++ [DQUOTE]) = false). rewrite qq_escape by done. by rewrite Hq.
Qed.

Definition sample_text : bytes := str "<p class=" ++ quoted (str "x") ++ str ">a\b?" ++ [LF; 7; 49; 0; 255].

(** Two question marks make a trigraph, and the page says something else. *)
Example trigraph_changes_text :
  c_string_value (quoted (c_literal (str "What??!"))) = Some (str "What|").
Proof. reflexivity. Qed.

(** ** All or nothing *)

(** While memory lasts, the compiler leaves the world alone and does nothing undefined. *)
Definition compiled_file (src : option bytes) (file : bytes) (w : World) (r : CtmplResult) : Prop :=
  let stem := stem_of_path file in
  ∃ text u p, src = Some text ∧ parse_file file (new_parser text) w = (inr (u, stem, guard_of_stem stem), p, w) ∧
    r_h r = h_file_text file (guard_of_stem stem) u ∧
    r_c r = preamble_text file stem (u_once u) ++ program_text file (number_components 0 (u_comps u)).

Lemma ctmpl_compile_clean src in_name streams w :
  w_alloc w = [] →
  let r := result (ctmpl_compile src in_name streams) w in
  world (ctmpl_compile src in_name streams) w = w ∧ r_double_free r = false ∧ r_overread r = false ∧
  (r_outcome r = Some None → compiled_file src (default (str "input") in_name) w r) ∧
  (r_outcome r ≠ Some None → r_h r = [] ∧ r_c r = []).
Proof.
  intros Hw. cbv zeta. unfold compiled_file, ctmpl_compile. destruct src as [src|]; [|done].
  destruct (negb streams); [done|]. set (file := default (str "input") in_name).
  unfold result, world. rewrite bind_run. unfold result, world.
  pose proof (parse_file_wp file (new_parser src) (new_parser_ok src) eq_refl w) as Hp.
  destruct (clean_parse_file file (new_parser src) w Hw) as [Hw' Hd].
  unfold result, post in Hp. destruct (parse_file file (new_parser src) w) as [[r p] w'] eqn:E.
  cbn [fst snd] in *. subst w'. destruct r as [e|[[u stem] guard]]; cbn [fst snd] in *.
  - cbn. split_and!; [done|done|done|by destruct e|done].
  - destruct Hp as (_ & _ & -> & ->).
    destruct (generate_runs (stem_of_path file) (guard_of_stem (stem_of_path file)) u file)
      as (e & Hrun & Hh & Hc & Ho).
    rewrite bind_run. unfold result, world. rewrite (Hrun w Hw).
    cbn [fst snd r_double_free r_overread r_outcome r_h r_c outcome].
    split_and!; [done|done|done| |done]. intros _. exists src, u, p. split_and!; [done|exact E|exact Hh|exact Hc].
Qed.

(** C19: while memory lasts, a source is refused before anything is written: -1 leaves
    both streams empty, and 0 means that header and program are complete.  No block is
    released twice and no literal is printed without its end. *)
Theorem ctmpl_compile_all_or_nothing src in_name streams w :
  w_alloc w = [] →
  let r := result (ctmpl_compile src in_name streams) w in
  let file := default (str "input") in_name in
  let stem := stem_of_path file in
  r_double_free r = false ∧ r_overread r = false ∧
  (r_outcome r = Some None →
     ∃ text u p, src = Some text ∧ parse_file file (new_parser text) w = (inr (u, stem, guard_of_stem stem), p, w) ∧
       r_h r = h_file_text file (guard_of_stem stem) u ∧
       r_c r = preamble_text file stem (u_once u) ++ program_text file (number_components 0 (u_comps u))) ∧
  (r_outcome r ≠ Some None → r_h r = [] ∧ r_c r = []).
Proof.
  intros Hw. cbv zeta. destruct (ctmpl_compile_clean src in_name streams w Hw) as (_ & H1 & H2 & H3 & H4).
  split; [exact H1|]. split; [exact H2|]. split; [|exact H4].
  intros Ho. destruct (H3 Ho) as (text & u & p & Hs & Hp & Hh & Hc). by exists text, u, p.
Qed.

(** A memory in which the allocation after [n] others fails. *)
Definition failing_after (n : nat) : World := with_alloc (replicate n true ++ [false]) quiet_world.

Definition demo_source : bytes :=
  str "component a(int b) { @w(1) { <p>x</p> } }".

Lemma ctmpl_compile_all_or_nothing_witness :
  w_alloc quiet_world = [] ∧
  let r := result (ctmpl_compile (Some demo_source) None true) quiet_world in
  r_double_free r = false ∧ r_overread r = false ∧ r_outcome r = Some None.
Proof.
  split; [reflexivity|].
  destruct (ctmpl_compile_all_or_nothing (Some demo_source) None true quiet_world eq_refl) as (H1 & H2 & _ & _).
  split; [exact H1|]. split; [exact H2|]. reflexivity.
Defined.

(** ** Memory running out *)

(** The copy of a name is released twice when the array of blocks cannot grow. *)
Example oom_double_free :
  r_double_free (result (ctmpl_compile (Some demo_source) None true) (failing_after 1)) = true.
Proof. reflexivity. Qed.

(** -1 is returned although the header and a part of the program have been written. *)
Example oom_partial_output :
  let r := result (ctmpl_compile (Some demo_source) None true) (failing_after 19) in
  option_map (option_map err_message) (r_outcome r) = Some (Some (str "internal error")) ∧ zlen (r_h r) = 180 ∧ zlen (r_c r) = 76.
Proof. split_and!; reflexivity. Qed.

(** The terminator of a literal does not fit, and the literal is printed all the same. *)
Example oom_overread :
  let r := emit_texts 0 [NText 1 (replicate 64 "x"%ch)] (new_emitter (str "t")) (failing_after 1) in
  em_overread r.1.2 = true.
Proof. reflexivity. Qed.

(** ** Further departures *)

(** The data expression of a child block is cut to the size of a buffer. *)
Example long_data_cut :
  let data := replicate 300 "x"%ch in
  zlen (block_binding BLOCK_UNTYPED (str "f") (Some data)).2 = 255 ∧
  last (block_binding BLOCK_UNTYPED (str "f") (Some data)).2 = Some "x"%ch.
Proof. split; reflexivity. Qed.

(** Five characters of the default guard are stored, four stay. *)
Example empty_guard : guard_of_stem (stem_of_path []) = str "CTMP_TEMPL_H".
Proof. reflexivity. Qed.

Definition nodes_of (body : bytes) : option (list Node) :=
  match (parse_body (new_parser body) quiet_world).1.1 with inr ns => Some ns | inl _ => None end.

(** Expressions in scripts are refused, but not behind a blank. *)
Example script_behind_blank :
  nodes_of (str "<a onclick=" ++ quoted (str "{ x }") ++ str "></a>}") = None ∧
  nodes_of (str "<a onclick= " ++ quoted (str "{ x }") ++ str "></a>}") =
    Some [NText 1 (str "<a onclick= " ++ [DQUOTE]); NInterp 1 (str "x") CTX_ATTR false;
          NText 1 ([DQUOTE] ++ str ">"); NText 1 (str "</a>")].
Proof. split; reflexivity. Qed.

(** A URL behind a blank loses its context. *)
Example url_behind_blank :
  nodes_of (str "<a href = " ++ quoted (str "{ x }") ++ str "></a>}") =
    Some [NText 1 (str "<a href = " ++ [DQUOTE]); NInterp 1 (str "x") CTX_ATTR false;
          NText 1 ([DQUOTE] ++ str ">"); NText 1 (str "</a>")].
Proof. reflexivity. Qed.

(** Tags are balanced along the source, not along the branches. *)
Example tags_across_branches :
  nodes_of (str "if c { <div> } </div>}") =
    Some [NIf 1 (str "c") [NText 1 (str " "); NText 1 (str "<div>")] []; NText 1 (str " "); NText 1 (str "</div>")].
Proof. reflexivity. Qed.

(** The literal written by a data binding without a block is kept as text. *)
Example with_kept_as_text :
  nodes_of (str "@card(1) with (x) <p></p>}") =
    Some [NCall 1 (str "card") (Some (str "1")) (Some (str "x")) [] None None;
          NText 1 (str " with (x) "); NText 1 (str "<p>"); NText 1 (str "</p>")].
Proof. reflexivity. Qed.
