(* ===== verification/CtmplRuns.v ===== *)
(** * The template compiler: runs of the parser

    What the parser of [src/tools/ctmpl.c] does on a text it accepts, while memory lasts:
    the cursor moves over a piece of the source, and the scanners of C text, names and
    white space find its end. *)

From S2P Require Import Prelude CLib World StateErr Response Tpl Ctmpl CtmplParse CtmplGen CtmplProg.
#[local] Open Scope Z_scope.

(** ** Where the cursor stands *)

Definition left (p : Parser) : bytes := drop (p_pos p) (p_src p).

(** From [p] to [q] the cursor has moved over the text [s]. *)
Record moved (p : Parser) (s : bytes) (q : Parser) : Prop := {
  mv_src : p_src q = p_src p;
  mv_params : p_params q = p_params p;
  mv_tags : p_tags q = p_tags p;
  mv_left : left p = s ++ left q;
  mv_pos : p_pos q = (p_pos p + length s)%nat;
}.

Lemma moved_refl p : moved p [] p.
Proof. by split. Qed.

Lemma moved_trans p s q t r u : u = s ++ t → moved p s q → moved q t r → moved p u r.
Proof.
  intros -> [H1 H2 H3 H4 H5] [G1 G2 G3 G4 G5]. split; try congruence.
  - by rewrite H4, G4, app_assoc.
  - rewrite length_app. lia.
Qed.

Lemma moved_allocs a p s q : moved p s q → moved p s (set_p_allocs a q).
Proof. by intros [? ? ? ? ?]. Qed.

Lemma left_app p s q r : moved p s q → left p = s ++ r → left q = r.
Proof. intros H E. rewrite (mv_left _ _ _ H) in E. by apply app_inv_head in E. Qed.

Lemma peek_at_left p i : peek_at p i = nth i (left p) NUL.
Proof. unfold peek_at, left. by rewrite nth_skipn. Qed.

Lemma peek_left p : peek p = deref (left p).
Proof. unfold peek. rewrite peek_at_left. by destruct (left p). Qed.

Lemma at_end_left p : at_end p = bool_decide (left p = []).
Proof.
  unfold at_end, left. case_bool_decide as H.
  - apply Nat.leb_le. apply (f_equal length) in H. rewrite length_drop in H. simpl in H. lia.
  - apply Nat.leb_gt. apply Nat.nle_gt. intros Hle. by destruct H; apply drop_ge.
Qed.

Lemma at_end_cons p c r : left p = c :: r → at_end p = false.
Proof. intros H. rewrite at_end_left, H. by apply bool_decide_eq_false. Qed.

Lemma remaining_left p : remaining p = length (left p).
Proof. unfold remaining, left. by rewrite length_drop. Qed.

Lemma left_cursor pos line line_start p : left (set_p_cursor pos line line_start p) = drop pos (p_src p).
Proof. done. Qed.

Lemma advance_moved p c r : left p = c :: r → moved p [c] (advance p).
Proof.
  intros H. unfold advance. rewrite (at_end_cons _ _ _ H).
  assert (drop (S (p_pos p)) (p_src p) = r) as Hd.
  { unfold left in H. replace (S (p_pos p)) with (p_pos p + 1)%nat by lia. by rewrite <- drop_drop, H. }
  destruct (peek p =? LF); split; try done; rewrite ?left_cursor, ?Hd, ?H; simpl; (done || lia).
Qed.

Lemma advance_n_moved s : ∀ p r, left p = s ++ r → moved p s (advance_n p (length s)).
Proof.
  induction s as [|c s IH]; intros p r H; [apply moved_refl|].
  pose proof (advance_moved p c (s ++ r) H) as Ha.
  eapply moved_trans; [|exact Ha|]; [done|]. apply (IH _ r). by apply (left_app _ [c] _ _ Ha).
Qed.

(** A loop that looks at what is left: it stops behind [s]. *)
Lemma advance_while_moved (g : bytes → bool) cond s : ∀ p r,
  (∀ q, left q ≠ [] → cond q = g (left q)) → left p = s ++ r →
  (∀ a b, s = a ++ b → b ≠ [] → g (b ++ r) = true) → (r ≠ [] → g r = false) →
  moved p s (advance_while cond p).
Proof.
  intros p r Hc. unfold advance_while. rewrite remaining_left.
  enough (∀ fuel p, (length (left p) ≤ fuel)%nat → left p = s ++ r →
    (∀ a b, s = a ++ b → b ≠ [] → g (b ++ r) = true) → (r ≠ [] → g r = false) →
    moved p s (advance_while_fuel fuel cond p)) as H by (intros; by apply H).
  clear p. induction s as [|c s IH]; intros fuel p Hf Hp Hs Hr.
  - assert (advance_while_fuel fuel cond p = p) as ->; [|apply moved_refl].
    destruct fuel as [|fuel]; [done|]. simpl. rewrite at_end_left. simpl in Hp.
    case_bool_decide as E; [done|]. by rewrite Hc, Hp, Hr by congruence.
  - destruct fuel as [|fuel]; [rewrite Hp in Hf; simpl in Hf; lia|]. simpl.
    rewrite (at_end_cons _ c (s ++ r)) by done. rewrite Hc, Hp by by rewrite Hp.
    rewrite (Hs [] (c :: s)) by done. simpl.
    pose proof (advance_moved p c (s ++ r) Hp) as Ha. assert (left (advance p) = s ++ r) as Hl by by apply (left_app _ [c] _ _ Ha).
    eapply moved_trans; [|exact Ha|]; [done|]. apply IH; [|done| |done].
    + rewrite Hl. rewrite Hp in Hf. simpl in Hf. lia.
    + intros a b -> Hb. by apply (Hs (c :: a)).
Qed.

(** The loops that look at one character. *)
Lemma advance_chars_moved (f : Z → bool) cond s p r :
  (∀ q, cond q = f (peek q)) → left p = s ++ r → Forall (λ c, f c = true) s →
  (∀ c r', r = c :: r' → f c = false) → moved p s (advance_while cond p).
Proof.
  intros Hc Hp Hs Hr. apply (advance_while_moved (λ l, f (deref l)) _ _ _ r); [|done| |].
  - intros q _. by rewrite Hc, peek_left.
  - intros a b -> Hb. apply Forall_app in Hs as [_ Hs]. destruct b as [|c b]; [done|]. by inversion Hs.
  - intros H. destruct r as [|c r]; [done|]. by eapply Hr.
Qed.

Lemma skip_ws_moved p r :
  left p = r → ∃ s, r = s ++ skip_while isspace r ∧ moved p s (skip_ws p) ∧ left (skip_ws p) = skip_while isspace r.
Proof.
  intros H. destruct (span isspace r) as [a b] eqn:E.
  assert (skip_while isspace r = b) as Hb by (unfold skip_while; by rewrite E).
  pose proof (span_app _ _ _ _ E) as Hr. exists a. rewrite Hb.
  assert (moved p a (skip_ws p)) as Hm.
  { apply (advance_chars_moved isspace _ _ _ b); [done|by rewrite H|by eapply span_forall|].
    intros c r' ->. destruct (span_stop _ _ _ _ E) as [?|(c' & r'' & [= <- <-] & ?)]; [done|done]. }
  split; [done|]. split; [done|]. apply (left_app _ a _ _ Hm). by rewrite H.
Qed.

(** A piece of the source between two places of the cursor. *)
Lemma slice_moved p s q : moved p s q → slice q (p_pos p) (p_pos q) = s.
Proof.
  intros H. unfold slice. rewrite (mv_src _ _ _ H), (mv_pos _ _ _ H). fold (left p). rewrite (mv_left _ _ _ H).
  replace (p_pos p + length s - p_pos p)%nat with (length s) by lia. apply take_app_length.
Qed.

Lemma rewind_moved p s q : moved p s q → moved p [] (rewind p q).
Proof.
  intros [H1 H2 H3 H4 H5]. split; try done. unfold rewind. rewrite left_cursor, H1. done.
Qed.

(** ** Runs in a world where allocations succeed *)

Section Runs.
Variable w : World.
Hypothesis Hw : w_alloc w = [].

Definition gives {A} (m : P A) (p : Parser) (x : A) (q : Parser) : Prop := m p w = (inr x, q, w).

Lemma gives_ret {A} (x : A) p : gives (mret x) p x p.
Proof. done. Qed.

Lemma gives_bind {A B} (m : P A) (f : A → P B) p x q y r :
  gives m p x q → gives (f x) q y r → gives (m ≫= f) p y r.
Proof.
  unfold gives. intros Hm Hf. unfold mbind, SE_bind. rewrite bind_run. unfold result, world. by rewrite Hm.
Qed.

Lemma gives_get {B} (f : Parser → P B) p y r : gives (f p) p y r → gives (get ≫= f) p y r.
Proof. intros H. by apply gives_bind with p p. Qed.

Lemma gives_modify {B} g (f : unit → P B) p y r : gives (f tt) (g p) y r → gives (modify g ≫= f) p y r.
Proof. intros H. by apply gives_bind with tt (g p). Qed.

Lemma gives_alloc p : gives alloc p true p.
Proof. unfold gives, alloc, lift. rewrite bind_run. unfold result, world. by rewrite (malloc_ok w Hw). Qed.

Lemma gives_track p : ∃ a, gives (track true) p true (set_p_allocs a p).
Proof.
  unfold gives, track, allocs_add. cbn [negb]. destruct (al_n (p_allocs p) =? al_cap (p_allocs p))%nat.
  - eexists. mrun_ok Hw. reflexivity.
  - by eexists.
Qed.

(** What the scanners promise: a result and a move over [s]; only the cursor and the
    record of blocks change. *)
Definition reads {A} (m : P A) (p : Parser) (s : bytes) (Q : A → Prop) : Prop :=
  ∃ x q, gives m p x q ∧ moved p s q ∧ Q x.

Lemma reads_ret {A} (x : A) p (Q : A → Prop) : Q x → reads (mret x) p [] Q.
Proof. intros H. exists x, p. split_and!; [done|apply moved_refl|done]. Qed.

Lemma reads_get {B} (f : Parser → P B) p s Q : reads (f p) p s Q → reads (get ≫= f) p s Q.
Proof. intros (x & q & H & Hm & HQ). exists x, q. split_and!; [by apply gives_get|done..]. Qed.

(** The continuation starts where the call ends. *)
Lemma reads_bind {A B} (m : P A) (f : A → P B) p s t u P Q :
  u = s ++ t → reads m p s P →
  (∀ x q, P x → moved p s q → reads (f x) q t Q) → reads (m ≫= f) p u Q.
Proof.
  intros Hu (x & q & Hm & Hmv & HP) Hf. destruct (Hf x q HP Hmv) as (y & r & Hy & Hr & HQ).
  exists y, r. split_and!; [by eapply gives_bind|by eapply moved_trans|done].
Qed.

(** Calls that take nothing of the source. *)
Lemma reads_call {A B} (m : P A) (f : A → P B) p t P Q :
  reads m p [] P → (∀ x q, P x → moved p [] q → reads (f x) q t Q) → reads (m ≫= f) p t Q.
Proof. by apply reads_bind. Qed.

(** Calls whose continuation takes nothing. *)
Lemma reads_last {A B} (m : P A) (f : A → P B) p s P Q :
  reads m p s P → (∀ x q, P x → moved p s q → reads (f x) q [] Q) → reads (m ≫= f) p s Q.
Proof. apply reads_bind. by rewrite app_nil_r. Qed.

Lemma reads_ret_bind {A B} (x : A) (f : A → P B) p s Q : reads (f x) p s Q → reads (mret x ≫= f) p s Q.
Proof.
  intros (y & q & H & Hm & HQ). exists y, q. split_and!; [by apply gives_bind with x p|done..].
Qed.

Lemma reads_modify {B} g (f : unit → P B) p s t u Q :
  u = s ++ t → moved p s (g p) → (moved p s (g p) → reads (f tt) (g p) t Q) → reads (modify g ≫= f) p u Q.
Proof.
  intros Hu Hg Hf. destruct (Hf Hg) as (y & r & Hy & Hr & HQ).
  exists y, r. split_and!; [by apply gives_modify|by eapply moved_trans|done].
Qed.

Lemma reads_mono {A} (m : P A) p s (P Q : A → Prop) : reads m p s P → (∀ x, P x → Q x) → reads m p s Q.
Proof. intros (x & q & H & Hm & HP) HPQ. exists x, q. auto. Qed.

Lemma reads_track p : reads (track true) p [] (λ ok, ok = true).
Proof. destruct (gives_track p) as [a H]. exists true, (set_p_allocs a p). split_and!; [done|by apply moved_allocs, moved_refl|done]. Qed.

Lemma reads_alloc p : reads alloc p [] (λ ok, ok = true).
Proof. exists true, p. split_and!; [apply gives_alloc|apply moved_refl|done]. Qed.

Lemma reads_p_dup text p : reads (p_dup text) p [] (λ x, x = text).
Proof.
  unfold p_dup. eapply reads_bind; [|apply reads_alloc|]; [done|]. intros ? q -> _. cbn [negb].
  eapply reads_bind; [|apply reads_track|]; [done|]. intros ? q' -> _. by apply reads_ret.
Qed.

Lemma reads_new_node p : reads new_node p [] (λ _, True).
Proof.
  unfold new_node. eapply reads_bind; [|apply reads_alloc|]; [done|]. intros ? q -> _.
  eapply reads_bind; [|apply reads_track|]; [done|]. intros ? q' -> _. by apply reads_get, reads_ret.
Qed.

(** ** Loops *)

(** [n] rounds at most take the loop from one place to another. *)
Definition leads {X A} (body : X → P (X + A)) (n : nat) (x : X) (p : Parser) (x' : X) (q : Parser) : Prop :=
  ∀ m a r, (∀ f, (m ≤ f)%nat → gives (loop f body x') q a r) →
           ∀ f, (n + m ≤ f)%nat → gives (loop f body x) p a r.

Lemma leads_refl {X A} (body : X → P (X + A)) x p : leads body 0 x p x p.
Proof. intros m a r H f Hf. by apply H. Qed.

Lemma leads_trans {X A} (body : X → P (X + A)) n k l x p y q z r :
  l = (n + k)%nat → leads body n x p y q → leads body k y q z r → leads body l x p z r.
Proof. intros -> H1 H2 m a s H f Hf. apply (H1 (k + m)%nat a s); [by apply H2|lia]. Qed.

Lemma leads_round {X A} (body : X → P (X + A)) n x p x' q :
  (1 ≤ n)%nat → gives (body x) p (inl x') q → leads body n x p x' q.
Proof.
  intros Hn H m a r Hk f Hf. destruct f as [|f]; [lia|]. simpl. eapply gives_bind; [exact H|]. apply Hk. lia.
Qed.

Lemma leads_done {X A} (body : X → P (X + A)) x p a q :
  gives (body x) p (inr a) q → ∀ f, (1 ≤ f)%nat → gives (loop f body x) p a q.
Proof. intros H f Hf. destruct f as [|f]; [lia|]. simpl. eapply gives_bind; [exact H|apply gives_ret]. Qed.

Lemma leads_weaken {X A} (body : X → P (X + A)) n k x p y q :
  (n ≤ k)%nat → leads body n x p y q → leads body k x p y q.
Proof. intros Hnk H m a r Hk f Hf. apply (H m a r); [done|lia]. Qed.

(** Rounds that take one character and change nothing else. *)
Lemma leads_chars {X A} (body : X → P (X + A)) x (f : Z → bool) s :
  (∀ p c r, f c = true → left p = c :: r → gives (body x) p (inl x) (advance p)) →
  ∀ p r, Forall (λ c, f c = true) s → left p = s ++ r →
  ∃ q, leads body (length s) x p x q ∧ moved p s q.
Proof.
  intros Hround. induction s as [|c s IH]; intros p r Hs Hp; [exists p; split; [apply leads_refl|apply moved_refl]|].
  inversion Hs as [|? ? Hc Hs']; subst. pose proof (advance_moved p _ _ Hp) as Ha.
  destruct (IH (advance p) r Hs') as (q & Hl & Hm); [by apply (left_app _ [c] _ _ Ha)|].
  exists q. split; [|by eapply moved_trans; [|exact Ha|exact Hm]].
  eapply (leads_trans _ 1); [|apply leads_round; [done|by eapply Hround]|exact Hl]; done.
Qed.

(** A cursor loop that moves over [s] and leaves there. *)
Lemma gives_cursor_loop {X A} (body : X → P (X + A)) x p n x' q a r :
  leads body n x p x' q → (n ≤ length (left p))%nat → gives (body x') q (inr a) r →
  gives (cursor_loop body x) p a r.
Proof.
  intros Hl Hn Hd. unfold cursor_loop, gives. rewrite remaining_left.
  apply (Hl 1%nat a r); [|lia]. intros f Hf. by apply leads_done.
Qed.

(** ** C text *)

(** What stands between the quotes of a literal. *)
Inductive c_string (quote : Z) : bytes → Prop :=
  | cs_nil : c_string quote []
  | cs_char c s : c ≠ quote → c ≠ BACKSLASH → c ≠ NUL → c_string quote s → c_string quote (c :: s)
  | cs_escape c s : quote ≠ BACKSLASH → c ≠ NUL → c_string quote s → c_string quote (BACKSLASH :: c :: s).

Definition plain_c (c : Z) : bool := negb (has_chr c [NUL; DQUOTE; "'"%ch; "/"%ch; "("%ch; ")"%ch; "{"%ch; "}"%ch]).

(** C text with balanced parentheses; braces and slashes stand in literals only. *)
Inductive c_text : bytes → Prop :=
  | ct_nil : c_text []
  | ct_char c e : plain_c c = true → c_text e → c_text (c :: e)
  | ct_quote quote s e : quote = DQUOTE ∨ quote = "'"%ch → c_string quote s → c_text e →
      c_text (quote :: s ++ quote :: e)
  | ct_paren b e : c_text b → c_text e → c_text ("("%ch :: b ++ ")"%ch :: e).

Lemma c_text_app e f : c_text e → c_text f → c_text (e ++ f).
Proof.
  induction 1 as [|c e Hc _ IH|quote s e Hq Hs _ IH|b e Hb _ _ IH]; intros Hf; simpl; [done|by constructor; auto| |].
  - rewrite <- app_assoc. apply (ct_quote quote s (e ++ f)); auto.
  - rewrite <- app_assoc. apply (ct_paren b (e ++ f)); auto.
Qed.

Lemma c_string_nul_free quote s : c_string quote s → nul_free s.
Proof. induction 1; repeat constructor; done. Qed.

Lemma plain_c_neq c x : plain_c c = true → has_chr x [NUL; DQUOTE; "'"%ch; "/"%ch; "("%ch; ")"%ch; "{"%ch; "}"%ch] = true → c ≠ x.
Proof. unfold plain_c. intros H1 H2 ->. by rewrite H2 in H1. Qed.

Lemma c_text_nul_free e : c_text e → nul_free e.
Proof.
  unfold nul_free. induction 1 as [|c e Hc _ IH|quote s e Hq Hs _ IH|b e Hb IHb _ IH]; [done|..].
  - constructor; [by apply plain_c_neq|done].
  - apply c_string_nul_free in Hs. assert (quote ≠ NUL) by (by destruct Hq as [->| ->]).
    constructor; [done|]. apply Forall_app. split; [done|by constructor].
  - constructor; [done|]. apply Forall_app. split; [done|by constructor].
Qed.

Lemma reads_skip_quoted quote s p r :
  c_string quote s → left p = s ++ quote :: r → reads (skip_quoted quote) p s (λ _, True).
Proof.
  intros Hs Hp. unfold skip_quoted. set (body := λ _ : unit, _ : P (unit + unit)).
  assert (∃ q, leads body (length s) tt p tt q ∧ moved p s q) as (q & Hl & Hm).
  { revert p Hp. induction Hs as [|c s Hq Hb Hn Hs IH|c s Hq Hn Hs IH]; intros p Hp.
    - exists p. split; [apply leads_refl|apply moved_refl].
    - pose proof (advance_moved p c (s ++ quote :: r) Hp) as Ha.
      destruct (IH (advance p)) as (q & Hl & Hm); [by apply (left_app _ [c] _ _ Ha)|].
      exists q. split; [|by eapply moved_trans; [|exact Ha|exact Hm]].
      eapply (leads_trans _ 1); [|apply leads_round|exact Hl]; [done|done|].
      unfold body. apply gives_get. rewrite (at_end_cons _ _ _ Hp), peek_left, Hp. cbn [deref app orb].
      rewrite (proj2 (Z.eqb_neq c quote)) by done. apply gives_modify. rewrite peek_left, Hp. cbn [deref app orb].
      by rewrite (proj2 (Z.eqb_neq c BACKSLASH)).
    - pose proof (advance_moved p BACKSLASH (c :: s ++ quote :: r) Hp) as Ha.
      pose proof (advance_moved (advance p) c (s ++ quote :: r) ltac:(by apply (left_app _ [BACKSLASH] _ _ Ha))) as Hb.
      assert (moved p [BACKSLASH; c] (advance (advance p))) as Hab by (by eapply moved_trans; [|exact Ha|exact Hb]).
      destruct (IH (advance (advance p))) as (q & Hl & Hm); [by apply (left_app _ _ _ _ Hab)|].
      exists q. split; [|by eapply moved_trans; [|exact Hab|exact Hm]].
      eapply (leads_trans _ 2); [|apply leads_round|exact Hl]; [done|lia|].
      unfold body. apply gives_get. rewrite (at_end_cons _ _ _ Hp), peek_left, Hp. cbn [deref app orb].
      rewrite (proj2 (Z.eqb_neq BACKSLASH quote)) by done. apply gives_modify. rewrite peek_left, Hp. done. }
  exists tt, q. split_and!; [|done|done].
  pose proof (left_app _ _ _ _ Hm Hp) as Hq. eapply gives_cursor_loop; [exact Hl| |].
  - rewrite Hp, length_app. lia.
  - unfold body. apply gives_get. rewrite peek_left, Hq. cbn [deref app]. by rewrite Z.eqb_refl, orb_true_r.
Qed.

(** The start of a round of [scan_c] with the character at the cursor known. *)
Ltac scan_at Hp :=
  unfold scan_round; apply gives_get; rewrite (at_end_cons _ _ _ Hp), peek_left, Hp; cbn [deref app].

Lemma round_char mode depth p c r :
  plain_c c = true → left p = c :: r → gives (scan_round mode depth) p (inl depth) (advance p).
Proof.
  intros Hc Hp. scan_at Hp.
  assert (∀ x, has_chr x [NUL; DQUOTE; "'"%ch; "/"%ch; "("%ch; ")"%ch; "{"%ch; "}"%ch] = true → (c =? x) = false) as Hne.
  { intros x Hx. apply Z.eqb_neq. by apply plain_c_neq. }
  rewrite !Hne by done. cbn [orb andb]. by apply gives_modify.
Qed.

Lemma round_quote mode depth p quote s r :
  quote = DQUOTE ∨ quote = "'"%ch → c_string quote s → left p = quote :: s ++ quote :: r →
  ∃ q, gives (scan_round mode depth) p (inl depth) q ∧ moved p (quote :: s ++ [quote]) q.
Proof.
  intros Hq Hs Hp. pose proof (advance_moved p _ _ Hp) as Ha.
  assert (left (advance p) = s ++ quote :: r) as Hl by by apply (left_app _ [quote] _ _ Ha).
  destruct (reads_skip_quoted quote s (advance p) r Hs Hl) as ([] & q & Hrun & Hm & _).
  pose proof (left_app _ _ _ _ Hm Hl) as Hlq. exists (advance q). split.
  - scan_at Hp. rewrite (proj2 (Z.eqb_neq quote "/"%ch)) by (by destruct Hq as [->| ->]). cbn [andb].
    assert ((quote =? DQUOTE) || (quote =? "'"%ch) = true) as -> by (by destruct Hq as [->| ->]).
    apply gives_modify. eapply gives_bind; [exact Hrun|]. apply gives_get. rewrite (at_end_cons _ _ _ Hlq).
    by apply gives_modify.
  - pose proof (advance_moved q _ _ Hlq) as Hb.
    eapply moved_trans; [|exact Ha|]; [done|]. by eapply moved_trans; [|exact Hm|exact Hb].
Qed.

Lemma round_open mode depth p r :
  left p = "("%ch :: r → gives (scan_round mode depth) p (inl (depth + 1)) (advance p).
Proof. intros Hp. scan_at Hp. simpl. rewrite andb_false_r. by apply gives_modify. Qed.

(** Inside: a closing bracket does not end the text. *)
Definition inside (mode : ScanMode) (depth : Z) : Prop := 1 <= depth ∨ (mode = SCAN_TO_BRACE ∧ 0 <= depth).

Lemma round_close mode depth p r :
  inside mode depth → left p = ")"%ch :: r → gives (scan_round mode (depth + 1)) p (inl depth) (advance p).
Proof.
  intros Hd Hp. scan_at Hp. simpl. replace (depth + 1 - 1) with depth by lia.
  assert ((depth =? 0) && negb (bool_decide (mode = SCAN_TO_BRACE)) = false) as ->.
  { destruct Hd as [Hd|[-> _]]; [|by rewrite andb_false_r]. by rewrite (proj2 (Z.eqb_neq _ _)) by lia. }
  rewrite (proj2 (Z.ltb_ge _ _)) by (destruct Hd; lia). by apply gives_modify.
Qed.

(** The scanner goes through balanced text and is as deep behind it as before. *)
Lemma leads_text mode e : c_text e → ∀ depth p r, inside mode depth → left p = e ++ r →
  ∃ q, leads (scan_round mode) (length e) depth p depth q ∧ moved p e q.
Proof.
  induction 1 as [|c e Hc _ IH|quote s e Hq Hs _ IH|b e _ IHb _ IH]; intros depth p r Hd Hp.
  - exists p. split; [apply leads_refl|apply moved_refl].
  - pose proof (advance_moved p _ _ Hp) as Ha.
    destruct (IH depth (advance p) r Hd) as (q & Hl & Hm); [by apply (left_app _ [c] _ _ Ha)|].
    exists q. split; [|by eapply moved_trans; [|exact Ha|exact Hm]].
    eapply (leads_trans _ 1); [|apply leads_round; [done|by eapply round_char]|exact Hl]; done.
  - rewrite <- app_comm_cons, <- app_assoc, <- app_comm_cons in Hp.
    destruct (round_quote mode depth p quote s (e ++ r) Hq Hs Hp) as (q1 & H1 & Hm1).
    destruct (IH depth q1 r Hd) as (q & Hl & Hm).
    { apply (left_app _ _ _ _ Hm1). rewrite Hp. simpl. by rewrite <- app_assoc. }
    exists q. split.
    + eapply (leads_trans _ (length (quote :: s ++ [quote]))); [|apply leads_round; [simpl; lia|exact H1]|exact Hl].
      simpl. rewrite !length_app. simpl. lia.
    + eapply moved_trans; [|exact Hm1|exact Hm]. simpl. by rewrite <- app_assoc.
  - rewrite <- app_comm_cons, <- app_assoc, <- app_comm_cons in Hp.
    pose proof (advance_moved p _ _ Hp) as Ha.
    destruct (IHb (depth + 1) (advance p) (")"%ch :: e ++ r)) as (q1 & Hl1 & Hm1).
    { destruct Hd as [?|[? ?]]; left; lia. }
    { by apply (left_app _ ["("%ch] _ _ Ha). }
    assert (left q1 = ")"%ch :: e ++ r) as Hp1.
    { apply (left_app _ _ _ _ Hm1). by apply (left_app _ ["("%ch] _ _ Ha). }
    pose proof (advance_moved q1 _ _ Hp1) as Ha1.
    destruct (IH depth (advance q1) r Hd) as (q & Hl & Hm); [by apply (left_app _ [")"%ch] _ _ Ha1)|].
    exists q. split.
    + eapply (leads_trans _ 1); [|apply leads_round; [done|by eapply round_open]|]; [simpl; reflexivity|].
      eapply (leads_trans _ (length b)); [|exact Hl1|].
      2: eapply (leads_trans _ 1); [|apply leads_round; [done|by eapply round_close]|exact Hl]; [reflexivity].
      rewrite length_app. simpl. lia.
    + eapply moved_trans; [|exact Ha|]; [done|]. eapply moved_trans; [|exact Hm1|]; [done|].
      by eapply moved_trans; [|exact Ha1|exact Hm].
Qed.

Lemma slice_other p s q q' : moved p s q → p_src q' = p_src p → slice q' (p_pos p) (p_pos q) = s.
Proof.
  intros H E. rewrite <- (slice_moved p s q H). unfold slice. by rewrite E, (mv_src _ _ _ H).
Qed.

Lemma trim_space_nul_free s : nul_free s → nul_free (trim_space s).
Proof.
  intros H. unfold trim_space. destruct (skip_while_suffix isspace s) as [a Ha]. unfold nul_free in *.
  rewrite Ha in H. apply Forall_app in H as [_ H].
  destruct (rtrim_prefix isspace (skip_while isspace s)) as (t & Ht & _). rewrite Ht in H. by apply Forall_app in H as [H _].
Qed.

Lemma reads_dup_trim p e q start end_ :
  moved p e q → nul_free e → ∀ p', p_src p' = p_src p → start = p_pos p → end_ = p_pos q →
  reads (p_dup_trim start end_) p' [] (λ x, x = trim_space e).
Proof.
  intros Hm He p' Hsrc -> ->. unfold p_dup_trim. apply reads_get. rewrite (slice_other _ _ _ _ Hm Hsrc).
  eapply reads_bind; [|apply reads_p_dup|]; [done|]. intros x q' -> _. apply reads_ret.
  by apply cstr_id, trim_space_nul_free.
Qed.

Definition closer (mode : ScanMode) : Z := if bool_decide (mode = SCAN_MATCH_PAREN) then ")"%ch else "}"%ch.

(** An expression up to the bracket that closes it. *)
Lemma reads_scan_match mode e p r :
  mode ≠ SCAN_TO_BRACE → c_text e → left p = e ++ closer mode :: r →
  reads (scan_expr mode) p (e ++ [closer mode]) (λ x, x = trim_space e).
Proof.
  intros Hmode He Hp. destruct (leads_text mode e He 1 p (closer mode :: r)) as (q & Hl & Hm); [by left|done|].
  pose proof (left_app _ _ _ _ Hm Hp) as Hq. pose proof (advance_moved q _ _ Hq) as Ha.
  assert (moved p (e ++ [closer mode]) (advance q)) as Hall by by eapply moved_trans.
  assert (gives (scan_c mode) p (p_pos p, p_pos q) (advance q)) as Hscan.
  { unfold scan_c. apply gives_get. rewrite bool_decide_eq_false_2 by done.
    eapply gives_bind; [|apply gives_ret]. eapply gives_cursor_loop; [exact Hl| |].
    - rewrite Hp, length_app. lia.
    - scan_at Hq. unfold closer. rewrite (bool_decide_eq_false_2 (mode = SCAN_TO_BRACE)) by done.
      destruct mode; [done|..]; by apply gives_modify. }
  destruct (reads_dup_trim p e q (p_pos p) (p_pos q) Hm (c_text_nul_free e He) (advance q))
    as (x & q' & Hd & Hmd & ->); [by apply (mv_src _ _ _ Hall)|done|done|].
  exists (trim_space e), q'. split_and!; [by eapply gives_bind|by eapply moved_trans; [|exact Hall|]; [rewrite app_nil_r|]|done].
Qed.

(** An expression up to the brace that opens a block. *)
Lemma reads_scan_to_brace e p r :
  c_text e → left p = e ++ "{"%ch :: r → reads (scan_expr SCAN_TO_BRACE) p e (λ x, x = trim_space e).
Proof.
  intros He Hp. destruct (leads_text SCAN_TO_BRACE e He 0 p ("{"%ch :: r)) as (q & Hl & Hm); [by right|done|].
  pose proof (left_app _ _ _ _ Hm Hp) as Hq.
  assert (gives (scan_c SCAN_TO_BRACE) p (p_pos p, p_pos q) q) as Hscan.
  { unfold scan_c. apply gives_get. eapply gives_bind; [|apply gives_ret]. eapply gives_cursor_loop; [exact Hl| |].
    - rewrite Hp, length_app. lia.
    - scan_at Hq. done. }
  destruct (reads_dup_trim p e q (p_pos p) (p_pos q) Hm (c_text_nul_free e He) q)
    as (x & q' & Hd & Hmd & ->); [by apply (mv_src _ _ _ Hm)|done|done|].
  exists (trim_space e), q'. split_and!; [by eapply gives_bind|by eapply moved_trans; [|exact Hm|]; [rewrite app_nil_r|]|done].
Qed.

(** ** Text and words *)

Lemma reads_append_text text line p :
  text ≠ [] → reads (append_text text line) p [] (λ ns, ns = [NText line text]).
Proof.
  intros Ht. unfold append_text. rewrite bool_decide_eq_false_2 by done.
  eapply reads_bind; [|apply reads_new_node|]; [done|]. intros ? q _ _.
  eapply reads_bind; [|apply reads_p_dup|]; [done|]. intros ? q' -> _. by apply reads_ret.
Qed.

(** The text between two places; no node for an empty one. *)
Definition text_nodes (line : nat) (s : bytes) : list Node := if bool_decide (s = []) then [] else [NText line s].

Lemma reads_append_slice p s q q' start end_ line :
  moved p s q → p_src q' = p_src p → start = p_pos p → end_ = p_pos q →
  reads (append_slice start end_ line) q' [] (λ ns, ns = text_nodes line s).
Proof.
  intros Hm Hsrc -> ->. unfold append_slice. rewrite (proj2 (Nat.ltb_ge _ _)) by (rewrite (mv_pos _ _ _ Hm); lia).
  apply reads_get. rewrite (slice_other _ _ _ _ Hm Hsrc). unfold text_nodes. case_bool_decide as E.
  - subst. unfold append_text. rewrite bool_decide_eq_true_2 by done. by apply reads_ret.
  - by apply reads_append_text.
Qed.

(** [r] does not go on with a character in [f]. *)
Definition ends_word (f : Z → bool) (r : bytes) : Prop := ∀ c r', r = c :: r' → f c = false.

Definition is_ident (s : bytes) : bool :=
  match s with c :: _ => is_ident_start c && forallb is_ident_char s | [] => false end.

Lemma forallb_chars {A} (f : A → bool) s : forallb f s = true → Forall (λ c, f c = true) s.
Proof. intros H. apply Forall_forall. rewrite forallb_forall in H. intros x Hx. apply H. by apply list_elem_of_In. Qed.

Lemma reads_read_ident s p r :
  is_ident s = true → ends_word is_ident_char r → left p = s ++ r → reads read_ident p s (λ x, x = s).
Proof.
  intros Hs Hr Hp. destruct s as [|c s]; [done|]. simpl in Hs. apply andb_true_iff in Hs as [Hc Hs].
  unfold read_ident. apply reads_get. rewrite peek_left, Hp. cbn [deref app]. rewrite Hc. cbn [negb].
  set (g := advance_while (λ p, is_ident_char (peek p))).
  assert (moved p (c :: s) (g p)) as Hm.
  { by apply (advance_chars_moved is_ident_char _ _ _ r); [|done|by apply (forallb_chars _ (c :: s))|]. }
  eapply (reads_modify _ _ _ _ []); [by rewrite app_nil_r|exact Hm|]. intros _. apply reads_get.
  unfold p_dup_raw. rewrite (proj2 (Nat.ltb_ge _ _)) by (rewrite (mv_pos _ _ _ Hm); lia).
  apply reads_get. rewrite (slice_moved _ _ _ Hm). apply reads_p_dup.
Qed.

Lemma reads_tag_name s p r :
  forallb is_tag_char s = true → ends_word is_tag_char r → left p = s ++ r → reads read_tag_name p s (λ x, x = s).
Proof.
  intros Hs Hr Hp. unfold read_tag_name. apply reads_get.
  set (g := advance_while (λ p, is_tag_char (peek p))).
  assert (moved p s (g p)) as Hm.
  { apply (advance_chars_moved is_tag_char _ _ _ r); [done|done|by apply forallb_chars|exact Hr]. }
  eapply (reads_modify _ _ _ _ []); [by rewrite app_nil_r|exact Hm|]. intros _. apply reads_get.
  apply reads_ret. by apply (slice_other p s (g p) p).
Qed.

Lemma keyword_at_left p kw : keyword_at (p_src p) (p_pos p) kw = keyword_at (left p) 0 kw.
Proof. unfold keyword_at, left. rewrite drop_0. simpl. by rewrite nth_skipn. Qed.

Lemma keyword_here kw r : ends_word is_ident_char r → keyword_at (kw ++ r) 0 kw = true.
Proof.
  intros Hr. unfold keyword_at. rewrite drop_0, starts_with_app. simpl.
  rewrite app_nth2, Nat.sub_diag by lia. destruct r as [|c r]; [done|]. simpl. by rewrite (Hr c r).
Qed.

Lemma reads_keyword kw p r :
  ends_word is_ident_char r → left p = kw ++ r → reads (eat_keyword kw) p kw (λ b, b = true).
Proof.
  intros Hr Hp. unfold eat_keyword. apply reads_get. rewrite keyword_at_left, Hp, keyword_here by done. cbn [negb].
  eapply (reads_modify _ _ _ _ []); [by rewrite app_nil_r|by eapply advance_n_moved|]. intros _. by apply reads_ret.
Qed.

Lemma reads_no_keyword kw p :
  keyword_at (left p) 0 kw = false → reads (eat_keyword kw) p [] (λ b, b = false).
Proof.
  intros H. unfold eat_keyword. apply reads_get. rewrite keyword_at_left, H. by apply reads_ret.
Qed.
End Runs.
