(* ===== verification/CtmplMain.v ===== *)
(** * The template compiler: the command line

    [src/tools/ctmpl_main.c]: the arguments, the names of the outputs, and the files that
    a run of [ctmpl] reads, writes and removes. *)

From stdpp Require Import gmap.
From S2P Require Import Prelude CLib World StateErr Response Tpl Ctmpl CtmplParse CtmplGen CtmplProg CtmplSem CtmplOut.
#[local] Open Scope Z_scope.

(** ** What a run sees

    A path is its spelling: two spellings are two files.  [t_calls] are the outcomes of the
    next [fopen], [fseek], [ftell] and [fread], [t_room] how many bytes the disk takes of
    the next streams that are closed, [t_removes] the outcomes of [remove]; with none left
    everything succeeds.  [t_errno] is the text of [strerror] at a failure. *)
Record Tool := {
  t_disk : gmap bytes bytes;
  t_calls : list bool;
  t_room : list nat;
  t_removes : list bool;
  t_errno : bytes;
  t_stdout : bytes;
  t_stderr : bytes;
  t_undefined : bool;   (** ghost: the compiler released a block twice or read beyond a literal *)
}.

Definition set_t_disk (x : gmap bytes bytes) (t : Tool) : Tool :=
  {| t_disk := x; t_calls := t_calls t; t_room := t_room t; t_removes := t_removes t; t_errno := t_errno t;
     t_stdout := t_stdout t; t_stderr := t_stderr t; t_undefined := t_undefined t |}.
Definition set_t_calls (x : list bool) (t : Tool) : Tool :=
  {| t_disk := t_disk t; t_calls := x; t_room := t_room t; t_removes := t_removes t; t_errno := t_errno t;
     t_stdout := t_stdout t; t_stderr := t_stderr t; t_undefined := t_undefined t |}.
Definition set_t_room (x : list nat) (t : Tool) : Tool :=
  {| t_disk := t_disk t; t_calls := t_calls t; t_room := x; t_removes := t_removes t; t_errno := t_errno t;
     t_stdout := t_stdout t; t_stderr := t_stderr t; t_undefined := t_undefined t |}.
Definition set_t_removes (x : list bool) (t : Tool) : Tool :=
  {| t_disk := t_disk t; t_calls := t_calls t; t_room := t_room t; t_removes := x; t_errno := t_errno t;
     t_stdout := t_stdout t; t_stderr := t_stderr t; t_undefined := t_undefined t |}.
Definition say (out err : bytes) (t : Tool) : Tool :=
  {| t_disk := t_disk t; t_calls := t_calls t; t_room := t_room t; t_removes := t_removes t; t_errno := t_errno t;
     t_stdout := t_stdout t ++ out; t_stderr := t_stderr t ++ err; t_undefined := t_undefined t |}.
Definition note_undefined (b : bool) (t : Tool) : Tool :=
  {| t_disk := t_disk t; t_calls := t_calls t; t_room := t_room t; t_removes := t_removes t; t_errno := t_errno t;
     t_stdout := t_stdout t; t_stderr := t_stderr t; t_undefined := t_undefined t || b |}.

(** A step of the run; a failure is an exit of [main] with a code. *)
Definition T (A : Type) : Type := SE Tool Z A.

Definition exit {A} (code : Z) : T A := fails (Failed code).

(** Whether the next call succeeds. *)
Definition call : T bool :=
  t ← get;
  match t_calls t with
  | [] => mret true
  | b :: r => _ ← modify (set_t_calls r); mret b
  end.

(** [fopen(path, "rb")]; what the stream holds. *)
Definition fopen_rb (path : bytes) : T (option bytes) :=
  ok ← call;
  t ← get;
  mret (if (ok : bool) then t_disk t !! path else None).

(** [fopen(path, "wb")] creates the file or empties it. *)
Definition fopen_wb (path : bytes) : T bool :=
  ok ← call;
  if (ok : bool) then _ ← modify (λ t, set_t_disk (<[path := []]> (t_disk t)) t); mret true
  else mret false.

(** [fclose] of a stream to which [text] was printed. *)
Definition fclose (path text : bytes) : T unit :=
  t ← get;
  match t_room t with
  | [] => modify (λ t, set_t_disk (<[path := text]> (t_disk t)) t)
  | n :: r => modify (λ t, set_t_room r (set_t_disk (<[path := take n text]> (t_disk t)) t))
  end.

Definition remove (path : bytes) : T unit :=
  t ← get;
  match t_removes t with
  | [] => modify (λ t, set_t_disk (base.delete path (t_disk t)) t)
  | b :: r => modify (λ t, set_t_removes r (if (b : bool) then set_t_disk (base.delete path (t_disk t)) t else t))
  end.

Definition print_out (s : bytes) : T unit := modify (say s []).
Definition print_err (s : bytes) : T unit := modify (say [] s).

(** ** Names *)

Definition path_base (path : bytes) : bytes := after_last "/"%ch path.

Definition stem_text (path : bytes) : bytes :=
  let base := path_base path in
  let n := (length base - 6)%nat in
  if (6 <? length base)%nat && streq (drop n base) THTML then take n base else base.

Definition stem_of (path : bytes) : T (option bytes) :=
  ok ← lift malloc;
  mret (if (ok : bool) then Some (stem_text path) else None).

(** Trailing slashes go, the first character stays. *)
Definition strip_slashes (dir : bytes) : bytes :=
  match dir with [] => [] | c :: r => c :: rtrim (λ x, x =? "/"%ch) r end.

Definition joined (dir file : bytes) : bytes := strip_slashes dir ++ "/"%ch :: file.

Definition join_path (dir file : bytes) : T (option bytes) :=
  ok ← lift malloc;
  mret (if (ok : bool) then Some (joined dir file) else None).

Definition read_file (path : bytes) : T (option bytes) :=
  f ← fopen_rb path;
  match f with
  | None => mret None
  | Some data =>
      ok ← call;
      if negb ok then mret None
      else
        ok ← call;
        ok ← (if (ok : bool) then call else mret false);
        if negb ok then mret None
        else
          ok ← lift malloc;
          if negb ok then mret None
          else
            ok ← call;
            mret (if (ok : bool) then Some data else None)
  end.

Definition usage_text : bytes :=
  lines [str "usage: ctmpl <input.thtml> [-o <outdir>]"; [];
         str "  Compiles a .thtml template file into C:";
         str "    <stem>_templ.h  declarations";
         str "    <stem>_templ.c  definitions (next to the input,";
         str "                    or in <outdir> when -o is given)"].

Definition usage {A} (print : bytes → T unit) : T A := _ ← print usage_text; exit 2.

(** ** [main] *)

(** The loop over the arguments. *)
Fixpoint arguments (input outdir : option bytes) (args : list bytes) : T (option bytes * option bytes) :=
  match args with
  | [] => mret (input, outdir)
  | a :: args =>
      if streq a (str "-o") then
        match args with
        | [] => usage print_err
        | d :: args => arguments input (Some d) args
        end
      else if streq a (str "-h") || streq a (str "--help") then usage print_out
      else if deref a =? "-"%ch then
        _ ← print_err (str "ctmpl: unknown option '" ++ a ++ str "'" ++ [LF]);
        usage print_err
      else
        match input with
        | None => arguments (Some a) outdir args
        | Some _ =>
            _ ← print_err (str "ctmpl: unexpected argument '" ++ a ++ str "'" ++ [LF]);
            usage print_err
        end
  end.

Definition no_memory {A} : T A := _ ← print_err (str "ctmpl: out of memory" ++ [LF]); exit 2.

(** Both blocks are asked for before either is looked at. *)
Definition two_names (h c : bytes) : T (bytes * bytes) :=
  ok_h ← lift malloc;
  ok_c ← lift malloc;
  if negb (ok_h && ok_c) then no_memory else mret (h, c).

Definition output_paths (input : bytes) (outdir : option bytes) (stem : bytes) : T (bytes * bytes) :=
  names ← two_names (stem ++ str "_templ.h") (stem ++ str "_templ.c");
  paths ←
    match outdir with
    | Some dir =>
        h ← join_path dir names.1;
        c ← join_path dir names.2;
        mret (h, c)
    | None =>
        let dir_len := (length input - length (path_base input))%nat in
        if (dir_len =? 0)%nat then mret (Some names.1, Some names.2)
        else
          ok ← lift malloc;
          if negb ok then no_memory
          else
            let dir := take (dir_len - 1) input in
            h ← join_path dir names.1;
            c ← join_path dir names.2;
            mret (h, c)
    end;
  match paths with
  | (Some h, Some c) => mret (h, c)
  | _ => no_memory
  end.

Definition open_outputs (h_path c_path : bytes) : T unit :=
  ok_h ← fopen_wb h_path;
  ok_c ← fopen_wb c_path;
  if ok_h && ok_c then mret tt
  else
    t ← get;
    _ ← print_err (str "ctmpl: cannot write '" ++ (if negb ok_h then h_path else c_path) ++ str "': " ++
                   t_errno t ++ [LF]);
    _ ← (if (ok_h : bool) then _ ← fclose h_path []; remove h_path else mret tt);
    _ ← (if (ok_c : bool) then _ ← fclose c_path []; remove c_path else mret tt);
    exit 2.

(** [%s:%zu:%zu: error: %s] *)
Definition error_text (input : bytes) (err : CtmplError) : bytes :=
  input ++
  (if (0 <? err_line err)%nat then
     str ":" ++ fmt_u (Z.of_nat (err_line err)) ++ str ":" ++ fmt_u (Z.of_nat (err_col err))
   else []) ++
  str ": error: " ++ err_message err ++ [LF].

(** What [main] does with the answer of the compiler. *)
Definition close_outputs (input h_path c_path : bytes) (r : CtmplResult) : T Z :=
  match r_outcome r with
  | None => fails OutOfFuel
  | Some (Some err) =>
      _ ← print_err (error_text input err);
      _ ← fclose h_path (r_h r);
      _ ← fclose c_path (r_c r);
      _ ← remove h_path;
      _ ← remove c_path;
      mret 1
  | Some None =>
      _ ← fclose h_path (r_h r);
      _ ← fclose c_path (r_c r);
      _ ← print_out (input ++ str " -> " ++ h_path ++ str ", " ++ c_path ++ [LF]);
      mret 0
  end.

Definition main (args : list bytes) : T Z :=
  io ← arguments None None args;
  match io.1 with
  | None => usage print_err
  | Some input =>
      src ← read_file input;
      match src with
      | None =>
          t ← get;
          _ ← print_err (str "ctmpl: cannot read '" ++ input ++ str "': " ++ t_errno t ++ [LF]);
          exit 2
      | Some src =>
          stem ← stem_of input;
          match stem with
          | None => no_memory
          | Some stem =>
              paths ← output_paths input io.2 stem;
              _ ← open_outputs paths.1 paths.2;
              r ← lift (ctmpl_compile (Some src) (Some input) true);
              _ ← modify (note_undefined (r_double_free r || r_overread r));
              close_outputs input paths.1 paths.2 r
          end
      end
  end.

Definition exit_code (r : Failure Z + Z) : option Z :=
  match r with
  | inr code => Some code
  | inl (Failed code) => Some code
  | inl OutOfFuel => None
  end.

(** ** The command line *)

(** [-o] and a directory, any number of times, and one input: what the arguments say when
    they are accepted.  The last directory counts. *)
Inductive command_line : list bytes → option bytes → option bytes → Prop :=
  | cl_nil : command_line [] None None
  | cl_outdir d args i o :
      command_line args i o → command_line (str "-o" :: d :: args) i (Some (default d o))
  | cl_input a args o :
      deref a ≠ "-"%ch → command_line args None o → command_line (a :: args) (Some a) o.

Definition output_names (input : bytes) (outdir : option bytes) : bytes * bytes :=
  let h := stem_text input ++ str "_templ.h" in
  let c := stem_text input ++ str "_templ.c" in
  let dir_len := (length input - length (path_base input))%nat in
  match outdir with
  | Some dir => (joined dir h, joined dir c)
  | None =>
      if (dir_len =? 0)%nat then (h, c)
      else (joined (take (dir_len - 1) input) h, joined (take (dir_len - 1) input) c)
  end.

(** ** Steps that leave the disk alone *)

Definition kept (t t' : Tool) : Prop := t_disk t' = t_disk t ∧ t_removes t' = t_removes t.

#[export] Instance kept_preorder : PreOrder kept.
Proof. split; [by intros t|]. intros t1 t2 t3 [H1 H2] [H3 H4]. split; congruence. Qed.

(** Whatever is asked of the environment, [m] returns a value in [P] or [main] ends with 2,
    and no file has changed. *)
Definition yields {A} (m : T A) (P : A → Prop) : Prop :=
  ∀ t, wp m (λ x t', P x ∧ kept t t') (λ e t', e = Failed 2 ∧ kept t t') t.

Lemma yields_ret {A} (x : A) (P : A → Prop) : P x → yields (mret x) P.
Proof. intros H t. by apply wp_ret. Qed.

Lemma yields_bind {A B} (m : T A) (f : A → T B) P Q :
  yields m P → (∀ x, P x → yields (f x) Q) → yields (m ≫= f) Q.
Proof.
  intros Hm Hf t. apply wp_bind. eapply wp_mono; [apply Hm| |done]. intros x t1 [Hx H1].
  eapply wp_mono; [by apply Hf| |]; cbv beta; [intros y t2 [Hy H2]|intros e t2 [He H2]];
    (split; [done|]; by etrans).
Qed.

Lemma yields_get {B} (f : Tool → T B) Q : (∀ t, yields (f t) Q) → yields (get ≫= f) Q.
Proof. intros H t. apply wp_get_bind, H. Qed.

Lemma yields_modify (f : Tool → Tool) : (∀ t, kept t (f t)) → yields (modify f) (λ _, True).
Proof. intros H t. by apply wp_modify. Qed.

Lemma yields_lift {A} (m : M A) (P : A → Prop) : returns m P → yields (lift m) P.
Proof. intros H t. by eapply wp_lift_returns. Qed.

Lemma yields_exit {A} (P : A → Prop) : yields (exit 2) P.
Proof. intros t. by apply wp_fails. Qed.

Lemma yields_mono {A} (m : T A) (P Q : A → Prop) : yields m P → (∀ x, P x → Q x) → yields m Q.
Proof. intros H HPQ t. eapply wp_mono; [apply H| |done]. naive_solver. Qed.

Create HintDb yields discriminated.
#[export] Hint Resolve yields_exit yields_get : yields.

Lemma yields_malloc : yields (lift malloc) (λ _, True).
Proof. by apply yields_lift. Qed.

Lemma yields_call : yields call (λ _, True).
Proof.
  apply yields_get. intros t. destruct (t_calls t) as [|b r]; [by apply yields_ret|].
  eapply yields_bind; [by apply yields_modify|]. intros ? _. by apply yields_ret.
Qed.

Lemma yields_print_out s : yields (print_out s) (λ _, True).
Proof. by apply yields_modify. Qed.

Lemma yields_print_err s : yields (print_err s) (λ _, True).
Proof. by apply yields_modify. Qed.

#[export] Hint Resolve yields_malloc yields_call yields_print_out yields_print_err : yields.

(** Walks through such a step; what is left are the values it returns. *)
Ltac yields_step :=
  lazymatch goal with
  | |- yields (get ≫= _) _ => apply yields_get; intros ?
  | |- yields (_ ≫= _) _ => eapply yields_bind; [solve [eauto with yields]|intros ? _]
  | |- yields (match ?x with _ => _ end) _ => destruct x eqn:?
  | |- yields (mret _) _ => apply yields_ret
  | |- yields _ _ => solve [eauto with yields]
  end.

Lemma yields_no_memory {A} (P : A → Prop) : yields no_memory P.
Proof. unfold no_memory. repeat yields_step. Qed.

Lemma yields_usage {A} (print : bytes → T unit) (P : A → Prop) :
  (∀ s, yields (print s) (λ _, True)) → yields (usage print) P.
Proof. intros H. unfold usage. eapply yields_bind; [apply H|]. intros ? _. apply yields_exit. Qed.

#[export] Hint Resolve yields_no_memory yields_usage : yields.

Lemma yields_read_file path : yields (read_file path) (λ _, True).
Proof.
  unfold read_file, fopen_rb. eapply (yields_bind _ _ (λ _, True)); [by repeat yields_step|].
  intros f _. yields_step; [|by apply yields_ret]. do 2 yields_step; [by apply yields_ret|].
  yields_step. eapply (yields_bind _ _ (λ _, True)); [by repeat yields_step|]. intros ? _.
  by repeat yields_step.
Qed.

Lemma yields_stem_of path :
  yields (stem_of path) (λ s, match s with Some s => s = stem_text path | None => True end).
Proof. unfold stem_of. repeat yields_step. by destruct x. Qed.

Lemma yields_join_path dir file :
  yields (join_path dir file) (λ s, match s with Some s => s = joined dir file | None => True end).
Proof. unfold join_path. repeat yields_step. by destruct x. Qed.

Lemma yields_two_names h c : yields (two_names h c) (λ r, r = (h, c)).
Proof. unfold two_names. by repeat yields_step. Qed.

Lemma yields_output_paths input outdir :
  yields (output_paths input outdir (stem_text input)) (λ r, r = output_names input outdir).
Proof.
  unfold output_paths, output_names. eapply yields_bind; [apply yields_two_names|]. intros ? ->. cbn [fst snd].
  eapply (yields_bind _ _ (λ p, match p with
    | (Some h, Some c) => (h, c) = output_names input outdir
    | _ => True end)).
  - unfold output_names. destruct outdir as [dir|].
    + eapply yields_bind; [apply yields_join_path|]. intros h Hh.
      eapply yields_bind; [apply yields_join_path|]. intros c Hc. apply yields_ret.
      destruct h, c; [|done..]. by subst.
    + destruct (_ =? 0)%nat; [by apply yields_ret|]. do 2 yields_step; [apply yields_no_memory|].
      eapply yields_bind; [apply yields_join_path|]. intros h Hh.
      eapply yields_bind; [apply yields_join_path|]. intros c Hc. apply yields_ret.
      destruct h, c; [|done..]. by subst.
  - intros [[h|] [c|]] H; [|by repeat yields_step..]. by apply yields_ret.
Qed.

Lemma yields_arguments args : ∀ input outdir,
  yields (arguments input outdir args) (λ io, ∃ i o, command_line args i o ∧ (input = None ∨ i = None) ∧
    io = (match input with Some _ => input | None => i end, match o with Some _ => o | None => outdir end)).
Proof.
  induction args as [args IH] using (induction_ltof1 _ (@length bytes)). unfold ltof in IH. intros input outdir.
  destruct args as [|a args]; cbn [arguments].
  - apply yields_ret. exists None, None. split_and!; [constructor|by right|by destruct input].
  - destruct (streq a (str "-o")) eqn:Eo; [apply streq_true in Eo as ->|].
    + destruct args as [|d args]; [by apply yields_usage; auto with yields|].
      eapply yields_mono; [apply IH; simpl; lia|]. intros io (i & o & Hc & Hi & ->).
      exists i, (Some (default d o)). split_and!; [by constructor|done|]. by destruct o.
    + destruct (_ || _); [by apply yields_usage; auto with yields|].
      destruct (deref a =? "-"%ch) eqn:Ed; [by repeat yields_step|]. breflect.
      destruct input as [input|]; [by repeat yields_step|].
      eapply yields_mono; [apply IH; simpl; lia|]. intros io (i & o & Hc & Hi & ->).
      destruct Hi as [?|Hi]; [done|]. subst i. exists (Some a), o. split_and!; [by constructor|by left|done].
Qed.

(** ** Names of files *)

Lemma after_last_split c a b : c ∉ b → after_last c (a ++ c :: b) = b.
Proof.
  intros Hb. unfold after_last. change (a ++ c :: b) with (a ++ [c] ++ b). rewrite app_assoc.
  rewrite rtrim_app_trim, rtrim_id.
  - apply drop_app_length.
  - by rewrite Z.eqb_refl.
  - apply Forall_forall. intros x Hx. apply negb_true_iff, Z.eqb_neq. by intros ->.
Qed.

Lemma after_last_none c s : c ∉ s → after_last c s = s.
Proof.
  intros Hs. unfold after_last. rewrite <- (app_nil_l s) at 1. rewrite rtrim_app_trim; [done|].
  apply Forall_forall. intros x Hx. apply negb_true_iff, Z.eqb_neq. by intros ->.
Qed.

Lemma after_last_cases c s : (c ∉ s ∧ after_last c s = s) ∨ ∃ a, s = a ++ c :: after_last c s ∧ c ∉ after_last c s.
Proof.
  destruct (decide (c ∈ s)) as [H|H]; [right|left; by auto using after_last_none].
  induction s as [|x s IH]; [by apply elem_of_nil in H|].
  destruct (decide (c ∈ s)) as [Hs|Hs].
  - destruct (IH Hs) as (a & Ha & Hn). exists (x :: a).
    assert (after_last c (x :: s) = after_last c s) as ->; [|by split; [rewrite Ha at 1|]].
    rewrite Ha at 1. by apply (after_last_split c (x :: a)).
  - assert (x = c) as ->.
    { apply elem_of_cons in H as [H|H]; [done|by destruct Hs]. }
    exists []. assert (after_last c (c :: s) = s) as ->; [by apply (after_last_split c [])|done].
Qed.

Lemma path_base_no_slash path : "/"%ch ∉ path_base path.
Proof. unfold path_base. by destruct (after_last_cases "/"%ch path) as [[? ->]|(? & _ & ?)]. Qed.

Lemma path_base_id s : "/"%ch ∉ s → path_base s = s.
Proof. apply after_last_none. Qed.

Lemma path_base_joined dir file : "/"%ch ∉ file → path_base (joined dir file) = file.
Proof. apply after_last_split. Qed.

Lemma stem_text_base path : ∃ t, path_base path = stem_text path ++ t ∧ (t = [] ∨ t = THTML).
Proof.
  unfold stem_text. set (b := path_base path). destruct (_ && _) eqn:E.
  - apply andb_true_iff in E as [_ E]. apply streq_true in E. exists THTML. rewrite <- E, take_drop. auto.
  - exists []. rewrite app_nil_r. auto.
Qed.

Lemma stem_text_no_slash path : "/"%ch ∉ stem_text path.
Proof.
  destruct (stem_text_base path) as (t & H & _). intros Hin. apply (path_base_no_slash path).
  rewrite H. apply elem_of_app. by left.
Qed.

(** The last component of an output is the stem with its suffix. *)
Lemma output_names_base input outdir :
  path_base (output_names input outdir).1 = stem_text input ++ str "_templ.h" ∧
  path_base (output_names input outdir).2 = stem_text input ++ str "_templ.c".
Proof.
  assert ("/"%ch ∉ stem_text input ++ str "_templ.h" ∧ "/"%ch ∉ stem_text input ++ str "_templ.c") as [Hh Hc].
  { split; intros H; apply elem_of_app in H as [H|H]; try by apply stem_text_no_slash in H.
    all: by apply has_chr_true in H. }
  unfold output_names. destruct outdir as [dir|]; [|destruct (_ =? 0)%nat];
    cbn [fst snd]; (split; [by rewrite ?path_base_joined, ?path_base_id|by rewrite ?path_base_joined, ?path_base_id]).
Qed.

Lemma output_names_distinct input outdir :
  let r := output_names input outdir in r.1 ≠ r.2 ∧ r.1 ≠ input ∧ r.2 ≠ input.
Proof.
  cbv zeta. destruct (output_names_base input outdir) as [Hh Hc]. destruct (stem_text_base input) as (t & Ht & Hs).
  assert (∀ q x, path_base q = stem_text input ++ x → length x = 8%nat → q ≠ input) as Hne.
  { intros q x Hq Hx ->. rewrite Ht in Hq. apply app_inv_head in Hq. subst x. by destruct Hs as [->| ->]. }
  split_and!; [|by eapply Hne..]. intros E. rewrite E, Hc in Hh. by apply app_inv_head in Hh.
Qed.

(** The compiler and [main] take the stem apart in their own ways. *)
Lemma stem_text_agrees path : BACKSLASH ∉ path_base path → stem_of_path path = stem_text path.
Proof.
  intros H. unfold stem_of_path, stem_text, CtmplGen.path_base. fold (path_base path).
  by rewrite (after_last_none BACKSLASH).
Qed.

(** ** What a run changes *)

Lemma fopen_wb_wp path Q R t :
  (∀ ok t', t_removes t' = t_removes t → t_disk t' = (if (ok : bool) then <[path := []]> (t_disk t) else t_disk t) →
     Q ok t') →
  wp (fopen_wb path) Q R t.
Proof.
  intros H. unfold fopen_wb, call. do 3 wp_step.
  destruct (t_calls t) as [|b r]; repeat wp_step; [by apply H|].
  destruct b; repeat wp_step; by apply H.
Qed.

Lemma fclose_wp path text Q R t :
  (∀ s t', t_removes t' = t_removes t → t_disk t' = <[path := s]> (t_disk t) → Q tt t') →
  wp (fclose path text) Q R t.
Proof. intros H. unfold fclose. wp_step. destruct (t_room t); wp_step; by eapply H. Qed.

Lemma remove_wp path Q R t :
  t_removes t = [] →
  (∀ t', t_removes t' = [] → t_disk t' = base.delete path (t_disk t) → Q tt t') →
  wp (remove path) Q R t.
Proof. intros Hr H. unfold remove. wp_step. rewrite Hr. wp_step. by apply H. Qed.

(** What the files [h] and [c] hold at an exit, and that others are as they were. *)
Definition outputs_only (h c : bytes) (disk : gmap bytes bytes) (code : Z) (disk' : gmap bytes bytes) : Prop :=
  ∀ q, disk' !! q ≠ disk !! q → (q = h ∨ q = c) ∧ (code ≠ 0 → disk' !! q = None).

Lemma outputs_only_refl h c disk code : outputs_only h c disk code disk.
Proof. by intros q. Qed.

Lemma outputs_only_delete h c disk disk' code q :
  outputs_only h c disk code disk' → q = h ∨ q = c → outputs_only h c disk code (base.delete q disk').
Proof.
  intros H Hq q'. destruct (decide (q = q')) as [->|Hne]; [by rewrite lookup_delete_eq|].
  rewrite lookup_delete_ne by done. apply H.
Qed.

Lemma outputs_only_insert h c disk disk' q x :
  outputs_only h c disk 0 disk' → q = h ∨ q = c → outputs_only h c disk 0 (<[q := x]> disk').
Proof.
  intros H Hq q' Hd. destruct (decide (q = q')) as [->|Hne]; [done|].
  rewrite lookup_insert_ne in Hd by done. split; [by apply H|done].
Qed.

(** Removing both outputs turns a run that could be undone into one that leaves nothing. *)
Lemma outputs_only_undo h c disk disk' code :
  outputs_only h c disk 0 disk' → outputs_only h c disk code (base.delete c (base.delete h disk')).
Proof.
  intros H q Hd. destruct (decide (q = c)) as [->|Hc]; [rewrite lookup_delete_eq; auto|].
  rewrite lookup_delete_ne in Hd |- * by done. destruct (decide (q = h)) as [->|Hh]; [rewrite lookup_delete_eq; auto|].
  rewrite lookup_delete_ne in Hd by done. apply H in Hd as [[?|?] _]; done.
Qed.

#[export] Hint Resolve outputs_only_refl outputs_only_delete outputs_only_insert outputs_only_undo : core.

Lemma discard_wp path Q R t :
  t_removes t = [] →
  (∀ t', t_removes t' = [] → t_disk t' = base.delete path (t_disk t) → Q tt t') →
  wp (_ ← fclose path []; remove path) Q R t.
Proof.
  intros Hr H. apply wp_bind, fclose_wp. intros s t1 Hr1 Hd1. apply remove_wp; [congruence|].
  intros t2 Hr2 Hd2. apply H; [done|]. by rewrite Hd2, Hd1, delete_insert_eq.
Qed.

Lemma open_outputs_wp h c t :
  t_removes t = [] →
  wp (open_outputs h c)
    (λ _ t', t_removes t' = [] ∧ outputs_only h c (t_disk t) 0 (t_disk t'))
    (λ e t', e = Failed 2 ∧ outputs_only h c (t_disk t) 2 (t_disk t')) t.
Proof.
  intros Hr. unfold open_outputs.
  apply wp_bind, fopen_wb_wp. intros ok_h t1 Hr1 Hd1. apply wp_bind, fopen_wb_wp. intros ok_c t2 Hr2 Hd2.
  destruct ok_h, ok_c; cbn [andb negb].
  - apply wp_ret. split; [congruence|]. rewrite Hd2, Hd1. auto.
  - do 3 wp_step. apply wp_bind, discard_wp; [simpl; congruence|]. intros t3 Hr3 Hd3.
    do 3 wp_step. split; [done|]. rewrite Hd3. simpl. rewrite Hd2, Hd1, delete_insert_eq. auto.
  - do 5 wp_step. apply wp_bind, discard_wp; [simpl; congruence|]. intros t3 Hr3 Hd3.
    wp_step. split; [done|]. rewrite Hd3. simpl. rewrite Hd2, Hd1, delete_insert_eq. auto.
  - repeat wp_step. split; [done|]. simpl. rewrite Hd2, Hd1. auto.
Qed.

Lemma close_outputs_wp input h c r disk t :
  t_removes t = [] → outputs_only h c disk 0 (t_disk t) → r_outcome r ≠ None →
  wp (close_outputs input h c r)
    (λ code t', (code = 0 ∨ code = 1) ∧ outputs_only h c disk code (t_disk t')) (λ _ _, False) t.
Proof.
  intros Hr Hd Ho. unfold close_outputs. destruct (r_outcome r) as [[err|]|]; [| |done].
  - apply wp_bind, wp_modify, wp_bind, fclose_wp. intros s1 t1 Hr1 Hd1.
    apply wp_bind, fclose_wp. intros s2 t2 Hr2 Hd2. apply wp_bind, remove_wp; [simpl in *; congruence|].
    intros t3 Hr3 Hd3. apply wp_bind, remove_wp; [done|]. intros t4 Hr4 Hd4. apply wp_ret. split; [by right|].
    rewrite Hd4, Hd3, Hd2, Hd1. simpl. auto 6.
  - apply wp_bind, fclose_wp. intros s1 t1 Hr1 Hd1. apply wp_bind, fclose_wp. intros s2 t2 Hr2 Hd2.
    apply wp_bind, wp_modify, wp_ret. split; [by left|]. simpl. rewrite Hd2, Hd1. auto 6.
Qed.

(** How a run may end: with a code, and with every changed file one of the outputs the
    arguments name; a run that does not end with 0 has left none of them behind. *)
Definition ends_clean (args : list bytes) (disk : gmap bytes bytes) (code : Z) (disk' : gmap bytes bytes) : Prop :=
  (code = 0 ∨ code = 1 ∨ code = 2) ∧
  ∀ q, disk' !! q ≠ disk !! q →
    ∃ input outdir, command_line args (Some input) outdir ∧
      (q = (output_names input outdir).1 ∨ q = (output_names input outdir).2) ∧ q ≠ input ∧
      (code ≠ 0 → disk' !! q = None).

Lemma ends_clean_same args disk : ends_clean args disk 2 disk.
Proof. split; [auto|]. by intros q. Qed.

Lemma ends_clean_outputs args disk code disk' input outdir :
  (code = 0 ∨ code = 1 ∨ code = 2) → command_line args (Some input) outdir →
  let r := output_names input outdir in
  outputs_only r.1 r.2 disk code disk' → ends_clean args disk code disk'.
Proof.
  intros Hcode Hargs r H. split; [done|]. intros q Hq. destruct (H q Hq) as [Hr Hg].
  exists input, outdir. split_and!; [done|done| |done].
  destruct (output_names_distinct input outdir) as (_ & H1 & H2). by destruct Hr as [->| ->].
Qed.

Lemma wp_yields {A B} (m : T A) (f : A → T B) P Q R t t1 :
  kept t t1 → yields m P → (∀ t', kept t t' → R (Failed 2) t') →
  (∀ x t', P x → kept t t' → wp (f x) Q R t') → wp (m ≫= f) Q R t1.
Proof.
  intros H1 Hm HR Hf. apply wp_bind. eapply wp_mono; [apply Hm| |].
  - intros x t2 [Hx H2]. apply Hf; [done|]. by etrans.
  - intros e t2 [-> H2]. apply HR. by etrans.
Qed.

Lemma wp_stops {A} (m : T A) Q R t t1 :
  kept t t1 → yields m (λ _, False) → (∀ t', kept t t' → R (Failed 2) t') → wp m Q R t1.
Proof.
  intros H1 Hm HR. eapply wp_mono; [apply Hm|by intros ? ? []|]. intros e t2 [-> H2]. apply HR. by etrans.
Qed.

Lemma main_wp args t :
  t_removes t = [] →
  wp (main args) (λ code t', ends_clean args (t_disk t) code (t_disk t'))
     (λ e t', ∃ code, e = Failed code ∧ ends_clean args (t_disk t) code (t_disk t')) t.
Proof.
  intros Hr. unfold main. set (R := λ (e : Failure Z) t', ∃ code, e = Failed code ∧ _).
  assert (∀ t', kept t t' → R (Failed 2) t') as Hquit.
  { intros t' [Hd _]. exists 2. rewrite Hd. split; [done|apply ends_clean_same]. }
  eapply (wp_yields _ _ _ _ _ t); [done|apply yields_arguments|exact Hquit|].
  intros io t1 (i & o & Hargs & _ & ->) H1. cbn [fst snd].
  destruct i as [input|]; [|eapply wp_stops; [done| |exact Hquit]; by apply yields_usage; auto with yields].
  assert (match o with Some _ => o | None => None end = o) as -> by by destruct o.
  eapply (wp_yields _ _ _ _ _ t); [done|apply yields_read_file|exact Hquit|]. intros src t2 _ H2.
  destruct src as [src|]; [|eapply wp_stops; [done|by repeat yields_step|exact Hquit]].
  eapply (wp_yields _ _ _ _ _ t); [done|apply yields_stem_of|exact Hquit|]. intros stem t3 Hstem H3.
  destruct stem as [stem|]; [subst stem|eapply wp_stops; [done|by repeat yields_step|exact Hquit]].
  eapply (wp_yields _ _ _ _ _ t); [done|apply yields_output_paths|exact Hquit|]. intros paths t4 -> [Hd Hr4].
  pose proof (λ code disk', ends_clean_outputs args (t_disk t) code disk' input o) as Hend. cbv zeta in Hend.
  apply wp_bind. eapply wp_mono; [apply open_outputs_wp; congruence| |]; rewrite Hd.
  - intros _ t5 [Hr5 Hd5]. apply wp_bind. eapply wp_lift_returns; [apply ctmpl_compile_returns|].
    intros r Hans. apply wp_bind, wp_modify. eapply wp_mono; [apply (close_outputs_wp _ _ _ _ (t_disk t))| |done].
    + done.
    + exact Hd5.
    + by destruct Hans as [->|(? & -> & _)].
    + intros code t6 [Hc Ho]. apply Hend; [naive_solver|done|done].
  - intros e t5 [-> Ho]. exists 2. split; [done|]. by apply Hend; [auto|..].
Qed.

(** A run of [ctmpl] ends with 0, 1 or 2, however allocations, reads, opens and
    writes turn out.  The only files that change are the two outputs that the arguments
    name, never the input; and after a run that does not end with 0 a changed output is
    gone: nothing partial is left.  [remove] is taken to succeed. *)
Lemma main_touches_outputs args t w :
  t_removes t = [] →
  let r := result (main args t) w in
  ∃ code, exit_code r.1 = Some code ∧ (code = 0 ∨ code = 1 ∨ code = 2) ∧
  ∀ q, t_disk r.2 !! q ≠ t_disk t !! q →
    ∃ input outdir, command_line args (Some input) outdir ∧
      (q = (output_names input outdir).1 ∨ q = (output_names input outdir).2) ∧ q ≠ input ∧
      (code ≠ 0 → t_disk r.2 !! q = None).
Proof.
  intros Hr. cbv zeta. pose proof (main_wp args t Hr w) as H. unfold post in H.
  destruct (result (main args t) w) as [[e|code] t']; cbn [fst snd] in *.
  - destruct H as (code & -> & H). by exists code.
  - by exists code.
Qed.

(** ** A run in which nothing fails *)

Lemma runs_call t : t_calls t = [] → runs call t true t.
Proof. intros H. apply runs_get_bind. rewrite H. apply runs_ret. Qed.

(** Goes through a run, one call after the other. *)
Ltac runs_step :=
  first
    [ progress cbn [negb]
    | apply runs_ret
    | apply runs_get_bind
    | eapply runs_bind; [apply runs_modify|]
    | eapply runs_bind; [apply runs_malloc|]
    | eapply runs_bind; [by apply runs_call|] ].

Lemma runs_arguments args i o t : command_line args i o → ∀ input outdir,
  input = None ∨ i = None →
  runs (arguments input outdir args) t
    (match input with Some _ => input | None => i end, match o with Some _ => o | None => outdir end) t.
Proof.
  induction 1 as [|d args i o Hc IH|a args o Ha Hc IH]; intros input outdir Hi; cbn [arguments].
  - destruct input; apply runs_ret.
  - rewrite streq_refl. specialize (IH input (Some d) Hi). by destruct o.
  - assert (∀ s, deref s = "-"%ch → streq a s = false) as Hne.
    { intros s Hs. apply streq_false. by intros ->. }
    rewrite !Hne by done. rewrite (proj2 (Z.eqb_neq _ _) Ha). cbn [orb].
    destruct Hi as [->|?]; [|done]. apply (IH (Some a) outdir). by right.
Qed.

Lemma runs_fopen_rb path data t : t_calls t = [] → t_disk t !! path = Some data → runs (fopen_rb path) t (Some data) t.
Proof. intros Hc Hd. unfold fopen_rb. repeat runs_step. rewrite Hd. apply runs_ret. Qed.

Lemma runs_read_file path data t :
  t_calls t = [] → t_disk t !! path = Some data → runs (read_file path) t (Some data) t.
Proof.
  intros Hc Hd. unfold read_file. eapply runs_bind; [by apply runs_fopen_rb|]. cbv iota.
  repeat runs_step.
Qed.

Lemma runs_join_path dir file t : runs (join_path dir file) t (Some (joined dir file)) t.
Proof. unfold join_path. repeat runs_step. Qed.

Lemma runs_output_paths input outdir t :
  runs (output_paths input outdir (stem_text input)) t (output_names input outdir) t.
Proof.
  unfold output_paths, output_names, two_names. eapply runs_bind; [by repeat runs_step|]. cbn [fst snd].
  assert (∀ dir h c, runs (h ← join_path dir h; c ← join_path dir c; mret (h, c)) t
                      (Some (joined dir h), Some (joined dir c)) t) as Hjoin.
  { intros dir h c. do 2 (eapply runs_bind; [apply runs_join_path|]). apply runs_ret. }
  destruct outdir as [dir|]; [|destruct (_ =? 0)%nat].
  - eapply runs_bind; [apply Hjoin|apply runs_ret].
  - eapply runs_bind; apply runs_ret.
  - eapply runs_bind; [runs_step; cbn [negb]; apply Hjoin|apply runs_ret].
Qed.

Lemma runs_fopen_wb path t :
  t_calls t = [] → runs (fopen_wb path) t true (set_t_disk (<[path := []]> (t_disk t)) t).
Proof. intros Hc. unfold fopen_wb. repeat runs_step. Qed.

Lemma runs_open_outputs h c t :
  t_calls t = [] → runs (open_outputs h c) t tt (set_t_disk (<[c := []]> (<[h := []]> (t_disk t))) t).
Proof.
  intros Hc. unfold open_outputs. do 2 (eapply runs_bind; [by apply runs_fopen_wb|]). apply runs_ret.
Qed.

Lemma runs_fclose path text t :
  t_room t = [] → runs (fclose path text) t tt (set_t_disk (<[path := text]> (t_disk t)) t).
Proof. intros Hr. unfold fclose. runs_step. rewrite Hr. exact (runs_modify _ t). Qed.

Lemma runs_remove path t :
  t_removes t = [] → runs (remove path) t tt (set_t_disk (base.delete path (t_disk t)) t).
Proof. intros Hr. unfold remove. runs_step. rewrite Hr. exact (runs_modify _ t). Qed.

(** What a run leaves when the compiler answers [r]. *)
Definition finished (input h c : bytes) (r : CtmplResult) (t : Tool) (code : Z) (t' : Tool) : Prop :=
  t_undefined t' = t_undefined t ∧
  match r_outcome r with
  | Some None =>
      code = 0 ∧ t_disk t' = <[c := r_c r]> (<[h := r_h r]> (t_disk t)) ∧
      t_stdout t' = t_stdout t ++ input ++ str " -> " ++ h ++ str ", " ++ c ++ [LF] ∧ t_stderr t' = t_stderr t
  | Some (Some err) =>
      code = 1 ∧ t_disk t' = base.delete c (base.delete h (t_disk t)) ∧
      t_stdout t' = t_stdout t ∧ t_stderr t' = t_stderr t ++ error_text input err
  | None => False
  end.

Lemma runs_close_outputs input h c r t :
  h ≠ c → t_room t = [] → t_removes t = [] → r_outcome r ≠ None →
  let t1 := set_t_disk (<[c := []]> (<[h := []]> (t_disk t))) t in
  ∃ code t', runs (close_outputs input h c r) t1 code t' ∧ finished input h c r t code t'.
Proof.
  intros Hne Hroom Hrem Ho t1. unfold close_outputs, finished. destruct (r_outcome r) as [[err|]|]; [| |done].
  - do 2 eexists. split.
    + eapply runs_bind; [apply runs_modify|]. do 2 (eapply runs_bind; [by apply runs_fclose|]).
      do 2 (eapply runs_bind; [by apply runs_remove|]). apply runs_ret.
    + cbn. split_and!; [done..| |by rewrite app_nil_r|done].
      apply map_eq. intros q. destruct (decide (q = c)), (decide (q = h)); by simplify_map_eq.
  - do 2 eexists. split.
    + do 2 (eapply runs_bind; [by apply runs_fclose|]). eapply runs_bind; [apply runs_modify|]. apply runs_ret.
    + cbn. split_and!; [done..| |done|by rewrite app_nil_r].
      apply map_eq. intros q. destruct (decide (q = c)), (decide (q = h)); by simplify_map_eq.
Qed.

Lemma runs_then {A B} (m : T A) (f : A → T B) t x t1 :
  runs m t x t1 → ∀ w, w_alloc w = [] → (m ≫= f) t w = f x t1 w.
Proof.
  intros H w Hw. unfold mbind, SE_bind. rewrite bind_run. unfold result, world. by rewrite (H w Hw).
Qed.

Lemma main_runs args input outdir src t w :
  command_line args (Some input) outdir → t_disk t !! input = Some src →
  t_calls t = [] → t_room t = [] → t_removes t = [] → w_alloc w = [] →
  let r := result (ctmpl_compile (Some src) (Some input) true) w in
  let names := output_names input outdir in
  ∃ code t', main args t w = (inr code, t', w) ∧ finished input names.1 names.2 r t code t'.
Proof.
  intros Hargs Hsrc Hcalls Hroom Hrem Hw. cbv zeta. set (names := output_names input outdir).
  destruct (ctmpl_compile_clean (Some src) (Some input) true w Hw) as (Hworld & Hdf & Hor & _ & _).
  assert (r_outcome (result (ctmpl_compile (Some src) (Some input) true) w) ≠ None) as Ho.
  { by destruct (ctmpl_compile_returns (Some src) (Some input) true w) as [->|(? & -> & _)]. }
  set (c := ctmpl_compile (Some src) (Some input) true) in *. set (r := result c w) in *.
  destruct (output_names_distinct input outdir) as [Hne _].
  destruct (runs_close_outputs input names.1 names.2 r t Hne Hroom Hrem Ho) as (code & t' & Hrun & Hfin).
  exists code, t'. split; [|done]. unfold main.
  rewrite (runs_then _ _ _ _ _ (runs_arguments args (Some input) outdir t Hargs None None (or_introl eq_refl)) w Hw).
  cbn [fst snd]. assert (match outdir with Some _ => outdir | None => None end = outdir) as -> by by destruct outdir.
  rewrite (runs_then _ _ _ _ _ (runs_read_file input src t Hcalls Hsrc) w Hw). cbv iota.
  assert (runs (stem_of input) t (Some (stem_text input)) t) as Hstem by (unfold stem_of; repeat runs_step).
  rewrite (runs_then _ _ _ _ _ Hstem w Hw). cbv iota.
  rewrite (runs_then _ _ _ _ _ (runs_output_paths input outdir t) w Hw). fold names.
  rewrite (runs_then _ _ _ _ _ (runs_open_outputs names.1 names.2 t Hcalls) w Hw).
  fold c. etrans; [apply lift_bind_run|]. change (c w).1 with r. change (c w).2 with (world c w). rewrite Hworld.
  rewrite (runs_then _ _ _ _ _ (runs_modify _ _) w Hw). unfold r in *. rewrite Hdf, Hor. cbn [orb].
  assert (∀ t, note_undefined false t = t) as ->; [|by apply Hrun].
  intros []. unfold note_undefined. simpl. by rewrite orb_false_r.
Qed.

(** C20: a run in which nothing fails is a run of the compiler: for accepted arguments and
    an input that is there it ends with 0, both outputs hold exactly what
    [ctmpl_compile] wrote for the input and the names are printed; or it ends with 1,
    neither output is there and the error is printed with its place.  No other file
    changes.  The program includes the header by the name it was written to, unless the
    name of the input has a backslash. *)
Theorem main_compiles args input outdir src t w :
  command_line args (Some input) outdir → t_disk t !! input = Some src →
  t_calls t = [] → t_room t = [] → t_removes t = [] → w_alloc w = [] →
  let r := result (ctmpl_compile (Some src) (Some input) true) w in
  let names := output_names input outdir in
  let run := result (main args t) w in
  t_undefined run.2 = t_undefined t ∧
  match r_outcome r with
  | Some None =>
      exit_code run.1 = Some 0 ∧ t_disk run.2 = <[names.2 := r_c r]> (<[names.1 := r_h r]> (t_disk t)) ∧
      t_stdout run.2 = t_stdout t ++ input ++ str " -> " ++ names.1 ++ str ", " ++ names.2 ++ [LF] ∧
      t_stderr run.2 = t_stderr t ∧
      (BACKSLASH ∉ path_base input →
         ∃ rest, r_c r = lines [notice input; str "#include " ++ quoted (path_base names.1); []] ++ rest)
  | Some (Some err) =>
      exit_code run.1 = Some 1 ∧ t_disk run.2 = base.delete names.2 (base.delete names.1 (t_disk t)) ∧
      t_stdout run.2 = t_stdout t ∧ t_stderr run.2 = t_stderr t ++ error_text input err
  | None => False
  end.
Proof.
  intros Hargs Hsrc Hcalls Hroom Hrem Hw. cbv zeta.
  destruct (main_runs args input outdir src t w) as (code & t' & Hrun & Hun & Hfin); [done..|].
  assert (result (main args t) w = (inr code, t')) as -> by (unfold result; by rewrite Hrun).
  cbn [fst snd exit_code]. split; [exact Hun|].
  destruct (ctmpl_compile_clean (Some src) (Some input) true w Hw) as (_ & _ & _ & Hok & _).
  destruct (r_outcome _) as [[err|]|] eqn:Ho; [by destruct Hfin as (-> & ? & ? & ?)| |done].
  destruct Hfin as (-> & Hd & Hout & Herr). split_and!; [done..|]. intros Hbs.
  destruct (Hok eq_refl) as (text & u & p & _ & _ & _ & ->). unfold preamble_text. rewrite <- app_assoc.
  eexists. do 5 f_equal. rewrite (proj1 (output_names_base input outdir)). by rewrite stem_text_agrees.
Qed.

(** ** Concrete runs *)

Definition tool (disk : gmap bytes bytes) : Tool :=
  {| t_disk := disk; t_calls := []; t_room := []; t_removes := []; t_errno := str "No such file or directory";
     t_stdout := []; t_stderr := []; t_undefined := false |}.

Definition demo_args : list bytes := [str "-o"; str "gen//"; str "pages/demo.thtml"].

Definition demo_disk : gmap bytes bytes := {[ str "pages/demo.thtml" := demo_source ]}.

Lemma demo_command_line : command_line demo_args (Some (str "pages/demo.thtml")) (Some (str "gen//")).
Proof. apply (cl_outdir (str "gen//") _ _ None). constructor; [done|constructor]. Qed.

Lemma main_compiles_witness :
  t_disk (tool demo_disk) !! str "pages/demo.thtml" = Some demo_source ∧
  exit_code (result (main demo_args (tool demo_disk)) quiet_world).1 = Some 0.
Proof.
  split; [reflexivity|].
  pose proof (main_compiles demo_args _ _ demo_source (tool demo_disk) quiet_world demo_command_line
                eq_refl eq_refl eq_refl eq_refl eq_refl) as H.
  assert (r_outcome (result (ctmpl_compile (Some demo_source) (Some (str "pages/demo.thtml")) true) quiet_world) =
            Some None) as E by reflexivity.
  cbv zeta in H. rewrite E in H. exact (proj1 (proj2 H)).
Defined.

(** Trailing slashes of the directory go. *)
Example output_names_outdir :
  output_names (str "pages/demo.thtml") (Some (str "gen//")) = (str "gen/demo_templ.h", str "gen/demo_templ.c").
Proof. reflexivity. Qed.

(** Without a directory the outputs are next to the input. *)
Example output_names_beside :
  output_names (str "pages/demo.thtml") None = (str "pages/demo_templ.h", str "pages/demo_templ.c") ∧
  output_names (str "/demo.thtml") None = (str "/demo_templ.h", str "/demo_templ.c") ∧
  output_names (str "demo.thtml") None = (str "demo_templ.h", str "demo_templ.c").
Proof. split_and!; reflexivity. Qed.

(** An empty directory is the root, not the current one. *)
Example output_names_empty_outdir :
  output_names (str "demo.thtml") (Some []) = (str "/demo_templ.h", str "/demo_templ.c").
Proof. reflexivity. Qed.

(** [main] takes the stem behind the last slash, the compiler also behind a backslash: the
    program includes a header that was not written. *)
Example backslash_stem :
  let path := str "a\b.thtml" in
  (output_names path None).1 = str "a\b_templ.h" ∧ stem_of_path path = str "b".
Proof. split; reflexivity. Qed.

(** A full disk: the outputs are cut, and the run ends with 0. *)
Example full_disk_succeeds :
  let t := {| t_disk := demo_disk; t_calls := []; t_room := [10; 0]%nat; t_removes := []; t_errno := [];
              t_stdout := []; t_stderr := []; t_undefined := false |} in
  let r := result (main demo_args t) quiet_world in
  exit_code r.1 = Some 0 ∧ t_disk r.2 !! str "gen/demo_templ.h" = Some (str "/* Generat") ∧
  t_disk r.2 !! str "gen/demo_templ.c" = Some [].
Proof. split_and!; reflexivity. Qed.

(** Help ends with 2. *)
Example help_exit : exit_code (result (main [str "--help"] (tool ∅)) quiet_world).1 = Some 2.
Proof. reflexivity. Qed.
