(* ===== verification/CtmplDoc.v ===== *)
(** * The template compiler: documents read back

    Canonical templates as documents, how they are written, and the nodes the parser of
    [src/tools/ctmpl.c] reads from what was written. *)

From S2P Require Import Prelude CLib World StateErr Response Tpl Ctmpl CtmplParse CtmplGen CtmplProg CtmplRuns.
#[local] Open Scope Z_scope.

(** ** Documents *)

(** An attribute: a bare name, a quoted text, a quoted expression, or a name that is there
    when a condition holds. *)
Inductive Attr :=
  | AFlag (name : bytes)
  | AText (name value : bytes)
  | AExpr (name expr : bytes)
  | ABool (name cond : bytes).

(** Text; an element without or with contents; an expression; the place of the children; a
    call with its block; a condition with its branches; a loop. *)
Inductive Doc :=
  | DText (text : bytes)
  | DVoid (name : bytes) (attrs : list Attr)
  | DElem (name : bytes) (attrs : list Attr) (body : list Doc)
  | DInterp (expr : bytes)
  | DChildren
  | DCall (name : bytes) (args data : option bytes) (block : list Doc)
  | DIf (cond : bytes) (then_ otherwise : list Doc)
  | DFor (head : bytes) (body : list Doc).

(** ** Writing *)

Definition print_interp (e : bytes) : bytes := str "{ " ++ e ++ str " }".

Definition print_attr (a : Attr) : bytes :=
  SP :: match a with
        | AFlag name => name
        | AText name value => name ++ str "=" ++ DQUOTE :: value ++ [DQUOTE]
        | AExpr name expr => name ++ str "=" ++ DQUOTE :: print_interp expr ++ [DQUOTE]
        | ABool name cond => name ++ str "?=" ++ print_interp cond
        end.

Definition print_tag (name : bytes) (attrs : list Attr) : bytes :=
  str "<" ++ name ++ concat (map print_attr attrs) ++ str ">".

Definition close_tag (name : bytes) : bytes := str "</" ++ name ++ str ">".

Definition print_option (before : bytes) (x : option bytes) : bytes :=
  match x with Some e => before ++ str "(" ++ e ++ str ")" | None => [] end.

Fixpoint print_doc (d : Doc) : bytes :=
  let block (ds : list Doc) := str " {" ++ concat (map print_doc ds) ++ str "}" in
  match d with
  | DText text => text
  | DVoid name attrs => print_tag name attrs
  | DElem name attrs body => print_tag name attrs ++ concat (map print_doc body) ++ close_tag name
  | DInterp expr => print_interp expr
  | DChildren => print_interp (str "children...")
  | DCall name args data ds =>
      str "@" ++ name ++ print_option [] args ++ print_option (str " with ") data ++
      (if bool_decide (ds = []) then [] else block ds)
  | DIf cond then_ otherwise =>
      str "if " ++ cond ++ block then_ ++ (if bool_decide (otherwise = []) then [] else str " else" ++ block otherwise)
  | DFor head body => str "for " ++ head ++ block body
  end.

Definition print_docs (ds : list Doc) : bytes := concat (map print_doc ds).

(** A block with the blank in front of it. *)
Definition print_block (ds : list Doc) : bytes := str " {" ++ print_docs ds ++ str "}".

Definition print_else (ds : list Doc) : bytes :=
  if bool_decide (ds = []) then [] else str " else" ++ print_block ds.

(** ** The nodes of a document

    Lines are not compared: [erase] sets them to 0. *)

Fixpoint erase_node (n : Node) : Node :=
  match n with
  | NText _ text => NText 0 text
  | NInterp _ expr ctx children => NInterp 0 expr ctx children
  | NCall _ callee args data_expr block comp gen_name =>
      NCall 0 callee args data_expr (map erase_node block) comp gen_name
  | NIf _ expr then_ otherwise => NIf 0 expr (map erase_node then_) (map erase_node otherwise)
  | NFor _ expr then_ => NFor 0 expr (map erase_node then_)
  end.

Definition erase (ns : list Node) : list Node := map erase_node ns.

(** The nodes of an attribute and the text that is still to be flushed behind it. *)
Definition attr_nodes (acc : bytes) (a : Attr) : list Node * bytes :=
  match a with
  | AFlag _ | AText _ _ => ([], acc ++ print_attr a)
  | AExpr name expr =>
      ([NText 0 (acc ++ SP :: name ++ str "=" ++ [DQUOTE]);
        NInterp 0 expr (default CTX_ATTR (attr_context name)) false], [DQUOTE])
  | ABool name cond => ([NText 0 (acc ++ [SP]); NIf 0 cond [NText 0 (SP :: name)] []], [])
  end.

Fixpoint tag_nodes (acc : bytes) (attrs : list Attr) : list Node :=
  match attrs with
  | [] => [NText 0 (acc ++ str ">")]
  | a :: attrs => (attr_nodes acc a).1 ++ tag_nodes (attr_nodes acc a).2 attrs
  end.

(** [params]: those of the enclosing component. *)
Fixpoint doc_nodes (params : option bytes) (d : Doc) : list Node :=
  match d with
  | DText text => [NText 0 text]
  | DVoid name attrs => tag_nodes (str "<" ++ name) attrs
  | DElem name attrs body =>
      tag_nodes (str "<" ++ name) attrs ++ concat (map (doc_nodes params) body) ++ [NText 0 (close_tag name)]
  | DInterp expr => [NInterp 0 expr CTX_TEXT false]
  | DChildren => [NInterp 0 (str "children...") CTX_TEXT true]
  | DCall name args data block =>
      [NCall 0 name args data (concat (map (doc_nodes params) block)) params None]
  | DIf cond then_ otherwise =>
      [NIf 0 cond (concat (map (doc_nodes params) then_)) (concat (map (doc_nodes params) otherwise))]
  | DFor head body => [NFor 0 head (concat (map (doc_nodes params) body))]
  end.

Definition docs_nodes (params : option bytes) (ds : list Doc) : list Node := concat (map (doc_nodes params) ds).

(** ** Well-formed documents *)

(** Expressions: balanced C text without blanks around it. *)
Definition trimmed (e : bytes) : Prop := skip_while isspace e = e ∧ rtrim isspace e = e.
Definition expr_ok (e : bytes) : Prop := c_text e ∧ trimmed e ∧ e ≠ [].

Definition attr_char (c : Z) : bool := is_tag_char c || (c =? ":"%ch).
Definition attr_name (name : bytes) : Prop := name ≠ [] ∧ Forall (λ c, attr_char c = true) name.
Definition value_char (c : Z) : bool := negb (has_chr c [NUL; DQUOTE; "{"%ch]).

Definition wf_attr (a : Attr) : Prop :=
  match a with
  | AFlag name => attr_name name
  | AText name value => attr_name name ∧ Forall (λ c, value_char c = true) value
  | AExpr name expr =>
      attr_name name ∧ attr_context name ≠ None ∧ expr_ok expr ∧ expr ≠ str "children..."
  | ABool name cond => attr_name name ∧ expr_ok cond
  end.

Definition tag_name (name : bytes) : Prop :=
  is_ident_start (deref name) = true ∧ forallb is_tag_char name = true ∧ (length name ≤ TAG_NAME_MAX)%nat.

Lemma trim_padded e : trimmed e → trim_space (SP :: e ++ [SP]) = e.
Proof.
  intros [H1 H2]. unfold trim_space.
  assert (skip_while isspace (SP :: e ++ [SP]) = skip_while isspace (e ++ [SP])) as ->.
  { unfold skip_while. simpl. by destruct (span isspace (e ++ [SP])). }
  destruct e as [|c e]; [done|].
  assert (isspace c = false) as Hc.
  { destruct (isspace c) eqn:E; [|done]. exfalso. assert (length (skip_while isspace (c :: e)) ≤ length e)%nat as Hl.
    { unfold skip_while. simpl. rewrite E. destruct (span isspace e) as [a b] eqn:Es.
      rewrite (span_app _ _ _ _ Es), length_app. simpl. lia. }
    rewrite H1 in Hl. simpl in Hl. lia. }
  simpl app. rewrite skip_while_id by done. change (c :: e ++ [SP]) with ((c :: e) ++ [SP]).
  rewrite rtrim_app_trim; [done|by repeat constructor].
Qed.

Lemma c_text_padded e : c_text e → c_text (SP :: e ++ [SP]).
Proof. intros H. constructor; [done|]. apply c_text_app; [done|]. repeat constructor. Qed.

(** ** Expressions and attributes *)

Section Parse.
Variable w : World.
Hypothesis Hw : w_alloc w = [].

#[local] Abbreviation gives := (gives w).
#[local] Abbreviation reads := (reads w).
#[local] Abbreviation leads := (leads w).

Lemma erase_app ns ms : erase (ns ++ ms) = erase ns ++ erase ms.
Proof. apply map_app. Qed.

(** An expression up to the closing brace, the opening one at the cursor. *)
Lemma reads_braces {B} e p r (f : bytes → P B) Q :
  expr_ok e → left p = print_interp e ++ r →
  (∀ q, moved p (print_interp e) q → reads (f e) q [] Q) →
  reads (_ ← modify advance; x ← scan_expr SCAN_MATCH_BRACE; f x) p (print_interp e) Q.
Proof.
  intros (Hc & Ht & _) Hp Hf.
  assert (left p = "{"%ch :: (SP :: e ++ [SP]) ++ "}"%ch :: r) as Hp'.
  { rewrite Hp. unfold print_interp. simpl. by rewrite <- !app_assoc. }
  pose proof (advance_moved p _ _ Hp') as Ha.
  assert (print_interp e = ["{"%ch] ++ (SP :: e ++ [SP]) ++ ["}"%ch]) as E.
  { unfold print_interp. simpl. by rewrite <- app_assoc. }
  eapply reads_modify; [exact E|exact Ha|intros _].
  eapply reads_last.
  { apply (reads_scan_match w Hw SCAN_MATCH_BRACE (SP :: e ++ [SP]) _ r); [done|by apply c_text_padded|].
    by apply (left_app _ ["{"%ch] _ _ Ha). }
  cbv beta. intros x q -> Hq. rewrite trim_padded by done. apply Hf.
  by eapply moved_trans; [exact E|exact Ha|].
Qed.

Lemma reads_interp ctx e p r :
  expr_ok e → (e = str "children..." → ctx = CTX_TEXT) → left p = print_interp e ++ r →
  reads (parse_interp ctx) p (print_interp e)
    (λ ns, erase ns = [NInterp 0 e ctx (streq e (str "children..."))]).
Proof.
  intros He Hch Hp. unfold parse_interp. apply (reads_braces e p r); [done..|]. intros q _.
  eapply reads_call; [by apply reads_new_node|]. intros line q' _ _.
  destruct (streq e (str "children...")) eqn:E.
  - apply streq_true in E. rewrite bool_decide_eq_true_2 by auto. by apply reads_ret.
  - rewrite bool_decide_eq_false_2 by apply He. by apply reads_ret.
Qed.

Lemma reads_classify p name q q' start end_ :
  moved p name q → p_src q' = p_src p → start = p_pos p → end_ = p_pos q →
  name ≠ [] → attr_context name ≠ None → zlen (p_src p) < 2 ^ 64 →
  reads (classify_attr start end_) q' [] (λ x, attr_context name = Some x).
Proof.
  intros Hm Hsrc -> -> Hne Hctx Hlen.
  assert (slice q' (p_pos p) (p_pos q) = name) as Hs by by apply (slice_other p name q q').
  assert (p_pos p < p_pos q)%nat as Hlt.
  { rewrite (mv_pos _ _ _ Hm). destruct name; [done|]. simpl. lia. }
  assert (p_pos q ≤ length (p_src q'))%nat as Hle.
  { rewrite Hsrc, (mv_pos _ _ _ Hm). pose proof (f_equal length (mv_left _ _ _ Hm)) as Hl.
    unfold left in Hl. rewrite length_app, !length_drop in Hl.
    destruct (decide (p_pos p ≤ length (p_src p))%nat); [lia|]. destruct name; [done|]. simpl in *. lia. }
  pose proof (classify_attr_wp q' _ _ Hlt Hle ltac:(by rewrite Hsrc) w) as H.
  destruct (clean_classify_attr (p_pos p) (p_pos q) q' w Hw) as [Hw' _].
  unfold result, post in H. rewrite Hs in H.
  destruct (classify_attr (p_pos p) (p_pos q) q' w) as [[[e|ctx] q1] w1] eqn:E; cbn [fst snd] in *; subst w1; [done|].
  destruct H as [Hc ->]. exists ctx, q'. split_and!; [exact E|apply moved_refl|done].
Qed.

(** ** Rounds of the tag scanner *)

(** Outside quotes, with the text [acc] still to be flushed. *)
Definition scanning (acc : bytes) (st : TagScan) (p : Parser) : Prop :=
  ts_quote st = 0 ∧ ∃ pf, p_pos pf = ts_flush_to st ∧ moved pf acc p.

Ltac tag_at Hp :=
  unfold tag_round; apply gives_get; rewrite (at_end_cons _ _ _ Hp), peek_left, Hp; cbn [deref app].

Lemma neq_of (f : Z → bool) c x : f c = true → f x = false → (c =? x) = false.
Proof. intros H1 H2. apply Z.eqb_neq. intros ->. congruence. Qed.

Lemma attr_char_not_space c : attr_char c = true → isspace c = false.
Proof.
  intros H. apply not_true_is_false. intros H'. revert H H'.
  unfold attr_char, is_tag_char, is_ident_char, isalnum, is_alpha, is_digit, is_lower, is_upper, isspace.
  rewrite !orb_true_iff, !andb_true_iff, !Z.leb_le, !Z.eqb_eq. lia.
Qed.

Lemma round_attr_char start line st p c r :
  attr_char c = true → ts_quote st = 0 → left p = c :: r →
  gives (tag_round start line st) p (inl st) (advance p).
Proof.
  intros Hc Hq Hp. tag_at Hp. rewrite Hq, !(neq_of attr_char c _ Hc) by done. cbn [negb orb andb Z.eqb].
  rewrite attr_char_not_space by done. by apply gives_modify.
Qed.

Lemma round_space start line st p c r :
  isspace c = false → ts_quote st = 0 → left p = SP :: c :: r →
  gives (tag_round start line st) p (inl (set_ts_name_start (S (p_pos p)) st)) (advance p).
Proof.
  intros Hc Hq Hp. tag_at Hp. rewrite Hq. simpl. apply gives_modify, gives_get.
  pose proof (advance_moved p _ _ Hp) as Ha.
  destruct (skip_ws_moved (advance p) (c :: r)) as (s & Hs & Hm & _); [by apply (left_app _ [SP] _ _ Ha)|].
  rewrite skip_while_id in Hs by done. assert (s = []) as ->.
  { apply (f_equal length) in Hs. rewrite length_app in Hs. simpl in Hs. apply nil_length_inv. lia. }
  rewrite (mv_pos _ _ _ Hm), (mv_pos _ _ _ Ha). simpl. by rewrite Nat.add_0_r, Nat.add_1_r.
Qed.

Lemma round_equals start line st p r :
  ts_quote st = 0 → left p = "="%ch :: r →
  gives (tag_round start line st) p (inl (set_ts_name_end (p_pos p) st)) (advance p).
Proof. intros Hq Hp. tag_at Hp. rewrite Hq. simpl. by apply gives_modify. Qed.

Lemma round_open_quote start line st p r :
  ts_quote st = 0 → left p = DQUOTE :: r →
  gives (tag_round start line st) p (inl (set_ts_quote DQUOTE st)) (advance p).
Proof. intros Hq Hp. tag_at Hp. rewrite Hq. simpl. by apply gives_modify. Qed.

Lemma round_close_quote start line st p r :
  ts_quote st = DQUOTE → left p = DQUOTE :: r →
  gives (tag_round start line st) p (inl (set_ts_quote 0 st)) (advance p).
Proof. intros Hq Hp. tag_at Hp. rewrite Hq. simpl. by apply gives_modify. Qed.

Lemma round_value start line st p c r :
  value_char c = true → ts_quote st = DQUOTE → left p = c :: r →
  gives (tag_round start line st) p (inl st) (advance p).
Proof.
  intros Hc Hq Hp. tag_at Hp. rewrite Hq, !(neq_of value_char c _ Hc) by done. simpl. by apply gives_modify.
Qed.


(** From the blank in front of an attribute to the end of its name. *)
Lemma leads_name start line st name p r :
  attr_name name → ts_quote st = 0 → left p = SP :: name ++ r →
  ∃ q1 q, leads (tag_round start line) (S (length name)) st p (set_ts_name_start (p_pos q1) st) q ∧
    moved p [SP] q1 ∧ moved q1 name q.
Proof.
  intros [Hne Hname] Hq Hp. pose proof (advance_moved p _ _ Hp) as Ha.
  assert (left (advance p) = name ++ r) as Hl by by apply (left_app _ [SP] _ _ Ha).
  destruct (leads_chars w (tag_round start line) (set_ts_name_start (p_pos (advance p)) st) attr_char name)
    with (advance p) r as (q & Hlead & Hm); [|done|done|].
  { intros p' c r' Hc Hp'. by eapply round_attr_char. }
  exists (advance p), q. split_and!; [|done|done].
  eapply (leads_trans _ _ 1); [|apply leads_round; [done|]|exact Hlead]; [done|].
  rewrite (mv_pos _ _ _ Ha). simpl. rewrite Nat.add_1_r. destruct name as [|c name]; [done|].
  eapply round_space; [|done|exact Hp]. apply attr_char_not_space. by inversion Hname.
Qed.

Lemma scanning_more acc st p s q st' :
  scanning acc st p → moved p s q → ts_quote st' = 0 → ts_flush_to st' = ts_flush_to st → scanning (acc ++ s) st' q.
Proof.
  intros (_ & pf & Hpf & Hm) Hs Hq Hf. split; [done|]. exists pf. split; [congruence|]. by eapply moved_trans.
Qed.

(** What an attribute does to the scanner. *)
Definition attr_scanned (start line : nat) (st : TagScan) (p : Parser) (acc : bytes) (a : Attr) : Prop :=
  ∃ st' q, leads (tag_round start line) (length (print_attr a)) st p st' q ∧ moved p (print_attr a) q ∧
    scanning (attr_nodes acc a).2 st' q ∧ erase (ts_nodes st') = erase (ts_nodes st) ++ (attr_nodes acc a).1.

Lemma flag_scanned start line st p acc name r :
  attr_name name → scanning acc st p → left p = print_attr (AFlag name) ++ r →
  attr_scanned start line st p acc (AFlag name).
Proof.
  intros Hn Hs Hp. destruct (leads_name start line st name p r Hn (proj1 Hs) Hp) as (q1 & q & Hl & H1 & H2).
  assert (moved p (SP :: name) q) as Hm by by eapply moved_trans; [|exact H1|exact H2].
  do 2 eexists. split_and!; [exact Hl|exact Hm| |by rewrite app_nil_r].
  by apply (scanning_more _ st p); [|exact Hm|apply Hs|].
Qed.

(** From the blank in front of an attribute to the opening quote of its value. *)
Lemma leads_value start line st name p r :
  attr_name name → ts_quote st = 0 → left p = SP :: name ++ "="%ch :: DQUOTE :: r →
  ∃ q1 q2 q, moved p [SP] q1 ∧ moved q1 name q2 ∧ moved q2 ["="%ch; DQUOTE] q ∧
    leads (tag_round start line) (S (length name) + 2) st p
      (set_ts_quote DQUOTE (set_ts_name_end (p_pos q2) (set_ts_name_start (p_pos q1) st))) q.
Proof.
  intros Hn Hq Hp. destruct (leads_name start line st name p _ Hn Hq Hp) as (q1 & q2 & Hl & H1 & H2).
  assert (left q2 = "="%ch :: DQUOTE :: r) as Hq2.
  { apply (left_app _ _ _ _ H2). by apply (left_app _ [SP] _ _ H1). }
  pose proof (advance_moved q2 _ _ Hq2) as H3.
  assert (left (advance q2) = DQUOTE :: r) as Hq3 by by apply (left_app _ ["="%ch] _ _ H3).
  pose proof (advance_moved _ _ _ Hq3) as H4.
  exists q1, q2, (advance (advance q2)). split_and!; [done|done|by eapply moved_trans; [|exact H3|exact H4]|].
  eapply leads_trans; [done|exact Hl|].
  eapply (leads_trans _ _ 1 1); [done|apply leads_round; [done|by eapply round_equals]|].
  apply leads_round; [done|by eapply round_open_quote].
Qed.

Lemma text_scanned start line st p acc name value r :
  attr_name name → Forall (λ c, value_char c = true) value → scanning acc st p →
  left p = print_attr (AText name value) ++ r → attr_scanned start line st p acc (AText name value).
Proof.
  intros Hn Hv Hs Hp.
  assert (left p = SP :: name ++ "="%ch :: DQUOTE :: value ++ DQUOTE :: r) as Hp'.
  { rewrite Hp. simpl. rewrite <- !app_assoc. simpl. by rewrite <- app_assoc. }
  destruct (leads_value start line st name p _ Hn (proj1 Hs) Hp') as (q1 & q2 & q & H1 & H2 & H3 & Hl).
  set (st1 := set_ts_quote DQUOTE _) in Hl.
  assert (moved p (SP :: name ++ str "=" ++ [DQUOTE]) q) as H123.
  { eapply moved_trans; [|exact H1|by eapply moved_trans; [|exact H2|exact H3]]; done. }
  assert (left q = value ++ DQUOTE :: r) as Hq.
  { apply (left_app _ _ _ _ H123). rewrite Hp'. simpl. by rewrite <- app_assoc. }
  destruct (leads_chars w (tag_round start line) st1 value_char value) with q (DQUOTE :: r)
    as (q5 & Hl5 & H5); [|done|done|].
  { intros p' c r' Hc Hp''. by eapply round_value. }
  pose proof (left_app _ _ _ _ H5 Hq) as Hq5. pose proof (advance_moved _ _ _ Hq5) as H6.
  assert (moved p (print_attr (AText name value)) (advance q5)) as Hm.
  { eapply moved_trans; [|exact H123|by eapply moved_trans; [|exact H5|exact H6]].
    simpl. by rewrite <- !app_assoc. }
  exists (set_ts_quote 0 st1), (advance q5). split_and!; [|exact Hm| |by rewrite app_nil_r].
  - eapply leads_trans; [|exact Hl|]. 2: eapply leads_trans; [|exact Hl5|].
    3: by apply leads_round with (n := 1%nat); [|eapply round_close_quote]. 2: reflexivity.
    simpl. rewrite !length_app. simpl. rewrite length_app. simpl. lia.
  - by apply (scanning_more _ st p); [|exact Hm| |].
Qed.

Lemma text_nodes_erase line s : s ≠ [] → erase (text_nodes line s) = [NText 0 s].
Proof. intros H. unfold text_nodes. by rewrite bool_decide_eq_false_2. Qed.

(** An expression in a quoted value, when the name [name] and the text [before] that is to
    be flushed are behind the cursor. *)
Lemma reads_attr_interp line st e name before pf q1 q2 p r :
  ts_name_start st = p_pos q1 → ts_name_end st = p_pos q2 → ts_flush_to st = p_pos pf →
  moved q1 name q2 → moved pf before p → p_src q1 = p_src p → zlen (p_src p) < 2 ^ 64 → before ≠ [] →
  name ≠ [] → attr_context name ≠ None → expr_ok e → e ≠ str "children..." →
  left p = print_interp e ++ r →
  reads (attr_interp false line st) p (print_interp e) (λ st',
    ts_quote st' = ts_quote st ∧ ts_flush_to st' = (p_pos p + length (print_interp e))%nat ∧
    erase (ts_nodes st') =
      erase (ts_nodes st) ++ [NText 0 before; NInterp 0 e (default CTX_ATTR (attr_context name)) false]).
Proof.
  intros Hs He Hf Hn Hb Hsrc Hlen Hb0 Hn0 Hctx Hexpr Hch Hp. unfold attr_interp.
  assert (zlen (p_src q1) < 2 ^ 64) by by rewrite Hsrc.
  eapply reads_call; [by apply (reads_classify q1 name q2)|]. cbv beta. intros ctx p1 Hc H1.
  rewrite Hc. cbn [default]. unfold tag_text.
  assert (moved pf before p1) as Hb1 by (eapply moved_trans; [|exact Hb|exact H1]; by rewrite app_nil_r).
  eapply reads_call; [apply reads_get, (reads_append_slice w Hw pf before p1); [done| |done|done]|].
  { by apply (mv_src _ _ _ Hb1). }
  cbv beta. intros ns p2 -> H2. apply reads_ret_bind.
  assert (moved p [] p2) as H12 by (eapply moved_trans; [|exact H1|exact H2]; done).
  eapply reads_last; [apply (reads_interp ctx e p2 r); [done|done|]|].
  { by apply (left_app _ [] _ _ H12). }
  cbv beta. intros ns' p3 Hns' H3. apply reads_ret_bind, reads_get, reads_ret. split_and!; [done| |].
  - cbn [ts_flushed ts_flush_to]. rewrite (mv_pos _ _ _ H3), (mv_pos _ _ _ H12). simpl. lia.
  - cbn [ts_flushed ts_nodes]. rewrite !erase_app, Hns', text_nodes_erase by done. cbn [app erase map].
    by destruct (streq _ _) eqn:E; [apply streq_true in E|].
Qed.
Lemma expr_scanned start line st p acc name e r :
  wf_attr (AExpr name e) → scanning acc st p → zlen (p_src p) < 2 ^ 64 →
  left p = print_attr (AExpr name e) ++ r → attr_scanned start line st p acc (AExpr name e).
Proof.
  intros (Hn & Hctx & He & Hch) Hs Hlen Hp. destruct Hs as (Hq0 & pf & Hpf & Hmf).
  assert (left p = SP :: name ++ "="%ch :: DQUOTE :: print_interp e ++ DQUOTE :: r) as Hp'.
  { rewrite Hp. unfold print_attr. simpl. rewrite <- !app_assoc. simpl. by rewrite <- !app_assoc. }
  destruct (leads_value start line st name p _ Hn Hq0 Hp') as (q1 & q2 & q & H1 & H2 & H3 & Hl).
  set (st1 := set_ts_quote DQUOTE _) in Hl.
  assert (moved p (SP :: name ++ str "=" ++ [DQUOTE]) q) as H123.
  { eapply moved_trans; [|exact H1|by eapply moved_trans; [|exact H2|exact H3]]; done. }
  assert (left q = print_interp e ++ DQUOTE :: r) as Hq.
  { apply (left_app _ _ _ _ H123). rewrite Hp'. simpl. by rewrite <- !app_assoc. }
  assert (moved pf (acc ++ SP :: name ++ str "=" ++ [DQUOTE]) q) as Hbefore
    by (by eapply moved_trans; [|exact Hmf|exact H123]).
  destruct (reads_attr_interp line st1 e name (acc ++ SP :: name ++ str "=" ++ [DQUOTE]) pf q1 q2 q (DQUOTE :: r))
    as (st2 & q3 & Hi & H4 & Hq2 & Hf2 & Hns);
    [done|done|done|done|exact Hbefore| | |by destruct acc|apply Hn|done|done|done|done|].
  { by rewrite (mv_src _ _ _ H1), (mv_src _ _ _ H123). }
  { by rewrite (mv_src _ _ _ H123). }
  pose proof (left_app _ _ _ _ H4 Hq) as Hq3. pose proof (advance_moved _ _ _ Hq3) as H5.
  exists (set_ts_quote 0 st2), (advance q3). split_and!.
  - eapply (leads_weaken _ _ (S (length name) + 2 + (1 + 1))).
    { unfold print_attr, print_interp. simpl. rewrite !length_app. simpl. rewrite !length_app. simpl. lia. }
    eapply leads_trans; [done|exact Hl|].
    eapply leads_trans; [done|apply leads_round; [done|]|apply leads_round; [done|]].
    + unfold tag_round. apply gives_get. rewrite (at_end_cons _ _ _ Hq), peek_left, Hq. cbn [deref app].
      eapply gives_bind; [exact Hi|apply gives_ret].
    + eapply round_close_quote; [by rewrite Hq2|done].
  - eapply moved_trans; [|exact H123|by eapply moved_trans; [|exact H4|exact H5]].
    unfold print_attr. simpl. by rewrite <- !app_assoc.
  - split; [done|]. exists q3. split; [|exact H5]. cbn. by rewrite Hf2, (mv_pos _ _ _ H4).
  - cbn [set_ts_quote ts_nodes]. by rewrite Hns.
Qed.
Lemma reads_attr_bool line st e name before pf q1 p r :
  ts_name_start st = p_pos q1 → ts_flush_to st = p_pos pf → moved pf before q1 → moved q1 name p →
  before ≠ [] → name ≠ [] → expr_ok e → left p = str "?=" ++ print_interp e ++ r →
  reads (attr_bool line st) p (str "?=" ++ print_interp e) (λ st',
    ts_quote st' = ts_quote st ∧ ts_flush_to st' = (p_pos p + length (str "?=" ++ print_interp e))%nat ∧
    erase (ts_nodes st') = erase (ts_nodes st) ++ [NText 0 before; NIf 0 e [NText 0 (SP :: name)] []]).
Proof.
  intros Hs Hf Hb Hn Hb0 Hn0 He Hp. unfold attr_bool. apply reads_get.
  rewrite (proj2 (Nat.leb_gt _ _)) by (rewrite Hs, (mv_pos _ _ _ Hn); destruct name; [done|simpl; lia]).
  assert (slice p (ts_name_start st) (p_pos p) = name) as -> by by rewrite Hs, (slice_moved _ _ _ Hn).
  eapply reads_call; [apply (reads_append_slice w Hw pf before q1); [done| |done|done]|].
  { by rewrite (mv_src _ _ _ Hn), (mv_src _ _ _ Hb). }
  cbv beta. intros ns p1 -> H1. pose proof (left_app _ [] _ _ H1 Hp) as Hp1.
  pose proof (advance_n_moved (str "?=") p1 _ Hp1) as H2. cbn [length str] in H2.
  eapply reads_modify; [done|exact H2|intros _]. apply reads_get.
  set (p2 := advance_n p1 _) in *. pose proof (left_app _ _ _ _ H2 Hp1) as Hp2.
  rewrite peek_left, Hp2. cbn [deref app print_interp].
  change (negb ("{"%ch =? "{"%ch)) with false. cbv iota.
  eapply reads_call; [by apply reads_new_node|]. intros _ p3 _ H3.
  apply (reads_braces e p3 r); [done|by apply (left_app _ [] _ _ H3)|]. intros p4 H4.
  rewrite bool_decide_eq_false_2 by apply He.
  eapply reads_call; [by apply reads_new_node|]. intros l p5 _ H5.
  eapply reads_call; [by apply reads_alloc|]. cbv beta. intros ? p6 -> H6.
  eapply reads_call; [by apply reads_track|]. cbv beta. intros ? p7 -> H7. cbn [negb].
  apply reads_get, reads_ret. split_and!; [done| |].
  - cbn [set_ts_name_start ts_flushed ts_flush_to].
    rewrite (mv_pos _ _ _ H7), (mv_pos _ _ _ H6), (mv_pos _ _ _ H5), (mv_pos _ _ _ H4), (mv_pos _ _ _ H3),
      (mv_pos _ _ _ H2), (mv_pos _ _ _ H1), length_app. simpl. lia.
  - cbn [set_ts_name_start ts_flushed ts_nodes]. by rewrite !erase_app, text_nodes_erase.
Qed.
Lemma bool_scanned start line st p acc name e r :
  wf_attr (ABool name e) → scanning acc st p →
  left p = print_attr (ABool name e) ++ r → attr_scanned start line st p acc (ABool name e).
Proof.
  intros [Hn He] (Hq0 & pf & Hpf & Hmf) Hp.
  assert (left p = SP :: name ++ str "?=" ++ print_interp e ++ r) as Hp'.
  { rewrite Hp. unfold print_attr. by rewrite <- app_comm_cons, <- !app_assoc. }
  destruct (leads_name start line st name p _ Hn Hq0 Hp') as (q1 & q & Hl & H1 & H2).
  set (st1 := set_ts_name_start _ st) in Hl.
  assert (left q = str "?=" ++ print_interp e ++ r) as Hq.
  { apply (left_app _ _ _ _ H2). by apply (left_app _ [SP] _ _ H1). }
  destruct (reads_attr_bool line st1 e name (acc ++ [SP]) pf q1 q r) as (st2 & q3 & Hi & H3 & Hq2 & Hf2 & Hns);
    [done|done|by eapply moved_trans; [|exact Hmf|exact H1]|done|by destruct acc|apply Hn|done|done|].
  exists st2, q3. split_and!.
  - eapply (leads_weaken _ _ (S (length name) + 1)).
    { unfold print_attr, print_interp. simpl. rewrite !length_app. simpl. lia. }
    eapply leads_trans; [done|exact Hl|]. apply leads_round; [done|].
    assert (left q = "?"%ch :: "="%ch :: print_interp e ++ r) as Hqc by exact Hq.
    unfold tag_round. apply gives_get. rewrite (at_end_cons _ _ _ Hqc), peek_left, peek_at_left, Hqc.
    cbn [deref nth]. unfold st1 at 1. cbn [set_ts_name_start ts_quote]. rewrite Hq0.
    eapply gives_bind; [exact Hi|apply gives_ret].
  - eapply moved_trans; [|exact H1|eapply moved_trans; [|exact H2|exact H3]]; reflexivity.
  - split; [by rewrite Hq2|]. exists q3. split; [by rewrite Hf2, (mv_pos _ _ _ H3)|apply moved_refl].
  - by rewrite Hns.
Qed.

Lemma one_attr_scanned start line st p acc a r :
  wf_attr a → scanning acc st p → zlen (p_src p) < 2 ^ 64 → left p = print_attr a ++ r →
  attr_scanned start line st p acc a.
Proof.
  intros Ha Hs Hlen Hp. destruct a as [name|name value|name e|name e].
  - by eapply flag_scanned.
  - destruct Ha. by eapply text_scanned.
  - by eapply expr_scanned.
  - by eapply bool_scanned.
Qed.

(** The nodes of the attributes made so far and the text that is pending behind them. *)
Lemma attrs_scanned start line attrs : ∀ st p acc r,
  Forall wf_attr attrs → scanning acc st p → zlen (p_src p) < 2 ^ 64 →
  left p = concat (map print_attr attrs) ++ r →
  ∃ st' q acc', leads (tag_round start line) (length (concat (map print_attr attrs))) st p st' q ∧
    moved p (concat (map print_attr attrs)) q ∧ scanning acc' st' q ∧
    erase (ts_nodes st') ++ [NText 0 (acc' ++ str ">")] = erase (ts_nodes st) ++ tag_nodes acc attrs.
Proof.
  induction attrs as [|a attrs IH]; intros st p acc r Hwf Hs Hlen Hp.
  - exists st, p, acc. split_and!; [apply leads_refl|apply moved_refl|done|done].
  - inversion_clear Hwf as [|?? Ha Hattrs]. simpl in Hp. rewrite <- app_assoc in Hp.
    destruct (one_attr_scanned start line st p acc a _ Ha Hs Hlen Hp) as (st1 & p1 & Hl1 & H1 & Hs1 & Hn1).
    destruct (IH st1 p1 _ r Hattrs Hs1) as (st2 & p2 & acc' & Hl2 & H2 & Hs2 & Hn2).
    { by rewrite (mv_src _ _ _ H1). } { by apply (left_app _ _ _ _ H1). }
    exists st2, p2, acc'. split_and!; [|by eapply moved_trans; [|exact H1|exact H2]|done|].
    + eapply leads_trans; [|exact Hl1|exact Hl2]. by rewrite <- length_app.
    + by rewrite Hn2, Hn1, <- app_assoc.
Qed.

(** From behind the name of a tag to its end. *)
Lemma reads_tag_rest start line name attrs pf p r :
  p_pos pf = start → moved pf (str "<" ++ name) p → Forall wf_attr attrs → zlen (p_src p) < 2 ^ 64 →
  left p = concat (map print_attr attrs) ++ str ">" ++ r →
  reads (cursor_loop (tag_round start line)
          {| ts_quote := 0; ts_flush_to := start; ts_name_start := p_pos p; ts_name_end := p_pos p; ts_nodes := [] |})
    p (concat (map print_attr attrs) ++ str ">") (λ ns, erase ns = tag_nodes (str "<" ++ name) attrs).
Proof.
  intros Hstart Hpf Hwf Hlen Hp. set (st0 := Build_TagScan _ _ _ _ _).
  destruct (attrs_scanned start line attrs st0 p (str "<" ++ name) (str ">" ++ r))
    as (st & q & acc & Hl & Hm & (Hq0 & pf' & Hf' & Hacc) & Hns); [done|split; [done|by exists pf]|done|done|].
  pose proof (left_app _ _ _ _ Hm Hp) as Hq. pose proof (advance_moved _ _ _ Hq) as Ha.
  assert (moved pf' (acc ++ str ">") (advance q)) as Htag by (by eapply moved_trans; [|exact Hacc|exact Ha]).
  destruct (reads_append_slice w Hw pf' (acc ++ str ">") (advance q) (advance q) (ts_flush_to st) (p_pos (advance q)) line)
    as (rest & q' & Hr & Hm' & ->); [done|by apply (mv_src _ _ _ Htag)|done|done|].
  exists (ts_nodes st ++ text_nodes line (acc ++ str ">")), q'. split_and!.
  - eapply (gives_cursor_loop w); [exact Hl|rewrite Hp, length_app; lia|].
    unfold tag_round. apply gives_get. rewrite (at_end_cons _ _ _ Hq), peek_left, Hq. cbn [deref app str].
    rewrite Hq0. simpl. apply gives_modify. eapply gives_bind; [|apply gives_ret]. unfold tag_text.
    apply gives_get. exact Hr.
  - eapply moved_trans; [|exact Hm|by eapply moved_trans; [|exact Ha|exact Hm']]. done.
  - rewrite erase_app, text_nodes_erase by by destruct acc. exact Hns.
Qed.
End Parse.
