(* ===== verification/CtmplRound.v ===== *)
(** * The template compiler: documents are read back

    A well-formed document, written as template text, is parsed by [src/tools/ctmpl.c] to
    the nodes it stands for, wherever it stands in a component. *)

From S2P Require Import Prelude CLib World StateErr Response Tpl Ctmpl CtmplParse CtmplGen CtmplProg CtmplRuns CtmplDoc.
#[local] Open Scope Z_scope.

(** ** Elements *)

(** The last character is none that would make the tag end in [/>]. *)
Definition solid (s : bytes) : Prop := ∃ a c, s = a ++ [c] ∧ c ≠ "/"%ch.

Lemma solid_app s t : solid t → solid (s ++ t).
Proof. intros (a & c & -> & Hc). exists (s ++ a), c. by rewrite app_assoc. Qed.

Lemma solid_chars (f : Z → bool) s : s ≠ [] → Forall (λ c, f c = true) s → f "/"%ch = false → solid s.
Proof.
  intros Hs Hf Hslash. apply last_is_Some in Hs as [c Hc]. apply last_Some in Hc as [a ->].
  exists a, c. split; [done|]. intros ->. apply Forall_app in Hf as [_ Hf]. inversion Hf. congruence.
Qed.

Lemma print_attr_solid a : wf_attr a → solid (print_attr a).
Proof.
  intros Ha. destruct a as [name|name value|name e|name e]; unfold print_attr; simpl in Ha.
  - apply (solid_app [SP]), (solid_chars attr_char); [apply Ha|apply Ha|done].
  - exists (SP :: name ++ str "=" ++ DQUOTE :: value), DQUOTE. split; [|done].
    by rewrite <- app_comm_cons, <- !app_assoc.
  - exists (SP :: name ++ str "=" ++ DQUOTE :: print_interp e), DQUOTE. split; [|done].
    by rewrite <- app_comm_cons, <- !app_assoc.
  - apply (solid_app (SP :: _)). apply (solid_app (str "?=")). exists (str "{ " ++ e ++ [SP]), "}"%ch. split; [|done].
    unfold print_interp. simpl. by rewrite <- !app_assoc.
Qed.

Lemma attrs_solid s attrs : solid s → Forall wf_attr attrs → solid (s ++ concat (map print_attr attrs)).
Proof.
  intros Hs Ha. destruct attrs as [|a attrs] using rev_ind; [by rewrite app_nil_r|].
  apply Forall_app in Ha as [_ Ha]. inversion Ha. subst.
  rewrite map_app, concat_app. simpl. rewrite app_nil_r. by apply solid_app, solid_app, print_attr_solid.
Qed.

(** The element can be read: a name of its own, attributes, and no raw text inside. *)
Definition wf_tag (name : bytes) (attrs : list Attr) : Prop :=
  tag_name name ∧ Forall wf_attr attrs ∧
  strcaseeq name (str "script") = false ∧ strcaseeq name (str "style") = false.

Lemma tag_name_neq name c : tag_name name → is_ident_start c = false → deref name ≠ c.
Proof. intros (H & _) Hc <-. congruence. Qed.

Lemma tag_name_cons name : tag_name name → ∃ c s, name = c :: s.
Proof. destruct name as [|c s]; [by intros (H & _)|eauto]. Qed.

Lemma left_tags tags p : left (set_p_tags tags p) = left p.
Proof. done. Qed.

Lemma moved_tags tags p s q : moved p s q → moved (set_p_tags tags p) s (set_p_tags tags q).
Proof. by intros [? ? ? ? ?]. Qed.

Lemma set_p_tags_id p : set_p_tags (p_tags p) p = p.
Proof. by destruct p. Qed.

Section Parse.
Variable w : World.
Hypothesis Hw : w_alloc w = [].

#[local] Abbreviation gives := (gives w).
#[local] Abbreviation reads := (reads w).

(** The tags that are open behind an opening tag. *)
Definition frame (p : Parser) (name : bytes) : TagFrame := {| tf_name := name; tf_pos := p_pos p; tf_line := p_line p |}.
Definition opened (p : Parser) (name : bytes) : list TagFrame :=
  if is_void_tag name then p_tags p else frame p name :: p_tags p.

(** No slash stands in front of the bracket. *)
Lemma not_self_closing p s q : moved p (s ++ str ">") q → solid s →
  (2 <=? p_pos q)%nat && (nth (p_pos q - 2) (p_src q) NUL =? "/"%ch) &&
    (nth (p_pos q - 1) (p_src q) NUL =? ">"%ch) = false.
Proof.
  intros Hm (a & c & -> & Hc).
  assert (nth (p_pos q - 2) (p_src q) NUL = c) as ->; [|by rewrite (proj2 (Z.eqb_neq _ _) Hc), andb_false_r].
  rewrite (mv_src _ _ _ Hm), (mv_pos _ _ _ Hm), !length_app. simpl.
  replace (p_pos p + (length a + 1 + 1) - 2)%nat with (p_pos p + length a)%nat by lia.
  change (peek_at p (length a) = c). rewrite peek_at_left, (mv_left _ _ _ Hm).
  rewrite <- !app_assoc, app_nth2, Nat.sub_diag by lia. done.
Qed.

Lemma gives_push start line name p q s :
  moved p (s ++ str ">") q → solid s → (is_void_tag name = false → (length (p_tags q) < TAG_STACK_MAX)%nat) →
  gives (push_tag start line name) q tt
    (set_p_tags (if is_void_tag name then p_tags q
                 else {| tf_name := name; tf_pos := start; tf_line := line |} :: p_tags q) q).
Proof.
  intros Hm Hs Hd. unfold push_tag. apply gives_get. destruct (is_void_tag name); [|specialize (Hd eq_refl)].
  { rewrite set_p_tags_id. apply gives_ret. }
  rewrite (not_self_closing _ _ _ Hm Hs), (proj2 (Nat.eqb_neq _ _)) by lia. done.
Qed.

Lemma gives_open_tag name attrs p r :
  wf_tag name attrs → (is_void_tag name = false → (length (p_tags p) < TAG_STACK_MAX)%nat) →
  zlen (p_src p) < 2 ^ 64 →
  left p = print_tag name attrs ++ r →
  ∃ ns q, gives parse_element p ns q ∧ erase ns = tag_nodes (str "<" ++ name) attrs ∧
    moved (set_p_tags (opened p name) p) (print_tag name attrs) q.
Proof.
  intros (Hname & Hattrs & Hscript & Hstyle) Hd Hlen Hp.
  assert (left p = "<"%ch :: name ++ concat (map print_attr attrs) ++ str ">" ++ r) as Hp'.
  { rewrite Hp. unfold print_tag. by rewrite <- !app_assoc. }
  pose proof (advance_moved p _ _ Hp') as H1. pose proof (left_app _ ["<"%ch] _ _ H1 Hp') as Hp1.
  destruct Hname as (Hstart & Hchars & Hmax).
  assert (ends_word is_tag_char (concat (map print_attr attrs) ++ str ">" ++ r)) as Hends.
  { destruct attrs as [|a attrs]; intros c r' [= <- _]; done. }
  destruct (reads_tag_name w name (advance p) _ Hchars Hends Hp1) as (? & p2 & Hread & H2 & ->).
  assert (moved p (str "<" ++ name) p2) as H12 by by eapply moved_trans.
  pose proof (left_app _ _ _ _ H2 Hp1) as Hp2.
  destruct (reads_tag_rest w Hw (p_pos p) (p_line p) name attrs p p2 r)
    as (ns & p3 & Hscan & H3 & Hns); [done|done|done|by rewrite (mv_src _ _ _ H12)|done|].
  assert (moved p ((str "<" ++ name ++ concat (map print_attr attrs)) ++ str ">") p3) as H123.
  { eapply moved_trans; [|exact H12|exact H3]. by rewrite <- !app_assoc. }
  assert (p_tags p3 = p_tags p) as Htags by by rewrite (mv_tags _ _ _ H123).
  exists ns, (set_p_tags (opened p name) p3). split_and!; [|exact Hns|].
  - destruct name as [|c name]; [done|]. cbn [deref] in Hstart.
    unfold parse_element. apply gives_get, gives_modify, gives_get.
    rewrite peek_left, Hp1. cbn [deref app]. rewrite !(neq_of is_ident_start c _ Hstart) by done.
    unfold parse_open_tag. apply gives_get. rewrite peek_left, Hp1. cbn [deref app]. rewrite Hstart. cbn [negb].
    eapply gives_bind; [exact Hread|]. rewrite (proj2 (Nat.ltb_ge _ _)) by done. apply gives_get.
    eapply gives_bind; [exact Hscan|].
    eapply gives_bind; [apply (gives_push _ _ _ _ _ _ H123)|].
    + apply (attrs_solid (str "<" ++ c :: name)); [|done]. apply solid_app.
      apply (solid_chars is_tag_char); [done|by apply forallb_chars|done].
    + by rewrite Htags.
    + rewrite Hscript, Hstyle, Htags. apply gives_ret.
  - apply moved_tags. unfold print_tag. by rewrite <- !app_assoc in H123.
Qed.

(** A closing tag closes the innermost open tag. *)
Lemma gives_close_tag name f tags p r :
  tag_name name → is_void_tag name = false → p_tags p = f :: tags → tf_name f = name →
  left p = close_tag name ++ r →
  ∃ ns q, gives parse_element p ns q ∧ erase ns = [NText 0 (close_tag name)] ∧
    moved (set_p_tags tags p) (close_tag name) q.
Proof.
  intros (Hstart & Hchars & Hmax) Hvoid Htags Hf Hp.
  assert (left p = "<"%ch :: "/"%ch :: name ++ str ">" ++ r) as Hp'.
  { rewrite Hp. unfold close_tag. by rewrite <- !app_assoc. }
  pose proof (advance_moved p _ _ Hp') as H1. pose proof (left_app _ ["<"%ch] _ _ H1 Hp') as Hp1.
  pose proof (advance_moved _ _ _ Hp1) as H2. pose proof (left_app _ ["/"%ch] _ _ H2 Hp1) as Hp2.
  assert (ends_word is_tag_char (str ">" ++ r)) as Hends by (by intros c r' [= <- _]).
  destruct (reads_tag_name w name _ _ Hchars Hends Hp2) as (? & p3 & Hread & H3 & ->).
  pose proof (left_app _ _ _ _ H3 Hp2) as Hp3.
  assert (moved p3 [] (advance_while (λ p, negb (peek p =? ">"%ch)) p3)) as H4.
  { by apply (advance_chars_moved (λ c, negb (c =? ">"%ch)) _ _ _ (str ">" ++ r)); [| | |intros c r' [= <- _]]. }
  set (p4 := advance_while _ p3) in *. pose proof (left_app _ [] _ _ H4 Hp3) as Hp4.
  pose proof (advance_moved _ _ _ Hp4) as H5.
  assert (moved p (close_tag name) (advance p4)) as Hm.
  { eapply moved_trans; [|exact H1|eapply moved_trans; [|exact H2|eapply moved_trans; [|exact H3|
      eapply moved_trans; [|exact H4|exact H5]]]]; reflexivity. }
  destruct (reads_append_slice w Hw p (close_tag name) (advance p4) (set_p_tags tags (advance p4))
    (p_pos p) (p_pos (advance p4)) (p_line p)) as (ns & q & Hns & Hq & ->); [done|by apply (mv_src _ _ _ Hm)|done|done|].
  exists (text_nodes (p_line p) (close_tag name)), q. split_and!; [|by apply text_nodes_erase|].
  - unfold parse_element. apply gives_get, gives_modify, gives_get. rewrite peek_left, Hp1. cbn [deref].
    change ("/"%ch =? "!"%ch) with false. cbn [andb].
    unfold parse_close_tag. apply gives_modify. eapply gives_bind; [exact Hread|].
    eapply gives_bind.
    { unfold skip_to_gt. apply gives_modify, gives_get. fold p4. rewrite (at_end_cons _ _ _ Hp4). reflexivity. }
    eapply gives_bind; [|unfold tag_text; apply gives_get; exact Hns].
    unfold pop_tag. apply gives_get. rewrite bool_decide_eq_false_2 by (by intros ->).
    rewrite Hvoid, (mv_tags _ _ _ Hm), Htags, Hf, strcaseeq_refl. reflexivity.
  - eapply moved_trans; [|apply moved_tags; exact Hm|exact Hq]. by rewrite app_nil_r.
Qed.
(** ** Bodies *)

(** From [p] the parser of bodies takes [n] items, which are written [s] and stand for the
    nodes [ns]; then the tags [tags] are open. *)
Definition parses (n : nat) (tags : list TagFrame) (p : Parser) (s : bytes) (ns : list Node) : Prop :=
  (n ≤ length s)%nat ∧
  ∀ f, (length s ≤ n + f)%nat →
    ∃ ms q, moved (set_p_tags tags p) s q ∧ erase ms = ns ∧
      ∀ rest r, gives (parse_body_fuel f) q rest r → gives (parse_body_fuel (n + f)) p (ms ++ rest) r.

Lemma parses_nil p : parses 0 (p_tags p) p [] [].
Proof.
  split; [done|]. intros f _. exists [], p. rewrite set_p_tags_id. split_and!; [apply moved_refl|done|done].
Qed.

Lemma parses_app n m tags tags' p s t ns ms :
  parses n tags p s ns → (∀ q, moved (set_p_tags tags p) s q → parses m tags' q t ms) → (m ≤ length t)%nat →
  parses (n + m) tags' p (s ++ t) (ns ++ ms).
Proof.
  intros [Hn H1] H2 Hm. split; [rewrite length_app; lia|]. intros f Hf. rewrite length_app in Hf.
  destruct (H1 (m + f)%nat) as (ns' & q & Hq & <- & Hr1); [lia|].
  destruct (H2 q Hq) as [_ Ht]. destruct (Ht f) as (ms' & r & Hr & <- & Hr2); [lia|].
  exists (ns' ++ ms'), r. split_and!; [|apply erase_app|].
  - eapply moved_trans; [done| |exact Hr]. by apply (moved_tags tags' (set_p_tags tags p)).
  - intros rest u Hu. rewrite <- Nat.add_assoc, <- app_assoc. by apply Hr1, Hr2.
Qed.

(** One item. *)
Lemma parses_item tags p s ns :
  s ≠ [] →
  (∀ f, (length s ≤ S f)%nat → ∃ ms q, moved (set_p_tags tags p) s q ∧ erase ms = ns ∧
    gives (parse_item f (parse_body_fuel f)) p (Some ms) q) →
  parses 1 tags p s ns.
Proof.
  intros Hs H. split; [destruct s; [done|simpl; lia]|]. intros f Hf.
  destruct (H f Hf) as (ms & q & Hq & Hns & Hi). exists ms, q. split_and!; [done|done|].
  intros rest r Hr. simpl. eapply gives_bind; [exact Hi|]. eapply gives_bind; [exact Hr|apply gives_ret].
Qed.

(** An item that leaves the tags alone. *)
Lemma parses_reads p s ns :
  s ≠ [] →
  (∀ f, (length s ≤ S f)%nat → reads (parse_item f (parse_body_fuel f)) p s (λ r, ∃ ms, r = Some ms ∧ erase ms = ns)) →
  parses 1 (p_tags p) p s ns.
Proof.
  intros Hs H. apply parses_item; [done|]. intros f Hf.
  destruct (H f Hf) as (r & q & Hr & Hq & ms & -> & Hms). exists ms, q. by rewrite set_p_tags_id.
Qed.

(** A body up to the brace behind it. *)
Lemma reads_to_brace n p s ns r f :
  parses n (p_tags p) p s ns → (length s < f)%nat → left p = s ++ str "}" ++ r →
  reads (parse_body_fuel f) p s (λ ms, erase ms = ns).
Proof.
  intros [Hn H] Hf Hp. destruct (H (f - n)%nat) as (ms & q & Hq & Hms & Hr); [lia|].
  rewrite set_p_tags_id in Hq. pose proof (left_app _ _ _ _ Hq Hp) as Hlq.
  exists ms, q. split_and!; [|done|done]. specialize (Hr [] q). rewrite app_nil_r in Hr.
  replace f with (n + (f - n))%nat by lia. apply Hr.
  destruct (f - n)%nat as [|f'] eqn:E; [lia|]. simpl. apply gives_bind with None q; [|apply gives_ret].
  unfold parse_item. apply gives_get. by rewrite peek_left, Hlq.
Qed.

Lemma reads_block n p s ns r f expected :
  parses n (p_tags p) p s ns → (length s < f)%nat → left p = s ++ str "}" ++ r →
  reads (parse_block (parse_body_fuel f) expected) p (s ++ str "}") (λ ms, erase ms = ns).
Proof.
  intros H Hf Hp. unfold parse_block. eapply reads_bind; [done|by eapply reads_to_brace|].
  cbv beta. intros ms q Hms Hq. pose proof (left_app _ _ _ _ Hq Hp) as Hlq.
  apply reads_get. rewrite peek_left, Hlq. cbn [str app deref].
  eapply (reads_modify w _ _ _ (str "}") []); [done|by apply (advance_moved q "}"%ch r)|intros _]. by apply reads_ret.
Qed.

(** The parser stands inside a component with these parameters, this deep in tags. *)
Record stands (params : option bytes) (depth : nat) (p : Parser) : Prop := {
  st_depth : length (p_tags p) = depth;
  st_params : p_params p = params;
  st_len : zlen (p_src p) < 2 ^ 64;
}.

Lemma moved_stands params depth p s q : moved p s q → stands params depth p → stands params depth q.
Proof. intros [? ? ? ? ?] []. split; congruence. Qed.

(** Wherever [s] stands in front of [after] it is read as the nodes [ns]. *)
Definition readable (params : option bytes) (depth : nat) (s after : bytes) (ns : list Node) : Prop :=
  ∃ n, (n ≤ length s)%nat ∧ ∀ p, left p = s ++ after → stands params depth p → parses n (p_tags p) p s ns.

Lemma reads_body params depth p s ns r f expected :
  readable params depth s (str "}" ++ r) ns → (length s < f)%nat → left p = s ++ str "}" ++ r →
  stands params depth p →
  reads (parse_block (parse_body_fuel f) expected) p (s ++ str "}") (λ ms, erase ms = ns).
Proof. intros (n & _ & H) Hf Hp Hs. eapply reads_block; [by apply H|done|done]. Qed.

Lemma readable_item params depth s after ns :
  s ≠ [] →
  (∀ p f, left p = s ++ after → stands params depth p → (length s ≤ S f)%nat →
     reads (parse_item f (parse_body_fuel f)) p s (λ r, ∃ ms, r = Some ms ∧ erase ms = ns)) →
  readable params depth s after ns.
Proof.
  intros Hs H. exists 1%nat. split; [destruct s; [done|simpl; lia]|]. intros p Hp Hst.
  apply parses_reads; [done|]. intros f Hf. by apply H.
Qed.

(** ** Text *)

Definition text_char (c : Z) : bool := negb (is_special c || (c =? "}"%ch) || (c =? NUL)).

(** Text goes on to a special character and does not begin like a statement. *)
Definition text_ok (text after : bytes) : Prop :=
  text ≠ [] ∧ Forall (λ c, text_char c = true) text ∧ is_special (deref after) = true ∧
  Forall (λ kw, keyword_at (skip_while isspace (text ++ after)) 0 kw = false) [str "else"; str "if"; str "for"].

Lemma special_not c x : is_special c = true → is_special x = false → (c =? x) = false.
Proof. apply neq_of. Qed.

Lemma reads_text p text after f body :
  text_ok text after → left p = text ++ after →
  reads (parse_item f body) p text (λ r, ∃ ms, r = Some ms ∧ erase ms = [NText 0 text]).
Proof.
  intros (Hne & Hchars & Hafter & Hkw) Hp. destruct text as [|c text]; [done|].
  inversion Hchars as [|? ? Hc Htext]; subst.
  unfold parse_item. apply reads_get. rewrite peek_left, Hp. cbn [deref app].
  rewrite !(neq_of text_char c _ Hc) by done. unfold parse_run. apply reads_get. cbv zeta.
  destruct (skip_ws_moved p _ Hp) as (sp & _ & Hsp & Hl).
  assert (∀ kw, keyword_at (p_src p) (p_pos (skip_ws p)) kw = keyword_at (skip_while isspace ((c :: text) ++ after)) 0 kw) as Hk.
  { intros kw. by rewrite <- (mv_src _ _ _ Hsp), keyword_at_left, Hl. }
  rewrite !Forall_cons in Hkw. destruct Hkw as (H1 & H2 & H3 & _). rewrite !Hk, H1, H2, H3.
  pose proof (advance_moved p _ _ Hp) as Ha. pose proof (left_app _ [c] _ _ Ha Hp) as Hp1.
  unfold parse_text. apply reads_get. eapply (reads_modify w _ _ _ [c]); [done|exact Ha|intros _].
  set (g := advance_while _).
  assert (moved (advance p) text (g (advance p))) as Hg.
  { apply (advance_chars_moved text_char _ _ _ after); [done|done|done|].
    intros x r' ->. unfold text_char. cbn [deref] in Hafter. by rewrite Hafter. }
  eapply (reads_modify w _ _ _ text []); [by rewrite app_nil_r|exact Hg|intros _]. apply reads_get.
  pose proof (left_app _ _ _ _ Hg Hp1) as Hp2. rewrite peek_left, Hp2.
  rewrite !(special_not _ _ Hafter) by done.
  assert (moved p (c :: text) (g (advance p))) as Hm by (by eapply moved_trans; [|exact Ha|exact Hg]).
  eapply reads_call; [eapply (reads_append_slice w Hw p (c :: text)); [exact Hm|by apply (mv_src _ _ _ Hm)|done..]|].
  cbv beta. intros ns q -> _. apply reads_ret. eexists. split; [done|]. by apply text_nodes_erase.
Qed.

Lemma reads_item_interp p e r f body :
  expr_ok e → left p = print_interp e ++ r →
  reads (parse_item f body) p (print_interp e)
    (λ r, ∃ ms, r = Some ms ∧ erase ms = [NInterp 0 e CTX_TEXT (streq e (str "children..."))]).
Proof.
  intros He Hp. unfold parse_item. apply reads_get. rewrite peek_left, Hp. cbn [deref app print_interp].
  eapply reads_last; [by apply (reads_interp w Hw CTX_TEXT e p r)|]. cbv beta. intros ns q Hns _.
  apply reads_ret. by exists ns.
Qed.
(** ** Conditions and loops *)

(** An opening brace, a body and the closing brace. *)
Lemma reads_braced {B} params depth s ns p r f expected t (k : list Node → P B) Q :
  readable params depth s (str "}" ++ r) ns → (length s < f)%nat → left p = str "{" ++ s ++ str "}" ++ r →
  stands params depth p →
  (∀ ms q, erase ms = ns → moved p (str "{" ++ s ++ str "}") q → reads (k ms) q t Q) →
  reads (_ ← modify advance; ms ← parse_block (parse_body_fuel f) expected; k ms) p
    (str "{" ++ s ++ str "}" ++ t) Q.
Proof.
  intros Hr Hf Hp Hst Hk. pose proof (advance_moved p _ _ Hp) as Ha.
  eapply (reads_modify w _ _ _ (str "{")); [reflexivity|exact Ha|intros _].
  eapply (reads_bind w _ _ _ (s ++ str "}") t); [by rewrite <- app_assoc| |].
  { eapply reads_body; [exact Hr|done|by apply (left_app _ (str "{") _ _ Ha)|by eapply moved_stands]. }
  cbv beta. intros ms q Hms Hq. apply Hk; [done|]. by eapply moved_trans; [|exact Ha|exact Hq].
Qed.

(** The head of a statement and its branch. *)
Lemma reads_branch {B} params depth e s ns p r f expected t missing (k : bytes → list Node → P B) Q :
  expr_ok e → readable params depth s (str "}" ++ r) ns → (length s < f)%nat →
  left p = SP :: e ++ str " {" ++ s ++ str "}" ++ r → stands params depth p →
  (∀ ms q, erase ms = ns → moved p (SP :: e ++ str " {" ++ s ++ str "}") q → reads (k e ms) q t Q) →
  reads (x ← scan_expr SCAN_TO_BRACE;
         if bool_decide (x = []) then missing
         else _ ← modify advance; _ ← new_node; ms ← parse_block (parse_body_fuel f) expected; k x ms) p
    (SP :: e ++ str " {" ++ s ++ str "}" ++ t) Q.
Proof.
  intros (Hc & Ht & Hne) Hr Hf Hp Hst Hk.
  assert (left p = (SP :: e ++ [SP]) ++ "{"%ch :: s ++ str "}" ++ r) as Hp'.
  { rewrite Hp, <- app_comm_cons, <- app_assoc. reflexivity. }
  eapply (reads_bind w _ _ _ (SP :: e ++ [SP]) (str "{" ++ s ++ str "}" ++ t)).
  { rewrite <- app_comm_cons, <- app_assoc. reflexivity. }
  { apply (reads_scan_to_brace w Hw _ p _ (c_text_padded _ Hc) Hp'). }
  cbv beta. intros x q -> Hq. rewrite trim_padded by done. rewrite bool_decide_eq_false_2 by done.
  pose proof (left_app _ _ _ _ Hq Hp') as Hlq. pose proof (advance_moved _ _ _ Hlq) as Ha.
  pose proof (left_app _ ["{"%ch] _ _ Ha Hlq) as Hla.
  eapply (reads_modify w _ _ _ (str "{")); [reflexivity|exact Ha|intros _].
  eapply reads_call; [by apply reads_new_node|]. intros _ q' _ Hq'.
  eapply (reads_bind w _ _ _ (s ++ str "}") t); [by rewrite <- app_assoc| |].
  { eapply reads_body; [exact Hr|done|by apply (left_app _ [] _ _ Hq')|].
    eapply moved_stands; [exact Hq'|]. eapply moved_stands; [exact Ha|]. by eapply moved_stands. }
  cbv beta. intros ms q2 Hms Hq2. apply Hk; [done|].
  eapply moved_trans; [|exact Hq|eapply moved_trans; [|exact Ha|eapply moved_trans; [|exact Hq'|exact Hq2]]];
    [|reflexivity..]. rewrite <- app_comm_cons, <- app_assoc. reflexivity.
Qed.

Lemma reads_for params depth e s ns p r f :
  expr_ok e → readable params depth s (str "}" ++ r) ns → (length s < f)%nat →
  left p = SP :: e ++ str " {" ++ s ++ str "}" ++ r → stands params depth p →
  reads (parse_for (parse_body_fuel f)) p (SP :: e ++ str " {" ++ s ++ str "}") (λ ms, erase ms = [NFor 0 e ns]).
Proof.
  intros He Hr Hf Hp Hst. unfold parse_for. apply reads_get. rewrite <- (app_nil_r (str "}")) at 1.
  eapply (reads_branch params depth e s ns p r f); [done..|]. intros ms q <- _. by apply reads_ret.
Qed.
(** No keyword stands behind the blanks. *)
Definition no_word (kw r : bytes) : Prop := keyword_at (skip_while isspace r) 0 kw = false.

Lemma gives_no_word {B} kw (k : bool → P B) p x q :
  no_word kw (left p) → gives (k false) (skip_ws p) x q →
  gives (_ ← modify skip_ws; b ← eat_keyword kw; k b) p x q.
Proof.
  intros Hkw Hk. apply gives_modify. destruct (skip_ws_moved p _ eq_refl) as (sp & _ & _ & Hl).
  eapply gives_bind; [|exact Hk]. unfold eat_keyword. apply gives_get. rewrite keyword_at_left, Hl.
  unfold no_word in Hkw. by rewrite Hkw.
Qed.

(** A keyword behind a blank. *)
Lemma reads_word {B} kw (k : bool → P B) p r t Q :
  isspace (deref kw) = false → kw ≠ [] → ends_word is_ident_char r → left p = SP :: kw ++ r →
  (∀ q, moved p (SP :: kw) q → reads (k true) q t Q) →
  reads (_ ← modify skip_ws; b ← eat_keyword kw; k b) p (SP :: kw ++ t) Q.
Proof.
  intros Hsp Hne Hr Hp Hk.
  assert (moved p [SP] (skip_ws p)) as Hm.
  { apply (advance_chars_moved isspace _ _ _ (kw ++ r)); [done|done|by constructor|].
    intros c r' E. destruct kw; [done|]. injection E as <- _. exact Hsp. }
  eapply (reads_modify w _ _ _ [SP]); [reflexivity|exact Hm|intros _].
  pose proof (left_app _ [SP] _ _ Hm Hp) as Hp1.
  eapply reads_bind; [done|by apply (reads_keyword w kw _ r)|]. cbv beta. intros ? q -> Hq.
  apply Hk. by eapply moved_trans; [|exact Hm|exact Hq].
Qed.

Lemma reads_if params depth e s ns p r f fuel :
  expr_ok e → readable params depth s (str "}" ++ r) ns → (length s < f)%nat → no_word (str "else") r →
  left p = SP :: e ++ str " {" ++ s ++ str "}" ++ r → stands params depth p →
  reads (parse_if (S fuel) (parse_body_fuel f)) p (SP :: e ++ str " {" ++ s ++ str "}")
    (λ ms, erase ms = [NIf 0 e ns []]).
Proof.
  intros He Hr Hf Hw' Hp Hst. simpl parse_if. apply reads_get. rewrite <- (app_nil_r (str "}")) at 1.
  eapply (reads_branch params depth e s ns p r f); [done..|]. intros ms q <- Hq. apply reads_get.
  destruct (skip_ws_moved q _ eq_refl) as (sp & _ & Hsp & _).
  exists [NIf (p_line p) e ms []], (rewind q (skip_ws q)). split_and!; [|by eapply rewind_moved|done].
  apply gives_no_word.
  - rewrite (left_app _ _ _ r Hq); [done|]. rewrite Hp, <- app_comm_cons, <- !app_assoc. done.
  - cbn [negb]. apply gives_modify, gives_ret.
Qed.

Lemma reads_if_else params depth e s s' ns ns' p r f fuel :
  expr_ok e → readable params depth s (str "}" ++ str " else {" ++ s' ++ str "}" ++ r) ns →
  readable params depth s' (str "}" ++ r) ns' →
  (length s + length s' < f)%nat →
  left p = SP :: e ++ str " {" ++ s ++ str "}" ++ str " else {" ++ s' ++ str "}" ++ r → stands params depth p →
  reads (parse_if (S fuel) (parse_body_fuel f)) p
    (SP :: e ++ str " {" ++ s ++ str "}" ++ str " else {" ++ s' ++ str "}")
    (λ ms, erase ms = [NIf 0 e ns ns']).
Proof.
  intros He Hr Hr' Hf Hp Hst. simpl parse_if. apply reads_get.
  eapply (reads_branch params depth e s ns p (str " else {" ++ s' ++ str "}" ++ r) f); [done|done|lia|done|done|].
  intros ms q <- Hq. apply reads_get.
  assert (left q = SP :: str "else" ++ SP :: str "{" ++ s' ++ str "}" ++ r) as Hlq.
  { rewrite (left_app _ _ _ (str " else {" ++ s' ++ str "}" ++ r) Hq); [done|].
    rewrite Hp, <- app_comm_cons, <- !app_assoc. done. }
  change (str " else {" ++ s' ++ str "}") with (SP :: str "else" ++ SP :: str "{" ++ s' ++ str "}").
  eapply reads_word; [done|done| |exact Hlq|]; [by intros c r' [= <- _]|]. intros q1 Hq1. cbn [negb].
  assert (left q1 = SP :: str "{" ++ s' ++ str "}" ++ r) as Hl1 by by apply (left_app _ _ _ _ Hq1 Hlq).
  assert (moved q1 [SP] (skip_ws q1)) as Hsp.
  { apply (advance_chars_moved isspace _ _ _ (str "{" ++ s' ++ str "}" ++ r)); [done|done|by constructor|].
    by intros c r' [= <- _]. }
  eapply (reads_modify w _ _ _ [SP]); [reflexivity|exact Hsp|intros _].
  pose proof (left_app _ [SP] _ _ Hsp Hl1) as Hl2.
  eapply reads_call; [apply (reads_no_keyword w (str "if")); by rewrite Hl2|]. cbv beta. intros ? q2 -> H2.
  pose proof (left_app _ [] _ _ H2 Hl2) as Hl3. apply reads_get. rewrite peek_left, Hl3.
  change (deref (str "{" ++ s' ++ str "}" ++ r) =? "{"%ch) with true. cbv iota.
  rewrite <- (app_nil_r (str "}")) at 1.
  eapply (reads_braced params depth s' ns'); [exact Hr'|lia|exact Hl3| |].
  { eapply moved_stands; [exact H2|]. eapply moved_stands; [exact Hsp|]. eapply moved_stands; [exact Hq1|].
    by eapply moved_stands. }
  intros ms' q3 <- _. by apply reads_ret.
Qed.
Lemma skip_ws_here p c r : left p = c :: r → isspace c = false → p_pos (skip_ws p) = p_pos p.
Proof.
  intros Hp Hc. destruct (skip_ws_moved p _ eq_refl) as (sp & E & Hm & _).
  rewrite Hp, skip_while_id in E by done. apply (f_equal length) in E. rewrite length_app in E.
  rewrite (mv_pos _ _ _ Hm). lia.
Qed.

(** The keyword of a statement starts the run. *)
Lemma reads_item_if p s r f body ns :
  left p = str "if" ++ SP :: r → (∀ q, moved p (str "if") q → reads (parse_if f body) q s (λ ms, erase ms = ns)) →
  reads (parse_item f body) p (str "if" ++ s) (λ r, ∃ ms, r = Some ms ∧ erase ms = ns).
Proof.
  intros Hp Hs. unfold parse_item. apply reads_get. rewrite peek_left, Hp. cbn [deref app str].
  unfold parse_run. apply reads_get. cbv zeta. rewrite (skip_ws_here p "i"%ch (str "f" ++ SP :: r)) by done.
  rewrite !keyword_at_left, Hp.
  change (keyword_at (str "if" ++ SP :: r) 0 (str "else")) with false. cbv iota.
  change (keyword_at (str "if" ++ SP :: r) 0 (str "if")) with true. cbv iota.
  eapply (reads_modify w _ _ _ []); [reflexivity|rewrite Nat.sub_diag; apply moved_refl|intros _; rewrite Nat.sub_diag].
  eapply (reads_bind w _ _ _ (str "if") s); [reflexivity|apply (reads_keyword w (str "if") p (SP :: r)); [|done]|].
  { by intros c r' [= <- _]. }
  cbv beta. intros ? q -> Hq. eapply reads_last; [by apply Hs|]. cbv beta. intros ms q' Hms _.
  apply reads_ret. by exists ms.
Qed.

Lemma reads_item_for p s r f body ns :
  left p = str "for" ++ SP :: r → (∀ q, moved p (str "for") q → reads (parse_for body) q s (λ ms, erase ms = ns)) →
  reads (parse_item f body) p (str "for" ++ s) (λ r, ∃ ms, r = Some ms ∧ erase ms = ns).
Proof.
  intros Hp Hs. unfold parse_item. apply reads_get. rewrite peek_left, Hp. cbn [deref app str].
  unfold parse_run. apply reads_get. cbv zeta. rewrite (skip_ws_here p "f"%ch (str "or" ++ SP :: r)) by done.
  rewrite !keyword_at_left, Hp.
  change (keyword_at (str "for" ++ SP :: r) 0 (str "else")) with false. cbv iota.
  change (keyword_at (str "for" ++ SP :: r) 0 (str "if")) with false. cbv iota.
  change (keyword_at (str "for" ++ SP :: r) 0 (str "for")) with true. cbv iota.
  eapply (reads_modify w _ _ _ []); [reflexivity|rewrite Nat.sub_diag; apply moved_refl|intros _; rewrite Nat.sub_diag].
  eapply (reads_bind w _ _ _ (str "for") s); [reflexivity|apply (reads_keyword w (str "for") p (SP :: r)); [|done]|].
  { by intros c r' [= <- _]. }
  cbv beta. intros ? q -> Hq. eapply reads_last; [by apply Hs|]. cbv beta. intros ms q' Hms _.
  apply reads_ret. by exists ms.
Qed.

(** ** Calls *)

Definition argument_ok (x : option bytes) : Prop := match x with Some e => c_text e ∧ trimmed e | None => True end.

(** What may stand behind a call without a block. *)
Definition call_end (args : option bytes) (after : bytes) : Prop :=
  (args = None → ends_word is_ident_char after ∧ deref after ≠ "("%ch) ∧
  no_word (str "with") after ∧ deref (skip_while isspace after) ≠ "{"%ch.

Lemma trim_trimmed e : trimmed e → trim_space e = e.
Proof. intros [H1 H2]. unfold trim_space. by rewrite H1. Qed.

(** An argument in parentheses. *)
Lemma reads_parens {B} e p r t (k : bytes → P B) Q :
  c_text e → trimmed e → left p = str "(" ++ e ++ str ")" ++ r →
  (∀ q, moved p (str "(" ++ e ++ str ")") q → reads (k e) q t Q) →
  reads (_ ← modify advance; x ← scan_expr SCAN_MATCH_PAREN; k x) p (str "(" ++ e ++ str ")" ++ t) Q.
Proof.
  intros Hc Ht Hp Hk. pose proof (advance_moved p _ _ Hp) as Ha.
  eapply (reads_modify w _ _ _ (str "(")); [reflexivity|exact Ha|intros _].
  eapply (reads_bind w _ _ _ (e ++ str ")") t); [by rewrite <- app_assoc| |].
  { apply (reads_scan_match w Hw SCAN_MATCH_PAREN e _ r); [done|done|]. by apply (left_app _ (str "(") _ _ Ha). }
  cbv beta. intros x q -> Hq. rewrite trim_trimmed by done. apply Hk. by eapply moved_trans; [|exact Ha|exact Hq].
Qed.
Lemma reads_args args p r :
  argument_ok args → (args = None → deref r ≠ "("%ch) → left p = print_option [] args ++ r →
  reads (if negb (peek p =? "("%ch) then mret None
         else _ ← modify advance; x ← scan_expr SCAN_MATCH_PAREN; mret (Some x)) p
    (print_option [] args) (λ x, x = args).
Proof.
  intros Ha Hr Hp. rewrite peek_left. destruct args as [e|]; cbn [print_option] in *.
  - destruct Ha as [Hc Ht]. simpl app in Hp.
    assert (left p = str "(" ++ e ++ str ")" ++ r) as Hp' by (rewrite Hp; by rewrite <- app_assoc).
    rewrite Hp'. change (deref (str "(" ++ e ++ str ")" ++ r) =? "("%ch) with true. cbv iota.
    change ([] ++ str "(" ++ e ++ str ")") with (str "(" ++ e ++ str ")" ++ []).
    eapply reads_parens; [done|done|exact Hp'|]. intros q _. by apply reads_ret.
  - simpl in Hp. rewrite Hp, (proj2 (Z.eqb_neq _ _)) by auto. by apply reads_ret.
Qed.

(** The blank in front of a block. *)
Lemma skip_blank p c r : left p = SP :: c :: r → isspace c = false → moved p [SP] (skip_ws p).
Proof.
  intros Hp Hc. apply (advance_chars_moved isspace _ _ _ (c :: r)); [done|done|by constructor|].
  by intros x r' [= <- _].
Qed.

Lemma reads_with save data p r :
  argument_ok data → left p = print_option (str " with ") data ++ str " {" ++ r →
  reads (parse_with save) p (print_option (str " with ") data ++ [SP]) (λ x, x = data).
Proof.
  intros Ha Hp. destruct data as [e|]; cbn [print_option] in *.
  - destruct Ha as [Hc Ht].
    assert (left p = SP :: str "with" ++ SP :: str "(" ++ e ++ str ")" ++ str " {" ++ r) as Hp'.
    { rewrite Hp. by rewrite <- !app_assoc. }
    assert ((str " with " ++ str "(" ++ e ++ str ")") ++ [SP] =
            SP :: str "with" ++ SP :: str "(" ++ e ++ str ")" ++ [SP]) as ->.
    { by rewrite <- !app_assoc. }
    unfold parse_with. eapply reads_word; [done|done| |exact Hp'|]; [by intros c r' [= <- _]|].
    intros q Hq. cbn [negb]. pose proof (left_app _ _ _ _ Hq Hp') as Hlq.
    pose proof (skip_blank _ _ _ Hlq eq_refl) as Hsp. pose proof (left_app _ [SP] _ _ Hsp Hlq) as Hl1.
    eapply (reads_modify w _ _ _ [SP]); [reflexivity|exact Hsp|intros _]. apply reads_get.
    rewrite peek_left, Hl1. change (deref (str "(" ++ e ++ str ")" ++ str " {" ++ r) =? "("%ch) with true.
    cbn [negb]. eapply reads_parens; [done|done|exact Hl1|]. intros q1 Hq1.
    assert (left q1 = str " {" ++ r) as Hl2.
    { apply (left_app _ _ _ _ Hq1). rewrite Hl1. by rewrite <- !app_assoc. }
    pose proof (skip_blank _ _ _ Hl2 eq_refl) as Hsp1.
    eapply (reads_modify w _ _ _ [SP]); [reflexivity|exact Hsp1|intros _]. by apply reads_ret.
  - exists None, (skip_ws p). split_and!; [|by apply (skip_blank p "{"%ch r)|done].
    apply gives_no_word; [|apply gives_ret]. simpl in Hp. unfold no_word. by rewrite Hp.
Qed.

Lemma builtin_check_erase name args data ms : builtin_check name args data (erase ms) = builtin_check name args data ms.
Proof. unfold builtin_check. by destruct ms. Qed.
(** [parse_call] behind the arguments. *)
Definition call_rest (body : P (list Node)) (line : nat) (name : bytes) (args : option bytes) : P (list Node) :=
  save ← get;
  data_expr ← parse_with save;
  p ← get;
  block ← (if peek p =? "{"%ch then
             _ ← modify advance; parse_block body (str "expected '}' to close the child block")
           else _ ← modify (rewind save); mret []);
  match builtin_check name args data_expr block with
  | Some message => perr message
  | None =>
      p ← get;
      _ ← new_node;
      mret [NCall line name args data_expr block (p_params p) None]
  end.

(** The at sign, the name and the arguments. *)
Lemma reads_callee body name args p r t Q :
  is_ident name = true → argument_ok args →
  (args = None → ends_word is_ident_char r ∧ deref r ≠ "("%ch) →
  left p = str "@" ++ name ++ print_option [] args ++ r →
  (∀ line q, moved p (str "@" ++ name ++ print_option [] args) q → reads (call_rest body line name args) q t Q) →
  reads (parse_call body) p (str "@" ++ name ++ print_option [] args ++ t) Q.
Proof.
  intros Hn Ha Hr Hp Hk. pose proof (advance_moved p _ _ Hp) as H1. unfold parse_call.
  eapply (reads_modify w _ _ _ (str "@")); [reflexivity|exact H1|intros _]. apply reads_get. cbv zeta.
  pose proof (left_app _ (str "@") _ _ H1 Hp) as Hl1.
  eapply reads_bind; [done|apply (reads_read_ident w Hw name _ _ Hn) with (2 := Hl1)|].
  { destruct args as [e|]; cbn [print_option]; [by intros c r' [= <- _]|]. by apply Hr. }
  cbv beta. intros ? q -> Hq. apply reads_get. pose proof (left_app _ _ _ _ Hq Hl1) as Hl2.
  eapply reads_bind; [done|by apply (reads_args args q r Ha); [intros E; by apply Hr|]|].
  cbv beta. intros ? q' -> Hq'. apply Hk.
  by eapply moved_trans; [|exact H1|by eapply moved_trans; [|exact Hq|exact Hq']].
Qed.

(** The node of a call. *)
Lemma reads_call_node params depth line name args data ms ns p :
  builtin_check name args data ns = None → erase ms = ns → stands params depth p →
  reads (match builtin_check name args data ms with
         | Some message => perr message
         | None => p ← get; _ ← new_node; mret [NCall line name args data ms (p_params p) None]
         end) p [] (λ r, erase r = [NCall 0 name args data ns params None]).
Proof.
  intros Hb Hms [_ Hp _]. rewrite <- builtin_check_erase, Hms, Hb. apply reads_get.
  eapply reads_call; [by apply reads_new_node|]. intros _ q _ _. apply reads_ret. cbn. by rewrite Hp, <- Hms.
Qed.

Lemma reads_call_block params depth name args data s ns p r f :
  is_ident name = true → argument_ok args → argument_ok data → builtin_check name args data ns = None →
  readable params depth s (str "}" ++ r) ns → (length s < f)%nat → stands params depth p →
  left p = str "@" ++ name ++ print_option [] args ++ print_option (str " with ") data ++ str " {" ++ s ++ str "}" ++ r →
  reads (parse_call (parse_body_fuel f)) p
    (str "@" ++ name ++ print_option [] args ++ print_option (str " with ") data ++ str " {" ++ s ++ str "}")
    (λ ms, erase ms = [NCall 0 name args data ns params None]).
Proof.
  intros Hn Ha Hd Hb Hr Hf Hst Hp.
  eapply reads_callee; [done|done| |exact Hp|].
  { intros _. destruct data; (split; [by intros c r' [= <- _]|done]). }
  intros line q Hq. unfold call_rest. apply reads_get.
  assert (left q = print_option (str " with ") data ++ str " {" ++ s ++ str "}" ++ r) as Hlq.
  { apply (left_app _ _ _ _ Hq). rewrite Hp. by rewrite <- !app_assoc. }
  eapply (reads_bind w _ _ _ (print_option (str " with ") data ++ [SP]) (str "{" ++ s ++ str "}")).
  { by rewrite <- app_assoc. } { by apply (reads_with q data q (s ++ str "}" ++ r)). }
  cbv beta. intros ? q1 -> Hq1. apply reads_get.
  assert (left q1 = str "{" ++ s ++ str "}" ++ r) as Hl1.
  { apply (left_app _ _ _ _ Hq1). rewrite Hlq. by rewrite <- !app_assoc. }
  rewrite peek_left, Hl1. change (deref (str "{" ++ s ++ str "}" ++ r) =? "{"%ch) with true. cbv iota.
  assert (stands params depth q1) as Hst1 by (eapply moved_stands; [exact Hq1|]; by eapply moved_stands).
  pose proof (advance_moved q1 _ _ Hl1) as Ha1.
  eapply reads_last.
  - eapply (reads_modify w _ _ _ (str "{")); [reflexivity|exact Ha1|intros _].
    eapply reads_body; [exact Hr|done|by apply (left_app _ (str "{") _ _ Ha1)|by eapply moved_stands].
  - cbv beta. intros ms q2 Hms Hq2. eapply reads_call_node; [done|done|by eapply moved_stands].
Qed.

Lemma reads_call_plain params depth name args p r body :
  is_ident name = true → argument_ok args → builtin_check name args None [] = None →
  call_end args r → stands params depth p → left p = str "@" ++ name ++ print_option [] args ++ r →
  reads (parse_call body) p (str "@" ++ name ++ print_option [] args)
    (λ ms, erase ms = [NCall 0 name args None [] params None]).
Proof.
  intros Hn Ha Hb (Hargs & Hwith & Hbrace) Hst Hp. rewrite <- (app_nil_r (print_option [] args)).
  eapply reads_callee; [done|done|exact Hargs|exact Hp|]. intros line q Hq.
  assert (left q = r) as Hlq.
  { apply (left_app _ _ _ _ Hq). rewrite Hp. by rewrite <- !app_assoc. }
  destruct (skip_ws_moved q _ eq_refl) as (sp & _ & Hsp & Hl).
  assert (moved q [] (rewind q (skip_ws q))) as Hrw by by eapply rewind_moved.
  destruct (reads_call_node params depth line name args None [] [] (rewind q (skip_ws q)))
    as (x & q' & Hx & Hq' & Hns); [done|done|eapply moved_stands; [exact Hrw|by eapply moved_stands]|].
  exists x, q'. split_and!; [|by eapply moved_trans; [|exact Hrw|exact Hq']|done].
  unfold call_rest. apply gives_get. apply gives_bind with None (skip_ws q).
  { unfold parse_with. apply gives_no_word; [by rewrite Hlq|apply gives_ret]. }
  apply gives_get. rewrite peek_left, Hl, Hlq, (proj2 (Z.eqb_neq _ _)) by done.
  eapply gives_bind; [|exact Hx]. apply gives_modify, gives_ret.
Qed.
Lemma reads_item_call p s r f body ns :
  left p = str "@" ++ r → reads (parse_call body) p s (λ ms, erase ms = ns) →
  reads (parse_item f body) p s (λ r, ∃ ms, r = Some ms ∧ erase ms = ns).
Proof.
  intros Hp Hs. unfold parse_item. apply reads_get. rewrite peek_left, Hp. cbn [deref app str].
  eapply reads_last; [exact Hs|]. cbv beta. intros ms q Hms _. apply reads_ret. by exists ms.
Qed.

(** ** Documents *)

Lemma parses_element_item p s ns tags ms q :
  gives parse_element p ms q → moved (set_p_tags tags p) ("<"%ch :: s) q → erase ms = ns →
  parses 1 tags p ("<"%ch :: s) ns.
Proof.
  intros He Hm Hns. apply parses_item; [done|]. intros f _. exists ms, q. split_and!; [done|done|].
  unfold parse_item. apply gives_get. assert (left p = "<"%ch :: s ++ left q) as Hp by apply (mv_left _ _ _ Hm).
  rewrite peek_left, Hp. cbn [deref].
  change (("<"%ch =? NUL)) with false. change ("<"%ch =? "}"%ch) with false.
  change ("<"%ch =? "<"%ch) with true. cbv iota. eapply gives_bind; [exact He|apply gives_ret].
Qed.

Lemma parses_open params depth name attrs p r :
  wf_tag name attrs → (is_void_tag name = false → (depth < TAG_STACK_MAX)%nat) → stands params depth p →
  left p = print_tag name attrs ++ r →
  parses 1 (opened p name) p (print_tag name attrs) (tag_nodes (str "<" ++ name) attrs).
Proof.
  intros Hwf Hd [Hdep _ Hlen] Hp. rewrite <- Hdep in Hd.
  destruct (gives_open_tag name attrs p r Hwf Hd Hlen Hp) as (ns & q & Hg & Hns & Hm).
  by eapply (parses_element_item p (name ++ concat (map print_attr attrs) ++ str ">")).
Qed.

Lemma readable_void params depth after name attrs :
  wf_tag name attrs → is_void_tag name = true →
  readable params depth (print_tag name attrs) after (tag_nodes (str "<" ++ name) attrs).
Proof.
  intros Hwf Hv. exists 1%nat. split; [simpl; lia|]. intros p Hp Hst.
  assert (opened p name = p_tags p) as <- by (unfold opened; by rewrite Hv).
  eapply parses_open; [done|by rewrite Hv|done|done].
Qed.

Lemma readable_element params depth after name attrs s ns :
  wf_tag name attrs → is_void_tag name = false → (depth < TAG_STACK_MAX)%nat →
  readable params (S depth) s (close_tag name ++ after) ns →
  readable params depth (print_tag name attrs ++ s ++ close_tag name) after
    (tag_nodes (str "<" ++ name) attrs ++ ns ++ [NText 0 (close_tag name)]).
Proof.
  intros Hwf Hv Hd (n & Hn & Hbody). exists (1 + (n + 1))%nat. split.
  { rewrite !length_app. simpl. lia. }
  intros p Hp Hst. rewrite <- !app_assoc in Hp.
  apply (parses_app _ _ (opened p name)); [by eapply parses_open| |rewrite length_app; simpl; lia].
  intros q Hq. assert (opened p name = frame p name :: p_tags p) as Ho by (unfold opened; by rewrite Hv).
  rewrite Ho in Hq. assert (p_tags q = frame p name :: p_tags p) as Htags by by rewrite (mv_tags _ _ _ Hq).
  pose proof (left_app _ _ _ _ Hq Hp) as Hlq.
  assert (stands params (S depth) q) as Hstq.
  { destruct Hst as [<- ? ?]. eapply moved_stands; [exact Hq|]. by split. }
  apply (parses_app _ _ (p_tags q)); [by apply Hbody| |simpl; lia]. intros q1 Hq1. rewrite set_p_tags_id in Hq1.
  pose proof (left_app _ _ _ _ Hq1 Hlq) as Hl1.
  destruct (gives_close_tag name (frame p name) (p_tags p) q1 after) as (ms & q2 & Hg & Hms & Hm);
    [apply Hwf|done|by rewrite (mv_tags _ _ _ Hq1)|done|done|].
  by eapply (parses_element_item q1 (str "/" ++ name ++ str ">")).
Qed.
End Parse.

(** Well-formed documents, this deep in tags and in front of [after]. *)
Inductive wf_doc : nat → bytes → Doc → Prop :=
  | wf_text depth after text : text_ok text after → wf_doc depth after (DText text)
  | wf_void depth after name attrs :
      wf_tag name attrs → is_void_tag name = true → wf_doc depth after (DVoid name attrs)
  | wf_elem depth after name attrs body :
      wf_tag name attrs → is_void_tag name = false → (depth < TAG_STACK_MAX)%nat →
      wf_docs (S depth) (close_tag name ++ after) body → wf_doc depth after (DElem name attrs body)
  | wf_interp depth after e : expr_ok e → e ≠ str "children..." → wf_doc depth after (DInterp e)
  | wf_children depth after : wf_doc depth after DChildren
  | wf_call depth after name args data block :
      is_ident name = true → argument_ok args → argument_ok data →
      builtin_check name args data (docs_nodes None block) = None →
      (block = [] → data = None ∧ call_end args after) →
      wf_docs depth (str "}" ++ after) block → wf_doc depth after (DCall name args data block)
  | wf_if depth after cond then_ otherwise :
      expr_ok cond → (otherwise = [] → no_word (str "else") after) →
      wf_docs depth (str "}" ++ print_else otherwise ++ after) then_ →
      wf_docs depth (str "}" ++ after) otherwise → wf_doc depth after (DIf cond then_ otherwise)
  | wf_for depth after head body :
      expr_ok head → wf_docs depth (str "}" ++ after) body → wf_doc depth after (DFor head body)
with wf_docs : nat → bytes → list Doc → Prop :=
  | wf_nil depth after : wf_docs depth after []
  | wf_cons depth after d ds :
      wf_doc depth (print_docs ds ++ after) d → wf_docs depth after ds → wf_docs depth after (d :: ds).

Scheme wf_doc_mut := Induction for wf_doc Sort Prop
  with wf_docs_mut := Induction for wf_docs Sort Prop.
Combined Scheme wf_mut from wf_doc_mut, wf_docs_mut.

Lemma c_text_plain e : forallb plain_c e = true → c_text e.
Proof. induction e as [|c e IH]; simpl; [constructor|]. intros [H1 H2]%andb_true_iff. constructor; auto. Qed.

Lemma tag_nodes_cons acc attrs : ∃ n ns, tag_nodes acc attrs = n :: ns.
Proof.
  revert acc. induction attrs as [|a attrs IH]; intros acc; simpl; [eauto|].
  destruct (IH (attr_nodes acc a).2) as (n & ns & ->). destruct (attr_nodes acc a).1; simpl; eauto.
Qed.

Lemma doc_nodes_cons params d : ∃ n ns, doc_nodes params d = n :: ns.
Proof.
  destruct d; cbn [doc_nodes]; eauto; destruct (tag_nodes_cons (str "<" ++ name) attrs) as (n & ns & ->); simpl; eauto.
Qed.

(** Whether a builtin is used as it may be does not depend on the parameters. *)
Lemma builtin_check_params name args data params ds :
  builtin_check name args data (docs_nodes params ds) = builtin_check name args data (docs_nodes None ds).
Proof.
  destruct ds as [|d ds]; [done|]. unfold docs_nodes. simpl.
  destruct (doc_nodes_cons params d) as (n & ns & ->), (doc_nodes_cons None d) as (m & ms & ->). done.
Qed.

(** The length of a piece from the length [H] of the whole. *)
Ltac lens H := repeat (progress (rewrite ?length_app in H; simpl in H)); lia.

Section Documents.
Variable w : World.
Hypothesis Hw : w_alloc w = [].
Variable params : option bytes.
Variable depth : nat.
Variable after : bytes.

Lemma readable_call name args data block :
  is_ident name = true → argument_ok args → argument_ok data →
  builtin_check name args data (docs_nodes None block) = None →
  (block = [] → data = None ∧ call_end args after) →
  readable w params depth (print_docs block) (str "}" ++ after) (docs_nodes params block) →
  readable w params depth (print_doc (DCall name args data block)) after (doc_nodes params (DCall name args data block)).
Proof.
  intros Hn Ha Hd Hb Hend IH.
  apply readable_item; [done|].
  intros p f Hp Hst Hf. eapply (reads_item_call w p _ _ f _ _ Hp). rewrite <- (builtin_check_params _ _ _ params) in Hb.
  cbn [print_doc doc_nodes] in *. fold (print_docs block) (docs_nodes params block) in *.
  destruct (decide (block = [])) as [->|Hne].
  - destruct (Hend eq_refl) as [-> Hend']. rewrite bool_decide_eq_true_2 in * by done.
    cbn [print_option docs_nodes map concat app] in *. rewrite !app_nil_r in *.
    apply (reads_call_plain w Hw params depth name args p after); [done..|].
    by rewrite Hp, <- !app_assoc.
  - rewrite bool_decide_eq_false_2 in * by done.
    eapply (reads_call_block w Hw params depth name args data); [done..|exact IH| |done|].
    + by lens Hf.
    + rewrite Hp. by rewrite <- !app_assoc.
Qed.

Lemma readable_if cond then_ otherwise :
  expr_ok cond → (otherwise = [] → no_word (str "else") after) →
  readable w params depth (print_docs then_) (str "}" ++ print_else otherwise ++ after) (docs_nodes params then_) →
  readable w params depth (print_docs otherwise) (str "}" ++ after) (docs_nodes params otherwise) →
  readable w params depth (print_doc (DIf cond then_ otherwise)) after (doc_nodes params (DIf cond then_ otherwise)).
Proof.
  intros He Hend IH1 IH2.
  apply readable_item; [done|].
  intros p f Hp Hst Hf. cbn [print_doc] in *. fold (print_docs then_) (print_docs otherwise) in *.
  assert (∀ r, str "if " ++ cond ++ r = str "if" ++ SP :: cond ++ r) as E by done.
  rewrite E in *. clear E. destruct f as [|f]; [simpl in Hf; lia|].
  unfold print_else, print_block in IH1. destruct (decide (otherwise = [])) as [->|Ho].
  - rewrite bool_decide_eq_true_2 in * by done. rewrite app_nil_r in *.
    apply (reads_item_if w p _ (cond ++ (str " {" ++ print_docs then_ ++ str "}") ++ after)).
    { by rewrite Hp, <- app_assoc, <- app_comm_cons, <- app_assoc. }
    intros q Hq. apply (reads_if w Hw params depth cond (print_docs then_) _ q after (S f) f);
      [done|done|by lens Hf|by apply Hend| |by eapply moved_stands].
    apply (left_app _ _ _ _ Hq). by rewrite Hp, <- !app_assoc, <- app_comm_cons, <- !app_assoc.
  - rewrite bool_decide_eq_false_2 in * by done.
    apply (reads_item_if w p _ (cond ++ (str " {" ++ print_docs then_ ++ str "}") ++
      (str " else" ++ str " {" ++ print_docs otherwise ++ str "}") ++ after)).
    { by rewrite Hp, <- !app_assoc, <- app_comm_cons, <- !app_assoc. }
    intros q Hq. rewrite <- !app_assoc. apply (reads_if_else w Hw params depth cond (print_docs then_) (print_docs otherwise) _ _ q after (S f) f);
      [done|by rewrite <- !app_assoc in IH1|done|by lens Hf| |by eapply moved_stands].
    apply (left_app _ _ _ _ Hq). by rewrite Hp, <- !app_assoc, <- app_comm_cons, <- !app_assoc.
Qed.

Lemma readable_for head body :
  expr_ok head → readable w params depth (print_docs body) (str "}" ++ after) (docs_nodes params body) →
  readable w params depth (print_doc (DFor head body)) after (doc_nodes params (DFor head body)).
Proof.
  intros He IH.
  apply readable_item; [done|]. intros p f Hp Hst Hf.
  change (print_doc (DFor head body)) with (str "for" ++ SP :: head ++ str " {" ++ print_docs body ++ str "}") in *.
  assert (left p = str "for" ++ SP :: head ++ str " {" ++ print_docs body ++ str "}" ++ after) as Hp'.
  { rewrite Hp. rewrite <- !app_assoc, <- app_comm_cons, <- !app_assoc. done. }
  apply (reads_item_for w p _ (head ++ str " {" ++ print_docs body ++ str "}" ++ after)); [done|].
  intros q Hq. apply (reads_for w Hw params depth head (print_docs body) _ q after f);
    [done|done|by lens Hf|by apply (left_app _ _ _ _ Hq)|by eapply moved_stands].
Qed.

Lemma readable_cons d ds :
  readable w params depth (print_doc d) (print_docs ds ++ after) (doc_nodes params d) →
  readable w params depth (print_docs ds) after (docs_nodes params ds) →
  readable w params depth (print_docs (d :: ds)) after (docs_nodes params (d :: ds)).
Proof.
  intros (n & Hn & H1) (m & Hm & H2). exists (n + m)%nat.
  change (print_docs (d :: ds)) with (print_doc d ++ print_docs ds).
  change (docs_nodes params (d :: ds)) with (doc_nodes params d ++ docs_nodes params ds).
  split; [rewrite length_app; lia|]. intros p Hp Hst. rewrite <- app_assoc in Hp.
  apply (parses_app _ _ _ (p_tags p)); [by apply H1| |done]. intros q Hq. rewrite set_p_tags_id in Hq.
  rewrite <- (mv_tags _ _ _ Hq). apply H2; [by apply (left_app _ _ _ _ Hq)|by eapply moved_stands].
Qed.
End Documents.

(** Every well-formed document is read back. *)
Lemma docs_readable w params : w_alloc w = [] →
  (∀ depth after d, wf_doc depth after d → readable w params depth (print_doc d) after (doc_nodes params d)) ∧
  (∀ depth after ds, wf_docs depth after ds → readable w params depth (print_docs ds) after (docs_nodes params ds)).
Proof.
  intros Hw. apply wf_mut.
  - intros depth after text Ht. apply readable_item; [apply Ht|]. intros p f Hp _ _. by eapply reads_text.
  - intros depth after name attrs Ht Hv. by apply readable_void.
  - intros depth after name attrs body Ht Hv Hd _ IH. by apply readable_element.
  - intros depth after e He Hch. apply readable_item; [done|]. intros p f Hp _ _.
    destruct (streq e (str "children...")) eqn:E; [by apply streq_true in E|].
    eapply reads_mono; [by eapply reads_item_interp|]. cbv beta. by rewrite E.
  - intros depth after. apply readable_item; [done|]. intros p f Hp _ _.
    apply (reads_item_interp w Hw p (str "children...") after); [|done].
    split_and!; [by apply c_text_plain|done|done].
  - intros depth after name args data block Hn Ha Hd Hb Hend _ IH. by apply readable_call.
  - intros depth after cond then_ otherwise He Hend _ IH1 _ IH2. by apply readable_if.
  - intros depth after head body He _ IH. by apply readable_for.
  - intros depth after. exists 0%nat. split; [done|]. intros p _ _. apply parses_nil.
  - intros depth after d ds _ H1 _ H2. by apply readable_cons.
Qed.
