(* ===== verification/CtmplUnit.v ===== *)
(** * The template compiler: files are read back and mean what they say

    A [.thtml] file that is written from documents is parsed by [src/tools/ctmpl.c] to
    the components it describes, and the compiled program renders them. *)

From S2P Require Import Prelude CLib World StateErr Response Tpl Ctmpl CtmplParse CtmplGen CtmplProg CtmplSem CtmplOut CtmplRuns CtmplDoc CtmplRound.
#[local] Open Scope Z_scope.

(** ** Files *)

(** A line of the C preprocessor, a handle of [@once], a component. *)
Inductive Decl :=
  | DeclHash (line : bytes)
  | DeclOnce (name : bytes)
  | DeclComponent (name params : bytes) (body : list Doc).

Definition decl_text (d : Decl) : bytes :=
  match d with
  | DeclHash line => str "#" ++ line
  | DeclOnce name => str "once " ++ name
  | DeclComponent name params body =>
      str "component " ++ name ++ str "(" ++ params ++ str ") {" ++ print_docs body ++ str "}"
  end.

Definition print_file (ds : list Decl) : bytes := concat (map (λ d, decl_text d ++ [LF]) ds).

Definition erase_component (c : Component) : Component :=
  {| c_name := c_name c; c_params := c_params c; c_line := 0; c_body := erase (c_body c) |}.

Definition decl_component (d : Decl) : list Component :=
  match d with
  | DeclComponent name params body =>
      [{| c_name := name; c_params := params; c_line := 0; c_body := docs_nodes (Some params) body |}]
  | _ => []
  end.
Definition decl_hash (d : Decl) : list bytes := match d with DeclHash line => [str "#" ++ line] | _ => [] end.
Definition decl_once (d : Decl) : list bytes := match d with DeclOnce name => [name] | _ => [] end.

Definition collect {A} (f : Decl → list A) (ds : list Decl) : list A := concat (map f ds).

(** What was read describes the file, up to lines. *)
Definition describes (u : Unit) (ds : list Decl) : Prop :=
  map erase_component (u_comps u) = collect decl_component ds ∧
  u_hash u = collect decl_hash ds ∧ u_once u = collect decl_once ds.

(** In front of [after]. *)
Definition wf_decl (d : Decl) (after : bytes) : Prop :=
  match d with
  | DeclHash line => Forall (λ c, c ≠ LF) line
  | DeclOnce name => is_ident name = true
  | DeclComponent name params body =>
      is_ident name = true ∧ name_is_reserved name = false ∧ c_text params ∧ trimmed params ∧
      wf_docs 0 (str "}" ++ after) body
  end.

Fixpoint wf_decls (ds : list Decl) : Prop :=
  match ds with [] => True | d :: ds => wf_decl d (LF :: print_file ds) ∧ wf_decls ds end.

(** A handle is declared once, and there is a component. *)
Definition wf_file (ds : list Decl) : Prop :=
  wf_decls ds ∧ NoDup (collect decl_once ds) ∧ collect decl_component ds ≠ [] ∧ zlen (print_file ds) < 2 ^ 64.

Lemma collect_snoc {A} (f : Decl → list A) ds d : collect f (ds ++ [d]) = collect f ds ++ f d.
Proof. unfold collect. rewrite map_app, concat_app. simpl. by rewrite app_nil_r. Qed.

Lemma collect_app {A} (f : Decl → list A) ds es : collect f (ds ++ es) = collect f ds ++ collect f es.
Proof. unfold collect. by rewrite map_app, concat_app. Qed.

Lemma ident_start_not_space c : is_ident_start c = true → isspace c = false.
Proof.
  intros H. apply attr_char_not_space. revert H.
  unfold attr_char, is_tag_char, is_ident_char, is_ident_start, isalnum, isalpha.
  rewrite !orb_true_iff. tauto.
Qed.

Section Unit.
Variable w : World.
Hypothesis Hw : w_alloc w = [].

#[local] Abbreviation gives := (gives w).
#[local] Abbreviation reads := (reads w).
#[local] Abbreviation leads := (leads w).

(** ** Between declarations *)

Lemma reads_skip_blanks s p r :
  Forall (λ c, isspace c = true) s → isspace (deref r) = false → deref r ≠ "/"%ch → left p = s ++ r →
  reads skip_ws_comments p s (λ _, True).
Proof.
  intros Hs Hr Hslash Hp. unfold skip_ws_comments. set (body := λ _ : unit, _ : P (unit + unit)).
  destruct (leads_chars w body tt isspace s) with p r as (q & Hl & Hm); [|done|done|].
  { intros p' c r' Hc Hp'. unfold body. apply gives_get. rewrite peek_left, Hp'. cbn [deref]. rewrite Hc.
    by apply gives_modify. }
  exists tt, q. split_and!; [|done|done]. eapply (gives_cursor_loop w); [exact Hl|rewrite Hp, length_app; lia|].
  unfold body. apply gives_get. rewrite peek_left, (left_app _ _ _ _ Hm Hp), Hr, (proj2 (Z.eqb_neq _ _)) by done.
  done.
Qed.

(** The parser between declarations. *)
Definition outside (p : Parser) : Prop := p_params p = None ∧ p_tags p = [] ∧ zlen (p_src p) < 2 ^ 64.

Lemma moved_outside p s q : moved p s q → outside p → outside q.
Proof. intros [? ? ? ? ?] (? & ? & ?). split_and!; congruence. Qed.

Lemma moved_params x p s q : moved p s q → moved (set_p_params x p) s (set_p_params x q).
Proof. by intros [? ? ? ? ?]. Qed.

Lemma gives_parse_body p ns q : gives (parse_body_fuel (S (remaining p))) p ns q → gives parse_body p ns q.
Proof.
  assert (parse_body p = parse_body_fuel (S (remaining p)) p) as E by reflexivity.
  unfold CtmplRuns.gives. intros H. by rewrite E.
Qed.

Lemma reads_component_body params ds p r :
  wf_docs 0 (str "}" ++ r) ds → outside p → left p = print_docs ds ++ str "}" ++ r →
  reads (parse_component_body params) p (print_docs ds ++ str "}") (λ ns, erase ns = docs_nodes (Some params) ds).
Proof.
  intros Hwf (Hparams & Htags & Hlen) Hp. unfold parse_component_body.
  set (p1 := set_p_tags [] (set_p_params (Some params) p)).
  assert (stands (Some params) 0 p1) as Hst by by split.
  destruct (proj2 (docs_readable w (Some params) Hw) 0%nat _ _ Hwf) as (n & _ & Hread).
  pose proof (Hread p1 Hp Hst) as Hparses.
  destruct (reads_to_brace w n p1 (print_docs ds) _ r (S (remaining p1)) Hparses) as (ms & q & Hg & Hq & Hms).
  { rewrite remaining_left. change (left p1) with (left p). rewrite Hp, length_app. lia. } { done. }
  assert (moved p (print_docs ds) (set_p_params None q)) as Hm.
  { destruct Hq as [? ? Hqt ? ?]. split; [done|done| |done..]. by rewrite Htags. }
  pose proof (left_app _ _ _ _ Hm Hp) as Hl. pose proof (advance_moved _ _ _ Hl) as Ha.
  exists ms, (advance (set_p_params None q)). split_and!; [|by eapply moved_trans|done].
  apply gives_modify, (gives_bind w _ _ p1 ms q); [by apply gives_parse_body|]. apply gives_modify, gives_get.
  rewrite (mv_tags _ _ _ Hm), Htags, peek_left, Hl. cbn [str app deref].
  change (negb ("}"%ch =? "}"%ch)) with false. cbv iota. apply gives_modify, gives_ret.
Qed.
(** ** Components *)

Lemma reads_component line name params body p r :
  wf_decl (DeclComponent name params body) r → outside p →
  left p = SP :: name ++ str "(" ++ params ++ str ") {" ++ print_docs body ++ str "}" ++ r →
  reads (parse_component line) p (SP :: name ++ str "(" ++ params ++ str ") {" ++ print_docs body ++ str "}")
    (λ c, [erase_component c] = decl_component (DeclComponent name params body)).
Proof.
  intros (Hn & Hres & Hc & Ht & Hwf) Hout Hp. unfold parse_component.
  assert (moved p [SP] (skip_ws p)) as H1.
  { destruct name as [|c name]; [done|]. simpl in Hn. apply andb_true_iff in Hn as [Hn _].
    eapply skip_blank; [exact Hp|]. by apply ident_start_not_space. }
  pose proof (left_app _ [SP] _ _ H1 Hp) as Hl1.
  eapply (reads_modify w _ _ _ [SP]); [reflexivity|exact H1|intros _].
  eapply reads_bind; [done|apply (reads_read_ident w Hw name _ _ Hn) with (2 := Hl1)|]; [by intros c r' [= <- _]|].
  cbv beta. intros ? q2 -> H2. rewrite Hres. pose proof (left_app _ _ _ _ H2 Hl1) as Hl2.
  assert (moved q2 [] (skip_ws q2)) as H3.
  { apply (advance_chars_moved isspace _ _ _ (left q2)); [done|done|done|]. rewrite Hl2. by intros c r' [= <- _]. }
  eapply (reads_modify w _ _ _ []); [reflexivity|exact H3|intros _]. apply reads_get.
  pose proof (left_app _ [] _ _ H3 Hl2) as Hl3. rewrite peek_left, Hl3. cbn [str app deref].
  change (negb ("("%ch =? "("%ch)) with false. cbv iota.
  change (str "(" ++ params ++ str ") {" ++ print_docs body ++ str "}" ++ r) with
    (str "(" ++ params ++ str ")" ++ str " {" ++ print_docs body ++ str "}" ++ r) in Hl3.
  eapply (reads_parens w Hw params _ _ (str " {" ++ print_docs body ++ str "}")); [done|done|exact Hl3|].
  intros q4 H4. assert (left q4 = SP :: str "{" ++ print_docs body ++ str "}" ++ r) as Hl4.
  { apply (left_app _ _ _ _ H4). rewrite Hl3. by rewrite <- !app_assoc. }
  pose proof (skip_blank _ _ _ Hl4 eq_refl) as H5. pose proof (left_app _ [SP] _ _ H5 Hl4) as Hl5.
  eapply (reads_modify w _ _ _ [SP]); [reflexivity|exact H5|intros _]. apply reads_get.
  rewrite peek_left, Hl5. change (negb (deref (str "{" ++ print_docs body ++ str "}" ++ r) =? "{"%ch)) with false.
  cbv iota. pose proof (advance_moved _ _ _ Hl5) as H6. pose proof (left_app _ (str "{") _ _ H6 Hl5) as Hl6.
  eapply (reads_modify w _ _ _ (str "{")); [reflexivity|exact H6|intros _].
  eapply reads_call; [by apply reads_alloc|]. cbv beta. intros ? q7 -> H7.
  eapply reads_call; [by apply reads_track|]. cbv beta. intros ? q8 -> H8. cbn [negb].
  eapply reads_last.
  { apply (reads_component_body params body q8 r Hwf).
    - do 4 (eapply moved_outside; [eassumption|]). do 4 (eapply moved_outside; [eassumption|]). done.
    - by apply (left_app _ [] _ _ H8), (left_app _ [] _ _ H7). }
  cbv beta. intros ns q9 Hns _. apply reads_ret. unfold erase_component, decl_component. simpl. by rewrite Hns.
Qed.
(** ** Declarations *)

Lemma reads_grow p : reads grow_array p [] (λ _, True).
Proof. unfold grow_array. eapply reads_call; [by apply reads_alloc|]. cbv beta. intros ? q -> _. by apply reads_ret. Qed.

Lemma reads_hash u line p r :
  Forall (λ c, c ≠ LF) line → left p = (str "#" ++ line) ++ LF :: r →
  reads (parse_hash_line u) p (str "#" ++ line)
    (λ u', u' = {| u_comps := u_comps u; u_hash := u_hash u ++ [str "#" ++ line]; u_once := u_once u |}).
Proof.
  intros Hl Hp. unfold parse_hash_line. apply reads_get. set (g := advance_while _).
  assert (moved p (str "#" ++ line) (g p)) as Hm.
  { apply (advance_chars_moved (λ c, negb (c =? LF)) _ _ _ (LF :: r)); [done|done| |by intros c r' [= <- _]].
    constructor; [done|]. eapply Forall_impl; [exact Hl|]. intros c Hc. cbv beta. by rewrite (proj2 (Z.eqb_neq _ _)). }
  eapply (reads_modify w _ _ _ _ []); [by rewrite app_nil_r|exact Hm|intros _]. apply reads_get.
  unfold p_dup_raw. rewrite (proj2 (Nat.ltb_ge _ _)) by (rewrite (mv_pos _ _ _ Hm); lia).
  eapply reads_call; [apply reads_get, (reads_p_dup w Hw)|]. cbv beta. intros ? q -> _.
  rewrite (slice_moved _ _ _ Hm). eapply reads_call; [apply reads_grow|]. intros _ q' _ _. by apply reads_ret.
Qed.

Lemma reads_once u name p r :
  is_ident name = true → name ∉ u_once u → left p = SP :: name ++ LF :: r →
  reads (parse_once u) p (SP :: name)
    (λ u', u' = {| u_comps := u_comps u; u_hash := u_hash u; u_once := u_once u ++ [name] |}).
Proof.
  intros Hn Hnew Hp. unfold parse_once.
  assert (moved p [SP] (skip_ws p)) as H1.
  { destruct name as [|c name]; [done|]. simpl in Hn. apply andb_true_iff in Hn as [Hn _].
    eapply skip_blank; [exact Hp|]. by apply ident_start_not_space. }
  pose proof (left_app _ [SP] _ _ H1 Hp) as Hl1.
  eapply (reads_modify w _ _ _ [SP]); [reflexivity|exact H1|intros _].
  eapply reads_last; [apply (reads_read_ident w Hw name _ _ Hn) with (2 := Hl1)|]; [by intros c r' [= <- _]|].
  cbv beta. intros ? q2 -> H2.
  assert (existsb (λ o, streq o name) (u_once u) = false) as ->.
  { apply not_true_iff_false. intros (o & Ho & E)%existsb_exists. apply streq_true in E as ->.
    by apply Hnew, list_elem_of_In. }
  eapply reads_call; [apply reads_grow|]. intros _ q' _ _. by apply reads_ret.
Qed.

(** What a declaration adds. *)
Definition adds (u : Unit) (d : Decl) (u' : Unit) : Prop :=
  map erase_component (u_comps u') = map erase_component (u_comps u) ++ decl_component d ∧
  u_hash u' = u_hash u ++ decl_hash d ∧ u_once u' = u_once u ++ decl_once d.

Lemma reads_round u d sp p r :
  wf_decl d (LF :: r) → Forall (λ o, o ∉ u_once u) (decl_once d) → Forall (λ c, isspace c = true) sp →
  outside p → left p = sp ++ decl_text d ++ LF :: r →
  reads (unit_round u) p (sp ++ decl_text d) (λ x, ∃ u', x = inl u' ∧ adds u d u').
Proof.
  intros Hwf Hnew Hsp Hout Hp. unfold unit_round.
  assert (isspace (deref (decl_text d ++ LF :: r)) = false ∧ deref (decl_text d ++ LF :: r) ≠ "/"%ch) as [Hd1 Hd2].
  { by destruct d. }
  eapply reads_bind; [done|by apply (reads_skip_blanks sp p (decl_text d ++ LF :: r))|].
  intros _ q _ Hq. pose proof (left_app _ _ _ _ Hq Hp) as Hl. apply reads_get.
  destruct d as [line|name|name params body]; cbn [decl_text] in *.
  - rewrite (at_end_cons q "#"%ch (line ++ LF :: r) Hl), peek_left, Hl.
    change (deref ((str "#" ++ line) ++ LF :: r) =? "#"%ch) with true. cbv iota.
    eapply reads_last; [by apply (reads_hash u line q r)|]. cbv beta. intros ? q' -> _. apply reads_ret.
    eexists. split; [done|]. split_and!; simpl; by rewrite ?app_nil_r.
  - rewrite (at_end_cons q "o"%ch (str "nce " ++ name ++ LF :: r) Hl), peek_left, Hl.
    change (deref ((str "once " ++ name) ++ LF :: r) =? "#"%ch) with false. cbv iota.
    eapply (reads_bind w _ _ _ (str "once") (SP :: name)); [done| |].
    { apply (reads_keyword w (str "once") q (SP :: name ++ LF :: r)); [by intros c r' [= <- _]|done]. }
    cbv beta. intros ? q1 -> H1. inversion_clear Hnew as [|? ? Hnew' _].
    eapply reads_last; [apply (reads_once u name q1 r); [done|exact Hnew'|]|].
    { apply (left_app _ (str "once") _ _ H1). exact Hl. }
    cbv beta. intros ? q' -> _. apply reads_ret. eexists. split; [done|]. split_and!; simpl; by rewrite ?app_nil_r.
  - set (rest := str "(" ++ params ++ str ") {" ++ print_docs body ++ str "}").
    assert (left q = str "component" ++ SP :: name ++ rest ++ LF :: r) as Hl'.
    { rewrite Hl. unfold rest. by rewrite <- !app_assoc. }
    rewrite (at_end_cons q "c"%ch (str "omponent" ++ SP :: name ++ rest ++ LF :: r) Hl'), peek_left, Hl'.
    change (deref (str "component" ++ SP :: name ++ rest ++ LF :: r) =? "#"%ch) with false. cbv iota zeta.
    eapply reads_call; [apply (reads_no_keyword w (str "once")); by rewrite Hl'|]. cbv beta. intros ? q1 -> H1.
    pose proof (left_app _ [] _ _ H1 Hl') as Hl1.
    eapply (reads_bind w _ _ _ (str "component") (SP :: name ++ rest)); [done| |].
    { apply (reads_keyword w (str "component") q1 (SP :: name ++ rest ++ LF :: r)); [by intros c r' [= <- _]|done]. }
    cbv beta. intros ? q2 -> H2. cbn [negb].
    eapply reads_last; [apply (reads_component _ name params body q2 (LF :: r)); [done| |]|].
    { eapply moved_outside; [exact H2|]. eapply moved_outside; [exact H1|]. by eapply moved_outside. }
    { rewrite (left_app _ _ _ _ H2 Hl1). unfold rest. by rewrite <- !app_assoc. }
    cbv beta. intros c q' Hc _. apply reads_ret. eexists. split; [done|].
    split_and!; cbn [u_comps u_hash u_once]; [rewrite map_app; by rewrite <- Hc|by rewrite app_nil_r..].
Qed.
Lemma adds_describes u ds d u' : describes u ds → adds u d u' → describes u' (ds ++ [d]).
Proof. intros (H1 & H2 & H3) (G1 & G2 & G3). unfold describes. rewrite !collect_snoc. split_and!; congruence. Qed.

Lemma leads_decls ds : ∀ u before sp p,
  wf_decls ds → describes u before → NoDup (collect decl_once (before ++ ds)) →
  Forall (λ c, isspace c = true) sp → outside p → left p = sp ++ print_file ds →
  ∃ u' sp' q, leads unit_round (length (print_file ds)) u p u' q ∧ describes u' (before ++ ds) ∧
    left q = sp' ∧ Forall (λ c, isspace c = true) sp'.
Proof.
  induction ds as [|d ds IH]; intros u before sp p Hwf Hu Hnd Hsp Hout Hp.
  - cbn [print_file map concat] in Hp. rewrite !app_nil_r in *. exists u, sp, p. split_and!; [apply leads_refl|done..].
  - destruct Hwf as [Hd Hds].
    assert (print_file (d :: ds) = decl_text d ++ LF :: print_file ds) as E.
    { unfold print_file. simpl. by rewrite <- app_assoc. }
    rewrite E in Hp.
    destruct (reads_round u d sp p (print_file ds)) as (x & q & Hx & Hq & u' & -> & Hadd); [done| |done|done|done|].
    { destruct Hu as (_ & _ & ->). rewrite collect_app in Hnd. apply NoDup_app in Hnd as (_ & Hnd & _).
      apply Forall_forall. intros o Ho Hin. apply (Hnd o Hin). unfold collect. simpl. apply elem_of_app. by left. }
    destruct (IH u' (before ++ [d]) [LF] q) as (u'' & sp' & q' & Hl & Hdesc & Hlq & Hsp');
      [done|by eapply adds_describes|by rewrite <- app_assoc|by constructor|by eapply moved_outside| |].
    { apply (left_app _ _ _ _ Hq). rewrite Hp. by rewrite <- app_assoc. }
    exists u'', sp', q'. split_and!; [|by rewrite <- app_assoc in Hdesc|done|done].
    eapply (leads_weaken _ _ (1 + length (print_file ds))); [rewrite E, length_app; simpl; lia|].
    eapply leads_trans; [done|by apply leads_round; [|exact Hx]|exact Hl].
Qed.

(** The parser of files reads back what was written. *)
Lemma parse_unit_reads ds :
  wf_file ds → ∃ u q, gives parse_unit (new_parser (print_file ds)) u q ∧ describes u ds.
Proof.
  intros (Hwf & Hnd & Hne & Hlen). set (p := new_parser (print_file ds)).
  destruct (leads_decls ds {| u_comps := []; u_hash := []; u_once := [] |} [] [] p)
    as (u & sp & q & Hl & Hu & Hq & Hsp); [done|done|done|done|done|done|].
  destruct (reads_skip_blanks sp q [] Hsp) as ([] & q' & Hg & Hm & _); [done|done|by rewrite app_nil_r|].
  exists u, q'. split; [|done]. unfold parse_unit. apply gives_bind with u q'.
  - eapply (gives_cursor_loop w); [exact Hl|done|]. unfold unit_round. eapply gives_bind; [exact Hg|].
    apply gives_get. rewrite at_end_left, bool_decide_eq_true_2; [apply gives_ret|].
    apply (left_app _ _ _ _ Hm). by rewrite app_nil_r.
  - destruct Hu as (Hc & _). rewrite bool_decide_eq_false_2; [apply gives_ret|]. intros E.
    rewrite E in Hc. by apply Hne.
Qed.
End Unit.

(** ** What documents mean *)

Section Meaning.
Context {Env Out : Type} {rt : Runtime Env Out}.

(** An attribute writes itself; an expression is escaped for the place it stands in, and a
    conditional attribute is there when its condition holds. *)
Definition render_attr (a : Attr) (env : Env) (out : Out) : Out :=
  match a with
  | AFlag _ | AText _ _ => rt_lit (print_attr a) out
  | AExpr name e =>
      rt_lit [DQUOTE] (rt_write (default CTX_ATTR (attr_context name)) e env
        (rt_lit (SP :: name ++ str "=" ++ [DQUOTE]) out))
  | ABool name cond =>
      let out := rt_lit [SP] out in
      if rt_cond cond env out then rt_lit (SP :: name) out else out
  end.

Definition render_tag (name : bytes) (attrs : list Attr) (env : Env) (out : Out) : Out :=
  rt_lit (str ">") (foldl (λ out a, render_attr a env out) (rt_lit (str "<" ++ name) out) attrs).

(** A document inside a component with these parameters. *)
Fixpoint render_doc (params : option bytes) (d : Doc) (env : Env) (out : Out) : Out :=
  let render (ds : list Doc) env out := foldl (λ out d, render_doc params d env out) out ds in
  match d with
  | DText text => rt_lit text out
  | DVoid name attrs => render_tag name attrs env out
  | DElem name attrs body => rt_lit (close_tag name) (render body env (render_tag name attrs env out))
  | DInterp e => rt_write CTX_TEXT e env out
  | DChildren => rt_children env out
  | DCall name args data block =>
      if streq name (str "raw") then rt_raw (default [] args) env out
      else if streq name (str "fragment") then
        rt_frag_end (render block env (rt_frag_begin (default [] args) env out))
      else if streq name (str "once") then
        let r := rt_once_begin (default [] args) env out in
        if r.1 then render block env r.2 else r.2
      else
        rt_call name args
          (if bool_decide (block = []) then None
           else Some (render block (rt_child_env (block_mode data params) data env)))
          env out
  | DIf cond then_ otherwise => if rt_cond cond env out then render then_ env out else render otherwise env out
  | DFor head body => foldl (λ out env, render body env out) out (rt_iterations head env out)
  end.

Definition render_docs (params : option bytes) (ds : list Doc) (env : Env) (out : Out) : Out :=
  foldl (λ out d, render_doc params d env out) out ds.

Lemma render_app ns ms env out : render (ns ++ ms) env out = render ms env (render ns env out).
Proof. apply foldl_app. Qed.

(** Text that is pending, if there is any. *)
Definition lit_opt (s : bytes) (out : Out) : Out := if bool_decide (s = []) then out else rt_lit s out.

Lemma lit_opt_app s t out : t ≠ [] → rt_lit (s ++ t) out = rt_lit t (lit_opt s out).
Proof. intros Ht. unfold lit_opt. case_bool_decide as E; [by subst|apply rt_lit_app]. Qed.

Lemma lit_opt_ne s out : s ≠ [] → lit_opt s out = rt_lit s out.
Proof. intros H. unfold lit_opt. by rewrite bool_decide_eq_false_2. Qed.

Lemma render_attr_nodes acc a env out :
  lit_opt (attr_nodes acc a).2 (render (attr_nodes acc a).1 env out) = render_attr a env (lit_opt acc out).
Proof.
  destruct a as [name|name value|name e|name cond]; cbn -[print_attr];
    rewrite ?lit_opt_app, ?(lit_opt_ne (acc ++ _)), ?lit_opt_app by (done || by destruct acc); done.
Qed.

Lemma render_tag_nodes acc attrs env out :
  render (tag_nodes acc attrs) env out =
  rt_lit (str ">") (foldl (λ out a, render_attr a env out) (lit_opt acc out) attrs).
Proof.
  revert acc out. induction attrs as [|a attrs IH]; intros acc out; cbn [tag_nodes foldl].
  - cbn. by apply lit_opt_app.
  - by rewrite render_app, IH, render_attr_nodes.
Qed.

(** What the pieces mean the same, the whole does. *)
Lemma foldl_map_ext {A B} (f : A → B) (g : Out → A → Out) (h : Out → B → Out) xs :
  Forall (λ x, ∀ out, h out (f x) = g out x) xs → ∀ out, foldl h out (map f xs) = foldl g out xs.
Proof. induction 1 as [|x xs Hx _ IH]; intros out; simpl; [done|]. by rewrite Hx. Qed.

Lemma foldl_ext {A} (f g : Out → A → Out) xs :
  (∀ out x, f out x = g out x) → ∀ out, foldl f out xs = foldl g out xs.
Proof. intros H. induction xs as [|x xs IH]; intros out; simpl; [done|]. by rewrite H, IH. Qed.

(** A call with a block that means the same. *)
Lemma rt_call_block {A B} (xs : list A) (ys : list B) callee args (f g : Out → Out) env out :
  (xs = [] ↔ ys = []) → (∀ o, f o = g o) →
  rt_call callee args (if bool_decide (xs = []) then None else Some f) env out =
  rt_call callee args (if bool_decide (ys = []) then None else Some g) env out.
Proof.
  intros Hxy Hfg. rewrite (bool_decide_ext _ _ Hxy). case_bool_decide; [done|]. by apply rt_call_ext.
Qed.

Lemma map_nil_iff {A B} (f : A → B) xs : map f xs = [] ↔ xs = [].
Proof. by destruct xs. Qed.

(** Lines do not matter. *)
Lemma render_erase_node n : ∀ env out, render_node (erase_node n) env out = render_node n env out.
Proof.
  assert (∀ ns, Forall (λ n, ∀ env out, render_node (erase_node n) env out = render_node n env out) ns →
    ∀ env out, render (map erase_node ns) env out = render ns env out) as Hall.
  { intros ns H env out. apply foldl_map_ext. eapply Forall_impl; [exact H|]. auto. }
  induction n using node_nested_ind; intros env out; cbn [erase_node render_node]; try done.
  - pose proof (Hall block H) as Hb. unfold render in Hb. do 3 (destruct (streq _ _); [by rewrite ?Hb|]).
    apply rt_call_block; [apply map_nil_iff|]. intros o. apply Hb.
  - pose proof (Hall then_ H) as H1. pose proof (Hall otherwise H0) as H2. unfold render in H1, H2.
    by rewrite H1, H2.
  - pose proof (Hall then_ H) as H1. unfold render in H1. apply foldl_ext. intros; apply H1.
Qed.

Lemma render_erase ns env out : render (erase ns) env out = render ns env out.
Proof. apply foldl_map_ext. apply Forall_forall. intros n _ out'. apply render_erase_node. Qed.
End Meaning.

(** The documents inside documents. *)
Section DocInd.
Variable Q : Doc → Prop.
Hypothesis Hleaf : ∀ d,
  match d with DText _ | DVoid _ _ | DInterp _ | DChildren => True | _ => False end → Q d.
Hypothesis Helem : ∀ name attrs body, Forall Q body → Q (DElem name attrs body).
Hypothesis Hcall : ∀ name args data block, Forall Q block → Q (DCall name args data block).
Hypothesis Hif : ∀ cond then_ otherwise, Forall Q then_ → Forall Q otherwise → Q (DIf cond then_ otherwise).
Hypothesis Hfor : ∀ head body, Forall Q body → Q (DFor head body).

Fixpoint doc_nested_ind (d : Doc) : Q d :=
  let fix all (ds : list Doc) : Forall Q ds :=
    match ds with
    | [] => List.Forall_nil Q
    | d :: ds => List.Forall_cons Q d ds (doc_nested_ind d) (all ds)
    end in
  match d with
  | DElem name attrs body => Helem name attrs body (all body)
  | DCall name args data block => Hcall name args data block (all block)
  | DIf cond then_ otherwise => Hif cond then_ otherwise (all then_) (all otherwise)
  | DFor head body => Hfor head body (all body)
  | d => Hleaf d I
  end.
End DocInd.

Section MeaningDocs.
Context {Env Out : Type} {rt : Runtime Env Out}.

(** The nodes of a document render it. *)
Lemma render_doc_nodes params d : ∀ env out, render (doc_nodes params d) env out = render_doc params d env out.
Proof.
  assert (∀ ds, Forall (λ d, ∀ env out, render (doc_nodes params d) env out = render_doc params d env out) ds →
    ∀ env out, render (concat (map (doc_nodes params) ds)) env out = render_docs params ds env out) as Hall.
  { induction 1 as [|d' ds Hd _ IH]; intros env out; [done|]. simpl. by rewrite render_app, Hd, IH. }
  induction d using doc_nested_ind; intros env out; cbn [doc_nodes render_doc].
  - destruct d; try done; cbn [doc_nodes render_doc].
    unfold render_tag. by rewrite render_tag_nodes, lit_opt_ne.
  - pose proof (Hall body H) as Hb. unfold render_docs in Hb. unfold render_tag.
    by rewrite !render_app, render_tag_nodes, lit_opt_ne, Hb.
  - pose proof (Hall block H) as Hb. unfold render, render_docs in Hb. cbn.
    do 3 (destruct (streq _ _); [by rewrite ?Hb|]).
    apply rt_call_block; [|intros o; apply Hb]. destruct block as [|d block]; [done|]. split; [|done].
    simpl. by destruct (doc_nodes_cons params d) as (n & ns & ->).
  - pose proof (Hall then_ H) as H1. pose proof (Hall otherwise H0) as H2. unfold render, render_docs in H1, H2. cbn.
    by rewrite H1, H2.
  - pose proof (Hall body H) as H1. unfold render, render_docs in H1. cbn. apply foldl_ext. intros; apply H1.
Qed.

Lemma render_docs_nodes params ds env out : render (docs_nodes params ds) env out = render_docs params ds env out.
Proof.
  revert out. induction ds as [|d ds IH]; intros out; [done|].
  change (docs_nodes params (d :: ds)) with (doc_nodes params d ++ docs_nodes params ds).
  by rewrite render_app, render_doc_nodes, IH.
Qed.
End MeaningDocs.

(** ** From the source to the program *)

(** Name, parameters and body of the components of a file. *)
Definition decl_parts (d : Decl) : list (bytes * bytes * list Doc) :=
  match d with DeclComponent name params body => [(name, params, body)] | _ => [] end.

(** The compiled component does what the document says. *)
Definition implements {Env Out : Type} {rt : Runtime Env Out} (fs : Functions)
    (x : bytes * bytes * list Doc) (c : Component) : Prop :=
  c_name c = x.1.1 ∧ c_params c = x.1.2 ∧
  ∀ env out, exec fs (compile (c_body c)) env out = render_docs (Some x.1.2) x.2 env out.

Lemma describes_parts u ds :
  describes u ds →
  Forall2 (λ x c, c_name c = x.1.1 ∧ c_params c = x.1.2 ∧ erase (c_body c) = docs_nodes (Some x.1.2) x.2)
    (collect decl_parts ds) (u_comps u).
Proof.
  intros (H & _). revert H. generalize (u_comps u). induction ds as [|d ds IH]; intros cs Hc.
  - destruct cs; [constructor|done].
  - destruct d as [| |name params body]; [by apply IH..|].
    destruct cs as [|c cs]; [done|]. injection Hc as <- H2 H3 H4. constructor; [|by apply IH].
    by split_and!.
Qed.

Lemma described_compiled {Env Out : Type} {rt : Runtime Env Out} u ds fs cs :
  describes u ds → Forall2 (compiled fs) (u_comps u) cs → Forall2 (implements fs) (collect decl_parts ds) cs.
Proof.
  intros Hu%describes_parts Hc. revert cs Hc. induction Hu as [|x c xs us (Hn & Hp & Hb) _ IH]; intros cs Hc.
  - inversion Hc. constructor.
  - inversion Hc as [|? c' ? cs' (Hn' & Hp' & Hr) Hcs]; subst. constructor; [|by apply IH].
    split_and!; [by rewrite Hn'|by rewrite Hp'|]. intros env out. by rewrite Hr, <- render_erase, Hb, render_docs_nodes.
Qed.

Lemma gives_tracked w s p : w_alloc w = [] → ∃ q, gives w (tracked s) p (Some s) q.
Proof.
  intros Hw. destruct (gives_track w Hw p) as [a Ha]. exists (set_p_allocs a p).
  unfold tracked. eapply gives_bind; [by apply gives_alloc|]. eapply gives_bind; [exact Ha|apply gives_ret].
Qed.

Lemma gives_parse_file w ds file :
  w_alloc w = [] → wf_file ds →
  ∃ u q, describes u ds ∧
    gives w (parse_file file) (new_parser (print_file ds)) (u, stem_of_path file, guard_of_stem (stem_of_path file)) q.
Proof.
  intros Hw Hds. destruct (parse_unit_reads w Hw ds Hds) as (u & q & Hg & Hu).
  destruct (gives_tracked w (stem_of_path file) q Hw) as [q1 H1].
  destruct (gives_tracked w (guard_of_stem (stem_of_path file)) q1 Hw) as [q2 H2].
  exists u, q2. split; [done|]. unfold parse_file. eapply gives_bind; [exact Hg|].
  eapply gives_bind; [exact H1|]. eapply gives_bind; [exact H2|]. apply gives_ret.
Qed.

(** C16: a file that is written from documents is read back: the parser takes it to the
    end without an error, and what it returns describes the file - its preprocessor lines
    and handles, and for each component the name, the parameters and the nodes of its
    documents, with the attributes of tags, expressions in the context of their attribute,
    calls with arguments and blocks, conditions with both branches and loops.  *)
Theorem parse_print_file ds w :
  w_alloc w = [] → wf_file ds →
  ∃ u q, parse_unit (new_parser (print_file ds)) w = (inr u, q, w) ∧ describes u ds.
Proof. intros Hw Hds. exact (parse_unit_reads w Hw ds Hds). Qed.


(** ** A file *)

Definition card : list Doc :=
  [DElem (str "a") [AText (str "class") (str "c d"); AExpr (str "href") (str "link(t, '{')"); ABool (str "hidden") (str "n > 1"); AFlag (str "x")]
     [DText (str "Hi "); DInterp (str "t"); DVoid (str "br") []];
   DIf (str "n") [DChildren] [DText (str "none"); DVoid (str "hr") []];
   DFor (str "int i = 0; i < n; i++")
     [DCall (str "row") (Some (str "i")) (Some (str "t")) [DElem (str "p") [] [DCall (str "raw") (Some (str "t")) None []]]]].

Definition card_file : list Decl :=
  [DeclHash (str "include <x.h>"); DeclOnce (str "css"); DeclComponent (str "card") (str "const char *t, int n") card].

Example card_text : print_file card_file =
  str "#include <x.h>" ++ [LF] ++ str "once css" ++ [LF] ++
  str "component card(const char *t, int n) {<a class=" ++ [DQUOTE] ++ str "c d" ++ [DQUOTE] ++ str " href=" ++ [DQUOTE] ++
  str "{ link(t, '{') }" ++ [DQUOTE] ++
  str " hidden?={ n > 1 } x>Hi { t }<br></a>if n {{ children... }} else {none<hr>}for int i = 0; i < n; i++ {@row(i) with (t) {<p>@raw(t)</p>}}}" ++ [LF].
Proof. reflexivity. Qed.

(** Documents are checked piece by piece: conditions on characters are computed, C text is
    taken apart at its quotes. *)
Lemma expr_ok_plain e :
  forallb plain_c e = true → bool_decide (skip_while isspace e = e ∧ rtrim isspace e = e ∧ e ≠ []) = true → expr_ok e.
Proof. intros H1 (H2 & H3 & H4)%bool_decide_eq_true. split_and!; [by apply c_text_plain|by split|done]. Qed.

Lemma attr_name_chars s : s ≠ [] → forallb attr_char s = true → attr_name s.
Proof. intros H1 H2. split; [done|by apply forallb_chars]. Qed.

Lemma text_ok_chars text after :
  text ≠ [] → forallb text_char text = true → is_special (deref after) = true →
  forallb (λ kw, negb (keyword_at (skip_while isspace (text ++ after)) 0 kw)) [str "else"; str "if"; str "for"] = true →
  text_ok text after.
Proof.
  intros H1 H2 H3 H4. split_and!; [done|by apply forallb_chars|done|].
  eapply Forall_impl; [exact (forallb_chars _ _ H4)|]. cbv beta. intros kw E. by destruct (keyword_at _ _ _).
Qed.

Lemma wf_tag_attrs name attrs :
  is_ident_start (deref name) && forallb is_tag_char name && (length name <=? TAG_NAME_MAX)%nat &&
    negb (strcaseeq name (str "script")) && negb (strcaseeq name (str "style")) = true →
  Forall wf_attr attrs → wf_tag name attrs.
Proof.
  rewrite !andb_true_iff, !negb_true_iff, Nat.leb_le. intros ((((H1 & H2) & H3) & H4) & H5) Ha. by split_and!.
Qed.

(** Computes the conditions of a document. *)
Ltac wf_docs_eval :=
  repeat match goal with
  | |- wf_docs _ _ _ => constructor
  | |- wf_doc _ _ _ => constructor
  | |- wf_tag _ _ => apply wf_tag_attrs; [reflexivity|]
  | |- Forall wf_attr _ => constructor
  | |- wf_attr _ => split_and!
  | |- text_ok _ _ => apply text_ok_chars; [discriminate|reflexivity..]
  | |- attr_name _ => apply attr_name_chars; [discriminate|reflexivity]
  | |- expr_ok _ => first [assumption | apply expr_ok_plain; reflexivity]
  | |- argument_ok _ => simpl; first [exact I | split; [by apply c_text_plain|done]]
  | |- _ => first [reflexivity | discriminate | solve [repeat constructor] | by vm_compute]
  end.

Lemma card_file_wf : wf_file card_file.
Proof.
  assert (expr_ok (str "link(t, '{')")) as Hlink.
  { split; [|done]. do 4 (constructor; [done|]). apply (ct_paren (str "t, '{'") []); [|constructor].
    do 3 (constructor; [done|]). apply (ct_quote "'"%ch (str "{") []); [by right| |constructor].
    apply cs_char; [done..|constructor]. }
  split_and!; [|repeat constructor; intros H; inversion H|done|done].
  split; [by repeat constructor|]. split; [done|]. split; [|done].
  split; [done|]. split; [done|]. split; [by apply c_text_plain|]. split; [done|].
  unfold card. wf_docs_eval.
Qed.

Lemma parse_print_file_witness :
  w_alloc quiet_world = [] ∧ wf_file card_file ∧
  ∃ u q, parse_unit (new_parser (print_file card_file)) quiet_world = (inr u, q, quiet_world) ∧ describes u card_file.
Proof.
  split; [reflexivity|]. split; [exact card_file_wf|].
  exact (parse_print_file card_file quiet_world eq_refl card_file_wf).
Defined.


(** Text must be followed by markup: in front of the brace of a block it is refused. *)
Example text_before_brace :
  nodes_of (str "if n { none }}") = None ∧
  nodes_of (str "if n { none<br> }}") =
    Some [NIf 1 (str "n") [NText 1 (str " none"); NText 1 (str "<br>")] []].
Proof. split; reflexivity. Qed.

(** A runtime that writes to a text: expressions mean themselves, a loop runs twice, a
    called component shows its name and its block. *)
#[export] Instance text_runtime : Runtime unit bytes.
Proof.
  refine {|
    rt_lit s out := out ++ s;
    rt_write _ e _ out := out ++ str "$" ++ e;
    rt_children _ out := out ++ str "...";
    rt_raw e _ out := out ++ str "$$" ++ e;
    rt_frag_begin _ _ out := out;
    rt_frag_end out := out;
    rt_once_begin _ _ out := (true, out);
    rt_cond _ _ _ := true;
    rt_iterations _ env _ := [env; env];
    rt_child_env _ _ env := env;
    rt_call callee _ child _ out := match child with Some f => f (out ++ callee ++ str ":") | None => out ++ callee end;
    rt_undefined out := out;
  |}.
  - intros s t out. apply app_assoc.
  - intros callee args f g env out H. apply H.
Defined.

Example card_rendered : render_docs None card tt [] =
  str "<a class=" ++ [DQUOTE] ++ str "c d" ++ [DQUOTE] ++ str " href=" ++ [DQUOTE] ++ str "$link(t, '{')" ++ [DQUOTE] ++
  str "  hidden x>Hi $t<br></a>...row:<p>$$t</p>row:<p>$$t</p>".
Proof. reflexivity. Qed.
