(* ===== verification/ExampleArgs.v ===== *)
(** * The command line of the example server

    [src/examples/args.c]: [parse_port] and [parse_args].  The option parser
    itself, cargs, is a library the file calls: its context and its functions
    are a parameter, the class [Cargs], with the one thing the loop relies on -
    every fetched option uses some of the arguments up. *)

From S2P Require Import Prelude CLib.
#[local] Open Scope Z_scope.

(** ** The library *)

(** [struct cag_option], as far as the file sets it; NULL strings are [None]. *)
Record CagOption := {
  opt_identifier : Z;
  opt_access_letters : bytes;
  opt_access_name : bytes;
  opt_value_name : option bytes;
  opt_description : bytes;
}.

Class Cargs := {
  cag_context : Type;
  cag_option_init : list CagOption → list bytes → cag_context;
  (** [None]: there is no further option. *)
  cag_option_fetch : cag_context → option cag_context;
  cag_option_get_identifier : cag_context → Z;
  cag_option_get_value : cag_context → option bytes;
  (** The arguments still to read. *)
  cag_left : cag_context → nat;
  cag_fetch_left : ∀ c c', cag_option_fetch c = Some c' → (cag_left c' < cag_left c)%nat;
}.

(** ** The code *)

Record Args := { a_port : Z; a_bind_addr : bytes; a_root : bytes; a_verbose : bool }.

Definition set_a_port (x : Z) (a : Args) : Args :=
  {| a_port := x; a_bind_addr := a_bind_addr a; a_root := a_root a; a_verbose := a_verbose a |}.
Definition set_a_bind_addr (x : bytes) (a : Args) : Args :=
  {| a_port := a_port a; a_bind_addr := x; a_root := a_root a; a_verbose := a_verbose a |}.
Definition set_a_root (x : bytes) (a : Args) : Args :=
  {| a_port := a_port a; a_bind_addr := a_bind_addr a; a_root := x; a_verbose := a_verbose a |}.
Definition set_a_verbose (x : bool) (a : Args) : Args :=
  {| a_port := a_port a; a_bind_addr := a_bind_addr a; a_root := a_root a; a_verbose := x |}.

Inductive ArgsResult := ARGS_OK | ARGS_HELP | ARGS_ERROR.

(** What the function prints. *)
Inductive Message :=
  | Stderr (text : bytes)
  | Stdout (text : bytes)
  | OptionTable          (** [cag_option_print] on stdout *)
  | OptionError.         (** [cag_option_print_error] on stderr *)

Definition options : list CagOption :=
  [ {| opt_identifier := "p"%ch; opt_access_letters := str "p"; opt_access_name := str "port";
       opt_value_name := Some (str "PORT");
       opt_description := str "Port to listen on (default: 80)" |};
    {| opt_identifier := "b"%ch; opt_access_letters := str "b"; opt_access_name := str "bind";
       opt_value_name := Some (str "ADDR");
       opt_description := str "Address which gets bound (default: 0.0.0.0)" |};
    {| opt_identifier := "r"%ch; opt_access_letters := str "r"; opt_access_name := str "root";
       opt_value_name := Some (str "DIR");
       opt_description := str "Root directory for static files (default: examples/www)" |};
    {| opt_identifier := "v"%ch; opt_access_letters := str "v"; opt_access_name := str "verbose";
       opt_value_name := None; opt_description := str "more log output" |};
    {| opt_identifier := "h"%ch; opt_access_letters := str "h"; opt_access_name := str "help";
       opt_value_name := None; opt_description := str "show help" |} ].

(** [strtol] is [strtoll] where [long] has 64 bits; 0 is the answer to a text
    that is no port. *)
Definition parse_port (val : bytes) : Z :=
  let r := strtoll val in
  if negb (ll_conv r) || negb (deref (ll_end r) =? NUL) || ll_erange r || (ll_val r <? 1)
     || (65535 <? ll_val r) then 0
  else ll_val r.

Definition default_args : Args :=
  {| a_port := 80; a_bind_addr := str "0.0.0.0"; a_root := str "examples/www"; a_verbose := false |}.

(** What one option makes of the arguments: the next arguments, or the result
    the function returns and what it prints. *)
Definition apply_option (argv0 : bytes) (identifier : Z) (value : option bytes) (args : Args)
  : Args + ArgsResult * list Message :=
  if identifier =? "p"%ch then
    match value with
    | None => inr (ARGS_ERROR, [Stderr (str "missing value for --port" ++ [LF])])
    | Some val =>
        if parse_port val =? 0 then
          inr (ARGS_ERROR,
               [Stderr (str "invalid port: " ++ val ++ str " (allowed 1-65535)" ++ [LF])])
        else inl (set_a_port (parse_port val) args)
    end
  else if identifier =? "b"%ch then
    match value with
    | None => inr (ARGS_ERROR, [Stderr (str "missing value for --bind" ++ [LF])])
    | Some val => inl (set_a_bind_addr val args)
    end
  else if identifier =? "r"%ch then
    match value with
    | None => inr (ARGS_ERROR, [Stderr (str "missing value for --root" ++ [LF])])
    | Some val => inl (set_a_root val args)
    end
  else if identifier =? "v"%ch then inl (set_a_verbose true args)
  else if identifier =? "h"%ch then
    inr (ARGS_HELP, [Stdout (str "Usage: " ++ argv0 ++ str " [OPTION]..." ++ [LF; LF]); OptionTable])
  else inr (ARGS_ERROR, [OptionError]).

Section ParseArgs.
Context {cargs : Cargs}.

(** The loop; [out] is what [*out] holds, which only [ARGS_OK] overwrites. *)
Fixpoint parse_args_loop (fuel : nat) (argv0 : bytes) (context : cag_context) (args out : Args)
  : option (ArgsResult * Args * list Message) :=
  match fuel with
  | O => None
  | S fuel =>
      match cag_option_fetch context with
      | None => Some (ARGS_OK, args, [])
      | Some context =>
          match apply_option argv0 (cag_option_get_identifier context)
                  (cag_option_get_value context) args with
          | inl args => parse_args_loop fuel argv0 context args out
          | inr (rc, printed) => Some (rc, out, printed)
          end
      end
  end.

(** [None]: the fuel does not suffice, which [parse_args_spec] excludes. *)
Definition parse_args (argv : list bytes) (out : Args) : option (ArgsResult * Args * list Message) :=
  let context := cag_option_init options argv in
  parse_args_loop (S (cag_left context)) (default [] (head argv)) context default_args out.
End ParseArgs.

(** ** Ports *)

(** The text of a number [strtol] accepts to its end: space, a sign, digits. *)
Inductive numeral : bytes → Z → Prop :=
  | numeral_intro space sign ds :
      Forall (λ c, isspace c = true) space → sign = [] ∨ sign = ["+"%ch] →
      ds ≠ [] → Forall (λ c, is_digit c = true) ds →
      numeral (space ++ sign ++ ds) (digits_val ds).

(** The sign [strtoll] reads. *)
Definition signed (s : bytes) : bool * bytes :=
  match s with
  | "-"%ch :: r => (true, r)
  | "+"%ch :: r => (false, r)
  | _ => (false, s)
  end.

Lemma signed_cases s :
  (∃ r, s = "-"%ch :: r ∧ signed s = (true, r)) ∨
  (∃ r, s = "+"%ch :: r ∧ signed s = (false, r)) ∨
  deref s ≠ "+"%ch ∧ deref s ≠ "-"%ch ∧ signed s = (false, s).
Proof.
  destruct s as [|c r]; [by right; right|].
  destruct (decide (c = "-"%ch)) as [->|Hm]; [left; by exists r|].
  destruct (decide (c = "+"%ch)) as [->|Hp]; [right; left; by exists r|].
  right; right. cbn [deref]. split_and!; [done|done|]. unfold signed.
  destruct c as [|p|p]; try done. repeat (destruct p as [p|p|]; try done).
Qed.

Lemma digits_val_nonneg ds : Forall (λ c, is_digit c = true) ds → 0 <= digits_val ds.
Proof.
  intros Hd. unfold digits_val. assert (0 <= 0) as H by lia. revert H. generalize 0 at 2 4.
  induction Hd as [|c ds Hc _ IH]; intros a Ha; [done|].
  cbn [fold_left]. apply IH. unfold is_digit in Hc. breflect. lia.
Qed.

(** What a positive value without overflow says of the text read. *)
Lemma strtoll_positive val :
  let r := strtoll val in
  ll_conv r = true → ll_erange r = false → 1 <= ll_val r →
  ∃ text, val = text ++ ll_end r ∧ numeral text (ll_val r).
Proof.
  cbv zeta. unfold strtoll, skip_while. destruct (span isspace val) as [space s] eqn:Es.
  pose proof (span_app _ _ _ _ Es) as ->. apply span_forall in Es. cbn [snd].
  fold (signed s). destruct (signed_cases s) as [(r & -> & ->)|[(r & -> & ->)|(Hp & Hm & ->)]].
  - destruct (span is_digit r) as [ds rest] eqn:Ed. pose proof (span_forall _ _ _ _ Ed) as Hd.
    destruct ds as [|d ds]; [done|]. pose proof (digits_val_nonneg _ Hd).
    repeat case_if; cbn [ll_conv ll_erange ll_val ll_end]; intros; try done; breflect; lia.
  - destruct (span is_digit r) as [ds rest] eqn:Ed. pose proof (span_forall _ _ _ _ Ed) as Hd.
    pose proof (span_app _ _ _ _ Ed) as ->. destruct ds as [|d ds]; [done|].
    repeat case_if; cbn [ll_conv ll_erange ll_val ll_end]; intros; try done.
    exists (space ++ ["+"%ch] ++ (d :: ds)). rewrite <- !app_assoc. split; [done|].
    apply numeral_intro; auto.
  - destruct (span is_digit s) as [ds rest] eqn:Ed. pose proof (span_forall _ _ _ _ Ed) as Hd.
    pose proof (span_app _ _ _ _ Ed) as ->. destruct ds as [|d ds]; [done|].
    repeat case_if; cbn [ll_conv ll_erange ll_val ll_end]; intros; try done.
    exists (space ++ [] ++ (d :: ds)). rewrite <- !app_assoc. split; [done|].
    apply numeral_intro; auto.
Qed.

Lemma strtoll_numeral text n :
  numeral text n → n <= LLONG_MAX →
  strtoll text = {| ll_val := n; ll_end := []; ll_conv := true; ll_erange := false |}.
Proof.
  intros [space sign ds Hs Hsign Hne Hd] Hn. pose proof (digits_val_nonneg _ Hd) as Hv.
  unfold strtoll, skip_while. destruct ds as [|d ds]; [done|].
  pose proof (Forall_inv Hd) as Hd1. cbv beta in Hd1.
  assert (isspace d = false ∧ d ≠ "-"%ch ∧ d ≠ "+"%ch) as (Hsp & Hm & Hp).
  { unfold is_digit in Hd1. unfold isspace. breflect. lia. }
  rewrite span_app_stop; [|done|destruct Hsign as [-> | ->]; right; by eexists _, _].
  cbn [snd]. fold (signed (sign ++ d :: ds)).
  assert (signed (sign ++ d :: ds) = (false, d :: ds)) as ->.
  { destruct Hsign as [-> | ->]; [|done]. cbn [app].
    destruct (signed_cases (d :: ds)) as [(r & [= -> ->] & _)|[(r & [= -> ->] & _)|(_ & _ & ->)]]; done. }
  rewrite span_all by done.
  rewrite (proj2 (Z.ltb_ge _ _)) by lia.
  by rewrite (proj2 (Z.ltb_ge _ _)) by (unfold LLONG_MIN; lia).
Qed.

(** A text is the port [n] exactly when it is, after optional space and an optional
    plus sign, a decimal number between 1 and 65535 without anything behind it; every other text is
    no port. *)
Lemma parse_port_spec val n :
  nul_free val → n ≠ 0 → (parse_port val = n ↔ numeral val n ∧ 1 <= n <= 65535).
Proof.
  intros Hv Hn. unfold parse_port. split.
  - case_if; [by intros <-|]. intros <-. breflect.
    destruct (strtoll_positive val) as (text & Htext & Hnum); [done|done|lia|].
    assert (ll_end (strtoll val) = []) as He.
    { destruct (ll_end (strtoll val)) as [|c r] eqn:E; [done|]. cbn [deref] in *. subst c.
      rewrite Htext in Hv. apply Forall_app in Hv as [_ Hv]. by apply Forall_inv in Hv. }
    rewrite He, app_nil_r in Htext. subst text. split; [done|lia].
  - intros [Hnum Hr]. rewrite (strtoll_numeral val n Hnum) by (unfold LLONG_MAX; lia).
    cbn [ll_conv ll_end ll_erange ll_val]. change (deref []) with NUL. rewrite Z.eqb_refl.
    cbn [negb orb]. by rewrite (proj2 (Z.ltb_ge _ _)), (proj2 (Z.ltb_ge _ _)) by lia.
Qed.

Lemma parse_port_range val : 0 <= parse_port val <= 65535.
Proof. unfold parse_port. case_if; [lia|]. breflect. lia. Qed.

(** ** The options *)

(** An option as the library delivers it: its identifier and its value. *)
Abbreviation Opt := (Z * option bytes)%type.

(** Whether the loop goes on behind an option. *)
Definition accepted (o : Opt) : bool :=
  if o.1 =? "p"%ch then match o.2 with Some v => negb (parse_port v =? 0) | None => false end
  else if (o.1 =? "b"%ch) || (o.1 =? "r"%ch) then bool_decide (is_Some o.2)
  else o.1 =? "v"%ch.

(** The value of the last option with that identifier. *)
Definition last_value (identifier : Z) (opts : list Opt) : option bytes :=
  fold_left (λ v o, if o.1 =? identifier then o.2 else v) opts None.

(** The arguments a list of accepted options gives: the last value of each wins. *)
Definition settings (opts : list Opt) : Args :=
  {| a_port := default 80 (parse_port <$> last_value "p"%ch opts);
     a_bind_addr := default (str "0.0.0.0") (last_value "b"%ch opts);
     a_root := default (str "examples/www") (last_value "r"%ch opts);
     a_verbose := existsb (λ o, o.1 =? "v"%ch) opts |}.

Lemma last_value_snoc i opts o :
  last_value i (opts ++ [o]) = if o.1 =? i then o.2 else last_value i opts.
Proof. unfold last_value. by rewrite fold_left_app. Qed.

(** An accepted option changes its own setting; any other ends the loop. *)
Lemma apply_option_accepted argv0 opts o :
  accepted o = true →
  apply_option argv0 o.1 o.2 (settings opts) = inl (settings (opts ++ [o])).
Proof.
  destruct o as [i v]. unfold accepted, apply_option, settings. cbn [fst snd].
  rewrite existsb_app, !last_value_snoc. cbn [fst snd existsb]. rewrite orb_false_r.
  destruct (Z.eqb_spec i "p"%ch) as [->|Hp].
  { destruct v as [v|]; [|done]. destruct (parse_port v =? 0) eqn:E; [done|]. intros _.
    unfold set_a_port. cbn. by rewrite orb_false_r. }
  destruct (Z.eqb_spec i "b"%ch) as [->|Hb].
  { destruct v as [v|]; [|done]. intros _. unfold set_a_bind_addr. cbn. by rewrite orb_false_r. }
  destruct (Z.eqb_spec i "r"%ch) as [->|Hr].
  { destruct v as [v|]; [|done]. intros _. unfold set_a_root. cbn. by rewrite orb_false_r. }
  cbn [orb]. intros Hv. rewrite Hv. unfold set_a_verbose. cbn. by rewrite orb_true_r.
Qed.

Lemma apply_option_rejected argv0 o args :
  accepted o = false →
  ∃ rc printed, apply_option argv0 o.1 o.2 args = inr (rc, printed) ∧ printed ≠ [] ∧
    rc = if o.1 =? "h"%ch then ARGS_HELP else ARGS_ERROR.
Proof.
  destruct o as [i v]. unfold accepted, apply_option. cbn [fst snd].
  destruct (Z.eqb_spec i "p"%ch) as [->|Hp].
  { destruct v as [v|]; [|by eauto]. destruct (parse_port v =? 0); [by eauto|done]. }
  destruct (Z.eqb_spec i "b"%ch) as [->|Hb]; [destruct v; [done|by eauto]|].
  destruct (Z.eqb_spec i "r"%ch) as [->|Hr]; [destruct v; [done|by eauto]|].
  cbn [orb]. intros ->. case_if; by eauto.
Qed.

Lemma settings_port opts :
  (∀ o, In o opts → accepted o = true) → 1 <= a_port (settings opts) <= 65535.
Proof.
  cbn [settings a_port]. induction opts as [|o opts IH] using rev_ind; intros H; [done|].
  rewrite last_value_snoc. case_if.
  - specialize (H o). rewrite in_app_iff in H. specialize (H (or_intror (or_introl eq_refl))).
    unfold accepted in H. breflect. destruct (o.2) as [v|]; [|by case_match].
    rewrite (proj2 (Z.eqb_eq _ _)) in H by done. pose proof (parse_port_range v). cbn. breflect. lia.
  - apply IH. intros x Hx. apply H, in_app_iff. by left.
Qed.

Section Spec.
Context {cargs : Cargs}.

(** The options in the order the library fetches them. *)
Fixpoint fetched_from (fuel : nat) (context : cag_context) : list Opt :=
  match fuel with
  | O => []
  | S fuel =>
      match cag_option_fetch context with
      | None => []
      | Some context =>
          (cag_option_get_identifier context, cag_option_get_value context)
          :: fetched_from fuel context
      end
  end.

Definition fetched (argv : list bytes) : list Opt :=
  let context := cag_option_init options argv in fetched_from (cag_left context) context.

(** What the loop returns on the options still to come. *)
Definition loop_answer (before opts : list Opt) (out : Args)
    (r : ArgsResult * Args * list Message) : Prop :=
  match List.find (λ o, negb (accepted o)) opts with
  | None => r = (ARGS_OK, settings (before ++ opts), [])
  | Some o => r.1 = (if o.1 =? "h"%ch then ARGS_HELP else ARGS_ERROR, out) ∧ r.2 ≠ []
  end.

Lemma parse_args_loop_spec argv0 out fuel context before :
  (cag_left context ≤ fuel)%nat →
  ∃ r, parse_args_loop (S fuel) argv0 context (settings before) out = Some r ∧
    loop_answer before (fetched_from fuel context) out r.
Proof.
  revert context before. induction fuel as [|fuel IH]; intros context before Hf.
  - cbn [parse_args_loop fetched_from]. destruct (cag_option_fetch context) as [c|] eqn:E.
    { apply cag_fetch_left in E. lia. }
    eexists. split; [done|]. unfold loop_answer. cbn [List.find]. by rewrite app_nil_r.
  - cbn [fetched_from]. remember (S fuel) as n eqn:En. cbn [parse_args_loop].
    destruct (cag_option_fetch context) as [c|] eqn:E.
    2: { eexists. split; [done|]. unfold loop_answer. cbn [List.find]. by rewrite app_nil_r. }
    apply cag_fetch_left in E. set (o := (cag_option_get_identifier c, cag_option_get_value c)).
    change (cag_option_get_identifier c) with (o.1). change (cag_option_get_value c) with (o.2).
    unfold loop_answer. cbn [List.find]. destruct (accepted o) eqn:Ea; cbn [negb].
    + rewrite apply_option_accepted by done. subst n.
      destruct (IH c (before ++ [o])) as (r & -> & H); [lia|]. exists r. split; [done|].
      unfold loop_answer in H. by rewrite <- app_assoc in H.
    + destruct (apply_option_rejected argv0 o (settings before) Ea) as (rc & pr & -> & Hp & ->).
      eexists. split; [done|]. cbn [fst snd]. done.
Qed.

(** The command line is read to its end or to its first bad option.  When every option
    is accepted the result is [ARGS_OK] with the last value of each option, the documented defaults for
    those that are absent and a port between 1 and 65535; otherwise the first option that is not
    accepted decides - help for [-h], an error for anything else -, something is printed and the caller's
    structure is untouched. *)
Lemma parse_args_spec argv out :
  ∃ rc args printed, parse_args argv out = Some (rc, args, printed) ∧
  match List.find (λ o, negb (accepted o)) (fetched argv) with
  | None => rc = ARGS_OK ∧ args = settings (fetched argv) ∧ printed = [] ∧
      1 <= a_port args <= 65535
  | Some o => rc = (if o.1 =? "h"%ch then ARGS_HELP else ARGS_ERROR) ∧ args = out ∧ printed ≠ []
  end.
Proof.
  destruct (parse_args_loop_spec (default [] (head argv)) out _ (cag_option_init options argv) [] (le_n _))
    as ([[rc args] printed] & H & Ha).
  exists rc, args, printed. split; [exact H|]. unfold loop_answer in Ha. fold (fetched argv) in Ha.
  destruct (List.find _ (fetched argv)) as [o|] eqn:Ef.
  - cbn [fst snd] in Ha. by destruct Ha as [[= -> ->] ?].
  - injection Ha as -> -> ->. split_and!; try done; apply settings_port; intros o Ho;
      by apply negb_false_iff, (List.find_none _ _ Ef).
Qed.
End Spec.

(** A library that knows the one-letter options only: enough to run the code. *)
Fixpoint short_options (argv : list bytes) : list Opt :=
  match argv with
  | ["-"%ch; c] :: rest =>
      if has_chr c (str "pbr") then
        match rest with
        | v :: rest => (c, Some v) :: short_options rest
        | [] => [(c, None)]
        end
      else (if has_chr c (str "vh") then c else "?"%ch, None) :: short_options rest
  | _ :: rest => short_options rest
  | [] => []
  end.

(** The context: the option fetched last and those to come. *)
#[export] Program Instance short_cargs : Cargs := {|
  cag_context := Opt * list Opt;
  cag_option_init _ argv := ((NUL, None), short_options (tail argv));
  cag_option_fetch c := match c.2 with [] => None | o :: l => Some (o, l) end;
  cag_option_get_identifier c := c.1.1;
  cag_option_get_value c := c.1.2;
  cag_left c := length c.2;
|}.
Next Obligation. intros [o [|o' l]]; [done|]. intros c [= <-]. cbn. lia. Qed.

(** Without a usable port the caller's structure stays as it is. *)
Example parse_args_port_0 :
  parse_args [str "example"; str "-v"; str "-p"; str "0"] default_args
  = Some (ARGS_ERROR, default_args,
      [Stderr (str "invalid port: 0 (allowed 1-65535)" ++ [LF])]).
Proof. by vm_compute. Qed.

(** [-h] wins over what follows it. *)
Example parse_args_help :
  parse_args [str "example"; str "-h"; str "-p"; str "x"] default_args
  = Some (ARGS_HELP, default_args,
      [Stdout (str "Usage: example [OPTION]..." ++ [LF; LF]); OptionTable]).
Proof. by vm_compute. Qed.
