(* ===== verification/ExampleEcho.v ===== *)
(** * The echo handler of the example server

    [ws_echo_handler] of [src/examples/main.c]: it returns every message to its
    sender until the session ends.  The loop is the code's [while]; that it comes
    to an end on every input is proved from what the session leaves unread. *)

From S2P Require Import Prelude CLib World Types Net Server WsSession WsProtocol WsWire.
#[local] Open Scope Z_scope.

(** ** The code *)

Definition echo_message (msg : HttpWsMessage) (ws : HttpWs) : M HttpWs :=
  '(_, ws) ← (match wm_type msg with
              | HTTP_WS_TEXT => http_ws_send_text ws (wm_data msg)
              | HTTP_WS_BINARY => http_ws_send_binary ws (wm_data msg)
              end);
  mret ws.

Fixpoint ws_echo_loop (fuel : nat) (ws : HttpWs) : M HttpWs :=
  match fuel with
  | O => mret ws
  | S fuel =>
      '(r, ws) ← http_ws_recv ws;
      match r, ws_cur ws with
      | HTTP_WS_OK, Some msg => ws ← echo_message msg ws; ws_echo_loop fuel ws
      | _, _ => mret ws
      end
  end.

(** What the session can still deliver: the unread bytes and the receive queue. *)
Definition session_left (ws : HttpWs) (q : list RecvEvent) : nat :=
  Z.to_nat (parse_measure ws) + 2 * recv_size q.

Definition ws_echo_handler (ws : HttpWs) (req : HttpRequest) : M HttpWs :=
  q ← recv_queue;
  ws_echo_loop (S (session_left ws q)) ws.

(** ** A message uses input up *)

(** A step that completes a message hands it over and leaves less to parse. *)
Definition completes (ws : HttpWs) (r : ParseStep * HttpWs) : Prop :=
  r.1 = PReturn WS_PARSE_MESSAGE →
  is_Some (ws_cur r.2) ∧ parse_measure r.2 < parse_measure ws.

Lemma or_return_completes ws0 m :
  returns m (λ r, r.1 ≠ WS_PARSE_MESSAGE) → returns (or_return m) (completes ws0).
Proof.
  intros H. unfold or_return. eapply returns_bind; [exact H|].
  intros [s ws] Hs. apply returns_ret. cbn [fst] in Hs. by destruct s.
Qed.

Lemma violation_no_message ws code : returns (ws_protocol_violation ws code) (λ r, r.1 ≠ WS_PARSE_MESSAGE).
Proof. unfold ws_protocol_violation. apply returns_any. intros []. by apply returns_ret. Qed.

Lemma control_no_message ws : returns (ws_handle_control ws) (λ r, r.1 ≠ WS_PARSE_MESSAGE).
Proof.
  unfold ws_handle_control. case_if; [|case_if; [by apply returns_ret|case_if]].
  - apply returns_any. intros []. case_if; by apply returns_ret.
  - case_if; [apply violation_no_message|]. apply returns_any. intros []. by apply returns_ret.
  - apply violation_no_message.
Qed.

Lemma length_known_no_message ws : returns (ws_frame_length_known ws) (λ r, r.1 ≠ WS_PARSE_MESSAGE).
Proof. unfold ws_frame_length_known. case_if; [apply violation_no_message|by apply returns_ret]. Qed.

Lemma out_of_memory_completes ws0 ws : returns (ws_out_of_memory ws) (completes ws0).
Proof. unfold ws_out_of_memory. apply returns_any. intros []. by apply returns_ret. Qed.

Lemma deliver_completes ws0 ws :
  ws_state ws0 = WS_NEED_PAYLOAD → ws_state ws = WS_NEED_HEADER → ws_avail ws = ws_avail ws0 →
  completes ws0 (PReturn WS_PARSE_MESSAGE, ws_deliver ws).
Proof.
  intros H0 H1 Ha _. split; [by eexists|]. cbn [snd]. unfold parse_measure.
  change (ws_avail (ws_deliver ws)) with (ws_avail ws).
  change (ws_state (ws_deliver ws)) with (ws_state ws).
  rewrite H0, H1, Ha. rewrite bool_decide_false, bool_decide_true by done. lia.
Qed.

Lemma step_completes ws : returns (ws_parse_step ws) (completes ws).
Proof.
  unfold ws_parse_step, ws_parse_header, ws_parse_length, ws_parse_mask, ws_parse_payload,
    ws_frame_complete. cbv zeta.
  destruct (ws_state ws) eqn:E;
    repeat first
      [ apply or_return_completes;
        first [apply violation_no_message | apply length_known_no_message | apply control_no_message]
      | apply out_of_memory_completes
      | by apply returns_ret
      | apply returns_ret; by apply deliver_completes
      | apply returns_any; intros ?
      | match goal with |- returns (if ?b then _ else _) _ => destruct b end
      | match goal with |- returns (match ?x with _ => _ end) _ => destruct x end ].
Qed.

Definition parse_leaves (ws : HttpWs) (r : WsParseResult * HttpWs) : Prop :=
  match r.1 with
  | WS_PARSE_MESSAGE => is_Some (ws_cur r.2) ∧ parse_measure r.2 < parse_measure ws
  | WS_PARSE_CONTINUE => parse_measure r.2 <= parse_measure ws
  | _ => True
  end.

Lemma compact_measure ws : ws_ok ws → parse_measure (ws_compact ws) = parse_measure ws.
Proof.
  intros [Hp _ _ _ _]. unfold ws_compact. case_if; [done|]. unfold parse_measure, ws_avail. ws_cbn.
  rewrite zlen_zdrop by lia. f_equal. lia.
Qed.

Lemma parse_loop_leaves fuel ws : ws_ok ws → returns (ws_parse_loop fuel ws) (parse_leaves ws).
Proof.
  revert ws. induction fuel as [|fuel IH]; intros ws Hok; cbn [ws_parse_loop].
  { apply returns_ret. unfold parse_leaves. cbn. lia. }
  intros w. unfold result. rewrite bind_run.
  pose proof (parse_step_ok ws Hok w) as [Hok1 Hs]. pose proof (step_completes ws w) as Hc.
  unfold result, world, completes in *. destruct (ws_parse_step ws w) as [[s ws1] w1]. cbn [fst snd] in *.
  destruct s as [| |r].
  - pose proof (IH ws1 Hok1 w1) as H. unfold result, parse_leaves in *.
    destruct (ws_parse_loop fuel ws1 w1).1.1; try done; [lia|]. destruct H. split; [done|lia].
  - destruct Hs as [-> _]. unfold parse_leaves. cbn. rewrite compact_measure by done. lia.
  - unfold parse_leaves. cbn [fst snd mret M_ret]. destruct r; try done. by apply Hc.
Qed.

(** Computations that take nothing from the receive queue. *)
Definition takes_nothing {A} (m : M A) : Prop := ∀ w, w_recv (world m w) = w_recv w.

Lemma takes_ret {A} (x : A) : takes_nothing (mret x).
Proof. done. Qed.

Lemma takes_bind {A B} (m : M A) (f : A → M B) :
  takes_nothing m → (∀ x, takes_nothing (f x)) → takes_nothing (m ≫= f).
Proof. intros Hm Hf w. unfold world. rewrite bind_run. fold (world (f (result m w)) (world m w)). by rewrite Hf. Qed.

Lemma takes_malloc : takes_nothing malloc.
Proof. intros w. unfold world, malloc. by destruct (w_alloc w). Qed.

Lemma takes_send_all data : takes_nothing (send_all data).
Proof.
  intros w. unfold world. pose proof (send_all_spec data w) as H.
  destruct (send_all data w) as [rc w']. by destruct H.
Qed.

Ltac takes :=
  repeat first
    [ apply takes_ret | apply takes_malloc | apply takes_send_all
    | progress unfold ws_send_raw, ws_send_close, ws_send_frame, ws_send_frame_locked, or_return,
        ws_protocol_violation, ws_out_of_memory, ws_frame_length_known, ws_handle_control, ws_msg_reserve
    | apply takes_bind; [|intros ?]
    | match goal with |- takes_nothing (if ?b then _ else _) => destruct b end
    | match goal with |- takes_nothing (match ?x with _ => _ end) => destruct x end ].

Lemma takes_step ws : takes_nothing (ws_parse_step ws).
Proof.
  unfold ws_parse_step, ws_parse_header, ws_parse_length, ws_parse_mask, ws_parse_payload,
    ws_frame_complete. cbv zeta. takes.
Qed.

Lemma takes_parse fuel ws : takes_nothing (ws_parse_loop fuel ws).
Proof.
  revert ws. induction fuel as [|fuel IH]; intros ws; cbn [ws_parse_loop]; [apply takes_ret|].
  apply takes_bind; [apply takes_step|]. intros [[| |r] ws1]; [apply IH|apply takes_ret..].
Qed.

Lemma takes_send_frame ws op data : takes_nothing (ws_send_frame ws op data).
Proof. takes. Qed.

(** What one [recv] moves from the queue into the buffer. *)
Lemma recv_step_moves n q :
  match (recv_step n q).1 with
  | Got bs => (recv_size (recv_step n q).2 + length bs ≤ recv_size q)%nat
  | _ => (recv_size (recv_step n q).2 ≤ recv_size q)%nat
  end.
Proof.
  destruct q as [|[bs| | | |] q]; cbn; try lia. destruct bs as [|b bs]; [cbn; lia|].
  destruct (zlen (b :: bs) <=? n); cbn [fst snd recv_size]; [lia|].
  pose proof (length_app (ztake n (b :: bs)) (zdrop n (b :: bs))) as H. rewrite ztake_zdrop in H. lia.
Qed.

Lemma measure_nonneg ws : ws_ok ws → 0 <= parse_measure ws.
Proof. intros [Hp _ _ _ _]. unfold parse_measure, ws_avail. case_if; lia. Qed.

Lemma measure_arrived ws bs :
  parse_measure (set_ws_in (ws_in ws ++ bs) ws) = parse_measure ws + 2 * zlen bs.
Proof. unfold parse_measure, ws_avail. ws_cbn. rewrite zlen_app. case_if; lia. Qed.

(** A received message has used some of the session's input up. *)
Definition uses (ws : HttpWs) (q : list RecvEvent) (r : HttpWsResult * HttpWs * World) : Prop :=
  r.1.1 = HTTP_WS_OK →
  is_Some (ws_cur r.1.2) ∧ (session_left r.1.2 (w_recv r.2) < session_left ws q)%nat.

Lemma uses_mono ws q ws' q' r :
  (session_left ws' q' ≤ session_left ws q)%nat → uses ws' q' r → uses ws q r.
Proof. intros H Hu Hr. destruct (Hu Hr). split; [done|lia]. Qed.

Lemma recv_loop_uses fuel ws w : ws_ok ws → uses ws (w_recv w) (ws_recv_loop fuel ws w).
Proof.
  revert ws w. induction fuel as [|fuel IH]; intros ws w Hok; cbn [ws_recv_loop]; [done|].
  rewrite bind_run. unfold result, world.
  pose proof (ws_parse_ok ws Hok w) as [Hok1 Hc].
  pose proof (parse_loop_leaves (parse_fuel ws) ws Hok w) as Hl.
  pose proof (takes_parse (parse_fuel ws) ws w) as Ht. fold (ws_parse ws) in Hl, Ht.
  unfold result, world, parse_leaves in *. destruct (ws_parse ws w) as [[r ws1] w1]. cbn [fst snd] in *.
  pose proof (measure_nonneg ws Hok). pose proof (measure_nonneg ws1 Hok1).
  destruct r; try done.
  2: { intros _. cbn [fst snd mret M_ret]. destruct Hl. split; [done|]. unfold session_left. rewrite Ht. lia. }
  destruct (Hc eq_refl) as [Hp0 Hlen]. rewrite grow_in_room by done.
  rewrite bind_run. unfold result, world. cbn [fst snd negb mret M_ret].
  rewrite bind_run. unfold result, world. pose proof (recv_in_ok ws1 Hok1 Hlen w1) as Hr.
  pose proof (recv_step_moves (ws_in_cap ws1 - zlen (ws_in ws1)) (w_recv w1)) as Hm.
  unfold result, ws_recv_in in *. rewrite recv_run in *. cbn [fst snd] in *. rewrite Ht in *.
  set (step := recv_step _ _) in *. destruct step as [ev q]. cbn [fst snd] in *.
  destruct ev as [bs| | | |]; try done.
  - apply uses_mono with (ws' := set_ws_in (ws_in ws1 ++ bs) ws1) (q' := q);
      [|by apply (IH _ (with_recv q w1))].
    unfold session_left. rewrite measure_arrived. unfold zlen. lia.
  - apply uses_mono with (ws' := ws1) (q' := q); [unfold session_left; lia|by apply (IH _ (with_recv q w1))].
  - rewrite bind_run. unfold result, world.
    assert (w_recv (read_listening (with_recv q w1)).2 = q) as Hq
      by (unfold read_listening; by destruct (w_listening _)).
    destruct (read_listening _) as [l w2]. cbn [fst snd] in *. destruct l; cbn [negb].
    + apply uses_mono with (ws' := ws1) (q' := w_recv w2); [rewrite Hq; unfold session_left; lia|by apply IH].
    + rewrite bind_run. unfold result, world. by destruct (ws_send_close _ _ _ w2) as [[rc ws2] w3].
Qed.

Lemma http_ws_recv_uses ws w : ws_ok ws → uses ws (w_recv w) (http_ws_recv ws w).
Proof.
  intros Hok. unfold http_ws_recv. case_if; [by destruct (ws_io_error ws)|].
  rewrite bind_run. unfold result, world, recv_queue. cbn [fst snd]. by apply recv_loop_uses.
Qed.

(** The frame type a message is echoed with. *)
Definition echo_opcode (msg : HttpWsMessage) : Z :=
  match wm_type msg with HTTP_WS_TEXT => WS_OP_TEXT | HTTP_WS_BINARY => WS_OP_BINARY end.

Lemma echo_message_run msg ws w :
  let r := ws_send_frame ws (echo_opcode msg) (wm_data msg) w in
  echo_message msg ws w = (r.1.2, r.2).
Proof.
  unfold echo_message, echo_opcode, http_ws_send_text, http_ws_send_binary. rewrite bind_run.
  unfold result, world.
  destruct (wm_type msg); by destruct (ws_send_frame _ _ _ w) as [[rc ws'] w'].
Qed.

(** Sending leaves what is still to be received alone. *)
Lemma same_recv_left ws ws' q : same_recv ws ws' → session_left ws' q = session_left ws q.
Proof.
  intros (_ & Hi & _ & Hp & Hs & _). unfold session_left, parse_measure, ws_avail. by rewrite Hi, Hp, Hs.
Qed.

Lemma echo_message_left msg ws w :
  ws_ok ws → let r := echo_message msg ws w in
  ws_ok r.1 ∧ session_left r.1 (w_recv r.2) = session_left ws (w_recv w).
Proof.
  intros Hok. cbv zeta. rewrite echo_message_run. cbn [fst snd].
  pose proof (same_recv_send ws (echo_opcode msg) (wm_data msg) w) as Hs.
  pose proof (takes_send_frame ws (echo_opcode msg) (wm_data msg) w) as Ht. unfold result, world in *.
  split; [by eapply same_recv_ok|]. rewrite Ht. by apply same_recv_left.
Qed.

(** ** The loop of the code *)

(** [while (http_ws_recv(ws, &msg) == HTTP_WS_OK) ...]: the states it starts and ends in. *)
Inductive echo_run : HttpWs * World → HttpWs * World → Prop :=
  | er_stop ws w r ws' w' :
      http_ws_recv ws w = ((r, ws'), w') → r ≠ HTTP_WS_OK → echo_run (ws, w) (ws', w')
  | er_more ws w ws1 w1 msg ws2 w2 c :
      http_ws_recv ws w = ((HTTP_WS_OK, ws1), w1) → ws_cur ws1 = Some msg →
      echo_message msg ws1 w1 = (ws2, w2) → echo_run (ws2, w2) c → echo_run (ws, w) c.

Lemma ws_echo_loop_run fuel ws w :
  ws_ok ws → (session_left ws (w_recv w) < fuel)%nat → echo_run (ws, w) (ws_echo_loop fuel ws w).
Proof.
  revert ws w. induction fuel as [|fuel IH]; intros ws w Hok Hf; [lia|]. cbn [ws_echo_loop].
  rewrite bind_run. unfold result, world.
  pose proof (http_ws_recv_ok ws Hok w) as Hok1. pose proof (http_ws_recv_uses ws w Hok) as Hu.
  unfold result, uses in *. destruct (http_ws_recv ws w) as [[r ws1] w1] eqn:E. cbn [fst snd] in *.
  destruct r; try by eapply er_stop.
  destruct (Hu eq_refl) as [[msg Hm] Hl]. rewrite Hm. rewrite bind_run. unfold result, world.
  destruct (echo_message_left msg ws1 w1 Hok1) as [Hok2 Hl2].
  destruct (echo_message msg ws1 w1) as [ws2 w2] eqn:E2. cbn [fst snd] in *.
  eapply er_more; [done..|]. apply IH; [done|lia].
Qed.

(** The echo handler comes to an end on whatever the client sends, in whatever pieces, and
    whatever fails on the way: its result is the one of the loop in the code, which stops at the first
    receive that is no message. *)
Lemma echo_terminates ws req w :
  ws_ok ws → echo_run (ws, w) (ws_echo_handler ws req w).
Proof.
  intros Hok. unfold ws_echo_handler. rewrite bind_run. unfold result, world, recv_queue. cbn [fst snd].
  apply ws_echo_loop_run; [done|lia].
Qed.

(** ** What comes back *)

Definition echo_text (c : ClientMessage) : bytes :=
  cm_pongs c ++ frame_text (cm_opcode c) (cm_data c).

Lemma parse_nothing ws w :
  ws_state ws = WS_NEED_HEADER → ws_avail ws < 2 →
  ws_parse ws w = ((WS_PARSE_CONTINUE, ws_compact ws), w).
Proof.
  intros Hs Ha. unfold ws_parse, parse_fuel. cbn [ws_parse_loop]. rewrite bind_run.
  unfold result, world, ws_parse_step. rewrite Hs. unfold ws_parse_header.
  by rewrite (proj2 (Z.ltb_lt _ _) Ha).
Qed.

(** A session with nothing left to read delivers no message any more. *)
Lemma recv_loop_end fuel ws w :
  ws_ok ws → ws_state ws = WS_NEED_HEADER → unread ws = [] → arriving (w_recv w) = [] →
  Forall benign (w_recv w) → w_listening w = [] →
  let r := ws_recv_loop fuel ws w in r.1.1 ≠ HTTP_WS_OK ∧ w_sent r.2 = w_sent w.
Proof.
  revert ws w. induction fuel as [|fuel IH]; intros ws w Hok Hst HU Ha Hb Hl; [done|].
  cbn [ws_recv_loop]. cbv zeta.
  assert (ws_avail ws = 0) as Hav by (by rewrite <- (zlen_unread ws Hok), HU).
  destruct (compact_ok ws Hok ltac:(lia)) as (Hok1 & Hp1 & Hl1).
  assert (unread (ws_compact ws) = []) as HU1 by (by rewrite unread_compact).
  assert (ws_state (ws_compact ws) = WS_NEED_HEADER) as Hst1 by (unfold ws_compact; by case_if).
  rewrite bind_run. unfold result, world. rewrite parse_nothing by (done || lia). cbn [fst snd].
  rewrite grow_in_room by done. rewrite bind_run. unfold result, world. cbn [fst snd negb mret M_ret].
  rewrite bind_run. unfold result, world, ws_recv_in. rewrite recv_run. cbn [fst snd].
  destruct (w_recv w) as [|e q] eqn:Eq; [done|]. apply Forall_cons in Hb as [He Hb].
  destruct e as [bs| | | |]; try done; cbn [arriving] in Ha.
  - by apply app_nil in Ha as [-> _].
  - cbn [recv_step fst snd]. by apply (IH (ws_compact ws) (with_recv q w)).
  - cbn [recv_step fst snd]. rewrite bind_run. unfold result, world, read_listening.
    cbn [with_recv w_listening]. rewrite Hl. cbn [fst snd negb].
    by apply (IH (ws_compact ws) (with_recv q w)).
Qed.

Lemma http_ws_recv_end ws w :
  ready ws → unread ws ++ arriving (w_recv w) = [] → Forall benign (w_recv w) → w_listening w = [] →
  let r := http_ws_recv ws w in r.1.1 ≠ HTTP_WS_OK ∧ w_sent r.2 = w_sent w.
Proof.
  intros [Hok Hd Hst _ _] HU Hb Hl. apply app_nil in HU as [HU Ha]. unfold http_ws_recv. rewrite Hd.
  rewrite bind_run. unfold result, world, recv_queue. cbn [fst snd]. by apply recv_loop_end.
Qed.

Lemma echo_run_returns cs ws w c :
  echo_run (ws, w) c →
  ready ws → w_send w = [] → w_alloc w = [] → w_listening w = [] → Forall benign (w_recv w) →
  Forall (cm_ok (ws_max_message ws)) cs → unread ws ++ arriving (w_recv w) = cm_stream cs →
  w_sent c.2 = w_sent w ++ concat (map echo_text cs).
Proof.
  revert ws w. induction cs as [|m cs IH]; intros ws w Hrun Hr Hs Ha Hl Hb Hc HU.
  - destruct (http_ws_recv_end ws w Hr HU Hb Hl) as [Hn Hsent]. cbn [map concat]. rewrite app_nil_r.
    inversion Hrun as [? ? r ws' w' E Hne|? ? ws1 w1 msg ws2 w2 ? E Hm E2 Hrest]; subst;
      rewrite E in Hn, Hsent; done.
  - apply Forall_cons in Hc as [[Hop Hd] Hc].
    unfold cm_stream in HU. cbn [map concat compose] in HU. unfold compose in HU at 1.
    destruct (http_ws_recv_delivers _ ws w _ _ _ _ Hr Hs Ha Hl Hb Hop Hd HU)
      as (ws1 & w1 & E & ((t & Ht & Hiff) & Hr1) & HU1 & Hb1 & Hw1 & Hs1 & Ha1 & Hl1).
    pose proof (recv_keeps_max ws w) as Hk. unfold keeps_max, result in Hk. rewrite E in Hk. cbn [fst snd] in Hk.
    inversion Hrun as [? ? r ws' w' E' Hne|? ? ws1' w1' msg ws2 w2 ? E' Hm E2 Hrest]; subst;
      rewrite E in E'; [by injection E' as <- _ _|]. injection E' as <- <-.
    rewrite Ht in Hm. injection Hm as <-. rewrite echo_message_run in E2. cbn [wm_data] in E2.
    set (msg := {| wm_type := t; wm_data := cm_data m |}) in *.
    destruct (send_frame_quiet ws1 (echo_opcode msg) (cm_data m) w1 (rd_alive _ Hr1) Hs1)
      as (w3 & E3 & Hw3 & Hs3 & Ha3 & Hr3 & Hl3). rewrite E3 in E2. cbn [fst snd] in E2.
    injection E2 as <- <-. rewrite <- Hk in Hc.
    rewrite (IH ws1 w3 Hrest Hr1 Hs3) by (try done; by rewrite ?Ha3, ?Hl3, ?Hr3).
    rewrite Hw3, Hw1. cbn [map concat]. unfold echo_text at 2, frame_text. rewrite <- !app_assoc.
    assert (echo_opcode msg = cm_opcode m) as ->; [|done].
    unfold echo_opcode, msg. cbn [wm_type]. destruct t; [by symmetry; apply Hiff|].
    destruct Hop as [Hop|Hop]; [|done]. by apply Hiff in Hop.
Qed.

(** A client that sends a stream of messages, in any fragmentation and segmentation, gets
    each of them back, whole, with its type and in order, every ping answered in its place, and nothing
    else. *)
Lemma echo_returns cs ws req w :
  ready ws → w_send w = [] → w_alloc w = [] → w_listening w = [] → Forall benign (w_recv w) →
  Forall (cm_ok (ws_max_message ws)) cs → unread ws ++ arriving (w_recv w) = cm_stream cs →
  w_sent (world (ws_echo_handler ws req) w) = w_sent w ++ concat (map echo_text cs).
Proof.
  intros Hr Hs Ha Hl Hb Hc HU. unfold world. eapply echo_run_returns; try done.
  assert (ws_echo_handler ws req w = ws_echo_loop (S (session_left ws (w_recv w))) ws w) as -> by done.
  apply ws_echo_loop_run; [apply Hr|lia].
Qed.
