(* ===== verification/ExampleChat.v ===== *)
(** * The chat of the example server

    [Chat], [chat_broadcast] and [ws_chat_handler] of [src/examples/main.c].  Each
    connection has a thread that runs the handler on its own session; the list of
    clients is shared and guarded by its lock.  A step relation interleaves the
    critical sections and the receives of the handlers; a session is a pointer
    into a store, which the connection loop frees when the handler returns. *)

From stdpp Require Import gmap relations.
From S2P Require Import Prelude CLib World Types Net Server WsSession WsProtocol WsWire.
#[local] Open Scope Z_scope.

(** ** The shared list *)

Definition CHAT_MAX_CLIENTS : Z := 64.

(** Sessions are named by their address; [None] is NULL. *)
Record Chat := { clients : list (option nat); count : Z }.

Definition g_chat : Chat := {| clients := replicate (Z.to_nat CHAT_MAX_CLIENTS) None; count := 0 |}.

(** The first slot that holds [p]. *)
Fixpoint find_slot (p : option nat) (slots : list (option nat)) : option nat :=
  match slots with
  | [] => None
  | s :: slots => if bool_decide (s = p) then Some 0%nat else S <$> find_slot p slots
  end.

(** The critical section in front of the loop. *)
Definition chat_register (ws : nat) (c : Chat) : Chat :=
  match find_slot None (clients c) with
  | Some i => {| clients := <[i := Some ws]> (clients c); count := count c + 1 |}
  | None => c
  end.

(** The critical section behind the loop. *)
Definition chat_unregister (ws : nat) (c : Chat) : Chat :=
  match find_slot (Some ws) (clients c) with
  | Some i => {| clients := <[i := None]> (clients c); count := count c - 1 |}
  | None => c
  end.

(** What [chat_broadcast] sends to: the first [count] slots. *)
Definition chat_targets (c : Chat) : list (option nat) := ztake (count c) (clients c).

(** ["%s:%u: %.*s"]: the text of a message ends at a NUL. *)
Definition chat_text (ip : bytes) (client_port : Z) (data : bytes) : bytes :=
  ip ++ str ":" ++ fmt_u client_port ++ str ": " ++ cstr (ztake 400 data).

Definition chat_line (req : HttpRequest) (msg : HttpWsMessage) : bytes :=
  snprintf_s 512 (chat_text (req_ip req) (req_client_port req) (wm_data msg)).

(** ** The handlers *)

(** Where a thread is in [ws_chat_handler]. *)
Inductive ChatPhase :=
  | CJoining                 (** in front of the registration *)
  | CServing                 (** in front of [http_ws_recv] *)
  | CSending (line : bytes)  (** in front of [chat_broadcast] *)
  | CLeaving.                (** behind the loop *)

(** A session: its state, its connection, the request it came from. *)
Record ChatSession := {
  se_ws : HttpWs; se_world : World; se_req : HttpRequest; se_phase : ChatPhase }.

Definition set_se (ws : HttpWs) (w : World) (s : ChatSession) : ChatSession :=
  {| se_ws := ws; se_world := w; se_req := se_req s; se_phase := se_phase s |}.
Definition set_se_phase (p : ChatPhase) (s : ChatSession) : ChatSession :=
  {| se_ws := se_ws s; se_world := se_world s; se_req := se_req s; se_phase := p |}.

Abbreviation Sessions := (gmap nat ChatSession).

(** Sends the line to each target; [None]: a NULL or freed session was used. *)
Fixpoint send_to_all (targets : list (option nat)) (line : bytes) (ss : Sessions) : option Sessions :=
  match targets with
  | [] => Some ss
  | None :: _ => None
  | Some t :: targets =>
      match ss !! t with
      | None => None
      | Some s =>
          let r := http_ws_send_text (se_ws s) line (se_world s) in
          send_to_all targets line (<[t := set_se r.1.2 r.2 s]> ss)
      end
  end.

Definition chat_broadcast (line : bytes) (c : Chat) (ss : Sessions) : option Sessions :=
  send_to_all (chat_targets c) line ss.

(** One round of the loop up to the broadcast. *)
Definition chat_receive (s : ChatSession) : ChatSession :=
  let r := http_ws_recv (se_ws s) (se_world s) in
  let s := set_se r.1.2 r.2 s in
  match r.1.1, ws_cur r.1.2 with
  | HTTP_WS_OK, Some msg =>
      match wm_type msg with
      | HTTP_WS_TEXT => set_se_phase (CSending (chat_line (se_req s) msg)) s
      | HTTP_WS_BINARY => s
      end
  | _, _ => set_se_phase CLeaving s
  end.

(** The process: running, or stopped by the use of a bad pointer. *)
Inductive ChatSystem := Running (c : Chat) (ss : Sessions) | Crashed.

(** A thread's next step. *)
Definition chat_step_of (t : nat) (y : ChatSystem) : option ChatSystem :=
  match y with
  | Crashed => None
  | Running c ss =>
      s ← ss !! t;
      Some (match se_phase s with
            | CJoining => Running (chat_register t c) (<[t := set_se_phase CServing s]> ss)
            | CServing => Running c (<[t := chat_receive s]> ss)
            | CSending line =>
                match chat_broadcast line c ss with
                | None => Crashed
                | Some ss => Running c (alter (set_se_phase CServing) t ss)
                end
            | CLeaving => Running (chat_unregister t c) (delete t ss)
            end)
  end.

(** A new connection, or a step of a thread. *)
Inductive chat_step : ChatSystem → ChatSystem → Prop :=
  | chs_open c ss t ws w req :
      ss !! t = None →
      chat_step (Running c ss)
        (Running c (<[t := {| se_ws := ws; se_world := w; se_req := req; se_phase := CJoining |}]> ss))
  | chs_thread t y y' : chat_step_of t y = Some y' → chat_step y y'.

Definition chat_start : ChatSystem := Running g_chat ∅.

(** ** Slots *)

(** The registered sessions, in the order of their slots. *)
Definition registered (slots : list (option nat)) : list nat := omap id slots.

Lemma find_slot_spec p slots i :
  find_slot p slots = Some i →
  ∃ l k, slots = l ++ p :: k ∧ length l = i.
Proof.
  revert i. induction slots as [|s slots IH]; intros i; cbn [find_slot]; [done|].
  case_bool_decide as Hs.
  - intros [= <-]. subst s. by exists [], slots.
  - destruct (find_slot p slots) as [j|]; [|done]. intros [= <-].
    destruct (IH j eq_refl) as (l & k & -> & <-). by exists (s :: l), k.
Qed.

Lemma find_slot_None p slots : find_slot p slots = None → p ∉ slots.
Proof.
  induction slots as [|s slots IH]; cbn [find_slot]; [intros _; apply not_elem_of_nil|].
  case_bool_decide as Hs; [done|]. destruct (find_slot p slots); [done|]. intros _.
  apply not_elem_of_cons. auto.
Qed.

Lemma registered_app l k : registered (l ++ k) = registered l ++ registered k.
Proof. apply omap_app. Qed.

Lemma elem_of_registered t slots : t ∈ registered slots ↔ Some t ∈ slots.
Proof.
  unfold registered. rewrite list_elem_of_omap. split.
  - intros (s & Hs & E). cbn in E. by subst s.
  - intros H. by exists (Some t).
Qed.

Lemma registered_free n : registered (replicate n None) = [].
Proof. by induction n. Qed.

(** The slots without a hole are the registered sessions. *)
Lemma registered_full slots : None ∉ slots → slots = Some <$> registered slots.
Proof.
  induction slots as [|[t|] slots IH]; intros H; [done| |].
  - apply not_elem_of_cons in H as [_ H]. change (Some t :: slots = Some t :: (Some <$> registered slots)).
    f_equal. by apply IH.
  - by apply not_elem_of_cons in H as [].
Qed.

(** ** The invariant *)

Record chat_ok (c : Chat) (ss : Sessions) : Prop := {
  cho_slots : zlen (clients c) = CHAT_MAX_CLIENTS;
  cho_count : count c = zlen (registered (clients c));
  cho_once : NoDup (registered (clients c));
  cho_live : ∀ t, t ∈ registered (clients c) → ∃ s, ss !! t = Some s ∧ se_phase s ≠ CJoining;
}.

Lemma chat_start_ok : chat_ok g_chat ∅.
Proof.
  split; unfold g_chat; cbn [clients count]; rewrite ?registered_free; try done; [constructor|].
  intros t Ht. by apply elem_of_nil in Ht.
Qed.

(** Registering and unregistering in terms of the slots. *)
Lemma chat_register_spec t c :
  None ∉ clients c ∧ chat_register t c = c ∨
  ∃ l k, clients c = l ++ None :: k ∧
    chat_register t c = {| clients := l ++ Some t :: k; count := count c + 1 |}.
Proof.
  unfold chat_register. destruct (find_slot None (clients c)) as [i|] eqn:E.
  - right. apply find_slot_spec in E as (l & k & E & <-). exists l, k. split; [done|].
    by rewrite E, insert_app_r_alt, Nat.sub_diag by lia.
  - left. by split; [apply find_slot_None|].
Qed.

Lemma chat_unregister_spec t c :
  t ∉ registered (clients c) ∧ chat_unregister t c = c ∨
  ∃ l k, clients c = l ++ Some t :: k ∧
    chat_unregister t c = {| clients := l ++ None :: k; count := count c - 1 |}.
Proof.
  unfold chat_unregister. destruct (find_slot (Some t) (clients c)) as [i|] eqn:E.
  - right. apply find_slot_spec in E as (l & k & E & <-). exists l, k. split; [done|].
    by rewrite E, insert_app_r_alt, Nat.sub_diag by lia.
  - left. rewrite elem_of_registered. by split; [apply find_slot_None|].
Qed.

(** A session in front of its registration is not registered. *)
Lemma register_ok c ss t s :
  chat_ok c ss → ss !! t = Some s → se_phase s = CJoining →
  chat_ok (chat_register t c) (<[t := set_se_phase CServing s]> ss).
Proof.
  intros [H1 H2 H3 H4] Ht Hp.
  assert (t ∉ registered (clients c)) as Hn.
  { intros Hin. destruct (H4 t Hin) as (s' & Hs & Hp'). congruence. }
  assert (∀ u, u ∈ registered (clients c) ∨ u = t →
    ∃ s', <[t := set_se_phase CServing s]> ss !! u = Some s' ∧ se_phase s' ≠ CJoining) as Hlive.
  { intros u Hu. destruct (decide (u = t)) as [->|Hne].
    - eexists. by rewrite lookup_insert_eq.
    - rewrite lookup_insert_ne by done. destruct Hu as [Hu|]; [by apply H4|done]. }
  destruct (chat_register_spec t c) as [[_ ->]|(l & k & E & ->)].
  { split; auto. }
  rewrite E in *. rewrite registered_app in *. cbn [registered omap list_omap id] in *.
  fold (registered k) in *.
  split; cbn [clients count]; rewrite ?registered_app; cbn [registered omap list_omap id]; fold (registered k).
  - revert H1. by rewrite !zlen_app, !zlen_cons.
  - rewrite H2, !zlen_app, zlen_cons. lia.
  - rewrite <- Permutation_middle. by constructor.
  - intros u Hu. apply Hlive. rewrite <- Permutation_middle in Hu. apply elem_of_cons in Hu. tauto.
Qed.

Lemma unregister_ok c ss t :
  chat_ok c ss → chat_ok (chat_unregister t c) (delete t ss).
Proof.
  intros [H1 H2 H3 H4].
  assert (∀ u, u ≠ t → u ∈ registered (clients c) →
    ∃ s', delete t ss !! u = Some s' ∧ se_phase s' ≠ CJoining) as Hlive.
  { intros u Hne Hu. rewrite lookup_delete_ne by done. by apply H4. }
  destruct (chat_unregister_spec t c) as [[Hn ->]|(l & k & E & ->)].
  { split; try done. intros u Hu. apply Hlive; [|done]. by intros ->. }
  rewrite E in *. rewrite registered_app in *. cbn [registered omap list_omap id] in *.
  fold (registered k) in *.
  split; cbn [clients count]; rewrite ?registered_app; cbn [registered omap list_omap id]; fold (registered k).
  - revert H1. by rewrite !zlen_app, !zlen_cons.
  - rewrite H2, !zlen_app, zlen_cons. lia.
  - rewrite <- Permutation_middle in H3. by apply NoDup_cons in H3 as [_ H3].
  - intros u Hu. apply Hlive.
    + intros ->. rewrite <- Permutation_middle in H3. by apply NoDup_cons in H3 as [H3 _].
    + rewrite <- Permutation_middle. by apply elem_of_cons; right.
Qed.

Lemma chat_ok_sessions c ss ss' :
  chat_ok c ss →
  (∀ t s, ss !! t = Some s → se_phase s ≠ CJoining →
     ∃ s', ss' !! t = Some s' ∧ se_phase s' ≠ CJoining) →
  chat_ok c ss'.
Proof.
  intros [H1 H2 H3 H4] H. split; try done. intros t Ht. destruct (H4 t Ht) as (s & Hs & Hp). eauto.
Qed.

Lemma chat_ok_insert c ss t s :
  chat_ok c ss → (is_Some (ss !! t) → se_phase s ≠ CJoining) → chat_ok c (<[t := s]> ss).
Proof.
  intros Hok Hp. eapply chat_ok_sessions; [exact Hok|]. intros u s' Hu Hp'.
  destruct (decide (u = t)) as [->|Hne]; [|rewrite lookup_insert_ne by done; eauto].
  exists s. rewrite lookup_insert_eq. split; [done|]. apply Hp. eauto.
Qed.

(** A receive leaves the session in the handler. *)
Lemma chat_receive_phase s : se_phase s ≠ CJoining → se_phase (chat_receive s) ≠ CJoining.
Proof.
  intros H. unfold chat_receive. cbv zeta.
  destruct (http_ws_recv (se_ws s) (se_world s)) as [[[] ws] w]; cbn [fst snd]; try done.
  destruct (ws_cur ws) as [msg|]; [|done]. by destruct (wm_type msg).
Qed.

(** ** Broadcasting *)

(** What a broadcast does to one of its targets. *)
Definition deliver_line (line : bytes) (s : ChatSession) : ChatSession :=
  let r := http_ws_send_text (se_ws s) line (se_world s) in set_se r.1.2 r.2 s.

Lemma send_to_all_spec line ids ss :
  NoDup ids → (∀ t, t ∈ ids → is_Some (ss !! t)) →
  ∃ ss', send_to_all (Some <$> ids) line ss = Some ss' ∧
    ∀ t, ss' !! t = (if bool_decide (t ∈ ids) then deliver_line line else id) <$> ss !! t.
Proof.
  revert ss. induction ids as [|i ids IH]; intros ss Hn Hl.
  { exists ss. split; [done|]. intros t. rewrite bool_decide_false by apply not_elem_of_nil.
    by destruct (ss !! t). }
  apply NoDup_cons in Hn as [Hi Hn]. destruct (Hl i) as [s Hs]; [by left|].
  cbn [fmap list_fmap send_to_all]. rewrite Hs. fold (deliver_line line s).
  destruct (IH (<[i := deliver_line line s]> ss) Hn) as (ss' & E & Hss').
  { intros t Ht. destruct (decide (t = i)) as [->|Hne]; [by rewrite lookup_insert_eq|].
    rewrite lookup_insert_ne by done. apply Hl. by right. }
  exists ss'. split; [exact E|]. intros t. rewrite Hss'.
  destruct (decide (t = i)) as [->|Hne].
  - rewrite lookup_insert_eq, Hs. rewrite bool_decide_false by done.
    by rewrite bool_decide_true by (by left).
  - rewrite lookup_insert_ne by done. f_equal.
    destruct (decide (t ∈ ids)) as [Hin|Hin].
    + by rewrite !bool_decide_true by (by try right).
    + rewrite !bool_decide_false; [done| |done]. by apply not_elem_of_cons.
Qed.

(** A hole among the targets is a NULL session. *)
Lemma send_to_all_hole line targets ss : None ∈ targets → send_to_all targets line ss = None.
Proof.
  revert ss. induction targets as [|[t|] targets IH]; intros ss H; [by apply elem_of_nil in H| |done].
  apply elem_of_cons in H as [H|H]; [done|]. cbn [send_to_all].
  destruct (ss !! t); [by apply IH|done].
Qed.

Lemma registered_length slots : zlen (registered slots) <= zlen slots.
Proof.
  induction slots as [|[t|] slots IH]; [done| |];
    cbn [registered omap list_omap id]; fold (registered slots); rewrite ?zlen_cons; lia.
Qed.

(** Without a hole the first [count] slots hold every registered session. *)
Lemma targets_full c ss :
  chat_ok c ss → None ∉ chat_targets c → chat_targets c = Some <$> registered (clients c).
Proof.
  intros Hok Hn. pose proof (registered_full _ Hn) as Hf.
  assert (registered (clients c)
          = registered (chat_targets c) ++ registered (zdrop (count c) (clients c))) as E
    by (unfold chat_targets; by rewrite <- registered_app, ztake_zdrop).
  pose proof (cho_count _ _ Hok) as Hc. pose proof (registered_length (clients c)) as Hle.
  pose proof (zlen_nonneg (registered (clients c))) as H0.
  assert (zlen (registered (chat_targets c)) = count c) as Hl.
  { apply (f_equal zlen) in Hf. unfold zlen at 2 in Hf. rewrite length_fmap in Hf. fold (zlen (registered (chat_targets c))) in Hf.
    rewrite <- Hf. unfold chat_targets. rewrite zlen_ztake by lia. lia. }
  assert (registered (zdrop (count c) (clients c)) = []) as Hz.
  { apply zlen_nil_inv. apply (f_equal zlen) in E. rewrite zlen_app in E. lia. }
  by rewrite Hf, E, Hz, app_nil_r.
Qed.

Lemma chat_broadcast_run line c ss :
  chat_ok c ss →
  match chat_broadcast line c ss with
  | None => None ∈ chat_targets c
  | Some ss' => chat_targets c = Some <$> registered (clients c) ∧
      ∀ t, ss' !! t = (if bool_decide (t ∈ registered (clients c)) then deliver_line line else id) <$> ss !! t
  end.
Proof.
  intros Hok. unfold chat_broadcast. destruct (decide (None ∈ chat_targets c)) as [Hin|Hn].
  { by rewrite send_to_all_hole. }
  rewrite (targets_full c ss Hok Hn).
  destruct (send_to_all_spec line (registered (clients c)) ss) as (ss' & E & H).
  - apply Hok.
  - intros t Ht. destruct (cho_live _ _ Hok t Ht) as (s & Hs & _). by eexists.
  - rewrite E. by split.
Qed.

(** ** Every reachable state *)

Definition system_ok (y : ChatSystem) : Prop :=
  match y with Running c ss => chat_ok c ss | Crashed => True end.

Lemma chat_step_ok y y' : chat_step y y' → system_ok y → system_ok y'.
Proof.
  intros [c ss t ws w req Hf|t y1 y2 E] Hok.
  { cbn in *. apply chat_ok_insert; [done|]. intros [s Hs]. congruence. }
  destruct y1 as [c ss|]; [|done]. cbn [chat_step_of] in E. cbn [system_ok] in Hok.
  destruct (ss !! t) as [s|] eqn:Hs; [|done]. cbn in E. injection E as <-.
  destruct (se_phase s) as [| |line|] eqn:Hp; cbn [system_ok].
  - by apply register_ok.
  - apply chat_ok_insert; [done|]. intros _. apply chat_receive_phase. by rewrite Hp.
  - pose proof (chat_broadcast_run line c ss Hok) as Hb.
    destruct (chat_broadcast line c ss) as [ss'|]; [|done]. destruct Hb as [_ Hb].
    eapply chat_ok_sessions; [exact Hok|]. intros u su Hu Hpu.
    assert (∃ s', ss' !! u = Some s' ∧ se_phase s' ≠ CJoining) as (s' & Hs' & Hps).
    { rewrite Hb, Hu. case_bool_decide; by eexists. }
    destruct (decide (u = t)) as [->|Hne].
    + exists (set_se_phase CServing s'). by rewrite lookup_alter_eq, Hs'.
    + exists s'. by rewrite lookup_alter_ne.
  - by apply unregister_ok.
Qed.

Lemma chat_reachable y : rtc chat_step chat_start y → system_ok y.
Proof.
  intros H. apply (rtc_ind_r (R := chat_step) system_ok chat_start); [exact chat_start_ok| |exact H].
  eauto using chat_step_ok.
Qed.

(** C14: however connections open, receive, broadcast and close, in any interleaving: the list
    of clients holds exactly [count] sessions, each once and none of them freed - every pointer in it is a
    session whose handler is still running. *)
Theorem chat_no_dangling c ss :
  rtc chat_step chat_start (Running c ss) → chat_ok c ss.
Proof.
  apply (chat_reachable (Running c ss)).
Qed.

(** A broadcast sends the line to every registered client, exactly once, and touches no
    other session; it does so if and only if the first [count] slots have no hole.  Otherwise a client has
    left from among them, and the broadcast uses a NULL session. *)
Lemma chat_broadcast_spec c ss line :
  rtc chat_step chat_start (Running c ss) →
  match chat_broadcast line c ss with
  | Some ss' => None ∉ chat_targets c ∧
      ∀ t, ss' !! t = (if bool_decide (t ∈ registered (clients c)) then deliver_line line else id) <$> ss !! t
  | None => None ∈ chat_targets c
  end.
Proof.
  intros H.
  pose proof (chat_reachable (Running c ss) H) as Hok.
  pose proof (chat_broadcast_run line c ss Hok) as Hb. destruct (chat_broadcast line c ss) as [ss'|]; [|done].
  destruct Hb as [E Hb]. split; [|done]. rewrite E. intros Hin.
  apply list_elem_of_fmap in Hin as (t & Ht & _). done.
Qed.

(** ** Schedules *)

Fixpoint run_threads (ts : list nat) (y : ChatSystem) : option ChatSystem :=
  match ts with
  | [] => Some y
  | t :: ts => chat_step_of t y ≫= run_threads ts
  end.

Lemma run_threads_steps ts y y' : run_threads ts y = Some y' → rtc chat_step y y'.
Proof.
  revert y. induction ts as [|t ts IH]; intros y; cbn [run_threads]; [by intros [= ->]|].
  destruct (chat_step_of t y) as [y1|] eqn:E; [|done]. cbn. intros H.
  eapply rtc_l; [by eapply chs_thread|by apply IH].
Qed.

(** Alice hangs up at once, Bob says hello. *)
Definition alice : ChatSession :=
  {| se_ws := fresh_session 1000 []; se_world := quiet_world; se_req := empty_request; se_phase := CJoining |}.

Definition bob : ChatSession :=
  {| se_ws := fresh_session 1000 [];
     se_world := receives [RData (encode_frame (client_frame true WS_OP_TEXT (str "hello")))];
     se_req := set_req_client_port 4711 (set_req_ip (str "10.0.0.2") empty_request); se_phase := CJoining |}.

Definition both_open : ChatSystem := Running g_chat {[ 0%nat := alice; 1%nat := bob ]}.

Lemma both_open_steps : rtc chat_step chat_start both_open.
Proof.
  apply (rtc_l _ _ (Running g_chat {[ 1%nat := bob ]})).
  - apply (chs_open g_chat ∅ 1 (se_ws bob) (se_world bob) (se_req bob)). done.
  - apply rtc_once. apply (chs_open g_chat {[ 1%nat := bob ]} 0 (se_ws alice) (se_world alice) (se_req alice)).
    done.
Qed.

(** While both are there, Bob's line reaches both of them. *)
Example chat_hello :
  match run_threads [0; 1; 1; 1]%nat both_open with
  | Some (Running c ss) =>
      registered (clients c) = [0; 1]%nat ∧
      map (λ t, (λ s, w_sent (se_world s)) <$> ss !! t) [0; 1]%nat =
        let line := frame_text WS_OP_TEXT (str "10.0.0.2:4711: hello") in [Some line; Some line]
  | _ => False
  end.
Proof. vm_compute. auto. Qed.

(** Alice joins, Bob joins, Alice leaves - her slot is NULL now, and the count is
    1 - and Bob's message makes the server send to slot 0: it dereferences NULL. *)
Lemma chat_crashes : rtc chat_step chat_start Crashed.
Proof.
  etrans; [apply both_open_steps|]. apply (run_threads_steps [0; 1; 0; 0; 1; 1]%nat). by vm_compute.
Qed.

(** The state with both registered. *)
Definition both_joined : option ChatSystem := run_threads [0; 1]%nat both_open.

Lemma chat_no_dangling_witness :
  match both_joined with Some (Running c ss) => chat_ok c ss | _ => False end.
Proof.
  destruct both_joined as [[c ss|]|] eqn:E; [|by vm_compute in E..].
  apply chat_no_dangling. etrans; [apply both_open_steps|]. by apply (run_threads_steps [0; 1]%nat).
Defined.

(** A line always fits its buffer: [snprintf] never cuts it, and its result is
    its length. *)
Lemma chat_line_fits req msg :
  zlen (req_ip req) < 46 → 0 <= req_client_port req < 65536 →
  chat_line req msg = chat_text (req_ip req) (req_client_port req) (wm_data msg).
Proof.
  intros Hip Hport. unfold chat_line, snprintf_s. apply ztake_all. unfold chat_text.
  pose proof (cstr_length (ztake 400 (wm_data msg))) as Hc. rewrite zlen_ztake in Hc by lia.
  pose proof (fmt_u_length (req_client_port req) 5 ltac:(lia)) as Hf.
  rewrite !zlen_app. change (zlen (str ":")) with 1. change (zlen (str ": ")) with 2.
  assert (zlen (fmt_u (req_client_port req)) <= 5); [|lia]. apply Hf. change (10 ^ 5) with 100000. lia.
Qed.
