(* ===== verification/ExampleHome.v ===== *)
(** * The home page of the example server

    [src/examples/tpl/home_data.h] and [src/examples/tpl/home_templ.c]: the data the
    page is made of and the components that write it, as the compiler generated
    them from [home.thtml] ([ExampleTempl] generates the file again).  [shows] says
    what a component contributes to the page, in a calculus with a rule per
    construct of the generated code; the page as a whole is [home_markup]. *)

From S2P Require Import Prelude CLib World Types Tpl.
#[local] Open Scope Z_scope.

(** ** The data *)

(** The strings may be NULL. *)
Record HomeLink := { hl_name : option bytes; hl_url : option bytes }.

(** [links\[0..link_count)]. *)
Record HomePageData := {
  hp_title : option bytes; hp_user : option bytes; hp_logged_in : bool; hp_links : list HomeLink }.

(** ** The components *)

(** Text in which an apostrophe stands for a quotation mark. *)
Definition marked (s : bytes) : bytes := map (λ c, if c =? "'"%ch then DQUOTE else c) s.

Definition literal (out : TplOut) (s : String.string) : M TplOut := tpl_lit out (Some (marked (str s))).

Arguments literal out s%_string_scope.

(** The one handle of the program; it is compared by its address. *)
Definition note_style : TplOnce := 1.

(** [if (tpl_once_begin(out, &handle)) { ... }]. *)
Definition once_block (handle : TplOnce) (block : TplOut → M TplOut) (out : TplOut) : M TplOut :=
  '(fires, out) ← tpl_once_begin out handle;
  if (fires : bool) then block out else mret out.

Definition tpl_feature_note (out : TplOut) : M TplOut :=
  out ← literal out "
  <!-- @once: the <style> reaches the page exactly once per render,
       no matter how often this component is used on it -->
  ";
  out ← once_block note_style (λ out, literal out "
    <style>.note { color: #666; font-size: 0.9em; }</style>") out;
  literal out "
  <p class='note'>rendered server-side with ctmpl</p>".

Definition tpl_nav_bar (out : TplOut) : M TplOut :=
  literal out "
  <nav>
    <a href='/'>Home</a> |
    <a href='/api/status'>API status</a> |
    <a href='/public/ws.html'>Chat demo</a>
  </nav>".

(** [tpl_attr_url(out, (tpl_url(out, url)))]. *)
Definition attr_url (url : option bytes) (out : TplOut) : M TplOut :=
  '(url, out) ← tpl_url out url;
  tpl_attr_url out url.

Fixpoint link_rows (links : list HomeLink) (out : TplOut) : M TplOut :=
  match links with
  | [] => mret out
  | link :: links =>
      out ← literal out "
    <li><a href='";
      out ← attr_url (hl_url link) out;
      out ← literal out "'>";
      out ← tpl_esc out (hl_name link);
      out ← literal out "</a></li>";
      link_rows links out
  end.

Definition tpl_link_list (out : TplOut) (p : HomePageData) : M TplOut :=
  out ← literal out "
  <ul class='links'>";
  out ← link_rows (hp_links p) out;
  literal out "
  </ul>".

(** A block of markup that is passed to a component: a function, which may be NULL,
    and the data it is called with. *)
Record TplChildren (D : Type) := { tc_fn : option (TplOut → D → M TplOut); tc_data : D }.
Arguments tc_fn {D}.
Arguments tc_data {D}.

Definition render_children {D} (children : option (TplChildren D)) (out : TplOut) : M TplOut :=
  match children with
  | Some children =>
      match tc_fn children with Some fn => fn out (tc_data children) | None => mret out end
  | None => mret out
  end.

Definition tpl_layout {D} (out : TplOut) (children : option (TplChildren D)) : M TplOut :=
  out ← literal out "
  <!DOCTYPE html>
  <html lang='en'>
    <head>
      <meta charset='utf-8'/>
      <title>c-http example</title>
    </head>
    <body>
      ";
  out ← tpl_nav_bar out;
  out ← literal out "
      <main>
        ";
  out ← render_children children out;
  literal out "
      </main>
    </body>
  </html>".

(** [tpl_frag_begin(out, name); ... tpl_frag_end(out)]. *)
Definition frag_block (name : bytes) (block : TplOut → M TplOut) (out : TplOut) : M TplOut :=
  out ← block (tpl_frag_begin out (Some name));
  mret (tpl_frag_end out).

Definition tpl__block_1 (out : TplOut) (p : HomePageData) : M TplOut :=
  out ← literal out "
    ";
  out ← tpl_feature_note out;
  out ← literal out "
    <h1>";
  out ← tpl_esc out (hp_title p);
  out ← literal out "</h1>";
  out ← (if hp_logged_in p then
           out ← literal out "
      <p>Welcome back, <b>";
           out ← tpl_esc out (hp_user p);
           literal out "</b>!</p>"
         else literal out "
      <p><a href='/login'>Log in</a> to see more.</p>");
  out ← literal out "
    <hr ";
  out ← (if hp_logged_in p then literal out " noshade" else mret out);
  out ← literal out "/>
    <p>Server features:</p>
    <!-- @fragment: /frag renders ONLY this block — htmx swaps it in -->
    ";
  out ← frag_block (str "links") (λ out,
          out ← literal out "
      ";
          tpl_link_list out p) out;
  out ← literal out "
    ";
  tpl_feature_note out.

Definition tpl__block_1_adapter (out : TplOut) (tpl_data : HomePageData) : M TplOut :=
  tpl__block_1 out tpl_data.

Definition tpl_home (out : TplOut) (p : HomePageData) : M TplOut :=
  out ← literal out "
  ";
  tpl_layout out (Some {| tc_fn := Some tpl__block_1_adapter; tc_data := p |}).

(** ** What a component contributes *)

(** The state of the fragment machine, which components restore. *)
Definition same_select (out out' : TplOut) : Prop :=
  to_frag_sel out' = to_frag_sel out ∧ to_frag_depth out' = to_frag_depth out ∧
  to_frag_match out' = to_frag_match out.

#[export] Instance same_select_preorder : PreOrder same_select.
Proof. split; [by intros ?|]. unfold same_select. intros ???; intuition congruence. Qed.

Lemma same_frame_select out out' : same_frame out out' → same_select out out'.
Proof. by intros (_ & ? & ? & ? & _). Qed.

Lemma same_select_kept out out' m : same_select out out' → kept out' m = kept out m.
Proof.
  intros (H1 & _ & H3). assert (keeping out' ↔ keeping out) by (unfold keeping; by rewrite H1, H3).
  unfold kept. rewrite H1. by do 2 case_decide; try tauto.
Qed.

Lemma same_select_ok out out' : same_select out out' → frag_ok out → frag_ok out'.
Proof. unfold frag_ok. by intros (_ & -> & ->). Qed.

(** [f] contributes [m], and of the once blocks those in [before] have run ahead of
    it, those in [after] when it is done.  A failed output stays as it is; otherwise
    a prefix of the text is appended, all of it unless the output fails; with
    memory it does not. *)
Definition shows (before after : list TplOnce) (m : Markup) (f : TplOut → M TplOut) : Prop :=
  ∀ out w, out_ok out → frag_ok out → (to_failed out = false → to_once_fired out = before) →
  let r := f out w in
  out_ok r.1 ∧ same_select out r.1 ∧
  (to_failed out = true → to_data r.1 = to_data out ∧ to_failed r.1 = true) ∧
  (to_failed r.1 = false → to_once_fired r.1 = after) ∧
  (∃ t u, kept out m = t ++ u ∧ to_data r.1 = to_data out ++ t ∧ (to_failed r.1 = false → u = [])) ∧
  (w_alloc w = [] → to_failed out = false → zlen (to_data out) + zlen (full_text m) <= SIZE_MAX →
   to_failed r.1 = false ∧ r.2 = w).

(** One markup behind another. *)
Fixpoint mapp (m m' : Markup) : Markup :=
  match m with
  | MNil => m'
  | MLit s next => MLit s (mapp next m')
  | MEsc s next => MEsc s (mapp next m')
  | MFrag name body next => MFrag name body (mapp next m')
  end.

Lemma full_text_mapp m m' : full_text (mapp m m') = full_text m ++ full_text m'.
Proof. induction m; cbn; rewrite <- ?app_assoc; by f_equal. Qed.

Lemma fragment_text_mapp sel m m' : fragment_text sel (mapp m m') = fragment_text sel m ++ fragment_text sel m'.
Proof. induction m; cbn; rewrite <- ?app_assoc; by f_equal. Qed.

Lemma kept_mapp out m m' : kept out (mapp m m') = kept out m ++ kept out m'.
Proof.
  unfold kept. case_decide; [apply full_text_mapp|]. destruct (to_frag_sel out); [|done].
  apply fragment_text_mapp.
Qed.

(** Markups of the same text. *)
Definition same_text (m m' : Markup) : Prop :=
  full_text m = full_text m' ∧ ∀ sel, fragment_text sel m = fragment_text sel m'.

Lemma same_text_kept out m m' : same_text m m' → kept out m = kept out m'.
Proof. intros [H1 H2]. unfold kept. case_decide; [done|]. destruct (to_frag_sel out); cbn; [apply H2|done]. Qed.

Lemma shows_text before after m m' f : same_text m m' → shows before after m f → shows before after m' f.
Proof.
  intros H Hf out w Ho Hr Hb. destruct (Hf out w Ho Hr Hb) as (H1 & H2 & H3 & H4 & H5 & H6).
  rewrite <- (same_text_kept out _ _ H), <- (proj1 H). by split_and!.
Qed.

Lemma shows_ret fired : shows fired fired MNil mret.
Proof.
  intros out w Ho Hr Hb. cbn. split_and!; try done.
  exists [], []. split; [|by rewrite app_nil_r]. unfold kept. case_decide; [done|]. by destruct (to_frag_sel out).
Qed.

Lemma shows_bind before between after m m' f g :
  shows before between m f → shows between after m' g →
  shows before after (mapp m m') (λ out, f out ≫= g).
Proof.
  intros Hf Hg out w Ho Hr Hb. rewrite bind_run. unfold result, world.
  destruct (Hf out w Ho Hr Hb) as (O1 & F1 & X1 & B1 & (t & u & E1 & T1 & U1) & A1).
  destruct (f out w) as [out1 w1]. cbn [fst snd] in *.
  destruct (Hg out1 w1 O1 (same_select_ok _ _ F1 Hr) B1) as (O2 & F2 & X2 & B2 & (t' & u' & E2 & T2 & U2) & A2).
  destruct (g out1 w1) as [out2 w2]. cbn [fst snd] in *. rewrite (same_select_kept _ _ _ F1) in E2.
  split; [done|]. split; [by etrans|]. split.
  { intros H. destruct (X1 H) as [E3 E4]. destruct (X2 E4) as [E5 E6]. split; congruence. }
  split; [done|]. split.
  - rewrite kept_mapp. destruct (to_failed out1) eqn:Ef.
    + destruct (X2 eq_refl) as [E3 E4]. exists t, (u ++ kept out m'). rewrite E1, <- app_assoc.
      split; [done|]. split; congruence.
    + rewrite (U1 eq_refl), app_nil_r in E1. exists (t ++ t'), u'. rewrite E1, E2, app_assoc.
      split; [done|]. split; [|done]. by rewrite T2, T1, app_assoc.
  - intros Hw Hff Hl. rewrite full_text_mapp, zlen_app in Hl. pose proof (zlen_nonneg (full_text m')).
    destruct A1 as [A1 ->]; [done|done|lia|]. apply A2; [done|done|].
    rewrite (U1 A1), app_nil_r in E1. rewrite T1, zlen_app. subst t. pose proof (kept_length out m). lia.
Qed.

(** ** A rule per construct *)

Lemma shows_writes fired m s f :
  writes s f → full_text m = s → (∀ sel, fragment_text sel m = []) → shows fired fired m f.
Proof.
  intros Hf Ht Hs out w Ho Hr Hb. destruct (Hf out w Ho) as (O1 & F1 & D1 & X1 & (t & u & E1 & T1 & U1) & A1).
  split; [done|]. split; [by apply same_frame_select|]. split; [done|]. split.
  { intros H. destruct F1 as (_ & _ & _ & _ & -> & _). apply Hb. destruct (to_failed out); [|done].
    by destruct X1 as [_ ?]; [|congruence]. }
  rewrite Ht. split; [|done]. destruct (decide (keeping out)) as [Hk|Hk].
  - exists t, u. unfold kept. rewrite decide_True, Ht by done. auto.
  - exists [], []. unfold kept. rewrite decide_False by done. destruct (D1 Hk) as [-> _].
    split; [|by rewrite app_nil_r]. destruct (to_frag_sel out); cbn; [apply Hs|done].
Qed.

Lemma shows_literal fired s : shows fired fired (MLit (marked (str s)) MNil) (λ out, literal out s).
Proof. apply (shows_writes _ _ (marked (str s))); [apply (writes_lit (Some _))|apply app_nil_r|done]. Qed.

Lemma shows_esc fired s : shows fired fired (MEsc (default [] s) MNil) (λ out, tpl_esc out s).
Proof. apply (shows_writes _ _ (html_escape (default [] s))); [apply writes_esc|apply app_nil_r|done]. Qed.

(** Closing a block restores the machine, whatever the block did to the arena. *)
Lemma frag_end_select out name out2 :
  frag_ok out → same_select (tpl_frag_begin out (Some name)) out2 →
  same_buffer out2 (tpl_frag_end out2) ∧ same_select out (tpl_frag_end out2) ∧
  to_once_fired (tpl_frag_end out2) = to_once_fired out2.
Proof.
  intros Hr (F1 & F2 & F3). set (begun := tpl_frag_begin out (Some name)) in *.
  set (out3 := set_to_arena (to_arena begun) (set_to_once_fired (to_once_fired begun)
                 (set_to_misaligned (to_misaligned begun) out2))).
  destruct (frag_end_spec out name out3 Hr) as [_ (_ & G1 & G2 & G3 & _)]; [by split_and!|].
  unfold tpl_frag_end, same_buffer, same_select in *.
  change (to_frag_sel out3) with (to_frag_sel out2) in *. destruct (to_frag_sel out2); [|by split_and!].
  cbn in *. by case_if; cbn in *; split_and!.
Qed.

Lemma shows_frag before after name m f :
  shows before after m f → shows before after (MFrag name m MNil) (frag_block name f).
Proof.
  intros Hf out w Ho Hr Hb. unfold frag_block. rewrite bind_run. unfold result, world.
  destruct (frag_begin_spec out name Hr) as ((B1 & B2 & B3 & B4) & Hr1 & Hkept).
  assert (to_once_fired (tpl_frag_begin out (Some name)) = to_once_fired out) as B5.
  { unfold tpl_frag_begin. destruct (to_frag_sel out); [|done]. by repeat case_if. }
  destruct (Hf (tpl_frag_begin out (Some name)) w) as (O1 & F1 & X1 & C1 & (t & u & E1 & T1 & U1) & A1).
  { by eapply same_buffer_ok. }
  { done. }
  { by rewrite B3, B5. }
  destruct (f (tpl_frag_begin out (Some name)) w) as [out2 w2]. cbn [fst snd mret M_ret] in *.
  destruct (frag_end_select out name out2 Hr F1) as [(G1 & G2 & G3 & G4) [F2 G5]].
  split; [by eapply same_buffer_ok|]. split; [done|].
  rewrite G1, G3, G5, ?B1, ?B3 in *. split; [done|]. split; [done|].
  assert (kept out (MFrag name m MNil) = kept (tpl_frag_begin out (Some name)) m) as Ek.
  { rewrite Hkept. unfold kept. case_decide; [apply app_nil_r|]. destruct (to_frag_sel out); [|done].
    apply app_nil_r. }
  rewrite Ek. split; [by exists t, u|]. cbn [full_text]. by rewrite app_nil_r.
Qed.

(** A step that writes nothing but may take scratch memory: unless the output fails it
    answers [a], and [after] have run behind it. *)
Definition steps {A} (before after : list TplOnce) (a : A) (f : TplOut → M (A * TplOut)) : Prop :=
  ∀ out w, out_ok out → (to_failed out = false → to_once_fired out = before) →
  let r := f out w in
  out_ok r.1.2 ∧ same_select out r.1.2 ∧ to_data r.1.2 = to_data out ∧
  (to_failed out = true → to_failed r.1.2 = true) ∧
  (to_failed r.1.2 = false → to_once_fired r.1.2 = after ∧ r.1.1 = a) ∧
  (w_alloc w = [] → to_failed out = false → to_failed r.1.2 = false ∧ r.2 = w).

(** A component behind such a step; whatever the step answered, a failed output
    stays failed. *)
Lemma shows_step {A} before between after (a : A) m f g :
  steps before between a f → (∀ x, ∃ b b' m', shows b b' m' (g x)) → shows between after m (g a) →
  shows before after m (λ out, '(x, out) ← f out; g x out).
Proof.
  intros Hf Hx Hg out w Ho Hr Hb. rewrite bind_run. unfold result, world.
  destruct (Hf out w Ho Hb) as (O1 & F1 & D1 & X1 & B1 & A1).
  destruct (f out w) as [[x out1] w1]. cbn [fst snd] in *.
  pose proof (same_select_ok _ _ F1 Hr) as Hr1. destruct (to_failed out1) eqn:Ef.
  - destruct (Hx x) as (b & b' & m' & Hg'). destruct (Hg' out1 w1 O1 Hr1) as (O2 & F2 & X2 & _); [congruence|].
    destruct (g x out1 w1) as [out2 w2]. cbn [fst snd] in *. destruct (X2 Ef) as [D2 G2].
    split; [done|]. split; [by etrans|]. rewrite D2, D1. split; [done|]. split; [congruence|].
    split; [|intros Hw Hff; by destruct (A1 Hw Hff)].
    exists [], (kept out m). rewrite app_nil_r. split; [done|]. split; [done|congruence].
  - destruct (B1 eq_refl) as [B2 ->]. destruct (Hg out1 w1 O1 Hr1) as (O2 & F2 & X2 & C2 & E2 & A2); [done|].
    rewrite (same_select_kept _ _ _ F1), D1 in *.
    destruct (g a out1 w1) as [out2 w2]. cbn [fst snd] in *.
    split; [done|]. split; [by etrans|]. split; [intros H; specialize (X1 H); congruence|]. split; [done|].
    split; [done|]. intros Hw Hff Hl. destruct (A1 Hw Hff) as [_ ->]. by apply A2.
Qed.

Lemma arena_alloc_select out len w : same_select out (arena_alloc out len w).1.2.
Proof.
  assert (∀ w, same_select out (arena_fresh out len w).1.2) as Hf.
  { intros w'. unfold arena_fresh. rewrite bind_run. by destruct (result malloc w'). }
  unfold arena_alloc. destruct (to_arena out); [apply Hf|]. by case_if.
Qed.

Lemma steps_arena {A} fired (a : A) len (f : option Z → A) :
  0 <= len → (∀ offset, f (Some offset) = a) →
  steps fired fired a (λ out, '(buf, out) ← arena_alloc out len; mret (f buf, out)).
Proof.
  intros Hlen Ha out w Ho Hb. rewrite bind_run. unfold result, world.
  destruct (arena_alloc_spec out len w Ho Hlen) as (O1 & D1 & F1 & N1 & S1 & A1).
  pose proof (arena_alloc_select out len w) as Hs.
  destruct (arena_alloc out len w) as [[[off|] out1] w1]; cbn [fst snd mret M_ret] in *.
  - destruct (S1 off eq_refl) as [-> _]. rewrite F1. split_and!; auto.
  - destruct (N1 eq_refl) as [Hx Hw]. split_and!; try done; congruence.
Qed.

(** What stands in the attribute for a URL. *)
Definition href (url : option bytes) : bytes :=
  match url with
  | None => INVALID_URL
  | Some url => if url_is_safe (trim_url url) (zlen (trim_url url)) then trim_url url else INVALID_URL
  end.

Lemma href_harmless url : href url = INVALID_URL ∨ url_allowed (href url).
Proof.
  destruct url as [url|]; [|by left]. cbn. destruct (url_is_safe _ _) eqn:E; [right|by left].
  by apply url_is_safe_spec.
Qed.

Lemma steps_ret {A} fired (a : A) : steps fired fired a (λ out, mret (a, out)).
Proof. intros out w Ho Hb. cbn. split_and!; auto. done. Qed.

Lemma steps_url fired url : steps fired fired (tpl_url_val (href url)) (λ out, tpl_url out url).
Proof.
  destruct url as [url|]; [|apply steps_ret]. unfold tpl_url. fold (trim_url url).
  destruct (_ && _) eqn:E.
  - apply andb_true_iff in E as [_ E]. apply Z.eqb_eq, trim_url_whole in E.
    cbn [href]. rewrite E. apply steps_ret.
  - intros out w Ho Hb.
    pose proof (steps_arena fired (tpl_url_val (href (Some url))) (zlen (trim_url url) + 1)
      (λ buf, match buf with Some _ => tpl_url_val (href (Some url)) | None => tpl_url_val INVALID_URL end)) as H.
    pose proof (zlen_nonneg (trim_url url)). specialize (H ltac:(lia) (λ _, eq_refl) out w Ho Hb).
    cbn beta in H. rewrite bind_run in *. unfold result, world in *.
    destruct (arena_alloc _ _ w) as [[[off|] out1] w1]; exact H.
Qed.

Lemma shows_url fired url : shows fired fired (MEsc (href url) MNil) (attr_url url).
Proof.
  assert (∀ v, shows fired fired (MEsc (default [] (url_s v)) MNil) (λ out, tpl_attr_url out v)) as Hv.
  { intros [[s|]]; [|apply shows_esc with (s := None)]. apply shows_esc with (s := Some s). }
  apply (shows_step fired fired fired (tpl_url_val (href url)) _ (λ out, tpl_url out url)
           (λ v out, tpl_attr_url out v)); [apply steps_url|eauto|apply Hv].
Qed.

Lemma steps_once fired h :
  let fires := negb (existsb (Z.eqb h) fired) in
  steps fired (fired ++ if fires then [h] else []) fires (λ out, tpl_once_begin out h).
Proof.
  intros fires out w Ho Hb. unfold tpl_once_begin. destruct (existsb (Z.eqb h) (to_once_fired out)) eqn:Ex.
  { cbn. split; [done|]. split; [done|]. split; [done|]. split; [done|]. split; [|done].
    intros Hf. rewrite (Hb Hf) in *. unfold fires. by rewrite Ex, app_nil_r. }
  rewrite bind_run. unfold result, world. set (len := _ * POINTER_SIZE).
  destruct (arena_alloc_spec out len w Ho) as (O1 & D1 & F1 & N1 & S1 & A1).
  { pose proof (zlen_nonneg (to_once_fired out)). unfold len, POINTER_SIZE. lia. }
  pose proof (arena_alloc_select out len w) as Hs.
  destruct (arena_alloc out len w) as [[[off|] out1] w1]; cbn [fst snd mret M_ret] in *.
  - destruct (S1 off eq_refl) as [Hf _]. cbn. rewrite F1, Hf. split; [by destruct O1|].
    split; [done|]. split; [done|]. split; [done|]. split; [|auto].
    intros Hff. rewrite (Hb Hff) in *. unfold fires. by rewrite Ex.
  - destruct (N1 eq_refl) as [Hx Hw]. split_and!; try done; congruence.
Qed.

(** The block of a handle runs the first time, and not again. *)
Lemma shows_once fired after h m block :
  existsb (Z.eqb h) fired = false → shows (fired ++ [h]) after m block →
  shows fired after m (once_block h block).
Proof.
  intros He Hm. pose proof (steps_once fired h) as Hs. cbv zeta in Hs. rewrite He in Hs.
  apply (shows_step _ _ _ _ m _ (λ x out, if (x : bool) then block out else mret out) Hs); [|done].
  intros []; [eauto|]. exists [], [], MNil. apply shows_ret.
Qed.

Lemma shows_once_again fired h block :
  (∃ b b' m, shows b b' m block) → existsb (Z.eqb h) fired = true →
  shows fired fired MNil (once_block h block).
Proof.
  intros Hm He. pose proof (steps_once fired h) as Hs. cbv zeta in Hs. rewrite He, app_nil_r in Hs.
  apply (shows_step _ _ _ _ MNil _ (λ x out, if (x : bool) then block out else mret out) Hs);
    [|apply shows_ret].
  intros []; [done|]. exists [], [], MNil. apply shows_ret.
Qed.

(** ** The page *)

Definition text (s : String.string) : bytes := marked (str s).
Arguments text _%_string_scope.

(** The style sheet comes with the first note. *)
Definition note_text (first : bool) : bytes :=
  text "
  <!-- @once: the <style> reaches the page exactly once per render,
       no matter how often this component is used on it -->
  " ++ (if first then text "
    <style>.note { color: #666; font-size: 0.9em; }</style>" else []) ++ text "
  <p class='note'>rendered server-side with ctmpl</p>".

Fixpoint rows_markup (links : list HomeLink) (next : Markup) : Markup :=
  match links with
  | [] => next
  | link :: links =>
      MLit (text "
    <li><a href='") (MEsc (href (hl_url link)) (MLit (text "'>")
      (MEsc (default [] (hl_name link)) (MLit (text "</a></li>") (rows_markup links next)))))
  end.

Definition list_markup (p : HomePageData) : Markup :=
  MLit (text "
  <ul class='links'>") (rows_markup (hp_links p) (MLit (text "
  </ul>") MNil)).

Definition greeting (p : HomePageData) (next : Markup) : Markup :=
  if hp_logged_in p
  then MLit (text "
      <p>Welcome back, <b>") (MEsc (default [] (hp_user p)) (MLit (text "</b>!</p>
    <hr  noshade") next))
  else MLit (text "
      <p><a href='/login'>Log in</a> to see more.</p>
    <hr ") next.

Definition home_markup (p : HomePageData) : Markup :=
  MLit (text "
  
  <!DOCTYPE html>
  <html lang='en'>
    <head>
      <meta charset='utf-8'/>
      <title>c-http example</title>
    </head>
    <body>
      
  <nav>
    <a href='/'>Home</a> |
    <a href='/api/status'>API status</a> |
    <a href='/public/ws.html'>Chat demo</a>
  </nav>
      <main>
        
    ") (MLit (note_text true) (MLit (text "
    <h1>") (MEsc (default [] (hp_title p)) (MLit (text "</h1>") (greeting p
  (MLit (text "/>
    <p>Server features:</p>
    <!-- @fragment: /frag renders ONLY this block — htmx swaps it in -->
    ") (MFrag (str "links") (MLit (text "
      ") (list_markup p)) (MLit (text "
    ") (MLit (note_text false) (MLit (text "
      </main>
    </body>
  </html>") MNil)))))))))).

Create HintDb pages.
#[local] Hint Resolve shows_ret shows_literal shows_esc shows_url shows_frag : pages.

Lemma rows_shown fired links : shows fired fired (rows_markup links MNil) (link_rows links).
Proof.
  induction links as [|link links IH]; cbn [link_rows]; [apply shows_ret|].
  eapply shows_text; [|eauto 20 using shows_bind with pages]. split; [reflexivity|intros sel; reflexivity].
Qed.

Lemma note_shown (first : bool) :
  shows (if first then [] else [note_style]) [note_style] (MLit (note_text first) MNil) tpl_feature_note.
Proof.
  assert (∀ before m style, shows before [note_style] m (once_block note_style (λ out, literal out style)) →
    ∀ open close, shows before [note_style] (mapp (MLit (text open) MNil) (mapp m (MLit (text close) MNil)))
      (λ out, literal out open ≫= λ out, once_block note_style (λ out, literal out style) out ≫= λ out,
         literal out close)) as H.
  { eauto using shows_bind with pages. }
  destruct first; (eapply shows_text; [|apply H]).
  2: by apply shows_once, shows_literal.
  3: { apply shows_once_again; [|done]. eexists _, _, _. apply (shows_literal []). }
  all: split; [reflexivity|intros sel; reflexivity].
Qed.

Lemma list_shown fired p : shows fired fired (list_markup p) (λ out, tpl_link_list out p).
Proof.
  eapply shows_text; [|unfold tpl_link_list; eauto using shows_bind, rows_shown with pages].
  assert (∀ links next, same_text (mapp (rows_markup links MNil) next) (rows_markup links next)) as H.
  { intros links next. split; [|intros sel]; rewrite ?full_text_mapp, ?fragment_text_mapp;
      induction links as [|link links IH]; cbn [rows_markup full_text fragment_text]; try done;
      by rewrite <- ?app_assoc, IH. }
  split; [|intros sel]; cbn [mapp full_text fragment_text list_markup]; [f_equal|]; apply H.
Qed.

(** The rule for the construct at the head of a component. *)
Ltac show :=
  lazymatch goal with
  | |- shows _ _ _ (λ out, literal out ?s) => apply shows_literal
  | |- shows _ _ _ (λ out, tpl_esc out ?s) => apply shows_esc
  | |- shows _ _ _ mret => apply shows_ret
  | |- shows _ _ _ (frag_block _ _) => apply shows_frag
  | |- shows _ _ _ tpl_feature_note => eassumption
  | |- shows _ _ _ (λ out, tpl_feature_note out) => eassumption
  | |- shows _ _ _ (λ out, tpl_link_list out _) => eassumption
  | |- shows _ _ _ (λ out, _ ≫= _) => eapply shows_bind
  end; cbv beta iota.

(** The page is what the component writes, and the style sheet is in it once. *)
Lemma home_shown p : shows [] [note_style] (home_markup p) (λ out, tpl_home out p).
Proof.
  pose proof (note_shown true) as Hfirst. pose proof (note_shown false) as Hagain.
  pose proof (list_shown [note_style] p) as Hlist. cbn iota in Hfirst, Hagain.
  unfold tpl_home, tpl_layout, render_children, tpl_nav_bar, tc_fn, tc_data, tpl__block_1_adapter, tpl__block_1.
  destruct (hp_logged_in p) eqn:El.
  all: eapply shows_text; [|repeat show]; unfold home_markup, greeting; rewrite El.
  all: split; [|intros sel; reflexivity]; cbn [mapp full_text].
  all: generalize (list_markup p) (html_escape (default [] (hp_title p))) (html_escape (default [] (hp_user p))).
  all: intros; cbn [full_text]; vm_compute; reflexivity.
Qed.

(** The page, or what a request for one of its fragments gets: the list has the only
    name there is. *)
Definition page_text (sel : option bytes) (p : HomePageData) : bytes := selected_text sel (home_markup p).

Lemma fragment_page sel p :
  page_text (Some sel) p = if bool_decide (sel = str "links") then text "
      " ++ full_text (list_markup p) else [].
Proof.
  assert (∀ links next, fragment_text sel (rows_markup links next) = fragment_text sel next) as Hrows.
  { intros links next. by induction links. }
  unfold page_text, home_markup, greeting. cbn [selected_text fragment_text].
  assert (fragment_text sel (list_markup p) = []) as Hl by (cbn; apply Hrows).
  destruct (hp_logged_in p); cbn [fragment_text]; rewrite Hl;
    by repeat case_bool_decide; subst; rewrite ?app_nil_r.
Qed.

(** Rendering the home page, whatever its data, into a fresh output writes the page
    of [home_markup]: titles, names and users escaped, every link a harmless URL or
    the marker for a bad one ([href_harmless]), the style sheet once.  With a
    fragment selected, it writes only the list of links, or nothing when the name is
    another ([fragment_page]).  When memory runs out the failure flag is set over a
    prefix of the text; with memory it succeeds. *)
Lemma home_rendered sel p w :
  zlen (full_text (home_markup p)) <= SIZE_MAX →
  let r := tpl_home (tpl_frag_select empty_out sel) p w in
  out_ok r.1 ∧ (∃ u, page_text sel p = to_data r.1 ++ u) ∧
  (tpl_ok r.1 = true → to_data r.1 = page_text sel p) ∧
  (w_alloc w = [] → tpl_ok r.1 = true ∧ r.2 = w).
Proof.
  intros Hl r. set (out := tpl_frag_select empty_out sel) in *.
  destruct (home_shown p out w) as (O1 & _ & _ & _ & (t & u & E1 & T1 & U1) & A1).
  { split; [done|done|constructor]. }
  { unfold frag_ok. cbn. lia. }
  { done. }
  fold r in O1, T1, U1, A1. unfold out in E1. rewrite kept_selected in E1. fold (page_text sel p) in E1.
  change (to_data r.1 = t) in T1. rewrite T1.
  unfold tpl_ok. split; [done|]. split; [by exists u|]. split.
  { intros H. apply negb_true_iff in H. rewrite (U1 H), app_nil_r in E1. done. }
  intros Hw. rewrite negb_true_iff. apply A1; [done|done|]. change (to_data out) with (@nil Z). rewrite zlen_nil. lia.
Qed.

(** A name that would end the element, and a URL that is a script. *)
Definition hostile_data : HomePageData :=
  {| hp_title := Some (str "R&D"); hp_user := None; hp_logged_in := false;
     hp_links := [ {| hl_name := Some (str "</a>"); hl_url := Some (str " javascript:alert(1)") |} ] |}.

Example hostile_links :
  to_data (tpl_home (tpl_frag_select empty_out (Some (str "links"))) hostile_data quiet_world).1 = text "
      
  <ul class='links'>
    <li><a href='about:invalid#ctmpl'>&lt;/a&gt;</a></li>
  </ul>".
Proof. by vm_compute. Qed.
