(* ===== verification/ExampleApp.v ===== *)
(** * The example server

    [src/examples/main.c]: the handlers, the middlewares and [main], which
    configures a server with them through the registration functions and serves
    it.  What the handlers print on stdout is not modelled. *)

From stdpp Require Import gmap.
From S2P Require Import Prelude CLib World Types Validate Headers Query Request Net Segments Response Encoder Static Routing Multipart Server Lifecycle WsSession WsDispatch Tpl ExampleArgs ExampleEcho ExampleHome.
#[local] Open Scope Z_scope.

(** ** The home page *)

Definition fill_home_data : HomePageData :=
  {| hp_title := Some (str "Welcome to c-http"); hp_user := Some (str "max"); hp_logged_in := true;
     hp_links :=
       [ {| hl_name := Some (str "API status"); hl_url := Some (str "/api/status") |};
         {| hl_name := Some (str "Admin dashboard"); hl_url := Some (str "/admin/dashboard") |};
         {| hl_name := Some (str "WebSocket chat"); hl_url := Some (str "/public/ws.html") |} ] |}.

(** Renders the page into [out] and answers with it. *)
Definition render_home (out : TplOut) (res : HttpResponse) : M HttpResponse :=
  out ← tpl_home out fill_home_data;
  '(rc, res) ← http_res_html res HTTP_STATUS_OK out;
  mret (if rc =? 0 then res
        else http_error res HTTP_STATUS_INTERNAL_SERVER_ERROR (Some (str "template render failed"))).

Definition home_handler : HttpHandler := λ req res, render_home empty_out res.

Definition frag_handler : HttpHandler := λ req res,
  render_home
    (tpl_frag_select empty_out (Some (default (str "links") (http_req_query req (Some (str "name"))))))
    res.

(** ** Handlers *)

(** [memcpy(res->body, b, len); res->body_len = len]: no NUL is written. *)
Definition copy_body (b : bytes) (res : HttpResponse) : HttpResponse :=
  set_res_body_len (zlen b) (set_res_body (b ++ zdrop (zlen b) (res_body res)) res).

Definition id_text (id : option bytes) : bytes :=
  snprintf_s 64
    (match id with
     | None => str "<h1>unable to get id param</h1>"
     | Some id =>
         str "<h1>your id: " ++ id ++ str "</h1><a href=" ++ [DQUOTE] ++ str "/" ++ [DQUOTE]
         ++ str ">back to home</a>"
     end).

Definition id_test_handler : HttpHandler := λ req res,
  mret (copy_body (id_text (http_req_param req (Some (str "id")))) (set_res_status 200 res)).

(** A JSON member with a string value, neither of them escaped. *)
Definition member (key value : bytes) : bytes :=
  [DQUOTE] ++ key ++ [DQUOTE] ++ str ":" ++ [DQUOTE] ++ value ++ [DQUOTE].

Definition json_type (res : HttpResponse) : M HttpResponse :=
  set_header_res res (str "Content-Type") (str "application/json").

Definition status_text_json (user : bytes) : bytes :=
  str "{" ++ member (str "status") (str "ok") ++ str "," ++ member (str "user") user ++ str "}".

Definition api_status_handler : HttpHandler := λ req res,
  res ← json_type (set_res_status 200 res);
  let text := status_text_json (default (str "anonymous") (http_res_local res (Some (str "user")))) in
  let res := set_res_body (write_cstr (snprintf_s HTTP_BODY_BUFFER text) (res_body res)) res in
  mret (set_res_body_len
          (if zlen text <? HTTP_BODY_BUFFER then zlen text else HTTP_BODY_BUFFER - 1) res).

(** A number member: [%d]. *)
Definition num_member (key : bytes) (n : Z) : bytes := [DQUOTE] ++ key ++ [DQUOTE] ++ str ":" ++ fmt_d n.

Definition users_json : bytes :=
  str "[{" ++ num_member (str "id") 1 ++ str "," ++ member (str "name") (str "Alice") ++ str "},{"
  ++ num_member (str "id") 2 ++ str "," ++ member (str "name") (str "Bob") ++ str "}]".

Definition api_users_handler : HttpHandler := λ req res,
  res ← json_type (set_res_status 200 res);
  mret (copy_body users_json res).

Definition dashboard_html : bytes :=
  str "<h1>Admin Dashboard</h1><p>Only authenticated users see this.</p>".

Definition admin_dashboard_handler : HttpHandler := λ req res,
  mret (copy_body dashboard_html (set_res_status 200 res)).

Definition settings_json : bytes :=
  str "{" ++ member (str "theme") (str "dark") ++ str "," ++ [DQUOTE] ++ str "notifications"
  ++ [DQUOTE] ++ str ":true}".

Definition admin_settings_handler : HttpHandler := λ req res,
  res ← json_type (set_res_status 200 res);
  mret (copy_body settings_json res).

Definition error_json (status : Z) (message path : bytes) : bytes :=
  str "{" ++ num_member (str "status") status ++ str "," ++ member (str "message") message
  ++ str "," ++ member (str "path") path ++ str "}".

Definition json_error_handler : HttpErrorHandler := λ req res status message,
  let buf := error_json status message (req_path req) in
  if zlen buf <? 256 then
    '(_, res) ← http_res_json res status (Some buf);
    mret res
  else mret res.

Definition teapot_handler : HttpHandler := λ req res,
  mret (http_error res 418 (Some (str "this is a teapot, not a coffee maker"))).

Definition login_handler : HttpHandler := λ req res,
  '(_, res) ← http_res_cookie res (Some (str "session")) (Some (str "demo-token")) 3600 true;
  '(_, res) ← http_res_redirect res 302 (Some (str "/"));
  mret res.

Definition router_time_handler : HttpHandler := λ req res,
  '(_, res) ← http_res_json res 200 (Some (str "{" ++ member (str "unix") (str "demo") ++ str "}"));
  mret res.

(** ** Middleware *)

Definition cors_middleware : HttpMiddlewareHandler := λ req res,
  res ← set_header_res res (str "Access-Control-Allow-Origin") (str "*");
  res ← set_header_res res (str "Access-Control-Allow-Methods")
          (str "GET, POST, PUT, PATCH, DELETE, OPTIONS");
  mret (HTTP_MIDDLEWARE_CONTINUE, res).

Definition unauthorized_json : bytes :=
  str "{" ++ member (str "error") (str "unauthorized") ++ str "}".

Definition api_auth_middleware : HttpMiddlewareHandler := λ req res,
  match http_req_header req (Some (str "Authorization")) with
  | Some _ =>
      mret (HTTP_MIDDLEWARE_CONTINUE,
            (http_set_local res (Some (str "user")) (Some (str "api-user"))).2)
  | None =>
      res ← json_type (set_res_status 401 res);
      res ← set_header_res res (str "WWW-Authenticate") (str "Bearer");
      mret (HTTP_MIDDLEWARE_STOP, copy_body unauthorized_json res)
  end.

Definition ADMIN_TOKEN : bytes := str "Bearer admin-secret".

Definition forbidden_json : bytes :=
  str "{" ++ member (str "error") (str "forbidden: admin access required") ++ str "}".

Definition admin_auth_middleware : HttpMiddlewareHandler := λ req res,
  if match http_req_header req (Some (str "Authorization")) with
     | Some auth => streq auth ADMIN_TOKEN
     | None => false
     end
  then mret (HTTP_MIDDLEWARE_CONTINUE, res)
  else
    res ← json_type (set_res_status 403 res);
    mret (HTTP_MIDDLEWARE_STOP, copy_body forbidden_json res).

(** ** The main program *)

Section Main.
(** The chat handler as one connection sees it; its interplay with the other
    connections is a file of its own. *)
Context (ws_chat_handler : HttpWsHandler).

(** What [main] has built: the server, the routers it holds, the websocket routes. *)
Record App := { app_server : HttpServer; app_heap : RouterHeap; app_ws : list HttpWsRoute }.

Definition top_level (server : HttpServer) : M HttpServer :=
  '(_, server) ← http_middleware server None (Some cors_middleware);
  '(_, server) ← http_get server (Some (str "/")) (Some home_handler);
  '(_, server) ← http_get server (Some (str "/frag")) (Some frag_handler);
  '(_, server) ← http_get server (Some (str "/:id/test")) (Some id_test_handler);
  '(_, server) ← http_get server (Some (str "/teapot")) (Some teapot_handler);
  '(_, server) ← http_get server (Some (str "/login")) (Some login_handler);
  mret (http_set_error_handler server (Some json_error_handler)).

Definition static_config (root : bytes) : HttpStaticConfig :=
  {| sc_prefix := Some (str "/public"); sc_root := Some root;
     sc_index_file := Some (str "index.html"); sc_max_age := 3600 |}.

Definition group_get server prefix path handler :=
  http_group_route server prefix (Some path) (Some handler) HTTP_METHOD_GET.

Definition groups (server : HttpServer) : M HttpServer :=
  '(_, server) ← http_group_middleware server (str "/api") None (Some api_auth_middleware);
  '(_, server) ← group_get server (str "/api") (str "/status") api_status_handler;
  '(_, server) ← group_get server (str "/api") (str "/users") api_users_handler;
  '(_, server) ← http_group_middleware server (str "/admin") None (Some admin_auth_middleware);
  '(_, server) ← group_get server (str "/admin") (str "/dashboard") admin_dashboard_handler;
  '(_, server) ← group_get server (str "/admin") (str "/settings") admin_settings_handler;
  mret server.

(** [http_router_get] of a NULL router answers an error. *)
Definition routers (server : HttpServer) : M (HttpServer * RouterHeap) :=
  '(v1, heap) ← http_router_create ∅;
  '(_, heap) ← (match v1 with
                | Some p => http_router_route heap p (Some (str "/time")) (Some router_time_handler)
                              HTTP_METHOD_GET
                | None => mret (HTTP_ROUTE_ADD_ERROR, heap)
                end);
  '(_, server, heap) ← http_use server heap (Some (str "/api/v1")) v1;
  mret (server, heap).

Definition websockets : M (list HttpWsRoute) :=
  '(_, routes) ← http_ws [] (Some (str "/ws/echo")) (Some ws_echo_handler);
  '(_, routes) ← http_ws routes (Some (str "/ws/chat/:room")) (Some ws_chat_handler);
  mret routes.

(** From the created server to [http_listen].  The results of the registrations
    are ignored, except the mount's; [None]: it failed. *)
Definition configure (root : bytes) (server : HttpServer) : M (option App) :=
  server ← top_level server;
  '(rc, mounts) ← http_static_mount (sv_static_mounts server) (static_config root);
  match rc with
  | SERVER_ERROR => mret None
  | SERVER_OK =>
      server ← groups (set_sv_static_mounts mounts server);
      '(server, heap) ← routers server;
      ws ← websockets;
      mret (Some {| app_server := server; app_heap := heap; app_ws := ws |})
  end.

(** How the program goes on: it ends with an exit code, holding these
    descriptors, or it enters [http_listen], behind which it closes the server
    and exits with 0. *)
Inductive MainOutcome :=
  | Exits (code : Z) (open : list Z)
  | Listens (state : ServerState) (app : App).

Definition server_args (args : Args) : ServerArgs :=
  {| sa_bind_addr := Some (a_bind_addr args); sa_port := a_port args;
     sa_server_name := Some (str "MaxServer"); sa_worker_threads := 8; sa_keep_alive := true |}.

Definition set_ss_config (config : HttpServer) (s : ServerState) : ServerState :=
  {| ss_config := config; ss_fd := ss_fd s; ss_port := ss_port s; ss_bind_addr := ss_bind_addr s;
     ss_listening := ss_listening s; ss_thread_state := ss_thread_state s; ss_open := ss_open s |}.

Definition serve (gzip : HttpEncoder) (os : SysOutcomes) (args : Args) (open : list Z)
  : M MainOutcome :=
  '(rc, state) ← http_create_server gzip os (server_args args) open;
  match rc with
  | SERVER_ERROR => mret (Exits 1 (ss_open state))
  | SERVER_OK =>
      app ← configure (a_root args) (ss_config state);
      mret (match app with
            | None => Exits 1 (ss_open (http_close_server state))
            | Some app => Listens (set_ss_config (app_server app) state) app
            end)
  end.

(** [None]: the command line was not read to an end, which does not happen. *)
Definition main {cargs : Cargs} (gzip : HttpEncoder) (os : SysOutcomes) (argv : list bytes)
    (args : Args) (open : list Z) : option (M MainOutcome) :=
  match parse_args argv args with
  | None => None
  | Some (ARGS_OK, args, _) => Some (serve gzip os args open)
  | Some (ARGS_HELP, _, _) => Some (mret (Exits 0 open))
  | Some (ARGS_ERROR, _, _) => Some (mret (Exits 1 open))
  end.

(** [on_terminate], once [g_server] is set. *)
Definition on_terminate (g_server : option ServerState) : option ServerState :=
  http_stop_server <$> g_server.
End Main.

(** ** The pages served *)

Lemma render_home_run sel res w :
  response_ok res → res_encoded_body res = None →
  let res' := result (render_home (tpl_frag_select empty_out sel) res) w in
  let served := res_status res' = 200 ∧ select_body res' = page_text sel fill_home_data ∧
    hs_items (res_headers res') = hs_items (res_headers res)
      ++ [{| h_key := str "Content-Type"; h_value := str "text/html" |}] in
  (served ∨ res_status res' = 500 ∧ res_error res' = true) ∧ (w_alloc w = [] → served).
Proof.
  intros Hr He. unfold render_home, result. rewrite bind_run. unfold result, world.
  destruct (home_rendered sel fill_home_data w ltac:(decided)) as (Ho & _ & Ht & Hm).
  destruct (tpl_home _ fill_home_data w) as [out w1]. cbn [fst snd] in *.
  rewrite bind_run. pose proof (http_res_html_run res HTTP_STATUS_OK out w1 Hr He Ho) as Hh.
  pose proof (http_res_html_succeeds res HTTP_STATUS_OK out w1) as Hs.
  destruct (result (http_res_html res HTTP_STATUS_OK out) w1) as [rc res']. cbn [fst snd mret M_ret] in *.
  destruct Hh as [(-> & Hok & _ & H1 & H2 & H3)|(-> & _)].
  - change (0 =? 0) with true. cbn iota. rewrite <- (Ht Hok). auto.
  - split; [right; split; reflexivity|]. intros Hw. destruct (Hm Hw) as [Hok ->].
    by specialize (Hs Hw Hok eq_refl Ho).
Qed.



(** ** Registration while memory lasts *)

Lemma calm_parse_segments path : calm (http_parse_route_segments path).
Proof.
  unfold http_parse_route_segments. apply calm_bind; [apply calm_malloc|]. intros ok.
  apply calm_if; [apply calm_ret|]. generalize {| segs := []; segs_capacity := 8 |}.
  generalize (length path). intros n. revert path.
  induction n as [|n IH]; intros path r; cbn [parse_segments_loop]; calmly.
Qed.
#[local] Hint Resolve calm_parse_segments : chttp.

Lemma calm_add_route server path handler method : calm (http_add_route server path handler method).
Proof. unfold http_add_route, add_route_to, grow_routes. calmly. Qed.
#[local] Hint Resolve calm_add_route : chttp.

Lemma calm_http_get server path handler : calm (http_get server path handler).
Proof. apply calm_add_route. Qed.

Lemma calm_middleware server path handler : calm (http_middleware server path handler).
Proof. unfold http_middleware. calmly. Qed.
#[local] Hint Resolve calm_http_get calm_middleware : chttp.

Lemma calm_group_get server prefix path handler : calm (group_get server prefix path handler).
Proof. unfold group_get, http_group_route. calmly. Qed.

Lemma calm_group_middleware server prefix path handler :
  calm (http_group_middleware server prefix path handler).
Proof. unfold http_group_middleware. calmly. Qed.

Lemma calm_router_create heap : calm (http_router_create heap).
Proof. unfold http_router_create. calmly. Qed.

Lemma calm_router_route heap router path handler method :
  calm (http_router_route heap router path handler method).
Proof. unfold http_router_route, add_route_to, grow_routes. calmly. Qed.

Lemma calm_use server heap prefix router : calm (http_use server heap prefix router).
Proof. unfold http_use. calmly. Qed.

Lemma calm_http_ws routes path handler : calm (http_ws routes path handler).
Proof. unfold http_ws, ws_add_route, ws_apply_options. calmly. Qed.
#[local] Hint Resolve calm_group_get calm_group_middleware calm_router_create calm_router_route
  calm_use calm_http_ws : chttp.

(** ** The configuration *)

Section Configured.
Context (chat : HttpWsHandler).

Lemma calm_top_level server : calm (top_level server).
Proof. unfold top_level. calmly. Qed.
Lemma calm_groups server : calm (groups server).
Proof. unfold groups. calmly. Qed.
Lemma calm_routers server : calm (routers server).
Proof. unfold routers. calmly. Qed.
Lemma calm_websockets : calm (websockets chat).
Proof. unfold websockets. calmly. Qed.

(** A server as [http_create_server] leaves it. *)
Definition created (name : bytes) (keep_alive : bool) (encoders : HttpEncoders) : HttpServer :=
  {| sv_server_name := name; sv_keep_alive := keep_alive;
     sv_routes := {| rs_routes := []; rs_capacity := 8 |};
     sv_middlewares := {| ms_middlewares := []; ms_capacity := 0 |};
     sv_encoders := encoders; sv_static_mounts := []; sv_error_handler := None;
     sv_router_mounts := [] |}.

Definition public_mount (root : bytes) : HttpStaticMount :=
  {| sm_prefix := str "/public"; sm_root := root; sm_index_file := Some (str "index.html");
     sm_max_age := 3600 |}.

(** The calls of [configure], each answered from the quiet world. *)
Definition configured (root : bytes) (server : HttpServer) : App :=
  let server := result (top_level server) quiet_world in
  let server := result (groups (set_sv_static_mounts [public_mount root] server)) quiet_world in
  let r := result (routers server) quiet_world in
  {| app_server := r.1; app_heap := r.2; app_ws := result (websockets chat) quiet_world |}.

Definition is_directory (w : World) (root : bytes) : bool :=
  match fs_stat (w_fs w) root with
  | Some st => match st_kind st with FDirectory => true | _ => false end
  | None => false
  end.

Lemma static_mount_run root w :
  w_alloc w = [] →
  http_static_mount [] (static_config root) w
  = (if is_directory w root then (SERVER_OK, [public_mount root]) else (SERVER_ERROR, []), w).
Proof.
  intros Hw. unfold http_static_mount, static_config, is_directory.
  cbn [sc_prefix sc_root sc_index_file sc_max_age].
  change (negb _ || (HTTP_PATH_MAX <=? _)) with false.
  change (has_control_chars _ || _ || _) with false. cbn iota.
  rewrite bind_run. unfold stat, result, world. cbn [fst snd].
  destruct (fs_stat (w_fs w) root) as [[[] size mtime]|]; cbn [st_kind fst snd]; try done.
  cbn [existsb]. rewrite bool_decide_false by done. by mrun_ok Hw.
Qed.

Lemma configure_run root name keep_alive encoders w :
  w_alloc w = [] →
  configure chat root (created name keep_alive encoders) w
  = (if is_directory w root then Some (configured root (created name keep_alive encoders)) else None, w).
Proof.
  intros Hw. unfold configure. rewrite calm_then by auto using calm_top_level.
  change (sv_static_mounts (result (top_level (created name keep_alive encoders)) quiet_world))
    with (@nil HttpStaticMount).
  rewrite bind_run. unfold result at 1, world. rewrite (static_mount_run root w Hw).
  destruct (is_directory w root); cbn [fst snd]; [|done].
  rewrite calm_then by auto using calm_groups. rewrite calm_then by auto using calm_routers.
  unfold configured. destruct (result (routers _) quiet_world) as [server heap].
  by rewrite calm_then by auto using calm_websockets.
Qed.

(** When memory lasts and the root is a directory, [main] configures exactly the server its
    source describes: the nine routes in order, CORS for every request with the guards of the two
    groups behind it, the static mount, the mounted router, the JSON error pages and the two websocket
    routes. *)
Lemma configure_spec root name keep_alive encoders w :
  w_alloc w = [] → is_directory w root = true →
  ∃ app p, configure chat root (created name keep_alive encoders) w = (Some app, w) ∧
  let server := app_server app in
  sv_server_name server = name ∧ sv_keep_alive server = keep_alive ∧ sv_encoders server = encoders ∧
  map (λ r, (r_method r, r_path r, r_handler r)) (rs_routes (sv_routes server)) =
    [ (HTTP_METHOD_GET, str "/", home_handler);
      (HTTP_METHOD_GET, str "/frag", frag_handler);
      (HTTP_METHOD_GET, str "/:id/test", id_test_handler);
      (HTTP_METHOD_GET, str "/teapot", teapot_handler);
      (HTTP_METHOD_GET, str "/login", login_handler);
      (HTTP_METHOD_GET, str "/api/status", api_status_handler);
      (HTTP_METHOD_GET, str "/api/users", api_users_handler);
      (HTTP_METHOD_GET, str "/admin/dashboard", admin_dashboard_handler);
      (HTTP_METHOD_GET, str "/admin/settings", admin_settings_handler) ] ∧
  ms_middlewares (sv_middlewares server) =
    [ {| m_path := None; m_handler := cors_middleware |};
      {| m_path := Some (str "/api"); m_handler := api_auth_middleware |};
      {| m_path := Some (str "/admin"); m_handler := admin_auth_middleware |} ] ∧
  sv_static_mounts server = [public_mount root] ∧
  sv_error_handler server = Some json_error_handler ∧
  map rm_router (sv_router_mounts server) = [p] ∧
  map (λ m, map seg_text (segs (rm_prefix_segments m))) (sv_router_mounts server)
    = [[str "api"; str "v1"]] ∧
  (∃ r, app_heap app = {[ p := r ]} ∧ rt_mounted r = true ∧
    map (λ r, (r_method r, r_path r, r_handler r)) (rs_routes (rt_routes r))
      = [(HTTP_METHOD_GET, str "/time", router_time_handler)]) ∧
  map (λ r, (wr_path r, wr_handler r, wr_max_message r)) (app_ws app)
    = [ (str "/ws/echo", ws_echo_handler, HTTP_WS_DEFAULT_MAX_MESSAGE);
        (str "/ws/chat/:room", chat, HTTP_WS_DEFAULT_MAX_MESSAGE) ].
Proof.
  intros Hw Hd. rewrite configure_run, Hd by done.
  eexists _, 0%nat. split; [reflexivity|]. cbv zeta.
  split_and!; try reflexivity. eexists. split_and!; reflexivity.
Qed.
End Configured.

(** A file system in which every path is a directory: enough to
    configure a server. *)
Definition directories : World :=
  {| w_alloc := []; w_recv := []; w_send := []; w_sent := []; w_listening := []; w_now := 0;
     w_fs := {| fs_stat := λ _, Some {| st_kind := FDirectory; st_size := 0; st_mtime := 0 |};
                fs_realpath := λ p, Some p; fs_open := λ _, None |} |}.

Definition hang_up : HttpWsHandler := λ ws req, mret ws.

Definition no_encoders : HttpEncoders := {| es_encoders := []; es_capacity := 4 |}.

(** ** The guards *)

(** The paths below a prefix. *)
Definition covered (prefix path : bytes) : bool :=
  streq path prefix || starts_with (prefix ++ str "/") path.

Lemma path_matches_covered u c path :
  c ≠ "/"%ch → u ≠ [] → path_matches (u ++ [c]) path = covered (u ++ [c]) path.
Proof.
  intros Hc Hu. pose proof (path_matches_spec u c false path Hc Hu) as H.
  cbv zeta in H. rewrite app_nil_r in H. apply Bool.eq_iff_eq_true. rewrite H. unfold covered.
  rewrite orb_true_iff, streq_true, starts_with_true.
  split; (intros [->|(t & ->)]; [by left|right; exists t]).
  all: by rewrite <- ?app_assoc.
Qed.

Definition is_admin (req : HttpRequest) : bool :=
  match http_req_header req (Some (str "Authorization")) with
  | Some auth => streq auth ADMIN_TOKEN
  | None => false
  end.

(** What the two groups answer a request they refuse. *)
Definition refusal (req : HttpRequest) : option (Z * bytes) :=
  if covered (str "/api") (req_path req)
     && bool_decide (http_req_header req (Some (str "Authorization")) = None)
  then Some (401, unauthorized_json)
  else if covered (str "/admin") (req_path req) && negb (is_admin req)
  then Some (403, forbidden_json)
  else None.

(** Setting a header changes the headers only. *)
Lemma set_header_res_run res key value w :
  ∃ headers w', set_header_res res key value w = (set_res_headers headers res, w') ∧ same_net w w'.
Proof.
  unfold set_header_res, http_set_res_header. mrun.
  destruct (only_allocates_set_header (res_headers res) (Some key) (Some value) w) as [Hn _].
  unfold result, world in *. destruct (http_set_header _ _ _ w) as [[rc h] w'].
  exists h, w'. by mrun.
Qed.

Ltac header_step :=
  rewrite bind_run; unfold result, world;
  lazymatch goal with
  | |- context [set_header_res ?res ?k ?v ?w] =>
      let h := fresh "h" in let w' := fresh "w'" in let E := fresh "E" in let Hn := fresh "Hn" in
      destruct (set_header_res_run res k v w) as (h & w' & E & Hn); rewrite E
  end; cbn [fst snd].

Lemma copy_body_select b res :
  res_dyn_body res = None → res_encoded_body res = None → select_body (copy_body b res) = b.
Proof.
  intros Hd He. unfold select_body, copy_body. cbn. rewrite He, Hd. apply ztake_app_length.
Qed.

(** Whether the request goes on behind the three middlewares, and with what. *)
Definition passed (req : HttpRequest) (r : bool * HttpResponse) : Prop :=
  match refusal req with
  | Some (status, body) => r.1 = false ∧ res_status r.2 = status ∧ select_body r.2 = body
  | None => r.1 = true ∧
      (covered (str "/api") (req_path req) = true →
       http_res_local r.2 (Some (str "user")) = Some (str "api-user"))
  end.

Section Guards.
Context (chat : HttpWsHandler).

(** The response as it arrives at the middlewares. *)
Definition blank (res : HttpResponse) : Prop :=
  res_dyn_body res = None ∧ res_encoded_body res = None ∧ res_locals res = [].

Lemma cors_run req res w :
  ∃ headers w', cors_middleware req res w
                = ((HTTP_MIDDLEWARE_CONTINUE, set_res_headers headers res), w') ∧ same_net w w'.
Proof.
  unfold cors_middleware. header_step. header_step. exists h0, w'0. split; [done|by etrans].
Qed.

Lemma api_auth_run req res w :
  blank res →
  ∃ r w', api_auth_middleware req res w = (r, w') ∧ same_net w w' ∧
  match http_req_header req (Some (str "Authorization")) with
  | Some _ => r.1 = HTTP_MIDDLEWARE_CONTINUE ∧ res_dyn_body r.2 = None ∧ res_encoded_body r.2 = None ∧
      http_res_local r.2 (Some (str "user")) = Some (str "api-user")
  | None => r.1 = HTTP_MIDDLEWARE_STOP ∧ res_status r.2 = 401 ∧ select_body r.2 = unauthorized_json
  end.
Proof.
  intros (Hd & He & Hl). unfold api_auth_middleware.
  destruct (http_req_header req _) as [auth|].
  - eexists _, w. split; [reflexivity|]. split; [done|]. cbn [fst snd]. split; [done|].
    assert (http_set_local res (Some (str "user")) (Some (str "api-user"))
      = (HTTP_SET_LOCAL_OK,
         set_res_locals [{| l_key := str "user"; l_value := str "api-user" |}] res)) as ->.
    { unfold http_set_local. rewrite Hl. reflexivity. }
    by repeat split.
  - unfold json_type. header_step. header_step. eexists _, _. split; [reflexivity|].
    split; [by etrans|]. split; [done|]. split; [done|]. by apply copy_body_select.
Qed.

Lemma admin_auth_run req res w :
  res_dyn_body res = None → res_encoded_body res = None →
  ∃ r w', admin_auth_middleware req res w = (r, w') ∧ same_net w w' ∧
  if is_admin req then r = (HTTP_MIDDLEWARE_CONTINUE, res)
  else r.1 = HTTP_MIDDLEWARE_STOP ∧ res_status r.2 = 403 ∧ select_body r.2 = forbidden_json.
Proof.
  intros Hd He. unfold admin_auth_middleware. fold (is_admin req). destruct (is_admin req).
  { eexists _, w. by split. }
  unfold json_type. header_step. eexists _, _. split; [reflexivity|]. split; [done|].
  split; [done|]. split; [done|]. by apply copy_body_select.
Qed.

Definition app_middlewares : list HttpMiddleware :=
  [ {| m_path := None; m_handler := cors_middleware |};
    {| m_path := Some (str "/api"); m_handler := api_auth_middleware |};
    {| m_path := Some (str "/admin"); m_handler := admin_auth_middleware |} ].

Lemma api_covered path : path_matches (str "/api") path = covered (str "/api") path.
Proof. by apply (path_matches_covered (str "/ap") "i"%ch). Qed.
Lemma admin_covered path : path_matches (str "/admin") path = covered (str "/admin") path.
Proof. by apply (path_matches_covered (str "/admi") "n"%ch). Qed.

Lemma admin_step req res w :
  res_dyn_body res = None → res_encoded_body res = None →
  ∃ r w', apply_middleware [{| m_path := Some (str "/admin"); m_handler := admin_auth_middleware |}]
            req res w = (r, w') ∧ same_net w w' ∧
  if covered (str "/admin") (req_path req) && negb (is_admin req)
  then r.1 = false ∧ res_status r.2 = 403 ∧ select_body r.2 = forbidden_json
  else r = (true, res).
Proof.
  intros Hd He. cbn [apply_middleware m_path m_handler]. rewrite admin_covered.
  destruct (covered (str "/admin") (req_path req)); cbn [andb].
  2: { eexists _, w. by split. }
  destruct (admin_auth_run req res w Hd He) as ([rc res'] & w' & E & Hn & H).
  rewrite bind_run. unfold result, world. rewrite E. cbn [fst snd].
  destruct (is_admin req); cbn [negb].
  - injection H as -> ->. eexists _, w'. by split.
  - cbn [fst snd] in H. destruct H as (-> & H). eexists _, w'. by split.
Qed.

Lemma guards_run req res w :
  blank res →
  ∃ r w', apply_middleware app_middlewares req res w = (r, w') ∧ same_net w w' ∧ passed req r.
Proof.
  intros (Hd & He & Hl). unfold app_middlewares. cbn [apply_middleware m_path m_handler].
  destruct (cors_run req res w) as (h & w1 & E1 & Hn1).
  rewrite bind_run. unfold result, world. rewrite E1. cbn [fst snd]. rewrite api_covered.
  unfold passed, refusal. destruct (covered (str "/api") (req_path req)) eqn:Ea; cbn [andb].
  - destruct (api_auth_run req (set_res_headers h res) w1) as ([rc res2] & w2 & E2 & Hn2 & H); [done|].
    rewrite bind_run. unfold result, world. rewrite E2. cbn [fst snd] in *.
    destruct (http_req_header req (Some (str "Authorization"))) as [auth|].
    + rewrite bool_decide_false by done. destruct H as (-> & Hd2 & He2 & Hu).
      destruct (admin_step req res2 w2 Hd2 He2) as (r & w3 & E3 & Hn3 & H).
      exists r, w3. split; [exact E3|]. split; [by do 2 (etrans; [eassumption|])|].
      case_if; [done|]. by subst r.
    + rewrite bool_decide_true by done. destruct H as (-> & H). eexists _, w2. split; [done|].
      split; [by etrans|]. done.
  - destruct (admin_step req (set_res_headers h res) w1 Hd He) as (r & w3 & E3 & Hn3 & H).
    exists r, w3. split; [exact E3|]. split; [by etrans|]. case_if; [done|]. by subst r.
Qed.
End Guards.

Section Guarded.
Context (chat : HttpWsHandler) {ws : WsLayer}.

End Guarded.

(** ** On concrete requests *)

(** The configured server, and what it sends for one request on a fresh connection. *)
Definition demo_app : App :=
  configured hang_up (str "www") (created (str "MaxServer") true no_encoders).

Lemma demo_app_configured :
  configure hang_up (str "www") (created (str "MaxServer") true no_encoders) directories
  = (Some demo_app, directories).
Proof. by rewrite configure_run. Qed.

Definition answer_of (app : App) (request : bytes) : bytes :=
  w_sent (world (handle_client (ws := plain_http) (app_server app) (app_heap app) (stack_of NUL) 5
                   (str "10.0.0.1") 80) (with_recv [RData (request ++ CRLFCRLF)] quiet_world)).


Definition get_line (target : bytes) : bytes := str "GET " ++ target ++ str " HTTP/1.1".

(** What follows the header section. *)
Definition body_of (answer : bytes) : option bytes :=
  match strstr CRLFCRLF answer with Some (_, rest) => Some (zdrop 4 rest) | None => None end.

Definition starts_status (status answer : bytes) : bool :=
  starts_with (str "HTTP/1.1 " ++ status ++ CRLF) answer.

(** The page, and its list of links for a request of the fragment. *)
Example home_page_served :
  let answer := answer_of demo_app (get_line (str "/")) in
  starts_status (str "200 OK") answer = true ∧ body_of answer = Some (page_text None fill_home_data).
Proof. vm_compute. auto. Qed.

Example fragment_served :
  body_of (answer_of demo_app (get_line (str "/frag"))) = Some (text "
      
  <ul class='links'>
    <li><a href='/api/status'>API status</a></li>
    <li><a href='/admin/dashboard'>Admin dashboard</a></li>
    <li><a href='/public/ws.html'>WebSocket chat</a></li>
  </ul>") ∧
  body_of (answer_of demo_app (get_line (str "/frag?name=nav"))) = Some [].
Proof. vm_compute. auto. Qed.

Example admin_without_token :
  let answer := answer_of demo_app (get_line (str "/admin/dashboard")) in
  starts_status (str "403 Forbidden") answer = true ∧ body_of answer = Some forbidden_json.
Proof. vm_compute. auto. Qed.

(** A second slash in front, and the dashboard is served to anyone: routing
    drops the empty segment, the guard's prefix comparison does not. *)
Example admin_bypassed :
  let answer := answer_of demo_app (get_line (str "//admin/dashboard")) in
  starts_status (str "200 OK") answer = true ∧ body_of answer = Some dashboard_html.
Proof. vm_compute. auto. Qed.

(** The id is copied into the page as it is, and the page is cut at 63 bytes. *)
Example id_unescaped :
  body_of (answer_of demo_app (get_line (str "/<script>alert(1)<x/test")))
  = Some (ztake 63 (str "<h1>your id: <script>alert(1)<x</h1><a href=" ++ [DQUOTE] ++ str "/" ++ [DQUOTE]
                    ++ str ">back to home</a>")).
Proof. by vm_compute. Qed.

(** An error page names the path without escaping it, and has no body at all
    when the path is long. *)
Example error_page_quote :
  body_of (answer_of demo_app (get_line (str "/no" ++ [DQUOTE]))) =
  Some (str "{" ++ num_member (str "status") 404 ++ str "," ++ member (str "message") (str "Not Found")
        ++ str "," ++ [DQUOTE] ++ str "path" ++ [DQUOTE] ++ str ":" ++ [DQUOTE] ++ str "/no" ++ [DQUOTE]
        ++ [DQUOTE] ++ str "}").
Proof. by vm_compute. Qed.

Example error_page_empty :
  let answer := answer_of demo_app (get_line (str "/" ++ replicate 210 "a"%ch)) in
  starts_status (str "404 Not Found") answer = true ∧ body_of answer = Some [].
Proof. vm_compute. auto. Qed.

(** The results of the registrations are ignored: when the 21st allocation
    fails, the guard of [/admin] is missing, the routes are not, and the server
    starts all the same. *)
Example admin_fails_open :
  let w := with_alloc (replicate 20 true ++ [false]) directories in
  match result (configure hang_up (str "www")
                  (created (str "MaxServer") true no_encoders)) w with
  | Some app => body_of (answer_of app (get_line (str "/admin/dashboard"))) = Some dashboard_html
  | None => False
  end.
Proof. by vm_compute. Qed.

(** ** The whole program *)

Section Program.
Context (chat : HttpWsHandler) {cargs : Cargs}.

(** The state of a server for these arguments, before it is configured. *)
Definition fresh_state (gzip : HttpEncoder) (os : SysOutcomes) (args : Args) (open : list Z) : ServerState :=
  {| ss_config := created (str "MaxServer") true
       {| es_encoders := [gzip; http_identity_encoder]; es_capacity := 4 |};
     ss_fd := os_socket os; ss_port := a_port args; ss_bind_addr := a_bind_addr args;
     ss_listening := false; ss_thread_state := Some {| wk_active := 0; wk_limit := 8 |};
     ss_open := os_socket os :: open |}.

Definition os_ready (os : SysOutcomes) (open : list Z) : Prop :=
  0 <= os_socket os ∧ os_socket os ∉ open ∧ os_getaddrinfo os = true ∧ os_bind os = true ∧
  os_listen os = true ∧ os_thread_sync os = true.

Lemma calm_create_server gzip os args fds : calm (http_create_server gzip os args fds).
Proof. unfold http_create_server, create_tables, http_register_encoder. calmly. Qed.

End Program.

